(* ===== verification/_CoqProject ===== *)
-Q . S2P
Prelude.v
Machine.v
Uflib.v
Model.v
Cancellation.v
Scheduler.v
Describe.v
Coroutine.v
Future.v
Waiting.v
Operators.v
Combinators.v
Dispatch.v
Logic.v
Links.v
CancellationFacts.v
Guarantee.v
Interleave.v
Discipline.v
Race.v
Publication.v
Delivery.v
TokenSpec.v
FutureFacts.v
FutureSpec.v
Demo.v
WaitingFacts.v
AttachFacts.v
OperatorFacts.v
InheritFacts.v
PipelineFacts.v
MovingFacts.v
MovingPipeline.v
CombinatorFacts.v
JoinFacts.v
ArmingFacts.v
SchedulerFacts.v
SchedulerLife.v
AwaitFacts.v
CoroutineFacts.v
PoolFacts.v
PoolSpread.v
DescribeFacts.v
