(* ===== verification/Prelude.v ===== *)
(** * ufsrvrxlib: a verification library

    A model of the C library ufsrvrxlib (promises and futures, reactive operators,
    cancellation tokens, single-worker schedulers, coroutines) and the theorems that
    make its parts correct.  File names are those of the repository, under
    [src/src/]; this file holds what all others share: the fixed-width arithmetic.

    ** The program

    A scheduler (ufsrv_scheduler.c) is one thread, one MPSC queue and one eventfd; a
    pool is an array of schedulers served round-robin.  Coroutines
    (ufsrv_coroutine.c) run on a scheduler's thread and are resumed by jobs in its
    queue.  A promise is the writing end and a future the reading end of one result
    (ufsrv_future.c): completing a future publishes the result, wakes the waiters
    (a blocked thread by its eventfd, a coroutine by a resume job) and runs the
    continuations.  The operators (map, flatMap, onError, doOnSuccess, all, any, zip)
    are continuations that fulfil another promise.  A cancellation token
    (ufsrv_cancellation.c) is a list of callbacks; one of them completes an attached
    future with ECANCELED, another wakes a waiter.

    ** The model

    - Machine.v: a C function body is a [prog], a tree of atomic actions on the state,
      calls through function pointers and coroutine switches.  [run] executes it; a
      use of a freed or foreign address, and [abort], are outcomes of their own.
      [wps p Q W Y s] says that [p] from [s] ends, without undefined behaviour, in
      [Q], or blocks in [W], or switches out in [Y]; [wp] that it ends.  [guar] says
      what every single action preserves, whatever runs in between.
    - Uflib.v: uflib's Treiber stack and MPSC queue and libaco are not in the
      repository.  Their operations are the class [Ext]; what the code relies on is
      stated by [TreiberSpec], [MpscSpec] and [AcoSpec], each of them inhabited by
      the reference implementation [RefExt].
    - Model.v: the structs as records, the function pointers as inductive types, the
      machine state (heap, eventfds, threads, thread-local variables, the history of
      the calls made) and the atomic actions.  Allocation may fail at any point: the
      [oracle] decides, and an empty oracle stands for memory that lasts.
    - Cancellation.v, Scheduler.v, Describe.v, Coroutine.v, Future.v, Waiting.v,
      Operators.v, Combinators.v: one definition per C function, under its name, in
      the order of the source (Waiting, Operators and Combinators are the later parts
      of ufsrv_future.c; Describe the end of ufsrv_scheduler.c).  Loops that follow
      pointers are entries [L_...] of the code table; loops over an index or a
      detached chain are Fixpoints on the index or the chain.
    - Dispatch.v: the code table [body]: what each function pointer runs.  The client's
      functions and the context switch are the parameter [Client].

    ** The theorems

    - Logic.v: the proof rules of the actions and the symbolic-execution tactics.
      Links.v: intrusive doubly linked lists, which the callbacks of a token and the
      unstarted coroutines of a thread both are.
    - Guarantee.v: what no step ever does ([evolves]): the allocator and the
      descriptor table stay well formed, no address is reused or retyped, one-shot
      flags are not taken back.
    - Interleave.v runs any number of the model's programs as threads, one atomic action
      at a time.  Discipline.v is a logic for them: a ghost budget that a step can only
      move, never make, and proofs about one thread that survive every interleaving of
      the others.  Publication.v: a future's result is published at most once, whatever
      threads fulfil, cancel and register at the same time.  Delivery.v: a continuation
      is called at most once per registration.  Race.v: the three-thread executions
      their witnesses look at.
    - CancellationFacts.v, TokenSpec.v: the token's callback list, and the refinement of
      an abstract token: no callback runs twice, none after it was unregistered, all
      memory given back.
    - FutureFacts.v, FutureSpec.v: the representation of a future, completion with
      continuations that may have effects, and the refinement of an abstract
      promise/future object: final result, continuations once, values disposed of
      once, all memory given back.  The object's operations are those of the pair
      itself; operators that move a result out of its future (onError, doOnSuccess,
      any, a followed inner future) are the subject of MovingFacts.v and CombinatorFacts.v.
    - WaitingFacts.v: a blocked [Get] returns what the promise is fulfilled with, a
      cancellable one that or ECANCELED.  AttachFacts.v: a future tied to a token, its
      completion from either side, and the roll-back of a failed attachment.
    - OperatorFacts.v, MovingFacts.v: setting an operator up is all or nothing; what each
      operator makes of its input's result, and who owns the value afterwards.
      MovingPipeline.v: doOnSuccess, onError and flatMap from set-up to completion,
      through a pending inner future too.
      InheritFacts.v: the same set-up on an input tied to a token, which the output
      inherits.  PipelineFacts.v: one cancellation completes input and output.
      CombinatorFacts.v: all, any and zip over inputs that are complete or NULL.
      JoinFacts.v: the same over pending inputs, fulfilled in any order: all is
      fail-fast, the first input to report wins any, zip waits for both.
      ArmingFacts.v: the set-up that leaves pending inputs in that state, so that all,
      any and zip are proved from their call to the last report.
    - SchedulerFacts.v, SchedulerLife.v: jobs run once each in submission order, a
      sleeping worker is woken, [Destroy] drains and reclaims, [Submit] queues or
      refuses.  AwaitFacts.v: a coroutine that waits for a future is parked, and
      resumed by one job on its own scheduler.  CoroutineFacts.v: a coroutine that was
      created is started once or reclaimed with its thread.  PoolFacts.v, PoolSpread.v: creation,
      roll-back and destruction of a pool, and how it spreads jobs.
    - DescribeFacts.v: the JSON report against a reference document, the bounds of the
      worker listing, the escaping of strings with its inverse, and which literals
      RFC 8259 accepts (UTF-8 included).
    - Demo.v: machine states reached by running the model, for the witnesses.

    ** Bounds

    [wps] asks for some number of steps that suffices, so no theorem has fuel in it.
    [Demo.after] runs programs without loops for 400 steps, enough for each use: the
    witnesses evaluate its result.  Reference counts are [int] and wrap; theorems that
    need it assume them below [2^31 - 1].  Eventfd counters stay below [2^64 - 1], and
    the pool's 32-bit counter wraps as in C.

    ** Not modelled

    - uflib and libaco (parameters, above), in particular the memory ordering of the
      lock-free structures: one of their operations is one atomic action, and the
      interleavings are sequentially consistent.
    - Addresses are handed out in increasing order and never reused, so that an address
      names one object for good.
    - The end of a thread runs no destructor of thread-local data: what
      [sThreadStateDestructor] would do then is [sFreeThreadState], modelled as called by
      [UfsrvCoroutineThreadCleanup].  [pthread_once] and [pthread_setspecific] are left out.
      [aco_create] and [aco_share_stack_new] may return NULL in the model, where libaco
      aborts; the entry point given to [aco_create] is not recorded, the first resumption
      of a coroutine starts in [sCoroutineTrampoline] by definition.
    - In the theorems of Publication.v and Delivery.v the threads and client callbacks are
      scripts of API calls; a coroutine resumed in the middle of one is not.
    - The machine code of a context switch: what a resumed coroutine does before it
      switches back is the client's [cl_aco_resume]; the state it is resumed in is
      the code's.
    - The public headers declare what the files above define; version.c.sh generates a
      constant; examples, tests and the CMake files are clients and tools.
    - Every function is modelled; what is not stated for all of them is the whole of a
      pipeline.  The single-input operators are proved from set-up to completion for
      inputs without a token (and map for an input with one), the inner futures of
      flatMap and onError being NULL, complete or pending.  all, any and zip are proved
      from set-up to completion for inputs that are all complete or NULL and for inputs
      that are all pending, the latter while memory lasts. *)
From stdpp Require Export base tactics option list list_numbers numbers gmap strings pretty.

(** ** Fixed-width arithmetic of C *)
Section Widths.
Local Open Scope Z_scope.

(** [unsigned] arithmetic modulo [2^32] and [size_t] arithmetic modulo [2^64]. *)
Definition wrap_u32 (z : Z) : Z := z mod 2 ^ 32.
Definition wrap_u64 (z : Z) : Z := z mod 2 ^ 64.
(** [_Atomic(int)] arithmetic wraps silently (C17 7.17.7.5). *)
Definition wrap_i32 (z : Z) : Z := (z + 2 ^ 31) mod 2 ^ 32 - 2 ^ 31.

Definition int_range (z : Z) : Prop := - 2 ^ 31 <= z < 2 ^ 31.
Definition size_range (z : Z) : Prop := 0 <= z < 2 ^ 64.

Lemma wrap_i32_id z : int_range z -> wrap_i32 z = z.
Proof. unfold int_range, wrap_i32; intros; rewrite Z.mod_small; lia. Qed.
Lemma wrap_i32_range z : int_range (wrap_i32 z).
Proof.
  unfold int_range, wrap_i32.
  pose proof (Z.mod_pos_bound (z + 2 ^ 31) (2 ^ 32)); lia.
Qed.
Lemma wrap_u64_id z : size_range z -> wrap_u64 z = z.
Proof. unfold size_range, wrap_u64; intros; rewrite Z.mod_small; lia. Qed.
Lemma wrap_u32_range z : 0 <= wrap_u32 z < 2 ^ 32.
Proof. unfold wrap_u32; apply Z.mod_pos_bound; lia. Qed.
End Widths.
