(* ===== verification/Machine.v ===== *)
(** * Machine: programs, their sequential and interleaved execution, and the
    total-correctness logic the components are verified in.

    A C function body is a [prog]: a finite tree of atomic actions on the
    machine state, dynamic calls through function pointers, and coroutine
    yields.  Recursion only ever goes through [Call], whose target is looked up
    in a code table [body]; every direct C call is a Rocq application. *)
From Stdlib Require Import FunctionalExtensionality.
From S2P Require Import Prelude.

(** Pointers: [NULL] is 0. *)
Abbreviation ptr := N (only parsing).
Definition NULL : ptr := 0%N.
Definition is_null (p : ptr) : bool := bool_decide (p = NULL).

(** What one atomic action does: succeed, block the thread, abort the process,
    or be undefined behaviour (use after free, double free, bad unlock). *)
Inductive outcome (St B : Type) : Type :=
| Ok (b : B) (s : St)
| Blocked
| Crash
| Stuck.
Arguments Ok {St B} _ _.
Arguments Blocked {St B}.
Arguments Crash {St B}.
Arguments Stuck {St B}.

Section Programs.
Context {St Fn : Type}.

Inductive prog (A : Type) : Type :=
| Ret (a : A)
| Act (B : Type) (f : St -> outcome St B) (k : B -> prog A)
| Call (c : Fn) (k : ptr -> prog A)
| Yield (k : prog A).
Arguments Ret {A} _.
Arguments Act {A B} _ _.
Arguments Call {A} _ _.
Arguments Yield {A} _.

Fixpoint bind {A B : Type} (p : prog A) (k : A -> prog B) : prog B :=
  match p with
  | Ret a => k a
  | Act f q => Act f (fun b => bind (q b) k)
  | Call c q => Call c (fun r => bind (q r) k)
  | Yield q => Yield (bind q k)
  end.

(** Program equality is pointwise; [bind] is associative up to it. *)
Lemma bind_bind {A B C} (p : prog A) (k : A -> prog B) (h : B -> prog C) :
  bind (bind p k) h = bind p (fun a => bind (k a) h).
Proof.
  induction p as [a|D f q IH|c q IH|q IH]; simpl; [done| | |by rewrite IH];
    f_equal; apply functional_extensionality; auto.
Qed.

(** How a sequential run ends. *)
Inductive result (A : Type) : Type :=
| Done (a : A) (s : St)
| Waiting (p : prog A) (s : St)   (* blocked; [p] is what is left to do *)
| Yielded (p : prog A) (s : St)   (* coroutine switched out *)
| Aborted
| Fault
| OutOfFuel.
Arguments Done {A} _ _.
Arguments Waiting {A} _ _.
Arguments Yielded {A} _ _.
Arguments Aborted {A}.
Arguments Fault {A}.
Arguments OutOfFuel {A}.

(** The code table and the call history. *)
Context (body : Fn -> prog ptr) (log : Fn -> St -> St).

Fixpoint run {A : Type} (n : nat) (p : prog A) (s : St) : result A :=
  match n with
  | O => OutOfFuel
  | S n =>
      match p with
      | Ret a => Done a s
      | Act f k =>
          match f s with
          | Ok b s' => run n (k b) s'
          | Blocked => Waiting p s
          | Crash => Aborted
          | Stuck => Fault
          end
      | Call c k => run n (bind (body c) k) (log c s)
      | Yield k => Yielded k s
      end
  end.

(** [wps p Q W Y s]: running [p] from [s] needs finitely many steps, is free of
    undefined behaviour and of [abort], and ends by returning with [Q], by
    blocking with [W], or by yielding with [Y]. *)
Definition wps {A} (p : prog A) (Q : A -> St -> Prop)
    (W Y : prog A -> St -> Prop) (s : St) : Prop :=
  exists n, match run n p s with
            | Done a s' => Q a s'
            | Waiting p' s' => W p' s'
            | Yielded p' s' => Y p' s'
            | _ => False
            end.

(** Total correctness: [p] returns. *)
Definition wp {A} (p : prog A) (Q : A -> St -> Prop) (s : St) : Prop :=
  wps p Q (fun _ _ => False) (fun _ _ => False) s.

Lemma run_more {A} n m (p : prog A) s :
  run n p s <> OutOfFuel -> n <= m -> run m p s = run n p s.
Proof.
  revert m p s; induction n as [|n IH]; intros [|m] p s Hn Hle; simpl in *; try done; try lia.
  destruct p; auto; [destruct (f s)|]; auto with lia.
Qed.

Lemma run_bind {A B} n (p : prog A) (k : A -> prog B) s :
  match run n p s with
  | Done a s' => forall m, run m (k a) s' <> OutOfFuel ->
                   run (n + m) (bind p k) s = run m (k a) s'
  | Waiting p' s' => run n (bind p k) s = Waiting (bind p' k) s'
  | Yielded p' s' => run n (bind p k) s = Yielded (bind p' k) s'
  | _ => True
  end.
Proof.
  revert p s; induction n as [|n IH]; intros p s; [done|].
  destruct p as [a|C f q|c q|q]; simpl run at 1; cbn [bind].
  - intros m Hm. apply run_more; [done|lia].
  - destruct (f s) as [b s'| | |] eqn:E; try done.
    + specialize (IH (q b) s'). destruct (run n (q b) s'); simpl; rewrite ?E; auto.
    + simpl; by rewrite E.
  - specialize (IH (bind (body c) q) (log c s)). rewrite bind_bind in IH.
    destruct (run n (bind (body c) q) (log c s)); simpl; auto.
  - done.
Qed.

(** ** Rules of the logic *)

Lemma wps_mono {A} (p : prog A) Q Q' W W' Y Y' s :
  wps p Q W Y s ->
  (forall a s', Q a s' -> Q' a s') ->
  (forall p' s', W p' s' -> W' p' s') ->
  (forall p' s', Y p' s' -> Y' p' s') ->
  wps p Q' W' Y' s.
Proof. intros [n Hn] ???; exists n; destruct (run n p s); auto. Qed.

Lemma wp_mono {A} (p : prog A) (Q Q' : A -> St -> Prop) s :
  wp p Q s -> (forall a s', Q a s' -> Q' a s') -> wp p Q' s.
Proof. intros Hp HQ; eapply wps_mono; eauto. Qed.

Lemma wps_ret {A} (a : A) (Q : A -> St -> Prop) W Y s : Q a s -> wps (Ret a) Q W Y s.
Proof. intros; by exists 1. Qed.

Lemma wps_act {A B} (f : St -> outcome St B) (k : B -> prog A) Q W Y s b s' :
  f s = Ok b s' -> wps (k b) Q W Y s' -> wps (Act f k) Q W Y s.
Proof. intros Hf [n Hn]; exists (S n); simpl; by rewrite Hf. Qed.

Lemma wps_block {A B} (f : St -> outcome St B) (k : B -> prog A) Q
    (W : prog A -> St -> Prop) Y s :
  f s = Blocked -> W (Act f k) s -> wps (Act f k) Q W Y s.
Proof. intros Hf HW; exists 1; simpl; by rewrite Hf. Qed.

Lemma wps_yield {A} (k : prog A) Q W (Y : prog A -> St -> Prop) s :
  Y k s -> wps (Yield k) Q W Y s.
Proof. intros; by exists 1. Qed.

Lemma wps_bind {A B} (p : prog A) (k : A -> prog B) Q W Y s :
  wps p (fun a s' => wps (k a) Q W Y s')
      (fun p' s' => W (bind p' k) s') (fun p' s' => Y (bind p' k) s') s ->
  wps (bind p k) Q W Y s.
Proof.
  intros [n Hn]; pose proof (run_bind n p k s) as Hb.
  destruct (run n p s) as [a s'|p' s'|p' s'| | |]; try done.
  - destruct Hn as [m Hm]. exists (n + m). rewrite Hb; [done|].
    by intros E; rewrite E in Hm.
  - exists n; by rewrite Hb.
  - exists n; by rewrite Hb.
Qed.

Lemma wps_call {A} (c : Fn) (k : ptr -> prog A) Q W Y s :
  wps (body c) (fun r s' => wps (k r) Q W Y s')
      (fun p' s' => W (bind p' k) s') (fun p' s' => Y (bind p' k) s') (log c s) ->
  wps (Call c k) Q W Y s.
Proof. intros Hc; apply wps_bind in Hc as [n Hn]; by exists (S n). Qed.

(** Sequencing a step whose specification is known to return. *)
Lemma wps_seq {A B} (p : prog A) (k : A -> prog B) (R : A -> St -> Prop) Q W Y s :
  wp p R s ->
  (forall a s', R a s' -> wps (k a) Q W Y s') ->
  wps (bind p k) Q W Y s.
Proof.
  intros Hp Hk; apply wps_bind; eapply wps_mono; [exact Hp|eauto| |]; naive_solver.
Qed.

Lemma wps_call_seq {A} (c : Fn) (k : ptr -> prog A) (R : ptr -> St -> Prop) Q W Y s :
  wp (body c) R (log c s) ->
  (forall r s', R r s' -> wps (k r) Q W Y s') ->
  wps (Call c k) Q W Y s.
Proof.
  intros Hp Hk; apply wps_call; eapply wps_mono; [exact Hp|eauto| |]; naive_solver.
Qed.

(** The machine is deterministic: two successful runs agree. *)
Lemma wp_det {A} (p : prog A) (Q R : A -> St -> Prop) s :
  wp p Q s -> wp p R s -> wp p (fun a s' => Q a s' /\ R a s') s.
Proof.
  intros [n Hn] [m Hm]. exists (n + m).
  destruct (run n p s) as [a s'| | | | |] eqn:En; try done.
  destruct (run m p s) as [b s''| | | | |] eqn:Em; try done.
  assert (E1 : run (n + m) p s = run n p s) by (apply run_more; [by rewrite En|lia]).
  assert (E2 : run (n + m) p s = run m p s) by (apply run_more; [by rewrite Em|lia]).
  rewrite E1, En. rewrite E1, En, Em in E2. by simplify_eq.
Qed.

(** A run that returns is what [wp] speaks about. *)
Lemma wp_run {A} (p : prog A) (Q : A -> St -> Prop) s :
  wp p Q s <-> exists n a s', run n p s = Done a s' /\ Q a s'.
Proof.
  split.
  - intros [n Hn]; exists n. destruct (run n p s) eqn:E; naive_solver.
  - intros (n & a & s' & E & HQ); exists n; by rewrite E.
Qed.

Lemma wp_done {A} n (p : prog A) (Q : A -> St -> Prop) s a s' :
  wp p Q s -> run n p s = Done a s' -> Q a s'.
Proof.
  intros [m Hm] Hr. destruct (run m p s) as [b t| | | | |] eqn:E; try done.
  assert (E1 : run (n + m) p s = run n p s) by (apply run_more; [by rewrite Hr|lia]).
  assert (E2 : run (n + m) p s = run m p s) by (apply run_more; [by rewrite E|lia]).
  rewrite E1, Hr, E in E2. by simplify_eq.
Qed.
End Programs.

Arguments prog St Fn A : clear implicits.
Arguments Ret {St Fn A} _.
Arguments Act {St Fn A B} _ _.
Arguments Call {St Fn A} _ _.
Arguments Yield {St Fn A} _.
Arguments Done {St Fn A} _ _.
Arguments Waiting {St Fn A} _ _.
Arguments Yielded {St Fn A} _ _.
Arguments Aborted {St Fn A}.
Arguments Fault {St Fn A}.
Arguments OutOfFuel {St Fn A}.

(** ** Guarantees

    [guar R p]: every atomic action that [p] can perform relates the states
    before and after it by [R].  Being a property of single actions, it survives
    any interleaving with other programs. *)
Section Guarantees.
Context {St Fn : Type} (R : St -> St -> Prop).

Inductive guar {A : Type} : prog St Fn A -> Prop :=
| guar_ret a : guar (Ret a)
| guar_act B (f : St -> outcome St B) k :
    (forall s b s', f s = Ok b s' -> R s s') -> (forall b, guar (k b)) -> guar (Act f k)
| guar_call c k : (forall r, guar (k r)) -> guar (Call c k)
| guar_yield k : guar k -> guar (Yield k).

Lemma guar_bind {A B} (p : prog St Fn A) (k : A -> prog St Fn B) :
  guar p -> (forall a, guar (k a)) -> guar (bind p k).
Proof. induction 1; simpl; eauto using @guar. Qed.

Lemma guar_inv {A} (p : prog St Fn A) :
  guar p ->
  match p with
  | Ret _ => True
  | Act f k => (forall s b s', f s = Ok b s' -> R s s') /\ (forall b, guar (k b))
  | Call _ k => forall r, guar (k r)
  | Yield k => guar k
  end.
Proof. by destruct 1. Qed.

Context (body : Fn -> prog St Fn ptr) (log : Fn -> St -> St).
Context `{!PreOrder R}.
Hypothesis R_log : forall c s, R s (log c s).
Hypothesis body_guar : forall c, guar (body c).

(** A program made of such actions, run over a table of such programs, moves
    the state along [R], and so does what is left of it when it is suspended. *)
Lemma guar_run {A} n (p : prog St Fn A) s :
  guar p ->
  match run body log n p s with
  | Done _ s' => R s s'
  | Waiting p' s' | Yielded p' s' => R s s' /\ guar p'
  | _ => True
  end.
Proof.
  revert p s; induction n as [|n IH]; intros p s Hp; [done|].
  destruct Hp as [a|B f k Hf Hk|c k Hk|k Hk]; simpl.
  - reflexivity.
  - destruct (f s) as [b s'| | |] eqn:Ef; [|split; [reflexivity|by constructor]|done..].
    pose proof (Hf _ _ _ Ef) as H1. specialize (IH (k b) s' (Hk b)).
    destruct (run body log n (k b) s'); try done; [|destruct IH; split; [|done]..]; by etrans.
  - pose proof (R_log c s) as H1.
    specialize (IH (bind (body c) k) (log c s) (guar_bind _ _ (body_guar c) Hk)).
    destruct (run body log n (bind (body c) k) (log c s)); try done;
      [|destruct IH; split; [|done]..]; by etrans.
  - split; [reflexivity|done].
Qed.

Lemma wps_guar {A} (p : prog St Fn A) (Q : A -> St -> Prop) W Y s :
  guar p -> wps body log p Q W Y s ->
  wps body log p (fun a s' => Q a s' /\ R s s') (fun p' s' => W p' s' /\ R s s')
    (fun p' s' => Y p' s' /\ R s s') s.
Proof.
  intros Hp [n Hn]; exists n. pose proof (guar_run n p s Hp).
  destruct (run body log n p s); naive_solver.
Qed.

Lemma wp_guar {A} (p : prog St Fn A) (Q : A -> St -> Prop) s :
  guar p -> wp body log p Q s -> wp body log p (fun a s' => Q a s' /\ R s s') s.
Proof. intros Hp HQ; eapply wps_mono; [by apply wps_guar|..]; naive_solver. Qed.
End Guarantees.

(** Since runs are deterministic, a family of postconditions holds jointly. *)
Lemma wp_forall {St Fn A I} body log (p : prog St Fn A) (Q : I -> A -> St -> Prop) s (i0 : I) :
  (forall i, wp body log p (Q i) s) -> wp body log p (fun a s' => forall i, Q i a s') s.
Proof.
  intros HQ. apply wp_run. destruct (proj1 (wp_run _ _ _ _ _) (HQ i0)) as (n & a & s' & E & _).
  exists n, a, s'. split; [done|]. intros i.
  destruct (proj1 (wp_run _ _ _ _ _) (HQ i)) as (m & b & s'' & E' & Hi).
  assert (E1 : run body log (n + m) p s = Done a s') by (rewrite <- E; apply run_more; [by rewrite E|lia]).
  assert (E2 : run body log (n + m) p s = Done b s'') by (rewrite <- E'; apply run_more; [by rewrite E'|lia]).
  by rewrite E1 in E2; simplify_eq.
Qed.

Declare Scope prog_scope.
Delimit Scope prog_scope with prog.
Bind Scope prog_scope with prog.
Notation "'let!' x ':=' p 'in' q" := (bind p (fun x => q))
  (at level 10, x name, p at level 100, q at level 200,
   format "'let!'  x  ':='  p  'in' '//' q") : prog_scope.
Notation "p ;; q" := (bind p (fun _ => q))
  (at level 100, q at level 200, right associativity) : prog_scope.

Definition when {St Fn} (b : bool) (p : prog St Fn unit) : prog St Fn unit :=
  if b then p else Ret tt.
