(* ===== verification/Uflib.v ===== *)
(** * Uflib: the libraries ufsrvrxlib calls but does not contain.

    uflib's Treiber stack ([lockless_treiber_stack.h]), its MPSC queue
    ([cdt_mpsc_queue.h]) and libaco are not part of the repository.  They enter
    the model as the operations of the class [Ext]; what the code relies on is
    stated by the specification classes below, which the theorems that need it
    take as hypotheses.  [RefExt] is one concrete implementation: it inhabits the
    classes and makes every definition executable. *)
From S2P Require Import Prelude Machine.

(** The operations, each as a transformer of the object it is applied to.  One
    call is one atomic action of the machine. *)
Class Ext := {
  (* lockless_treiber_stack: the stack object and the node embedded in a client
     struct.  [steal_all_and_close] yields the detached chain, head first. *)
  tstack : Type;
  tnode : Type;
  ts_create : tstack;
  ts_push : ptr -> tstack -> bool * tstack;
  ts_steal_all_and_close : tstack -> list ptr * tstack;
  tn_init : tnode;
  tn_retain : tnode -> tnode;
  tn_claim : tnode -> bool * tnode;
  tn_release : tnode -> bool * tnode;
  (* cdt_mpsc_queue *)
  mqueue : Type;
  mq_init : mqueue;
  mq_insert : ptr -> mqueue -> mqueue;
  mq_pop : mqueue -> option ptr * mqueue;
  (* libaco: the fields of [aco_t] the code touches *)
  aco_t : Type;
  aco_new : ptr -> ptr -> ptr -> aco_t;    (* main_co, share_stack, arg *)
  aco_arg : aco_t -> ptr;
  aco_set_arg : ptr -> aco_t -> aco_t;
  aco_is_end : aco_t -> bool;
  aco_set_end : aco_t -> aco_t;
}.

(** "A multi-producer push and a single-consumer steal-all drain, with per-node
    exactly-once claim and release" (ufsrvrxlib(7)); a fresh node carries two
    references, the pusher's and the stack's (ufsrv_future.c:540-552). *)
Class TreiberSpec (E : Ext) := {
  ts_nodes : tstack -> list ptr;
  ts_closed : tstack -> bool;
  ts_create_nodes : ts_nodes ts_create = [];
  ts_create_open : ts_closed ts_create = false;
  ts_push_accepts p t : (ts_push p t).1 = negb (ts_closed t);
  ts_push_nodes p t :
    ts_nodes (ts_push p t).2 = if ts_closed t then ts_nodes t else p :: ts_nodes t;
  ts_push_closed p t : ts_closed (ts_push p t).2 = ts_closed t;
  ts_steal_list t : (ts_steal_all_and_close t).1 = ts_nodes t;
  ts_steal_nodes t : ts_nodes (ts_steal_all_and_close t).2 = [];
  ts_steal_closed t : ts_closed (ts_steal_all_and_close t).2 = true;
  tn_refs : tnode -> Z;
  tn_claimed : tnode -> bool;
  tn_init_refs : tn_refs tn_init = 2%Z;
  tn_init_claimed : tn_claimed tn_init = false;
  tn_retain_refs n : tn_refs (tn_retain n) = (tn_refs n + 1)%Z;
  tn_retain_claimed n : tn_claimed (tn_retain n) = tn_claimed n;
  tn_claim_wins n : (tn_claim n).1 = negb (tn_claimed n);
  tn_claim_claimed n : tn_claimed (tn_claim n).2 = true;
  tn_claim_refs n : tn_refs (tn_claim n).2 = tn_refs n;
  tn_release_last n : (tn_release n).1 = bool_decide (tn_refs n = 1%Z);
  tn_release_refs n : tn_refs (tn_release n).2 = (tn_refs n - 1)%Z;
  tn_release_claimed n : tn_claimed (tn_release n).2 = tn_claimed n;
}.

(** "The worker pops in submission order" (API guide, section 4). *)
Class MpscSpec (E : Ext) := {
  mq_list : mqueue -> list ptr;
  mq_init_list : mq_list mq_init = [];
  mq_insert_list p q : mq_list (mq_insert p q) = mq_list q ++ [p];
  mq_pop_head q : (mq_pop q).1 = head (mq_list q);
  mq_pop_list q : mq_list (mq_pop q).2 = tail (mq_list q);
}.

Class AcoSpec (E : Ext) := {
  aco_new_arg m st a : aco_arg (aco_new m st a) = a;
  aco_new_end m st a : aco_is_end (aco_new m st a) = false;
  aco_set_arg_arg a c : aco_arg (aco_set_arg a c) = a;
  aco_set_arg_end a c : aco_is_end (aco_set_arg a c) = aco_is_end c;
  aco_set_end_end c : aco_is_end (aco_set_end c) = true;
}.

(** ** A reference implementation *)
Module RefExt.
Record stack := Stack { nodes : list ptr; closed : bool }.
Record node := Node { refs : Z; claimed : bool }.
Record aco := Aco { main : ptr; share : ptr; arg : ptr; is_end : bool }.

Definition push (p : ptr) (t : stack) : bool * stack :=
  if closed t then (false, t) else (true, Stack (p :: nodes t) false).
Definition release (n : node) : bool * node :=
  (bool_decide (refs n = 1%Z), Node (refs n - 1) (claimed n)).

#[export] Instance ext : Ext := {|
  tstack := stack;
  tnode := node;
  ts_create := Stack [] false;
  ts_push := push;
  ts_steal_all_and_close t := (nodes t, Stack [] true);
  tn_init := Node 2 false;
  tn_retain n := Node (refs n + 1) (claimed n);
  tn_claim n := (negb (claimed n), Node (refs n) true);
  tn_release := release;
  mqueue := list ptr;
  mq_init := [];
  mq_insert p q := q ++ [p];
  mq_pop q := (head q, tail q);
  aco_t := aco;
  aco_new m st a := Aco m st a false;
  aco_arg := arg;
  aco_set_arg a c := Aco (main c) (share c) a (is_end c);
  aco_is_end := is_end;
  aco_set_end c := Aco (main c) (share c) (arg c) true;
|}.

#[export] Instance treiber : TreiberSpec ext.
Proof.
  refine {| ts_nodes := nodes : @tstack ext -> _;
            ts_closed := closed : @tstack ext -> _;
            tn_refs := refs : @tnode ext -> _;
            tn_claimed := claimed : @tnode ext -> _ |}; try done;
    intros p t; simpl; unfold push; by destruct (closed t) eqn:E.
Defined.

#[export] Instance mpsc : MpscSpec ext.
Proof. by refine {| mq_list := (fun q => q) : @mqueue ext -> _ |}. Defined.

#[export] Instance aco_spec : AcoSpec ext.
Proof. by split. Defined.
End RefExt.
