(* ===== verification/Model.v ===== *)
(** * Model: the data of ufsrvrxlib and the machine state.

    Every struct of the sources is a record with the source's fields (prefixed
    by the struct, since Rocq's projections are global); every function-pointer
    type is an inductive naming the library functions whose address is taken,
    plus [.._user n] for the [n]-th client function.  The heap maps addresses
    to structs; an access to an absent address, or to one holding a struct of
    another type, is undefined behaviour ([Stuck]). *)
From S2P Require Import Prelude Machine Uflib.

(** ** Function pointers *)

(** The type of [free_value]: libc's [free] or a client destructor. *)
Inductive free_fn := FREE_libc | FREE_user (n : N).

(** [UfsrvFutureCallback] *)
Inductive fut_cb :=
| CB_user (n : N)
| CB_sMoveChainContinuation
| CB_sMapContinuation
| CB_sFlatMapContinuation
| CB_sOnErrorContinuation
| CB_sDoOnSuccessContinuation
| CB_sAllContinuation
| CB_sAnyContinuation
| CB_sZipFirstContinuation
| CB_sZipSecondContinuation.

(** [UfsrvCancellationCallback], also the type of [release_context]. *)
Inductive cancel_cb :=
| CC_user (n : N)
| CC_sFutureCancelCallback
| CC_sFutureCancelRelease
| CC_sResumeWaiterOnCancel
| CC_sWakeBlockingWaiterOnCancel
| CC_sWaiterCancelRelease.

(** [UfsrvSchedulerJobCallback] *)
Inductive job_cb := JB_user (n : N) | JB_sResumeJob | JB_sSpawnJob.

(** A dynamic call: a function pointer with its arguments, or the head of a loop
    whose iteration follows pointers ([L_...]). *)
Inductive code :=
| K_future_cb (fn : fut_cb) (result_ptr context_ptr : ptr)
| K_map (fn : N) (value_ptr context_ptr : ptr)
| K_flat_map (fn : N) (value_ptr context_ptr : ptr)
| K_recover (fn : N) (error : Z) (context_ptr : ptr)
| K_action (fn : N) (value_ptr context_ptr : ptr)
| K_zip (fn : N) (value_a_ptr value_b_ptr context_ptr : ptr)
| K_free_value (fn : free_fn) (value_ptr : ptr)
| K_cancel_cb (fn : cancel_cb) (context_ptr : ptr)
| K_job (fn : job_cb) (context_ptr : ptr)
| K_entry (fn : N)
| K_aco_resume (co : ptr)
| K_sWorkerMain (scheduler_ptr : ptr)
| L_token_reclaim (node : ptr)
| L_cancel_mark (walk : ptr)
| L_cancel_run (node : ptr)
| L_read_retry (fd : Z)
| L_worker (scheduler_ptr : ptr)
| L_worker_drain (scheduler_ptr : ptr)
| L_destroy_drain (scheduler_ptr : ptr)
| L_reclaim_unstarted.

#[export] Instance free_fn_eq_dec : EqDecision free_fn.
Proof. solve_decision. Defined.
#[export] Instance fut_cb_eq_dec : EqDecision fut_cb.
Proof. solve_decision. Defined.
#[export] Instance cancel_cb_eq_dec : EqDecision cancel_cb.
Proof. solve_decision. Defined.
#[export] Instance job_cb_eq_dec : EqDecision job_cb.
Proof. solve_decision. Defined.
#[export] Instance code_eq_dec : EqDecision code.
Proof. solve_decision. Defined.

(** ** Error codes (Linux errno) *)
Definition EPIPE : Z := 32.
Definition EINVAL : Z := 22.
Definition EDEADLK : Z := 35.
Definition ECANCELED : Z := 125.

(** ** Structs *)

(** ufsrv_future_type.h *)
Record UfsrvFutureResult := MkResult {
  res_error : Z;
  res_value : ptr;
  res_free_value : option free_fn;
}.
Definition zero_result : UfsrvFutureResult := MkResult 0 NULL None.
Definition error_result (e : Z) : UfsrvFutureResult := MkResult e NULL None.

#[export] Instance result_eq_dec : EqDecision UfsrvFutureResult.
Proof. solve_decision. Defined.

(** ufsrv_future_priv.h: [UFSRV_FUTURE_PENDING] / [UFSRV_FUTURE_READY] *)
Inductive future_state := PENDING | READY.
#[export] Instance future_state_eq_dec : EqDecision future_state.
Proof. solve_decision. Defined.

Section Structs.
Context {E : Ext}.

(** ufsrv_future_priv.h *)
Record UfsrvContinuation := MkContinuation {
  cont_base : tnode;
  cont_fn : fut_cb;
  cont_user : ptr;
}.

Record UfsrvWaiter := MkWaiter {
  wt_base : tnode;
  wt_coroutine : ptr;
  wt_scheduler : ptr;
  wt_block_fd : Z;
  wt_cancel_handle : ptr;
}.

Record UfsrvFuture := MkFuture {
  fut_is_completed : bool;
  fut_is_consumed : bool;
  fut_state : future_state;
  fut_result : UfsrvFutureResult;
  fut_continuations : ptr;
  fut_waiters : ptr;
  fut_refcount : Z;
  fut_cancel_token : ptr;
  fut_cancel_handle : ptr;
}.

Record UfsrvPromise := MkPromise {
  prm_future : ptr;
  prm_is_fulfilled : bool;
}.

(** ufsrv_cancellation_priv.h *)
Record UfsrvCancellationCallback := MkCallback {
  cb_prev : ptr;
  cb_next : ptr;
  cb_token : ptr;
  cb_refcount : Z;
  cb_active : bool;
  cb_claimed : bool;
  cb_fn : cancel_cb;
  cb_context : ptr;
  cb_release_context : option cancel_cb;
}.

Record UfsrvCancellationToken := MkToken {
  tok_refcount : Z;
  tok_lock : bool;
  tok_is_cancelled : bool;
  tok_head : ptr;
}.

(** Operator and combinator contexts of ufsrv_future.c *)
Record UfsrvMapContext := MkMapContext {
  map_out_promise : ptr;
  map_mapper : N;
  map_user : ptr;
  map_free_value : option free_fn;
}.
Record UfsrvFlatMapContext := MkFlatMapContext {
  fm_out_promise : ptr;
  fm_mapper : N;
  fm_user : ptr;
  fm_token : ptr;
}.
Record UfsrvOnErrorContext := MkOnErrorContext {
  oe_out_promise : ptr;
  oe_recovery : N;
  oe_user : ptr;
  oe_in_future : ptr;
}.
Record UfsrvDoOnSuccessContext := MkDoOnSuccessContext {
  ds_out_promise : ptr;
  ds_action : N;
  ds_user : ptr;
  ds_in_future : ptr;
}.
Record UfsrvAllContext := MkAllContext {
  all_out_promise : ptr;
  all_remaining : Z;
  all_failed : bool;
}.
Record UfsrvAnyContext := MkAnyContext {
  any_out_promise : ptr;
  any_claimed : bool;
  any_remaining : Z;
}.
Record UfsrvAnyRegistration := MkAnyRegistration {
  anyreg_ctx : ptr;
  anyreg_in_future : ptr;
}.
Record UfsrvZipContext := MkZipContext {
  zip_out_promise : ptr;
  zip_zipper : N;
  zip_user : ptr;
  zip_first_future : ptr;
  zip_second_future : ptr;
  zip_first : UfsrvFutureResult;
  zip_second : UfsrvFutureResult;
  zip_remaining : Z;
  zip_free_value : option free_fn;
}.

(** ufsrv_scheduler_priv.h *)
Record UfsrvSchedulerJob := MkJob {
  job_callback : option job_cb;
  job_callback_context : ptr;
}.
Record UfsrvScheduler := MkScheduler {
  sch_queue : mqueue;
  sch_event_fd : Z;
  sch_thread : N;
  sch_name : ptr;
  sch_is_running : bool;
  sch_is_started : bool;
  sch_is_joined : bool;
  sch_is_worker_id_ready : bool;
  sch_worker_id : N;
}.
Record UfsrvSchedulerPool := MkPool {
  pool_workers : ptr;
  pool_worker_pool_sz : Z;
  pool_next : Z;
  pool_is_running : bool;
}.

(** ufsrv_coroutine.c *)
Record UfsrvCoroutineStart := MkStart {
  start_prev : ptr;
  start_next : ptr;
  start_coroutine : ptr;
  start_entry : N;
  start_arg : ptr;
}.
Record UfsrvResumeContext := MkResumeContext {
  rc_scheduler : ptr;
  rc_coroutine : ptr;
}.
Record UfsrvSpawnContext := MkSpawnContext {
  sc_scheduler : ptr;
  sc_entry : N;
  sc_arg_ptr : ptr;
}.

(** What an address can hold. *)
Inductive obj :=
| OFuture (x : UfsrvFuture)
| OPromise (x : UfsrvPromise)
| OContinuation (x : UfsrvContinuation)
| OWaiter (x : UfsrvWaiter)
| OStack (x : tstack)
| OCallback (x : UfsrvCancellationCallback)
| OToken (x : UfsrvCancellationToken)
| OMapContext (x : UfsrvMapContext)
| OFlatMapContext (x : UfsrvFlatMapContext)
| OOnErrorContext (x : UfsrvOnErrorContext)
| ODoOnSuccessContext (x : UfsrvDoOnSuccessContext)
| OAllContext (x : UfsrvAllContext)
| OAnyContext (x : UfsrvAnyContext)
| OAnyRegistration (x : UfsrvAnyRegistration)
| OZipContext (x : UfsrvZipContext)
| OJob (x : UfsrvSchedulerJob)
| OScheduler (x : UfsrvScheduler)
| OPool (x : UfsrvSchedulerPool)
| OStart (x : UfsrvCoroutineStart)
| OResumeContext (x : UfsrvResumeContext)
| OSpawnContext (x : UfsrvSpawnContext)
| OAco (x : aco_t)
| OShareStack
| OString (x : string)
| OArray (x : list ptr).

(** The thread-local variables of ufsrv_coroutine.c and ufsrv_scheduler.c, and
    libaco's current coroutine. *)
Record tls_t := MkTls {
  t_main_co : ptr;
  t_share_stack : ptr;
  t_initialized : bool;
  t_current_scheduler : ptr;
  t_unstarted_head : ptr;
  t_worker_scheduler : ptr;
  t_aco_co : ptr;
}.
Definition tls_init : tls_t := MkTls NULL NULL false NULL NULL NULL NULL.

(** ** The machine state

    [oracle] lists, in order, the outcomes of the platform calls that may fail
    ([true] = fails: allocation, [eventfd], [pthread_create], an interrupted
    [read]); past its end they succeed.  [trace] is the history of dynamic
    calls, oldest first. *)
Record st := MkSt {
  heap : gmap N obj;
  next_ptr : N;
  fds : gmap Z Z;
  next_fd : Z;
  oracle : list bool;
  ndebug : bool;
  cur : N;
  tls : gmap N tls_t;
  next_tid : N;
  spawned : list (N * code);
  exited : list N;
  trace : list code;
}.

Definition with_heap (f : gmap N obj -> gmap N obj) (s : st) : st :=
  MkSt (f (heap s)) (next_ptr s) (fds s) (next_fd s) (oracle s) (ndebug s) (cur s) (tls s)
       (next_tid s) (spawned s) (exited s) (trace s).
Definition with_next_ptr (p : N) (s : st) : st :=
  MkSt (heap s) p (fds s) (next_fd s) (oracle s) (ndebug s) (cur s) (tls s)
       (next_tid s) (spawned s) (exited s) (trace s).
Definition with_fds (f : gmap Z Z -> gmap Z Z) (s : st) : st :=
  MkSt (heap s) (next_ptr s) (f (fds s)) (next_fd s) (oracle s) (ndebug s) (cur s) (tls s)
       (next_tid s) (spawned s) (exited s) (trace s).
Definition with_next_fd (z : Z) (s : st) : st :=
  MkSt (heap s) (next_ptr s) (fds s) z (oracle s) (ndebug s) (cur s) (tls s)
       (next_tid s) (spawned s) (exited s) (trace s).
Definition with_oracle (o : list bool) (s : st) : st :=
  MkSt (heap s) (next_ptr s) (fds s) (next_fd s) o (ndebug s) (cur s) (tls s)
       (next_tid s) (spawned s) (exited s) (trace s).
Definition with_cur (c : N) (s : st) : st :=
  MkSt (heap s) (next_ptr s) (fds s) (next_fd s) (oracle s) (ndebug s) c (tls s)
       (next_tid s) (spawned s) (exited s) (trace s).
Definition with_tls (f : gmap N tls_t -> gmap N tls_t) (s : st) : st :=
  MkSt (heap s) (next_ptr s) (fds s) (next_fd s) (oracle s) (ndebug s) (cur s) (f (tls s))
       (next_tid s) (spawned s) (exited s) (trace s).
Definition with_spawn (t : N) (c : code) (s : st) : st :=
  MkSt (heap s) (next_ptr s) (fds s) (next_fd s) (oracle s) (ndebug s) (cur s) (tls s)
       (t + 1) (spawned s ++ [(t, c)]) (exited s) (trace s).
Definition with_exited (t : N) (s : st) : st :=
  MkSt (heap s) (next_ptr s) (fds s) (next_fd s) (oracle s) (ndebug s) (cur s) (tls s)
       (next_tid s) (spawned s) (exited s ++ [t]) (trace s).
Definition with_trace (l : list code) (s : st) : st :=
  MkSt (heap s) (next_ptr s) (fds s) (next_fd s) (oracle s) (ndebug s) (cur s) (tls s)
       (next_tid s) (spawned s) (exited s) l.

(** Loop heads are not calls: only [K_...] enter the history. *)
Definition is_loop (c : code) : bool :=
  match c with
  | L_token_reclaim _ | L_cancel_mark _ | L_cancel_run _ | L_read_retry _
  | L_worker _ | L_worker_drain _ | L_destroy_drain _ | L_reclaim_unstarted => true
  | _ => false
  end.
Definition log (c : code) (s : st) : st :=
  if is_loop c then s else with_trace (trace s ++ [c]) s.

Definition tls_of (s : st) : tls_t := default tls_init (tls s !! cur s).

(** Field assignment. *)
Definition set_cont_base v (x : UfsrvContinuation) : UfsrvContinuation :=
  MkContinuation v (cont_fn x) (cont_user x).
Definition set_wt_base v (x : UfsrvWaiter) : UfsrvWaiter :=
  MkWaiter v (wt_coroutine x) (wt_scheduler x) (wt_block_fd x) (wt_cancel_handle x).
Definition set_wt_block_fd v (x : UfsrvWaiter) : UfsrvWaiter :=
  MkWaiter (wt_base x) (wt_coroutine x) (wt_scheduler x) v (wt_cancel_handle x).
Definition set_wt_cancel_handle v (x : UfsrvWaiter) : UfsrvWaiter :=
  MkWaiter (wt_base x) (wt_coroutine x) (wt_scheduler x) (wt_block_fd x) v.
Definition set_fut_is_completed v (x : UfsrvFuture) : UfsrvFuture :=
  MkFuture v (fut_is_consumed x) (fut_state x) (fut_result x) (fut_continuations x) (fut_waiters x) (fut_refcount x) (fut_cancel_token x) (fut_cancel_handle x).
Definition set_fut_is_consumed v (x : UfsrvFuture) : UfsrvFuture :=
  MkFuture (fut_is_completed x) v (fut_state x) (fut_result x) (fut_continuations x) (fut_waiters x) (fut_refcount x) (fut_cancel_token x) (fut_cancel_handle x).
Definition set_fut_state v (x : UfsrvFuture) : UfsrvFuture :=
  MkFuture (fut_is_completed x) (fut_is_consumed x) v (fut_result x) (fut_continuations x) (fut_waiters x) (fut_refcount x) (fut_cancel_token x) (fut_cancel_handle x).
Definition set_fut_result v (x : UfsrvFuture) : UfsrvFuture :=
  MkFuture (fut_is_completed x) (fut_is_consumed x) (fut_state x) v (fut_continuations x) (fut_waiters x) (fut_refcount x) (fut_cancel_token x) (fut_cancel_handle x).
Definition set_fut_refcount v (x : UfsrvFuture) : UfsrvFuture :=
  MkFuture (fut_is_completed x) (fut_is_consumed x) (fut_state x) (fut_result x) (fut_continuations x) (fut_waiters x) v (fut_cancel_token x) (fut_cancel_handle x).
Definition set_fut_cancel_token v (x : UfsrvFuture) : UfsrvFuture :=
  MkFuture (fut_is_completed x) (fut_is_consumed x) (fut_state x) (fut_result x) (fut_continuations x) (fut_waiters x) (fut_refcount x) v (fut_cancel_handle x).
Definition set_fut_cancel_handle v (x : UfsrvFuture) : UfsrvFuture :=
  MkFuture (fut_is_completed x) (fut_is_consumed x) (fut_state x) (fut_result x) (fut_continuations x) (fut_waiters x) (fut_refcount x) (fut_cancel_token x) v.
Definition set_prm_is_fulfilled v (x : UfsrvPromise) : UfsrvPromise :=
  MkPromise (prm_future x) v.
Definition set_cb_prev v (x : UfsrvCancellationCallback) : UfsrvCancellationCallback :=
  MkCallback v (cb_next x) (cb_token x) (cb_refcount x) (cb_active x) (cb_claimed x) (cb_fn x) (cb_context x) (cb_release_context x).
Definition set_cb_next v (x : UfsrvCancellationCallback) : UfsrvCancellationCallback :=
  MkCallback (cb_prev x) v (cb_token x) (cb_refcount x) (cb_active x) (cb_claimed x) (cb_fn x) (cb_context x) (cb_release_context x).
Definition set_cb_refcount v (x : UfsrvCancellationCallback) : UfsrvCancellationCallback :=
  MkCallback (cb_prev x) (cb_next x) (cb_token x) v (cb_active x) (cb_claimed x) (cb_fn x) (cb_context x) (cb_release_context x).
Definition set_cb_active v (x : UfsrvCancellationCallback) : UfsrvCancellationCallback :=
  MkCallback (cb_prev x) (cb_next x) (cb_token x) (cb_refcount x) v (cb_claimed x) (cb_fn x) (cb_context x) (cb_release_context x).
Definition set_cb_claimed v (x : UfsrvCancellationCallback) : UfsrvCancellationCallback :=
  MkCallback (cb_prev x) (cb_next x) (cb_token x) (cb_refcount x) (cb_active x) v (cb_fn x) (cb_context x) (cb_release_context x).
Definition set_tok_refcount v (x : UfsrvCancellationToken) : UfsrvCancellationToken :=
  MkToken v (tok_lock x) (tok_is_cancelled x) (tok_head x).
Definition set_tok_lock v (x : UfsrvCancellationToken) : UfsrvCancellationToken :=
  MkToken (tok_refcount x) v (tok_is_cancelled x) (tok_head x).
Definition set_tok_is_cancelled v (x : UfsrvCancellationToken) : UfsrvCancellationToken :=
  MkToken (tok_refcount x) (tok_lock x) v (tok_head x).
Definition set_tok_head v (x : UfsrvCancellationToken) : UfsrvCancellationToken :=
  MkToken (tok_refcount x) (tok_lock x) (tok_is_cancelled x) v.
Definition set_fm_token v (x : UfsrvFlatMapContext) : UfsrvFlatMapContext :=
  MkFlatMapContext (fm_out_promise x) (fm_mapper x) (fm_user x) v.
Definition set_all_remaining v (x : UfsrvAllContext) : UfsrvAllContext :=
  MkAllContext (all_out_promise x) v (all_failed x).
Definition set_all_failed v (x : UfsrvAllContext) : UfsrvAllContext :=
  MkAllContext (all_out_promise x) (all_remaining x) v.
Definition set_any_claimed v (x : UfsrvAnyContext) : UfsrvAnyContext :=
  MkAnyContext (any_out_promise x) v (any_remaining x).
Definition set_any_remaining v (x : UfsrvAnyContext) : UfsrvAnyContext :=
  MkAnyContext (any_out_promise x) (any_claimed x) v.
Definition set_zip_first v (x : UfsrvZipContext) : UfsrvZipContext :=
  MkZipContext (zip_out_promise x) (zip_zipper x) (zip_user x) (zip_first_future x) (zip_second_future x) v (zip_second x) (zip_remaining x) (zip_free_value x).
Definition set_zip_second v (x : UfsrvZipContext) : UfsrvZipContext :=
  MkZipContext (zip_out_promise x) (zip_zipper x) (zip_user x) (zip_first_future x) (zip_second_future x) (zip_first x) v (zip_remaining x) (zip_free_value x).
Definition set_zip_remaining v (x : UfsrvZipContext) : UfsrvZipContext :=
  MkZipContext (zip_out_promise x) (zip_zipper x) (zip_user x) (zip_first_future x) (zip_second_future x) (zip_first x) (zip_second x) v (zip_free_value x).
Definition set_sch_queue v (x : UfsrvScheduler) : UfsrvScheduler :=
  MkScheduler v (sch_event_fd x) (sch_thread x) (sch_name x) (sch_is_running x) (sch_is_started x) (sch_is_joined x) (sch_is_worker_id_ready x) (sch_worker_id x).
Definition set_sch_event_fd v (x : UfsrvScheduler) : UfsrvScheduler :=
  MkScheduler (sch_queue x) v (sch_thread x) (sch_name x) (sch_is_running x) (sch_is_started x) (sch_is_joined x) (sch_is_worker_id_ready x) (sch_worker_id x).
Definition set_sch_thread v (x : UfsrvScheduler) : UfsrvScheduler :=
  MkScheduler (sch_queue x) (sch_event_fd x) v (sch_name x) (sch_is_running x) (sch_is_started x) (sch_is_joined x) (sch_is_worker_id_ready x) (sch_worker_id x).
Definition set_sch_name v (x : UfsrvScheduler) : UfsrvScheduler :=
  MkScheduler (sch_queue x) (sch_event_fd x) (sch_thread x) v (sch_is_running x) (sch_is_started x) (sch_is_joined x) (sch_is_worker_id_ready x) (sch_worker_id x).
Definition set_sch_is_running v (x : UfsrvScheduler) : UfsrvScheduler :=
  MkScheduler (sch_queue x) (sch_event_fd x) (sch_thread x) (sch_name x) v (sch_is_started x) (sch_is_joined x) (sch_is_worker_id_ready x) (sch_worker_id x).
Definition set_sch_is_started v (x : UfsrvScheduler) : UfsrvScheduler :=
  MkScheduler (sch_queue x) (sch_event_fd x) (sch_thread x) (sch_name x) (sch_is_running x) v (sch_is_joined x) (sch_is_worker_id_ready x) (sch_worker_id x).
Definition set_sch_is_joined v (x : UfsrvScheduler) : UfsrvScheduler :=
  MkScheduler (sch_queue x) (sch_event_fd x) (sch_thread x) (sch_name x) (sch_is_running x) (sch_is_started x) v (sch_is_worker_id_ready x) (sch_worker_id x).
Definition set_sch_is_worker_id_ready v (x : UfsrvScheduler) : UfsrvScheduler :=
  MkScheduler (sch_queue x) (sch_event_fd x) (sch_thread x) (sch_name x) (sch_is_running x) (sch_is_started x) (sch_is_joined x) v (sch_worker_id x).
Definition set_sch_worker_id v (x : UfsrvScheduler) : UfsrvScheduler :=
  MkScheduler (sch_queue x) (sch_event_fd x) (sch_thread x) (sch_name x) (sch_is_running x) (sch_is_started x) (sch_is_joined x) (sch_is_worker_id_ready x) v.
Definition set_pool_next v (x : UfsrvSchedulerPool) : UfsrvSchedulerPool :=
  MkPool (pool_workers x) (pool_worker_pool_sz x) v (pool_is_running x).
Definition set_pool_is_running v (x : UfsrvSchedulerPool) : UfsrvSchedulerPool :=
  MkPool (pool_workers x) (pool_worker_pool_sz x) (pool_next x) v.
Definition set_start_prev v (x : UfsrvCoroutineStart) : UfsrvCoroutineStart :=
  MkStart v (start_next x) (start_coroutine x) (start_entry x) (start_arg x).
Definition set_start_next v (x : UfsrvCoroutineStart) : UfsrvCoroutineStart :=
  MkStart (start_prev x) v (start_coroutine x) (start_entry x) (start_arg x).
Definition set_start_coroutine v (x : UfsrvCoroutineStart) : UfsrvCoroutineStart :=
  MkStart (start_prev x) (start_next x) v (start_entry x) (start_arg x).
Definition set_t_main_co v (x : tls_t) : tls_t :=
  MkTls v (t_share_stack x) (t_initialized x) (t_current_scheduler x) (t_unstarted_head x) (t_worker_scheduler x) (t_aco_co x).
Definition set_t_share_stack v (x : tls_t) : tls_t :=
  MkTls (t_main_co x) v (t_initialized x) (t_current_scheduler x) (t_unstarted_head x) (t_worker_scheduler x) (t_aco_co x).
Definition set_t_initialized v (x : tls_t) : tls_t :=
  MkTls (t_main_co x) (t_share_stack x) v (t_current_scheduler x) (t_unstarted_head x) (t_worker_scheduler x) (t_aco_co x).
Definition set_t_current_scheduler v (x : tls_t) : tls_t :=
  MkTls (t_main_co x) (t_share_stack x) (t_initialized x) v (t_unstarted_head x) (t_worker_scheduler x) (t_aco_co x).
Definition set_t_unstarted_head v (x : tls_t) : tls_t :=
  MkTls (t_main_co x) (t_share_stack x) (t_initialized x) (t_current_scheduler x) v (t_worker_scheduler x) (t_aco_co x).
Definition set_t_worker_scheduler v (x : tls_t) : tls_t :=
  MkTls (t_main_co x) (t_share_stack x) (t_initialized x) (t_current_scheduler x) (t_unstarted_head x) v (t_aco_co x).
Definition set_t_aco_co v (x : tls_t) : tls_t :=
  MkTls (t_main_co x) (t_share_stack x) (t_initialized x) (t_current_scheduler x) (t_unstarted_head x) (t_worker_scheduler x) v.
End Structs.

(** ** Typed access to the heap *)

(** [Cell T]: structs of type [T] live in the heap under one constructor. *)
Class Cell `{E : Ext} (T : Type) := {
  cell_inj : T -> obj;
  cell_prj : obj -> option T;
  cell_prj_inj x : cell_prj (cell_inj x) = Some x;
  cell_inj_prj o x : cell_prj o = Some x -> o = cell_inj x;
}.
Global Hint Mode Cell - ! : typeclass_instances.

Section Cells.
Context {E : Ext}.
#[export] Instance future_cell : Cell UfsrvFuture.
Proof.
  refine {| cell_inj := OFuture; cell_prj o := match o with OFuture x => Some x | _ => None end |};
    [done|by intros [] ? ?; simplify_eq].
Defined.
#[export] Instance promise_cell : Cell UfsrvPromise.
Proof.
  refine {| cell_inj := OPromise; cell_prj o := match o with OPromise x => Some x | _ => None end |};
    [done|by intros [] ? ?; simplify_eq].
Defined.
#[export] Instance continuation_cell : Cell UfsrvContinuation.
Proof.
  refine {| cell_inj := OContinuation; cell_prj o := match o with OContinuation x => Some x | _ => None end |};
    [done|by intros [] ? ?; simplify_eq].
Defined.
#[export] Instance waiter_cell : Cell UfsrvWaiter.
Proof.
  refine {| cell_inj := OWaiter; cell_prj o := match o with OWaiter x => Some x | _ => None end |};
    [done|by intros [] ? ?; simplify_eq].
Defined.
#[export] Instance stack_cell : Cell tstack.
Proof.
  refine {| cell_inj := OStack; cell_prj o := match o with OStack x => Some x | _ => None end |};
    [done|by intros [] ? ?; simplify_eq].
Defined.
#[export] Instance callback_cell : Cell UfsrvCancellationCallback.
Proof.
  refine {| cell_inj := OCallback; cell_prj o := match o with OCallback x => Some x | _ => None end |};
    [done|by intros [] ? ?; simplify_eq].
Defined.
#[export] Instance token_cell : Cell UfsrvCancellationToken.
Proof.
  refine {| cell_inj := OToken; cell_prj o := match o with OToken x => Some x | _ => None end |};
    [done|by intros [] ? ?; simplify_eq].
Defined.
#[export] Instance mapcontext_cell : Cell UfsrvMapContext.
Proof.
  refine {| cell_inj := OMapContext; cell_prj o := match o with OMapContext x => Some x | _ => None end |};
    [done|by intros [] ? ?; simplify_eq].
Defined.
#[export] Instance flatmapcontext_cell : Cell UfsrvFlatMapContext.
Proof.
  refine {| cell_inj := OFlatMapContext; cell_prj o := match o with OFlatMapContext x => Some x | _ => None end |};
    [done|by intros [] ? ?; simplify_eq].
Defined.
#[export] Instance onerrorcontext_cell : Cell UfsrvOnErrorContext.
Proof.
  refine {| cell_inj := OOnErrorContext; cell_prj o := match o with OOnErrorContext x => Some x | _ => None end |};
    [done|by intros [] ? ?; simplify_eq].
Defined.
#[export] Instance doonsuccesscontext_cell : Cell UfsrvDoOnSuccessContext.
Proof.
  refine {| cell_inj := ODoOnSuccessContext; cell_prj o := match o with ODoOnSuccessContext x => Some x | _ => None end |};
    [done|by intros [] ? ?; simplify_eq].
Defined.
#[export] Instance allcontext_cell : Cell UfsrvAllContext.
Proof.
  refine {| cell_inj := OAllContext; cell_prj o := match o with OAllContext x => Some x | _ => None end |};
    [done|by intros [] ? ?; simplify_eq].
Defined.
#[export] Instance anycontext_cell : Cell UfsrvAnyContext.
Proof.
  refine {| cell_inj := OAnyContext; cell_prj o := match o with OAnyContext x => Some x | _ => None end |};
    [done|by intros [] ? ?; simplify_eq].
Defined.
#[export] Instance anyregistration_cell : Cell UfsrvAnyRegistration.
Proof.
  refine {| cell_inj := OAnyRegistration; cell_prj o := match o with OAnyRegistration x => Some x | _ => None end |};
    [done|by intros [] ? ?; simplify_eq].
Defined.
#[export] Instance zipcontext_cell : Cell UfsrvZipContext.
Proof.
  refine {| cell_inj := OZipContext; cell_prj o := match o with OZipContext x => Some x | _ => None end |};
    [done|by intros [] ? ?; simplify_eq].
Defined.
#[export] Instance job_cell : Cell UfsrvSchedulerJob.
Proof.
  refine {| cell_inj := OJob; cell_prj o := match o with OJob x => Some x | _ => None end |};
    [done|by intros [] ? ?; simplify_eq].
Defined.
#[export] Instance scheduler_cell : Cell UfsrvScheduler.
Proof.
  refine {| cell_inj := OScheduler; cell_prj o := match o with OScheduler x => Some x | _ => None end |};
    [done|by intros [] ? ?; simplify_eq].
Defined.
#[export] Instance pool_cell : Cell UfsrvSchedulerPool.
Proof.
  refine {| cell_inj := OPool; cell_prj o := match o with OPool x => Some x | _ => None end |};
    [done|by intros [] ? ?; simplify_eq].
Defined.
#[export] Instance start_cell : Cell UfsrvCoroutineStart.
Proof.
  refine {| cell_inj := OStart; cell_prj o := match o with OStart x => Some x | _ => None end |};
    [done|by intros [] ? ?; simplify_eq].
Defined.
#[export] Instance resumecontext_cell : Cell UfsrvResumeContext.
Proof.
  refine {| cell_inj := OResumeContext; cell_prj o := match o with OResumeContext x => Some x | _ => None end |};
    [done|by intros [] ? ?; simplify_eq].
Defined.
#[export] Instance spawncontext_cell : Cell UfsrvSpawnContext.
Proof.
  refine {| cell_inj := OSpawnContext; cell_prj o := match o with OSpawnContext x => Some x | _ => None end |};
    [done|by intros [] ? ?; simplify_eq].
Defined.
#[export] Instance aco_cell : Cell aco_t.
Proof.
  refine {| cell_inj := OAco; cell_prj o := match o with OAco x => Some x | _ => None end |};
    [done|by intros [] ? ?; simplify_eq].
Defined.
#[export] Instance string_cell : Cell string.
Proof.
  refine {| cell_inj := OString; cell_prj o := match o with OString x => Some x | _ => None end |};
    [done|by intros [] ? ?; simplify_eq].
Defined.
#[export] Instance array_cell : Cell (list ptr).
Proof.
  refine {| cell_inj := OArray; cell_prj o := match o with OArray x => Some x | _ => None end |};
    [done|by intros [] ? ?; simplify_eq].
Defined.
End Cells.

(** ** Atomic actions *)
Abbreviation cprog := (prog st code).

Section Actions.
Context {E : Ext}.

Definition lookup_cell {T} `{!Cell T} (p : ptr) (s : st) : option T :=
  heap s !! p ≫= cell_prj.
Definition store_cell {T} `{!Cell T} (p : ptr) (x : T) (s : st) : st :=
  with_heap (<[p := cell_inj x]>) s.

(** Read a field, assign fields, and read-modify-write atomically. *)
Definition rd {T B} `{!Cell T} (proj : T -> B) (p : ptr) : cprog B :=
  Act (fun s => match lookup_cell p s with
                | Some x => Ok (proj x) s
                | None => Stuck
                end) Ret.
Definition rmw {T B} `{!Cell T} (g : T -> B * T) (p : ptr) : cprog B :=
  Act (fun s => match lookup_cell p s with
                | Some x => Ok (g x).1 (store_cell p (g x).2 s)
                | None => Stuck
                end) Ret.
Definition wr {T} `{!Cell T} (u : T -> T) (p : ptr) : cprog unit :=
  rmw (fun x => (tt, u x)) p.

(** [atomic_exchange], [atomic_fetch_add] and [atomic_fetch_sub] on an
    [_Atomic(int)], and on an [_Atomic(size_t)]. *)
Definition xchg {T B} `{!Cell T} (proj : T -> B) (set : B -> T -> T) (v : B) (p : ptr) : cprog B :=
  rmw (fun x => (proj x, set v x)) p.
Definition fetch_add_int {T} `{!Cell T} (proj : T -> Z) (set : Z -> T -> T) (d : Z) (p : ptr) : cprog Z :=
  rmw (fun x => (proj x, set (wrap_i32 (proj x + d)) x)) p.
Definition fetch_sub_size {T} `{!Cell T} (proj : T -> Z) (set : Z -> T -> T) (d : Z) (p : ptr) : cprog Z :=
  rmw (fun x => (proj x, set (wrap_u64 (proj x - d)) x)) p.

(** Allocation: [malloc]/[calloc] followed by the initialisation of the block,
    which no other thread can reach yet.  Addresses are never reused, so that an
    access through a stale pointer is always visible. *)
Definition take_oracle (s : st) : bool * st :=
  match oracle s with
  | [] => (false, s)
  | b :: r => (b, with_oracle r s)
  end.
Definition alloc {T} `{!Cell T} (x : T) : cprog ptr :=
  Act (fun s => match take_oracle s with
                | (true, s1) => Ok NULL s1
                | (false, s1) =>
                    Ok (next_ptr s1)
                       (with_next_ptr (next_ptr s1 + 1) (store_cell (next_ptr s1) x s1))
                end) Ret.
Definition free (p : ptr) : cprog unit :=
  Act (fun s => if is_null p then Ok tt s
                else match heap s !! p with
                     | Some _ => Ok tt (with_heap (delete p) s)
                     | None => Stuck
                     end) Ret.

(** eventfd(2): a counter; [write] of 1 and [read] of the whole counter. *)
Definition eventfd : cprog Z :=
  Act (fun s => match take_oracle s with
                | (true, s1) => Ok (-1)%Z s1
                | (false, s1) => Ok (next_fd s1)
                                    (with_next_fd (next_fd s1 + 1) (with_fds (<[next_fd s1 := 0%Z]>) s1))
                end) Ret.
Definition eventfd_write_one (fd : Z) : cprog unit :=
  Act (fun s => match fds s !! fd with
                | Some n => if bool_decide (n + 1 <= 2 ^ 64 - 2)%Z
                            then Ok tt (with_fds (<[fd := (n + 1)%Z]>) s)
                            else Blocked
                | None => Ok tt s      (* EBADF, ignored by the callers *)
                end) Ret.
(** The value of [n] after [n = read(fd, &value, sizeof(value))] and of [errno]. *)
Inductive read_result := READ_ok | READ_eintr | READ_ebadf.
Definition eventfd_read (fd : Z) : cprog read_result :=
  Act (fun s => match fds s !! fd with
                | Some n =>
                    match take_oracle s with
                    | (true, s1) => Ok READ_eintr s1
                    | (false, s1) => if bool_decide (n = 0)%Z then Blocked
                                     else Ok READ_ok (with_fds (<[fd := 0%Z]>) s1)
                    end
                | None => Ok READ_ebadf s
                end) Ret.
Definition close (fd : Z) : cprog unit := Act (fun s => Ok tt (with_fds (delete fd) s)) Ret.

(** pthreads: mutexes, creation, join, self, thread-local storage. *)
Definition pthread_mutex_lock (t : ptr) : cprog unit :=
  Act (fun s => match lookup_cell t s with
                | Some x => if tok_lock x then Blocked
                            else Ok tt (store_cell t (set_tok_lock true x) s)
                | None => Stuck
                end) Ret.
Definition pthread_mutex_unlock (t : ptr) : cprog unit :=
  Act (fun s => match lookup_cell t s with
                | Some x => if tok_lock x then Ok tt (store_cell t (set_tok_lock false x) s)
                            else Stuck
                | None => Stuck
                end) Ret.
Definition pthread_mutex_destroy (t : ptr) : cprog unit :=
  Act (fun s => match lookup_cell t s with
                | Some x => if tok_lock x then Stuck else Ok tt s
                | None => Stuck
                end) Ret.
Definition platform_ok : cprog bool :=
  Act (fun s => let '(b, s1) := take_oracle s in Ok (negb b) s1) Ret.
Definition pthread_create (c : code) : cprog (option N) :=
  Act (fun s => match take_oracle s with
                | (true, s1) => Ok None s1
                | (false, s1) => Ok (Some (next_tid s1)) (with_spawn (next_tid s1) c s1)
                end) Ret.
Definition pthread_join (t : N) : cprog unit :=
  Act (fun s => if bool_decide (t ∈ exited s) then Ok tt s else Blocked) Ret.
Definition pthread_self : cprog N := Act (fun s => Ok (cur s) s) Ret.
Definition pthread_exit : cprog unit := Act (fun s => Ok tt (with_exited (cur s) s)) Ret.
Definition tls_get {B} (proj : tls_t -> B) : cprog B := Act (fun s => Ok (proj (tls_of s)) s) Ret.
Definition tls_set (u : tls_t -> tls_t) : cprog unit :=
  Act (fun s => Ok tt (with_tls (<[cur s := u (tls_of s)]>) s)) Ret.

(** [abort()], and [assert(0)] under the build's [NDEBUG]. *)
Definition abort : cprog unit := Act (fun _ => Crash) Ret.
Definition assert_false : cprog unit := Act (fun s => if ndebug s then Ok tt s else Crash) Ret.

(** A call whose result is ignored, and one through a nullable pointer. *)
Definition call (c : code) : cprog unit := Call c (fun _ => Ret tt).
Definition call_opt {F} (f : option F) (c : F -> code) : cprog unit :=
  match f with Some fn => call (c fn) | None => Ret tt end.
End Actions.
