(* ===== verification/Cancellation.v ===== *)
(** * Cancellation: src/ufsrv_cancellation/ufsrv_cancellation.c

    The cooperative cancellation token: a reference-counted flag with a
    mutex-guarded intrusive doubly linked list of one-shot callbacks.  One
    definition per function, in the order of the source; [L_...] are the bodies
    of the pointer-following loops. *)
From S2P Require Import Prelude Machine Uflib Model.
Local Open Scope prog_scope.

Section Operations.
Context {E : Ext}.

(** [sTokenRelease]: drop one token reference; the last one reclaims the nodes
    still linked and the token itself. *)
Definition sTokenRelease (token_ptr : ptr) : cprog unit :=
  let! old := fetch_add_int tok_refcount set_tok_refcount (-1) token_ptr in
  if negb (bool_decide (old = 1%Z)) then Ret tt
  else
    pthread_mutex_lock token_ptr ;;
    let! node := rd tok_head token_ptr in
    wr (set_tok_head NULL) token_ptr ;;
    pthread_mutex_unlock token_ptr ;;
    call (L_token_reclaim node) ;;
    pthread_mutex_destroy token_ptr ;;
    free token_ptr.

(** The reclaim loop of [sTokenRelease]. *)
Definition sTokenRelease_loop (node : ptr) : cprog ptr :=
  if is_null node then Ret NULL
  else
    let! next := rd cb_next node in
    let! release_context := rd cb_release_context node in
    let! context_ptr := rd cb_context node in
    call_opt release_context (fun fn => K_cancel_cb fn context_ptr) ;;
    free node ;;
    call (L_token_reclaim next) ;;
    Ret NULL.

Definition sNodeFree (cb : ptr) : cprog unit :=
  let! token_ptr := rd cb_token cb in
  let! release_context := rd cb_release_context cb in
  let! context_ptr := rd cb_context cb in
  free cb ;;
  call_opt release_context (fun fn => K_cancel_cb fn context_ptr) ;;
  sTokenRelease token_ptr.

(** [--cb->refcount == 0], under the token's lock. *)
Definition cb_drop : UfsrvCancellationCallback -> bool * UfsrvCancellationCallback :=
  fun x => (bool_decide (cb_refcount x - 1 = 0)%Z, set_cb_refcount (cb_refcount x - 1) x).

Definition sNodeDropRef (cb : ptr) : cprog bool :=
  let! token_ptr := rd cb_token cb in
  pthread_mutex_lock token_ptr ;;
  let! last := rmw cb_drop cb in
  pthread_mutex_unlock token_ptr ;;
  when last (sNodeFree cb) ;;
  Ret last.

Definition UfsrvCancellationTokenRetainInternal (token_ptr : ptr) : cprog unit :=
  if is_null token_ptr then Ret tt
  else let! _ := fetch_add_int tok_refcount set_tok_refcount 1 token_ptr in Ret tt.

Definition UfsrvCancellationTokenCreate : cprog ptr :=
  let! token_ptr := alloc (MkToken 0 false false NULL) in
  if is_null token_ptr then Ret NULL
  else
    let! lock_ok := platform_ok in      (* pthread_mutex_init *)
    if negb lock_ok then free token_ptr ;; Ret NULL
    else
      wr (fun x => set_tok_head NULL (set_tok_is_cancelled false (set_tok_refcount 1 x))) token_ptr ;;
      Ret token_ptr.

Definition UfsrvCancellationTokenRegisterEx (token_ptr : ptr) (callback : option cancel_cb)
    (context_ptr : ptr) (release_context : option cancel_cb) : cprog ptr :=
  match callback with
  | None => Ret NULL
  | Some callback =>
    if is_null token_ptr then Ret NULL
    else
      let! cb := alloc (MkCallback NULL NULL token_ptr 2 false false callback context_ptr
                          release_context) in
      if is_null cb then Ret NULL
      else
        UfsrvCancellationTokenRetainInternal token_ptr ;;
        pthread_mutex_lock token_ptr ;;
        let! already_cancelled := rd tok_is_cancelled token_ptr in
        (if negb already_cancelled then
           let! head := rd tok_head token_ptr in
           wr (set_cb_next head) cb ;;
           when (negb (is_null head)) (wr (set_cb_prev cb) head) ;;
           wr (set_tok_head cb) token_ptr ;;
           wr (set_cb_active true) cb
         else
           wr (fun x => set_cb_refcount 1 (set_cb_claimed true x)) cb) ;;
        pthread_mutex_unlock token_ptr ;;
        when already_cancelled (call (K_cancel_cb callback context_ptr)) ;;
        Ret cb
  end.

Definition UfsrvCancellationTokenRegister (token_ptr : ptr) (callback : option cancel_cb)
    (context_ptr : ptr) : cprog ptr :=
  UfsrvCancellationTokenRegisterEx token_ptr callback context_ptr None.

Definition UfsrvCancellationTokenUnregister (handle : ptr) : cprog bool :=
  if is_null handle then Ret false
  else
    let cb := handle in
    let! token_ptr := rd cb_token cb in
    pthread_mutex_lock token_ptr ;;
    let! active := rd cb_active cb in
    (if active : bool then
       wr (set_cb_active false) cb ;;
       wr (set_cb_claimed true) cb ;;
       let! prev := rd cb_prev cb in
       let! next := rd cb_next cb in
       (if negb (is_null prev) then wr (set_cb_next next) prev
        else wr (set_tok_head next) token_ptr) ;;
       when (negb (is_null next)) (wr (set_cb_prev prev) next) ;;
       wr (set_cb_prev NULL) cb ;;
       wr (set_cb_next NULL) cb ;;
       let! _ := rmw cb_drop cb in       (* the token's list reference *)
       Ret tt
     else Ret tt) ;;
    let! last := rmw cb_drop cb in
    pthread_mutex_unlock token_ptr ;;
    when last (sNodeFree cb) ;;
    Ret active.

(** The marking walk of [Cancel], under the lock. *)
Definition Cancel_mark_loop (walk : ptr) : cprog ptr :=
  if is_null walk then Ret NULL
  else
    wr (fun x => set_cb_prev NULL (set_cb_claimed true (set_cb_active false x))) walk ;;
    let! next := rd cb_next walk in
    call (L_cancel_mark next) ;;
    Ret NULL.

(** The dispatch loop of [Cancel], after the lock is released. *)
Definition Cancel_run_loop (node : ptr) : cprog ptr :=
  if is_null node then Ret NULL
  else
    let! next := rd cb_next node in
    let! fn := rd cb_fn node in
    let! context := rd cb_context node in
    call (K_cancel_cb fn context) ;;
    wr (set_cb_next NULL) node ;;
    let! _ := sNodeDropRef node in
    call (L_cancel_run next) ;;
    Ret NULL.

Definition UfsrvCancellationTokenCancel (token_ptr : ptr) : cprog unit :=
  if is_null token_ptr then Ret tt
  else
    pthread_mutex_lock token_ptr ;;
    let! old := xchg tok_is_cancelled set_tok_is_cancelled true token_ptr in
    if old : bool then pthread_mutex_unlock token_ptr
    else
      let! node := rd tok_head token_ptr in
      wr (set_tok_head NULL) token_ptr ;;
      call (L_cancel_mark node) ;;
      pthread_mutex_unlock token_ptr ;;
      call (L_cancel_run node).

Definition UfsrvCancellationTokenIsCancelled (token_ptr : ptr) : cprog bool :=
  if is_null token_ptr then Ret false
  else rd tok_is_cancelled token_ptr.

Definition UfsrvCancellationTokenDestroy (token_ptr : ptr) : cprog unit :=
  if is_null token_ptr then Ret tt else sTokenRelease token_ptr.
End Operations.
