(* ===== verification/Scheduler.v ===== *)
(** * Scheduler: src/ufsrv_scheduler/ufsrv_scheduler.c (lines 34-410)

    The single-worker scheduler (one thread, one MPSC queue, one eventfd) and the
    round-robin pool.  The introspection functions at the end of the source file
    are in Describe.v. *)
From S2P Require Import Prelude Machine Uflib Model.
Local Open Scope prog_scope.

Section Operations.
Context {E : Ext}.

(** [sRunJob]: the queue carries job addresses ([node_ptr->context_data]). *)
Definition sRunJob (job_ptr : ptr) : cprog unit :=
  let! callback := rd job_callback job_ptr in
  let! callback_context := rd job_callback_context job_ptr in
  call_opt callback (fun fn => K_job fn callback_context) ;;
  free job_ptr.

Definition mpsc_queue_pop (scheduler_ptr : ptr) : cprog (option ptr) :=
  rmw (fun x => ((mq_pop (sch_queue x)).1, set_sch_queue (mq_pop (sch_queue x)).2 x)) scheduler_ptr.
Definition mpsc_queue_insert (scheduler_ptr job_ptr : ptr) : cprog unit :=
  wr (fun x => set_sch_queue (mq_insert job_ptr (sch_queue x)) x) scheduler_ptr.

(** The main loop of [sWorkerMain]; it returns when the code leaves the loop. *)
Definition sWorkerMain_loop (scheduler_ptr : ptr) : cprog ptr :=
  let! running := rd sch_is_running scheduler_ptr in
  if negb running then Ret NULL
  else
    let! node_ptr := mpsc_queue_pop scheduler_ptr in
    match node_ptr with
    | Some job_ptr => sRunJob job_ptr ;; call (L_worker scheduler_ptr) ;; Ret NULL
    | None =>
        let! still_running := rd sch_is_running scheduler_ptr in
        if negb still_running then Ret NULL
        else
          let! event_fd := rd sch_event_fd scheduler_ptr in
          let! n := eventfd_read event_fd in
          match n with
          | READ_ebadf => Ret NULL
          | _ => call (L_worker scheduler_ptr) ;; Ret NULL
          end
    end.

(** The final drain of [sWorkerMain]. *)
Definition sWorkerMain_drain (scheduler_ptr : ptr) : cprog ptr :=
  let! node_ptr := mpsc_queue_pop scheduler_ptr in
  match node_ptr with
  | None => Ret NULL
  | Some job_ptr => sRunJob job_ptr ;; call (L_worker_drain scheduler_ptr) ;; Ret NULL
  end.

Definition sWorkerMain (scheduler_ptr : ptr) : cprog ptr :=
  let! self := pthread_self in
  wr (set_sch_worker_id self) scheduler_ptr ;;
  wr (set_sch_is_worker_id_ready true) scheduler_ptr ;;
  tls_set (set_t_worker_scheduler scheduler_ptr) ;;
  let! _ := rd sch_name scheduler_ptr in      (* pthread_setname_np: the OS name only *)
  call (L_worker scheduler_ptr) ;;
  call (L_worker_drain scheduler_ptr) ;;
  tls_set (set_t_worker_scheduler NULL) ;;
  Ret NULL.

Definition UfsrvSchedulerCreate (name_ptr : option string) : cprog ptr :=
  let! scheduler_ptr := alloc (MkScheduler mq_init 0 0%N NULL false false false false 0%N) in
  if is_null scheduler_ptr then Ret NULL
  else
    let! name_ok :=
      match name_ptr with
      | None => Ret true
      | Some name =>
          let! dup := alloc name in           (* strdup *)
          wr (set_sch_name dup) scheduler_ptr ;;
          Ret (negb (is_null dup))
      end in
    if negb name_ok then free scheduler_ptr ;; Ret NULL
    else
      let! fd := eventfd in
      wr (set_sch_event_fd fd) scheduler_ptr ;;
      if bool_decide (fd < 0)%Z then
        let! name := rd sch_name scheduler_ptr in
        free name ;; free scheduler_ptr ;; Ret NULL
      else
        wr (set_sch_queue mq_init) scheduler_ptr ;;
        wr (fun x => set_sch_is_worker_id_ready false (set_sch_is_joined false
                       (set_sch_is_started false (set_sch_is_running false x)))) scheduler_ptr ;;
        Ret scheduler_ptr.

Definition UfsrvSchedulerStart (scheduler_ptr : ptr) : cprog Z :=
  if is_null scheduler_ptr then Ret (-1)%Z
  else
    let! started := rd sch_is_started scheduler_ptr in
    if started : bool then Ret (-1)%Z
    else
      wr (set_sch_is_running true) scheduler_ptr ;;
      let! thread := pthread_create (K_sWorkerMain scheduler_ptr) in
      match thread with
      | None => wr (set_sch_is_running false) scheduler_ptr ;; Ret (-1)%Z
      | Some t =>
          wr (set_sch_thread t) scheduler_ptr ;;
          wr (set_sch_is_started true) scheduler_ptr ;;
          Ret 0%Z
      end.

Definition sSubmitToScheduler (scheduler_ptr : ptr) (callback : job_cb) (context_ptr : ptr) : cprog bool :=
  let! job_ptr := alloc (MkJob (Some callback) context_ptr) in
  if is_null job_ptr then Ret false
  else
    let! running := rd sch_is_running scheduler_ptr in
    if negb running then free job_ptr ;; Ret false
    else
      mpsc_queue_insert scheduler_ptr job_ptr ;;
      let! event_fd := rd sch_event_fd scheduler_ptr in
      eventfd_write_one event_fd ;;
      Ret true.

Definition UfsrvSchedulerSubmit (scheduler_ptr : ptr) (callback : option job_cb) (context_ptr : ptr) : cprog bool :=
  match callback with
  | None => Ret false
  | Some fn => if is_null scheduler_ptr then Ret false
               else sSubmitToScheduler scheduler_ptr fn context_ptr
  end.

Definition UfsrvSchedulerStop (scheduler_ptr : ptr) : cprog unit :=
  if is_null scheduler_ptr then Ret tt
  else
    wr (set_sch_is_running false) scheduler_ptr ;;
    let! event_fd := rd sch_event_fd scheduler_ptr in
    eventfd_write_one event_fd.

Definition UfsrvSchedulerJoin (scheduler_ptr : ptr) : cprog unit :=
  if is_null scheduler_ptr then Ret tt
  else
    let! started := rd sch_is_started scheduler_ptr in
    if negb started then Ret tt
    else
      let! joined := xchg sch_is_joined set_sch_is_joined true scheduler_ptr in
      if joined : bool then Ret tt
      else
        let! thread := rd sch_thread scheduler_ptr in
        pthread_join thread.

(** The drain of [UfsrvSchedulerDestroy]: jobs are freed without being run. *)
Definition UfsrvSchedulerDestroy_drain (scheduler_ptr : ptr) : cprog ptr :=
  let! node_ptr := mpsc_queue_pop scheduler_ptr in
  match node_ptr with
  | None => Ret NULL
  | Some job_ptr => free job_ptr ;; call (L_destroy_drain scheduler_ptr) ;; Ret NULL
  end.

Definition UfsrvSchedulerDestroy (scheduler_ptr : ptr) : cprog unit :=
  if is_null scheduler_ptr then Ret tt
  else
    let! started := rd sch_is_started scheduler_ptr in
    let! joined := if started : bool then rd sch_is_joined scheduler_ptr else Ret true in
    when (negb joined)
      (UfsrvSchedulerStop scheduler_ptr ;; UfsrvSchedulerJoin scheduler_ptr) ;;
    call (L_destroy_drain scheduler_ptr) ;;
    let! event_fd := rd sch_event_fd scheduler_ptr in
    when (bool_decide (0 <= event_fd)%Z) (close event_fd) ;;
    let! name := rd sch_name scheduler_ptr in
    free name ;;
    free scheduler_ptr.

Definition UfsrvSchedulerIsWorkerThread (scheduler_ptr : ptr) : cprog bool :=
  if is_null scheduler_ptr then Ret false
  else
    let! ready := rd sch_is_worker_id_ready scheduler_ptr in
    if negb ready then Ret false
    else
      let! self := pthread_self in
      let! worker_id := rd sch_worker_id scheduler_ptr in
      Ret (bool_decide (self = worker_id)).

(** ufsrv_scheduler_priv.h *)
Definition UfsrvSchedulerIsOnWorkerThread : cprog bool :=
  let! w := tls_get t_worker_scheduler in Ret (negb (is_null w)).

(** ** The pool *)

(** [pool_ptr->workers[i]]; out of bounds is undefined. *)
Definition array_get (a : ptr) (i : nat) : cprog ptr :=
  Act (fun s => match lookup_cell a s ≫= (fun l : list ptr => l !! i) with
                | Some x => Ok x s
                | None => Stuck
                end) Ret.
Definition array_set (a : ptr) (i : nat) (v : ptr) : cprog unit :=
  Act (fun s => match lookup_cell a s with
                | Some l => if bool_decide (i < length l) then Ok tt (store_cell a (<[i := v]> (l : list ptr)) s)
                            else Stuck
                | None => Stuck
                end) Ret.

(** [snprintf(name, 64, "%s-%d", prefix, i)] keeps 63 characters. *)
Definition worker_name (name_prefix_ptr : option string) (i : nat) : string :=
  String.substring 0 63
    (match name_prefix_ptr with
     | Some prefix => prefix ++ "-" ++ pretty (Z.of_nat i)
     | None => "worker-" ++ pretty (Z.of_nat i)
     end)%string.

Fixpoint seq_prog (l : list (cprog unit)) : cprog unit :=
  match l with [] => Ret tt | p :: r => p ;; seq_prog r end.

(** [for (j = 0; j < i; j++) op(pool_ptr->workers[j])] *)
Definition for_workers (op : ptr -> cprog unit) (workers : ptr) (i : nat) : cprog unit :=
  seq_prog ((fun j => let! w := array_get workers j in op w) <$> seq 0 i).

(** The creation loop from index [i], [todo] iterations left; [false] when it
    rolled back and freed everything. *)
Fixpoint PoolCreate_loop (name_prefix_ptr : option string) (pool_ptr workers : ptr)
    (i todo : nat) : cprog bool :=
  match todo with
  | O => Ret true
  | S todo =>
      let! w := UfsrvSchedulerCreate (Some (worker_name name_prefix_ptr i)) in
      array_set workers i w ;;
      if is_null w then
        for_workers UfsrvSchedulerDestroy workers i ;;
        free workers ;; free pool_ptr ;; Ret false
      else PoolCreate_loop name_prefix_ptr pool_ptr workers (S i) todo
  end.

Definition UfsrvSchedulerPoolCreate (worker_count : Z) (name_prefix_ptr : option string) : cprog ptr :=
  if bool_decide (worker_count <= 0)%Z then Ret NULL
  else
    let! pool_ptr := alloc (MkPool NULL 0 0 false) in
    if is_null pool_ptr then Ret NULL
    else
      let! workers := alloc (replicate (Z.to_nat worker_count) NULL) in
      if is_null workers then free pool_ptr ;; Ret NULL
      else
        wr (fun _ => MkPool workers worker_count 0 false) pool_ptr ;;
        let! ok := PoolCreate_loop name_prefix_ptr pool_ptr workers 0 (Z.to_nat worker_count) in
        Ret (if ok : bool then pool_ptr else NULL).

Fixpoint PoolStart_loop (workers : ptr) (i todo : nat) : cprog bool :=
  match todo with
  | O => Ret true
  | S todo =>
      let! w := array_get workers i in
      let! rc := UfsrvSchedulerStart w in
      if bool_decide (rc <> 0)%Z then
        for_workers UfsrvSchedulerStop workers i ;; Ret false
      else PoolStart_loop workers (S i) todo
  end.

Definition UfsrvSchedulerPoolStart (pool_ptr : ptr) : cprog Z :=
  if is_null pool_ptr then Ret (-1)%Z
  else
    let! sz := rd pool_worker_pool_sz pool_ptr in
    let! workers := rd pool_workers pool_ptr in
    let! ok := PoolStart_loop workers 0 (Z.to_nat sz) in
    if negb ok then Ret (-1)%Z
    else wr (set_pool_is_running true) pool_ptr ;; Ret 0%Z.

(** [atomic_fetch_add(&pool_ptr->next, 1u) % (unsigned)worker_pool_sz] *)
Definition round_robin (pool_ptr : ptr) : cprog Z :=
  let! n := rmw (fun x => (pool_next x, set_pool_next (wrap_u32 (pool_next x + 1)) x)) pool_ptr in
  let! sz := rd pool_worker_pool_sz pool_ptr in
  Ret (n mod wrap_u32 sz)%Z.

Definition UfsrvSchedulerPoolSubmit (pool_ptr : ptr) (callback : option job_cb) (context_ptr : ptr) : cprog bool :=
  if is_null pool_ptr || bool_decide (callback = None) then Ret false
  else
    let! running := rd pool_is_running pool_ptr in
    if negb running then Ret false
    else
      let! idx := round_robin pool_ptr in
      let! workers := rd pool_workers pool_ptr in
      let! w := array_get workers (Z.to_nat idx) in
      UfsrvSchedulerSubmit w callback context_ptr.

Definition UfsrvSchedulerPoolSubmitTo (pool_ptr : ptr) (worker_index : Z) (callback : option job_cb)
    (context_ptr : ptr) : cprog bool :=
  if is_null pool_ptr || bool_decide (callback = None) then Ret false
  else
    let! running := rd pool_is_running pool_ptr in
    if negb running then Ret false
    else
      let! sz := rd pool_worker_pool_sz pool_ptr in
      if bool_decide (worker_index < 0 \/ sz <= worker_index)%Z
      then UfsrvSchedulerPoolSubmit pool_ptr callback context_ptr
      else
        let! workers := rd pool_workers pool_ptr in
        let! w := array_get workers (Z.to_nat worker_index) in
        UfsrvSchedulerSubmit w callback context_ptr.

Definition for_pool (op : ptr -> cprog unit) (pool_ptr : ptr) : cprog unit :=
  let! sz := rd pool_worker_pool_sz pool_ptr in
  let! workers := rd pool_workers pool_ptr in
  for_workers op workers (Z.to_nat sz).

Definition UfsrvSchedulerPoolStop (pool_ptr : ptr) : cprog unit :=
  if is_null pool_ptr then Ret tt
  else wr (set_pool_is_running false) pool_ptr ;; for_pool UfsrvSchedulerStop pool_ptr.

Definition UfsrvSchedulerPoolJoin (pool_ptr : ptr) : cprog unit :=
  if is_null pool_ptr then Ret tt else for_pool UfsrvSchedulerJoin pool_ptr.

Definition UfsrvSchedulerPoolDestroy (pool_ptr : ptr) : cprog unit :=
  if is_null pool_ptr then Ret tt
  else
    let! running := rd pool_is_running pool_ptr in
    when running (UfsrvSchedulerPoolStop pool_ptr ;; UfsrvSchedulerPoolJoin pool_ptr) ;;
    for_pool UfsrvSchedulerDestroy pool_ptr ;;
    let! workers := rd pool_workers pool_ptr in
    free workers ;;
    free pool_ptr.

Definition UfsrvSchedulerPoolSize (pool_ptr : ptr) : cprog Z :=
  if is_null pool_ptr then Ret 0%Z else rd pool_worker_pool_sz pool_ptr.
End Operations.
