(* ===== verification/Describe.v ===== *)
(** * Describe: introspection of a pool (ufsrv_scheduler.c, lines 412-562)

    [DescribeScheduler] renders a pool as JSON into a uflib [BufferDescriptor];
    [ListSchedulerWorkers] copies the workers' names into one allocation.  uflib's
    buffer is a parameter: appending a formatted text is all the code does with it.
    C strings are Rocq strings read up to their first NUL. *)
From Stdlib Require Import Ascii String.
From S2P Require Import Prelude Machine Uflib Model Scheduler.
Local Open Scope prog_scope.
Local Open Scope string_scope.

(** ** C strings *)
Definition NUL : ascii := "000"%char.
Definition QUOTE : ascii := "034"%char.
Definition BACKSLASH : ascii := "092"%char.
Definition LF : ascii := "010"%char.
Definition TAB : ascii := "009"%char.
Definition char1 (c : ascii) : string := String c EmptyString.
Definition quote : string := char1 QUOTE.
Definition lf : string := char1 LF.
(** A string literal that contains quotes, written with [']. *)
Fixpoint lit (s : string) : string :=
  match s with
  | EmptyString => EmptyString
  | String c r => String (if Ascii.eqb c "'"%char then QUOTE else c) (lit r)
  end.

(** What a [char *] that points at [s] denotes. *)
Fixpoint c_str (s : string) : string :=
  match s with
  | EmptyString => EmptyString
  | String c r => if Ascii.eqb c NUL then EmptyString else String c (c_str r)
  end.
Definition strlen (s : string) : Z := Z.of_nat (String.length (c_str s)).
Definition strcmp_eq (a b : string) : bool := bool_decide (c_str a = c_str b).

Section Json.
Context {E : Ext} {buffer : Type}.
Context (BufferDescriptorInit : Z -> buffer) (BufferDescriptorAppendFormatted : buffer -> string -> buffer).
#[local] Abbreviation append := BufferDescriptorAppendFormatted.

(** The [switch] of [sDescribeJsonString]. *)
Definition json_char (c : ascii) : string :=
  if Ascii.eqb c QUOTE then String BACKSLASH (char1 QUOTE)
  else if Ascii.eqb c BACKSLASH then String BACKSLASH (char1 BACKSLASH)
  else if Ascii.eqb c LF then String BACKSLASH "n"
  else if Ascii.eqb c TAB then String BACKSLASH "t"
  else char1 c.

Fixpoint sDescribeJsonString_loop (bd : buffer) (p : string) : buffer :=
  match p with
  | EmptyString => bd
  | String c rest =>
      if Ascii.eqb c NUL then bd
      else sDescribeJsonString_loop (append bd (json_char c)) rest
  end.

Definition sDescribeJsonString (bd : buffer) (str : option string) : buffer :=
  match str with
  | None => append bd "null"
  | Some str => append (sDescribeJsonString_loop (append bd quote) str) quote
  end.

Definition json_bool (b : bool) : string := if b then "true" else "false".

(** [scheduler_ptr->name] as a C string. *)
Definition read_name (scheduler_ptr : ptr) : cprog (option string) :=
  let! name := rd sch_name scheduler_ptr in
  if is_null name then Ret None
  else let! str := rd (fun x : string => x) name in Ret (Some str).

Definition sDescribeWorker (bd : buffer) (scheduler_ptr : ptr) : cprog buffer :=
  let! running := rd sch_is_running scheduler_ptr in
  let! started := rd sch_is_started scheduler_ptr in
  let! joined := rd sch_is_joined scheduler_ptr in
  let! id_ready := rd sch_is_worker_id_ready scheduler_ptr in
  let! name := read_name scheduler_ptr in
  let bd := append bd (lf ++ lit "    {'name':") in
  let bd := sDescribeJsonString bd name in
  let bd := append bd (lit ",'is_running':" ++ json_bool running) in
  let bd := append bd (lit ",'is_started':" ++ json_bool started) in
  let bd := append bd (lit ",'is_joined':" ++ json_bool joined) in
  let bd := append bd (lit ",'is_worker_id_ready':" ++ json_bool id_ready) in
  let! bd :=
    if id_ready : bool then
      let! worker_id := rd sch_worker_id scheduler_ptr in
      Ret (append bd (lit ",'worker_id':" ++ pretty worker_id))
    else Ret (append bd (lit ",'worker_id':null")) in
  let! event_fd := rd sch_event_fd scheduler_ptr in
  Ret (append bd (lit ",'event_fd':" ++ pretty event_fd ++ "}")).

(** The filter: does the loop of [DescribeScheduler] skip this worker? *)
Definition skips (worker_name name : option string) : bool :=
  match worker_name, name with
  | None, _ => false
  | Some _, None => true
  | Some w, Some n => negb (strcmp_eq n w)
  end.

Fixpoint DescribeScheduler_loop (worker_name : option string) (workers : ptr) (emitted : bool)
    (i todo : nat) (bd : buffer) : cprog buffer :=
  match todo with
  | O => Ret bd
  | S todo =>
      let! worker := array_get workers i in
      let! skip := match worker_name with
                   | None => Ret false
                   | Some _ => let! name := read_name worker in Ret (skips worker_name name)
                   end in
      if skip : bool then DescribeScheduler_loop worker_name workers emitted (S i) todo bd
      else
        let bd := if emitted then append bd "," else bd in
        let! bd := sDescribeWorker bd worker in
        DescribeScheduler_loop worker_name workers true (S i) todo bd
  end.

(** [provided = None] is the NULL buffer: one is allocated, or NULL returned. *)
Definition DescribeScheduler (pool_ptr : ptr) (worker_name : option string) (provided : option buffer)
    : cprog (option buffer) :=
  let! provided :=
    match provided with
    | Some bd => Ret (Some bd)
    | None => let! ok := platform_ok in      (* calloc *)
              Ret (if ok : bool then Some (BufferDescriptorInit 256) else None)
    end in
  match provided with
  | None => Ret None
  | Some bd =>
      if is_null pool_ptr then
        Ret (Some (append bd (lit "{'worker_pool_sz':0,'workers':[]}" ++ lf)))
      else
        let! worker_pool_sz := rd pool_worker_pool_sz pool_ptr in
        let! next := rd pool_next pool_ptr in
        let! pool_running := rd pool_is_running pool_ptr in
        let bd := append bd (lit "{'worker_pool_sz':" ++ pretty worker_pool_sz ++
                             lit ",'round_robin_next':" ++ pretty next ++
                             lit ",'pool_is_running':" ++ json_bool pool_running ++
                             lit ",'workers':[") in
        let! workers := rd pool_workers pool_ptr in
        let! bd := DescribeScheduler_loop worker_name workers false 0 (Z.to_nat worker_pool_sz) bd in
        Ret (Some (append bd (lf ++ "]}" ++ lf)))
  end.
End Json.

(** ** ListSchedulerWorkers *)
Section Listing.
Context {E : Ext} (sizeof_CollectionDescriptor : Z).

(** The slab: a struct, an array of pointers and characters in one block of [sl_size]
    bytes.  Pointers into it are offsets; a pointer occupies 8 bytes. *)
Record CollectionSlab := MkSlab {
  slab_size : Z;
  slab_collection : option Z;
  slab_collection_sz : Z;
  slab_collection_base_offset : Z;
  slab_pointers : gmap Z Z;
  slab_chars : gmap Z ascii;
}.

(** Pass 1: the named workers and the bytes of their names. *)
Fixpoint ListWorkers_count (workers : ptr) (i todo : nat) (n str_bytes : Z) : cprog (Z * Z) :=
  match todo with
  | O => Ret (n, str_bytes)
  | S todo =>
      let! worker := array_get workers i in
      if is_null worker then ListWorkers_count workers (S i) todo n str_bytes
      else
        let! name := read_name worker in
        match name with
        | None => ListWorkers_count workers (S i) todo n str_bytes
        | Some name =>
            ListWorkers_count workers (S i) todo (wrap_u64 (n + 1)) (wrap_u64 (str_bytes + (strlen name + 1)))
        end
  end.

(** [memcpy(str, name, len)] and [collection[i] = p]: undefined outside the block. *)
Fixpoint put_chars (o : Z) (s : string) (m : gmap Z ascii) : gmap Z ascii :=
  match s with
  | EmptyString => m
  | String c r => put_chars (o + 1) r (<[o := c]> m)
  end.
Definition slab_memcpy (str : Z) (name : string) (b : CollectionSlab) : cprog CollectionSlab :=
  Act (fun s => if bool_decide (0 <= str /\ str + strlen name + 1 <= slab_size b)%Z
                then Ok (MkSlab (slab_size b) (slab_collection b) (slab_collection_sz b)
                           (slab_collection_base_offset b) (slab_pointers b)
                           (put_chars str (c_str name ++ char1 NUL) (slab_chars b))) s
                else Stuck) Ret.
Definition slab_set (i str : Z) (b : CollectionSlab) : cprog CollectionSlab :=
  Act (fun s => match slab_collection b with
                | Some a => if bool_decide (0 <= a + 8 * i /\ a + 8 * i + 8 <= slab_size b)%Z
                            then Ok (MkSlab (slab_size b) (slab_collection b) (slab_collection_sz b)
                                       (slab_collection_base_offset b)
                                       (<[(a + 8 * i)%Z := str]> (slab_pointers b)) (slab_chars b)) s
                            else Stuck
                | None => Stuck
                end) Ret.

(** Pass 2: copy the names. *)
Fixpoint ListWorkers_copy (workers : ptr) (t todo : nat) (i n str : Z) (b : CollectionSlab) : cprog CollectionSlab :=
  match todo with
  | O => Ret b
  | S todo =>
      if bool_decide (n <= i)%Z then Ret b
      else
        let! worker := array_get workers t in
        if is_null worker then ListWorkers_copy workers (S t) todo i n str b
        else
          let! name := read_name worker in
          match name with
          | None => ListWorkers_copy workers (S t) todo i n str b
          | Some name =>
              let len := wrap_u64 (strlen name + 1) in
              let! b := slab_memcpy str name b in
              let! b := slab_set i str b in
              ListWorkers_copy workers (S t) todo (wrap_u64 (i + 1)) n (str + len) b
          end
  end.

Definition ListSchedulerWorkers (pool_ptr : ptr) : cprog (option CollectionSlab) :=
  if is_null pool_ptr then Ret None
  else
    let! worker_pool_sz := rd pool_worker_pool_sz pool_ptr in
    let! workers := rd pool_workers pool_ptr in
    let! counts := ListWorkers_count workers 0 (Z.to_nat worker_pool_sz) 0 0 in
    let '(n, str_bytes) := counts in
    let arr_bytes := wrap_u64 (n * 8) in
    let total := wrap_u64 (sizeof_CollectionDescriptor + arr_bytes + str_bytes) in
    let! ok := platform_ok in      (* malloc *)
    if negb ok then Ret None
    else
      let cd := MkSlab total (if bool_decide (0 < n)%Z then Some sizeof_CollectionDescriptor else None)
                  n 0 ∅ ∅ in
      let str := (sizeof_CollectionDescriptor + arr_bytes)%Z in
      let! cd := ListWorkers_copy workers 0 (Z.to_nat worker_pool_sz) 0 n str cd in
      Ret (Some cd).
End Listing.
