(* ===== verification/Coroutine.v ===== *)
(** * Coroutine: src/ufsrv_coroutine/ufsrv_coroutine.c

    Stackful coroutines over libaco: the per-thread state, the intrusive list of
    coroutines created but never resumed, and the two scheduler jobs (spawn and
    resume).  libaco's context switch is the dynamic call [K_aco_resume]; a
    switch back is [Yield]. *)
From S2P Require Import Prelude Machine Uflib Model Scheduler.
Local Open Scope prog_scope.

Section Operations.
Context {E : Ext}.

(** ** libaco entry points *)
Definition aco_create (main_co share_stack arg : ptr) : cprog ptr :=
  alloc (aco_new main_co share_stack arg).
Definition aco_share_stack_new : cprog ptr :=
  Act (fun s => match take_oracle s with
                | (true, s1) => Ok NULL s1
                | (false, s1) =>
                    Ok (next_ptr s1)
                       (with_next_ptr (next_ptr s1 + 1) (with_heap (<[next_ptr s1 := OShareStack]>) s1))
                end) Ret.
Definition aco_destroy (co : ptr) : cprog unit := free co.
Definition aco_share_stack_destroy (sstk : ptr) : cprog unit := free sstk.
Definition aco_get_co : cprog ptr := tls_get t_aco_co.
Definition aco_get_arg : cprog ptr := let! co := aco_get_co in rd aco_arg co.
(** [aco_exit] marks the coroutine ended and switches out for good. *)
Definition aco_exit : cprog unit :=
  let! co := aco_get_co in
  wr aco_set_end co ;;
  Yield abort.

(** ** The list of unstarted coroutines *)
Definition sUnstartedLink (node_ptr : ptr) : cprog unit :=
  wr (set_start_prev NULL) node_ptr ;;
  let! head := tls_get t_unstarted_head in
  wr (set_start_next head) node_ptr ;;
  when (negb (is_null head)) (wr (set_start_prev node_ptr) head) ;;
  tls_set (set_t_unstarted_head node_ptr).

Definition sUnstartedUnlink (node_ptr : ptr) : cprog unit :=
  let! prev := rd start_prev node_ptr in
  let! next := rd start_next node_ptr in
  (if negb (is_null prev) then wr (set_start_next next) prev
   else tls_set (set_t_unstarted_head next)) ;;
  when (negb (is_null next)) (wr (set_start_prev prev) next) ;;
  wr (set_start_prev NULL) node_ptr ;;
  wr (set_start_next NULL) node_ptr.

(** The loop of [sReclaimUnstarted]. *)
Definition sReclaimUnstarted_loop : cprog ptr :=
  let! node_ptr := tls_get t_unstarted_head in
  if is_null node_ptr then Ret NULL
  else
    sUnstartedUnlink node_ptr ;;
    let! coroutine := rd start_coroutine node_ptr in
    when (negb (is_null coroutine)) (aco_destroy coroutine) ;;
    free node_ptr ;;
    call L_reclaim_unstarted ;;
    Ret NULL.
Definition sReclaimUnstarted : cprog unit := call L_reclaim_unstarted.

(** ** Per-thread state *)
Definition sFreeThreadState : cprog unit :=
  sReclaimUnstarted ;;
  let! share_stack := tls_get t_share_stack in
  when (negb (is_null share_stack))
    (aco_share_stack_destroy share_stack ;; tls_set (set_t_share_stack NULL)) ;;
  let! main_co := tls_get t_main_co in
  when (negb (is_null main_co))
    (aco_destroy main_co ;; tls_set (set_t_main_co NULL)) ;;
  tls_set (set_t_initialized false).

(** The pthread key destructor. *)
Definition sThreadStateDestructor (arg : ptr) : cprog unit := sFreeThreadState.

(** [pthread_once]/[pthread_setspecific] only arrange for the destructor above
    to run at thread exit. *)
Definition sEnsureThreadInit : cprog unit :=
  let! initialized := tls_get t_initialized in
  if initialized : bool then Ret tt
  else
    let! main_co := aco_create NULL NULL NULL in
    tls_set (set_t_main_co main_co) ;;
    let! share_stack := aco_share_stack_new in
    tls_set (set_t_share_stack share_stack) ;;
    tls_set (set_t_initialized true).

(** ** Coroutine life cycle *)

(** What a coroutine runs on its first resume. *)
Definition sCoroutineTrampoline : cprog unit :=
  let! co := aco_get_co in
  let! start_ptr := aco_get_arg in
  let! entry := rd start_entry start_ptr in
  let! arg_ptr := rd start_arg start_ptr in
  sUnstartedUnlink start_ptr ;;
  free start_ptr ;;
  wr (aco_set_arg arg_ptr) co ;;
  call (K_entry entry) ;;
  aco_exit.

Definition UfsrvCoroutineCreate (entry : option N) (arg_ptr : ptr) : cprog ptr :=
  match entry with
  | None => Ret NULL
  | Some entry =>
      sEnsureThreadInit ;;
      let! start_ptr := alloc (MkStart NULL NULL NULL entry arg_ptr) in
      if is_null start_ptr then Ret NULL
      else
        let! main_co := tls_get t_main_co in
        let! share_stack := tls_get t_share_stack in
        let! co := aco_create main_co share_stack start_ptr in
        if is_null co then free start_ptr ;; Ret NULL
        else
          wr (set_start_coroutine co) start_ptr ;;
          sUnstartedLink start_ptr ;;
          Ret co
  end.

Definition UfsrvCoroutineResume (coroutine_ptr : ptr) : cprog unit :=
  if is_null coroutine_ptr then Ret tt
  else
    sEnsureThreadInit ;;
    call (K_aco_resume coroutine_ptr) ;;
    let! is_end := rd aco_is_end coroutine_ptr in
    when is_end (aco_destroy coroutine_ptr).

Definition UfsrvCoroutineYield : cprog unit := Yield (Ret tt).
Definition UfsrvCoroutineCurrent : cprog ptr := aco_get_co.
Definition UfsrvCoroutineGetArg : cprog ptr := aco_get_arg.
Definition UfsrvCoroutineCurrentScheduler : cprog ptr := tls_get t_current_scheduler.

Definition UfsrvCoroutineIsInCoroutine : cprog bool :=
  let! co := aco_get_co in
  let! initialized := tls_get t_initialized in
  let! main_co := tls_get t_main_co in
  Ret (initialized && negb (is_null co) && negb (bool_decide (co = main_co))).

Definition UfsrvCoroutineExit : cprog unit := aco_exit.

Definition UfsrvCoroutineThreadCleanup : cprog unit :=
  let! initialized := tls_get t_initialized in
  if negb initialized then Ret tt else sFreeThreadState.

(** ** Scheduler jobs *)
Definition sResumeJob (ctx : ptr) : cprog ptr :=
  let! prev_scheduler := tls_get t_current_scheduler in
  let! scheduler := rd rc_scheduler ctx in
  tls_set (set_t_current_scheduler scheduler) ;;
  let! coroutine := rd rc_coroutine ctx in
  UfsrvCoroutineResume coroutine ;;
  tls_set (set_t_current_scheduler prev_scheduler) ;;
  free ctx ;;
  Ret NULL.

Definition UfsrvCoroutineSubmitResume (scheduler_ptr coroutine_ptr : ptr) : cprog bool :=
  if is_null scheduler_ptr || is_null coroutine_ptr then Ret false
  else
    let! ctx := alloc (MkResumeContext scheduler_ptr coroutine_ptr) in
    if is_null ctx then Ret false
    else
      let! ok := UfsrvSchedulerSubmit scheduler_ptr (Some JB_sResumeJob) ctx in
      if negb ok then free ctx ;; Ret false else Ret true.

Definition sSpawnJob (ctx : ptr) : cprog ptr :=
  let! prev_scheduler := tls_get t_current_scheduler in
  let! scheduler := rd sc_scheduler ctx in
  tls_set (set_t_current_scheduler scheduler) ;;
  let! entry := rd sc_entry ctx in
  let! arg_ptr := rd sc_arg_ptr ctx in
  let! co := UfsrvCoroutineCreate (Some entry) arg_ptr in
  when (negb (is_null co)) (UfsrvCoroutineResume co) ;;
  tls_set (set_t_current_scheduler prev_scheduler) ;;
  free ctx ;;
  Ret NULL.

Definition UfsrvCoroutineSpawn (scheduler_ptr : ptr) (entry : option N) (arg_ptr : ptr) : cprog unit :=
  match entry with
  | None => Ret tt
  | Some entry =>
    if is_null scheduler_ptr then Ret tt
    else
      let! ctx := alloc (MkSpawnContext scheduler_ptr entry arg_ptr) in
      if is_null ctx then Ret tt
      else
        let! ok := UfsrvSchedulerSubmit scheduler_ptr (Some JB_sSpawnJob) ctx in
        when (negb ok) (free ctx)
  end.
End Operations.
