(* ===== verification/Future.v ===== *)
(** * Future: src/ufsrv_future/ufsrv_future.c, lines 39-796

    Promises and futures: one-shot completion, continuation and waiter lists,
    reference counting, the four ways of waiting, and cancellation attachment.
    The [UfsrvFutureResult *] handed to a continuation is always the address of
    the completing future's [result] field, so it is represented by that
    future's address. *)
From S2P Require Import Prelude Machine Uflib Model Cancellation Scheduler Coroutine.
Local Open Scope prog_scope.

Section Operations.
Context {E : Ext}.

(** ** The Treiber stack operations, on the object they are applied to *)
Definition lockless_treiber_stack_create : cprog ptr := alloc ts_create.
Definition lockless_treiber_stack_destroy (stack : ptr) : cprog unit := free stack.
Definition lockless_treiber_stack_push (stack node : ptr) : cprog bool := rmw (ts_push node) stack.
Definition lockless_treiber_stack_steal_all_and_close (stack : ptr) : cprog (list ptr) :=
  rmw ts_steal_all_and_close stack.

(** [claim], [release] and [retain] of the node embedded in a continuation or
    in a waiter. *)
Definition on_cont {B} (g : tnode -> B * tnode) (x : UfsrvContinuation) : B * UfsrvContinuation :=
  ((g (cont_base x)).1, set_cont_base (g (cont_base x)).2 x).
Definition on_waiter {B} (g : tnode -> B * tnode) (x : UfsrvWaiter) : B * UfsrvWaiter :=
  ((g (wt_base x)).1, set_wt_base (g (wt_base x)).2 x).
Definition cont_claim (node : ptr) : cprog bool := rmw (on_cont tn_claim) node.
Definition cont_release (node : ptr) : cprog bool := rmw (on_cont tn_release) node.
Definition waiter_claim (node : ptr) : cprog bool := rmw (on_waiter tn_claim) node.
Definition waiter_release (node : ptr) : cprog bool := rmw (on_waiter tn_release) node.
Definition waiter_retain (node : ptr) : cprog unit := rmw (on_waiter (fun n => (tt, tn_retain n))) node.

(** ** Continuation nodes *)
Definition sNodeRelease (node_ptr : ptr) : cprog unit :=
  let! last := cont_release node_ptr in
  when last (free node_ptr).

Definition sNodeDiscard (node_ptr : ptr) : cprog unit :=
  let! _ := cont_release node_ptr in
  sNodeRelease node_ptr.

Definition sRunContinuation (future_ptr node_ptr : ptr) : cprog unit :=
  let! won := cont_claim node_ptr in
  if won : bool then
    let! fn := rd cont_fn node_ptr in
    let! user := rd cont_user node_ptr in
    call (K_future_cb fn future_ptr user)
  else Ret tt.

Definition sPushContinuation (future_ptr node_ptr : ptr) : cprog bool :=
  let! continuations := rd fut_continuations future_ptr in
  lockless_treiber_stack_push continuations node_ptr.

(** The loop of [sDrainContinuations] over the detached chain; reading
    [node_ptr->next] requires the node to be live. *)
Fixpoint sDrainContinuations_loop (future_ptr : ptr) (chain : list ptr) : cprog unit :=
  match chain with
  | [] => Ret tt
  | node_ptr :: next_ptr =>
      let! _ := rd cont_base node_ptr in
      sRunContinuation future_ptr node_ptr ;;
      sNodeRelease node_ptr ;;
      sDrainContinuations_loop future_ptr next_ptr
  end.

Definition sDrainContinuations (future_ptr : ptr) : cprog unit :=
  let! continuations := rd fut_continuations future_ptr in
  let! chain := lockless_treiber_stack_steal_all_and_close continuations in
  sDrainContinuations_loop future_ptr chain.

(** ** Waiters *)
Definition sWaiterRelease (waiter : ptr) : cprog unit :=
  let! last := waiter_release waiter in
  when last (free waiter).

(** Wake one claimed waiter: resume its coroutine or write its eventfd. *)
Definition wake_waiter (waiter : ptr) : cprog unit :=
  let! coroutine := rd wt_coroutine waiter in
  if negb (is_null coroutine) then
    let! scheduler := rd wt_scheduler waiter in
    let! ok := UfsrvCoroutineSubmitResume scheduler coroutine in
    when (negb ok) abort
  else
    let! block_fd := rd wt_block_fd waiter in
    when (bool_decide (0 <= block_fd)%Z) (eventfd_write_one block_fd).

Fixpoint sDrainWaiters_loop (chain : list ptr) : cprog unit :=
  match chain with
  | [] => Ret tt
  | waiter :: next_ptr =>
      let! _ := rd wt_base waiter in
      let! won := waiter_claim waiter in
      when won (wake_waiter waiter) ;;
      sWaiterRelease waiter ;;
      sDrainWaiters_loop next_ptr
  end.

Definition sDrainWaiters (future_ptr : ptr) : cprog unit :=
  let! waiters := rd fut_waiters future_ptr in
  let! chain := lockless_treiber_stack_steal_all_and_close waiters in
  sDrainWaiters_loop chain.

Definition sWaiterDiscard (waiter : ptr) : cprog unit :=
  let! _ := waiter_release waiter in
  sWaiterRelease waiter.

(** ** Completion *)
Definition sFutureComplete (future_ptr : ptr) (result : UfsrvFutureResult) : cprog bool :=
  let! already := xchg fut_is_completed set_fut_is_completed true future_ptr in
  if already : bool then Ret false
  else
    wr (set_fut_result result) future_ptr ;;
    wr (set_fut_state READY) future_ptr ;;
    let! handle := xchg fut_cancel_handle set_fut_cancel_handle NULL future_ptr in
    (if negb (is_null handle)
     then let! _ := UfsrvCancellationTokenUnregister handle in Ret tt
     else Ret tt) ;;
    sDrainWaiters future_ptr ;;
    sDrainContinuations future_ptr ;;
    Ret true.

Definition future_is_ready (future_ptr : ptr) : cprog bool :=
  let! state := rd fut_state future_ptr in
  Ret (bool_decide (state = READY)).

Definition sFutureThen (future_ptr : ptr) (fn : option fut_cb) (context_ptr : ptr) : cprog bool :=
  match fn with
  | None => Ret false
  | Some fn =>
    if is_null future_ptr then Ret false
    else
      let! ready := future_is_ready future_ptr in
      if ready : bool then
        call (K_future_cb fn future_ptr context_ptr) ;; Ret true
      else
        let! node_ptr := alloc (MkContinuation tn_init fn context_ptr) in
        if is_null node_ptr then Ret false
        else
          let! pushed := sPushContinuation future_ptr node_ptr in
          if negb pushed then
            call (K_future_cb fn future_ptr context_ptr) ;;
            sNodeDiscard node_ptr ;;
            Ret true
          else
            sNodeRelease node_ptr ;;
            Ret true
  end.

Definition sConsumeOnce (future_ptr : ptr) : cprog bool :=
  let! old := xchg fut_is_consumed set_fut_is_consumed true future_ptr in
  Ret (negb old).

(** [if (r.free_value != NULL && r.value != NULL) r.free_value(r.value)] *)
Definition free_result_value (r : UfsrvFutureResult) : cprog unit :=
  when (negb (is_null (res_value r)))
    (call_opt (res_free_value r) (fun fn => K_free_value fn (res_value r))).

(** ** Reference counting *)
Definition UfsrvFutureRetain (future_ptr : ptr) : cprog unit :=
  if is_null future_ptr then Ret tt
  else let! _ := fetch_add_int fut_refcount set_fut_refcount 1 future_ptr in Ret tt.

Fixpoint release_continuations (chain : list ptr) : cprog unit :=
  match chain with
  | [] => Ret tt
  | node_ptr :: next_ptr =>
      let! _ := rd cont_base node_ptr in
      sNodeRelease node_ptr ;;
      release_continuations next_ptr
  end.

Fixpoint release_waiters (chain : list ptr) : cprog unit :=
  match chain with
  | [] => Ret tt
  | waiter :: next_ptr =>
      let! block_fd := rd wt_block_fd waiter in
      when (bool_decide (0 <= block_fd)%Z) (close block_fd) ;;
      sWaiterRelease waiter ;;
      release_waiters next_ptr
  end.

Definition UfsrvFutureRelease (future_ptr : ptr) : cprog unit :=
  if is_null future_ptr then Ret tt
  else
    let! old := fetch_add_int fut_refcount set_fut_refcount (-1) future_ptr in
    if negb (bool_decide (old = 1%Z)) then Ret tt
    else
      let! result := rd fut_result future_ptr in
      free_result_value result ;;
      let! continuations := rd fut_continuations future_ptr in
      let! chain := lockless_treiber_stack_steal_all_and_close continuations in
      release_continuations chain ;;
      let! waiters := rd fut_waiters future_ptr in
      let! wchain := lockless_treiber_stack_steal_all_and_close waiters in
      release_waiters wchain ;;
      lockless_treiber_stack_destroy continuations ;;
      lockless_treiber_stack_destroy waiters ;;
      let! token_ptr := xchg fut_cancel_token set_fut_cancel_token NULL future_ptr in
      when (negb (is_null token_ptr)) (UfsrvCancellationTokenDestroy token_ptr) ;;
      free future_ptr.

(** ** Promises *)

(** Returns the promise and what is stored through [future_out]; the argument
    says whether [future_out] is NULL. *)
Definition UfsrvPromiseCreate (future_out_is_null : bool) : cprog (ptr * ptr) :=
  if future_out_is_null then Ret (NULL, NULL)
  else
    let! future_ptr := alloc (MkFuture false false PENDING zero_result NULL NULL 0 NULL NULL) in
    if is_null future_ptr then Ret (NULL, NULL)
    else
      let! promise_ptr := alloc (MkPromise NULL false) in
      if is_null promise_ptr then free future_ptr ;; Ret (NULL, NULL)
      else
        let! continuations := lockless_treiber_stack_create in
        let! waiters := lockless_treiber_stack_create in
        wr (fun x => MkFuture (fut_is_completed x) (fut_is_consumed x) (fut_state x) (fut_result x)
                       continuations waiters (fut_refcount x) (fut_cancel_token x)
                       (fut_cancel_handle x)) future_ptr ;;
        if is_null continuations || is_null waiters then
          lockless_treiber_stack_destroy continuations ;;
          lockless_treiber_stack_destroy waiters ;;
          free promise_ptr ;;
          free future_ptr ;;
          Ret (NULL, NULL)
        else
          wr (set_fut_refcount 2) future_ptr ;;
          wr (fun _ => MkPromise future_ptr false) promise_ptr ;;
          Ret (promise_ptr, future_ptr).

Definition UfsrvPromiseSetResult (promise_ptr : ptr) (result : UfsrvFutureResult) : cprog unit :=
  if is_null promise_ptr then Ret tt
  else
    let! fulfilled := xchg prm_is_fulfilled set_prm_is_fulfilled true promise_ptr in
    if fulfilled : bool then free_result_value result
    else
      let! future_ptr := rd prm_future promise_ptr in
      let! completed := sFutureComplete future_ptr result in
      when (negb completed) (free_result_value result).

Definition UfsrvPromiseSetValue (promise_ptr value_ptr : ptr) (free_value : option free_fn) : cprog unit :=
  UfsrvPromiseSetResult promise_ptr (MkResult 0 value_ptr free_value).

Definition UfsrvPromiseSetError (promise_ptr : ptr) (error : Z) : cprog unit :=
  UfsrvPromiseSetResult promise_ptr (error_result error).

Definition UfsrvPromiseDestroy (promise_ptr : ptr) : cprog unit :=
  if is_null promise_ptr then Ret tt
  else
    let! fulfilled := xchg prm_is_fulfilled set_prm_is_fulfilled true promise_ptr in
    (if negb fulfilled then
       let! future_ptr := rd prm_future promise_ptr in
       let! _ := sFutureComplete future_ptr (error_result EPIPE) in Ret tt
     else Ret tt) ;;
    let! future_ptr := rd prm_future promise_ptr in
    UfsrvFutureRelease future_ptr ;;
    free promise_ptr.

Definition sMoveChainContinuation (result_ptr out_promise : ptr) : cprog ptr :=
  let! result := rd fut_result result_ptr in
  UfsrvPromiseSetResult out_promise result ;;
  UfsrvPromiseDestroy out_promise ;;
  wr (set_fut_result zero_result) result_ptr ;;
  Ret NULL.

Definition UfsrvFutureThen (future_ptr : ptr) (callback : option fut_cb) (context_ptr : ptr) : cprog bool :=
  if is_null future_ptr || bool_decide (callback = None) then Ret false
  else sFutureThen future_ptr callback context_ptr.

Definition UfsrvFutureIsReady (future_ptr : ptr) : cprog bool :=
  if is_null future_ptr then Ret false else future_is_ready future_ptr.

Definition UfsrvFutureFromValue (value_ptr : ptr) (free_value : option free_fn) : cprog ptr :=
  let! pf := UfsrvPromiseCreate false in
  if is_null pf.1 then Ret NULL
  else
    UfsrvPromiseSetValue pf.1 value_ptr free_value ;;
    UfsrvPromiseDestroy pf.1 ;;
    Ret pf.2.

Definition UfsrvFutureFromError (error : Z) : cprog ptr :=
  let! pf := UfsrvPromiseCreate false in
  if is_null pf.1 then Ret NULL
  else
    UfsrvPromiseSetError pf.1 error ;;
    UfsrvPromiseDestroy pf.1 ;;
    Ret pf.2.
End Operations.
