(* ===== verification/Waiting.v ===== *)
(** * Waiting: src/ufsrv_future/ufsrv_future.c, lines 353-642 and 727-796

    The four paths of [UfsrvFutureGet] / [UfsrvFutureGetWithCancellation]
    (suspend a coroutine or block on an eventfd, with or without a token), the
    callbacks a token runs to wake a waiter, and [UfsrvFutureAttachCancellation]. *)
From S2P Require Import Prelude Machine Uflib Model Cancellation Scheduler Coroutine Future.
Local Open Scope prog_scope.

Section Operations.
Context {E : Ext}.

(** [do { n = read(fd, ...); } while (n < 0 && errno == EINTR);] *)
Definition read_retry_loop (fd : Z) : cprog ptr :=
  let! n := eventfd_read fd in
  match n with
  | READ_eintr => call (L_read_retry fd) ;; Ret NULL
  | _ => Ret NULL
  end.

(** A waiter as [malloc] returns it: the fields are assigned before use. *)
Definition raw_waiter : UfsrvWaiter := MkWaiter tn_init NULL NULL 0 NULL.

Definition sFutureGetBlocking (future_ptr : ptr) : cprog UfsrvFutureResult :=
  let! waiter := alloc raw_waiter in
  if is_null waiter then Ret (error_result (-1))
  else
    let! fd := eventfd in
    wr (set_wt_block_fd fd) waiter ;;
    if bool_decide (fd < 0)%Z then free waiter ;; Ret (error_result (-1))
    else
      wr (fun x => MkWaiter tn_init NULL NULL (wt_block_fd x) NULL) waiter ;;
      let! waiters := rd fut_waiters future_ptr in
      let! pushed := lockless_treiber_stack_push waiters waiter in
      if negb pushed then
        let! block_fd := rd wt_block_fd waiter in
        close block_fd ;;
        sWaiterDiscard waiter ;;
        rd fut_result future_ptr
      else
        let! block_fd := rd wt_block_fd waiter in
        call (L_read_retry block_fd) ;;
        let! block_fd := rd wt_block_fd waiter in
        close block_fd ;;
        sWaiterRelease waiter ;;
        rd fut_result future_ptr.

Definition UfsrvFutureGet (future_ptr : ptr) : cprog UfsrvFutureResult :=
  if is_null future_ptr then Ret (error_result (-1))
  else
    let! ready := future_is_ready future_ptr in
    if ready : bool then rd fut_result future_ptr
    else
      let! scheduler := UfsrvCoroutineCurrentScheduler in
      if is_null scheduler then
        let! on_worker := UfsrvSchedulerIsOnWorkerThread in
        if on_worker : bool then assert_false ;; Ret (error_result EDEADLK)
        else sFutureGetBlocking future_ptr
      else
        let! waiter := alloc raw_waiter in
        if is_null waiter then Ret (error_result (-1))
        else
          let! coroutine := UfsrvCoroutineCurrent in
          wr (fun _ => MkWaiter tn_init coroutine scheduler (-1) NULL) waiter ;;
          let! waiters := rd fut_waiters future_ptr in
          let! pushed := lockless_treiber_stack_push waiters waiter in
          if negb pushed then
            sWaiterDiscard waiter ;;
            rd fut_result future_ptr
          else
            UfsrvCoroutineYield ;;
            sWaiterRelease waiter ;;
            rd fut_result future_ptr.

Definition sResumeWaiterOnCancel (waiter : ptr) : cprog ptr :=
  let! won := waiter_claim waiter in
  (if won : bool then
     let! scheduler := rd wt_scheduler waiter in
     let! coroutine := rd wt_coroutine waiter in
     let! ok := UfsrvCoroutineSubmitResume scheduler coroutine in
     when (negb ok) abort
   else Ret tt) ;;
  Ret NULL.

Definition sWakeBlockingWaiterOnCancel (waiter : ptr) : cprog ptr :=
  let! won := waiter_claim waiter in
  (if won : bool then
     let! block_fd := rd wt_block_fd waiter in
     eventfd_write_one block_fd
   else Ret tt) ;;
  Ret NULL.

Definition sWaiterCancelRelease (waiter : ptr) : cprog ptr :=
  sWaiterRelease waiter ;; Ret NULL.

(** The tail shared by both cancellable waits: ECANCELED wins over the result. *)
Definition result_unless_cancelled (future_ptr token_ptr : ptr) : cprog UfsrvFutureResult :=
  let! cancelled := UfsrvCancellationTokenIsCancelled token_ptr in
  if cancelled : bool then Ret (error_result ECANCELED)
  else rd fut_result future_ptr.

Definition sFutureGetBlockingCancellable (future_ptr token_ptr : ptr) : cprog UfsrvFutureResult :=
  let! waiter := alloc raw_waiter in
  if is_null waiter then Ret (error_result (-1))
  else
    let! fd := eventfd in
    wr (set_wt_block_fd fd) waiter ;;
    if bool_decide (fd < 0)%Z then free waiter ;; Ret (error_result (-1))
    else
      wr (fun x => MkWaiter tn_init NULL NULL (wt_block_fd x) NULL) waiter ;;
      let! waiters := rd fut_waiters future_ptr in
      let! pushed := lockless_treiber_stack_push waiters waiter in
      if negb pushed then
        let! block_fd := rd wt_block_fd waiter in
        close block_fd ;;
        wr (set_wt_block_fd (-1)) waiter ;;
        sWaiterDiscard waiter ;;
        rd fut_result future_ptr
      else
        waiter_retain waiter ;;
        let! handle := UfsrvCancellationTokenRegisterEx token_ptr
                         (Some CC_sWakeBlockingWaiterOnCancel) waiter
                         (Some CC_sWaiterCancelRelease) in
        wr (set_wt_cancel_handle handle) waiter ;;
        if is_null handle then
          let! _ := waiter_release waiter in
          let! block_fd := rd wt_block_fd waiter in
          close block_fd ;;
          wr (set_wt_block_fd (-1)) waiter ;;
          let! _ := waiter_release waiter in
          Ret (error_result (-1))
        else
          let! block_fd := rd wt_block_fd waiter in
          call (L_read_retry block_fd) ;;
          let! block_fd := rd wt_block_fd waiter in
          close block_fd ;;
          wr (set_wt_block_fd (-1)) waiter ;;
          let! cancel_handle := rd wt_cancel_handle waiter in
          let! _ := UfsrvCancellationTokenUnregister cancel_handle in
          sWaiterRelease waiter ;;
          result_unless_cancelled future_ptr token_ptr.

Definition UfsrvFutureGetWithCancellation (future_ptr token_ptr : ptr) : cprog UfsrvFutureResult :=
  if is_null future_ptr then Ret (error_result (-1))
  else if is_null token_ptr then UfsrvFutureGet future_ptr
  else
    let! cancelled := UfsrvCancellationTokenIsCancelled token_ptr in
    if cancelled : bool then Ret (error_result ECANCELED)
    else
      let! ready := future_is_ready future_ptr in
      if ready : bool then rd fut_result future_ptr
      else
        let! scheduler := UfsrvCoroutineCurrentScheduler in
        if is_null scheduler then
          let! on_worker := UfsrvSchedulerIsOnWorkerThread in
          if on_worker : bool then assert_false ;; Ret (error_result EDEADLK)
          else sFutureGetBlockingCancellable future_ptr token_ptr
        else
          let! waiter := alloc raw_waiter in
          if is_null waiter then Ret (error_result (-1))
          else
            let! coroutine := UfsrvCoroutineCurrent in
            let! scheduler := UfsrvCoroutineCurrentScheduler in
            wr (fun _ => MkWaiter tn_init coroutine scheduler (-1) NULL) waiter ;;
            let! waiters := rd fut_waiters future_ptr in
            let! pushed := lockless_treiber_stack_push waiters waiter in
            if negb pushed then
              sWaiterDiscard waiter ;;
              rd fut_result future_ptr
            else
              waiter_retain waiter ;;
              let! handle := UfsrvCancellationTokenRegisterEx token_ptr
                               (Some CC_sResumeWaiterOnCancel) waiter
                               (Some CC_sWaiterCancelRelease) in
              wr (set_wt_cancel_handle handle) waiter ;;
              if is_null handle then
                let! _ := waiter_release waiter in
                let! _ := waiter_release waiter in
                Ret (error_result (-1))
              else
                UfsrvCoroutineYield ;;
                let! cancel_handle := rd wt_cancel_handle waiter in
                let! _ := UfsrvCancellationTokenUnregister cancel_handle in
                sWaiterRelease waiter ;;
                result_unless_cancelled future_ptr token_ptr.

(** ** Cancellation attached to a future *)
Definition sFutureCancelCallback (future_ptr : ptr) : cprog ptr :=
  let! _ := sFutureComplete future_ptr (error_result ECANCELED) in Ret NULL.

Definition sFutureCancelRelease (future_ptr : ptr) : cprog ptr :=
  UfsrvFutureRelease future_ptr ;; Ret NULL.

(** [atomic_compare_exchange_strong(&cancel_token, NULL, token_ptr)] *)
Definition cas_cancel_token (future_ptr token_ptr : ptr) : cprog bool :=
  rmw (fun x => if is_null (fut_cancel_token x) then (true, set_fut_cancel_token token_ptr x)
                else (false, x)) future_ptr.

Definition UfsrvFutureAttachCancellation (future_ptr token_ptr : ptr) : cprog bool :=
  if is_null future_ptr || is_null token_ptr then Ret false
  else
    let! completed := rd fut_is_completed future_ptr in
    if completed : bool then Ret false
    else
      let! swapped := cas_cancel_token future_ptr token_ptr in
      if negb swapped then Ret false
      else
        UfsrvCancellationTokenRetainInternal token_ptr ;;
        UfsrvFutureRetain future_ptr ;;
        let! handle := UfsrvCancellationTokenRegisterEx token_ptr (Some CC_sFutureCancelCallback)
                         future_ptr (Some CC_sFutureCancelRelease) in
        if is_null handle then
          wr (set_fut_cancel_token NULL) future_ptr ;;
          UfsrvCancellationTokenDestroy token_ptr ;;
          UfsrvFutureRelease future_ptr ;;
          Ret false
        else
          wr (set_fut_cancel_handle handle) future_ptr ;;
          let! completed := rd fut_is_completed future_ptr in
          (if completed : bool then
             let! stale := xchg fut_cancel_handle set_fut_cancel_handle NULL future_ptr in
             if negb (is_null stale)
             then let! _ := UfsrvCancellationTokenUnregister stale in Ret tt
             else Ret tt
           else Ret tt) ;;
          Ret true.
End Operations.
