(* ===== verification/Operators.v ===== *)
(** * Operators: src/ufsrv_future/ufsrv_future.c, lines 798-1138

    The single-input operators [map], [flatMap], [onError] and [doOnSuccess]:
    each allocates an output promise/future pair and a context, registers a
    continuation on its input, and inherits the input's cancellation token. *)
From S2P Require Import Prelude Machine Uflib Model Cancellation Scheduler Coroutine Future Waiting.
Local Open Scope prog_scope.

Section Operations.
Context {E : Ext}.

(** Fulfil an output promise and destroy it. *)
Definition settle (out_promise : ptr) (result : UfsrvFutureResult) : cprog unit :=
  UfsrvPromiseSetResult out_promise result ;;
  UfsrvPromiseDestroy out_promise.

Definition settle_error (out_promise : ptr) (error : Z) : cprog unit :=
  UfsrvPromiseSetError out_promise error ;;
  UfsrvPromiseDestroy out_promise.

(** Give up a freshly created pair. *)
Definition abandon (out_promise out_future : ptr) : cprog unit :=
  UfsrvPromiseDestroy out_promise ;;
  UfsrvFutureRelease out_future.

(** The end of every operator: the output inherits the input's token. *)
Definition inherit_token (future_ptr out_future : ptr) : cprog ptr :=
  let! token := rd fut_cancel_token future_ptr in
  (if negb (is_null token)
   then let! _ := UfsrvFutureAttachCancellation out_future token in Ret tt
   else Ret tt) ;;
  Ret out_future.

(** ** map *)
Definition sMapContinuation (result_ptr ctx : ptr) : cprog ptr :=
  let! result := rd fut_result result_ptr in
  let! out_promise := rd map_out_promise ctx in
  (if bool_decide (res_error result <> 0)%Z then
     let! result := rd fut_result result_ptr in
     settle_error out_promise (res_error result)
   else
     let! mapper := rd map_mapper ctx in
     let! result := rd fut_result result_ptr in
     let! user := rd map_user ctx in
     Call (K_map mapper (res_value result) user) (fun mapped =>
       if is_null mapped then settle_error out_promise (-1)
       else
         let! free_value := rd map_free_value ctx in
         UfsrvPromiseSetValue out_promise mapped free_value ;;
         UfsrvPromiseDestroy out_promise)) ;;
  free ctx ;;
  Ret NULL.

Definition sFutureMap (future_ptr : ptr) (mapper : option N) (context_ptr : ptr)
    (free_value : option free_fn) : cprog ptr :=
  match mapper with
  | None => Ret NULL
  | Some mapper =>
    if is_null future_ptr then Ret NULL
    else
      let! pf := UfsrvPromiseCreate false in
      if is_null pf.1 then Ret NULL
      else
        let! ctx := alloc (MkMapContext pf.1 mapper context_ptr free_value) in
        if is_null ctx then abandon pf.1 pf.2 ;; Ret NULL
        else
          let! ok := sFutureThen future_ptr (Some CB_sMapContinuation) ctx in
          if negb ok then free ctx ;; abandon pf.1 pf.2 ;; Ret NULL
          else inherit_token future_ptr pf.2
  end.

Definition UfsrvFutureMap (future_ptr : ptr) (mapper : option N) (context_ptr : ptr) : cprog ptr :=
  sFutureMap future_ptr mapper context_ptr (Some FREE_libc).
Definition UfsrvFutureMapEx (future_ptr : ptr) (mapper : option N) (context_ptr : ptr)
    (free_value : option free_fn) : cprog ptr :=
  sFutureMap future_ptr mapper context_ptr free_value.

(** ** flatMap *)
Definition sDropContextToken (ctx : ptr) : cprog unit :=
  let! token := rd fm_token ctx in
  when (negb (is_null token))
    (UfsrvCancellationTokenDestroy token ;; wr (set_fm_token NULL) ctx).

(** Move the result of [next] into [out_promise], consuming [next]. *)
Definition chain_inner (next out_promise : ptr) : cprog unit :=
  let! first := sConsumeOnce next in
  if negb first then
    settle_error out_promise EINVAL ;;
    UfsrvFutureRelease next
  else
    let! _ := sFutureThen next (Some CB_sMoveChainContinuation) out_promise in
    UfsrvFutureRelease next.

Definition sFlatMapContinuation (result_ptr ctx : ptr) : cprog ptr :=
  let! result := rd fut_result result_ptr in
  let! out_promise := rd fm_out_promise ctx in
  (if bool_decide (res_error result <> 0)%Z then
     let! result := rd fut_result result_ptr in
     settle_error out_promise (res_error result) ;;
     sDropContextToken ctx
   else
     let! mapper := rd fm_mapper ctx in
     let! result := rd fut_result result_ptr in
     let! user := rd fm_user ctx in
     Call (K_flat_map mapper (res_value result) user) (fun next =>
       if is_null next then
         settle_error out_promise (-1) ;;
         sDropContextToken ctx
       else
         let! token := rd fm_token ctx in
         when (negb (is_null token))
           (let! _ := UfsrvFutureAttachCancellation next token in sDropContextToken ctx) ;;
         chain_inner next out_promise)) ;;
  free ctx ;;
  Ret NULL.

Definition UfsrvFutureFlatMap (future_ptr : ptr) (mapper : option N) (context_ptr : ptr) : cprog ptr :=
  match mapper with
  | None => Ret NULL
  | Some mapper =>
    if is_null future_ptr then Ret NULL
    else
      let! pf := UfsrvPromiseCreate false in
      if is_null pf.1 then Ret NULL
      else
        let! ctx := alloc (MkFlatMapContext pf.1 mapper context_ptr NULL) in
        if is_null ctx then abandon pf.1 pf.2 ;; Ret NULL
        else
          let! token := rd fut_cancel_token future_ptr in
          wr (set_fm_token token) ctx ;;
          when (negb (is_null token)) (UfsrvCancellationTokenRetainInternal token) ;;
          let! ok := sFutureThen future_ptr (Some CB_sFlatMapContinuation) ctx in
          if negb ok then free ctx ;; abandon pf.1 pf.2 ;; Ret NULL
          else inherit_token future_ptr pf.2
  end.

(** ** onError *)
(** Forward the result of [in_future] unchanged, once. *)
Definition forward_once (in_future out_promise result_ptr : ptr) : cprog unit :=
  let! first := sConsumeOnce in_future in
  if negb first then settle_error out_promise EINVAL
  else
    let! result := rd fut_result result_ptr in
    settle out_promise result ;;
    wr (set_fut_result zero_result) result_ptr.

Definition sOnErrorContinuation (result_ptr ctx : ptr) : cprog ptr :=
  let! result := rd fut_result result_ptr in
  let! out_promise := rd oe_out_promise ctx in
  (if bool_decide (res_error result <> 0)%Z then
     let! recovery := rd oe_recovery ctx in
     let! result := rd fut_result result_ptr in
     let! user := rd oe_user ctx in
     Call (K_recover recovery (res_error result) user) (fun recovered =>
       if is_null recovered then
         let! result := rd fut_result result_ptr in
         settle_error out_promise (res_error result)
       else chain_inner recovered out_promise)
   else
     let! in_future := rd oe_in_future ctx in
     forward_once in_future out_promise result_ptr) ;;
  free ctx ;;
  Ret NULL.

Definition UfsrvFutureOnError (future_ptr : ptr) (recovery : option N) (context_ptr : ptr) : cprog ptr :=
  match recovery with
  | None => Ret NULL
  | Some recovery =>
    if is_null future_ptr then Ret NULL
    else
      let! pf := UfsrvPromiseCreate false in
      if is_null pf.1 then Ret NULL
      else
        let! ctx := alloc (MkOnErrorContext pf.1 recovery context_ptr future_ptr) in
        if is_null ctx then abandon pf.1 pf.2 ;; Ret NULL
        else
          let! ok := sFutureThen future_ptr (Some CB_sOnErrorContinuation) ctx in
          if negb ok then free ctx ;; abandon pf.1 pf.2 ;; Ret NULL
          else inherit_token future_ptr pf.2
  end.

(** ** doOnSuccess *)
Definition sDoOnSuccessContinuation (result_ptr ctx : ptr) : cprog ptr :=
  let! result := rd fut_result result_ptr in
  (if bool_decide (res_error result = 0)%Z then
     let! action := rd ds_action ctx in
     let! result := rd fut_result result_ptr in
     let! user := rd ds_user ctx in
     call (K_action action (res_value result) user)
   else Ret tt) ;;
  let! in_future := rd ds_in_future ctx in
  let! out_promise := rd ds_out_promise ctx in
  forward_once in_future out_promise result_ptr ;;
  free ctx ;;
  Ret NULL.

Definition UfsrvFutureDoOnSuccess (future_ptr : ptr) (action : option N) (context_ptr : ptr) : cprog ptr :=
  match action with
  | None => Ret NULL
  | Some action =>
    if is_null future_ptr then Ret NULL
    else
      let! pf := UfsrvPromiseCreate false in
      if is_null pf.1 then Ret NULL
      else
        let! ctx := alloc (MkDoOnSuccessContext pf.1 action context_ptr future_ptr) in
        if is_null ctx then abandon pf.1 pf.2 ;; Ret NULL
        else
          let! ok := sFutureThen future_ptr (Some CB_sDoOnSuccessContinuation) ctx in
          if negb ok then free ctx ;; abandon pf.1 pf.2 ;; Ret NULL
          else inherit_token future_ptr pf.2
  end.
End Operations.
