(* ===== verification/Combinators.v ===== *)
(** * Combinators: src/ufsrv_future/ufsrv_future.c, lines 1140-1409

    [all] (fail-fast barrier), [any] (first to finish) and [zip]. *)
From S2P Require Import Prelude Machine Uflib Model Cancellation Scheduler Coroutine Future Waiting.
From S2P Require Import Operators.
Local Open Scope prog_scope.

Section Operations.
Context {E : Ext}.

(** [futures[i]] of the caller's array; out of bounds is undefined. *)
Definition input (futures : list ptr) (i : nat) : cprog ptr :=
  Act (fun s => match futures !! i with Some f => Ok f s | None => Stuck end) Ret.

(** ** all *)
Definition sAllContinuation (result_ptr ctx : ptr) : cprog ptr :=
  let! result := rd fut_result result_ptr in
  (if bool_decide (res_error result <> 0)%Z then
     let! failed := xchg all_failed set_all_failed true ctx in
     when (negb failed)
       (let! out_promise := rd all_out_promise ctx in
        let! result := rd fut_result result_ptr in
        settle_error out_promise (res_error result))
   else Ret tt) ;;
  let! old := fetch_sub_size all_remaining set_all_remaining 1 ctx in
  (if bool_decide (old = 1)%Z then
     let! failed := rd all_failed ctx in
     when (negb failed)
       (let! out_promise := rd all_out_promise ctx in
        UfsrvPromiseSetValue out_promise NULL None ;;
        UfsrvPromiseDestroy out_promise) ;;
     free ctx
   else Ret tt) ;;
  Ret NULL.

(** The registration loop from index [i], [todo] inputs left. *)
Fixpoint All_loop (ctx : ptr) (futures : list ptr) (i todo : nat) : cprog unit :=
  match todo with
  | O => Ret tt
  | S todo =>
      let! f := input futures i in
      let! ok := UfsrvFutureThen f (Some CB_sAllContinuation) ctx in
      (if ok : bool then Ret tt
       else
         let! failed := xchg all_failed set_all_failed true ctx in
         when (negb failed)
           (let! out_promise := rd all_out_promise ctx in
            settle_error out_promise EINVAL) ;;
         let! old := fetch_sub_size all_remaining set_all_remaining 1 ctx in
         when (bool_decide (old = 1)%Z) (free ctx)) ;;
      All_loop ctx futures (S i) todo
  end.

(** [futures] is [None] for a NULL array. *)
Definition UfsrvFutureAll (futures : option (list ptr)) (count : nat) : cprog ptr :=
  if bool_decide (count = 0) then UfsrvFutureFromValue NULL None
  else
    match futures with
    | None => Ret NULL
    | Some futures =>
        let! pf := UfsrvPromiseCreate false in
        if is_null pf.1 then Ret NULL
        else
          let! ctx := alloc (MkAllContext pf.1 (Z.of_nat count) false) in
          if is_null ctx then abandon pf.1 pf.2 ;; Ret NULL
          else All_loop ctx futures 0 count ;; Ret pf.2
    end.

(** ** any *)
Definition sAnyContinuation (result_ptr reg : ptr) : cprog ptr :=
  let! ctx := rd anyreg_ctx reg in
  let! in_future := rd anyreg_in_future reg in
  free reg ;;
  let! claimed := xchg any_claimed set_any_claimed true ctx in
  when (negb claimed)
    (let! out_promise := rd any_out_promise ctx in
     forward_once in_future out_promise result_ptr) ;;
  let! old := fetch_sub_size any_remaining set_any_remaining 1 ctx in
  when (bool_decide (old = 1)%Z) (free ctx) ;;
  Ret NULL.

(** Register input [f]; [true] when its continuation is in place (or has run). *)
Definition Any_register (ctx f : ptr) : cprog bool :=
  let! reg := alloc (MkAnyRegistration ctx f) in
  if is_null reg then Ret false
  else
    let! ok := UfsrvFutureThen f (Some CB_sAnyContinuation) reg in
    if ok : bool then Ret true
    else free reg ;; Ret false.

(** One turn of the registration loop. *)
Definition Any_input (ctx f : ptr) : cprog unit :=
  let! ok := Any_register ctx f in
  if ok : bool then Ret tt
  else
    let! old := fetch_sub_size any_remaining set_any_remaining 1 ctx in
    if bool_decide (old = 1)%Z then
      let! claimed := rd any_claimed ctx in
      when (negb claimed)
        (let! out_promise := rd any_out_promise ctx in
         settle_error out_promise EINVAL) ;;
      free ctx
    else Ret tt.

Fixpoint Any_loop (ctx : ptr) (futures : list ptr) (i todo : nat) : cprog unit :=
  match todo with
  | O => Ret tt
  | S todo =>
      let! f := input futures i in
      Any_input ctx f ;;
      Any_loop ctx futures (S i) todo
  end.

Definition UfsrvFutureAny (futures : option (list ptr)) (count : nat) : cprog ptr :=
  if bool_decide (count = 0) then UfsrvFutureFromValue NULL None
  else
    match futures with
    | None => Ret NULL
    | Some futures =>
        let! pf := UfsrvPromiseCreate false in
        if is_null pf.1 then Ret NULL
        else
          let! ctx := alloc (MkAnyContext pf.1 false (Z.of_nat count)) in
          if is_null ctx then abandon pf.1 pf.2 ;; Ret NULL
          else Any_loop ctx futures 0 count ;; Ret pf.2
    end.

(** ** zip *)
Definition sZipComplete (ctx : ptr) : cprog unit :=
  let! first_future := rd zip_first_future ctx in
  let! second_future := rd zip_second_future ctx in
  let! out_promise := rd zip_out_promise ctx in
  let! first := rd zip_first ctx in
  let! second := rd zip_second ctx in
  (if bool_decide (res_error first <> 0)%Z then settle_error out_promise (res_error first)
   else if bool_decide (res_error second <> 0)%Z then settle_error out_promise (res_error second)
   else
     let! zipper := rd zip_zipper ctx in
     let! user := rd zip_user ctx in
     Call (K_zip zipper (res_value first) (res_value second) user) (fun zipped =>
       if is_null zipped then settle_error out_promise (-1)
       else
         let! free_value := rd zip_free_value ctx in
         UfsrvPromiseSetValue out_promise zipped free_value ;;
         UfsrvPromiseDestroy out_promise)) ;;
  free ctx ;;
  UfsrvFutureRelease first_future ;;
  UfsrvFutureRelease second_future.

Definition sZipFirstContinuation (result_ptr ctx : ptr) : cprog ptr :=
  let! result := rd fut_result result_ptr in
  wr (set_zip_first result) ctx ;;
  let! old := fetch_sub_size zip_remaining set_zip_remaining 1 ctx in
  when (bool_decide (old = 1)%Z) (sZipComplete ctx) ;;
  Ret NULL.

Definition sZipSecondContinuation (result_ptr ctx : ptr) : cprog ptr :=
  let! result := rd fut_result result_ptr in
  wr (set_zip_second result) ctx ;;
  let! old := fetch_sub_size zip_remaining set_zip_remaining 1 ctx in
  when (bool_decide (old = 1)%Z) (sZipComplete ctx) ;;
  Ret NULL.

Definition sFutureZip (future_a future_b : ptr) (zipper : option N) (context_ptr : ptr)
    (free_value : option free_fn) : cprog ptr :=
  match zipper with
  | None => Ret NULL
  | Some zipper =>
    if is_null future_a || is_null future_b then Ret NULL
    else
      let! pf := UfsrvPromiseCreate false in
      if is_null pf.1 then Ret NULL
      else
        let! ctx := alloc (MkZipContext pf.1 zipper context_ptr future_a future_b
                             zero_result zero_result 2 free_value) in
        if is_null ctx then abandon pf.1 pf.2 ;; Ret NULL
        else
          UfsrvFutureRetain future_a ;;
          UfsrvFutureRetain future_b ;;
          let! ok_a := UfsrvFutureThen future_a (Some CB_sZipFirstContinuation) ctx in
          if negb ok_a then Ret NULL
          else
            let! ok_b := UfsrvFutureThen future_b (Some CB_sZipSecondContinuation) ctx in
            if negb ok_b then Ret NULL
            else Ret pf.2
  end.

Definition UfsrvFutureZip (future_a future_b : ptr) (zipper : option N) (context_ptr : ptr) : cprog ptr :=
  sFutureZip future_a future_b zipper context_ptr (Some FREE_libc).
Definition UfsrvFutureZipEx (future_a future_b : ptr) (zipper : option N) (context_ptr : ptr)
    (free_value : option free_fn) : cprog ptr :=
  sFutureZip future_a future_b zipper context_ptr free_value.
End Operations.
