(* ===== verification/Dispatch.v ===== *)
(** * Dispatch: the code table

    What each function pointer stands for.  Client functions and libaco's
    context switch are the parameter [Client]; everything else is the library's
    own code. *)
From S2P Require Import Prelude Machine Uflib Model Cancellation Scheduler Coroutine Future Waiting.
From S2P Require Import Operators Combinators.
Local Open Scope prog_scope.

(** The code that is not the library's: client callbacks, client destructors and
    what a resumed coroutine does until it switches back. *)
Record Client `{E : Ext} := {
  cl_future_cb : N -> ptr -> ptr -> cprog ptr;
  cl_map : N -> ptr -> ptr -> cprog ptr;
  cl_flat_map : N -> ptr -> ptr -> cprog ptr;
  cl_recover : N -> Z -> ptr -> cprog ptr;
  cl_action : N -> ptr -> ptr -> cprog ptr;
  cl_zip : N -> ptr -> ptr -> ptr -> cprog ptr;
  cl_free_value : free_fn -> ptr -> cprog ptr;
  cl_cancel_cb : N -> ptr -> cprog ptr;
  cl_job : N -> ptr -> cprog ptr;
  cl_entry : N -> cprog ptr;
  cl_aco_resume : ptr -> cprog ptr;
}.

Section Table.
Context {E : Ext} (client : Client).

Definition body_future_cb (fn : fut_cb) (r c : ptr) : cprog ptr :=
  match fn with
  | CB_user n => cl_future_cb client n r c
  | CB_sMoveChainContinuation => sMoveChainContinuation r c
  | CB_sMapContinuation => sMapContinuation r c
  | CB_sFlatMapContinuation => sFlatMapContinuation r c
  | CB_sOnErrorContinuation => sOnErrorContinuation r c
  | CB_sDoOnSuccessContinuation => sDoOnSuccessContinuation r c
  | CB_sAllContinuation => sAllContinuation r c
  | CB_sAnyContinuation => sAnyContinuation r c
  | CB_sZipFirstContinuation => sZipFirstContinuation r c
  | CB_sZipSecondContinuation => sZipSecondContinuation r c
  end.

Definition body_cancel_cb (fn : cancel_cb) (c : ptr) : cprog ptr :=
  match fn with
  | CC_user n => cl_cancel_cb client n c
  | CC_sFutureCancelCallback => sFutureCancelCallback c
  | CC_sFutureCancelRelease => sFutureCancelRelease c
  | CC_sResumeWaiterOnCancel => sResumeWaiterOnCancel c
  | CC_sWakeBlockingWaiterOnCancel => sWakeBlockingWaiterOnCancel c
  | CC_sWaiterCancelRelease => sWaiterCancelRelease c
  end.

Definition body_job (fn : job_cb) (c : ptr) : cprog ptr :=
  match fn with
  | JB_user n => cl_job client n c
  | JB_sResumeJob => sResumeJob c
  | JB_sSpawnJob => sSpawnJob c
  end.

Definition body (c : code) : cprog ptr :=
  match c with
  | K_future_cb fn r x => body_future_cb fn r x
  | K_map fn v x => cl_map client fn v x
  | K_flat_map fn v x => cl_flat_map client fn v x
  | K_recover fn e x => cl_recover client fn e x
  | K_action fn v x => cl_action client fn v x
  | K_zip fn a b x => cl_zip client fn a b x
  | K_free_value fn v => cl_free_value client fn v
  | K_cancel_cb fn x => body_cancel_cb fn x
  | K_job fn x => body_job fn x
  | K_entry fn => cl_entry client fn
  | K_aco_resume co => cl_aco_resume client co
  | K_sWorkerMain s => let! r := sWorkerMain s in pthread_exit ;; Ret r
  | L_token_reclaim n => sTokenRelease_loop n
  | L_cancel_mark n => Cancel_mark_loop n
  | L_cancel_run n => Cancel_run_loop n
  | L_read_retry fd => read_retry_loop fd
  | L_worker s => sWorkerMain_loop s
  | L_worker_drain s => sWorkerMain_drain s
  | L_destroy_drain s => UfsrvSchedulerDestroy_drain s
  | L_reclaim_unstarted => sReclaimUnstarted_loop
  end.
End Table.

(** Clients that do nothing: callbacks that only observe. *)
Definition quiet_client `{E : Ext} : Client := {|
  cl_future_cb _ _ _ := Ret NULL; cl_map _ v _ := Ret (v + 1000)%N; cl_flat_map _ _ _ := Ret NULL;
  cl_recover _ _ _ := Ret NULL; cl_action _ _ _ := Ret NULL; cl_zip _ a b _ := Ret (a + b)%N;
  cl_free_value _ _ := Ret NULL; cl_cancel_cb _ _ := Ret NULL; cl_job _ _ := Ret NULL;
  cl_entry _ := Ret NULL; cl_aco_resume _ := Ret NULL |}.

(** The machine's start: nothing allocated, the main thread running. *)
Definition boot `{E : Ext} : st :=
  MkSt ∅ 1%N ∅ 3 [] true 0%N ∅ 1%N [] [] [].
