(* ===== verification/Logic.v ===== *)
(** * Logic: proof rules for the atomic actions, and the symbolic-execution
    tactics built on them.

    A function is verified by stepping through its body: [wp_step] consumes the
    next action, looks its address up in the symbolic heap and continues in the
    resulting state. *)
From Stdlib Require Import FunctionalExtensionality.
From S2P Require Import Prelude Machine Uflib Model.

(** Addresses at or above [next_ptr] are free, and [next_ptr] is not NULL. *)
Definition wf_alloc `{E : Ext} (s : st) : Prop :=
  (0 < next_ptr s)%N /\ forall p, (next_ptr s <= p)%N -> heap s !! p = None.

(** [same_env s s']: only the heap, the allocator and the call history differ. *)
Record same_env `{E : Ext} (s s' : st) : Prop := {
  se_fds : fds s' = fds s;
  se_next_fd : next_fd s' = next_fd s;
  se_ndebug : ndebug s' = ndebug s;
  se_cur : cur s' = cur s;
  se_tls : tls s' = tls s;
  se_next_tid : next_tid s' = next_tid s;
  se_spawned : spawned s' = spawned s;
  se_exited : exited s' = exited s;
}.

Section Rules.
Context {E : Ext} (tbl : code -> cprog ptr).
Implicit Types s : st.

#[local] Abbreviation WPS := (wps tbl log).
#[local] Abbreviation WP := (wp tbl log).

Lemma is_null_false p : p <> NULL -> is_null p = false.
Proof. unfold is_null; intros; by apply bool_decide_eq_false_2. Qed.

Lemma wps_assoc {A B C} (p : cprog A) (k : A -> cprog B) (h : B -> cprog C) Q W Y s :
  WPS (bind p (fun a => bind (k a) h)) Q W Y s -> WPS (bind (bind p k) h) Q W Y s.
Proof. by rewrite bind_bind. Qed.

Lemma bind_ret_r {A} (p : cprog A) : bind p Ret = p.
Proof.
  induction p as [a|D f q IH|c q IH|q IH]; simpl; [done| | |by rewrite IH];
    f_equal; apply functional_extensionality; auto.
Qed.

Lemma wps_tail {A} (p : cprog A) Q W Y s : WPS (bind p Ret) Q W Y s -> WPS p Q W Y s.
Proof. by rewrite bind_ret_r. Qed.

Lemma wps_rd {T B A} `{!Cell T} (proj : T -> B) p x (k : B -> cprog A) Q W Y s :
  heap s !! p = Some (cell_inj x) ->
  WPS (k (proj x)) Q W Y s -> WPS (bind (rd proj p) k) Q W Y s.
Proof.
  intros Hp Hk; eapply wps_act; [|exact Hk].
  unfold lookup_cell; rewrite Hp; simpl; by rewrite cell_prj_inj.
Qed.

Lemma wps_rmw {T B A} `{!Cell T} (g : T -> B * T) p x (k : B -> cprog A) Q W Y s :
  heap s !! p = Some (cell_inj x) ->
  WPS (k (g x).1) Q W Y (store_cell p (g x).2 s) -> WPS (bind (rmw g p) k) Q W Y s.
Proof.
  intros Hp Hk; eapply wps_act; [|exact Hk].
  unfold lookup_cell; rewrite Hp; simpl; by rewrite cell_prj_inj.
Qed.

Lemma wps_wr {T A} `{!Cell T} (u : T -> T) p x (k : unit -> cprog A) Q W Y s :
  heap s !! p = Some (cell_inj x) ->
  WPS (k tt) Q W Y (store_cell p (u x) s) -> WPS (bind (wr u p) k) Q W Y s.
Proof. intros Hp Hk; by eapply wps_rmw. Qed.

Lemma wps_free {A} p o (k : unit -> cprog A) Q W Y s :
  p <> NULL -> heap s !! p = Some o ->
  WPS (k tt) Q W Y (with_heap (delete p) s) -> WPS (bind (free p) k) Q W Y s.
Proof.
  intros Hn Hp Hk; eapply wps_act; [|exact Hk]. by rewrite is_null_false, Hp.
Qed.

Lemma wps_free_null {A} (k : unit -> cprog A) Q W Y s :
  WPS (k tt) Q W Y s -> WPS (bind (free NULL) k) Q W Y s.
Proof. intros Hk; by eapply wps_act. Qed.

(** Allocation succeeds with a fresh address or fails; the oracle decides. *)
Lemma wps_alloc {T A} `{!Cell T} (x : T) (k : ptr -> cprog A) Q W Y s :
  wf_alloc s ->
  (forall o, WPS (k NULL) Q W Y (with_oracle o s)) ->
  (forall o, WPS (k (next_ptr s)) Q W Y
     (with_next_ptr (next_ptr s + 1) (store_cell (next_ptr s) x (with_oracle o s)))) ->
  WPS (bind (alloc x) k) Q W Y s.
Proof.
  intros Hwf H0 H1. unfold alloc.
  assert (Hs : s = with_oracle (oracle s) s) by by destruct s.
  destruct (oracle s) as [|[] r] eqn:Eo.
  - eapply wps_act; [unfold take_oracle; rewrite Eo; reflexivity|].
    rewrite Hs at 3. apply H1.
  - eapply wps_act; [unfold take_oracle; rewrite Eo; reflexivity|]. apply H0.
  - eapply wps_act; [unfold take_oracle; rewrite Eo; reflexivity|]. apply H1.
Qed.

(** Allocation when memory is not exhausted. *)
Lemma wps_alloc_ok {T A} `{!Cell T} (x : T) (k : ptr -> cprog A) Q W Y s :
  oracle s = [] ->
  WPS (k (next_ptr s)) Q W Y (with_next_ptr (next_ptr s + 1) (store_cell (next_ptr s) x s)) ->
  WPS (bind (alloc x) k) Q W Y s.
Proof.
  intros Ho Hk; eapply wps_act; [|exact Hk]. unfold take_oracle; by rewrite Ho.
Qed.

(** The two combined: it fails for want of memory only. *)
Lemma wps_alloc_or_oom {T A} `{!Cell T} (x : T) (k : ptr -> cprog A) Q W Y s :
  wf_alloc s ->
  (forall o, oracle s <> [] -> WPS (k NULL) Q W Y (with_oracle o s)) ->
  (forall o, (oracle s = [] -> o = []) -> WPS (k (next_ptr s)) Q W Y
     (with_next_ptr (next_ptr s + 1) (store_cell (next_ptr s) x (with_oracle o s)))) ->
  WPS (bind (alloc x) k) Q W Y s.
Proof.
  intros Hwf H0 H1. destruct (decide (oracle s = [])) as [Ho|Ho].
  - apply wps_alloc_ok; [done|]. specialize (H1 [] (fun _ => eq_refl)). assert (Hs : with_oracle [] s = s) by (destruct s; simpl in *; by subst).
    by rewrite Hs in H1.
  - apply wps_alloc; [done|auto|]. intros o. by apply H1.
Qed.

Lemma wps_lock {A} t x (k : unit -> cprog A) Q W Y s :
  heap s !! t = Some (OToken x) -> tok_lock x = false ->
  WPS (k tt) Q W Y (store_cell t (set_tok_lock true x) s) ->
  WPS (bind (pthread_mutex_lock t) k) Q W Y s.
Proof.
  intros Ht Hl Hk; eapply wps_act; [|exact Hk].
  unfold lookup_cell; rewrite Ht; simpl; by rewrite Hl.
Qed.

Lemma wps_unlock {A} t x (k : unit -> cprog A) Q W Y s :
  heap s !! t = Some (OToken x) -> tok_lock x = true ->
  WPS (k tt) Q W Y (store_cell t (set_tok_lock false x) s) ->
  WPS (bind (pthread_mutex_unlock t) k) Q W Y s.
Proof.
  intros Ht Hl Hk; eapply wps_act; [|exact Hk].
  unfold lookup_cell; rewrite Ht; simpl; by rewrite Hl.
Qed.

Lemma wps_mutex_destroy {A} t x (k : unit -> cprog A) Q W Y s :
  heap s !! t = Some (OToken x) -> tok_lock x = false ->
  WPS (k tt) Q W Y s -> WPS (bind (pthread_mutex_destroy t) k) Q W Y s.
Proof.
  intros Ht Hl Hk; eapply wps_act; [|exact Hk].
  unfold lookup_cell; rewrite Ht; simpl; by rewrite Hl.
Qed.

Lemma wps_tls_get {A B} (proj : tls_t -> B) (k : B -> cprog A) Q W Y s :
  WPS (k (proj (tls_of s))) Q W Y s -> WPS (bind (tls_get proj) k) Q W Y s.
Proof. intros Hk; by eapply wps_act. Qed.

Lemma wps_tls_set {A} (u : tls_t -> tls_t) (k : unit -> cprog A) Q W Y s :
  WPS (k tt) Q W Y (with_tls (<[cur s := u (tls_of s)]>) s) -> WPS (bind (tls_set u) k) Q W Y s.
Proof. intros Hk; by eapply wps_act. Qed.

Lemma wps_self {A} (k : N -> cprog A) Q W Y s :
  WPS (k (cur s)) Q W Y s -> WPS (bind pthread_self k) Q W Y s.
Proof. intros Hk; by eapply wps_act. Qed.

Lemma wps_write {A} fd n (k : unit -> cprog A) Q W Y s :
  fds s !! fd = Some n -> (n + 1 <= 2 ^ 64 - 2)%Z ->
  WPS (k tt) Q W Y (with_fds (<[fd := (n + 1)%Z]>) s) ->
  WPS (bind (eventfd_write_one fd) k) Q W Y s.
Proof.
  intros Hf Hn Hk; eapply wps_act; [|exact Hk].
  rewrite Hf. by rewrite bool_decide_eq_true_2 by done.
Qed.

Lemma wps_close {A} fd (k : unit -> cprog A) Q W Y s :
  WPS (k tt) Q W Y (with_fds (delete fd) s) -> WPS (bind (close fd) k) Q W Y s.
Proof. intros Hk; by eapply wps_act. Qed.

(** A call made for its effect. *)
Lemma wps_call_bind {A} c (k : unit -> cprog A) Q W Y s :
  WPS (tbl c) (fun _ s' => WPS (k tt) Q W Y s')
      (fun p' s' => W (bind p' (fun _ => k tt)) s') (fun p' s' => Y (bind p' (fun _ => k tt)) s')
      (log c s) ->
  WPS (bind (call c) k) Q W Y s.
Proof. apply wps_call. Qed.

Lemma wp_call_bind {A} c (k : unit -> cprog A) (R : ptr -> st -> Prop) Q W Y s :
  WP (tbl c) R (log c s) ->
  (forall r s', R r s' -> WPS (k tt) Q W Y s') ->
  WPS (bind (call c) k) Q W Y s.
Proof. intros Hc Hk; eapply wps_call_seq; [exact Hc|]; simpl; eauto. Qed.
End Rules.

Arguments bind : simpl never.
Arguments rd : simpl never.
Arguments rmw : simpl never.
Arguments wr : simpl never.
Arguments alloc : simpl never.
Arguments free : simpl never.
Arguments call : simpl never.
Arguments eventfd : simpl never.
Arguments eventfd_write_one : simpl never.
Arguments eventfd_read : simpl never.
Arguments close : simpl never.
Arguments pthread_mutex_lock : simpl never.
Arguments pthread_mutex_unlock : simpl never.
Arguments pthread_mutex_destroy : simpl never.
Arguments pthread_self : simpl never.
Arguments tls_get : simpl never.
Arguments tls_set : simpl never.
Arguments abort : simpl never.
Arguments Z.add : simpl never.
Arguments Z.sub : simpl never.
Arguments N.add : simpl never.
Arguments Z.of_nat : simpl never.
Arguments wrap_i32 : simpl never.

(** ** Tactics *)

(** Two addresses differ: their heap entries do, or arithmetic says so. *)
Ltac ne := first [done | congruence | lia | unfold NULL; lia].

(** Simplify a lookup in a symbolic heap. *)
Ltac lk :=
  simpl;
  repeat first
    [ rewrite lookup_insert_eq
    | rewrite lookup_insert_ne by ne
    | rewrite lookup_delete_ne by ne ];
  try eassumption; try reflexivity.

Ltac wp_step :=
  lazymatch goal with
  | |- wps _ _ (bind (bind _ _) _) _ _ _ _ => apply wps_assoc
  | |- wps _ _ (bind (Ret _) _) _ _ _ _ => unfold bind at 1; fold @bind
  | |- wps _ _ (bind (rd _ _) _) _ _ _ _ => eapply wps_rd; [solve [lk]|simpl]
  | |- wps _ _ (bind (wr _ _) _) _ _ _ _ => eapply wps_wr; [solve [lk]|simpl]
  | |- wps _ _ (bind (rmw _ _) _) _ _ _ _ => eapply wps_rmw; [solve [lk]|simpl]
  | |- wps _ _ (bind (xchg _ _ _ _) _) _ _ _ _ => eapply wps_rmw; [solve [lk]|simpl]
  | |- wps _ _ (bind (fetch_add_int _ _ _ _) _) _ _ _ _ => eapply wps_rmw; [solve [lk]|simpl]
  | |- wps _ _ (bind (fetch_sub_size _ _ _ _) _) _ _ _ _ => eapply wps_rmw; [solve [lk]|simpl]
  | |- wps _ _ (bind (free NULL) _) _ _ _ _ => apply wps_free_null; simpl
  | |- wps _ _ (bind (free _) _) _ _ _ _ => eapply wps_free; [solve [ne]|solve [lk]|simpl]
  | |- wps _ _ (bind (pthread_mutex_lock _) _) _ _ _ _ =>
      eapply wps_lock; [solve [lk]|simpl; done|simpl]
  | |- wps _ _ (bind (pthread_mutex_unlock _) _) _ _ _ _ =>
      eapply wps_unlock; [solve [lk]|simpl; done|simpl]
  | |- wps _ _ (bind (pthread_mutex_destroy _) _) _ _ _ _ =>
      eapply wps_mutex_destroy; [solve [lk]|simpl; done|simpl]
  | |- wps _ _ (bind (tls_get _) _) _ _ _ _ => apply wps_tls_get; simpl
  | |- wps _ _ (bind (tls_set _) _) _ _ _ _ => apply wps_tls_set; simpl
  | |- wps _ _ (bind pthread_self _) _ _ _ _ => apply wps_self; simpl
  | |- wps _ _ (bind (close _) _) _ _ _ _ => apply wps_close; simpl
  | |- wps _ _ (Ret _) _ _ _ _ => apply wps_ret
  | |- wp _ _ _ _ _ => unfold wp
  | |- wps _ _ (bind _ _) _ _ _ _ => fail "no rule for this program"
  | |- wps _ _ (match _ with _ => _ end) _ _ _ _ => progress simpl
  | |- wps _ _ _ _ _ _ _ => apply wps_tail
  end.

Ltac wp_steps := repeat wp_step.

(** Case analysis on whether [q] is one of the addresses written or freed. *)
Ltac heap_at q :=
  repeat match goal with
  | |- context [<[?p:=_]> _ !! q] => destruct (decide (q = p)) as [->|]; lk
  | |- context [delete ?p _ !! q] => destruct (decide (q = p)) as [->|]; [rewrite lookup_delete_eq|lk]
  end; try congruence.
