(* ===== verification/Links.v ===== *)
(** * Links: intrusive doubly linked lists

    The callbacks of a token and the unstarted coroutines of a thread are linked
    through fields of their own structs.  [seg] describes such a list in the heap,
    for any struct with two links; unlinking a node from the middle is the one
    operation both share. *)
From S2P Require Import Prelude Machine Uflib Model.

Section Links.
Context {E : Ext} {A : Type} (node : A -> ptr) (cell : A -> ptr -> ptr -> obj).
Implicit Types (h : gmap N obj) (L : list A).

(** [seg h prev cur L last nxt]: from [cur], reached from [prev], the nodes of [L]
    are linked in order; [last] is the final node and [nxt] its link. *)
Fixpoint seg h (prev cur : ptr) L (last nxt : ptr) : Prop :=
  match L with
  | [] => cur = nxt /\ prev = last
  | r :: L' => cur = node r /\ cur <> NULL /\
      exists next, h !! cur = Some (cell r prev next) /\ seg h cur next L' last nxt
  end.

Lemma seg_app h prev cur L1 L2 last nxt :
  seg h prev cur (L1 ++ L2) last nxt <-> exists m mn, seg h prev cur L1 m mn /\ seg h m mn L2 last nxt.
Proof.
  revert prev cur; induction L1 as [|r L1 IH]; intros prev cur; simpl.
  - split; [eauto|by intros (?&?&[-> ->]&?)].
  - split.
    + intros (-> & Hn & next & Hx & (m & mn & H1 & H2)%IH). eauto 10.
    + intros (m & mn & (-> & Hn & next & Hx & H1) & H2).
      split_and!; [done|done|]. exists next; split; [done|]. apply IH; eauto.
Qed.

(** Segments only depend on the nodes they contain. *)
Lemma seg_frame h h' prev cur L last nxt :
  (forall p, p ∈ node <$> L -> h' !! p = h !! p) -> seg h prev cur L last nxt -> seg h' prev cur L last nxt.
Proof.
  revert prev cur; induction L as [|r L IH]; intros prev cur Hf; simpl; [done|].
  intros (-> & Hn & next & Hx & Hs). split_and!; [done|done|].
  exists next. split; [rewrite Hf; [done|by left]|]. apply IH; [|done]. intros p Hp. apply Hf. by right.
Qed.

Lemma seg_live h prev cur L last nxt p :
  seg h prev cur L last nxt -> p ∈ node <$> L -> p <> NULL /\ exists r pv nx, r ∈ L /\ p = node r /\ h !! p = Some (cell r pv nx).
Proof.
  revert prev cur; induction L as [|r L IH]; intros prev cur; simpl; [by intros _ ?%elem_of_nil|].
  intros (-> & Hn & next & Hx & Hs) [->|Hp]%elem_of_cons; [split; [done|]; exists r, prev, next; split_and!; [by left|done..]|].
  destruct (IH _ _ Hs Hp) as (? & r' & pv & nx & ? & ? & ?). split; [done|]. exists r', pv, nx. split_and!; [by right|done..].
Qed.

(** Relinking the front and the back of a segment. *)
Lemma seg_set_prev h prev prev' cur r L last nxt next :
  seg h prev cur (r :: L) last nxt -> NoDup (node <$> r :: L) -> h !! cur = Some (cell r prev next) ->
  (forall p p' n n', cell r p n = cell r p' n' -> n = n') ->
  seg (<[cur := cell r prev' next]> h) prev' cur (r :: L) last nxt.
Proof.
  simpl; intros (-> & Hn & next' & Hx & Hs) Hnd Hc Hinj. rewrite Hc in Hx. injection Hx as Hx. apply Hinj in Hx as <-.
  apply NoDup_cons in Hnd as [Hr _].
  split_and!; [done|done|]. exists next. rewrite lookup_insert_eq. split; [done|].
  eapply seg_frame; [|exact Hs]. intros p Hp. rewrite lookup_insert_ne; [done|]. by intros <-.
Qed.

Lemma seg_set_next h prev cur L r last nxt nxt' :
  seg h prev cur (L ++ [r]) last nxt -> NoDup (node <$> L ++ [r]) ->
  exists pl, h !! last = Some (cell r pl nxt) /\ last = node r /\
    seg (<[last := cell r pl nxt']> h) prev cur (L ++ [r]) last nxt'.
Proof.
  intros (m & mn & H1 & H2)%seg_app Hnd. simpl in H2.
  destruct H2 as (-> & Hn & next & Hx & -> & <-). exists m. split_and!; [done|done|].
  apply seg_app. exists m, (node r).
  split; [|simpl; rewrite lookup_insert_eq; split_and!; [done|done|by eexists]].
  eapply seg_frame; [|exact H1]. intros p Hp. rewrite lookup_insert_ne; [done|].
  intros <-. rewrite fmap_app in Hnd. apply NoDup_app in Hnd as (_ & Hd & _). apply (Hd (node r)); [done|by left].
Qed.

(** Unlinking the node of [r] from the middle of a list: what its neighbours look
    like before, and the heap after the two link assignments. *)
Definition relink_prev h (prev next : ptr) (n : option (A * ptr)) : gmap N obj :=
  match n with Some (rn, nn) => <[next := cell rn prev nn]> h | None => h end.
Definition relink_next h (prev next : ptr) (n : option (A * ptr)) : gmap N obj :=
  match n with Some (rp, pp) => <[prev := cell rp pp next]> h | None => h end.

Lemma seg_unlink h head L1 r L2 last :
  (forall r p p' n n', cell r p n = cell r p' n' -> n = n') ->
  seg h NULL head (L1 ++ r :: L2) last NULL -> NoDup (node <$> L1 ++ r :: L2) ->
  exists prev next np nn last',
    h !! node r = Some (cell r prev next) /\ node r <> NULL /\
    match np with
    | None => prev = NULL /\ head = node r
    | Some (rp, pp) => prev <> NULL /\ prev ∈ node <$> L1 /\ h !! prev = Some (cell rp pp (node r))
    end /\
    match nn with
    | None => next = NULL
    | Some (rn, nx) => next <> NULL /\ next ∈ node <$> L2 /\ h !! next = Some (cell rn (node r) nx)
    end /\
    seg (relink_prev (relink_next h prev next np) prev next nn) NULL
      (match np with None => next | Some _ => head end) (L1 ++ L2) last' NULL.
Proof.
  intros Hinj (m & mn & H1 & -> & Hr0 & next & Hr & H2)%seg_app Hnd.
  rewrite fmap_app, fmap_cons in Hnd. apply NoDup_app in Hnd as (Hnd1 & Hdisj & [HrL2 Hnd2]%NoDup_cons).
  assert (Hd : forall p, p ∈ node <$> L1 -> p ∉ node <$> L2) by (intros p ? ?; by eapply (Hdisj p); [|right]).
  (* the back half, relinked to [m] *)
  assert (exists nn last', match nn with
      | None => next = NULL
      | Some (rn, nx) => next <> NULL /\ next ∈ node <$> L2 /\ h !! next = Some (cell rn (node r) nx)
      end /\ seg (relink_prev h m next nn) m next L2 last' NULL) as (nn & last' & Hnn & Hb).
  { destruct L2 as [|rn L2].
    - destruct H2 as [-> <-]. by exists None, m.
    - pose proof H2 as (-> & Hn0 & nx & Hx & _). exists (Some (rn, nx)), last.
      split; [split_and!; [done|by left|done]|]. eapply seg_set_prev; [exact H2|exact Hnd2|exact Hx|apply Hinj]. }
  destruct L1 as [|r1 L1 _] using rev_ind.
  - destruct H1 as [-> <-]. exists NULL, next, None, nn, last'. by split_and!.
  - destruct (seg_set_next _ _ _ _ _ _ _ next H1 Hnd1) as (pl & Hm & -> & Hs).
    assert (Hin : node r1 ∈ node <$> L1 ++ [r1]) by (rewrite fmap_app, elem_of_app; right; by left).
    destruct (seg_live _ _ _ _ _ _ _ H1 Hin) as [Hm0 _].
    exists (node r1), next, (Some (r1, pl)), nn, last'. split_and!; try done.
    apply seg_app. exists (node r1), next. split.
    + eapply seg_frame; [|exact Hs]. intros p Hp.
      unfold relink_prev, relink_next. destruct nn as [[rn nx]|]; [|done].
      rewrite lookup_insert_ne; [done|]. intros <-. by eapply Hd; [|apply Hnn].
    + eapply seg_frame; [|exact Hb]. intros p Hp.
      assert (node r1 <> p) by (intros <-; by eapply Hd).
      unfold relink_prev, relink_next. destruct nn as [[rn nx]|].
      * destruct (decide (next = p)) as [->|]; [by rewrite !lookup_insert_eq|].
        by rewrite !lookup_insert_ne.
      * by rewrite lookup_insert_ne.
Qed.
End Links.
