(* ===== verification/CancellationFacts.v ===== *)
(** * CancellationFacts: correctness of the cancellation token

    The intrusive list of a token is described by a doubly-linked segment
    predicate; [token_rep] is the token's representation invariant.  The
    operations are specified against it, for every code table. *)
From S2P Require Import Prelude Machine Uflib Model Cancellation Dispatch Logic Links.

(** One registration as its owner sees it. *)
Record registration := Reg {
  reg_node : ptr;
  reg_fn : cancel_cb;
  reg_context : ptr;
  reg_release : option cancel_cb;
}.
Definition reg_call (r : registration) : code := K_cancel_cb (reg_fn r) (reg_context r).

(** A history grown by the calls [cs], in this order, each followed by what its
    callee called in turn, which satisfies [T]. *)
Definition in_order (cs : list code) (trs : list (list code)) : list code :=
  concat (zip_with cons cs trs).
Definition made (T : list code -> Prop) (cs l l' : list code) : Prop :=
  exists trs, length trs = length cs /\ Forall T trs /\ l' = l ++ in_order cs trs.

Lemma made_nil T l : made T [] l l.
Proof. exists []. split_and!; [done|constructor|]. by rewrite app_nil_r. Qed.
Lemma made_cons T c cs l tr l' :
  T tr -> made T cs ((l ++ [c]) ++ tr) l' -> made T (c :: cs) l l'.
Proof.
  intros Htr (trs & Hlen & HT & ->). exists (tr :: trs).
  split_and!; [simpl; lia|by constructor|]. unfold in_order; simpl. by rewrite <- !app_assoc.
Qed.
Lemma made_app T cs cs' l l' l'' : made T cs l l' -> made T cs' l' l'' -> made T (cs ++ cs') l l''.
Proof.
  revert l; induction cs as [|c cs IH]; intros l (trs & Hlen & HT & ->) H2.
  - destruct trs; [|done]. unfold in_order in H2; simpl in H2. by rewrite app_nil_r in H2.
  - destruct trs as [|tr trs]; [done|]. apply Forall_cons in HT as [Htr HT].
    simpl. eapply made_cons; [done|]. apply IH; [|done].
    exists trs. split_and!; [simpl in Hlen; lia|done|]. unfold in_order; simpl. by rewrite <- !app_assoc.
Qed.
Lemma made_silent cs l l' : made (eq []) cs l l' -> l' = l ++ cs.
Proof.
  intros (trs & Hlen & HT & ->). f_equal. unfold in_order.
  revert trs Hlen HT; induction cs as [|c cs IH]; intros [|tr trs] Hlen HT; simplify_eq/=; [done|].
  apply Forall_cons in HT as [<- HT]. simpl. f_equal. by apply IH.
Qed.

(** Clients that mind their own business: the call terminates, leaves the
    addresses in [D] as they were, and calls only what [T] allows. *)
Definition polite `{E : Ext} (tbl : code -> cprog ptr) (D : ptr -> Prop) (T : list code -> Prop)
    (c : code) : Prop :=
  forall s, wp tbl log (tbl c)
    (fun _ s' => (forall p, D p -> heap s' !! p = heap s !! p) /\
                 exists tr, T tr /\ trace s' = trace s ++ tr) s.

(** [off X s s']: from [s] to [s'] only the cells of [X] and the history changed,
    and nothing was allocated.  [steady X P]: [P] does not notice such a change. *)
Record off `{E : Ext} (X : list ptr) (s s' : st) : Prop := {
  off_heap p : p ∉ X -> heap s' !! p = heap s !! p;
  off_none p : heap s !! p = None -> heap s' !! p = None;
  off_env : same_env s s';
  off_next : next_ptr s' = next_ptr s;
  off_oracle : oracle s' = oracle s;
}.
Definition steady `{E : Ext} (X : list ptr) (P : st -> Prop) : Prop :=
  forall s s', off X s s' -> P s -> P s'.

Lemma off_intro `{E : Ext} X s s' :
  (forall p, p ∈ X -> is_Some (heap s !! p)) -> (forall p, p ∉ X -> heap s' !! p = heap s !! p) ->
  same_env s s' -> next_ptr s' = next_ptr s -> oracle s' = oracle s -> off X s s'.
Proof.
  intros HX Hf ???. split; try done. intros p Hp. destruct (decide (p ∈ X)) as [Hin|Hn].
  - apply HX in Hin as [o Ho]. congruence.
  - by rewrite Hf.
Qed.
Lemma off_weaken `{E : Ext} X Y s s' : (forall p, p ∈ X -> p ∈ Y) -> off X s s' -> off Y s s'.
Proof. intros Hs []. split; try done. intros p Hp. apply off_heap0. by intros ?%Hs. Qed.

(** The [release_context] hook of a registration: its call, its politeness, and
    what it does to the rest of the machine. *)
Definition release_calls (r : registration) : list code :=
  match reg_release r with None => [] | Some fn => [K_cancel_cb fn (reg_context r)] end.
Definition hook_polite `{E : Ext} (tbl : code -> cprog ptr) (D : ptr -> Prop)
    (T : list code -> Prop) (r : registration) : Prop :=
  forall c, c ∈ release_calls r -> polite tbl D T c.
Definition hook_does `{E : Ext} (tbl : code -> cprog ptr) (D : ptr -> Prop)
    (T : list code -> Prop) (P P' : st -> Prop) (r : registration) : Prop :=
  match reg_release r with
  | None => forall s, P s -> P' s
  | Some fn => forall s, P s -> wp tbl log (tbl (K_cancel_cb fn (reg_context r)))
      (fun _ s' => (forall p, D p -> heap s' !! p = heap s !! p) /\
                   (exists tr, T tr /\ trace s' = trace s ++ tr) /\ P' s') s
  end.
Lemma polite_does `{E : Ext} tbl D T r :
  hook_polite tbl D T r -> hook_does tbl D T (fun _ => True) (fun _ => True) r.
Proof.
  unfold hook_polite, hook_does, release_calls. intros Hp. destruct (reg_release r) as [fn|]; [|done].
  intros s _. eapply wp_mono; [apply Hp; by left|]. naive_solver.
Qed.

Section Representation.
Context {E : Ext}.
Implicit Types (h : gmap N obj) (L : list registration).

(** The node of [r], linked into the list of token [t]. *)
Definition linked_node (r : registration) (t prev next : ptr) : obj :=
  OCallback (MkCallback prev next t 2 true false (reg_fn r) (reg_context r) (reg_release r)).
(** The node of [r] after [Cancel] dispatched it: the handle's reference is left. *)
Definition dispatched_node (r : registration) (t : ptr) : obj :=
  OCallback (MkCallback NULL NULL t 1 false true (reg_fn r) (reg_context r) (reg_release r)).

Lemma linked_inj t r p p' n n' : linked_node r t p n = linked_node r t p' n' -> n = n'.
Proof. by intros [= _ ->]. Qed.
(** The list of the token [t]. *)
#[local] Abbreviation cb_seg h t := (seg reg_node (fun r => linked_node r t) h).

Definition nodes L : list ptr := reg_node <$> L.

(** The token's invariant: unlocked, its list well linked, at least one reference
    per linked node (each registration retains the token), and no node linked
    once cancelled. *)
Definition token_rep h (t : ptr) (rc : Z) (cancelled : bool) L : Prop :=
  exists head last,
    t <> NULL /\
    h !! t = Some (OToken (MkToken rc false cancelled head)) /\
    cb_seg h t NULL head L last NULL /\
    NoDup (nodes L) /\
    (Z.of_nat (length L) <= rc)%Z /\
    (cancelled = true -> L = []).

(** Removing one registration from a duplicate-free list. *)
Lemma nodes_remove L1 r L2 :
  NoDup (nodes (L1 ++ r :: L2)) ->
  NoDup (nodes (L1 ++ L2)) /\
  (forall p, p ∈ nodes (L1 ++ L2) -> p ∈ nodes (L1 ++ r :: L2) /\ p <> reg_node r) /\
  (forall p, p ∈ nodes L1 -> p ∉ nodes L2) /\
  (forall p, p ∉ nodes (L1 ++ r :: L2) -> p <> reg_node r /\ p ∉ nodes L1 /\ p ∉ nodes L2).
Proof.
  unfold nodes. rewrite !fmap_app, fmap_cons. intros (H1 & Hd & [Hr H2]%NoDup_cons)%NoDup_app.
  assert (Hd' : forall p, p ∈ reg_node <$> L1 -> p ∉ reg_node <$> L2)
    by (intros p Hp ?; by apply (Hd p Hp); right).
  split_and!; [by apply NoDup_app| |done|intros p; set_solver].
  intros p Hp. split; [set_solver|]. intros ->.
  apply elem_of_app in Hp as [Hp|Hp]; [by apply (Hd _ Hp); left|done].
Qed.

Lemma cb_seg_frame h h' t prev cur L last nxt :
  (forall p, p ∈ nodes L -> h' !! p = h !! p) -> cb_seg h t prev cur L last nxt -> cb_seg h' t prev cur L last nxt.
Proof. apply seg_frame. Qed.

Lemma cb_seg_live h t prev cur L last nxt p :
  cb_seg h t prev cur L last nxt -> p ∈ nodes L -> p <> NULL /\ exists x, h !! p = Some (OCallback x).
Proof. intros Hs Hp. destruct (seg_live _ _ _ _ _ _ _ _ _ Hs Hp) as (? & ? & ? & ? & _ & _ & ?). unfold linked_node in *. eauto. Qed.

Lemma token_rep_frame h h' t rc c L :
  (forall p, p ∈ t :: nodes L -> h' !! p = h !! p) ->
  token_rep h t rc c L -> token_rep h' t rc c L.
Proof.
  intros Hf (head & last & Ht0 & Ht & Hseg & Hrest). exists head, last.
  split_and!; [done|rewrite Hf; [done|set_solver]| |apply Hrest..].
  eapply cb_seg_frame; [|done]. set_solver.
Qed.

Lemma token_rep_node h t rc c L p :
  token_rep h t rc c L -> p ∈ nodes L ->
  p <> NULL /\ p <> t /\ exists x, h !! p = Some (OCallback x).
Proof.
  intros (head & last & Ht0 & Ht & Hseg & _) Hp.
  destruct (cb_seg_live _ _ _ _ _ _ _ _ Hseg Hp) as [? [x Hx]]. naive_solver congruence.
Qed.

(** The detached chain [Cancel] dispatches, once its nodes are marked. *)
Definition marked_node (r : registration) (t next : ptr) : obj :=
  OCallback (MkCallback NULL next t 2 false true (reg_fn r) (reg_context r) (reg_release r)).
Fixpoint marked_seg h (t cur : ptr) L : Prop :=
  match L with
  | [] => cur = NULL
  | r :: L' => cur = reg_node r /\ cur <> NULL /\
      exists next, h !! cur = Some (marked_node r t next) /\ marked_seg h t next L'
  end.

Lemma marked_seg_frame h h' t cur L :
  (forall p, p ∈ nodes L -> h' !! p = h !! p) -> marked_seg h t cur L -> marked_seg h' t cur L.
Proof.
  revert cur; induction L as [|r L IH]; intros cur Hf; simpl; [done|].
  intros (-> & Hn & next & Hx & Hs). split_and!; [done|done|].
  exists next. split; [rewrite Hf; [done|set_solver]|]. apply IH; [set_solver|done].
Qed.

(** After a reference is dropped: gone with the last one. *)
Definition token_after h t rc c L : Prop :=
  if bool_decide (rc = 0)%Z then h !! t = None else token_rep h t rc c L.
End Representation.

(** The loops of the cancellation code, as the code table links them. *)
Class CancelLinked `{E : Ext} (tbl : code -> cprog ptr) : Prop := {
  linked_reclaim n : tbl (L_token_reclaim n) = sTokenRelease_loop n;
  linked_mark n : tbl (L_cancel_mark n) = Cancel_mark_loop n;
  linked_run n : tbl (L_cancel_run n) = Cancel_run_loop n;
}.

#[export] Instance body_linked `{E : Ext} client : CancelLinked (body client).
Proof. by split. Qed.

(** ** Operations *)
Section Specs.
Context {E : Ext} (tbl : code -> cprog ptr) {CL : CancelLinked tbl}.
#[local] Abbreviation cb_seg h t := (seg reg_node (fun r => linked_node r t) h).
#[local] Abbreviation WP := (wp tbl log).

(** The entry points of a callback list are not the token itself. *)
Lemma seg_not_token h t prev cur L last nxt x p :
  cb_seg h t prev cur L last nxt -> h !! t = Some (OToken x) -> p ∈ nodes L -> p <> t.
Proof. intros Hs Ht Hp ->. eapply cb_seg_live in Hs as [_ [y Hy]]; [|done]. congruence. Qed.

Lemma RegisterEx_spec t rc L fn ctx rel s :
  wf_alloc s -> token_rep (heap s) t rc false L -> int_range (rc + 1) ->
  WP (UfsrvCancellationTokenRegisterEx t (Some fn) ctx rel)
    (fun cb s' =>
       trace s' = trace s /\ same_env s s' /\
       ((cb = NULL /\ heap s' = heap s /\ oracle s <> []) \/
        (cb <> NULL /\ heap s !! cb = None /\
         token_rep (heap s') t (rc + 1) false (Reg cb fn ctx rel :: L) /\
         forall p, p ∉ t :: cb :: nodes L -> heap s' !! p = heap s !! p))) s.
Proof.
  intros [Hpos Hwf] (head & last & Ht0 & Ht & Hseg & Hnd & Hlen & _) Hrc.
  unfold UfsrvCancellationTokenRegisterEx. rewrite (is_null_false t) by done.
  unfold wp. apply wps_alloc_or_oom; [by split| |]; intros o Hor.
  { change (is_null NULL) with true. wp_steps. simpl; split_and!; [done|done|auto]. }
  assert (Hnew : heap s !! next_ptr s = None) by (apply Hwf; lia).
  assert (Hn0 : next_ptr s <> NULL) by (unfold NULL; lia).
  rewrite (is_null_false (next_ptr s)) by done.
  unfold UfsrvCancellationTokenRetainInternal. rewrite (is_null_false t) by done.
  wp_steps.
  set (n := next_ptr s) in *. clearbody n. rewrite wrap_i32_id by done.
  destruct L as [|r L]; simpl in Hseg.
  - destruct Hseg as [-> <-]. change (is_null NULL) with true. simpl; wp_steps.
    simpl; split; [done|]. split; [done|]. right. split_and!; [done|done| |].
    + exists n, n. split_and!; try done;
        [lk|simpl; split_and!; [done|done|]|constructor; set_solver|simpl in *; lia].
      exists NULL; split; [lk|done].
    + intros p Hp. assert (p <> t /\ p <> n) as [] by set_solver. lk.
  - destruct Hseg as (-> & Hh0 & next & Hx & Hseg). rewrite (is_null_false (reg_node r)) by done.
    simpl. unfold linked_node in Hx. assert (Hnt : reg_node r <> t) by congruence. wp_steps.
    simpl; split; [done|]. split; [done|]. right. split_and!; [done|done| |].
    + apply NoDup_cons in Hnd as [Hr Hnd].
      exists n, last. split_and!; try done; [lk| | |simpl in *; lia].
      * split_and!; [done|done|]. exists (reg_node r). split; [lk|].
        split_and!; [done|done|]. exists next. split; [lk|].
        eapply cb_seg_frame; [|exact Hseg]. intros p Hp.
        assert (p <> t) by by eapply seg_not_token.
        assert (p <> reg_node r) by (by intros ->).
        destruct (cb_seg_live _ _ _ _ _ _ _ _ Hseg Hp) as [_ [y Hy]]. lk.
      * apply NoDup_cons; split; [|by apply NoDup_cons].
        apply not_elem_of_cons; simpl; split; [ne|]. intros Hp.
        destruct (cb_seg_live _ _ _ _ _ _ _ _ Hseg Hp) as [_ [y Hy]]; congruence.
    + intros p Hp. unfold nodes in Hp; simpl in Hp.
      assert (p <> t /\ p <> n /\ p <> reg_node r) as (? & ? & ?) by set_solver. lk.
Qed.

(** [sTokenRelease] drops one reference; the last one frees the token, and the
    reclaim loop then finds the list empty. *)
Lemma sTokenRelease_spec t rc c L s :
  token_rep (heap s) t rc c L -> (Z.of_nat (length L) < rc)%Z -> int_range rc ->
  WP (sTokenRelease t)
    (fun _ s' => token_after (heap s') t (rc - 1) c L /\ trace s' = trace s /\ off [t] s s') s.
Proof.
  intros (head & last & Ht0 & Ht & Hseg & Hnd & Hlen & Hc) Hlt Hrc.
  assert (Hoff : forall s', (forall p, p <> t -> heap s' !! p = heap s !! p) -> same_env s s' ->
    next_ptr s' = next_ptr s -> oracle s' = oracle s -> off [t] s s').
  { intros s' Hf ???. apply off_intro; try done.
    - intros p ->%list_elem_of_singleton. eauto.
    - intros p Hp. apply Hf. intros ->. apply Hp. by left. }
  unfold sTokenRelease, token_after. wp_steps. rewrite wrap_i32_id by (unfold int_range in *; lia).
  destruct (decide (rc = 1%Z)) as [->|Hne].
  - rewrite bool_decide_eq_true_2 by done.
    assert (L = []) as -> by (destruct L; [done|simpl in Hlt; lia]).
    destruct Hseg as [-> <-]. simpl. wp_steps.
    apply wps_call_bind. rewrite linked_reclaim. unfold sTokenRelease_loop.
    change (is_null NULL) with true. apply wps_ret. unfold log; simpl. wp_steps. simpl.
    split_and!; [by rewrite lookup_delete_eq|done|].
    apply Hoff; try done. intros p Hp. lk.
  - rewrite bool_decide_eq_false_2 by done. simpl; wp_steps. simpl.
    rewrite bool_decide_eq_false_2 by lia. split_and!; [|done|apply Hoff; try done; intros p Hp; lk].
    exists head, last. split_and!; try done; [lk| |lia].
    eapply cb_seg_frame; [|exact Hseg]. intros p Hp. rewrite lookup_insert_ne; [done|].
    apply not_eq_sym. by eapply seg_not_token.
Qed.

Lemma call_hook {A} X D T P P' r (k : unit -> cprog A) Q W Y s :
  hook_does tbl D T P P' r -> steady X P -> P s ->
  (forall s', (forall p, D p -> heap s' !! p = heap s !! p) ->
     made T (release_calls r) (trace s) (trace s') -> P' s' -> wps tbl log (k tt) Q W Y s') ->
  wps tbl log (bind (call_opt (reg_release r) (fun fn => K_cancel_cb fn (reg_context r))) k) Q W Y s.
Proof.
  unfold hook_does, release_calls, call_opt. intros Hp HP Hs Hk. destruct (reg_release r) as [fn|].
  - eapply wp_call_bind; [apply Hp; eapply HP; [|exact Hs]; by repeat split|].
    simpl; intros _ s' (Hh & (tr & HT & Htr) & HP'). apply Hk; [done| |done].
    eapply made_cons; [done|]. rewrite Htr. apply made_nil.
  - wp_step. apply Hk; [done|apply made_nil|by apply Hp].
Qed.

(** Freeing a node whose last reference is gone: the hook runs once, and the
    node's token reference is dropped. *)
Lemma sNodeFree_spec r t rc c L D T P P' x s :
  heap s !! reg_node r = Some (OCallback x) ->
  reg_node r <> NULL -> reg_node r ∉ t :: nodes L ->
  cb_token x = t -> cb_release_context x = reg_release r -> cb_context x = reg_context r ->
  token_rep (heap s) t rc c L -> (Z.of_nat (length L) < rc)%Z -> int_range rc ->
  (forall p, p ∈ t :: reg_node r :: nodes L -> D p) ->
  hook_does tbl D T P P' r -> steady [t; reg_node r] P -> steady [t; reg_node r] P' -> P s ->
  WP (sNodeFree (reg_node r))
    (fun _ s' => heap s' !! reg_node r = None /\ token_after (heap s') t (rc - 1) c L /\
       made T (release_calls r) (trace s) (trace s') /\ P' s' /\
       forall p, D p -> p <> t -> p <> reg_node r -> heap s' !! p = heap s !! p) s.
Proof.
  intros Hx Hn0 Hnin Htok Hrel Hctx Hrep Hlt Hrc HD Hhook HP HP' Hs.
  unfold sNodeFree. wp_steps. rewrite Htok, Hrel, Hctx.
  eapply call_hook; [done|exact HP| |].
  { eapply HP; [|exact Hs]. apply (off_weaken [reg_node r]); [set_solver|].
    apply off_intro; try done; [intros p ->%list_elem_of_singleton; eauto|].
    intros p Hp. apply lookup_delete_ne. intros <-. apply Hp. by left. }
  intros s1 Hs1 Htr Hp1. simpl in Hs1, Htr.
  eapply wps_mono; [apply (sTokenRelease_spec t rc c L); [|done..]| |done..].
  - eapply token_rep_frame; [|exact Hrep]. intros p Hp.
    rewrite Hs1 by (apply HD; set_solver). apply lookup_delete_ne. set_solver.
  - simpl. intros _ s2 (Haft & Htr2 & Hs2). pose proof (off_heap _ _ _ Hs2) as Hh2. split_and!.
    + rewrite Hh2 by set_solver. rewrite Hs1 by (apply HD; set_solver). apply lookup_delete_eq.
    + done.
    + by rewrite Htr2.
    + eapply HP'; [|exact Hp1]. eapply off_weaken; [|exact Hs2]. set_solver.
    + intros p Hp Hpt Hpr. rewrite Hh2 by set_solver. rewrite Hs1 by done. by apply lookup_delete_ne.
Qed.

(** The end of [Unregister]: node [r] is unlinked and holds no reference. *)
Lemma Unregister_finish t rc c L1 r L2 D T P P' s h2 head last x s1 :
  cb_seg h2 t NULL head (L1 ++ L2) last NULL ->
  NoDup (nodes (L1 ++ r :: L2)) ->
  (Z.of_nat (length (L1 ++ r :: L2)) <= rc)%Z -> (c = true -> L1 ++ r :: L2 = []) ->
  int_range rc -> t <> NULL -> reg_node r <> NULL -> reg_node r <> t ->
  (forall p, p ∈ t :: nodes (L1 ++ r :: L2) -> D p) -> hook_does tbl D T P P' r ->
  steady (t :: nodes (L1 ++ r :: L2)) P -> steady (t :: nodes (L1 ++ r :: L2)) P' -> P s ->
  (forall p, p ∈ t :: nodes (L1 ++ r :: L2) -> is_Some (heap s !! p)) ->
  heap s1 !! t = Some (OToken (MkToken rc false c head)) ->
  heap s1 !! reg_node r = Some (OCallback x) ->
  cb_token x = t -> cb_release_context x = reg_release r -> cb_context x = reg_context r ->
  (forall p, p ∈ nodes (L1 ++ L2) -> heap s1 !! p = h2 !! p) ->
  (forall p, p ∉ t :: nodes (L1 ++ r :: L2) -> heap s1 !! p = heap s !! p) ->
  trace s1 = trace s -> same_env s s1 -> next_ptr s1 = next_ptr s -> oracle s1 = oracle s ->
  WP (let! _ := sNodeFree (reg_node r) in Ret true)%prog
    (fun won s' => won = true /\ heap s' !! reg_node r = None /\
       token_after (heap s') t (rc - 1) c (L1 ++ L2) /\
       made T (release_calls r) (trace s) (trace s') /\ P' s' /\
       forall p, D p -> p ∉ t :: nodes (L1 ++ r :: L2) -> heap s' !! p = heap s !! p) s1.
Proof.
  intros Hseg (Hnd & Hsub & _ & Hout)%nodes_remove Hlen Hc Hrc Ht0 Hr0 Hrt HD Hhook HP HP' Hs Hlive
    Ht1 Hx Htk Hrl Hct Hn1 Hfr Htr1 Henv Hnx Hor.
  assert (Hsub2 : forall p, p ∈ [t; reg_node r] -> p ∈ t :: nodes (L1 ++ r :: L2)).
  { unfold nodes; rewrite fmap_app; set_solver. }
  assert (Hoff : off (t :: nodes (L1 ++ r :: L2)) s s1) by by apply off_intro.
  rewrite length_app in Hlen. simpl in Hlen. eapply wps_seq.
  - eapply (sNodeFree_spec r t rc c (L1 ++ L2) D T P P'); try done.
    + apply not_elem_of_cons; split; [done|]. by intros [_ ?]%Hsub.
    + exists head, last. split_and!; [done|done| |done|rewrite length_app; lia|].
      * by eapply cb_seg_frame; [|exact Hseg].
      * intros Hct'. apply Hc in Hct'. by destruct L1.
    + rewrite length_app. lia.
    + intros p Hp. apply HD. apply elem_of_cons in Hp as [->|Hp]; [by left|].
      apply elem_of_cons in Hp as [->|Hp]; right; [|by apply Hsub].
      unfold nodes; rewrite fmap_app; set_solver.
    + intros u u' Hu. apply HP. by eapply off_weaken.
    + intros u u' Hu. apply HP'. by eapply off_weaken.
    + by eapply HP.
  - simpl. intros _ s2 (Hg & Haft & Htr & HP2 & Hf2). wp_steps. split_and!; [done|done|done| |done|].
    + by rewrite <- Htr1.
    + intros p Hp Hpn. rewrite <- Hfr by done. apply not_elem_of_cons in Hpn as [? Hpn].
      apply Hf2; [done|done|by apply Hout].
Qed.

Ltac lk_cases p a b :=
  first [ solve [lk]
        | destruct (decide (p = a)) as [->|];
          first [solve [lk] | destruct (decide (p = b)) as [->|]; solve [lk]]
        | destruct (decide (p = b)) as [->|]; solve [lk] ].
Ltac lk_off p a b :=
  first [ solve [lk]
        | assert (p <> a) by (by intros ->);
          first [solve [lk] | assert (p <> b) by (by intros ->); solve [lk]]
        | assert (p <> b) by (by intros ->); solve [lk] ].

Lemma Unregister_linked_does t rc c L1 r L2 D T P P' s :
  token_rep (heap s) t rc c (L1 ++ r :: L2) -> int_range rc ->
  (forall p, p ∈ t :: nodes (L1 ++ r :: L2) -> D p) -> hook_does tbl D T P P' r ->
  steady (t :: nodes (L1 ++ r :: L2)) P -> steady (t :: nodes (L1 ++ r :: L2)) P' -> P s ->
  WP (UfsrvCancellationTokenUnregister (reg_node r))
    (fun won s' => won = true /\ heap s' !! reg_node r = None /\
       token_after (heap s') t (rc - 1) c (L1 ++ L2) /\
       made T (release_calls r) (trace s) (trace s') /\ P' s' /\
       forall p, D p -> p ∉ t :: nodes (L1 ++ r :: L2) -> heap s' !! p = heap s !! p) s.
Proof.
  intros Hrep Hrc HD Hhook HP HP' Hs0. pose proof Hrep as (head & last & Ht0 & Ht & Hseg & Hnd & Hlen & Hc).
  assert (Hrt : reg_node r <> t).
  { apply (seg_not_token _ _ _ _ _ _ _ _ _ Hseg Ht). unfold nodes; rewrite fmap_app; set_solver. }
  destruct (seg_unlink _ _ _ _ _ _ _ _ (linked_inj t) Hseg Hnd)
    as (prev & next & np & nn & last' & Hr & Hr0 & Hnp & Hnn & Hseg').
  destruct (nodes_remove _ _ _ Hnd) as (_ & Hsub & Hdis & Hout).
  assert (Hnt : forall p, p ∈ nodes (L1 ++ L2) -> p <> t /\ p <> reg_node r).
  { intros p [Hp ?]%Hsub. split; [exact (seg_not_token _ _ _ _ _ _ _ _ _ Hseg Ht Hp)|done]. }
  assert (Hlive : forall p, p ∈ t :: nodes (L1 ++ r :: L2) -> is_Some (heap s !! p)).
  { intros p [->|Hp]%elem_of_cons; [eauto|].
    destruct (cb_seg_live _ _ _ _ _ _ _ _ Hseg Hp) as [_ [y Hy]]. eauto. }
  unfold UfsrvCancellationTokenUnregister. rewrite (is_null_false (reg_node r)) by done.
  unfold linked_node in *. wp_steps.
  destruct np as [[rp pp]|]; [destruct Hnp as (Hp0 & HpL & Hp)|destruct Hnp as [-> ->]];
  (destruct nn as [[rn nx]|]; [destruct Hnn as (Hnx0 & HnL & Hnx)|subst next]);
  [assert (prev <> next) by (intros <-; by eapply Hdis)| | |];
  rewrite ?(is_null_false prev), ?(is_null_false next) by done;
  try change (is_null NULL) with true; simpl; wp_steps; simpl; wp_steps;
  (eapply (Unregister_finish _ _ _ _ _ _ _ _ _ _ s);
     [exact Hseg'|try done..]; [lk|lk|reflexivity..| |]);
  intros p Hin; simpl; unfold relink_prev, relink_next, linked_node.
  all: try solve [destruct (Hnt p Hin); lk_cases p prev next].
  all: apply not_elem_of_cons in Hin as [? (? & ? & ?)%Hout]; lk_off p prev next.
Qed.

Lemma Unregister_linked_spec t rc c L1 r L2 D T s :
  token_rep (heap s) t rc c (L1 ++ r :: L2) -> int_range rc ->
  (forall p, p ∈ t :: nodes (L1 ++ r :: L2) -> D p) -> hook_polite tbl D T r ->
  WP (UfsrvCancellationTokenUnregister (reg_node r))
    (fun won s' => won = true /\ heap s' !! reg_node r = None /\
       token_after (heap s') t (rc - 1) c (L1 ++ L2) /\
       made T (release_calls r) (trace s) (trace s') /\
       forall p, D p -> p ∉ t :: nodes (L1 ++ r :: L2) -> heap s' !! p = heap s !! p) s.
Proof.
  intros Hrep Hrc HD Hh%polite_does.
  eapply wp_mono; [by eapply (Unregister_linked_does _ _ _ _ _ _ _ _ _ _ _ Hrep Hrc HD Hh)|].
  simpl. intros won s' (? & ? & ? & ? & _ & ?). done.
Qed.

Lemma mark_loop_spec t L cur prev last s :
  cb_seg (heap s) t prev cur L last NULL -> NoDup (nodes L) ->
  WP (Cancel_mark_loop cur)
    (fun _ s' => marked_seg (heap s') t cur L /\ trace s' = trace s /\ same_env s s' /\
       next_ptr s' = next_ptr s /\ oracle s' = oracle s /\
       forall p, p ∉ nodes L -> heap s' !! p = heap s !! p) s.
Proof.
  revert cur prev s; induction L as [|r L IH]; intros cur prev s; simpl; unfold Cancel_mark_loop.
  - intros [-> _] _. change (is_null NULL) with true. wp_steps. done.
  - intros (-> & Hn & next & Hx & Hs) [Hr Hnd]%NoDup_cons. rewrite (is_null_false (reg_node r)) by done.
    unfold linked_node in Hx. wp_steps. eapply wp_call_bind.
    + rewrite linked_mark. eapply (IH next); [|done]. eapply cb_seg_frame; [|exact Hs].
      intros p Hp. unfold log; simpl. rewrite lookup_insert_ne; [done|]. by intros <-.
    + simpl. intros _ s' (Hm & Htr & He & Hnx & Ho & Hf). unfold log in *; simpl in *. wp_steps.
      split_and!; [done|done| |done|by destruct He|done|done|].
      * exists next. rewrite Hf by done. by rewrite lookup_insert_eq.
      * intros p Hp. apply not_elem_of_cons in Hp as [? ?]. rewrite Hf by done. lk.
Qed.

(** Dispatching [L1] with effects, [L2] to follow: [I L] holds while the callbacks of
    [L] are still to be called, and does not notice changes to the cells of [X]. *)
Definition guided (D : ptr -> Prop) (T : list code -> Prop) (X : list ptr) (L1 L2 : list registration)
    (I : list registration -> st -> Prop) : Prop :=
  (forall L, steady X (I L)) /\
  forall r L s, suffix (r :: L) L1 -> I (r :: L ++ L2) s ->
    WP (tbl (reg_call r)) (fun _ s' => (forall p, D p -> heap s' !! p = heap s !! p) /\
      (exists tr, T tr /\ trace s' = trace s ++ tr) /\ I (L ++ L2) s') s.

Lemma polite_guided D T X L :
  (forall r, r ∈ L -> polite tbl D T (reg_call r)) -> guided D T X L [] (fun _ _ => True).
Proof.
  intros Hp. split; [done|]. intros r L' s [k ->] _. eapply wp_mono; [apply Hp; set_solver|]. naive_solver.
Qed.

(** The dispatch loop through a guided prefix [L1] of the chain, up to the rest. *)
Lemma run_loop_prefix t rc X L1 L2 D T I (R : st -> Prop) cur s :
  (forall p, p ∈ t :: nodes L1 -> p ∈ X) -> guided D T X L1 L2 I -> I (L1 ++ L2) s ->
  marked_seg (heap s) t cur (L1 ++ L2) -> NoDup (nodes (L1 ++ L2)) -> t ∉ nodes (L1 ++ L2) ->
  heap s !! t = Some (OToken (MkToken rc false true NULL)) ->
  (forall p, p ∈ t :: nodes (L1 ++ L2) -> D p) ->
  (forall cur' s', marked_seg (heap s') t cur' L2 ->
     heap s' !! t = Some (OToken (MkToken rc false true NULL)) ->
     (forall r, r ∈ L1 -> heap s' !! reg_node r = Some (dispatched_node r t)) ->
     (forall p, D p -> p ∉ nodes L1 -> heap s' !! p = heap s !! p) ->
     made T (reg_call <$> L1) (trace s) (trace s') -> I L2 s' ->
     WP (Cancel_run_loop cur') (fun _ => R) s') ->
  WP (Cancel_run_loop cur) (fun _ => R) s.
Proof.
  intros HX [Hst Hg]. revert cur s HX Hg; induction L1 as [|r L IH]; intros cur s HX Hg HI; simpl.
  { intros Hm _ _ Ht _ Hk. eapply Hk; try done; [by intros r ?%elem_of_nil|apply made_nil]. }
  intros (-> & Hn & next & Hx & Hs) [Hr Hnd]%NoDup_cons [Htr HtL]%not_elem_of_cons Ht HD Hk.
  assert (Hoff : forall s s', (forall p, p ∈ [t; reg_node r] -> is_Some (heap s !! p)) ->
    (forall p, p <> t -> p <> reg_node r -> heap s' !! p = heap s !! p) -> same_env s s' ->
    next_ptr s' = next_ptr s -> oracle s' = oracle s -> off X s s').
  { intros u u' ?????. apply (off_weaken [t; reg_node r]).
    - intros p Hp. apply HX. unfold nodes. set_solver.
    - apply off_intro; try done. set_solver. }
  unfold Cancel_run_loop. rewrite (is_null_false (reg_node r)) by done. unfold marked_node in Hx. wp_steps.
  eapply wp_call_bind.
  { apply (Hg r L); [done|]. eapply Hst; [|exact HI]. apply Hoff; try done. intros p. set_solver. }
  simpl. intros _ s1 (Hs1 & (tr1 & HT1 & Htr1) & HI1).
  assert (Hx1 : heap s1 !! reg_node r = Some (marked_node r t next))
    by (rewrite Hs1 by (apply HD; set_solver); done).
  assert (Ht1 : heap s1 !! t = Some (OToken (MkToken rc false true NULL)))
    by (rewrite Hs1 by (apply HD; set_solver); done).
  unfold marked_node in Hx1. unfold sNodeDropRef. wp_steps. simpl. wp_steps.
  eapply (wp_call_bind _ _ _ (fun _ => R)); [|intros; by apply wps_ret].
  rewrite linked_run. unfold log; simpl.
  apply (IH next); [| | | |done|done|lk|intros p Hp; apply HD; set_solver|].
  - intros p Hp. apply HX. unfold nodes. set_solver.
  - intros r' l s' Hsuf. apply Hg. by apply suffix_cons_r.
  - eapply Hst; [|exact HI1]. apply Hoff; try done; [set_solver|]. intros p ??. simpl. lk.
  - eapply marked_seg_frame; [|exact Hs]. intros p Hp. simpl.
    assert (p <> reg_node r /\ p <> t) as [] by (split; by intros ->).
    lk. apply Hs1, HD. set_solver.
  - simpl. intros cur' s2 Hm2 Ht2 Hd Hf Htr2 HI2. apply Hk; try done.
    + intros r' [->|Hr']%elem_of_cons; [|by apply Hd].
      rewrite Hf; [unfold dispatched_node; lk|apply HD; set_solver|].
      intros Hin. apply Hr. unfold nodes in *. rewrite fmap_app. set_solver.
    + intros p Hp [? ?]%not_elem_of_cons. rewrite Hf by done.
      destruct (decide (p = t)) as [->|]; lk; [by rewrite Ht|by apply Hs1].
    + eapply made_cons; [done|]. rewrite Htr1 in Htr2. exact Htr2.
Qed.

Lemma run_loop_does t rc X L D T I cur s :
  (forall p, p ∈ t :: nodes L -> p ∈ X) -> guided D T X L [] I -> I L s ->
  marked_seg (heap s) t cur L -> NoDup (nodes L) -> t ∉ nodes L ->
  heap s !! t = Some (OToken (MkToken rc false true NULL)) ->
  (forall p, p ∈ t :: nodes L -> D p) ->
  WP (Cancel_run_loop cur)
    (fun _ s' =>
       (forall r, r ∈ L -> heap s' !! reg_node r = Some (dispatched_node r t)) /\
       (forall p, D p -> p ∉ nodes L -> heap s' !! p = heap s !! p) /\
       made T (reg_call <$> L) (trace s) (trace s') /\ I [] s') s.
Proof.
  intros. eapply (run_loop_prefix t rc X L [] D T I); rewrite ?app_nil_r; try done.
  intros cur' s' -> _ ????. unfold Cancel_run_loop. change (is_null NULL) with true. by apply wps_ret.
Qed.

(** Up to the dispatch loop: the flag is set, the chain detached and marked. *)
Lemma Cancel_start t rc L (R : st -> Prop) s :
  token_rep (heap s) t rc false L ->
  (forall cur s1, marked_seg (heap s1) t cur L -> NoDup (nodes L) -> t ∉ nodes L ->
     heap s1 !! t = Some (OToken (MkToken rc false true NULL)) ->
     off (t :: nodes L) s s1 -> trace s1 = trace s -> WP (Cancel_run_loop cur) (fun _ => R) s1) ->
  WP (UfsrvCancellationTokenCancel t) (fun _ => R) s.
Proof.
  intros Hrep Hk. pose proof Hrep as (head & last & Ht0 & Ht & Hseg & Hnd & Hlen & _).
  assert (HtL : t ∉ nodes L) by (intros Hin; by apply (seg_not_token _ _ _ _ _ _ _ _ _ Hseg Ht Hin)).
  unfold UfsrvCancellationTokenCancel. rewrite (is_null_false t) by done. wp_steps. eapply wp_call_bind.
  { rewrite linked_mark. eapply (mark_loop_spec t L head NULL); [|done]. unfold log; simpl.
    eapply cb_seg_frame; [|exact Hseg]. intros p Hp.
    assert (p <> t) by (by intros ->). lk. }
  unfold log; simpl. intros _ s1 (Hm & Htr1 & He1 & Hn1 & Ho1 & Hf1).
  assert (Ht1 : heap s1 !! t = Some (OToken (MkToken rc true true NULL))) by (rewrite Hf1 by done; lk).
  wp_steps. apply wps_tail. eapply (wp_call_bind _ _ _ (fun _ => R)); [|intros; by apply wps_ret].
  rewrite linked_run. unfold log; simpl. apply Hk; try done; [|lk|].
  - eapply marked_seg_frame; [|exact Hm]. intros p Hp. assert (p <> t) by (by intros ->). lk.
  - apply off_intro; try done.
    + intros p [->|Hp]%elem_of_cons; [eauto|].
      destruct (cb_seg_live _ _ _ _ _ _ _ _ Hseg Hp) as [_ [y Hy]]. eauto.
    + intros p [? ?]%not_elem_of_cons. lk. rewrite Hf1 by done. lk.
    + by destruct He1.
Qed.

Lemma Cancel_does t rc L D T I s :
  token_rep (heap s) t rc false L -> (forall p, p ∈ t :: nodes L -> D p) ->
  guided D T (t :: nodes L) L [] I -> I L s ->
  WP (UfsrvCancellationTokenCancel t)
    (fun _ s' =>
       token_rep (heap s') t rc true [] /\
       (forall r, r ∈ L -> heap s' !! reg_node r = Some (dispatched_node r t)) /\
       (forall p, D p -> p ∉ t :: nodes L -> heap s' !! p = heap s !! p) /\
       made T (reg_call <$> L) (trace s) (trace s') /\ I [] s') s.
Proof.
  intros Hrep HD Hgd HI. pose proof Hrep as (head & last & Ht0 & _ & _ & _ & Hlen & _).
  eapply Cancel_start; [done|]. intros cur s1 Hm Hnd HtL Ht1 Hoff Htr1.
  eapply wp_mono; [eapply (run_loop_does t rc (t :: nodes L) L D T I cur); try done; by eapply Hgd|].
  simpl. intros _ s2 (Hd & Hf2 & Htr2 & HI2). split_and!; [|done| | |done].
  - exists NULL, NULL. split_and!; try done; [|constructor|simpl; lia].
    rewrite Hf2 by set_solver. done.
  - intros p Hp Hni. pose proof Hni as [? ?]%not_elem_of_cons. rewrite Hf2 by done. by apply Hoff.
  - by rewrite <- Htr1.
Qed.

Lemma Cancel_spec t rc L D T s :
  token_rep (heap s) t rc false L -> (forall p, p ∈ t :: nodes L -> D p) ->
  (forall r, r ∈ L -> polite tbl D T (reg_call r)) ->
  WP (UfsrvCancellationTokenCancel t)
    (fun _ s' =>
       token_rep (heap s') t rc true [] /\
       (forall r, r ∈ L -> heap s' !! reg_node r = Some (dispatched_node r t)) /\
       (forall p, D p -> p ∉ t :: nodes L -> heap s' !! p = heap s !! p) /\
       made T (reg_call <$> L) (trace s) (trace s')) s.
Proof.
  intros Hrep HD Hpol. eapply wp_mono; [by eapply (Cancel_does _ _ _ _ _ _ _ Hrep HD (polite_guided _ _ _ _ Hpol))|].
  simpl. intros _ s' (? & ? & ? & ? & _). done.
Qed.

(** Cancelling again changes nothing. *)
Lemma Cancel_again_spec t rc s :
  token_rep (heap s) t rc true [] ->
  WP (UfsrvCancellationTokenCancel t) (fun _ s' => heap s' = heap s /\ trace s' = trace s) s.
Proof.
  intros (head & last & Ht0 & Ht & [-> _] & _).
  unfold UfsrvCancellationTokenCancel. rewrite (is_null_false t) by done. wp_steps. simpl.
  split; [|done]. rewrite !insert_insert_eq. by apply insert_id.
Qed.

Lemma IsCancelled_spec t rc c L s :
  token_rep (heap s) t rc c L ->
  WP (UfsrvCancellationTokenIsCancelled t) (fun b s' => b = c /\ s' = s) s.
Proof.
  intros (head & last & Ht0 & Ht & _). unfold UfsrvCancellationTokenIsCancelled.
  rewrite (is_null_false t) by done. by wp_steps.
Qed.

(** Registering on a cancelled token runs the callback at once, on the caller, and
    yields a handle that holds the only reference to its node. *)
Lemma RegisterEx_cancelled_spec t rc fn ctx rel (D : ptr -> Prop) T s :
  wf_alloc s -> token_rep (heap s) t rc true [] -> int_range (rc + 1) ->
  (forall p, p = t \/ heap s !! p = None -> D p) -> polite tbl D T (K_cancel_cb fn ctx) ->
  WP (UfsrvCancellationTokenRegisterEx t (Some fn) ctx rel)
    (fun cb s' =>
       (cb = NULL /\ heap s' = heap s /\ trace s' = trace s) \/
       (cb <> NULL /\ heap s !! cb = None /\
        heap s' !! cb = Some (dispatched_node (Reg cb fn ctx rel) t) /\
        token_rep (heap s') t (rc + 1) true [] /\
        made T [K_cancel_cb fn ctx] (trace s) (trace s') /\
        forall p, D p -> p <> t -> p <> cb -> heap s' !! p = heap s !! p)) s.
Proof.
  intros [Hpos Hwf] (head & last & Ht0 & Ht & [-> _] & _ & Hlen & _) Hrc HD Hpol.
  unfold UfsrvCancellationTokenRegisterEx. rewrite (is_null_false t) by done.
  unfold wp. apply wps_alloc; [by split| |]; intros o.
  { change (is_null NULL) with true. wp_steps. by left. }
  assert (Hnew : heap s !! next_ptr s = None) by (apply Hwf; lia).
  assert (Hn0 : next_ptr s <> NULL) by (unfold NULL; lia).
  rewrite (is_null_false (next_ptr s)) by done.
  unfold UfsrvCancellationTokenRetainInternal. rewrite (is_null_false t) by done.
  wp_steps. set (n := next_ptr s) in *. clearbody n. rewrite wrap_i32_id by done. simpl.
  eapply wp_call_bind; [apply Hpol|]. simpl. intros _ s1 [Hh [tr [HT Htr]]]. wp_steps. right.
  split_and!; [done|done| | | |].
  - rewrite Hh by auto. lk.
  - exists NULL, NULL. split_and!; try done; [|constructor|].
    + rewrite Hh by auto. lk.
    + simpl in *. lia.
  - eapply made_cons; [done|]. rewrite Htr. apply made_nil.
  - intros p Hp ??. rewrite Hh by done. lk.
Qed.

(** Unregistering a dispatched callback releases its node and nothing else. *)
Lemma Unregister_dispatched_does t rc c L r D T P P' s :
  token_rep (heap s) t rc c L -> (Z.of_nat (length L) < rc)%Z -> int_range rc ->
  heap s !! reg_node r = Some (dispatched_node r t) -> reg_node r <> NULL ->
  reg_node r ∉ nodes L ->
  (forall p, p ∈ t :: reg_node r :: nodes L -> D p) ->
  hook_does tbl D T P P' r -> steady [t; reg_node r] P -> steady [t; reg_node r] P' -> P s ->
  WP (UfsrvCancellationTokenUnregister (reg_node r))
    (fun won s' => won = false /\ heap s' !! reg_node r = None /\
       token_after (heap s') t (rc - 1) c L /\
       made T (release_calls r) (trace s) (trace s') /\ P' s' /\
       forall p, D p -> p <> t -> p <> reg_node r -> heap s' !! p = heap s !! p) s.
Proof.
  intros Hrep Hlt Hrc Hr Hr0 HrL HD Hhook HP HP' Hs0. pose proof Hrep as (head & last & Ht0 & Ht & Hseg & _).
  unfold UfsrvCancellationTokenUnregister. rewrite (is_null_false (reg_node r)) by done.
  unfold dispatched_node in Hr. assert (Hrt : reg_node r <> t) by congruence. wp_steps. simpl. wp_steps.
  eapply wps_seq.
  - eapply (sNodeFree_spec r t rc c L D T P P'); try done; [lk|by apply not_elem_of_cons|reflexivity..| |].
    + eapply token_rep_frame; [|exact Hrep].
      intros p [->|Hp]%elem_of_cons; [lk; by rewrite Ht|]. assert (p <> reg_node r) by (by intros ->).
      destruct (cb_seg_live _ _ _ _ _ _ _ _ Hseg Hp) as [_ [y Hy]]. lk.
    + eapply HP; [|exact Hs0]. apply off_intro; try done.
      * intros p [->|[->|[]%elem_of_nil]%elem_of_cons]%elem_of_cons; eauto.
      * intros p [? [? _]%not_elem_of_cons]%not_elem_of_cons. lk.
  - simpl. intros _ s2 (Hg & Haft & Htr & HP2 & Hf). wp_steps. split_and!; [done..|].
    intros p Hp Hpt Hpr. rewrite Hf by done. lk.
Qed.
Lemma Unregister_dispatched_spec t rc c L r D T s :
  token_rep (heap s) t rc c L -> (Z.of_nat (length L) < rc)%Z -> int_range rc ->
  heap s !! reg_node r = Some (dispatched_node r t) -> reg_node r <> NULL ->
  reg_node r ∉ nodes L ->
  (forall p, p ∈ t :: reg_node r :: nodes L -> D p) -> hook_polite tbl D T r ->
  WP (UfsrvCancellationTokenUnregister (reg_node r))
    (fun won s' => won = false /\ heap s' !! reg_node r = None /\
       token_after (heap s') t (rc - 1) c L /\
       made T (release_calls r) (trace s) (trace s') /\
       forall p, D p -> p <> t -> p <> reg_node r -> heap s' !! p = heap s !! p) s.
Proof.
  intros Hrep Hlt Hrc Hr Hr0 HrL HD Hh%polite_does.
  eapply wp_mono; [by eapply (Unregister_dispatched_does _ _ _ _ _ _ _ _ _ _ Hrep Hlt Hrc Hr Hr0 HrL HD Hh)|].
  simpl. intros won s' (? & ? & ? & ? & _ & ?). done.
Qed.
End Specs.
