(* ===== verification/Guarantee.v ===== *)
(** * Guarantee: what no step of the library ever does

    [evolves] relates the machine before and after any atomic action of any
    function of the library: the allocator stays well formed, addresses are not
    recycled or retyped, and the one-shot flags (completed, consumed, ready,
    claimed, closed, failed) are never taken back.  It is proved action by
    action, so it holds for sequential runs and for every interleaving. *)
From S2P Require Import Prelude Machine Uflib Model Cancellation Scheduler Coroutine Future Waiting.
From S2P Require Import Operators Combinators Dispatch Logic.

(** The struct an address holds. *)
Definition kind `{E : Ext} (o : obj) : nat :=
  match o with
  | OFuture _ => 0 | OPromise _ => 1 | OContinuation _ => 2 | OWaiter _ => 3 | OStack _ => 4
  | OCallback _ => 5 | OToken _ => 6 | OMapContext _ => 7 | OFlatMapContext _ => 8
  | OOnErrorContext _ => 9 | ODoOnSuccessContext _ => 10 | OAllContext _ => 11
  | OAnyContext _ => 12 | OAnyRegistration _ => 13 | OZipContext _ => 14 | OJob _ => 15
  | OScheduler _ => 16 | OPool _ => 17 | OStart _ => 18 | OResumeContext _ => 19
  | OSpawnContext _ => 20 | OAco _ => 21 | OShareStack => 22 | OString _ => 23 | OArray _ => 24
  end.

Section Evolution.
Context {E : Ext} {TS : TreiberSpec E}.

Record fut_le (x y : UfsrvFuture) : Prop := {
  fl_completed : fut_is_completed x = true -> fut_is_completed y = true;
  fl_consumed : fut_is_consumed x = true -> fut_is_consumed y = true;
  fl_ready : fut_state x = READY -> fut_state y = READY;
}.
Record cb_le (x y : UfsrvCancellationCallback) : Prop := {
  cl_claimed : cb_claimed x = true -> cb_claimed y = true;
  cl_token : cb_token y = cb_token x;
  cl_fn : cb_fn y = cb_fn x;
  cl_context : cb_context y = cb_context x;
  cl_release : cb_release_context y = cb_release_context x;
}.
Record cont_le (x y : UfsrvContinuation) : Prop := {
  ctl_claimed : tn_claimed (cont_base x) = true -> tn_claimed (cont_base y) = true;
  ctl_fn : cont_fn y = cont_fn x;
  ctl_user : cont_user y = cont_user x;
}.

Definition obj_le (o o' : obj) : Prop :=
  kind o = kind o' /\
  match o, o' with
  | OFuture x, OFuture y => fut_le x y
  | OCallback x, OCallback y => cb_le x y
  | OContinuation x, OContinuation y => cont_le x y
  | OStack x, OStack y => ts_closed x = true -> ts_closed y = true
  | OAllContext x, OAllContext y =>
      all_out_promise y = all_out_promise x /\ (all_failed x = true -> all_failed y = true)
  | OAnyContext x, OAnyContext y =>
      any_out_promise y = any_out_promise x /\ (any_claimed x = true -> any_claimed y = true)
  | _, _ => True
  end.

#[export] Instance obj_le_preorder : PreOrder obj_le.
Proof.
  split.
  - intros []; repeat split; simpl; auto.
  - intros o1 o2 o3 [K1 H1] [K2 H2]. split; [congruence|].
    destruct o1, o2; try discriminate; destruct o3; try discriminate; auto.
    + destruct H1, H2; split; auto.
    + destruct H1, H2; split; auto; congruence.
    + destruct H1, H2; split; auto; congruence.
    + destruct H1, H2; split; auto; congruence.
    + destruct H1, H2; split; auto; congruence.
Qed.

(** The allocator, the descriptor table and the eventfd counters. *)
Record wf_machine (s : st) : Prop := {
  wm_alloc : wf_alloc s;
  wm_next_fd : (0 <= next_fd s)%Z;
  wm_fds_fresh fd : (next_fd s <= fd)%Z -> fds s !! fd = None;
  wm_fds fd n : fds s !! fd = Some n -> (0 <= n <= 2 ^ 64 - 2)%Z;
}.

Record evolution (s s' : st) : Prop := {
  ev_wf : wf_machine s';
  ev_next : (next_ptr s <= next_ptr s')%N;
  ev_next_fd : (next_fd s <= next_fd s')%Z;
  ev_heap p o' : (p < next_ptr s)%N -> heap s' !! p = Some o' ->
    exists o, heap s !! p = Some o /\ obj_le o o';
  ev_trace : trace s `prefix_of` trace s';
  ev_ndebug : ndebug s' = ndebug s;
  ev_oracle : oracle s = [] -> oracle s' = [];
}.
Definition evolves (s s' : st) : Prop := wf_machine s -> evolution s s'.

#[export] Instance evolves_preorder : PreOrder evolves.
Proof.
  split.
  - intros s Hs. split; try done; try lia. intros p o' _ Hp. exists o'. by split.
  - intros s1 s2 s3 H12 H23 Hs. destruct (H12 Hs) as [W1 N1 F1 L1 T1 D1 O1].
    destruct (H23 W1) as [W2 N2 F2 L2 T2 D2 O2]. split; try done; try lia; [|by etrans|congruence|auto].
    intros p o3 Hlt H3. destruct (L2 p o3) as (o2 & H2 & Hle2); [lia|done|].
    destruct (L1 p o2) as (o1 & H1 & Hle1); [done..|]. exists o1. split; [done|]. by etrans.
Qed.

Lemma evolves_log c s : evolves s (log c s).
Proof.
  unfold log. destruct (is_loop c); [reflexivity|]. intros [].
  split; try done; simpl; try lia; [|by apply prefix_app_r].
  intros p o' _ Hp. exists o'. by split.
Qed.

(** States that differ only in components [evolution] does not speak about. *)
Lemma evolves_pure s s' :
  heap s' = heap s -> next_ptr s' = next_ptr s -> fds s' = fds s -> next_fd s' = next_fd s ->
  trace s' = trace s -> ndebug s' = ndebug s -> (oracle s = [] -> oracle s' = []) -> evolves s s'.
Proof.
  intros Hh Hn Hf Hnf Ht Hd Ho [[W1 W2] W3 W4 W5]. split; rewrite ?Hn, ?Hnf, ?Ht, ?Hd; try done; try lia.
  - split; unfold wf_alloc; rewrite ?Hh, ?Hn, ?Hf, ?Hnf; auto.
  - rewrite Hh. intros p o' _ Hp. exists o'. by split.
Qed.

Lemma evolves_update s p o o' :
  heap s !! p = Some o -> obj_le o o' -> evolves s (with_heap (<[p := o']>) s).
Proof.
  intros Hp Hle [[W1 W2] W3 W4 W5]. split; try done; try (simpl; lia).
  - split; try done. split; [done|]. intros q Hq. simpl. rewrite lookup_insert_ne; [auto|].
    intros <-. rewrite W2 in Hp; [done|done].
  - simpl. intros q oq _ [[<- <-]|[Hne Hq]]%lookup_insert_Some; [by exists o|]. exists oq. by split.
Qed.

Lemma evolves_delete s p : evolves s (with_heap (delete p) s).
Proof.
  intros [[W1 W2] W3 W4 W5]. split; try done; try (simpl; lia).
  - split; try done. split; [done|]. intros q Hq. simpl. apply lookup_delete_None. auto.
  - simpl. intros q oq _ [_ Hq]%lookup_delete_Some. exists oq. by split.
Qed.

Lemma evolves_new s o :
  evolves s (with_next_ptr (next_ptr s + 1) (with_heap (<[next_ptr s := o]>) s)).
Proof.
  intros [[W1 W2] W3 W4 W5]. split; try done; try (simpl; lia).
  - split; try done. split; simpl; [lia|]. intros q Hq. rewrite lookup_insert_ne by lia. apply W2; lia.
  - simpl. intros q oq Hlt [[<- _]|[_ Hq]]%lookup_insert_Some; [lia|]. exists oq. by split.
Qed.

Lemma evolves_fds s fd n :
  fds s !! fd <> None -> (0 <= n <= 2 ^ 64 - 2)%Z -> evolves s (with_fds (<[fd := n]>) s).
Proof.
  intros Hfd Hn [W1 W3 W4 W5]. split; try done; try (simpl; lia).
  - split; try done; simpl.
    + intros fd' Hlt. rewrite lookup_insert_ne; [auto|]. intros <-. by apply Hfd, W4.
    + intros fd' n' [[<- <-]|[_ ?]]%lookup_insert_Some; eauto.
  - simpl. intros p o' _ Hp. exists o'. by split.
Qed.

Lemma evolves_close s fd : evolves s (with_fds (delete fd) s).
Proof.
  intros [W1 W3 W4 W5]. split; try done; try (simpl; lia).
  - split; try done; simpl; [intros; apply lookup_delete_None; auto|].
    intros fd' n' [_ ?]%lookup_delete_Some; eauto.
  - simpl. intros p o' _ Hp. exists o'. by split.
Qed.

Lemma evolves_oracle s : evolves s (take_oracle s).2.
Proof.
  unfold take_oracle. destruct (oracle s) eqn:Ho; [reflexivity|]. apply evolves_pure; try done. by rewrite Ho.
Qed.

(** ** The atomic actions *)
#[local] Abbreviation G := (guar evolves).

Ltac ok_act :=
  apply guar_act; [intros s b s'|intros; apply guar_ret].

Lemma g_rd {T B} `{!Cell T} (proj : T -> B) p : G (rd proj p).
Proof. ok_act. case_match; intros; simplify_eq; reflexivity. Qed.
Lemma g_rmw {T B} `{!Cell T} (g : T -> B * T) p :
  (forall x, obj_le (cell_inj x) (cell_inj (g x).2)) -> G (rmw g p).
Proof.
  intros Hg. ok_act. unfold lookup_cell. destruct (heap s !! p) as [o|] eqn:Ho; simpl; [|done].
  destruct (cell_prj o) as [x|] eqn:Hx; intros; simplify_eq.
  apply cell_inj_prj in Hx. subst o. by eapply evolves_update.
Qed.
Lemma g_wr {T} `{!Cell T} (u : T -> T) p :
  (forall x, obj_le (cell_inj x) (cell_inj (u x))) -> G (wr u p).
Proof. intros Hu. by apply g_rmw. Qed.
Lemma g_alloc {T} `{!Cell T} (x : T) : G (alloc x).
Proof.
  ok_act. destruct (take_oracle s) as [[] s1] eqn:Eo; intros; simplify_eq;
    pose proof (evolves_oracle s) as H1; rewrite Eo in H1; simpl in H1; [done|].
  etrans; [exact H1|apply evolves_new].
Qed.
Lemma g_free p : G (free p).
Proof. ok_act. repeat case_match; intros; simplify_eq; [reflexivity|apply evolves_delete]. Qed.
Lemma g_eventfd : G eventfd.
Proof.
  ok_act. destruct (take_oracle s) as [[] s1] eqn:Eo; intros; simplify_eq;
    pose proof (evolves_oracle s) as H1; rewrite Eo in H1; simpl in H1; [done|].
  etrans; [exact H1|]. intros [W1 W3 W4 W5]. split; try done; try (simpl; lia).
  - split; try done; try (simpl; lia); simpl.
    + intros fd' Hlt. rewrite lookup_insert_ne by lia. apply W4; lia.
    + intros fd' n' [[<- <-]|[_ ?]]%lookup_insert_Some; [lia|eauto].
  - simpl. intros p o' _ Hp. exists o'. by split.
Qed.
Lemma g_write fd : G (eventfd_write_one fd).
Proof.
  ok_act. destruct (fds s !! fd) as [n|] eqn:Ef; [|intros; simplify_eq; reflexivity].
  case_bool_decide; intros; simplify_eq. intros Hs.
  pose proof (wm_fds _ Hs _ _ Ef). apply evolves_fds; [by rewrite Ef|lia|done].
Qed.
Lemma g_read fd : G (eventfd_read fd).
Proof.
  ok_act. destruct (fds s !! fd) as [n|] eqn:Ef; [|intros; simplify_eq; reflexivity].
  pose proof (evolves_oracle s) as H1. destruct (take_oracle s) as [[] s1] eqn:Eo; simpl in H1; intros; simplify_eq; [done|].
  case_bool_decide; simplify_eq. etrans; [exact H1|]. apply evolves_fds; [|lia].
  unfold take_oracle in Eo. destruct (oracle s); simplify_eq; simpl; by rewrite Ef.
Qed.
Lemma g_close fd : G (close fd).
Proof. ok_act. intros; simplify_eq. apply evolves_close. Qed.
Lemma g_lock t : G (pthread_mutex_lock t).
Proof.
  ok_act. unfold lookup_cell. destruct (heap s !! t) as [[]|] eqn:Ho; try done; simpl.
  case_match; intros; simplify_eq. by eapply evolves_update.
Qed.
Lemma g_unlock t : G (pthread_mutex_unlock t).
Proof.
  ok_act. unfold lookup_cell. destruct (heap s !! t) as [[]|] eqn:Ho; try done; simpl.
  case_match; intros; simplify_eq. by eapply evolves_update.
Qed.
Lemma g_mutex_destroy t : G (pthread_mutex_destroy t).
Proof. ok_act. repeat case_match; intros; simplify_eq; reflexivity. Qed.
Lemma g_platform_ok : G platform_ok.
Proof.
  ok_act. pose proof (evolves_oracle s) as H1. destruct (take_oracle s); intros; by simplify_eq.
Qed.
Lemma g_pthread_create c : G (pthread_create c).
Proof.
  ok_act. pose proof (evolves_oracle s) as H1. destruct (take_oracle s) as [[] s1]; simpl in H1; intros; simplify_eq; [done|].
  etrans; [exact H1|]. by apply evolves_pure.
Qed.
Lemma g_pthread_join t : G (pthread_join t).
Proof. ok_act. case_match; intros; simplify_eq; reflexivity. Qed.
Lemma g_self : G pthread_self.
Proof. ok_act. intros; simplify_eq; reflexivity. Qed.
Lemma g_exit : G pthread_exit.
Proof. ok_act. intros; simplify_eq. by apply evolves_pure. Qed.
Lemma g_tls_get {B} (proj : tls_t -> B) : G (tls_get proj).
Proof. ok_act. intros; simplify_eq; reflexivity. Qed.
Lemma g_tls_set u : G (tls_set u).
Proof. ok_act. intros; simplify_eq. by apply evolves_pure. Qed.
Lemma g_abort : G abort.
Proof. by ok_act. Qed.
Lemma g_assert : G assert_false.
Proof. ok_act. case_match; intros; simplify_eq; reflexivity. Qed.
Lemma g_call c : G (call c).
Proof. apply guar_call. intros; apply guar_ret. Qed.
Lemma g_call_opt {F} (f : option F) c : G (call_opt f c).
Proof. destruct f; [apply g_call|apply guar_ret]. Qed.
Lemma g_share_stack_new : G aco_share_stack_new.
Proof.
  ok_act. pose proof (evolves_oracle s) as H1. destruct (take_oracle s) as [[] s1]; simpl in H1; intros; simplify_eq; [done|].
  etrans; [exact H1|apply evolves_new].
Qed.
Lemma g_array_get a i : G (array_get a i).
Proof. ok_act. repeat case_match; intros; simplify_eq; reflexivity. Qed.
Lemma g_array_set a i v : G (array_set a i v).
Proof.
  ok_act. unfold lookup_cell. destruct (heap s !! a) as [[]|] eqn:Ho; try done; simpl.
  case_match; intros; simplify_eq. by eapply evolves_update.
Qed.
Lemma g_input fs i : G (input fs i).
Proof. ok_act. case_match; intros; simplify_eq; reflexivity. Qed.
Lemma g_when b (p : cprog unit) : G p -> G (when b p).
Proof. destruct b; [done|]. intros; apply guar_ret. Qed.

(** Continuation nodes keep their claim through [claim] and [release]. *)
Lemma le_cont_claim x : obj_le (cell_inj x) (cell_inj (on_cont tn_claim x).2).
Proof. split; [done|]. split; simpl; [|done..]. intros _; apply tn_claim_claimed. Qed.
Lemma le_cont_release x : obj_le (cell_inj x) (cell_inj (on_cont tn_release x).2).
Proof. split; [done|]. split; simpl; [|done..]. by rewrite tn_release_claimed. Qed.
Lemma le_push p x : obj_le (cell_inj x) (cell_inj (ts_push p x).2).
Proof. split; [done|]. simpl. by rewrite ts_push_closed. Qed.
Lemma le_steal x : obj_le (cell_inj x) (cell_inj (ts_steal_all_and_close x).2).
Proof. split; [done|]. simpl. intros _; apply ts_steal_closed. Qed.

Create HintDb guar.
#[local] Hint Resolve guar_ret g_rd g_alloc g_free g_eventfd g_write g_read g_close g_lock g_unlock
  g_mutex_destroy g_platform_ok g_pthread_create g_pthread_join g_self g_exit g_tls_get g_tls_set
  g_abort g_assert g_call g_call_opt g_share_stack_new g_array_get g_array_set g_input : guar.
#[local] Hint Resolve le_cont_claim le_cont_release le_push le_steal : guar.

(** Decide [obj_le] between a struct and its update. *)
Ltac le := intros; first
  [ solve [auto with guar nocore]
  | solve [split; [reflexivity|]; simpl; repeat split; simpl; auto; discriminate]
  | case_match; solve [split; [reflexivity|]; simpl; repeat split; simpl; auto; discriminate] ].

Lemma g_for_workers op w i : (forall x, G (op x)) -> G (for_workers op w i).
Proof.
  intros Hop. unfold for_workers. generalize (seq 0 i) as l.
  induction l; simpl; eauto using guar_ret, guar_bind, g_array_get.
Qed.

(** Walk a program, closing every action with its rule and opening the functions
    that have no lemma of their own. *)
Ltac head_of t := match t with ?f _ => head_of f | _ => t end.
Ltac guar_step :=
  match goal with
  | |- forall _, _ => intros
  | |- guar _ (bind _ _) => apply guar_bind
  | |- guar _ (Ret _) => apply guar_ret
  | |- guar _ (Call _ _) => apply guar_call
  | |- guar _ (Yield _) => apply guar_yield
  | |- guar _ (when _ _) => apply g_when
  | |- guar _ (for_workers _ _ _) => apply g_for_workers
  | |- guar _ (wr _ _) => apply g_wr; le
  | |- guar _ (rmw _ _) => apply g_rmw; le
  | |- guar _ (xchg _ _ _ _) => apply g_rmw; le
  | |- guar _ (fetch_add_int _ _ _ _) => apply g_rmw; le
  | |- guar _ (fetch_sub_size _ _ _ _) => apply g_rmw; le
  | |- _ => solve [auto with guar nocore]
  | |- guar _ (match ?x with _ => _ end) => destruct x
  | |- guar _ ?p => let f := head_of p in unfold f
  end.
Ltac guar := repeat guar_step.

(** ** The functions called from many places, and the recursive ones *)
Lemma g_sTokenRelease t : G (sTokenRelease t).
Proof. guar. Qed.
Lemma g_Unregister h : G (UfsrvCancellationTokenUnregister h).
Proof. guar. Qed.
Lemma g_RegisterEx t c x r : G (UfsrvCancellationTokenRegisterEx t c x r).
Proof. guar. Qed.
#[local] Hint Resolve g_sTokenRelease g_Unregister g_RegisterEx : guar.

Lemma g_Submit s c x : G (UfsrvSchedulerSubmit s c x).
Proof. guar. Qed.
#[local] Hint Resolve g_Submit : guar.
Lemma g_PoolCreate_loop n p w i todo : G (PoolCreate_loop n p w i todo).
Proof. revert i; induction todo; intros i; simpl; guar. Qed.
Lemma g_PoolStart_loop w i todo : G (PoolStart_loop w i todo).
Proof. revert i; induction todo; intros i; simpl; guar. Qed.
#[local] Hint Resolve g_PoolCreate_loop g_PoolStart_loop : guar.

Lemma g_sDrainContinuations_loop f l : G (sDrainContinuations_loop f l).
Proof. induction l; simpl; guar. Qed.
Lemma g_sDrainWaiters_loop l : G (sDrainWaiters_loop l).
Proof. induction l; simpl; guar. Qed.
Lemma g_release_continuations l : G (release_continuations l).
Proof. induction l; simpl; guar. Qed.
Lemma g_release_waiters l : G (release_waiters l).
Proof. induction l; simpl; guar. Qed.
#[local] Hint Resolve g_sDrainContinuations_loop g_sDrainWaiters_loop g_release_continuations
  g_release_waiters : guar.
Lemma g_sFutureComplete f r : G (sFutureComplete f r).
Proof. guar. Qed.
Lemma g_sFutureThen f c x : G (sFutureThen f c x).
Proof. guar. Qed.
Lemma g_Release f : G (UfsrvFutureRelease f).
Proof. guar. Qed.
#[local] Hint Resolve g_sFutureComplete g_sFutureThen g_Release : guar.
Lemma g_SetResult p r : G (UfsrvPromiseSetResult p r).
Proof. guar. Qed.
Lemma g_PromiseDestroy p : G (UfsrvPromiseDestroy p).
Proof. guar. Qed.
Lemma g_PromiseCreate b : G (UfsrvPromiseCreate b).
Proof. guar. Qed.
Lemma g_Attach f t : G (UfsrvFutureAttachCancellation f t).
Proof. guar. Qed.
#[local] Hint Resolve g_SetResult g_PromiseDestroy g_PromiseCreate g_Attach : guar.
Lemma g_All_loop c fs i todo : G (All_loop c fs i todo).
Proof. revert i; induction todo; intros i; simpl; guar. Qed.
Lemma g_Any_register c f : G (Any_register c f).
Proof. guar. Qed.
Lemma g_Any_input c f : G (Any_input c f).
Proof. guar. Qed.
Lemma g_Any_loop c fs i todo : G (Any_loop c fs i todo).
Proof. revert i; induction todo; intros i; simpl; guar. Qed.
#[local] Hint Resolve g_All_loop g_Any_loop : guar.

(** ** The public interface

    The index is the continuation the call registers on a future, if any: its
    function and its context. *)
Inductive api_call : option (fut_cb * ptr) -> forall A, cprog A -> Prop :=
| api_token_create : api_call None _ UfsrvCancellationTokenCreate
| api_token_register t c x : api_call None _ (UfsrvCancellationTokenRegister t c x)
| api_token_register_ex t c x r : api_call None _ (UfsrvCancellationTokenRegisterEx t c x r)
| api_token_unregister h : api_call None _ (UfsrvCancellationTokenUnregister h)
| api_token_cancel t : api_call None _ (UfsrvCancellationTokenCancel t)
| api_token_is_cancelled t : api_call None _ (UfsrvCancellationTokenIsCancelled t)
| api_token_destroy t : api_call None _ (UfsrvCancellationTokenDestroy t)
| api_scheduler_create n : api_call None _ (UfsrvSchedulerCreate n)
| api_scheduler_start s : api_call None _ (UfsrvSchedulerStart s)
| api_scheduler_submit s c x : api_call None _ (UfsrvSchedulerSubmit s c x)
| api_scheduler_stop s : api_call None _ (UfsrvSchedulerStop s)
| api_scheduler_join s : api_call None _ (UfsrvSchedulerJoin s)
| api_scheduler_destroy s : api_call None _ (UfsrvSchedulerDestroy s)
| api_scheduler_is_worker s : api_call None _ (UfsrvSchedulerIsWorkerThread s)
| api_pool_create c n : api_call None _ (UfsrvSchedulerPoolCreate c n)
| api_pool_start p : api_call None _ (UfsrvSchedulerPoolStart p)
| api_pool_submit p c x : api_call None _ (UfsrvSchedulerPoolSubmit p c x)
| api_pool_submit_to p i c x : api_call None _ (UfsrvSchedulerPoolSubmitTo p i c x)
| api_pool_stop p : api_call None _ (UfsrvSchedulerPoolStop p)
| api_pool_join p : api_call None _ (UfsrvSchedulerPoolJoin p)
| api_pool_destroy p : api_call None _ (UfsrvSchedulerPoolDestroy p)
| api_pool_size p : api_call None _ (UfsrvSchedulerPoolSize p)
| api_coroutine_create e a : api_call None _ (UfsrvCoroutineCreate e a)
| api_coroutine_resume c : api_call None _ (UfsrvCoroutineResume c)
| api_coroutine_yield : api_call None _ UfsrvCoroutineYield
| api_coroutine_current : api_call None _ UfsrvCoroutineCurrent
| api_coroutine_get_arg : api_call None _ UfsrvCoroutineGetArg
| api_coroutine_is_in : api_call None _ UfsrvCoroutineIsInCoroutine
| api_coroutine_scheduler : api_call None _ UfsrvCoroutineCurrentScheduler
| api_coroutine_exit : api_call None _ UfsrvCoroutineExit
| api_coroutine_cleanup : api_call None _ UfsrvCoroutineThreadCleanup
| api_coroutine_submit_resume s c : api_call None _ (UfsrvCoroutineSubmitResume s c)
| api_coroutine_spawn s e a : api_call None _ (UfsrvCoroutineSpawn s e a)
| api_promise_create b : api_call None _ (UfsrvPromiseCreate b)
| api_promise_set_result p r : api_call None _ (UfsrvPromiseSetResult p r)
| api_promise_set_value p v f : api_call None _ (UfsrvPromiseSetValue p v f)
| api_promise_set_error p e : api_call None _ (UfsrvPromiseSetError p e)
| api_promise_destroy p : api_call None _ (UfsrvPromiseDestroy p)
| api_then f c x : api_call ((fun fn => (fn, x)) <$> c) _ (UfsrvFutureThen f c x)
| api_is_ready f : api_call None _ (UfsrvFutureIsReady f)
| api_get f : api_call None _ (UfsrvFutureGet f)
| api_get_cancellable f t : api_call None _ (UfsrvFutureGetWithCancellation f t)
| api_from_value v f : api_call None _ (UfsrvFutureFromValue v f)
| api_from_error e : api_call None _ (UfsrvFutureFromError e)
| api_retain f : api_call None _ (UfsrvFutureRetain f)
| api_release f : api_call None _ (UfsrvFutureRelease f)
| api_attach f t : api_call None _ (UfsrvFutureAttachCancellation f t)
| api_map f m c : api_call None _ (UfsrvFutureMap f m c)
| api_map_ex f m c v : api_call None _ (UfsrvFutureMapEx f m c v)
| api_flat_map f m c : api_call None _ (UfsrvFutureFlatMap f m c)
| api_on_error f r c : api_call None _ (UfsrvFutureOnError f r c)
| api_do_on_success f a c : api_call None _ (UfsrvFutureDoOnSuccess f a c)
| api_all fs n : api_call None _ (UfsrvFutureAll fs n)
| api_any fs n : api_call None _ (UfsrvFutureAny fs n)
| api_zip a b z c : api_call None _ (UfsrvFutureZip a b z c)
| api_zip_ex a b z c v : api_call None _ (UfsrvFutureZipEx a b z c v).

(** Every API function consists of such actions only. *)
Lemma api_guar {r} A (p : cprog A) : api_call r A p -> G p.
Proof. destruct 1; guar. Qed.

(** Client code that stays within the same rules (it may call the API freely). *)
Definition client_guar (client : Client) : Prop :=
  forall c, match c with
            | K_future_cb (CB_user _) _ _ | K_map _ _ _ | K_flat_map _ _ _ | K_recover _ _ _
            | K_action _ _ _ | K_zip _ _ _ _ | K_free_value _ _ | K_cancel_cb (CC_user _) _
            | K_job (JB_user _) _ | K_entry _ | K_aco_resume _ => G (body client c)
            | _ => True
            end.

(** The whole code table, callbacks and loops of the library included. *)
Lemma body_guar_all client : client_guar client -> forall c, G (body client c).
Proof.
  intros Hc c. specialize (Hc c).
  destruct c as [[]| | | | | | |[]|[]| | | | | | | | | | |]; try exact Hc; clear Hc; simpl; guar.
Qed.

(** A specification of a program can be strengthened by [evolves]. *)
Lemma wp_evolves client {A} (p : cprog A) Q s :
  client_guar client -> G p -> wp (body client) log p Q s ->
  wp (body client) log p (fun a s' => Q a s' /\ evolves s s') s.
Proof.
  intros Hc Hp HQ. eapply wp_guar; eauto using evolves_log, body_guar_all. apply _.
Qed.
End Evolution.

(** Clients that only observe keep to the rules. *)
Lemma quiet_guar {E : Ext} {TS : TreiberSpec E} : client_guar quiet_client.
Proof. intros []; repeat case_match; try done; apply guar_ret. Qed.

Lemma boot_wf {E : Ext} : wf_machine boot.
Proof. by split. Qed.

Lemma evolves_run_done {E : Ext} {TS : TreiberSpec E} client {A} n (p : cprog A) s a s' :
  client_guar client -> guar evolves p -> run (body client) log n p s = Done a s' ->
  wf_machine s -> wf_machine s'.
Proof.
  intros Hc Hp Hr Hwf.
  pose proof (guar_run evolves (body client) log evolves_log (body_guar_all client Hc) n p s Hp) as He.
  rewrite Hr in He. by apply He.
Qed.
