(* ===== verification/Interleave.v ===== *)
(** * Interleave: threads

    The programs of the library under a preemptive scheduler: any thread may take
    the next atomic action, threads created by [pthread_create] join the pool, and
    a thread blocked in [read], [pthread_mutex_lock] or [pthread_join] simply
    cannot step.  The memory is sequentially consistent. *)
From S2P Require Import Prelude Machine Uflib Model Scheduler Future Waiting Dispatch Logic Guarantee.

Section Threads.
Context {E : Ext} (client : Client).

Record config := Config {
  threads : gmap N (cprog ptr);
  shared : st;
}.

(** One action of thread [t]. *)
Inductive tstep (t : N) : cprog ptr -> st -> cprog ptr -> st -> Prop :=
| tstep_act B (f : st -> outcome st B) k s b s' :
    f (with_cur t s) = Ok b s' -> tstep t (Act f k) s (k b) s'
| tstep_call c k s :
    tstep t (Call c k) s (bind (body client c) k) (log c (with_cur t s)).

Inductive istep : config -> config -> Prop :=
| istep_thread ths s t p p' s' :
    ths !! t = Some p -> tstep t p s p' s' -> istep (Config ths s) (Config (<[t := p']> ths) s')
| istep_spawn ths s t c :
    (t, c) ∈ spawned s -> ths !! t = None ->
    istep (Config ths s) (Config (<[t := Call c Ret]> ths) s).

(** The same semantics as a function of the thread that is scheduled next. *)
Definition tstep_fn (t : N) (p : cprog ptr) (s : st) : option (cprog ptr * st) :=
  match p with
  | Act f k => match f (with_cur t s) with Ok b s' => Some (k b, s') | _ => None end
  | Call c k => Some (bind (body client c) k, log c (with_cur t s))
  | _ => None
  end.
Definition istep_fn (c : config) (t : N) : option config :=
  match threads c !! t with
  | Some p => '(p', s') ← tstep_fn t p (shared c); Some (Config (<[t := p']> (threads c)) s')
  | None =>
      '(_, k) ← snd <$> list_find (fun x : N * code => x.1 = t) (spawned (shared c));
      Some (Config (<[t := Call k Ret]> (threads c)) (shared c))
  end.
Fixpoint irun (schedule : list N) (c : config) : option config :=
  match schedule with
  | [] => Some c
  | t :: schedule => istep_fn c t ≫= irun schedule
  end.

Lemma istep_fn_sound c t c' : istep_fn c t = Some c' -> istep c c'.
Proof.
  destruct c as [ths s]. unfold istep_fn; simpl. destruct (ths !! t) as [p|] eqn:Ht.
  - destruct (tstep_fn t p s) as [[p' s']|] eqn:Hs; intros; simplify_eq/=.
    eapply istep_thread; [exact Ht|]. unfold tstep_fn in Hs. repeat case_match; simplify_eq.
    + by constructor.
    + constructor.
  - destruct (list_find _ _) as [[i [u k]]|] eqn:Hf; intros; simplify_eq/=.
    apply list_find_Some in Hf as (Hl & Hu & _). simpl in Hu; subst u.
    apply istep_spawn; [|done]. by eapply list_elem_of_lookup_2.
Qed.

Lemma irun_app sch1 sch2 c : irun (sch1 ++ sch2) c = irun sch1 c ≫= irun sch2.
Proof.
  revert c; induction sch1 as [|t sch1 IH]; intros c; simpl; [done|].
  destruct (istep_fn c t); simpl; auto.
Qed.

Lemma irun_sound sch c c' : irun sch c = Some c' -> rtc istep c c'.
Proof.
  revert c; induction sch as [|t sch IH]; intros c; simpl.
  - intros; simplify_eq. done.
  - destruct (istep_fn c t) as [c1|] eqn:H1; [|done]. simpl. intros H2.
    eapply rtc_l; [by eapply istep_fn_sound|by apply IH].
Qed.

End Threads.
Arguments config {E}.
Arguments Config {E} _ _.

Section Safety.
Context {E : Ext} {TS : TreiberSpec E} (client : Client) (Hclient : client_guar client).

(** Pools made of API calls and of client code that keeps to the rules. *)
Definition pool_guar (c : config) : Prop :=
  forall t p, threads c !! t = Some p -> guar evolves p.

Lemma evolves_cur t s : evolves s (with_cur t s).
Proof. by apply evolves_pure. Qed.

Lemma tstep_evolves t p s p' s' :
  guar evolves p -> tstep client t p s p' s' -> evolves s s' /\ guar evolves p'.
Proof.
  intros Hp Hs; destruct Hs as [B f k s b s' Hf|c k s]; apply guar_inv in Hp.
  - destruct Hp as [Hf' Hk]. split; [|auto]. etrans; [apply evolves_cur|eauto].
  - split; [etrans; [apply evolves_cur|apply evolves_log]|].
    apply guar_bind; [by apply body_guar_all|done].
Qed.

Lemma istep_evolves c c' :
  pool_guar c -> istep client c c' -> evolves (shared c) (shared c') /\ pool_guar c'.
Proof.
  intros Hp Hs; destruct Hs as [ths s t p p' s' Ht Hs|ths s t k Hin Hn]; simpl.
  - destruct (tstep_evolves _ _ _ _ _ (Hp t p Ht) Hs) as [He Hp']. split; [done|].
    intros u q; simpl; intros [[<- <-]|[_ Hq]]%lookup_insert_Some; [done|by apply (Hp u)].
  - split; [reflexivity|]. intros u q; simpl.
    intros [[<- <-]|[_ Hq]]%lookup_insert_Some; [|by apply (Hp u)].
    constructor. constructor.
Qed.

Lemma isteps_evolves c c' :
  pool_guar c -> rtc (istep client) c c' -> evolves (shared c) (shared c') /\ pool_guar c'.
Proof.
  intros Hp Hs; induction Hs as [c|c1 c2 c3 H12 _ IH]; [split; [reflexivity|done]|].
  destruct (istep_evolves _ _ Hp H12) as [He1 Hp2]. destruct (IH Hp2) as [He2 Hp3].
  split; [by etrans|done].
Qed.

End Safety.
