(* ===== verification/Discipline.v ===== *)
(** * Discipline: paying for the steps that must not happen twice

    A ghost budget for interleaved programs.  The state is worth some number of
    tokens ([stored]), every thread holds a list of tokens, and a step may only
    turn one into the other: what must happen at most once costs a token.  A thread
    that holds none may only take the steps allowed by [kept].  [disc] is the
    program logic of such threads; its assertions speak of the tokens of the thread
    and of facts no other thread can invalidate, so that a proof about one thread
    survives every interleaving ([isteps_pay]). *)
From S2P Require Import Prelude Machine Uflib Model Cancellation Scheduler Coroutine Future Waiting.
From S2P Require Import Operators Combinators Dispatch Logic Guarantee Interleave.

(** Changes of an object that cost nothing, and objects that may be allocated for
    nothing. *)
Section Changes.
Context {E : Ext} {TS : TreiberSpec E}.
Definition mild (o o' : obj) : Prop :=
  kind o = kind o' /\
  match o, o' with
  | OFuture x, OFuture y =>
      fut_is_completed y = fut_is_completed x /\ fut_state y = fut_state x /\
      (fut_result y = fut_result x \/ fut_result y = zero_result)
  | OStack t, OStack u => ts_nodes u = ts_nodes t \/ ts_nodes u = []
  | _, _ => True
  end.
Definition blank (owed : fut_cb -> ptr -> bool) (o : obj) : Prop :=
  match o with
  | OFuture x => fut_is_completed x = false /\ fut_state x = PENDING
  | OContinuation x => owed (cont_fn x) (cont_user x) = false
  | OStack t => ts_nodes t = []
  | _ => True
  end.
(** The part of the state budgets depend on. *)
Definition same_view (s s' : st) : Prop :=
  heap s' = heap s /\ next_ptr s' = next_ptr s /\ trace s' = trace s.
Definition free_of_charge (owed : fut_cb -> ptr -> bool) (c : code) : Prop :=
  match c with K_future_cb fn _ u => owed fn u = false | _ => True end.
End Changes.

(** ** Client threads

    A [script] is a client program: a sequence of API calls, each of them chosen from
    the results of the ones before, that makes at most [n] registrations of owed
    continuations. *)
Section Scripts.
Context {E : Ext} {TS : TreiberSpec E} (owed : fut_cb -> ptr -> bool).
Definition cost (r : option (fut_cb * ptr)) : nat :=
  match r with Some (fn, x) => if owed fn x then 1 else 0 | None => 0 end.
Inductive script {A} : nat -> cprog A -> Prop :=
| script_ret n a : script n (Ret a)
| script_call n r D (p : cprog D) k :
    api_call r D p -> (forall d, script n (k d)) -> script (cost r + n) (bind p k).

(** What a pool of threads registers in all, thread [t] at most [regs t] times. *)
Definition registrations (regs : N -> nat) (ths : gmap N (cprog ptr)) : nat :=
  map_fold (fun t _ a => regs t + a) 0 ths.
Lemma registrations_none ths : registrations (fun _ => 0) ths = 0.
Proof.
  induction ths as [|t p ths Hn IH] using map_ind; [done|].
  unfold registrations in *. rewrite map_fold_insert_L; [done|intros; lia|done].
Qed.

(** The client's callbacks, destructors and coroutines are scripts too, and make no
    owed registration themselves. *)
Definition client_scripts (client : Client) : Prop :=
  forall c, match c with
            | K_future_cb (CB_user _) _ _ | K_map _ _ _ | K_flat_map _ _ _ | K_recover _ _ _
            | K_action _ _ _ | K_zip _ _ _ _ | K_free_value _ _ | K_cancel_cb (CC_user _) _
            | K_job (JB_user _) _ | K_entry _ | K_aco_resume _ => script 0 (body client c)
            | _ => True
            end.
Lemma quiet_scripts : client_scripts quiet_client.
Proof. intros []; repeat case_match; try done; apply script_ret. Qed.
End Scripts.

(** A budget.  [owed fn u]: registering the continuation [fn] with context [u] costs
    a [ticket], and so does calling it.  [harmless p]: the address [p] may enter a
    stack for nothing. *)
Class Budget {E : Ext} {TS : TreiberSpec E} := {
  token : Type;
  ticket : token;
  held : token -> st -> nat;
  stored : st -> nat;
  kept : st -> st -> Prop;
  harmless : ptr -> st -> Prop;
  owed : fut_cb -> ptr -> bool;
  held_ticket s : held ticket s = 1;
  held_anti t s s' : wf_machine s -> evolves s s' -> held t s' <= held t s;
  harmless_stable p s s' : wf_machine s -> evolves s s' -> harmless p s -> harmless p s';
  owed_user fn u : owed fn u = true -> exists n, fn = CB_user n;
  stored_view s s' : same_view s s' -> stored s' = stored s;
  kept_view s s' : same_view s s' -> kept s s';
  kept_view_l s s1 s' : same_view s s1 -> kept s1 s' -> kept s s';
  call_free c s : free_of_charge owed c -> stored (log c s) <= stored s /\ kept s (log c s);
  update_mild s p o o' : wf_machine s -> heap s !! p = Some o -> obj_le o o' -> mild o o' ->
    stored (with_heap (<[p := o']>) s) <= stored s /\ kept s (with_heap (<[p := o']>) s);
  delete_free s p : wf_machine s ->
    stored (with_heap (delete p) s) <= stored s /\ kept s (with_heap (delete p) s);
  alloc_blank s o : wf_machine s -> blank owed o ->
    let s' := with_next_ptr (next_ptr s + 1) (with_heap (<[next_ptr s := o]>) s) in
    stored s' <= stored s /\ kept s s' /\ harmless (next_ptr s) s';
  push_harmless s q (t : tstack) p : wf_machine s -> heap s !! q = Some (OStack t) -> harmless p s ->
    let s' := with_heap (<[q := OStack (ts_push p t).2]>) s in
    stored s' <= stored s /\ kept s s';
}.

Section Logic.
Context {E : Ext} {TS : TreiberSpec E} {B : Budget}.

Fixpoint worth (g : list token) (s : st) : nat :=
  match g with [] => 0 | t :: g => held t s + worth g s end.
Lemma worth_app g1 g2 s : worth (g1 ++ g2) s = worth g1 s + worth g2 s.
Proof. induction g1; simpl; lia. Qed.
Lemma worth_anti g s s' : wf_machine s -> evolves s s' -> worth g s' <= worth g s.
Proof.
  intros Hwf He. induction g as [|t g IH]; simpl; [lia|]. pose proof (held_anti t s s' Hwf He). lia.
Qed.

(** Threads are only ever created to run code that is free of charge. *)
Definition spawns_free (s : st) : Prop := Forall (fun x => free_of_charge owed x.2) (spawned s).

(** One step of a thread: [g] are its tokens before, [g'] after. *)
Record pays (g : list token) (s : st) (g' : list token) (s' : st) : Prop := {
  pay_evolves : evolves s s';
  pay_spawns : spawns_free s -> spawns_free s';
  pay_worth : stored s' + worth g' s' <= stored s + worth g s;
  pay_kept : worth g s = 0 -> kept s s';
}.

Definition assertion : Type := list token -> st -> Prop.
Definition stable (P : assertion) : Prop :=
  forall g s s', wf_machine s -> evolves s s' -> P g s -> P g s'.
Definition fact (F : st -> Prop) : Prop :=
  forall s s', wf_machine s -> evolves s s' -> F s -> F s'.
Definition sep (P Q : assertion) : assertion :=
  fun g s => exists g1 g2, g = g1 ++ g2 /\ P g1 s /\ Q g2 s.
(** Tokens can be thrown away. *)
Definition entails (P Q : assertion) : Prop :=
  forall g s, wf_machine s -> P g s -> exists g', worth g' s <= worth g s /\ Q g' s.

Inductive disc {A} (Q : A -> assertion) : assertion -> cprog A -> Prop :=
| disc_ret P a : entails P (Q a) -> disc Q P (Ret a)
| disc_act P B (f : st -> outcome st B) k (P' : B -> assertion) :
    (forall g s b s', wf_machine s -> P g s -> f s = Ok b s' -> exists g', pays g s g' s' /\ P' b g' s') ->
    (forall b, stable (P' b)) -> (forall b, disc Q (P' b) (k b)) -> disc Q P (Act f k)
| disc_call P c k P' :
    (forall g s, wf_machine s -> P g s -> exists g', pays g s g' (log c s) /\ P' g' (log c s)) ->
    stable P' -> (forall r, disc Q P' (k r)) -> disc Q P (Call c k)
| disc_yield P k : disc Q P k -> disc Q P (Yield k).

Lemma disc_inv {A} (Q : A -> assertion) P p :
  disc Q P p ->
  match p with
  | Ret a => entails P (Q a)
  | Act f k => exists P' : _ -> assertion,
      (forall g s b s', wf_machine s -> P g s -> f s = Ok b s' -> exists g', pays g s g' s' /\ P' b g' s') /\
      (forall b, stable (P' b)) /\ forall b, disc Q (P' b) (k b)
  | Call c k => exists P',
      (forall g s, wf_machine s -> P g s -> exists g', pays g s g' (log c s) /\ P' g' (log c s)) /\
      stable P' /\ forall r, disc Q P' (k r)
  | Yield k => disc Q P k
  end.
Proof. destruct 1; eauto 10. Qed.

Lemma stable_sep P Q : stable P -> stable Q -> stable (sep P Q).
Proof. intros HP HQ g s s' Hwf He (g1 & g2 & -> & H1 & H2). exists g1, g2. eauto. Qed.

Lemma pays_less g0 g s g' s' : worth g s <= worth g0 s -> pays g s g' s' -> pays g0 s g' s'.
Proof. intros Hle [P1 P2 P3 P4]. split; auto; [lia|]. intros H0. apply P4. lia. Qed.

Lemma disc_pre {A} (Q : A -> assertion) P P' p : entails P P' -> disc Q P' p -> disc Q P p.
Proof.
  intros HP Hd. revert P HP. induction Hd as [P' a Hr|P' B' f k P'' Hf Hs Hk|P' c k P'' Hf Hs Hk|P' k Hk IH];
    intros P HP.
  - apply disc_ret. intros g s Hwf Hg. destruct (HP g s Hwf Hg) as (g1 & L1 & H1).
    destruct (Hr g1 s Hwf H1) as (g2 & L2 & H2). exists g2. split; [lia|done].
  - eapply disc_act; [|exact Hs|exact Hk]. intros g s b s' Hwf Hg Ef.
    destruct (HP g s Hwf Hg) as (g1 & L1 & H1). destruct (Hf _ _ _ _ Hwf H1 Ef) as (g' & Hp & H').
    exists g'. split; [by eapply pays_less|done].
  - eapply disc_call; [|exact Hs|exact Hk]. intros g s Hwf Hg.
    destruct (HP g s Hwf Hg) as (g1 & L1 & H1). destruct (Hf _ _ Hwf H1) as (g' & Hp & H').
    exists g'. split; [by eapply pays_less|done].
  - apply disc_yield. by apply IH.
Qed.

Lemma disc_post {A} (Q R : A -> assertion) P p :
  (forall a, entails (Q a) (R a)) -> disc Q P p -> disc R P p.
Proof.
  intros HQ Hd. induction Hd as [P a Hr|P B' f k P' Hf Hs _ IH|P c k P' Hf Hs _ IH|P k _ IH].
  - apply disc_ret. intros g s Hwf Hg. destruct (Hr g s Hwf Hg) as (g1 & L1 & H1).
    destruct (HQ a g1 s Hwf H1) as (g2 & L2 & H2). exists g2. split; [lia|done].
  - by eapply disc_act.
  - by eapply disc_call.
  - by apply disc_yield.
Qed.

Lemma disc_bind {A C} (Q : A -> assertion) (R : C -> assertion) P p k :
  disc Q P p -> (forall a, disc R (Q a) (k a)) -> disc R P (bind p k).
Proof.
  intros Hd Hk. induction Hd as [P a Hr|P B' f q P' Hf Hs _ IH|P c q P' Hf Hs _ IH|P q _ IH]; simpl.
  - by eapply disc_pre.
  - by eapply disc_act.
  - by eapply disc_call.
  - by apply disc_yield.
Qed.

Lemma entails_refl P : entails P P.
Proof. intros g s _ Hg. by exists g. Qed.

(** The tokens a thread does not use are still there afterwards. *)
Lemma pays_frame g s g' s' gf : wf_machine s -> pays g s g' s' -> pays (g ++ gf) s (g' ++ gf) s'.
Proof.
  intros Hwf [P1 P2 P3 P4]. pose proof (worth_anti gf s s' Hwf P1). split; rewrite ?worth_app; auto; [lia|].
  intros H0. apply P4. lia.
Qed.

Lemma disc_frame {A} (Q : A -> assertion) P p F :
  disc Q P p -> stable F -> disc (fun a => sep (Q a) F) (sep P F) p.
Proof.
  intros Hd HF. induction Hd as [P a Hr|P B' f k P' Hf Hs _ IH|P c k P' Hf Hs _ IH|P k _ IH].
  - apply disc_ret. intros g s Hwf (g1 & g2 & -> & H1 & H2). destruct (Hr g1 s Hwf H1) as (g1' & L & H1').
    exists (g1' ++ g2). rewrite !worth_app. split; [lia|]. by exists g1', g2.
  - apply disc_act with (fun b => sep (P' b) F); [|intros; by apply stable_sep|exact IH].
    intros g s b s' Hwf (g1 & g2 & -> & H1 & H2) Ef. destruct (Hf _ _ _ _ Hwf H1 Ef) as (g' & Hp & H').
    exists (g' ++ g2). split; [by apply pays_frame|]. exists g', g2. eauto using pay_evolves.
  - apply disc_call with (sep P' F); [|by apply stable_sep|exact IH].
    intros g s Hwf (g1 & g2 & -> & H1 & H2). destruct (Hf _ _ Hwf H1) as (g' & Hp & H').
    exists (g' ++ g2). split; [by apply pays_frame|]. exists g', g2. eauto using pay_evolves.
  - by apply disc_yield.
Qed.
End Logic.

(** ** Pools of threads *)
Section Pools.
Context {E : Ext} {TS : TreiberSpec E} {B : Budget} (client : Client).

Definition nothing : assertion := fun g _ => g = [].
Hypothesis Hbody : forall c, disc (fun _ => nothing) nothing (body client c).

Lemma stable_nothing : stable nothing.
Proof. by intros g s s' _ _. Qed.

Lemma with_cur_wf t s : wf_machine s -> wf_machine (with_cur t s).
Proof. intros Hwf. apply (evolves_cur t s Hwf). Qed.

Lemma pays_cur t g s g' s' : wf_machine s -> pays g (with_cur t s) g' s' -> pays g s g' s'.
Proof.
  intros Hwf [P1 P2 P3 P4]. assert (Hv : same_view s (with_cur t s)) by done.
  pose proof (worth_anti g _ _ Hwf (evolves_cur t s)). rewrite (stored_view _ _ Hv) in P3.
  split; [etrans; [apply evolves_cur|done]|done|lia|].
  intros H0. eapply kept_view_l; [exact Hv|]. apply P4. lia.
Qed.

Lemma tstep_pays {Q : ptr -> assertion} t p s p' s' P g :
  wf_machine s -> stable P -> disc Q P p -> P g s -> tstep client t p s p' s' ->
  exists P' g', stable P' /\ disc Q P' p' /\ P' g' s' /\ pays g s g' s'.
Proof.
  intros Hwf HP Hd Hg Hs. pose proof (with_cur_wf t s Hwf) as Hwf'.
  assert (Hg' : P g (with_cur t s)) by (eapply HP; [exact Hwf|apply evolves_cur|done]).
  apply disc_inv in Hd. destruct Hs as [D f k s b s' Ef|c k s].
  - destruct Hd as (P' & Hf & Hst & Hk).
    destruct (Hf _ _ _ _ Hwf' Hg' Ef) as (g' & Hp & H'). exists (P' b), g'. eauto using pays_cur.
  - destruct Hd as (P' & Hf & Hst & Hk).
    destruct (Hf _ _ Hwf' Hg') as (g' & Hp & H'). exists (sep nothing P'), g'.
    split; [apply stable_sep; [apply stable_nothing|done]|].
    split; [|split; [by exists [], g'|by eapply pays_cur]].
    eapply disc_bind; [eapply disc_pre; [apply entails_refl|apply disc_frame; [apply Hbody|done]]|]. intros r; simpl.
    eapply disc_pre; [|apply Hk]. intros g0 s0 _ (g1 & g2 & -> & -> & H2). by exists g2.
Qed.

(** The tokens of all threads. *)
Definition purse (gs : gmap N (list token)) (s : st) : nat :=
  map_fold (fun _ g n => worth g s + n) 0 gs.

Lemma purse_insert t g gs s : purse (<[t := g]> gs) s = worth g s + purse (delete t gs) s.
Proof.
  unfold purse. rewrite <- insert_delete_eq.
  rewrite map_fold_insert_L; [done|intros; lia|by rewrite lookup_delete_eq].
Qed.
Lemma purse_delete t g gs s : gs !! t = Some g -> purse gs s = worth g s + purse (delete t gs) s.
Proof. intros Hg. rewrite <- purse_insert. by rewrite insert_id. Qed.
Lemma purse_anti gs s s' : wf_machine s -> evolves s s' -> purse gs s' <= purse gs s.
Proof.
  intros Hwf He. induction gs as [|t g gs Hn IH] using map_ind; [done|].
  rewrite !purse_insert, !delete_id by done. pose proof (worth_anti g s s' Hwf He). lia.
Qed.

(** [n] tokens in all; every thread is disciplined and holds what it says. *)
Record solvent (n : nat) (c : config) : Prop := {
  sv_wf : wf_machine (shared c);
  sv_spawns : spawns_free (shared c);
  sv_threads : exists gs, stored (shared c) + purse gs (shared c) <= n /\
    forall t p, threads c !! t = Some p ->
      exists g P, gs !! t = Some g /\ stable P /\ disc (fun _ _ _ => True) P p /\ P g (shared c);
}.

Lemma istep_pays n c c' :
  solvent n c -> istep client c c' ->
  solvent n c' /\ evolves (shared c) (shared c') /\ (stored (shared c) = n -> kept (shared c) (shared c')).
Proof.
  intros [Hwf Hsp (gs & Hn & Hth)] Hs. destruct Hs as [ths s t p p' s' Ht Hs|ths s t k Hin Hnone]; simpl in *.
  - destruct (Hth t p Ht) as (g & P & Hgs & HP & Hd & Hg).
    destruct (tstep_pays t p s p' s' P g Hwf HP Hd Hg Hs) as (P' & g' & HP' & Hd' & Hg' & [Pe Psp Pw Pk]).
    rewrite (purse_delete t g gs s Hgs) in Hn. pose proof (purse_anti (delete t gs) s s' Hwf Pe).
    split; [|split; [done|intros; apply Pk; lia]].
    split; simpl; [apply (Pe Hwf)|auto|]. exists (<[t := g']> gs). rewrite purse_insert. split; [lia|].
    intros u q [[<- <-]|[Hne Hq]]%lookup_insert_Some.
    + exists g', P'. by rewrite lookup_insert_eq.
    + destruct (Hth u q Hq) as (gu & Pu & Hgu & HPu & Hdu & Hu). exists gu, Pu.
      rewrite lookup_insert_ne by done. eauto.
  - split; [|split; [reflexivity|intros; by apply kept_view]]. split; simpl; [done..|].
    exists (<[t := []]> gs). rewrite purse_insert; simpl. split.
    { destruct (gs !! t) as [g|] eqn:Hg; [rewrite (purse_delete t g gs s Hg) in Hn; lia|by rewrite delete_id]. }
    intros u q [[<- <-]|[Hne Hq]]%lookup_insert_Some.
    + exists [], nothing. rewrite lookup_insert_eq.
      split; [done|]. split; [apply stable_nothing|]. split; [|done].
      eapply disc_call with nothing; [|apply stable_nothing|].
      * intros g s0 Hwf0 ->. exists []. pose proof (proj1 (Forall_forall _ _) Hsp _ Hin) as Hfree.
        destruct (call_free k s0 Hfree) as [H1 H2]. split; [|done].
        split; simpl; [apply evolves_log|unfold log; by destruct (is_loop k)|lia|done].
      * intros r. apply disc_ret. intros g0 s0 _ _. exists []. split; [simpl; lia|done].
    + destruct (Hth u q Hq) as (gu & Pu & Hgu & HPu). exists gu, Pu. by rewrite lookup_insert_ne.
Qed.

Lemma isteps_pay n c c' :
  solvent n c -> rtc (istep client) c c' -> solvent n c' /\ evolves (shared c) (shared c').
Proof.
  intros Hp Hs; induction Hs as [c|c1 c2 c3 H12 _ IH]; [split; [done|reflexivity]|].
  destruct (istep_pays n c1 c2 Hp H12) as (H2 & He & _). destruct (IH H2) as [H3 He3].
  split; [done|by etrans].
Qed.
End Pools.

(** ** Single steps *)
Section Steps.
Context {E : Ext} {TS : TreiberSpec E} {B : Budget}.
Lemma disc_rmw {T C} `{!Cell T} (P : assertion) (Q : C -> assertion) (g : T -> C * T) p :
  (forall x, obj_le (cell_inj x) (cell_inj (g x).2)) -> (forall c, stable (Q c)) ->
  (forall l s x, wf_machine s -> P l s -> heap s !! p = Some (cell_inj x) ->
     let s' := store_cell p (g x).2 s in
     exists l', stored s' + worth l' s' <= stored s + worth l s /\
       (worth l s = 0 -> kept s s') /\ Q (g x).1 l' s') ->
  disc Q P (rmw g p).
Proof.
  intros Hg HQ Hs. pose proof (g_rmw g p Hg) as Hev. apply guar_inv in Hev as [Hev _].
  apply disc_act with Q; [|done|intros; apply disc_ret, entails_refl].
  intros l s b s' Hwf HP Hf. pose proof (Hev _ _ _ Hf) as He. unfold lookup_cell in Hf.
  destruct (heap s !! p) as [o|] eqn:Ho; simpl in Hf; [|done].
  destruct (cell_prj o) as [x|] eqn:Hx; simplify_eq.
  apply cell_inj_prj in Hx. subst o. destruct (Hs l s x Hwf HP Ho) as (l' & H1 & H2 & H3). by exists l'.
Qed.
Lemma disc_rd {T C} `{!Cell T} (P : assertion) (Q : C -> assertion) (proj : T -> C) p :
  (forall c, stable (Q c)) ->
  (forall l s x, wf_machine s -> P l s -> heap s !! p = Some (cell_inj x) -> Q (proj x) l s) ->
  disc Q P (rd proj p).
Proof.
  intros HQ Hs. apply disc_act with Q; [|done|intros; apply disc_ret, entails_refl].
  intros l s b s' Hwf HP Hf. unfold lookup_cell in Hf.
  destruct (heap s !! p) as [o|] eqn:Ho; simpl in Hf; [|done].
  destruct (cell_prj o) as [x|] eqn:Hx; simplify_eq. apply cell_inj_prj in Hx. subst o.
  exists l. split; [|by eapply Hs]. split; [reflexivity|done|lia|intros; by apply kept_view].
Qed.
Lemma disc_call_seq {A} (Q : A -> assertion) (P P' : assertion) c (k : ptr -> cprog A) :
  (forall l s, wf_machine s -> P l s ->
     exists l', stored (log c s) + worth l' (log c s) <= stored s + worth l s /\
       (worth l s = 0 -> kept s (log c s)) /\ P' l' (log c s)) ->
  stable P' -> (forall r, disc Q P' (k r)) -> disc Q P (Call c k).
Proof.
  intros Hs HP' Hk. apply disc_call with P'; [|done..]. intros l s Hwf HP.
  destruct (Hs l s Hwf HP) as (l' & H1 & H2 & H3). exists l'. split; [|done].
  split; [apply evolves_log|unfold log; by destruct (is_loop c)|done..].
Qed.
End Steps.

(** ** Programs that need no token *)
Section Silence.
Context {E : Ext} {TS : TreiberSpec E} {B : Budget}.

(** What a thread knows and no other thread can change. *)
Class Fact (F : st -> Prop) : Prop :=
  fact_stable s s' : wf_machine s -> evolves s s' -> F s -> F s'.
#[export] Instance fact_true : Fact (fun _ => True).
Proof. done. Qed.
#[export] Instance fact_harmless F p : Fact F -> Fact (fun s => F s /\ (p = NULL \/ harmless p s)).
Proof. intros HF s s' Hwf He [H1 H2]. split; [by eapply HF|]. destruct H2; [by left|right; by eapply harmless_stable]. Qed.

Definition knows (F : st -> Prop) : assertion := fun g s => g = [] /\ F s.
Definition silent {A} (F : st -> Prop) (p : cprog A) : Prop := disc (fun _ => knows F) (knows F) p.

(** A step that neither takes nor gives a token. *)
Definition affords (s s' : st) : Prop :=
  (spawns_free s -> spawns_free s') /\ stored s' <= stored s /\ kept s s'.

Lemma stable_knows F `{!Fact F} : stable (knows F).
Proof. intros g s s' Hwf He [-> HF]. split; [done|]. by eapply fact_stable. Qed.

Lemma affords_pays s s' : evolves s s' -> affords s s' -> pays [] s [] s'.
Proof. intros He (H1 & H2 & H3). split; auto; simpl; lia. Qed.
Lemma affords_view s s' : same_view s s' -> spawned s' = spawned s -> affords s s'.
Proof.
  intros Hv Hsp. split; [unfold spawns_free; by rewrite Hsp|].
  split; [by rewrite (stored_view s s')|by apply kept_view].
Qed.
Lemma affords_view_l s s1 s' : same_view s s1 -> spawned s1 = spawned s -> affords s1 s' -> affords s s'.
Proof.
  unfold affords, spawns_free. intros Hv Hsp (H1 & H2 & H3). rewrite Hsp in H1. rewrite (stored_view s s1 Hv) in H2.
  split; [done|]. split; [done|]. by eapply kept_view_l.
Qed.
Lemma affords_heap g s :
  stored (with_heap g s) <= stored s /\ kept s (with_heap g s) -> affords s (with_heap g s).
Proof. by split. Qed.
Lemma oracle_view s : same_view s (take_oracle s).2 /\ spawned (take_oracle s).2 = spawned s.
Proof. unfold take_oracle. by destruct (oracle s). Qed.

Lemma silent_ret {A} F (a : A) : silent F (Ret a).
Proof. apply disc_ret. apply entails_refl. Qed.
Lemma silent_bind {A C} F (p : cprog A) (k : A -> cprog C) :
  silent F p -> (forall a, silent F (k a)) -> silent F (bind p k).
Proof. intros. by eapply disc_bind. Qed.
Lemma silent_yield {A} F (k : cprog A) : silent F k -> silent F (Yield k).
Proof. apply disc_yield. Qed.
Lemma silent_Call {A} F `{!Fact F} c (k : ptr -> cprog A) :
  free_of_charge owed c -> (forall r, silent F (k r)) -> silent F (Call c k).
Proof.
  intros Hc Hk. apply disc_call with (knows F); [|by apply stable_knows|done].
  intros g s Hwf [-> HF]. exists []. destruct (call_free c s Hc) as [H1 H2]. split.
  - apply affords_pays; [apply evolves_log|]. split; [unfold log; by destruct (is_loop c)|done].
  - split; [done|]. eapply fact_stable; [exact Hwf|apply evolves_log|done].
Qed.

Lemma silent_leaf {A} F `{!Fact F} (f : st -> outcome st A) :
  guar evolves (Act f Ret : cprog A) ->
  (forall s b s', wf_machine s -> F s -> f s = Ok b s' -> affords s s') -> silent F (Act f Ret).
Proof.
  intros Hg Hf. apply guar_inv in Hg as [Hg _].
  apply disc_act with (fun _ => knows F); [|intros; by apply stable_knows|intros; apply silent_ret].
  intros g s b s' Hwf [-> HF] Ef. exists []. split; [apply affords_pays; eauto|].
  split; [done|]. eapply fact_stable; eauto.
Qed.

Lemma silent_weaken {A} F G (p : cprog A) :
  (forall s, F s -> G s) -> disc (fun _ => knows F) (knows G) p -> silent G p.
Proof.
  intros HFG Hd. eapply disc_post; [|exact Hd]. intros _ g s _ [-> HF]. exists []. split; [lia|]. split; auto.
Qed.

(** A silent program keeps whatever its thread holds. *)
Lemma silent_frame {A} (P : assertion) (p : cprog A) :
  silent (fun _ => True) p -> stable P -> disc (fun _ => P) P p.
Proof.
  intros Hs HP. eapply disc_pre; [|eapply disc_post; [|by apply disc_frame]].
  - intros g s _ Hg. exists g. split; [done|]. by exists [], g.
  - intros a g s _ (g1 & g2 & -> & [-> _] & H2). by exists g2.
Qed.
Lemma silent_lift {A} F `{!Fact F} (p : cprog A) : silent (fun _ => True) p -> silent F p.
Proof. intros Hs. apply silent_frame; [done|]. by apply stable_knows. Qed.

(** ** The atomic actions *)
Ltac leaf :=
  apply silent_leaf;
  [done
  |solve [apply g_rd|apply g_free|apply g_eventfd|apply g_write|apply g_read|apply g_close
         |apply g_lock|apply g_unlock|apply g_mutex_destroy|apply g_platform_ok|apply g_pthread_create
         |apply g_pthread_join|apply g_self|apply g_exit|apply g_tls_get|apply g_tls_set|apply g_abort
         |apply g_assert|apply g_share_stack_new|apply g_array_get|apply g_array_set|apply g_input]
  |intros s b s' Hwf HF].
Ltac same := apply affords_view; done.

Lemma s_rd {T C} `{!Cell T} F `{!Fact F} (proj : T -> C) p : silent F (rd proj p).
Proof. leaf. case_match; intros; simplify_eq; same. Qed.
Lemma s_rmw {T C} `{!Cell T} F `{!Fact F} (g : T -> C * T) p :
  (forall x, obj_le (cell_inj x) (cell_inj (g x).2)) ->
  (forall x, mild (cell_inj x) (cell_inj (g x).2)) -> silent F (rmw g p).
Proof.
  intros Hg Hm. apply silent_leaf; [done|by apply g_rmw|intros s b s' Hwf HF].
  unfold lookup_cell. destruct (heap s !! p) as [o|] eqn:Ho; simpl; [|done].
  destruct (cell_prj o) as [x|] eqn:Hx; intros; simplify_eq.
  apply cell_inj_prj in Hx. subst o. apply affords_heap. by eapply update_mild.
Qed.
Lemma s_wr {T} `{!Cell T} F `{!Fact F} (u : T -> T) p :
  (forall x, obj_le (cell_inj x) (cell_inj (u x))) ->
  (forall x, mild (cell_inj x) (cell_inj (u x))) -> silent F (wr u p).
Proof. intros. by apply s_rmw. Qed.
Lemma s_free F `{!Fact F} p : silent F (free p).
Proof. leaf. repeat case_match; intros; simplify_eq; [same|by apply affords_heap, delete_free]. Qed.

Lemma affords_alloc s s1 o :
  wf_machine s -> take_oracle s = (false, s1) -> blank owed o ->
  let s' := with_next_ptr (next_ptr s1 + 1) (with_heap (<[next_ptr s1 := o]>) s1) in
  affords s s' /\ harmless (next_ptr s1) s'.
Proof.
  intros Hwf Eo Hb. destruct (oracle_view s) as [Hv Hsp]. pose proof (evolves_oracle s Hwf) as He.
  rewrite Eo in Hv, Hsp, He; simpl in *. destruct (alloc_blank s1 o (ev_wf _ _ He) Hb) as (H1 & H2 & H3).
  split; [|done]. eapply affords_view_l; [done..|]. by split.
Qed.

(** What is known of a new object: its address may be pushed. *)
Lemma d_alloc {T} `{!Cell T} F `{!Fact F} (x : T) :
  blank owed (cell_inj x) ->
  disc (fun p => knows (fun s => F s /\ (p = NULL \/ harmless p s))) (knows F) (alloc x).
Proof.
  intros Hb. pose proof (g_alloc x) as Hg. apply guar_inv in Hg as [Hg _].
  eapply disc_act with (fun p => knows (fun s => F s /\ (p = NULL \/ harmless p s)));
    [|intros; apply stable_knows, _|intros; apply disc_ret, entails_refl].
  intros g s b s' Hwf [-> HF] Ef. exists []. pose proof (Hg _ _ _ Ef) as He.
  assert (HF' : F s') by (by eapply fact_stable).
  destruct (take_oracle s) as [[] s1] eqn:Eo; simplify_eq.
  - pose proof (oracle_view s) as [Hv Hsp]. rewrite Eo in Hv, Hsp; simpl in *.
    split; [apply affords_pays; [done|by apply affords_view]|]. split; [done|]. split; [done|by left].
  - destruct (affords_alloc s s1 _ Hwf Eo Hb) as [H1 H2].
    split; [by apply affords_pays|]. split; [done|]. split; [done|by right].
Qed.
Lemma silent_bind_alloc {T C} `{!Cell T} F `{!Fact F} (x : T) (k : ptr -> cprog C) :
  blank owed (cell_inj x) ->
  (forall p, silent (fun s => F s /\ (p = NULL \/ harmless p s)) (k p)) -> silent F (bind (alloc x) k).
Proof.
  intros Hb Hk. eapply disc_bind; [by apply d_alloc|]. intros p.
  eapply disc_post; [|apply Hk]. intros _ g s _ [-> [HF _]]. exists []. split; [lia|done].
Qed.
Lemma s_alloc {T} `{!Cell T} F `{!Fact F} (x : T) : blank owed (cell_inj x) -> silent F (alloc x).
Proof.
  intros Hb. eapply disc_post; [|by apply d_alloc].
  intros p g s _ [-> [HF _]]. exists []. split; [lia|done].
Qed.
Lemma s_push F `{!Fact F} q p :
  (forall s, F s -> harmless p s) -> silent F (lockless_treiber_stack_push q p).
Proof.
  intros Hp. apply silent_leaf; [done|apply g_rmw; intros; apply le_push|intros s b s' Hwf HF].
  unfold lookup_cell. destruct (heap s !! q) as [[]|] eqn:Ho; simpl; intros; simplify_eq.
  apply affords_heap. eapply push_harmless; eauto.
Qed.
Lemma s_eventfd F `{!Fact F} : silent F eventfd.
Proof.
  leaf. destruct (oracle_view s) as [Hv Hsp].
  destruct (take_oracle s) as [[] s1]; intros; simplify_eq/=; [by apply affords_view|].
  eapply affords_view_l; [done..|]. same.
Qed.
Lemma s_write F `{!Fact F} fd : silent F (eventfd_write_one fd).
Proof. leaf. repeat case_match; intros; simplify_eq; same. Qed.
Lemma s_read F `{!Fact F} fd : silent F (eventfd_read fd).
Proof.
  leaf. destruct (oracle_view s) as [Hv Hsp]. destruct (fds s !! fd); [|intros; simplify_eq; same].
  destruct (take_oracle s) as [[] s1]; intros; simplify_eq/=; [by apply affords_view|].
  case_bool_decide; simplify_eq. eapply affords_view_l; [done..|]. same.
Qed.
Lemma s_close F `{!Fact F} fd : silent F (close fd).
Proof. leaf. intros; simplify_eq; same. Qed.
(** Objects budgets do not look into. *)
Lemma affords_store {T} `{!Cell T} s p (x y : T) :
  wf_machine s -> lookup_cell p s = Some x -> obj_le (cell_inj x) (cell_inj y) ->
  mild (cell_inj x) (cell_inj y) -> affords s (store_cell p y s).
Proof.
  unfold lookup_cell. intros Hwf Hx Hle Hm. destruct (heap s !! p) as [o|] eqn:Ho; simpl in Hx; [|done].
  apply cell_inj_prj in Hx. subst o. apply affords_heap. by eapply update_mild.
Qed.
Lemma s_lock F `{!Fact F} t : silent F (pthread_mutex_lock t).
Proof. leaf. repeat case_match; intros; simplify_eq. by eapply affords_store. Qed.
Lemma s_unlock F `{!Fact F} t : silent F (pthread_mutex_unlock t).
Proof. leaf. repeat case_match; intros; simplify_eq. by eapply affords_store. Qed.
Lemma s_mutex_destroy F `{!Fact F} t : silent F (pthread_mutex_destroy t).
Proof. leaf. repeat case_match; intros; simplify_eq; same. Qed.
Lemma s_platform_ok F `{!Fact F} : silent F platform_ok.
Proof. leaf. destruct (oracle_view s), (take_oracle s). intros; simplify_eq/=. by apply affords_view. Qed.
Lemma s_pthread_create F `{!Fact F} c : free_of_charge owed c -> silent F (pthread_create c).
Proof.
  intros Hc. leaf. destruct (oracle_view s) as [Hv Hsp].
  destruct (take_oracle s) as [[] s1]; intros; simplify_eq/=; [by apply affords_view|].
  eapply affords_view_l; [done..|]. split; [|split; [by rewrite (stored_view s1)|by apply kept_view]].
  intros H1. apply Forall_app. split; [done|]. by constructor.
Qed.
Lemma s_pthread_join F `{!Fact F} t : silent F (pthread_join t).
Proof. leaf. repeat case_match; intros; simplify_eq; same. Qed.
Lemma s_self F `{!Fact F} : silent F pthread_self.
Proof. leaf. intros; simplify_eq; same. Qed.
Lemma s_exit F `{!Fact F} : silent F pthread_exit.
Proof. leaf. intros; simplify_eq; same. Qed.
Lemma s_tls_get {C} F `{!Fact F} (proj : tls_t -> C) : silent F (tls_get proj).
Proof. leaf. intros; simplify_eq; same. Qed.
Lemma s_tls_set F `{!Fact F} u : silent F (tls_set u).
Proof. leaf. intros; simplify_eq; same. Qed.
Lemma s_abort F `{!Fact F} : silent F abort.
Proof. leaf. done. Qed.
Lemma s_assert F `{!Fact F} : silent F assert_false.
Proof. leaf. repeat case_match; intros; simplify_eq; same. Qed.
Lemma s_share_stack_new F `{!Fact F} : silent F aco_share_stack_new.
Proof.
  leaf. destruct (oracle_view s) as [Hv Hsp]. destruct (take_oracle s) as [[] s1] eqn:Eo; intros; simplify_eq/=.
  - by apply affords_view.
  - by apply (affords_alloc s s1 OShareStack).
Qed.
Lemma s_array_get F `{!Fact F} a i : silent F (array_get a i).
Proof. leaf. repeat case_match; intros; simplify_eq; same. Qed.
Lemma s_array_set F `{!Fact F} a i v : silent F (array_set a i v).
Proof. leaf. repeat case_match; intros; simplify_eq. by eapply affords_store. Qed.
Lemma s_input F `{!Fact F} fs i : silent F (input fs i).
Proof. leaf. repeat case_match; intros; simplify_eq; same. Qed.
Lemma s_call F `{!Fact F} c : free_of_charge owed c -> silent F (call c).
Proof. intros. apply silent_Call; [done..|]. intros; apply silent_ret. Qed.
Lemma s_call_opt {D} F `{!Fact F} (f : option D) c :
  (forall d, free_of_charge owed (c d)) -> silent F (call_opt f c).
Proof. intros Hc. destruct f; [by apply s_call|apply silent_ret]. Qed.
Lemma s_when F b (p : cprog unit) : silent F p -> silent F (when b p).
Proof. destruct b; [done|]. intros; apply silent_ret. Qed.
Lemma s_for_workers F `{!Fact F} op w i : (forall x, silent F (op x)) -> silent F (for_workers op w i).
Proof.
  intros Hop. unfold for_workers. generalize (seq 0 i) as l.
  induction l; simpl; eauto using @silent_ret, @silent_bind, s_array_get.
Qed.
End Silence.

(** ** The library needs no token outside completion

    Given that completing a future does not ([complete_silent]), no function of the
    library does, except the registration of a continuation that is owed. *)
Create HintDb silent.
#[export] Hint Resolve silent_ret s_rd s_free s_eventfd s_write s_read s_close s_lock s_unlock s_mutex_destroy
  s_platform_ok s_pthread_join s_self s_exit s_tls_get s_tls_set s_abort s_assert s_share_stack_new
  s_array_get s_array_set s_input : silent.

(** Decide [obj_le] and [mild] between a struct and its update. *)
Ltac change_ok := try apply _; intros; first
  [ solve [apply le_cont_claim|apply le_cont_release|apply le_steal]
  | solve [split; [reflexivity|]; simpl; repeat split; simpl; auto; discriminate]
  | solve [split; [reflexivity|]; simpl; right; apply ts_steal_nodes]
  | case_match; solve [split; [reflexivity|]; simpl; repeat split; simpl; auto; discriminate] ].
(** A pushed address is one that was allocated before. *)
Ltac pushable :=
  try apply _; let s := fresh "s" in intros s;
  repeat match goal with |- _ /\ _ -> _ => let H := fresh in intros [H ?]; revert H end;
  intros; repeat match goal with H : _ \/ _ |- _ => destruct H as [->|] end; solve [done | exfalso; done].
Ltac head_of t := match t with ?f _ => head_of f | _ => t end.
Ltac silent_step :=
  match goal with
  | |- forall _, _ => intros
  | |- silent _ (bind (alloc _) _) => apply silent_bind_alloc
  | |- silent _ (bind _ _) => apply silent_bind
  | |- silent _ (Ret _) => apply silent_ret
  | |- silent _ (Call _ _) => apply silent_Call
  | |- silent _ (Yield _) => apply silent_yield
  | |- silent _ (when _ _) => apply s_when
  | |- silent _ (for_workers _ _ _) => apply s_for_workers
  | |- silent _ (call _) => apply s_call
  | |- silent _ (call_opt _ _) => apply s_call_opt
  | |- silent _ (pthread_create _) => apply s_pthread_create
  | |- silent _ (alloc _) => apply s_alloc
  | |- silent _ (lockless_treiber_stack_push _ _) => apply s_push; pushable
  | |- silent _ (wr _ _) => apply s_wr; change_ok
  | |- silent _ (rmw _ _) => apply s_rmw; change_ok
  | |- silent _ (xchg _ _ _ _) => apply s_rmw; change_ok
  | |- silent _ (fetch_add_int _ _ _ _) => apply s_rmw; change_ok
  | |- silent _ (fetch_sub_size _ _ _ _) => apply s_rmw; change_ok
  | |- free_of_charge _ _ => first [exact I | assumption | reflexivity]
  | |- Fact _ => apply _
  | |- blank _ _ => solve [simpl; auto using ts_create_nodes | assumption]
  | |- silent _ _ => solve [auto with silent nocore typeclass_instances]
  | |- silent _ (match ?x with _ => _ end) => destruct x eqn:?
  | |- silent _ ?p => let f := head_of p in unfold f
  end.
Ltac silent := repeat silent_step.

Section Library.
Context {E : Ext} {TS : TreiberSpec E} {B : Budget}.
Hypothesis complete_silent : forall F `{!Fact F} f r, silent F (sFutureComplete f r).
#[local] Hint Resolve complete_silent : silent.

Lemma s_sTokenRelease F `{!Fact F} t : silent F (sTokenRelease t).
Proof. silent. Qed.
Lemma s_Unregister F `{!Fact F} h : silent F (UfsrvCancellationTokenUnregister h).
Proof. silent. Qed.
Lemma s_RegisterEx F `{!Fact F} t c x r : silent F (UfsrvCancellationTokenRegisterEx t c x r).
Proof. silent. Qed.
Lemma s_Submit F `{!Fact F} s c x : silent F (UfsrvSchedulerSubmit s c x).
Proof. silent. Qed.
#[local] Hint Resolve s_sTokenRelease s_Unregister s_RegisterEx s_Submit : silent.

Lemma s_PoolCreate_loop F `{!Fact F} n p w i todo : silent F (PoolCreate_loop n p w i todo).
Proof. revert i; induction todo; intros i; simpl; silent. Qed.
Lemma s_PoolStart_loop F `{!Fact F} w i todo : silent F (PoolStart_loop w i todo).
Proof. revert i; induction todo; intros i; simpl; silent. Qed.
Lemma s_sDrainWaiters_loop F `{!Fact F} l : silent F (sDrainWaiters_loop l).
Proof. induction l; simpl; silent. Qed.
Lemma s_release_continuations F `{!Fact F} l : silent F (release_continuations l).
Proof. induction l; simpl; silent. Qed.
Lemma s_release_waiters F `{!Fact F} l : silent F (release_waiters l).
Proof. induction l; simpl; silent. Qed.
#[local] Hint Resolve s_PoolCreate_loop s_PoolStart_loop s_sDrainWaiters_loop s_release_continuations
  s_release_waiters : silent.
Lemma s_Release F `{!Fact F} f : silent F (UfsrvFutureRelease f).
Proof. silent. Qed.
(** Registering a continuation that is not owed. *)
Lemma s_sFutureThen F `{!Fact F} f fn x :
  owed fn x = false -> silent F (sFutureThen f (Some fn) x).
Proof. intros Ho. silent. Qed.
#[local] Hint Resolve s_Release : silent.
Lemma s_SetResult F `{!Fact F} p r : silent F (UfsrvPromiseSetResult p r).
Proof. silent. Qed.
Lemma s_PromiseDestroy F `{!Fact F} p : silent F (UfsrvPromiseDestroy p).
Proof. silent. Qed.
Lemma s_PromiseCreate F `{!Fact F} b : silent F (UfsrvPromiseCreate b).
Proof. silent. Qed.
Lemma s_Attach F `{!Fact F} f t : silent F (UfsrvFutureAttachCancellation f t).
Proof. silent. Qed.
#[local] Hint Resolve s_SetResult s_PromiseDestroy s_PromiseCreate s_Attach : silent.

(** The continuations the library itself registers are never owed. *)
Lemma not_owed fn x : (forall n, fn <> CB_user n) -> owed fn x = false.
Proof. intros Hn. destruct (owed fn x) eqn:Ho; [|done]. by apply owed_user in Ho as [n ->]; destruct (Hn n). Qed.
Lemma s_then_internal F `{!Fact F} f fn x :
  (forall n, fn <> CB_user n) -> silent F (sFutureThen f (Some fn) x).
Proof. intros. by apply s_sFutureThen, not_owed. Qed.
Lemma s_Then_internal F `{!Fact F} f fn x :
  (forall n, fn <> CB_user n) -> silent F (UfsrvFutureThen f (Some fn) x).
Proof. intros. unfold UfsrvFutureThen. case_match; [apply silent_ret|by apply s_then_internal]. Qed.
#[local] Hint Extern 2 (silent _ (sFutureThen _ (Some _) _)) => apply s_then_internal; [apply _|done] : silent.
#[local] Hint Extern 2 (silent _ (UfsrvFutureThen _ (Some _) _)) => apply s_Then_internal; [apply _|done] : silent.

Lemma s_All_loop F `{!Fact F} c fs i todo : silent F (All_loop c fs i todo).
Proof. revert i; induction todo; intros i; simpl; silent. Qed.
Lemma s_Any_loop F `{!Fact F} c fs i todo : silent F (Any_loop c fs i todo).
Proof. revert i; induction todo; intros i; simpl; silent. Qed.
#[local] Hint Resolve s_All_loop s_Any_loop : silent.

Lemma api_silent r A (p : cprog A) F `{!Fact F} : api_call r A p -> cost owed r = 0 -> silent F p.
Proof.
  destruct 1; intros Hr; try solve [silent].
  unfold UfsrvFutureThen. destruct c as [fn|]; [|silent]. simpl in Hr.
  destruct (owed fn x) eqn:Ho; [done|]. case_match; [apply silent_ret|by apply s_sFutureThen].
Qed.
(** Registering an owed continuation takes the ticket. *)
Hypothesis then_pays : forall f fn x, owed fn x = true ->
  disc (fun _ => nothing) (fun g _ => g = [ticket]) (UfsrvFutureThen f (Some fn) x).

Definition tickets (n : nat) : assertion := fun g _ => g = replicate n ticket.
Lemma stable_tickets n : stable (tickets n).
Proof. by intros g s s' _ _. Qed.

Lemma api_disc r A (p : cprog A) : api_call r A p -> disc (fun _ => nothing) (tickets (cost owed r)) p.
Proof.
  intros Hp. destruct (cost owed r) as [|m] eqn:Hc.
  - eapply disc_pre; [|eapply disc_post; [|by eapply (api_silent r A p (fun _ => True))]].
    + intros g s _ ->. by exists [].
    + intros a g s _ [-> _]. by exists [].
  - unfold cost in Hc. destruct Hp; try done. destruct c as [fn|]; simpl in Hc; [|done].
    destruct (owed fn x) eqn:Ho; [|done]. injection Hc as <-. by apply then_pays.
Qed.

Lemma script_disc {A} n (p : cprog A) : script owed n p -> disc (fun _ => nothing) (tickets n) p.
Proof.
  induction 1 as [n a|n r D p k Hp _ IH].
  - apply disc_ret. intros g s _ _. exists []. split; [simpl; lia|done].
  - eapply disc_pre; [|eapply disc_bind; [eapply disc_frame; [by apply api_disc|apply (stable_tickets n)]|]].
    + intros g s _ ->. exists (replicate (cost owed r + n) ticket). split; [done|].
      exists (replicate (cost owed r) ticket), (replicate n ticket). by rewrite replicate_add.
    + intros d. eapply disc_pre; [|apply IH]. intros g s _ (g1 & g2 & -> & -> & H2). by exists g2.
Qed.

Lemma silent_nothing {A} (p : cprog A) : silent (fun _ => True) p -> disc (fun _ => nothing) nothing p.
Proof.
  intros Hs. eapply disc_pre; [|eapply disc_post; [|exact Hs]].
  - intros g s _ ->. by exists [].
  - intros a g s _ [-> _]. by exists [].
Qed.

(** The whole code table, callbacks and loops of the library included. *)
Lemma body_disc client : client_scripts owed client ->
  forall c, disc (fun _ => nothing) nothing (body client c).
Proof.
  intros Hc c. specialize (Hc c).
  destruct c as [[]| | | | | | |[]|[]| | | | | | | | | | |]; try exact (script_disc 0 _ Hc); clear Hc;
    apply silent_nothing; simpl; silent.
Qed.

(** A pool of scripts is solvent from the start. *)
Lemma worth_tickets m s : worth (replicate m ticket) s = m.
Proof. induction m as [|m IH]; simpl; [done|]. by rewrite held_ticket, IH. Qed.
Lemma purse_tickets regs (ths : gmap N (cprog ptr)) s :
  purse (map_imap (fun t _ => Some (replicate (regs t) ticket)) ths) s = registrations regs ths.
Proof.
  induction ths as [|t p ths Hn IH] using map_ind; [by rewrite map_imap_empty|].
  unfold registrations. rewrite map_fold_insert_L; [|intros; lia|done]. fold (registrations regs ths).
  rewrite map_imap_insert_Some with (y := replicate (regs t) ticket) by done.
  rewrite purse_insert, delete_id, IH, worth_tickets; [done|].
  by rewrite map_lookup_imap, Hn.
Qed.
Lemma scripts_solvent (c : config) regs n :
  wf_machine (shared c) -> spawns_free (shared c) ->
  (forall t p, threads c !! t = Some p -> script owed (regs t) p) ->
  stored (shared c) + registrations regs (threads c) <= n -> solvent n c.
Proof.
  intros Hwf Hsp Hth Hn. split; [done..|].
  exists (map_imap (fun t _ => Some (replicate (regs t) ticket)) (threads c)).
  rewrite purse_tickets. split; [done|].
  intros t p Hp. exists (replicate (regs t) ticket), (tickets (regs t)).
  rewrite map_lookup_imap, Hp. split; [done|]. split; [apply stable_tickets|]. split; [|done].
  eapply disc_post; [|by eapply script_disc, Hth]. intros a g s _ _. exists []. split; [simpl; lia|done].
Qed.
End Library.
#[export] Hint Resolve s_sTokenRelease s_Unregister s_RegisterEx s_Submit s_sDrainWaiters_loop
  s_release_continuations s_release_waiters s_Release : silent.
