(* ===== verification/Race.v ===== *)
(** * Race: three threads on one future

    Thread 0 fulfils a promise, thread 1 cancels the token its future is attached to,
    thread 2 registers a continuation: the executions the witnesses of the
    concurrent theorems look at. *)
From S2P Require Import Prelude Machine Uflib Model Cancellation Scheduler Coroutine Future Waiting.
From S2P Require Import Operators Combinators Dispatch Logic Guarantee Interleave Discipline.
Local Open Scope prog_scope.
Import RefExt.
#[local] Existing Instance RefExt.treiber.

Definition setup : cprog ptr :=
  let! pf := UfsrvPromiseCreate false in
  let! t := UfsrvCancellationTokenCreate in
  let! _ := UfsrvFutureAttachCancellation pf.2 t in
  Ret NULL.
Definition start_st : st :=
  match run (body quiet_client) log 100 setup boot with Done _ s => s | _ => boot end.
(** The addresses [boot] hands out. *)
Definition fut : ptr := 1%N.
Definition prm : ptr := 2%N.
Definition tok : ptr := 5%N.

Definition fulfil : cprog ptr :=
  let! _ := UfsrvPromiseSetValue prm 77%N (Some FREE_libc) in Ret NULL.
Definition cancel : cprog ptr := let! _ := UfsrvCancellationTokenCancel tok in Ret NULL.
Definition register : cprog ptr := let! _ := UfsrvFutureThen fut (Some (CB_user 9)) 42%N in Ret NULL.
Definition c0 : config := Config (<[0%N := fulfil]> (<[1%N := cancel]> (<[2%N := register]> ∅))) start_st.
Definition after (sch : list N) : config := default c0 (irun quiet_client sch c0).

Lemma after_sound sch : bool_decide (is_Some (irun quiet_client sch c0)) = true ->
  rtc (istep quiet_client) c0 (after sch).
Proof.
  intros Hs%bool_decide_eq_true_1. destruct Hs as [c Hc]. unfold after; rewrite Hc; simpl.
  by eapply irun_sound.
Qed.
Lemma after_more sch sch' : bool_decide (is_Some (irun quiet_client (sch ++ sch') c0)) = true ->
  rtc (istep quiet_client) (after sch) (after (sch ++ sch')).
Proof.
  intros [c Hc]%bool_decide_eq_true_1. unfold after. rewrite Hc. rewrite irun_app in Hc.
  destruct (irun quiet_client sch c0) as [c1|]; [|done]. simpl in *. by eapply irun_sound.
Qed.

Lemma c0_wf : wf_machine (shared c0).
Proof.
  change (shared c0) with start_st. unfold start_st. destruct (run _ _ _ _ _) eqn:Er; try apply boot_wf.
  eapply evolves_run_done; [apply quiet_guar| |exact Er|apply boot_wf].
  apply guar_bind; [apply (api_guar _ _ (api_promise_create _))|intros pf].
  apply guar_bind; [apply (api_guar _ _ api_token_create)|intros t].
  apply guar_bind; [apply (api_guar _ _ (api_attach _ _))|intros; apply guar_ret].
Qed.

(** Thread 2 makes one registration, the others none. *)
Definition regs (owed : fut_cb -> ptr -> bool) (t : N) : nat :=
  if bool_decide (t = 2%N) then cost owed (Some (CB_user 9, 42%N)) else 0.
Lemma c0_scripts owed t p : threads c0 !! t = Some p -> script owed (regs owed t) p.
Proof.
  unfold c0; simpl.
  intros [[<- <-]|[_ [[<- <-]|[_ [[<- <-]|[_ Hp]]%lookup_insert_Some]]%lookup_insert_Some]]%lookup_insert_Some;
    [| | |done]; unfold regs; simpl.
  - apply (script_call owed 0 None); [constructor|intros; apply script_ret].
  - apply (script_call owed 0 None); [constructor|intros; apply script_ret].
  - rewrite <- (Nat.add_0_r (if owed _ _ then 1 else 0)).
    apply (script_call owed 0 (Some (CB_user 9, 42%N))); [|intros; apply script_ret].
    apply (api_then fut (Some (CB_user 9)) 42%N).
Qed.

(** No continuation is registered at the start, and every stack is empty. *)
Lemma c0_objects p o : heap (shared c0) !! p = Some o ->
  match o with OFuture x => fut_state x = PENDING | OContinuation _ => False | OStack t => ts_nodes t = [] | _ => True end.
Proof.
  intros Ho. assert (Hall : map_Forall (fun _ o => match o with OFuture x => bool_decide (fut_state x = PENDING) = true
    | OContinuation _ => False | OStack t => ts_nodes t = [] | _ => True end) (heap (shared c0))).
  { apply map_Forall_to_list. vm_compute. repeat constructor. }
  specialize (Hall p o Ho). destruct o; try done. by apply bool_decide_eq_true_1 in Hall.
Qed.
