(* ===== verification/Publication.v ===== *)
(** * Publication: completion under concurrency

    The budget of one future: as long as it is not completed the state holds one
    token; whoever raises [is_completed] takes it, and gives it back when the state
    becomes READY.  Only the thread in between may write a result. *)
From S2P Require Import Prelude Machine Uflib Model Cancellation Scheduler Coroutine Future Waiting.
From S2P Require Import Operators Combinators Dispatch Logic Guarantee Interleave Discipline Race.

Local Open Scope prog_scope.

Section OneFuture.
Context {E : Ext} {TS : TreiberSpec E} (f : ptr).

Definition cell_worth (x : UfsrvFuture) : nat :=
  (if fut_is_completed x then 0 else 1) + (if bool_decide (fut_state x = READY) then 1 else 0).
Definition publish_stored (s : st) : nat :=
  if bool_decide (next_ptr s <= f)%N then 1
  else match heap s !! f with Some (OFuture x) => cell_worth x | _ => 0 end.
(** What a thread that is not publishing may do to the result: leave it, or move it
    out. *)
Definition publish_kept (s s' : st) : Prop :=
  forall x y, heap s !! f = Some (OFuture x) -> heap s' !! f = Some (OFuture y) ->
    fut_result y = fut_result x \/ fut_result y = zero_result.

Lemma publish_elsewhere (s s' : st) :
  next_ptr s' = next_ptr s -> heap s' !! f = heap s !! f ->
  publish_stored s' <= publish_stored s /\ publish_kept s s'.
Proof.
  intros Hn Hh. split; [unfold publish_stored; by rewrite Hn, Hh|].
  intros x y Hx Hy. left. congruence.
Qed.

(** An update costs nothing unless it completes the future or changes its result. *)
Lemma publish_update s p o o' : heap s !! p = Some o ->
  match o' with
  | OFuture y => exists x, o = OFuture x /\ cell_worth y <= cell_worth x /\
                   (fut_result y = fut_result x \/ fut_result y = zero_result)
  | _ => True
  end ->
  publish_stored (with_heap (<[p := o']>) s) <= publish_stored s /\
  publish_kept s (with_heap (<[p := o']>) s).
Proof.
  intros Ho Hm. destruct (decide (p = f)) as [->|Hne].
  2: by apply publish_elsewhere; [|simpl; rewrite lookup_insert_ne].
  unfold publish_stored, publish_kept; simpl. rewrite lookup_insert_eq, Ho. split.
  - case_bool_decide; [done|]. destruct o'; try lia. destruct Hm as (y & -> & Hle & _). done.
  - intros x y Hx Hy. simplify_eq. destruct Hm as (z & ? & _ & Hr). by simplify_eq.
Qed.
Lemma publish_mild s p o o' : heap s !! p = Some o -> mild o o' ->
  publish_stored (with_heap (<[p := o']>) s) <= publish_stored s /\
  publish_kept s (with_heap (<[p := o']>) s).
Proof.
  intros Ho [Hk Hm]. eapply publish_update; [done|]. destruct o' as [y| | | | | | | | | | | | | | | | | | | | | | | |]; try done.
  destruct o as [x| | | | | | | | | | | | | | | | | | | | | | | |]; try done. destruct Hm as (H1 & H2 & H3).
  exists x. unfold cell_worth. rewrite H1, H2. auto.
Qed.

Lemma publish_delete s p :
  publish_stored (with_heap (delete p) s) <= publish_stored s /\ publish_kept s (with_heap (delete p) s).
Proof.
  destruct (decide (p = f)) as [->|Hne].
  2: by apply publish_elsewhere; [|simpl; rewrite lookup_delete_ne].
  unfold publish_stored, publish_kept; simpl. rewrite lookup_delete_eq. split; [|done].
  case_bool_decide; [done|]. repeat case_match; lia.
Qed.

Lemma publish_alloc s o : wf_machine s -> blank (fun _ _ => false) o ->
  let s' := with_next_ptr (next_ptr s + 1) (with_heap (<[next_ptr s := o]>) s) in
  publish_stored s' <= publish_stored s /\ publish_kept s s' /\ True.
Proof.
  intros Hwf Hb s'. assert (Hnone : heap s !! next_ptr s = None) by (apply Hwf; lia).
  split; [|split; [|done]].
  - unfold publish_stored, s'; simpl. destruct (decide (f = next_ptr s)) as [->|Hne].
    + rewrite lookup_insert_eq. rewrite bool_decide_eq_false_2, bool_decide_eq_true_2 by lia.
      destruct o as [x| | | | | | | | | | | | | | | | | | | | | | | |]; try lia. destruct Hb as [H1 H2].
      unfold cell_worth. by rewrite H1, H2.
    + rewrite lookup_insert_ne by done. repeat case_bool_decide; lia.
  - intros x y Hx Hy. simpl in Hy. apply lookup_insert_Some in Hy as [[<- _]|[_ Hy]]; [congruence|left; congruence].
Qed.

#[local] Instance publishing : Budget.
Proof.
  refine {| token := unit; ticket := tt; held _ _ := 1; stored := publish_stored; kept := publish_kept;
            harmless _ _ := True; owed _ _ := false |}; try done.
  - intros s s' (Hh & Hn & _). unfold publish_stored. by rewrite Hh, Hn.
  - intros s s' (Hh & Hn & _). apply publish_elsewhere; congruence.
  - intros s s1 s' (Hh & _) Hk x y Hx Hy. apply Hk; [by rewrite Hh|done].
  - intros c s _. unfold log. destruct (is_loop c); by apply publish_elsewhere.
  - intros s p o o' _ Ho _ Hm. by eapply publish_mild.
  - intros s p _. apply publish_delete.
  - apply publish_alloc.
  - intros s q t p Hwf Hq _. by eapply publish_update.
Defined.

(** The steps of other completions. *)
Lemma s_future_elsewhere {C} F `{!Fact F} (g : UfsrvFuture -> C * UfsrvFuture) p :
  p <> f -> (forall x, obj_le (OFuture x) (OFuture (g x).2)) -> silent F (rmw g p).
Proof.
  intros Hne Hg. apply disc_rmw; [done|intros; by apply stable_knows|].
  intros l s x Hwf [-> HF] Hx s'. exists []. destruct (publish_elsewhere s s') as [H1 H2].
  - done.
  - simpl. by rewrite lookup_insert_ne.
  - split; [simpl; lia|]. split; [done|]. split; [done|].
    eapply fact_stable; [exact Hwf|eapply evolves_update; [exact Hx|apply Hg]|done].
Qed.

Lemma s_DrainContinuations F `{!Fact F} g : silent F (sDrainContinuations g).
Proof.
  assert (Hl : forall l, silent F (sDrainContinuations_loop g l)) by (induction l; simpl; silent).
  silent; apply Hl.
Qed.
#[local] Hint Resolve s_DrainContinuations : silent.

(** Everything [sFutureComplete] does after it has published. *)
Definition after_publication (g : ptr) : cprog bool :=
  let! handle := xchg fut_cancel_handle set_fut_cancel_handle NULL g in
  (if negb (is_null handle)
   then let! _ := UfsrvCancellationTokenUnregister handle in Ret tt
   else Ret tt) ;;
  sDrainWaiters g ;;
  sDrainContinuations g ;;
  Ret true.

Lemma s_after_publication F `{!Fact F} g : silent F (after_publication g).
Proof. silent. Qed.

Definition publisher F (won : bool) : assertion :=
  fun l s => l = (if won then [tt] else []) /\ F s.
Lemma stable_publisher F `{!Fact F} b : stable (publisher F b).
Proof. intros l s s' Hwf He [-> HF]. split; [done|]. by eapply fact_stable. Qed.

Lemma worth_cell s (x : UfsrvFuture) : wf_machine s -> heap s !! f = Some (OFuture x) ->
  publish_stored s = cell_worth x.
Proof.
  intros Hwf Hx. unfold publish_stored. rewrite bool_decide_eq_false_2, Hx; [done|].
  intros Hle. by rewrite (proj2 (wm_alloc _ Hwf)) in Hx.
Qed.
(** One step of the publication of [f]: [won] and [won'] say who holds the token. *)
Lemma d_publish {C} F `{!Fact F} (g : UfsrvFuture -> C * UfsrvFuture) won (won' : C -> bool) :
  (forall x, obj_le (OFuture x) (OFuture (g x).2)) ->
  (forall x, cell_worth (g x).2 + (if won' (g x).1 then 1 else 0) <= cell_worth x + (if won : bool then 1 else 0)) ->
  (forall x, won = false -> fut_result (g x).2 = fut_result x) ->
  disc (fun c => publisher F (won' c)) (publisher F won) (rmw g f).
Proof.
  intros Hg Hw Hr. apply disc_rmw; [done|intros; by apply stable_publisher|].
  intros l s x Hwf [-> HF] Hx s'. exists (if won' (g x).1 then [tt] else []). simpl cell_inj in Hx.
  assert (He : evolves s s') by (eapply evolves_update; [exact Hx|apply Hg]).
  assert (Hx' : heap s' !! f = Some (OFuture (g x).2)) by (simpl; by rewrite lookup_insert_eq).
  pose proof (worth_cell s x Hwf Hx) as W1. pose proof (worth_cell s' _ (ev_wf _ _ (He Hwf)) Hx') as W2.
  simpl stored. rewrite W1, W2. split; [|split].
  - specialize (Hw x). destruct (won' (g x).1), won; simpl; lia.
  - intros H0 y z Hy Hz. left. destruct won; [simpl in H0; lia|]. rewrite Hy in Hx. rewrite Hz in Hx'.
    simplify_eq. by apply Hr.
  - split; [done|]. by eapply fact_stable.
Qed.

Lemma publish_complete_here F `{!Fact F} r : silent F (sFutureComplete f r).
Proof.
  eapply (disc_bind (fun already => publisher F (negb already))).
  { apply (d_publish F _ false negb); [|intros x; unfold cell_worth; simpl|done].
    - intros x; split; [reflexivity|]; split; simpl; auto.
    - destruct (fut_is_completed x); simpl; lia. }
  intros []; [apply disc_ret, entails_refl|].
  eapply (disc_bind (fun _ => publisher F true)).
  { apply (d_publish F _ true (fun _ => true)); [|intros x; unfold cell_worth; simpl; lia|done].
    intros x; split; [reflexivity|]; split; simpl; auto. }
  intros _. eapply (disc_bind (fun _ => publisher F false)); [|intros _; by apply s_after_publication].
  apply (d_publish F _ true (fun _ => false)); [|intros x; unfold cell_worth; simpl|done].
  - intros x; split; [reflexivity|]; split; simpl; auto.
  - case_bool_decide; simpl; lia.
Qed.

Lemma publish_complete F `{!Fact F} g r : silent F (sFutureComplete g r).
Proof.
  destruct (decide (g = f)) as [->|Hne]; [by apply publish_complete_here|].
  unfold sFutureComplete, xchg, wr. apply silent_bind.
  { apply s_future_elsewhere; [done..|]. intros x; split; [reflexivity|]; split; simpl; auto. }
  intros []; [apply silent_ret|]. apply silent_bind.
  { apply s_future_elsewhere; [done..|]. intros x; split; [reflexivity|]; split; simpl; auto. }
  intros _. apply silent_bind; [|intros _; by apply s_after_publication].
  apply s_future_elsewhere; [done..|]. intros x; split; [reflexivity|]; split; simpl; auto.
Qed.

Lemma publishing_solvent client (c : config) :
  wf_machine (shared c) ->
  (forall t p, threads c !! t = Some p -> script (fun _ _ => false) 0 p) ->
  (forall z, heap (shared c) !! f = Some (OFuture z) -> fut_state z = READY -> fut_is_completed z = true) ->
  client_scripts (fun _ _ => false) client -> solvent 1 c.
Proof.
  intros Hwf Hth Hz Hcl. apply (scripts_solvent publish_complete) with (fun _ => 0); try done.
  - apply Forall_forall. intros [t k] _. by destruct k.
  - rewrite registrations_none. simpl stored. unfold publish_stored. case_bool_decide; [lia|].
    destruct (heap (shared c) !! f) as [[z| | | | | | | | | | | | | | | | | | | | | | | |]|] eqn:Hf; try lia.
    unfold cell_worth. specialize (Hz z eq_refl). case_bool_decide; [rewrite Hz by done|]; destruct (fut_is_completed z); lia.
Qed.

(** READY means that the token is back in the state. *)
Lemma ready_stored c x : solvent 1 c -> heap (shared c) !! f = Some (OFuture x) -> fut_state x = READY ->
  fut_is_completed x = true /\ stored (shared c) = 1.
Proof.
  intros [Hwf _ (gs & Hn & _)] Hx Hr. simpl stored in *. rewrite (worth_cell _ _ Hwf Hx) in *.
  unfold cell_worth in *. rewrite bool_decide_eq_true_2 in * by done.
  destruct (fut_is_completed x); [done|lia].
Qed.

Lemma live_before s s' y : wf_machine s -> evolves s s' -> (f < next_ptr s)%N ->
  heap s' !! f = Some (OFuture y) -> exists x, heap s !! f = Some (OFuture x) /\ fut_le x y.
Proof.
  intros Hwf He Hlt Hy. destruct (ev_heap _ _ (He Hwf) f _ Hlt Hy) as (o & Ho & Hk & Hle).
  destruct o as [x| | | | | | | | | | | | | | | | | | | | | | | |]; try done. by exists x.
Qed.

Lemma publishing_body client : client_scripts (fun _ _ => false) client ->
  forall k, disc (fun _ => nothing) nothing (body client k).
Proof. intros Hcl. by apply (body_disc publish_complete). Qed.

Definition published_as (r : UfsrvFutureResult) (c : config) : Prop :=
  solvent 1 c /\ (f < next_ptr (shared c))%N /\
  forall y, heap (shared c) !! f = Some (OFuture y) ->
    fut_state y = READY /\ (fut_result y = r \/ fut_result y = zero_result).

Lemma published_stays client c1 c2 x : client_scripts (fun _ _ => false) client ->
  solvent 1 c1 -> heap (shared c1) !! f = Some (OFuture x) -> fut_state x = READY ->
  rtc (istep client) c1 c2 -> published_as (fut_result x) c2.
Proof.
  intros Hcl Hs Hx Hr. apply (rtc_ind_r (published_as (fut_result x))).
  - split; [done|]. split; [|intros y Hy; simplify_eq; by auto].
    apply N.lt_nge. intros Hle. by rewrite (proj2 (wm_alloc _ (sv_wf _ _ Hs))) in Hx.
  - intros c c' _ Hstep (Hs1 & Hlt & IH).
    destruct (istep_pays client (publishing_body client Hcl) 1 c c' Hs1 Hstep) as (Hs2 & He & Hkept).
    pose proof (ev_next _ _ (He (sv_wf _ _ Hs1))). split; [done|]. split; [lia|]. intros z Hz.
    destruct (live_before _ _ z (sv_wf _ _ Hs1) He Hlt Hz) as (y & Hy & Hle).
    destruct (IH y Hy) as [Hry Hres]. split; [by apply Hle|].
    destruct (ready_stored c y Hs1 Hy Hry) as [_ H1]. destruct (Hkept H1 y z Hy Hz) as [->| ->]; auto.
Qed.
End OneFuture.


(** C9.  A future is published once.  Whatever client programs run on however many
    threads, in whatever order their steps are interleaved (a fulfilment, a second
    fulfilment, a cancellation, the destruction of the promise, operators that move
    the value out): from the moment a future is READY it stays completed and READY,
    and its result stays the one it was published with, unless it is moved out
    (leaving the empty result).  No later completion replaces it. *)
Theorem future_published_once {E : Ext} {TS : TreiberSpec E} client f c0 c1 c2 x y :
  client_scripts (fun _ _ => false) client ->
  (forall t p, threads c0 !! t = Some p -> script (fun _ _ => false) 0 p) ->
  wf_machine (shared c0) ->
  (forall z, heap (shared c0) !! f = Some (OFuture z) -> fut_state z = READY -> fut_is_completed z = true) ->
  rtc (istep client) c0 c1 -> rtc (istep client) c1 c2 ->
  heap (shared c1) !! f = Some (OFuture x) -> fut_state x = READY ->
  heap (shared c2) !! f = Some (OFuture y) ->
  fut_is_completed y = true /\ fut_state y = READY /\
  (fut_result y = fut_result x \/ fut_result y = zero_result).
Proof.
  intros Hcl Hth Hwf Hz H01 H12 Hx Hr Hy.
  pose proof (publishing_solvent f client c0 Hwf Hth Hz Hcl) as H0.
  destruct (isteps_pay client (publishing_body f client Hcl) 1 c0 c1 H0 H01) as [H1 _].
  destruct (published_stays f client c1 c2 x Hcl H1 Hx Hr H12) as (H2 & _ & Hall).
  destruct (Hall y Hy) as [Hry Hres]. split; [|done]. by eapply (ready_stored f c2 y H2).
Qed.

(** Thread 1 cancels the future thread 0 has just fulfilled: the value stays. *)
#[local] Existing Instances RefExt.ext RefExt.treiber.
Definition fulfilled : config := Race.after (replicate 5 0%N).
Definition then_cancelled : config := Race.after (replicate 5 0%N ++ replicate 21 1%N).
Definition future_in (c : config) : option UfsrvFuture :=
  match heap (shared c) !! Race.fut with Some (OFuture x) => Some x | _ => None end.
Lemma future_in_heap c x : future_in c = Some x -> heap (shared c) !! Race.fut = Some (OFuture x).
Proof. unfold future_in. intros H. repeat case_match; by simplify_eq. Qed.

Lemma future_published_once_witness :
  exists x y, future_in fulfilled = Some x /\ future_in then_cancelled = Some y /\
    fut_result x = MkResult 0 77%N (Some FREE_libc) /\
    trace (shared then_cancelled) = [K_cancel_cb CC_sFutureCancelCallback Race.fut] /\
    fut_is_completed y = true /\ fut_state y = READY /\
    (fut_result y = fut_result x \/ fut_result y = zero_result).
Proof.
  eexists _, _. split; [vm_compute; reflexivity|]. split; [vm_compute; reflexivity|].
  split; [reflexivity|]. split; [vm_compute; reflexivity|].
  apply (future_published_once quiet_client Race.fut Race.c0 fulfilled then_cancelled).
  - apply quiet_scripts.
  - intros t p Hp. pose proof (Race.c0_scripts (fun _ _ => false) t p Hp) as Hs.
    unfold Race.regs in Hs. by case_bool_decide.
  - apply Race.c0_wf.
  - intros z Hz Hr. pose proof (Race.c0_objects _ _ Hz) as Hp. simpl in Hp. congruence.
  - apply Race.after_sound. vm_compute. reflexivity.
  - apply Race.after_more. vm_compute. reflexivity.
  - apply future_in_heap. vm_compute. reflexivity.
  - reflexivity.
  - apply future_in_heap. vm_compute. reflexivity.
Defined.
