(* ===== verification/Delivery.v ===== *)
(** * Delivery: continuations under concurrency

    The budget of one continuation, the client's [k]-th function with context [u]: a
    registration costs a token, which the node keeps while it waits in a stack or in
    a detached chain; claiming the node takes the token out, and the call spends it. *)
From S2P Require Import Prelude Machine Uflib Model Cancellation Scheduler Coroutine Future Waiting.
From S2P Require Import Operators Combinators Dispatch Logic Guarantee Interleave Discipline Race.
Local Open Scope prog_scope.

Section OneContinuation.
Context {E : Ext} {TS : TreiberSpec E} (k : N) (u : ptr).

(** Registrations of the continuation, and its calls in the history. *)
Definition is_it (fn : fut_cb) (x : ptr) : bool := bool_decide (fn = CB_user k /\ x = u).
Definition is_delivery (c : code) : bool :=
  match c with K_future_cb fn _ x => is_it fn x | _ => false end.
Definition deliveries (s : st) : nat := length (List.filter is_delivery (trace s)).

(** A node that is still to be delivered is worth one token (an address that was
    never allocated could become one). *)
Definition node_worth (s : st) (n : ptr) : nat :=
  if bool_decide (next_ptr s <= n)%N then 1
  else match heap s !! n with
       | Some (OContinuation x) =>
           if is_it (cont_fn x) (cont_user x) && negb (tn_claimed (cont_base x)) then 1 else 0
       | _ => 0
       end.
Fixpoint chain_worth (s : st) (l : list ptr) : nat :=
  match l with [] => 0 | n :: l => node_worth s n + chain_worth s l end.
Definition obj_worth (s : st) (o : obj) : nat :=
  match o with OStack t => chain_worth s (ts_nodes t) | _ => 0 end.
Definition heap_worth (s : st) (h : gmap N obj) : nat :=
  map_fold (fun _ o a => obj_worth s o + a) 0 h.
Definition delivery_stored (s : st) : nat := deliveries s + heap_worth s (heap s).

Lemma heap_worth_insert s p o h : h !! p = None ->
  heap_worth s (<[p := o]> h) = obj_worth s o + heap_worth s h.
Proof. intros Hp. unfold heap_worth. rewrite map_fold_insert_L; [done|intros; lia|done]. Qed.
Lemma heap_worth_delete s p o h : h !! p = Some o ->
  heap_worth s h = obj_worth s o + heap_worth s (delete p h).
Proof.
  intros Hp. rewrite <- (heap_worth_insert s p o (delete p h)) by apply lookup_delete_eq.
  by rewrite insert_delete_id.
Qed.
Lemma heap_worth_update s p o o' h : h !! p = Some o ->
  heap_worth s (<[p := o']> h) + obj_worth s o = heap_worth s h + obj_worth s o'.
Proof.
  intros Hp. rewrite (heap_worth_delete s p o h) by done. rewrite <- insert_delete_eq.
  rewrite heap_worth_insert by apply lookup_delete_eq. lia.
Qed.

Lemma node_worth_anti s s' n : wf_machine s -> evolves s s' -> node_worth s' n <= node_worth s n.
Proof.
  intros Hwf He. specialize (He Hwf). pose proof (ev_next _ _ He). unfold node_worth.
  destruct (decide (next_ptr s <= n)%N) as [Hle|Hlt].
  - rewrite (bool_decide_eq_true_2 (next_ptr s <= n)%N) by done. case_bool_decide; repeat case_match; lia.
  - rewrite !bool_decide_eq_false_2 by lia. destruct (heap s' !! n) as [o'|] eqn:Ho'; [|lia].
    destruct (ev_heap _ _ He n o') as (o & Ho & Hk & Hle); [lia|done|]. rewrite Ho.
    destruct o' as [| |y| | | | | | | | | | | | | | | | | | | | | |]; try lia.
    destruct o as [| |x| | | | | | | | | | | | | | | | | | | | | |]; try done.
    destruct Hle as [H1 H2 H3]. rewrite H2, H3. destruct (is_it _ _); simpl; [|done].
    destruct (tn_claimed (cont_base x)); [|repeat case_match; simpl; lia]. by rewrite H1.
Qed.
Lemma chain_worth_anti s s' l : wf_machine s -> evolves s s' -> chain_worth s' l <= chain_worth s l.
Proof.
  intros Hwf He. induction l as [|n l IH]; simpl; [done|]. pose proof (node_worth_anti s s' n Hwf He). lia.
Qed.
Lemma heap_worth_anti s s' h : wf_machine s -> evolves s s' -> heap_worth s' h <= heap_worth s h.
Proof.
  intros Hwf He. induction h as [|p o h Hn IH] using map_ind; [done|].
  rewrite !heap_worth_insert by done.
  assert (obj_worth s' o <= obj_worth s o) by (destruct o; try done; by apply chain_worth_anti). lia.
Qed.
Lemma node_worth_ext s s' n : next_ptr s' = next_ptr s -> heap s' = heap s -> node_worth s' n = node_worth s n.
Proof. intros Hn Hh. unfold node_worth. by rewrite Hn, Hh. Qed.

Lemma heap_worth_ext s s' h : next_ptr s' = next_ptr s -> heap s' = heap s -> heap_worth s' h = heap_worth s h.
Proof.
  intros Hn Hh. assert (Hc : forall l, chain_worth s' l = chain_worth s l).
  { induction l as [|n l IH]; simpl; [done|]. by rewrite IH, (node_worth_ext s s'). }
  induction h as [|p o h Hp IH] using map_ind; [done|].
  rewrite !heap_worth_insert, IH by done. by destruct o; simpl; rewrite ?Hc.
Qed.
Lemma deliveries_log c s :
  deliveries (log c s) = deliveries s + (if is_delivery c then 1 else 0).
Proof.
  unfold log, deliveries. destruct (is_loop c) eqn:Hl; [destruct c; done || (simpl; lia)|].
  simpl. rewrite List.filter_app, length_app. simpl. by destruct (is_delivery c).
Qed.
Lemma stored_log c s :
  delivery_stored (log c s) = delivery_stored s + (if is_delivery c then 1 else 0).
Proof.
  unfold delivery_stored. rewrite deliveries_log.
  assert (Hh : heap (log c s) = heap s) by (unfold log; by destruct (is_loop c)).
  rewrite (heap_worth_ext s (log c s)), Hh; [lia| |done]. unfold log; by destruct (is_loop c).
Qed.

(** A step that leaves the stacks as they are, or empties some. *)
Lemma stored_update s p o o' : wf_machine s -> heap s !! p = Some o -> obj_le o o' ->
  delivery_stored (with_heap (<[p := o']>) s) + obj_worth s o <= delivery_stored s + obj_worth s o'.
Proof.
  intros Hwf Ho Hle. set (s' := with_heap _ s). unfold delivery_stored.
  change (deliveries s') with (deliveries s). change (heap s') with (<[p := o']> (heap s)).
  pose proof (heap_worth_anti s s' (<[p := o']> (heap s)) Hwf (evolves_update s p o o' Ho Hle)).
  pose proof (heap_worth_update s p o o' (heap s) Ho). lia.
Qed.
Lemma stored_delete s p : wf_machine s -> delivery_stored (with_heap (delete p) s) <= delivery_stored s.
Proof.
  intros Hwf. set (s' := with_heap _ s). unfold delivery_stored.
  change (deliveries s') with (deliveries s). change (heap s') with (delete p (heap s)).
  pose proof (heap_worth_anti s s' (delete p (heap s)) Hwf (evolves_delete s p)).
  destruct (heap s !! p) as [o|] eqn:Ho; [|rewrite delete_id in * by done; lia].
  pose proof (heap_worth_delete s p o (heap s) Ho). lia.
Qed.
Lemma stored_new s o : wf_machine s -> obj_worth s o = 0 ->
  delivery_stored (with_next_ptr (next_ptr s + 1) (with_heap (<[next_ptr s := o]>) s)) <= delivery_stored s.
Proof.
  intros Hwf H0. set (s' := with_next_ptr _ _). unfold delivery_stored.
  change (deliveries s') with (deliveries s). change (heap s') with (<[next_ptr s := o]> (heap s)).
  pose proof (heap_worth_anti s s' (<[next_ptr s := o]> (heap s)) Hwf (evolves_new s o)).
  rewrite (heap_worth_insert s) in H by (apply Hwf; lia). lia.
Qed.

Inductive delivery_token := Ticket | InFlight (n : ptr).
Definition delivery_held (t : delivery_token) (s : st) : nat :=
  match t with Ticket => 1 | InFlight n => node_worth s n end.

#[local] Instance delivering : Budget.
Proof.
  refine {| token := delivery_token; ticket := Ticket; held := delivery_held; stored := delivery_stored;
            kept _ _ := True; harmless p s := node_worth s p = 0; owed := is_it |}; try done.
  - intros [] s s' Hwf He; simpl; [done|by apply node_worth_anti].
  - intros p s s' Hwf He H0. pose proof (node_worth_anti s s' p Hwf He). lia.
  - intros fn x [-> _]%bool_decide_eq_true_1. eauto.
  - intros s s' (Hh & Hn & Ht). unfold delivery_stored, deliveries.
    by rewrite Ht, Hh, (heap_worth_ext s s').
  - intros c s Hc. split; [|done]. rewrite stored_log.
    assert (is_delivery c = false) as ->; [|lia]. by destruct c.
  - intros s p o o' Hwf Ho Hle [Hk Hm]. split; [|done]. pose proof (stored_update s p o o' Hwf Ho Hle).
    assert (obj_worth s o' <= obj_worth s o); [|lia]. destruct o'; simpl; try lia.
    destruct o; try done. simpl. destruct Hm as [-> | ->]; simpl; lia.
  - intros s p Hwf. split; [|done]. by apply stored_delete.
  - intros s o Hwf Hb s'. split; [|split; [done|]].
    + apply stored_new; [done|]. destruct o; try done. simpl in *. by rewrite Hb.
    + unfold node_worth, s'; simpl. rewrite bool_decide_eq_false_2 by lia. rewrite lookup_insert_eq.
      destruct o; try done. simpl in Hb. by rewrite Hb.
  - intros s q t p Hwf Hq H0 s'. split; [|done].
    pose proof (stored_update s q (OStack t) (OStack (ts_push p t).2) Hwf Hq (le_push p t)) as H1.
    simpl obj_worth in H1. rewrite ts_push_nodes in H1. destruct (ts_closed t); simpl in H1; unfold s'; lia.
Defined.

(** What a thread holds: a chain it has detached, a ticket. *)
Definition in_flight (l : list ptr) : assertion := fun g _ => g = map InFlight l.
Definition has_ticket (b : bool) : assertion := fun g _ => g = if b then [Ticket] else [].
(** A node that carries another continuation. *)
Definition foreign (n : ptr) (s : st) : Prop :=
  (n < next_ptr s)%N /\ forall x, heap s !! n = Some (OContinuation x) -> is_it (cont_fn x) (cont_user x) = false.
Definition node_fields (n : ptr) (fn : option fut_cb) (x : option ptr) (s : st) : Prop :=
  (n < next_ptr s)%N /\ forall y, heap s !! n = Some (OContinuation y) ->
    from_option (eq (cont_fn y)) True fn /\ from_option (eq (cont_user y)) True x.
Definition licensed (n : ptr) : assertion :=
  fun g s => g = [Ticket] \/ (g = [] /\ foreign n s).

(** Enough for one call, whose being a delivery is [b]. *)
Definition affordable (b : bool) : assertion := fun g _ => g = [Ticket] \/ (g = [] /\ b = false).

Lemma cont_before s s' n y : wf_machine s -> evolves s s' -> (n < next_ptr s)%N ->
  heap s' !! n = Some (OContinuation y) -> exists x, heap s !! n = Some (OContinuation x) /\ cont_le x y.
Proof.
  intros Hwf He Hlt Hy. destruct (ev_heap _ _ (He Hwf) n _ Hlt Hy) as (o & Ho & Hk & Hle).
  destruct o as [| |x| | | | | | | | | | | | | | | | | | | | | |]; try done. by exists x.
Qed.
Lemma foreign_fact n s s' : wf_machine s -> evolves s s' -> foreign n s -> foreign n s'.
Proof.
  intros Hwf He [Hlt Hf]. pose proof (ev_next _ _ (He Hwf)). split; [lia|]. intros y Hy.
  destruct (cont_before s s' n y Hwf He Hlt Hy) as (x & Hx & [_ -> ->]). auto.
Qed.
Lemma fields_fact n fn z s s' : wf_machine s -> evolves s s' -> node_fields n fn z s -> node_fields n fn z s'.
Proof.
  intros Hwf He [Hlt Hf]. pose proof (ev_next _ _ (He Hwf)). split; [lia|]. intros y Hy.
  destruct (cont_before s s' n y Hwf He Hlt Hy) as (x & Hx & [_ -> ->]). auto.
Qed.
Lemma stable_in_flight l : stable (in_flight l).
Proof. by intros g s s' _ _. Qed.
Lemma stable_ticket b : stable (has_ticket b).
Proof. by intros g s s' _ _. Qed.
Lemma stable_licensed n fn z : stable (fun g s => licensed n g s /\ node_fields n fn z s).
Proof.
  intros g s s' Hwf He [H1 H2]. split; [|by eapply fields_fact].
  destruct H1 as [->|[-> H1]]; [by left|right]. split; [done|]. by eapply foreign_fact.
Qed.

Lemma live_below s n o : wf_machine s -> heap s !! n = Some o -> (n < next_ptr s)%N.
Proof. intros Hwf Ho. apply N.lt_nge. intros Hle. by rewrite (proj2 (wm_alloc _ Hwf)) in Ho. Qed.

(** Winning the claim of a node in flight gives the licence to call its function. *)
Lemma d_claim n :
  disc (fun won g s => if won : bool then licensed n g s /\ node_fields n None None s else g = [])
    (in_flight [n]) (cont_claim n).
Proof.
  apply disc_rmw; [intros; apply le_cont_claim| |].
  - intros []; [apply stable_licensed|]. by intros g s s' _ _.
  - intros l s x Hwf -> Hx s'. pose proof (live_below s n _ Hwf Hx) as Hlt.
    pose proof (stored_update s n _ _ Hwf Hx (le_cont_claim x)) as Hst. simpl obj_worth in Hst.
    assert (Hw : worth [InFlight n] s = if is_it (cont_fn x) (cont_user x) && negb (tn_claimed (cont_base x)) then 1 else 0).
    { simpl. unfold node_worth. rewrite bool_decide_eq_false_2 by lia. rewrite Hx; simpl. lia. }
    simpl map. rewrite Hw. simpl. rewrite tn_claim_wins. destruct (tn_claimed (cont_base x)); simpl.
    { exists []. simpl. rewrite andb_false_r in *. split; [unfold s', store_cell; simpl in *; lia|done]. }
    assert (Hf : node_fields n None None s').
    { split; [done|]. done. }
    destruct (is_it (cont_fn x) (cont_user x)) eqn:Hit; simpl.
    + exists [Ticket]. simpl. split; [unfold s', store_cell; simpl in *; lia|]. split; [done|]. split; [by left|done].
    + exists []. simpl. split; [unfold s', store_cell; simpl in *; lia|]. split; [done|]. split; [right|done].
      split; [done|]. split; [done|]. intros y Hy. simpl in Hy. rewrite lookup_insert_eq in Hy.
      by simplify_eq/=.
Qed.

(** A call of the continuation spends a ticket; any other call is free. *)
Lemma d_call {A} (Q : A -> assertion) fn f x (p : ptr -> cprog A) (P : assertion) :
  (forall g s, wf_machine s -> P g s -> affordable (is_it fn x) g s) ->
  (forall r, disc Q nothing (p r)) -> disc Q P (Call (K_future_cb fn f x) p).
Proof.
  intros HP Hp. apply disc_call_seq with nothing; [|apply stable_nothing|done].
  intros l s Hwf Hl. exists []. simpl stored. rewrite stored_log. simpl is_delivery.
  destruct (HP l s Hwf Hl) as [->|[-> ->]]; simpl.
  - split; [destruct (is_it fn x); lia|done].
  - split; [lia|done].
Qed.

Lemma d_field {C} (P : assertion) (proj : UfsrvContinuation -> C) n (Q : C -> assertion) :
  (forall c, stable (Q c)) ->
  (forall g s x, (n < next_ptr s)%N -> P g s -> heap s !! n = Some (OContinuation x) -> Q (proj x) g s) ->
  disc Q P (rd proj n).
Proof.
  intros HQ H. apply disc_rd; [done|]. intros g s x Hwf HP Hx. apply H; [|done..].
  by eapply live_below.
Qed.

Lemma d_run f n : disc (fun _ => nothing) (in_flight [n]) (sRunContinuation f n).
Proof.
  eapply disc_bind; [apply d_claim|]. intros []; simpl; [|apply disc_ret, entails_refl].
  apply (disc_bind (fun fn g s => licensed n g s /\ node_fields n (Some fn) None s)).
  { apply d_field; [intros; apply stable_licensed|]. intros g s x Hlt [H1 H2] Hx. split; [done|].
    split; [done|]. intros y Hy. by simplify_eq/=. }
  intros fn. apply (disc_bind (fun z => affordable (is_it fn z))).
  { apply d_field; [by intros z g s s' _ _|].
    intros g s x Hlt [[->|[-> [_ H1]]] [_ H2]] Hx; [by left|right]. split; [done|].
    destruct (H2 x Hx) as [<- _]. by apply H1. }
  intros z. apply d_call; [done|]. intros; apply disc_ret, entails_refl.
Qed.

Lemma d_drain_loop f l : disc (fun _ => nothing) (in_flight l) (sDrainContinuations_loop f l).
Proof.
  induction l as [|n l IH]; simpl; [apply disc_ret, entails_refl|].
  eapply disc_bind; [apply silent_frame; [silent|apply stable_in_flight]|]. intros ?.
  apply (disc_bind (fun _ => in_flight l)).
  { eapply disc_pre; [|eapply disc_post; [|apply disc_frame; [apply d_run|apply (stable_in_flight l)]]].
    - intros g s _ ->. exists (InFlight n :: map InFlight l). split; [done|]. by exists [InFlight n], (map InFlight l).
    - intros _ g s _ (g1 & g2 & -> & -> & H2). by exists g2. }
  intros _. eapply disc_bind; [apply silent_frame; [silent|apply stable_in_flight]|]. done.
Qed.

Lemma d_drain f : disc (fun _ => nothing) nothing (sDrainContinuations f).
Proof.
  eapply disc_bind; [apply silent_frame; [silent|apply stable_nothing]|]. intros q.
  apply (disc_bind in_flight); [|apply d_drain_loop].
  apply disc_rmw; [intros; apply le_steal|intros; apply stable_in_flight|].
  intros l s t Hwf -> Ht s'. exists (map InFlight (ts_steal_all_and_close t).1).
  pose proof (stored_update s q _ _ Hwf Ht (le_steal t)) as Hst. simpl obj_worth in Hst.
  rewrite ts_steal_nodes in Hst. split; [|done]. rewrite ts_steal_list.
  assert (Hw : worth (map InFlight (ts_nodes t)) s' <= chain_worth s (ts_nodes t)).
  { pose proof (chain_worth_anti s s' (ts_nodes t) Hwf (evolves_update s q _ _ Ht (le_steal t))) as Hc.
    etrans; [|exact Hc]. clear. induction (ts_nodes t) as [|n l IH]; simpl; lia. }
  simpl in *. unfold s', store_cell in *. simpl in *. lia.
Qed.

(** Changes of a future's own cell cost nothing here. *)
Lemma s_future {C} (g : UfsrvFuture -> C * UfsrvFuture) p :
  (forall x, obj_le (OFuture x) (OFuture (g x).2)) -> silent (fun _ => True) (rmw g p).
Proof.
  intros Hg. apply disc_rmw; [done|intros; apply stable_knows, _|].
  intros l s x Hwf [-> _] Hx s'. exists []. split; [|done].
  pose proof (stored_update s p _ _ Hwf Hx (Hg x)) as Hst. simpl in *. unfold s', store_cell. simpl. lia.
Qed.

Lemma s_drain F `{!Fact F} f : silent F (sDrainContinuations f).
Proof.
  apply silent_lift; [done|]. eapply disc_pre; [|eapply disc_post; [|apply d_drain]].
  - intros g s _ [-> _]. by exists [].
  - intros _ g s _ ->. by exists [].
Qed.
#[local] Hint Resolve s_drain : silent.

Lemma delivery_complete F `{!Fact F} f r : silent F (sFutureComplete f r).
Proof.
  apply silent_lift; [done|]. unfold sFutureComplete, xchg, wr.
  apply silent_bind; [apply s_future; intros x; split; [reflexivity|]; split; simpl; auto|].
  intros []; [apply silent_ret|]. apply silent_bind.
  { apply s_future; intros x; split; [reflexivity|]; split; simpl; auto. }
  intros _. apply silent_bind.
  { apply s_future; intros x; split; [reflexivity|]; split; simpl; auto. }
  intros _. silent.
Qed.

(** A new node is worth nothing until it is pushed. *)
Lemma s_new_node fn x : silent (fun _ => True) (alloc (MkContinuation tn_init fn x)).
Proof.
  apply silent_leaf; [done|apply g_alloc|]. intros s b s' Hwf _.
  destruct (oracle_view s) as [Hv Hsp]. pose proof (evolves_oracle s Hwf) as He.
  destruct (take_oracle s) as [[] s1] eqn:Eo; intros; simplify_eq/=; [by apply affords_view|].
  eapply affords_view_l; [done..|]. split; [done|]. split; [|done].
  by apply (stored_new s1 (OContinuation _)); [apply (ev_wf _ _ He)|].
Qed.

(** A registration spends its ticket on the call, or leaves it with the node. *)
Lemma d_then f fn x : is_it fn x = true ->
  disc (fun _ => nothing) (has_ticket true) (UfsrvFutureThen f (Some fn) x).
Proof.
  intros Hit. assert (Hdrop : forall b : bool, disc (fun _ => nothing) (has_ticket true) (Ret b)).
  { intros b. apply disc_ret. intros g s _ _. exists []. split; [simpl; lia|done]. }
  assert (Hcall : forall p : cprog unit, silent (fun _ => True) p ->
    disc (fun _ : bool => nothing) (has_ticket true) (call (K_future_cb fn f x) ;; p ;; Ret true)).
  { intros p Hp. apply d_call; [by left|]. intros _. simpl.
    eapply disc_bind; [by apply silent_frame; [|apply stable_nothing]|]. intros ?. apply disc_ret, entails_refl. }
  unfold UfsrvFutureThen. case_match; [apply Hdrop|]. unfold sFutureThen. case_match; [apply Hdrop|].
  eapply disc_bind; [apply silent_frame; [silent|apply (stable_ticket true)]|].
  intros []; [apply (Hcall (Ret tt)), silent_ret|].
  eapply disc_bind; [apply silent_frame; [apply s_new_node|apply (stable_ticket true)]|].
  intros n. case_match; [apply Hdrop|].
  apply (disc_bind (fun pushed => has_ticket (negb pushed))).
  { eapply disc_bind; [apply silent_frame; [silent|apply (stable_ticket true)]|]. intros q.
    apply disc_rmw; [intros; apply le_push|intros; apply stable_ticket|].
    intros l s t Hwf -> Ht s'. rewrite ts_push_accepts. exists (if ts_closed t then [Ticket] else []).
    pose proof (stored_update s q _ _ Hwf Ht (le_push n t)) as Hst. simpl obj_worth in Hst.
    rewrite ts_push_nodes in Hst. unfold s', store_cell in *.
    destruct (ts_closed t); simpl in *; (split; [|done]); [lia|].
    assert (node_worth s n <= 1) by (unfold node_worth; repeat case_match; lia). lia. }
  intros []; simpl.
  - eapply disc_bind; [apply silent_frame; [silent|apply stable_nothing]|]. intros ?. apply disc_ret, entails_refl.
  - apply Hcall. silent.
Qed.

Lemma fresh_worth s h :
  (forall q t n, h !! q = Some (OStack t) -> n ∈ ts_nodes t -> node_worth s n = 0) -> heap_worth s h = 0.
Proof.
  intros Hn. induction h as [|q o h Hq IH] using map_ind; [done|]. rewrite heap_worth_insert by done.
  rewrite IH; [rewrite Nat.add_0_r|].
  - destruct o as [| | | |t| | | | | | | | | | | | | | | | | | | |]; try done. simpl.
    assert (Hl : forall n, n ∈ ts_nodes t -> node_worth s n = 0) by (intros n; apply (Hn q); by rewrite lookup_insert_eq).
    induction (ts_nodes t) as [|n l IHl]; simpl; [done|].
    rewrite Hl, IHl; [done|intros m Hm; apply Hl; by right|by left].
  - intros r t n Hr. apply (Hn r). rewrite lookup_insert_ne; [done|]. intros <-. congruence.
Qed.

Lemma delivering_solvent (c : config) regs :
  (forall t p, threads c !! t = Some p -> script is_it (regs t) p) ->
  wf_machine (shared c) ->
  (forall t x, (t, x) ∈ spawned (shared c) -> is_delivery x = false) ->
  (forall n x, heap (shared c) !! n = Some (OContinuation x) -> is_it (cont_fn x) (cont_user x) = false) ->
  (forall q t n, heap (shared c) !! q = Some (OStack t) -> n ∈ ts_nodes t -> (n < next_ptr (shared c))%N) ->
  solvent (deliveries (shared c) + registrations regs (threads c)) c.
Proof.
  intros Hth Hwf Hsp Hfresh Hin. apply (scripts_solvent delivery_complete d_then) with regs; [done| |done|].
  - apply Forall_forall. intros [t x] Hx. specialize (Hsp t x Hx). by destruct x.
  - simpl stored. unfold delivery_stored. rewrite fresh_worth; [lia|]. intros q t n Hq Hn. unfold node_worth.
    rewrite bool_decide_eq_false_2 by (specialize (Hin q t n Hq Hn); lia).
    destruct (heap (shared c) !! n) as [[| |x| | | | | | | | | | | | | | | | | | | | | |]|] eqn:Hx; try done.
    by rewrite (Hfresh n x).
Qed.
End OneContinuation.


(** C10.  A continuation is called at most once per registration.  Whatever client
    programs run on however many threads, completing, cancelling, waiting for and
    releasing the same futures, in whatever order their steps are interleaved: if
    thread [t] registers the client's function [k] with context [u] at most [regs t]
    times, and no node of it exists at the start, then it is never called more than
    [registrations regs] times.  In particular a continuation that is registered once
    is called at most once, hence by at most one thread, although a registration may
    race with the completion that drains the stack. *)
Theorem continuation_called_once {E : Ext} {TS : TreiberSpec E} client k u regs c0 c1 :
  client_scripts (is_it k u) client ->
  (forall t p, threads c0 !! t = Some p -> script (is_it k u) (regs t) p) ->
  wf_machine (shared c0) ->
  (forall t c, (t, c) ∈ spawned (shared c0) -> is_delivery k u c = false) ->
  (forall n x, heap (shared c0) !! n = Some (OContinuation x) -> is_it k u (cont_fn x) (cont_user x) = false) ->
  (forall q t n, heap (shared c0) !! q = Some (OStack t) -> n ∈ ts_nodes t -> (n < next_ptr (shared c0))%N) ->
  rtc (istep client) c0 c1 ->
  deliveries k u (shared c1) <= deliveries k u (shared c0) + registrations regs (threads c0).
Proof.
  intros Hcl Hth Hwf Hsp Hfresh Hin Hs.
  pose proof (delivering_solvent k u c0 regs Hth Hwf Hsp Hfresh Hin) as H0.
  pose proof (body_disc (B := delivering k u) (delivery_complete k u) (d_then k u) client Hcl) as Hbody.
  destruct (isteps_pay client Hbody _ c0 c1 H0 Hs) as [[_ _ (gs & Hn & _)] _].
  simpl stored in Hn. unfold delivery_stored in Hn. lia.
Qed.

(** Thread 2 has pushed its node when thread 0 completes the future: one call. *)
#[local] Existing Instances RefExt.ext RefExt.treiber.
Definition delivered : config := Race.after (replicate 4 2%N ++ replicate 36 0%N).

Lemma continuation_called_once_witness :
  registrations (Race.regs (is_it 9 42)) (threads Race.c0) = 1 /\
  deliveries 9 42 (shared delivered) = 1 /\
  deliveries 9 42 (shared delivered) <=
    deliveries 9 42 (shared Race.c0) + registrations (Race.regs (is_it 9 42)) (threads Race.c0).
Proof.
  split; [vm_compute; reflexivity|]. split; [vm_compute; reflexivity|].
  apply (continuation_called_once quiet_client 9 42 (Race.regs (is_it 9 42)) Race.c0 delivered).
  - apply quiet_scripts.
  - apply Race.c0_scripts.
  - apply Race.c0_wf.
  - intros t c Hc. change (spawned (shared Race.c0)) with (@nil (N * code)) in Hc. by apply elem_of_nil in Hc.
  - intros n x Hx. by destruct (Race.c0_objects _ _ Hx).
  - intros q t n Hq Hn. pose proof (Race.c0_objects _ _ Hq) as He. by rewrite He in Hn; apply elem_of_nil in Hn.
  - apply Race.after_sound. vm_compute. reflexivity.
Defined.
