(* ===== verification/TokenSpec.v ===== *)
(** * TokenSpec: the cancellation token as an abstract object

    The contract of ufsrv_cancellation.h as a transition system over registered
    callbacks, and the proof that the implementation, from creation to the last
    release, takes only the transitions of that system, whatever sequence of
    calls a client chooses from the handles it has been given. *)
From S2P Require Import Prelude Machine Uflib Model Cancellation Dispatch Logic Guarantee.
From S2P Require Import CancellationFacts.

(** ** The specification *)

(** [sp_live]: registered callbacks; [sp_done]: handles of callbacks that have been
    dispatched; [sp_issued]: all handles given out; [sp_ran]: handles whose
    callback has run, oldest first; [sp_calls]: client functions called. *)
Record tspec := TSpec {
  sp_cancelled : bool;
  sp_owners : nat;
  sp_live : list registration;
  sp_done : list registration;
  sp_issued : list ptr;
  sp_ran : list ptr;
  sp_calls : list code;
}.
Definition spec_init : tspec := TSpec false 1 [] [] [] [] [].
Definition spec_refs (a : tspec) : nat := sp_owners a + length (sp_live a) + length (sp_done a).

Inductive token_op :=
| TRegister (fn : N) (context_ptr : ptr) (release_context : option N)
| TUnregister (handle : ptr)
| TCancel
| TIsCancelled
| TDestroy.

Definition user_reg (h : ptr) (fn : N) (ctx : ptr) (rel : option N) : registration :=
  Reg h (CC_user fn) ctx (CC_user <$> rel).
Definition bool_ptr (b : bool) : ptr := if b then 1%N else 0%N.

(** [spec_step a op v a']: [op] may return [v] and lead from [a] to [a']. *)
Inductive spec_step (a : tspec) : token_op -> ptr -> tspec -> Prop :=
| step_register_oom fn ctx rel :
    spec_step a (TRegister fn ctx rel) NULL a
| step_register fn ctx rel h :
    sp_cancelled a = false -> h <> NULL -> h ∉ sp_issued a ->
    spec_step a (TRegister fn ctx rel) h
      (TSpec false (sp_owners a) (user_reg h fn ctx rel :: sp_live a) (sp_done a)
         (h :: sp_issued a) (sp_ran a) (sp_calls a))
| step_register_cancelled fn ctx rel h :
    sp_cancelled a = true -> h <> NULL -> h ∉ sp_issued a ->
    spec_step a (TRegister fn ctx rel) h
      (TSpec true (sp_owners a) (sp_live a) (user_reg h fn ctx rel :: sp_done a)
         (h :: sp_issued a) (sp_ran a ++ [h]) (sp_calls a ++ [K_cancel_cb (CC_user fn) ctx]))
| step_unregister_null : spec_step a (TUnregister NULL) (bool_ptr false) a
| step_unregister_live L1 r L2 :
    sp_live a = L1 ++ r :: L2 ->
    spec_step a (TUnregister (reg_node r)) (bool_ptr true)
      (TSpec (sp_cancelled a) (sp_owners a) (L1 ++ L2) (sp_done a) (sp_issued a) (sp_ran a)
         (sp_calls a ++ release_calls r))
| step_unregister_done D1 r D2 :
    sp_done a = D1 ++ r :: D2 ->
    spec_step a (TUnregister (reg_node r)) (bool_ptr false)
      (TSpec (sp_cancelled a) (sp_owners a) (sp_live a) (D1 ++ D2) (sp_issued a) (sp_ran a)
         (sp_calls a ++ release_calls r))
| step_cancel :
    sp_cancelled a = false ->
    spec_step a TCancel NULL
      (TSpec true (sp_owners a) [] (sp_live a ++ sp_done a) (sp_issued a)
         (sp_ran a ++ nodes (sp_live a)) (sp_calls a ++ (reg_call <$> sp_live a)))
| step_cancel_again : sp_cancelled a = true -> spec_step a TCancel NULL a
| step_is_cancelled : spec_step a TIsCancelled (bool_ptr (sp_cancelled a)) a
| step_destroy n :
    sp_owners a = S n ->
    spec_step a TDestroy NULL
      (TSpec (sp_cancelled a) n (sp_live a) (sp_done a) (sp_issued a) (sp_ran a) (sp_calls a)).

(** What the API asks of its caller: a token it owns, a handle it holds once, and
    fewer than [INT_MAX] references. *)
Definition allowed (a : tspec) (op : token_op) : Prop :=
  match op with
  | TRegister _ _ _ => (0 < sp_owners a) /\ (Z.of_nat (spec_refs a) + 1 < 2 ^ 31)%Z
  | TUnregister h => h = NULL \/ h ∈ nodes (sp_live a ++ sp_done a)
  | _ => 0 < sp_owners a
  end.

(** [spec_runs strategy n hist a hist' a']: the client [strategy], which picks its
    next call from the values returned so far, makes up to [n] calls. *)
Inductive spec_runs (strategy : list ptr -> option token_op) :
    nat -> list ptr -> tspec -> list ptr -> tspec -> Prop :=
| runs_fuel hist a : spec_runs strategy 0 hist a hist a
| runs_stop n hist a : strategy hist = None -> spec_runs strategy (S n) hist a hist a
| runs_step n hist a op v a' hist' a'' :
    strategy hist = Some op -> spec_step a op v a' ->
    spec_runs strategy n (hist ++ [v]) a' hist' a'' ->
    spec_runs strategy (S n) hist a hist' a''.

(** The client only makes allowed calls, whatever the token answers. *)
Inductive well_behaved (strategy : list ptr -> option token_op) :
    nat -> list ptr -> tspec -> Prop :=
| wb_fuel hist a : well_behaved strategy 0 hist a
| wb_stop n hist a : strategy hist = None -> well_behaved strategy (S n) hist a
| wb_step n hist a op :
    strategy hist = Some op -> allowed a op ->
    (forall v a', spec_step a op v a' -> well_behaved strategy n (hist ++ [v]) a') ->
    well_behaved strategy (S n) hist a.

(** ** The specification's own invariants *)

(** Every handle is exactly one of: live, ran, or unregistered in time. *)
Record spec_inv (a : tspec) : Prop := {
  si_issued : NoDup (sp_issued a);
  si_ran : NoDup (sp_ran a);
  si_ran_issued h : h ∈ sp_ran a -> h ∈ sp_issued a;
  si_live h : h ∈ nodes (sp_live a) -> h ∈ sp_issued a /\ h ∉ sp_ran a;
  si_done h : h ∈ nodes (sp_done a) -> h ∈ sp_issued a /\ h ∈ sp_ran a;
  si_nodup_live : NoDup (nodes (sp_live a));
  si_nodup_done : NoDup (nodes (sp_done a));
  si_cancelled : sp_cancelled a = true -> sp_live a = [];
}.

Lemma nodes_app L1 L2 : nodes (L1 ++ L2) = nodes L1 ++ nodes L2.
Proof. apply fmap_app. Qed.
Lemma nodes_cons r L : nodes (r :: L) = reg_node r :: nodes L.
Proof. done. Qed.

Lemma spec_inv_init : spec_inv spec_init.
Proof. by split; simpl; try apply NoDup_nil_2; try set_solver. Qed.

Lemma spec_inv_step a op v a' : spec_inv a -> spec_step a op v a' -> spec_inv a'.
Proof.
  intros [H1 H2 H3 H4 H5 H6 H7 H8] Hs; destruct Hs as
    [fn ctx rel|fn ctx rel h Hc Hh Hi|fn ctx rel h Hc Hh Hi| |L1 r L2 HL|D1 r D2 HD|Hc|Hc| |n Hn];
    try done; split; simpl; try done.
  - by apply NoDup_cons.
  - intros g Hg. right. auto.
  - intros g [->|Hg]%elem_of_cons; [split; [by left|]; intros Hr; by apply Hi, H3|].
    destruct (H4 _ Hg). split; [by right|done].
  - intros g Hg. destruct (H5 _ Hg). split; [by right|done].
  - apply NoDup_cons; split; [|done]. intros Hin; by apply Hi, H4.
  - by apply NoDup_cons.
  - apply NoDup_app; split_and!; [done| |apply NoDup_singleton].
    intros g Hg ->%list_elem_of_singleton. by apply Hi, H3.
  - intros g [Hg|Hg]%elem_of_app; [right; auto|]. apply list_elem_of_singleton in Hg as ->. by left.
  - rewrite H8 by done. intros g Hg. by apply elem_of_nil in Hg.
  - intros g [->|Hg]%elem_of_cons; [set_solver|]. destruct (H5 _ Hg). set_solver.
  - apply NoDup_cons; split; [|done]. intros Hin; by apply Hi, H5.
  - auto.
  - intros g Hg. apply H4. rewrite HL. rewrite nodes_app, ?nodes_cons in *. set_solver.
  - rewrite HL in H6. by apply nodes_remove in H6 as [? _].
  - intros Hc. apply H8 in Hc. rewrite Hc in HL. by destruct L1.
  - intros g Hg. apply H5. rewrite HD. rewrite nodes_app, ?nodes_cons in *. set_solver.
  - rewrite HD in H7. by apply nodes_remove in H7 as [? _].
  - apply NoDup_app; split_and!; [done| |done]. intros h Hr Hl. by apply H4 in Hl as [_ ?].
  - intros h [Hh|Hh]%elem_of_app; [auto|]. by apply H4.
  - intros h Hh. by apply elem_of_nil in Hh.
  - intros h. rewrite nodes_app. intros [Hh|Hh]%elem_of_app; rewrite elem_of_app;
    [destruct (H4 _ Hh)|destruct (H5 _ Hh)]; auto.
  - apply NoDup_nil_2.
  - rewrite nodes_app. apply NoDup_app; split_and!; [done| |done].
    intros h Hl Hd. apply H4 in Hl as [_ ?]. by apply H5 in Hd as [_ ?].
Qed.

Lemma spec_inv_runs strategy n hist a hist' a' :
  spec_inv a -> spec_runs strategy n hist a hist' a' -> spec_inv a'.
Proof. intros Ha Hr. induction Hr; eauto using spec_inv_step. Qed.

(** ** Accounting for the calls

    How often [c] occurs in a history, and how often the registrations of a token may
    still make it: a live one once as its callback, a live or dispatched one through
    its release hook. *)
Definition occurs (c : code) (l : list code) : nat := length (filter (eq c) l).
Definition due (c : code) (live done : list registration) : nat :=
  occurs c (reg_call <$> live) + occurs c (live ≫= release_calls) + occurs c (done ≫= release_calls).
(** What one call of the interface adds to that. *)
Definition registers (c : code) (op : token_op) : nat :=
  match op with
  | TRegister fn ctx rel =>
      let r := user_reg NULL fn ctx rel in occurs c [reg_call r] + occurs c (release_calls r)
  | _ => 0
  end.

Lemma occurs_app c l1 l2 : occurs c (l1 ++ l2) = occurs c l1 + occurs c l2.
Proof. unfold occurs. by rewrite filter_app, length_app. Qed.
Lemma occurs_cons c x l : occurs c (x :: l) = occurs c [x] + occurs c l.
Proof. exact (occurs_app c [x] l). Qed.
Lemma occurs_none c l : occurs c l = 0 <-> c ∉ l.
Proof.
  unfold occurs. rewrite length_zero_iff_nil. split.
  - intros H Hin. assert (c ∈ filter (eq c) l) as Hf by by apply list_elem_of_filter.
    rewrite H in Hf. by apply elem_of_nil in Hf.
  - intros Hn. destruct (filter (eq c) l) as [|x f] eqn:Hf; [done|].
    assert (x ∈ filter (eq c) l) as [<- Hx]%list_elem_of_filter by (rewrite Hf; by left). done.
Qed.
Lemma due_live c r L1 L2 D :
  due c (L1 ++ r :: L2) D = occurs c [reg_call r] + occurs c (release_calls r) + due c (L1 ++ L2) D.
Proof.
  unfold due. rewrite !fmap_app, !bind_app, fmap_cons, bind_cons, !occurs_app, (occurs_cons c (reg_call r)). lia.
Qed.
Lemma due_done c r D1 D2 L : due c L (D1 ++ r :: D2) = occurs c (release_calls r) + due c L (D1 ++ D2).
Proof. unfold due. rewrite !bind_app, bind_cons, !occurs_app. lia. Qed.

Lemma due_live_cons c r L D :
  due c (r :: L) D = occurs c [reg_call r] + occurs c (release_calls r) + due c L D.
Proof. exact (due_live c r [] L D). Qed.
Lemma due_done_cons c r D L : due c L (r :: D) = occurs c (release_calls r) + due c L D.
Proof. exact (due_done c r [] D L). Qed.

(** A call that is made was due, or has just been registered. *)
Lemma spec_step_due c a op v a' : spec_step a op v a' ->
  occurs c (sp_calls a') + due c (sp_live a') (sp_done a') <=
  occurs c (sp_calls a) + due c (sp_live a) (sp_done a) + registers c op.
Proof.
  intros Hs; destruct Hs as
    [fn ctx rel|fn ctx rel g Hc Hh Hi|fn ctx rel g Hc Hh Hi| |L1 r L2 HL|D1 r D2 HD|Hc|Hc| |n Hn];
    simpl; try lia.
  - rewrite due_live_cons.
    change (reg_call (user_reg g fn ctx rel)) with (reg_call (user_reg NULL fn ctx rel)).
    change (release_calls (user_reg g fn ctx rel)) with (release_calls (user_reg NULL fn ctx rel)). lia.
  - rewrite due_done_cons, occurs_app.
    change (release_calls (user_reg g fn ctx rel)) with (release_calls (user_reg NULL fn ctx rel)).
    change (reg_call (user_reg NULL fn ctx rel)) with (K_cancel_cb (CC_user fn) ctx). lia.
  - rewrite HL, due_live, occurs_app. lia.
  - rewrite HD, due_done, occurs_app. lia.
  - rewrite occurs_app. unfold due. rewrite bind_app, occurs_app. simpl. lia.
Qed.

Lemma spec_runs_due c strategy n hist a hist' a' :
  (forall h op, strategy h = Some op -> registers c op = 0) -> spec_runs strategy n hist a hist' a' ->
  occurs c (sp_calls a') <= occurs c (sp_calls a) + due c (sp_live a) (sp_done a).
Proof.
  intros Hnr Hr. induction Hr as [hist a|n hist a _|n hist a op v a1 hist' a' Hs Hst _ IH]; [lia..|].
  pose proof (spec_step_due c a op v a1 Hst). specialize (Hnr hist op Hs). lia.
Qed.

(** ** The simulation *)

(** Client callbacks that only observe. *)
Definition silent `{E : Ext} (tbl : code -> cprog ptr) (c : code) : Prop :=
  polite tbl (fun _ => True) (eq []) c.

Section Refinement.
Context {E : Ext} {TS : TreiberSpec E} (client : Client).
Hypothesis Hclient : client_guar client.
Hypothesis Hsilent : forall fn ctx, silent (body client) (K_cancel_cb (CC_user fn) ctx).

(** Running one operation of the interface on token [t]. *)
Definition exec (t : ptr) (op : token_op) : cprog ptr :=
  match op with
  | TRegister fn ctx rel =>
      UfsrvCancellationTokenRegisterEx t (Some (CC_user fn)) ctx (CC_user <$> rel)
  | TUnregister h => let! b := UfsrvCancellationTokenUnregister h in Ret (bool_ptr b)
  | TCancel => UfsrvCancellationTokenCancel t ;; Ret NULL
  | TIsCancelled => let! b := UfsrvCancellationTokenIsCancelled t in Ret (bool_ptr b)
  | TDestroy => UfsrvCancellationTokenDestroy t ;; Ret NULL
  end%prog.

(** The machine state represents the abstract one: the token and its nodes are as
    described, nothing else has moved since [F], and the calls are those made. *)
Record represents (t : ptr) (F : gmap N obj) (tr : list code) (a : tspec) (s : st) : Prop := {
  rp_wf : wf_machine s;
  rp_inv : spec_inv a;
  rp_token : token_after (heap s) t (Z.of_nat (spec_refs a)) (sp_cancelled a) (sp_live a);
  rp_refs : (Z.of_nat (spec_refs a) < 2 ^ 31)%Z;
  rp_done r : r ∈ sp_done a ->
    reg_node r <> NULL /\ heap s !! reg_node r = Some (dispatched_node r t);
  rp_user r : r ∈ sp_live a ++ sp_done a -> exists fn rel,
    reg_fn r = CC_user fn /\ reg_release r = CC_user <$> rel;
  rp_issued h : h ∈ sp_issued a -> (h < next_ptr s)%N /\ F !! h = None /\ h <> t;
  rp_fresh : F !! t = None;
  rp_frame p : p <> t -> p ∉ nodes (sp_live a ++ sp_done a) -> heap s !! p = F !! p;
  rp_trace : trace s = tr ++ sp_calls a;
}.

Lemma hook_silent r fn rel :
  reg_fn r = CC_user fn -> reg_release r = CC_user <$> rel ->
  hook_polite (body client) (fun _ => True) (eq []) r.
Proof.
  intros _ Hr c. unfold release_calls. rewrite Hr. destruct rel as [m|]; simpl.
  - intros ->%list_elem_of_singleton. apply Hsilent.
  - intros Hc. by apply elem_of_nil in Hc.
Qed.

Lemma token_after_pos h t rc c L : (0 < rc)%Z -> token_after h t rc c L -> token_rep h t rc c L.
Proof. unfold token_after. intros. by rewrite bool_decide_eq_false_2 in H0 by lia. Qed.
Lemma token_after_intro h t rc c L : (0 < rc)%Z -> token_rep h t rc c L -> token_after h t rc c L.
Proof. unfold token_after. intros. by rewrite bool_decide_eq_false_2 by lia. Qed.

(** Below the frontier before, or freshly allocated. *)
Lemma evolves_fresh s s' p o :
  evolves s s' -> wf_machine s -> heap s !! p = None -> heap s' !! p = Some o ->
  (next_ptr s <= p < next_ptr s')%N.
Proof.
  intros He Hwf Hn Ho. specialize (He Hwf). split.
  - destruct (decide (next_ptr s <= p)%N); [done|].
    destruct (ev_heap _ _ He p o) as (o1 & H1 & _); [lia|done|congruence].
  - destruct (decide (p < next_ptr s')%N); [done|].
    rewrite (proj2 (wm_alloc _ (ev_wf _ _ He))) in Ho; [done|lia].
Qed.

Lemma represents_same t F tr a s s' :
  represents t F tr a s -> evolves s s' -> heap s' = heap s -> trace s' = trace s ->
  represents t F tr a s'.
Proof.
  intros [] He Hh Ht. pose proof (He rp_wf0) as []. split; rewrite ?Hh, ?Ht; auto.
  intros h Hi. destruct (rp_issued0 h Hi). split; [lia|done].
Qed.

Lemma represents_int t F tr a s : represents t F tr a s -> int_range (Z.of_nat (spec_refs a)).
Proof. intros []. unfold int_range. lia. Qed.

(** The owner's reference keeps the token alive. *)
Lemma represents_rep t F tr a s :
  represents t F tr a s -> 0 < spec_refs a ->
  token_rep (heap s) t (Z.of_nat (spec_refs a)) (sp_cancelled a) (sp_live a).
Proof. intros [] ?. apply token_after_pos; [lia|done]. Qed.

(** What registration does, whether or not the token is cancelled. *)
Definition registered (t cb : ptr) (a : tspec) (r : registration) (s s' : st) : Prop :=
  cb <> NULL /\ heap s !! cb = None /\ exists o, heap s' !! cb = Some o /\
  (forall p, p ∉ t :: cb :: nodes (sp_live a) -> heap s' !! p = heap s !! p) /\
  if sp_cancelled a then
    o = dispatched_node r t /\
    token_rep (heap s') t (Z.of_nat (spec_refs a) + 1) true [] /\
    trace s' = trace s ++ [reg_call r]
  else token_rep (heap s') t (Z.of_nat (spec_refs a) + 1) false (r :: sp_live a) /\
       trace s' = trace s.

Lemma exec_register t F tr a s fn ctx rel :
  represents t F tr a s -> allowed a (TRegister fn ctx rel) ->
  wp (body client) log (exec t (TRegister fn ctx rel)) (fun cb s' =>
    (cb = NULL /\ heap s' = heap s /\ trace s' = trace s) \/
    registered t cb a (user_reg cb fn ctx rel) s s') s.
Proof.
  intros Hr [Ho Hmax]. assert (Hpos : 0 < spec_refs a) by (unfold spec_refs; lia).
  pose proof (represents_rep _ _ _ _ _ Hr Hpos) as Hrep. pose proof Hr as []. unfold registered.
  assert (Hint : int_range (Z.of_nat (spec_refs a) + 1)) by (unfold int_range; lia).
  destruct (sp_cancelled a) eqn:Hc.
  - rewrite (si_cancelled _ rp_inv0 Hc) in Hrep |- *.
    eapply wp_mono; [eapply (RegisterEx_cancelled_spec (body client) t (Z.of_nat (spec_refs a)) _ _ _
      (fun _ => True) (eq [])); [apply rp_wf0|done|done|done|apply Hsilent]|].
    simpl. intros cb s' [Hn|(Hn & Hf & Hd & Ht & Htr & Hfr)]; [by left|]. right.
    split_and!; [done..|]. eexists. split_and!; [exact Hd|set_solver|done|done|by apply made_silent].
  - eapply wp_mono; [eapply (RegisterEx_spec (body client)); [apply rp_wf0|exact Hrep|done]|].
    simpl. intros cb s' (Htr & _ & [(-> & Hh & _)|(Hn & Hf & Ht & Hfr)]); [by left|]. right.
    split_and!; [done..|].
    destruct (token_rep_node _ _ _ _ _ cb Ht) as (_ & _ & x & Hx); [by left|].
    eexists. split_and!; [exact Hx|done..].
Qed.

(** A registration leaves the handles issued before it as they were. *)
Lemma registered_issued t F tr a s s' cb :
  represents t F tr a s -> (next_ptr s <= cb < next_ptr s')%N -> cb ∉ sp_issued a -> F !! cb = None -> cb <> t ->
  (forall p, p ∉ t :: cb :: nodes (sp_live a) -> heap s' !! p = heap s !! p) ->
  (forall r, r ∈ sp_done a -> heap s' !! reg_node r = Some (dispatched_node r t)) /\
  (forall h, h ∈ cb :: sp_issued a -> (h < next_ptr s')%N /\ F !! h = None /\ h <> t).
Proof.
  intros [] Hnew Hni HF Hct Hfr. split.
  - intros r Hr'. destruct (rp_done0 _ Hr') as [_ Hx]. rewrite Hfr; [done|].
    assert (Hd : reg_node r ∈ nodes (sp_done a)) by by apply list_elem_of_fmap_2.
    destruct (si_done _ rp_inv0 _ Hd) as [Hi Hran]. rewrite !not_elem_of_cons. split_and!.
    + by apply rp_issued0.
    + intros Heq. by rewrite Heq in Hi.
    + intros Hl. by apply (si_live _ rp_inv0) in Hl as [_ ?].
  - intros h [->|Hh]%elem_of_cons; [split_and!; [lia|done|done]|].
    destruct (rp_issued0 _ Hh) as (? & ? & ?). split_and!; [lia|done|done].
Qed.

Lemma sim_register t F tr a s fn ctx rel :
  represents t F tr a s -> allowed a (TRegister fn ctx rel) ->
  wp (body client) log (exec t (TRegister fn ctx rel))
    (fun v s' => exists a', spec_step a (TRegister fn ctx rel) v a' /\ represents t F tr a' s') s.
Proof.
  intros Hr [Ho Hmax]. assert (Hpos : 0 < spec_refs a) by (unfold spec_refs; lia).
  pose proof (represents_rep _ _ _ _ _ Hr Hpos) as Hrep. pose proof Hr as [].
  pose proof (exec_register t F tr a s fn ctx rel Hr (conj Ho Hmax)) as Hstep.
  eapply wp_mono; [eapply wp_evolves; [done| |exact Hstep]|].
  { apply (api_guar _ _ (api_token_register_ex _ _ _ _)). }
  simpl. intros cb s' [[(-> & Hh & Htr)|(Hn & Hf & o & Ho' & Hfr & Hcase)] He].
  { exists a. split; [constructor|]. by eapply represents_same. }
  assert (Hnew : (next_ptr s <= cb < next_ptr s')%N) by by eapply evolves_fresh.
  assert (Hni : cb ∉ sp_issued a) by (intros Hi; apply rp_issued0 in Hi; lia).
  assert (Hnl : forall p, p ∈ nodes (sp_live a ++ sp_done a) -> p ∈ sp_issued a).
  { intros p. rewrite nodes_app. intros [?|?]%elem_of_app; [by apply (si_live _ rp_inv0)|
      by apply (si_done _ rp_inv0)]. }
  assert (Hct : cb <> t).
  { intros ->. destruct Hrep as (? & ? & _ & Ht & _). congruence. }
  assert (HF : F !! cb = None) by (rewrite <- rp_frame0; [done|done|auto]).
  destruct (registered_issued t F tr a s s' cb Hr Hnew Hni HF Hct Hfr) as [Hold Hiss].
  pose proof (ev_wf _ _ (He rp_wf0)) as Hwf'.
  destruct (sp_cancelled a) eqn:Hc.
  - destruct Hcase as (-> & Ht & Htr). eexists. split; [by apply step_register_cancelled|].
    pose proof (spec_inv_step _ _ _ _ rp_inv0 (step_register_cancelled a fn ctx rel cb Hc Hn Hni)).
    rewrite (si_cancelled _ rp_inv0 Hc) in *. split; simpl; try done.
    + unfold spec_refs in *; simpl in *. apply token_after_intro; [lia|].
      replace (Z.of_nat _) with (Z.of_nat (sp_owners a + length (sp_live a) + length (sp_done a)) + 1)%Z
        by (rewrite (si_cancelled _ rp_inv0 Hc); simpl; lia). done.
    + unfold spec_refs in *; simpl in *. rewrite (si_cancelled _ rp_inv0 Hc) in *; simpl in *; lia.
    + intros r [->|Hr']%elem_of_cons; [done|]. split; [by apply rp_done0|auto].
    + intros r [->|Hr']%elem_of_cons; [by exists fn, rel|]. by apply rp_user0.
    + intros p Hp [Hpc Hpn]%not_elem_of_cons. rewrite Hfr; [by apply rp_frame0|].
      rewrite !not_elem_of_cons. split_and!; [done|done|apply not_elem_of_nil].
    + by rewrite Htr, rp_trace0, <- app_assoc.
  - destruct Hcase as (Ht & Htr). eexists. split; [by apply step_register|].
    pose proof (spec_inv_step _ _ _ _ rp_inv0 (step_register a fn ctx rel cb Hc Hn Hni)).
    split; simpl; try done.
    + unfold spec_refs in *; simpl in *. apply token_after_intro; [lia|].
      replace (Z.of_nat _) with (Z.of_nat (sp_owners a + length (sp_live a) + length (sp_done a)) + 1)%Z
        by lia. done.
    + unfold spec_refs in *; simpl in *; lia.
    + intros r Hr'. split; [by apply rp_done0|auto].
    + intros r [->|Hr']%elem_of_cons; [by exists fn, rel|]. by apply rp_user0.
    + intros p Hp [Hpc Hpn]%not_elem_of_cons. fold nodes in Hpn. rewrite Hfr; [by apply rp_frame0|].
      rewrite !not_elem_of_cons. split_and!; [done|done|]. intros Hpl. apply Hpn.
      rewrite nodes_app, elem_of_app. by left.
    + by rewrite Htr.
Qed.

Lemma guar_exec t op : guar evolves (exec t op).
Proof.
  destruct op; unfold exec.
  - apply (api_guar _ _ (api_token_register_ex _ _ _ _)).
  - apply guar_bind; [apply (api_guar _ _ (api_token_unregister _))|intros; apply guar_ret].
  - apply guar_bind; [apply (api_guar _ _ (api_token_cancel _))|intros; apply guar_ret].
  - apply guar_bind; [apply (api_guar _ _ (api_token_is_cancelled _))|intros; apply guar_ret].
  - apply guar_bind; [apply (api_guar _ _ (api_token_destroy _))|intros; apply guar_ret].
Qed.

(** Shared bookkeeping of the operations that issue no handle: [a'] keeps the
    issued handles and the user registrations of [a]. *)
Lemma represents_next t F tr a a' op v s s' :
  represents t F tr a s -> evolves s s' -> spec_step a op v a' ->
  sp_issued a' = sp_issued a -> (spec_refs a' <= spec_refs a) ->
  (forall r, r ∈ sp_live a' ++ sp_done a' -> r ∈ sp_live a ++ sp_done a) ->
  token_after (heap s') t (Z.of_nat (spec_refs a')) (sp_cancelled a') (sp_live a') ->
  (forall r, r ∈ sp_done a' -> reg_node r <> NULL /\ heap s' !! reg_node r = Some (dispatched_node r t)) ->
  (forall p, p <> t -> p ∉ nodes (sp_live a' ++ sp_done a') -> heap s' !! p = F !! p) ->
  trace s' = tr ++ sp_calls a' ->
  represents t F tr a' s'.
Proof.
  intros Hr He Hs Hi Hrefs Hsub Htok Hdone Hframe Htr. pose proof Hr as [].
  pose proof (He rp_wf0) as Hev. destruct Hev as [W N _ _ _ _].
  split; try done; [by eapply spec_inv_step|lia|by auto|].
  intros h. rewrite Hi. intros Hh. destruct (rp_issued0 _ Hh). split; [lia|done].
Qed.

(** Handles are distinct from the token, and dispatched from linked ones. *)
Lemma represents_done t F tr a s r :
  represents t F tr a s -> r ∈ sp_done a ->
  reg_node r <> t /\ reg_node r ∉ nodes (sp_live a) /\ F !! reg_node r = None.
Proof.
  intros [] Hr. assert (Hd : reg_node r ∈ nodes (sp_done a)) by by apply list_elem_of_fmap_2.
  destruct (si_done _ rp_inv0 _ Hd) as [Hi Hran]. destruct (rp_issued0 _ Hi) as (_ & ? & ?).
  split_and!; [done| |done]. intros Hl. by apply (si_live _ rp_inv0) in Hl as [_ ?].
Qed.

Lemma sim_unregister_live t F tr a s L1 r L2 :
  represents t F tr a s -> sp_live a = L1 ++ r :: L2 ->
  hook_polite (body client) (fun _ => True) (eq []) r ->
  wp (body client) log (exec t (TUnregister (reg_node r)))
    (fun v s' => v = bool_ptr true /\ represents t F tr
       (TSpec (sp_cancelled a) (sp_owners a) (L1 ++ L2) (sp_done a) (sp_issued a) (sp_ran a)
          (sp_calls a ++ release_calls r)) s') s.
Proof.
  intros Hr HL Hhook. pose proof (represents_int _ _ _ _ _ Hr) as Hint. pose proof Hr as [].
  assert (Hpos : 0 < spec_refs a) by (unfold spec_refs; rewrite HL, length_app; simpl; lia).
  pose proof (represents_rep _ _ _ _ _ Hr Hpos) as Hrep. rewrite HL in Hrep.
  assert (Hri : reg_node r ∈ sp_issued a).
  { apply (si_live _ rp_inv0). rewrite HL, nodes_app, nodes_cons. set_solver. }
  assert (Hstep : wp (body client) log (exec t (TUnregister (reg_node r))) (fun v s' =>
    v = bool_ptr true /\ heap s' !! reg_node r = None /\
    token_after (heap s') t (Z.of_nat (spec_refs a) - 1) (sp_cancelled a) (L1 ++ L2) /\
    trace s' = trace s ++ release_calls r /\
    forall p, p ∉ t :: nodes (L1 ++ r :: L2) -> heap s' !! p = heap s !! p) s).
  { eapply wps_seq; [by eapply (Unregister_linked_spec _ _ _ _ _ _ _ (fun _ => True) (eq []))|].
    simpl. intros b s' (-> & ? & ? & ?%made_silent & Hf). apply wps_ret. auto 10. }
  eapply wp_mono; [eapply wp_evolves; [done|apply guar_exec|exact Hstep]|].
  simpl. intros v s' [(-> & Hg & Htok & Hcalls & Hf) He]. split; [done|].
  eapply represents_next; try done; [by eapply step_unregister_live|..]; simpl.
  - unfold spec_refs; simpl. rewrite HL, !length_app; simpl. lia.
  - rewrite HL. intros r'. set_solver.
  - replace (Z.of_nat _) with (Z.of_nat (spec_refs a) - 1)%Z; [done|].
    unfold spec_refs; simpl. rewrite HL, !length_app; simpl. lia.
  - intros r' Hd. destruct (represents_done _ _ _ _ _ _ Hr Hd) as (? & Hnl & _). rewrite HL in Hnl.
    rewrite Hf by (by apply not_elem_of_cons). auto.
  - intros p Hp Hpn. destruct (decide (p = reg_node r)) as [->|Hpr].
    { rewrite Hg. by destruct (rp_issued0 _ Hri) as (_ & -> & _). }
    rewrite nodes_app, !nodes_app in Hpn. rewrite Hf; [apply rp_frame0; [done|]|].
    + rewrite HL, !nodes_app, nodes_cons. set_solver.
    + rewrite nodes_app, nodes_cons. set_solver.
  - by rewrite Hcalls, rp_trace0, app_assoc.
Qed.

Lemma sim_unregister_done t F tr a s D1 r D2 :
  represents t F tr a s -> sp_done a = D1 ++ r :: D2 ->
  hook_polite (body client) (fun _ => True) (eq []) r ->
  wp (body client) log (exec t (TUnregister (reg_node r)))
    (fun v s' => exists a', spec_step a (TUnregister (reg_node r)) v a' /\ represents t F tr a' s') s.
Proof.
  intros Hr HD Hhook. pose proof (represents_int _ _ _ _ _ Hr) as Hint. pose proof Hr as [].
  assert (Hpos : 0 < spec_refs a) by (unfold spec_refs; rewrite HD, length_app; simpl; lia).
  pose proof (represents_rep _ _ _ _ _ Hr Hpos) as Hrep.
  assert (Hrd : r ∈ sp_done a) by (rewrite HD; set_solver).
  destruct (represents_done _ _ _ _ _ _ Hr Hrd) as (Hrt & Hrl & HrF).
  destruct (rp_done0 _ Hrd) as [Hr0 Hrx].
  assert (Hstep : wp (body client) log (exec t (TUnregister (reg_node r))) (fun v s' =>
    v = bool_ptr false /\ heap s' !! reg_node r = None /\
    token_after (heap s') t (Z.of_nat (spec_refs a) - 1) (sp_cancelled a) (sp_live a) /\
    trace s' = trace s ++ release_calls r /\
    forall p, p <> t -> p <> reg_node r -> heap s' !! p = heap s !! p) s).
  { eapply wps_seq; [eapply (Unregister_dispatched_spec _ _ _ _ _ _ (fun _ => True) (eq [])); try done|].
    - unfold spec_refs. rewrite HD, length_app. simpl. lia.
    - simpl. intros b s' (-> & ? & ? & ?%made_silent & Hf). apply wps_ret. auto 10. }
  eapply wp_mono; [eapply wp_evolves; [done|apply guar_exec|exact Hstep]|].
  simpl. intros v s' [(-> & Hg & Htok & Hcalls & Hf) He].
  pose proof (si_nodup_done _ rp_inv0) as Hnd. rewrite HD in Hnd.
  destruct (nodes_remove _ _ _ Hnd) as (_ & Hsub & _ & _).
  eexists. split; [by eapply step_unregister_done|].
  eapply represents_next; try done; [by eapply step_unregister_done|..]; simpl.
  - unfold spec_refs; simpl. rewrite HD, !length_app; simpl. lia.
  - rewrite HD. intros r'. set_solver.
  - replace (Z.of_nat _) with (Z.of_nat (spec_refs a) - 1)%Z; [done|].
    unfold spec_refs; simpl. rewrite HD, !length_app; simpl. lia.
  - intros r' Hd. assert (Hd' : r' ∈ sp_done a) by (rewrite HD; set_solver).
    destruct (represents_done _ _ _ _ _ _ Hr Hd') as (? & Hnl & _).
    rewrite Hf; [auto|done|]. apply (Hsub (reg_node r')). by apply list_elem_of_fmap_2.
  - intros p Hp Hpn. destruct (decide (p = reg_node r)) as [->|Hpr]; [by rewrite Hg|].
    rewrite Hf by done. apply rp_frame0; [done|]. rewrite !nodes_app in Hpn.
    rewrite HD, !nodes_app, nodes_cons. set_solver.
  - by rewrite Hcalls, rp_trace0, app_assoc.
Qed.

Lemma sim_unregister t F tr a s h :
  represents t F tr a s -> allowed a (TUnregister h) ->
  wp (body client) log (exec t (TUnregister h))
    (fun v s' => exists a', spec_step a (TUnregister h) v a' /\ represents t F tr a' s') s.
Proof.
  intros Hr [->|Hin].
  { unfold exec, UfsrvCancellationTokenUnregister. change (is_null NULL) with true. wp_steps.
    exists a. split; [constructor|done]. }
  apply list_elem_of_fmap in Hin as (r & -> & Hin).
  destruct (rp_user _ _ _ _ _ Hr r Hin) as (fn & rel & Hfn & Hrel).
  pose proof (hook_silent _ _ _ Hfn Hrel) as Hhook.
  apply elem_of_app in Hin as [Hin|Hin]; apply list_elem_of_split in Hin as (L1 & L2 & HL).
  - eapply wp_mono; [by eapply sim_unregister_live|]. simpl. intros v s' [-> Hr'].
    eexists. split; [by eapply step_unregister_live|done].
  - by eapply sim_unregister_done.
Qed.

Lemma sim_cancel t F tr a s :
  represents t F tr a s -> allowed a TCancel ->
  wp (body client) log (exec t TCancel)
    (fun v s' => exists a', spec_step a TCancel v a' /\ represents t F tr a' s') s.
Proof.
  intros Hr Hall. assert (Hpos : 0 < spec_refs a) by (unfold allowed, spec_refs in *; lia).
  pose proof (represents_rep _ _ _ _ _ Hr Hpos) as Hrep. pose proof Hr as [].
  destruct (sp_cancelled a) eqn:Hc.
  { rewrite (si_cancelled _ rp_inv0 Hc) in Hrep.
    eapply wp_mono; [eapply wp_evolves; [done|apply guar_exec|]|].
    - eapply wps_seq; [by eapply Cancel_again_spec|]. simpl. intros _ s' Hs. apply wps_ret.
      instantiate (1 := fun v s' => v = NULL /\ heap s' = heap s /\ trace s' = trace s). naive_solver.
    - simpl. intros v s' [(-> & Hh & Ht) He]. exists a. split; [by constructor|].
      by eapply represents_same. }
  assert (Hstep : wp (body client) log (exec t TCancel) (fun v s' =>
    v = NULL /\ token_rep (heap s') t (Z.of_nat (spec_refs a)) true [] /\
    (forall r, r ∈ sp_live a -> heap s' !! reg_node r = Some (dispatched_node r t)) /\
    (forall p, p ∉ t :: nodes (sp_live a) -> heap s' !! p = heap s !! p) /\
    trace s' = trace s ++ (reg_call <$> sp_live a)) s).
  { eapply wps_seq; [eapply (Cancel_spec _ _ _ _ (fun _ => True) (eq [])); try done|].
    - intros r Hl. destruct (rp_user0 r) as (fn & rel & Hfn & _); [set_solver|].
      unfold reg_call. rewrite Hfn. apply Hsilent.
    - simpl. intros _ s' (? & ? & Hf & ?%made_silent). apply wps_ret. auto 10. }
  eapply wp_mono; [eapply wp_evolves; [done|apply guar_exec|exact Hstep]|].
  simpl. intros v s' [(-> & Ht & Hd & Hf & Htr) He].
  eexists. split; [by apply step_cancel|].
  assert (Hrefs : spec_refs (TSpec true (sp_owners a) [] (sp_live a ++ sp_done a) (sp_issued a)
    (sp_ran a ++ nodes (sp_live a)) (sp_calls a ++ (reg_call <$> sp_live a))) = spec_refs a).
  { unfold spec_refs; simpl. rewrite length_app. lia. }
  eapply represents_next; try done; [by apply step_cancel|by rewrite Hrefs|..]; try rewrite Hrefs; simpl.
  - apply token_after_intro; [lia|done].
  - intros r [Hl|Hr']%elem_of_app.
    + split; [|by apply Hd]. by destruct (token_rep_node _ _ _ _ _ (reg_node r) Hrep);
        [apply list_elem_of_fmap_2|].
    + destruct (represents_done _ _ _ _ _ _ Hr Hr') as (? & ? & _).
      rewrite Hf by (by apply not_elem_of_cons). auto.
  - intros p Hp Hpn. rewrite Hf; [by apply rp_frame0|]. apply not_elem_of_cons. split; [done|].
    rewrite nodes_app in Hpn. set_solver.
  - by rewrite Htr, rp_trace0, app_assoc.
Qed.

Lemma sim_is_cancelled t F tr a s :
  represents t F tr a s -> allowed a TIsCancelled ->
  wp (body client) log (exec t TIsCancelled)
    (fun v s' => exists a', spec_step a TIsCancelled v a' /\ represents t F tr a' s') s.
Proof.
  intros Hr Hall. assert (Hpos : 0 < spec_refs a) by (unfold allowed, spec_refs in *; lia).
  pose proof (represents_rep _ _ _ _ _ Hr Hpos) as Hrep.
  eapply wps_seq; [by eapply IsCancelled_spec|]. simpl. intros b s' [-> ->]. apply wps_ret.
  exists a. split; [constructor|done].
Qed.

Lemma sim_destroy t F tr a s :
  represents t F tr a s -> allowed a TDestroy ->
  wp (body client) log (exec t TDestroy)
    (fun v s' => exists a', spec_step a TDestroy v a' /\ represents t F tr a' s') s.
Proof.
  intros Hr Hall. simpl in Hall. destruct (sp_owners a) as [|n] eqn:Hn; [lia|].
  assert (Hpos : 0 < spec_refs a) by (unfold spec_refs in *; lia).
  pose proof (represents_rep _ _ _ _ _ Hr Hpos) as Hrep. pose proof Hr as [].
  assert (Hstep : wp (body client) log (exec t TDestroy) (fun v s' =>
    v = NULL /\ token_after (heap s') t (Z.of_nat (spec_refs a) - 1) (sp_cancelled a) (sp_live a) /\
    trace s' = trace s /\ forall p, p <> t -> heap s' !! p = heap s !! p) s).
  { unfold exec, UfsrvCancellationTokenDestroy.
    rewrite (is_null_false t) by (by destruct Hrep as (? & ? & ? & _)).
    eapply wps_seq; [eapply sTokenRelease_spec; [apply _|exact Hrep| |]|].
    - unfold spec_refs. lia.
    - by eapply represents_int.
    - simpl. intros _ s' (? & ? & Hoff). apply wps_ret. split_and!; [done..|].
      intros p Hp. apply Hoff. by intros ->%list_elem_of_singleton. }
  eapply wp_mono; [eapply wp_evolves; [done|apply guar_exec|exact Hstep]|].
  simpl. intros v s' [(-> & Ht & Htr & Hf) He].
  eexists. split; [by apply step_destroy|].
  eapply represents_next; try done; [by apply step_destroy|..]; simpl.
  - unfold spec_refs; simpl. lia.
  - by replace (Z.of_nat _) with (Z.of_nat (spec_refs a) - 1)%Z by (unfold spec_refs; simpl; lia).
  - intros r Hd. destruct (represents_done _ _ _ _ _ _ Hr Hd) as (? & _). rewrite Hf by done. auto.
  - intros p Hp Hpn. rewrite Hf by done. auto.
  - by rewrite Htr.
Qed.

Lemma sim_step t F tr a s op :
  represents t F tr a s -> allowed a op ->
  wp (body client) log (exec t op)
    (fun v s' => exists a', spec_step a op v a' /\ represents t F tr a' s') s.
Proof.
  destruct op; eauto using sim_register, sim_unregister, sim_cancel, sim_is_cancelled, sim_destroy.
Qed.

(** A client of the token: it is handed the values returned so far and picks the
    next call, up to [n] times. *)
Fixpoint drive (t : ptr) (strategy : list ptr -> option token_op) (n : nat) (hist : list ptr)
    : cprog (list ptr) :=
  match n with
  | O => Ret hist
  | S n =>
      match strategy hist with
      | None => Ret hist
      | Some op => let! v := exec t op in drive t strategy n (hist ++ [v])
      end
  end%prog.

Lemma guar_drive t strategy n hist : guar evolves (drive t strategy n hist).
Proof.
  revert hist; induction n as [|n IH]; intros hist; simpl; [apply guar_ret|].
  destruct (strategy hist); [|apply guar_ret]. apply guar_bind; [apply guar_exec|done].
Qed.

Definition lifetime (strategy : list ptr -> option token_op) (n : nat)
    : cprog (option (ptr * list ptr)) :=
  (let! t := UfsrvCancellationTokenCreate in
   if is_null t then Ret None
   else let! hist := drive t strategy n [] in Ret (Some (t, hist)))%prog.

Lemma drive_spec t F tr strategy n hist a s :
  represents t F tr a s -> well_behaved strategy n hist a ->
  wp (body client) log (drive t strategy n hist)
    (fun hist' s' => exists a', spec_runs strategy n hist a hist' a' /\ represents t F tr a' s') s.
Proof.
  intros Hr Hw. revert s Hr; induction Hw as [hist a|n hist a Hs|n hist a op Hs Hop _ IH];
    intros s Hr; simpl.
  - apply wps_ret. exists a. split; [constructor|done].
  - rewrite Hs. apply wps_ret. exists a. split; [by constructor|done].
  - rewrite Hs. eapply wps_seq; [by eapply sim_step|]. simpl. intros v s1 (a1 & Hst & Hr1).
    eapply wp_mono; [by eapply IH|]. simpl. intros hist' s' (a' & Hruns & Hr').
    exists a'. split; [by eapply runs_step|done].
Qed.

Lemma create_spec s :
  wf_machine s ->
  wp (body client) log UfsrvCancellationTokenCreate
    (fun t s' => (t = NULL /\ heap s' = heap s /\ trace s' = trace s) \/
                 (t <> NULL /\ represents t (heap s) (trace s) spec_init s')) s.
Proof.
  intros Hwf. eapply wp_mono with (Q := fun t s' =>
    ((t = NULL /\ heap s' = heap s /\ trace s' = trace s) \/
     (t <> NULL /\ heap s !! t = None /\ heap s' = <[t := OToken (MkToken 1 false false NULL)]> (heap s) /\
      trace s' = trace s)) /\ evolves s s').
  { apply wp_evolves; [done|apply (api_guar _ _ api_token_create)|].
    unfold UfsrvCancellationTokenCreate. unfold wp. apply wps_alloc; [apply Hwf|intros o|intros o].
    - change (is_null NULL) with true. wp_steps. by left.
    - assert (Hn0 : next_ptr s <> NULL) by (destruct Hwf as [[]]; unfold NULL; lia).
      assert (Hf : heap s !! next_ptr s = None) by (apply Hwf; lia).
      rewrite (is_null_false (next_ptr s)) by done.
      destruct o as [|[] o]; (eapply wps_act; [reflexivity|]); simpl; wp_steps; simpl.
      + right. split_and!; [done..| |done]. by rewrite !insert_insert_eq.
      + left. split_and!; [done| |done]. by rewrite delete_insert_eq, delete_id.
      + right. split_and!; [done..| |done]. by rewrite !insert_insert_eq. }
  simpl. intros t s' [[?|(Ht & Hf & Hh & Htr)] He]; [by left|right]. split; [done|].
  pose proof (He Hwf) as []. split; simpl; try done.
  - apply spec_inv_init.
  - unfold spec_refs; simpl. apply token_after_intro; [lia|]. exists NULL, NULL.
    split_and!; try done; [by rewrite Hh, lookup_insert_eq|apply NoDup_nil_2].
  - intros r Hr. by apply elem_of_nil in Hr.
  - intros r Hr. by apply elem_of_nil in Hr.
  - intros h Hi. by apply elem_of_nil in Hi.
  - intros p Hp _. rewrite Hh. by rewrite lookup_insert_ne.
  - by rewrite Htr, app_nil_r.
Qed.

Lemma lifetime_spec strategy n s :
  wf_machine s -> well_behaved strategy n [] spec_init ->
  wp (body client) log (lifetime strategy n)
    (fun r s' => match r with
      | None => heap s' = heap s /\ trace s' = trace s
      | Some (t, hist) => exists a', spec_runs strategy n [] spec_init hist a' /\
          represents t (heap s) (trace s) a' s'
      end) s.
Proof.
  intros Hwf Hw. unfold lifetime. eapply wps_seq; [by apply create_spec|]. simpl.
  intros t s1 [(-> & ? & ?)|[Ht Hr]].
  - change (is_null NULL) with true. by apply wps_ret.
  - rewrite is_null_false by done. eapply wps_seq; [by eapply drive_spec|]. simpl.
    intros hist s2 ?. by apply wps_ret.
Qed.

(** With no reference left, the heap is what it was before the token existed. *)
Lemma represents_reclaimed t F tr a s :
  represents t F tr a s -> spec_refs a = 0 -> heap s = F.
Proof.
  intros [] H0. unfold token_after in rp_token0. rewrite H0 in rp_token0. simpl in rp_token0.
  unfold spec_refs in H0. destruct (sp_live a), (sp_done a); simpl in H0; try lia.
  apply map_eq. intros p. destruct (decide (p = t)) as [->|]; [congruence|].
  apply rp_frame0; [done|]. apply not_elem_of_nil.
Qed.
End Refinement.

(** ** Properties *)

(** C2.  Refinement.  From any well-formed machine, the life of a token under any
    well-behaved client (which may choose each call from the results so far, and
    whose callbacks only observe) terminates without undefined behaviour, its
    results are allowed by the specification, and the final machine represents
    the abstract state: in particular the client functions called are, in order,
    exactly those of the specification, and no other object has changed.  If the
    token cannot be created, nothing has changed. *)
Theorem token_refines_spec {E : Ext} {TS : TreiberSpec E} client strategy n s :
  client_guar client ->
  (forall fn ctx, silent (body client) (K_cancel_cb (CC_user fn) ctx)) ->
  wf_machine s -> well_behaved strategy n [] spec_init ->
  wp (body client) log (lifetime strategy n)
    (fun r s' => match r with
      | None => heap s' = heap s /\ trace s' = trace s
      | Some (t, hist) => exists a', spec_runs strategy n [] spec_init hist a' /\
          represents t (heap s) (trace s) a' s'
      end) s.
Proof. intros. by apply lifetime_spec. Qed.

(** C6.  Not called once unregistered, and never called twice.  When Unregister of a
    live handle returns true, then in everything the client does next (more calls of
    the interface, of any number and in any order) a client function [c] is called, in
    the history of calls actually made, no more often than the *other* registrations
    still account for: once for each that has [c] as its callback and is live, and once
    for each whose release hook it is (the hook of the retired registration runs too).
    So the retired callback itself is not called again, and a callback that is
    registered once is called at most once. *)
Theorem unregister_prevents_callback {E : Ext} {TS : TreiberSpec E} client strategy n t F tr a s L1 r L2 :
  client_guar client ->
  (forall fn ctx, silent (body client) (K_cancel_cb (CC_user fn) ctx)) ->
  represents t F tr a s -> sp_live a = L1 ++ r :: L2 ->
  (forall a', spec_step a (TUnregister (reg_node r)) (bool_ptr true) a' ->
     well_behaved strategy n [bool_ptr true] a') ->
  wp (body client) log
    (let! v := exec t (TUnregister (reg_node r)) in
     let! hist := drive t strategy n [v] in Ret (v, hist))%prog
    (fun res s' => res.1 = bool_ptr true /\ exists calls, trace s' = trace s ++ calls /\
       forall c, (forall h op, strategy h = Some op -> registers c op = 0) ->
         occurs c calls <= due c (L1 ++ L2) (sp_done a) + occurs c (release_calls r)) s.
Proof.
  intros Hcl Hsil Hr HL Hw.
  destruct (rp_user _ _ _ _ _ Hr r) as (fn & rel & Hfn & Hrel); [rewrite HL; set_solver|].
  eapply wps_seq; [eapply wp_evolves; [done|apply guar_exec|]; eapply sim_unregister_live; try done; by eapply hook_silent|].
  simpl. intros v s1 [[-> Hr1] _].
  eapply wps_seq; [eapply wp_evolves; [done|apply guar_drive|]; eapply (drive_spec client); try done;
    apply Hw; by apply step_unregister_live|].
  simpl. intros hist s2 [(a2 & Hruns & Hr2) He]. apply wps_ret. split; [done|].
  destruct (ev_trace _ _ (He (rp_wf _ _ _ _ _ Hr1))) as [calls Hcalls].
  exists (release_calls r ++ calls). rewrite Hcalls, (rp_trace _ _ _ _ _ Hr1), (rp_trace _ _ _ _ _ Hr). simpl.
  split; [by rewrite <- !(assoc_L (++))|]. intros c Hc.
  pose proof (spec_runs_due c _ _ _ _ _ _ Hc Hruns) as Hdue. simpl in Hdue.
  rewrite (rp_trace _ _ _ _ _ Hr2), (rp_trace _ _ _ _ _ Hr1) in Hcalls. simpl in Hcalls.
  rewrite <- (assoc_L (++)) in Hcalls. apply app_inv_head in Hcalls. rewrite Hcalls in Hdue.
  rewrite !occurs_app in Hdue. rewrite occurs_app. lia.
Qed.

(** C8.  Nothing leaks.  When the client has dropped its reference and unregistered
    every handle, the heap is exactly what it was before the token was created. *)
Theorem token_reclaimed {E : Ext} {TS : TreiberSpec E} client strategy n s :
  client_guar client ->
  (forall fn ctx, silent (body client) (K_cancel_cb (CC_user fn) ctx)) ->
  wf_machine s -> well_behaved strategy n [] spec_init ->
  (forall hist a', spec_runs strategy n [] spec_init hist a' -> spec_refs a' = 0) ->
  wp (body client) log (lifetime strategy n) (fun _ s' => heap s' = heap s) s.
Proof.
  intros Hcl Hsil Hwf Hw H0. eapply wp_mono; [by apply lifetime_spec|].
  simpl. intros [[t hist]|] s'; [|by intros [? _]]. intros (a' & Hruns & Hr).
  eapply represents_reclaimed; [done|by eapply H0].
Qed.

(** ** A client *)

Lemma quiet_silent {E : Ext} fn ctx : silent (body quiet_client) (K_cancel_cb (CC_user fn) ctx).
Proof. intros s. apply wps_ret. split; [done|]. exists []. split; [done|]. by rewrite app_nil_r. Qed.

(** Register a callback, cancel, ask, return the handle, drop the token. *)
Definition demo_strategy (hist : list ptr) : option token_op :=
  match hist with
  | [] => Some (TRegister 1 10%N (Some 3%N))
  | [_] => Some TCancel
  | [_; _] => Some TIsCancelled
  | [h; _; _] => Some (TUnregister h)
  | [_; _; _; _] => Some TDestroy
  | _ => None
  end.

Ltac spec_cases :=
  repeat match goal with
  | H : _ :: _ = ?L ++ _ :: _ |- _ => destruct L; simplify_eq/=
  | H : [] = ?L ++ _ :: _ |- _ => destruct L; simplify_eq/=
  | H : spec_step _ _ _ _ |- _ => inversion H; clear H; simplify_eq/=
  | H : Some _ = Some _ |- _ => injection H as H; simplify_eq/=
  | H : None = Some _ |- _ => discriminate H
  | H : Some _ = None |- _ => discriminate H
  | H : spec_runs _ _ _ _ _ _ |- _ => inversion H; clear H; simplify_eq/=
  end.

Lemma demo_allowed : well_behaved demo_strategy 9 [] spec_init.
Proof.
  repeat first
    [ apply wb_stop; reflexivity
    | eapply wb_step;
      [ reflexivity
      | simpl; first [lia | split; [lia|reflexivity] | by left | right; by left]
      | intros ? ? Hst; inversion Hst; clear Hst; simplify_eq/= ] ]; spec_cases.
Qed.

Lemma demo_balanced hist a' : spec_runs demo_strategy 9 [] spec_init hist a' -> spec_refs a' = 0.
Proof. intros Hr. spec_cases; reflexivity. Qed.

#[local] Existing Instances RefExt.ext RefExt.treiber.

Lemma token_refines_spec_witness :
  wp (body quiet_client) log (lifetime demo_strategy 9)
    (fun r s' => match r with
      | None => heap s' = heap boot /\ trace s' = trace boot
      | Some (t, hist) => exists a', spec_runs demo_strategy 9 [] spec_init hist a' /\
          represents t (heap boot) (trace boot) a' s'
      end) boot.
Proof.
  apply (token_refines_spec quiet_client demo_strategy 9 boot).
  - apply quiet_guar.
  - apply quiet_silent.
  - apply boot_wf.
  - apply demo_allowed.
Defined.

Lemma token_reclaimed_witness :
  wp (body quiet_client) log (lifetime demo_strategy 9) (fun _ s' => heap s' = heap boot) boot.
Proof.
  apply (token_reclaimed quiet_client demo_strategy 9 boot).
  - apply quiet_guar.
  - apply quiet_silent.
  - apply boot_wf.
  - apply demo_allowed.
  - apply demo_balanced.
Defined.

(** A token at address 1 with one live callback at address 2. *)
Definition one_reg : registration := user_reg 2%N 1%N 10%N (Some 3%N).
Definition one_live : tspec := TSpec false 1 [one_reg] [] [2%N] [] [].
Definition one_live_st : st :=
  match run (body quiet_client) log 100
          (let! t := UfsrvCancellationTokenCreate in exec t (TRegister 1 10%N (Some 3%N)))%prog boot with
  | Done _ s => s
  | _ => boot
  end.

Lemma one_live_represents : represents 1%N ∅ [] one_live one_live_st.
Proof.
  split.
  - unfold one_live_st. destruct (run _ _ _ _ _) eqn:Er; try apply boot_wf.
    eapply (evolves_run_done quiet_client); [apply quiet_guar| |exact Er|apply boot_wf].
    apply guar_bind; [apply (api_guar _ _ api_token_create)|intros; apply guar_exec].
  - by apply (spec_inv_step spec_init (TRegister 1 10%N (Some 3%N)) 2%N); [apply spec_inv_init|];
      apply step_register; [| |set_solver].
  - apply token_after_intro; [done|]. exists 2%N, 2%N. split_and!; try done.
    + split_and!; [done|done|]. by exists NULL.
    + apply NoDup_singleton.
  - done.
  - intros r Hr. by apply elem_of_nil in Hr.
  - intros r Hr%list_elem_of_singleton. subst r. by exists 1%N, (Some 3%N).
  - intros h Hh%list_elem_of_singleton. subst h. by split_and!.
  - done.
  - intros p Hp Hn. assert (Hp2 : p <> 2%N) by (intros ->; apply Hn; by left).
    change (heap one_live_st) with
      (heap (with_heap (fun _ => <[2%N := linked_node one_reg 1%N NULL NULL]>
        (<[1%N := @OToken RefExt.ext (MkToken 2 false false 2%N)]> ∅)) boot)).
    simpl. by rewrite !lookup_insert_ne.
  - done.
Qed.

(** The token is cancelled after the callback was unregistered: only the callback's
    release hook has run. *)
Lemma unregister_prevents_callback_witness :
  wp (body quiet_client) log
    (let! v := exec 1%N (TUnregister (reg_node one_reg)) in
     let! hist := drive 1%N (fun _ => Some TCancel) 1 [v] in Ret (v, hist))%prog
    (fun res s' => res.1 = bool_ptr true /\ exists calls, trace s' = trace one_live_st ++ calls /\
       occurs (K_cancel_cb (CC_user 3) 10) calls <= 1 /\ reg_call one_reg ∉ calls) one_live_st.
Proof.
  eapply wp_mono.
  - apply (unregister_prevents_callback quiet_client (fun _ => Some TCancel) 1 1%N ∅ [] one_live
      one_live_st [] one_reg []).
    + apply quiet_guar.
    + apply quiet_silent.
    + apply one_live_represents.
    + reflexivity.
    + intros a' Hst. spec_cases. eapply wb_step; [reflexivity|simpl; lia|intros; constructor].
  - simpl. intros res s' (Hv & calls & Ht & Hc). split; [done|]. exists calls. split; [done|].
    assert (Hnone : forall c (h : list ptr) op, Some TCancel = Some op -> registers c op = 0).
    { intros c h op Hop. by injection Hop as <-. }
    split; [exact (Hc _ (Hnone _))|]. apply occurs_none, Nat.le_0_r. exact (Hc (reg_call one_reg) (Hnone _)).
Defined.
