(* ===== verification/FutureFacts.v ===== *)
(** * FutureFacts: correctness of promises and futures

    The representation of a future: its completion flags, its two lists and the
    continuation and waiter nodes on them.  The operations are specified against
    it, for any Treiber stack that satisfies [TreiberSpec] and any code table. *)
From S2P Require Import Prelude Machine Uflib Model Cancellation Scheduler Coroutine Future Logic.
From S2P Require Import CancellationFacts Guarantee.

(** A registered continuation, and a thread blocked in [Get]. *)
Record pending := Pend { pd_node : ptr; pd_fn : fut_cb; pd_ctx : ptr }.
Record sleeper := Sleeper { sl_node : ptr; sl_fd : Z; sl_refs : Z; sl_handle : ptr }.
Definition pd_call (f : ptr) (k : pending) : code := K_future_cb (pd_fn k) f (pd_ctx k).

(** The disposal of a result: its value goes to [free_value], if both are there. *)
Definition dispose (r : UfsrvFutureResult) : list code :=
  if is_null (res_value r) then []
  else match res_free_value r with Some fn => [K_free_value fn (res_value r)] | None => [] end.

(** Calls made in a state satisfying [P] that terminate, leave the addresses in
    [D] and the eventfds in [DF] alone, and call only what [T] allows. *)
Definition mannered `{E : Ext} (tbl : code -> cprog ptr) (P : st -> Prop) (D : ptr -> Prop)
    (DF : Z -> Prop) (T : list code -> Prop) (c : code) : Prop :=
  forall s, P s -> wp tbl log (tbl c)
    (fun _ s' => (forall p, D p -> heap s' !! p = heap s !! p) /\
                 (forall fd, DF fd -> fds s' !! fd = fds s !! fd) /\
                 exists tr, T tr /\ trace s' = trace s ++ tr) s.

(** Client code that only observes. *)
Definition observes `{E : Ext} (tbl : code -> cprog ptr) (c : code) : Prop :=
  forall s, wp tbl log (tbl c)
    (fun _ s' => heap s' = heap s /\ fds s' = fds s /\ trace s' = trace s) s.
Lemma observes_mannered `{E : Ext} tbl P D DF c :
  observes tbl c -> mannered tbl P D DF (eq []) c.
Proof.
  intros Hc s _. eapply wp_mono; [apply Hc|]. simpl. intros _ s' (-> & -> & ->).
  split_and!; [done..|]. exists []. by rewrite app_nil_r.
Qed.

(** [stable X Zs P]: [P] does not notice changes to the cells [X], the eventfds [Zs]
    and the history. *)
Definition stable `{E : Ext} (X : list ptr) (Zs : list Z) (P : st -> Prop) : Prop :=
  forall s s', (forall p, p ∉ X -> heap s' !! p = heap s !! p) ->
    (forall z, z ∉ Zs -> fds s' !! z = fds s !! z) -> P s -> P s'.
(** The same of a [P] that may also speak about the allocator. *)
Definition keeps `{E : Ext} {TS : TreiberSpec E} (X : list ptr) (Zs : list Z) (P : st -> Prop) : Prop :=
  forall s s', (forall p, p ∉ X -> heap s' !! p = heap s !! p) ->
    (forall z, z ∉ Zs -> fds s' !! z = fds s !! z) -> evolves s s' -> P s -> P s'.
Lemma stable_keeps `{E : Ext} {TS : TreiberSpec E} X Zs P : stable X Zs P -> keeps X Zs P.
Proof. intros HP s s' Hh Hz _. by apply HP. Qed.

(** Continuations with effects: [I L] holds while the ones of [L] are still to run.
    Each leaves [D] and [DF] alone and makes the calls [calls] lists. *)
Record led `{E : Ext} (tbl : code -> cprog ptr) (P : st -> Prop) (X : list ptr) (Zs : list Z)
    (D : ptr -> Prop) (DF : Z -> Prop) (T : list code -> Prop) (calls : pending -> list code)
    (f : ptr) (K : list pending) (I : list pending -> st -> Prop) : Prop := {
  led_stable L : stable X Zs (I L);
  led_call k L s : suffix (k :: L) K -> P s -> I (k :: L) s -> wp tbl log (tbl (pd_call f k))
    (fun _ s' => (forall p, D p -> heap s' !! p = heap s !! p) /\
                 (forall fd, DF fd -> fds s' !! fd = fds s !! fd) /\ I L s' /\
                 exists tr, T tr /\ made T (calls k) (trace s ++ tr) (trace s')) s;
}.
(** The same for continuations that may change the future they are called on. *)
Record led_moving `{E : Ext} {TS : TreiberSpec E} (tbl : code -> cprog ptr) (X : list ptr) (Zs : list Z)
    (D : ptr -> Prop) (DF : Z -> Prop) (T : list code -> Prop) (calls : pending -> list code)
    (f : ptr) (K : list pending) (I : list pending -> st -> Prop) : Prop := {
  lm_keeps L : keeps X Zs (I L);
  lm_call k L s : suffix (k :: L) K -> I (k :: L) s -> wp tbl log (tbl (pd_call f k))
    (fun _ s' => (forall p, D p -> heap s' !! p = heap s !! p) /\
                 (forall fd, DF fd -> fds s' !! fd = fds s !! fd) /\ I L s' /\
                 exists tr, T tr /\ made T (calls k) (trace s ++ tr) (trace s')) s;
}.
(** Everything called while the continuations of [K] run. *)
Definition all_calls (f : ptr) (calls : pending -> list code) (K : list pending) : list code :=
  K ≫= (fun k => pd_call f k :: calls k).

Lemma all_calls_cons f calls k K :
  all_calls f calls (k :: K) = (pd_call f k :: calls k) ++ all_calls f calls K.
Proof. done. Qed.
Lemma all_calls_silent f K : all_calls f (fun _ => []) K = pd_call f <$> K.
Proof. unfold all_calls. induction K as [|k K IH]; [done|]. by rewrite bind_cons, IH. Qed.
Arguments all_calls : simpl never.
Lemma mannered_led `{E : Ext} tbl P X Zs D DF T f K :
  (forall k, k ∈ K -> mannered tbl P D DF T (pd_call f k)) ->
  led tbl P X Zs D DF T (fun _ => []) f K (fun _ _ => True).
Proof.
  intros Hc. split; [done|]. intros k L s [l ->] HP _. eapply wp_mono; [apply Hc; [set_solver|done]|].
  simpl. intros _ s' (? & ? & tr & ? & ->). split_and!; try done. exists tr. split; [done|apply made_nil].
Qed.
Lemma led_tail `{E : Ext} {TS : TreiberSpec E} tbl X Zs D DF T calls f k K I :
  led_moving tbl X Zs D DF T calls f (k :: K) I -> led_moving tbl X Zs D DF T calls f K I.
Proof. intros []. split; [done|]. intros k' L s Hs. apply lm_call0. by apply suffix_cons_r. Qed.

Section Representation.
Context {E : Ext} {TS : TreiberSpec E}.
Implicit Types (h : gmap N obj) (fd : gmap Z Z).

Definition pending_node h (k : pending) : Prop :=
  pd_node k <> NULL /\ exists b, h !! pd_node k = Some (OContinuation (MkContinuation b (pd_fn k) (pd_ctx k))) /\
    tn_refs b = 1%Z /\ tn_claimed b = false.
(** A waiter on the list; and one that has been claimed and woken by a write of 1. *)
Definition sleeping h fd (w : sleeper) : Prop :=
  (0 <= sl_fd w)%Z /\ fd !! sl_fd w = Some 0%Z /\ (2 <= sl_refs w)%Z /\
  exists b, h !! sl_node w = Some (OWaiter (MkWaiter b NULL NULL (sl_fd w) (sl_handle w))) /\
    tn_refs b = sl_refs w /\ tn_claimed b = false.
Definition awake h fd (w : sleeper) : Prop :=
  fd !! sl_fd w = Some 1%Z /\
  exists b, h !! sl_node w = Some (OWaiter (MkWaiter b NULL NULL (sl_fd w) (sl_handle w))) /\
    tn_refs b = (sl_refs w - 1)%Z /\ tn_claimed b = true.

Definition pd_nodes (K : list pending) : list ptr := pd_node <$> K.
Definition sl_nodes (W : list sleeper) : list ptr := sl_node <$> W.
Definition sl_fds (W : list sleeper) : list Z := sl_fd <$> W.

Lemma pd_nodes_cons k K : pd_nodes (k :: K) = pd_node k :: pd_nodes K.
Proof. done. Qed.
Lemma sl_nodes_cons w W : sl_nodes (w :: W) = sl_node w :: sl_nodes W.
Proof. done. Qed.
Lemma sl_fds_cons w W : sl_fds (w :: W) = sl_fd w :: sl_fds W.
Proof. done. Qed.

Definition stack_at h (p : ptr) (L : list ptr) (closed : bool) : Prop :=
  p <> NULL /\ exists t, h !! p = Some (OStack t) /\ ts_nodes t = L /\ ts_closed t = closed.

(** A future that has not been completed: [K] are its continuations and [W] its
    blocked waiters, both in list order (latest first). *)
Record open_future h fd (f : ptr) (x : UfsrvFuture) (K : list pending) (W : list sleeper) : Prop := {
  of_null : f <> NULL;
  of_fut : h !! f = Some (OFuture x);
  of_completed : fut_is_completed x = false;
  of_pending : fut_state x = PENDING;
  of_conts : stack_at h (fut_continuations x) (pd_nodes K) false;
  of_waits : stack_at h (fut_waiters x) (sl_nodes W) false;
  of_distinct : fut_continuations x <> fut_waiters x;
  of_pendings k : k ∈ K -> pending_node h k;
  of_sleepers w : w ∈ W -> sleeping h fd w;
  of_nodup_k : NoDup (pd_nodes K);
  of_nodup_w : NoDup (sl_nodes W);
  of_nodup_fd : NoDup (sl_fds W);
}.

(** A completed future: both lists are closed for good. *)
Record settled_future h (f : ptr) (x : UfsrvFuture) : Prop := {
  sf_null : f <> NULL;
  sf_fut : h !! f = Some (OFuture x);
  sf_completed : fut_is_completed x = true;
  sf_ready : fut_state x = READY;
  sf_conts : stack_at h (fut_continuations x) [] true;
  sf_waits : stack_at h (fut_waiters x) [] true;
  sf_distinct : fut_continuations x <> fut_waiters x;
}.
(** The addresses a future owns. *)
Definition footprint (f : ptr) (x : UfsrvFuture) (K : list pending) (W : list sleeper) : list ptr :=
  f :: fut_continuations x :: fut_waiters x :: pd_nodes K ++ sl_nodes W.

(** What these predicates depend on: the cells of the footprint and the
    descriptors of the sleepers. *)
Lemma stack_at_frame h h' p L c : h' !! p = h !! p -> stack_at h p L c -> stack_at h' p L c.
Proof. intros Hp (? & t & ? & ?). split; [done|]. exists t. by rewrite Hp. Qed.
Lemma pending_node_frame h h' k :
  h' !! pd_node k = h !! pd_node k -> pending_node h k -> pending_node h' k.
Proof. intros Hp (? & b & ? & ?). split; [done|]. exists b. by rewrite Hp. Qed.
Lemma sleeping_frame h h' fd fd' w :
  h' !! sl_node w = h !! sl_node w -> fd' !! sl_fd w = fd !! sl_fd w ->
  sleeping h fd w -> sleeping h' fd' w.
Proof.
  intros Hp Hz (? & ? & ? & b & ? & ?). unfold sleeping. rewrite Hz. split_and!; [done..|]. exists b. by rewrite Hp.
Qed.

Lemma awake_frame h h' fd fd' w :
  h' !! sl_node w = h !! sl_node w -> fd' !! sl_fd w = fd !! sl_fd w -> awake h fd w -> awake h' fd' w.
Proof. intros Hh Hz (Hfd & b & Hb & Hr). split; [by rewrite Hz|]. exists b. by rewrite Hh. Qed.

Lemma footprint_cont f x K W k : k ∈ K -> pd_node k ∈ footprint f x K W.
Proof.
  intros Hk. unfold footprint. rewrite !elem_of_cons, elem_of_app. do 3 right. left.
  by apply list_elem_of_fmap_2.
Qed.
Lemma footprint_wait f x K W w : w ∈ W -> sl_node w ∈ footprint f x K W.
Proof.
  intros Hw. unfold footprint. rewrite !elem_of_cons, elem_of_app. do 4 right.
  by apply list_elem_of_fmap_2.
Qed.

Lemma open_frame h h' fd fd' f x K W :
  (forall p, p ∈ footprint f x K W -> h' !! p = h !! p) ->
  (forall z, z ∈ sl_fds W -> fd' !! z = fd !! z) ->
  open_future h fd f x K W -> open_future h' fd' f x K W.
Proof.
  intros Hh Hz []. split; try done.
  - rewrite Hh; [done|]. by left.
  - eapply stack_at_frame; [|done]. apply Hh. right; by left.
  - eapply stack_at_frame; [|done]. apply Hh. do 2 right; by left.
  - intros k Hk. eapply pending_node_frame; [|by apply of_pendings0]. by apply Hh, footprint_cont.
  - intros w Hw. eapply sleeping_frame; [| |by apply of_sleepers0].
    + by apply Hh, footprint_wait.
    + apply Hz. by apply list_elem_of_fmap_2.
Qed.
Lemma settled_frame h h' f x :
  (forall p, p ∈ [f; fut_continuations x; fut_waiters x] -> h' !! p = h !! p) ->
  settled_future h f x -> settled_future h' f x.
Proof.
  intros Hh []. split; try done.
  - rewrite Hh; [done|]. by left.
  - eapply stack_at_frame; [|done]. apply Hh. right; by left.
  - eapply stack_at_frame; [|done]. apply Hh. do 2 right; by left.
Qed.

(** Everything an open future owns is allocated, and of its kind. *)
Lemma open_allocated h fd f x K W p :
  open_future h fd f x K W -> p ∈ footprint f x K W -> is_Some (h !! p).
Proof.
  intros [? ? ? ? (_ & ? & ? & _) (_ & ? & ? & _) ? Hk Hw ? ? ?]. unfold footprint.
  rewrite !elem_of_cons, elem_of_app. intros [->|[->|[->|[Hp|Hp]]]]; eauto.
  - apply list_elem_of_fmap in Hp as (k & -> & Hin). destruct (Hk k Hin) as (_ & b & ? & _). eauto.
  - apply list_elem_of_fmap in Hp as (w & -> & Hin). destruct (Hw w Hin) as (_ & _ & _ & b & ? & _). eauto.
Qed.
(** Cells of another kind are outside. *)
Lemma open_outside h fd f x K W p o :
  open_future h fd f x K W -> h !! p = Some o ->
  (forall y, o <> OFuture y) -> (forall y, o <> OStack y) -> (forall y, o <> OContinuation y) ->
  (forall y, o <> OWaiter y) -> p ∉ footprint f x K W.
Proof.
  intros [? ? ? ? (_ & ? & ? & _) (_ & ? & ? & _) ? Hk Hw ? ? ?] Hp ????. unfold footprint.
  rewrite !not_elem_of_cons, not_elem_of_app. split_and!; try congruence.
  - intros (k & -> & Hin)%list_elem_of_fmap. destruct (Hk k Hin) as (_ & b & ? & _). congruence.
  - intros (w & -> & Hin)%list_elem_of_fmap. destruct (Hw w Hin) as (_ & _ & _ & b & ? & _). congruence.
Qed.

(** Assigning fields of the future other than its flags and lists. *)
Lemma open_update h fd f x x' K W :
  open_future h fd f x K W ->
  fut_is_completed x' = fut_is_completed x -> fut_state x' = fut_state x ->
  fut_continuations x' = fut_continuations x -> fut_waiters x' = fut_waiters x ->
  open_future (<[f := OFuture x']> h) fd f x' K W.
Proof.
  intros Ho Hc Hs Hk Hw. pose proof Ho as []. destruct of_conts0 as (? & t & ? & ?), of_waits0 as (? & u & ? & ?).
  split; rewrite ?Hc, ?Hs, ?Hk, ?Hw; try done.
  - apply lookup_insert_eq.
  - eapply stack_at_frame; [apply lookup_insert_ne; congruence|by split; [|exists t]].
  - eapply stack_at_frame; [apply lookup_insert_ne; congruence|by split; [|exists u]].
  - intros k Hin. pose proof (of_pendings0 k Hin) as (_ & b & Hb & _).
    eapply pending_node_frame; [apply lookup_insert_ne; congruence|by apply of_pendings0].
  - intros w Hin. pose proof (of_sleepers0 w Hin) as (_ & _ & _ & b & Hb & _).
    eapply sleeping_frame; [apply lookup_insert_ne; congruence|done|by apply of_sleepers0].
Qed.
Lemma settled_update h f x x' :
  settled_future h f x ->
  fut_is_completed x' = fut_is_completed x -> fut_state x' = fut_state x ->
  fut_continuations x' = fut_continuations x -> fut_waiters x' = fut_waiters x ->
  settled_future (<[f := OFuture x']> h) f x'.
Proof.
  intros [] Hc Hs Hk Hw. destruct sf_conts0 as (? & t & ? & ?), sf_waits0 as (? & u & ? & ?).
  split; rewrite ?Hc, ?Hs, ?Hk, ?Hw; try done.
  - apply lookup_insert_eq.
  - eapply stack_at_frame; [apply lookup_insert_ne; congruence|by split; [|exists t]].
  - eapply stack_at_frame; [apply lookup_insert_ne; congruence|by split; [|exists u]].
Qed.

(** The future after completion with [r]. *)
Definition complete_with (r : UfsrvFutureResult) (x : UfsrvFuture) : UfsrvFuture :=
  set_fut_cancel_handle NULL (set_fut_state READY (set_fut_result r (set_fut_is_completed true x))).
Definition published (f : ptr) (r : UfsrvFutureResult) (s : st) : Prop :=
  exists x, heap s !! f = Some (OFuture x) /\ fut_state x = READY /\ fut_result x = r.
End Representation.
Arguments pd_nodes : simpl never.
Arguments sl_nodes : simpl never.
Arguments sl_fds : simpl never.

Section Specs.
Context {E : Ext} {TS : TreiberSpec E} (tbl : code -> cprog ptr).
#[local] Abbreviation WP := (wp tbl log).

(** Releasing the last reference of a continuation node frees it. *)
Lemma sNodeRelease_last n fn ctx b s :
  heap s !! n = Some (OContinuation (MkContinuation b fn ctx)) -> n <> NULL -> tn_refs b = 1%Z ->
  WP (sNodeRelease n) (fun _ s' => s' = with_heap (delete n) s) s.
Proof.
  intros Hk Hn Hb. unfold sNodeRelease, cont_release. wp_steps.
  rewrite tn_release_last, bool_decide_eq_true_2 by done. simpl. wp_steps.
  destruct s; unfold store_cell, with_heap; simpl. by rewrite delete_insert_eq.
Qed.

Lemma evolves_store {A} `{!Cell A} p (a a' : A) s :
  heap s !! p = Some (cell_inj a) -> obj_le (cell_inj a) (cell_inj a') -> evolves s (store_cell p a' s).
Proof. apply evolves_update. Qed.
Lemma claim_evolves n b fn ctx s :
  heap s !! n = Some (OContinuation (MkContinuation b fn ctx)) ->
  evolves s (store_cell n (MkContinuation (tn_claim b).2 fn ctx) s).
Proof. intros Hn. eapply evolves_store; [exact Hn|]. split; [done|]. split; try done. simpl. intros _. apply tn_claim_claimed. Qed.

(** Running the continuations.  They may change the cell of the future itself: what
    holds of it is part of [I]. *)
Lemma drain_conts_moving f K D DF T X Zs calls I s :
  (forall k, k ∈ K -> pending_node (heap s) k) -> NoDup (pd_nodes K) ->
  (forall p, p ∈ pd_nodes K -> D p) -> (forall p, p ∈ pd_nodes K -> p ∈ X) ->
  led_moving tbl X Zs D DF T calls f K I -> I K s ->
  WP (sDrainContinuations_loop f (pd_nodes K))
    (fun _ s' => (forall p, D p -> p ∉ pd_nodes K -> heap s' !! p = heap s !! p) /\
       (forall p, p ∈ pd_nodes K -> heap s' !! p = None) /\
       (forall fd, DF fd -> fds s' !! fd = fds s !! fd) /\
       made T (all_calls f calls K) (trace s) (trace s') /\ I [] s') s.
Proof.
  revert s; induction K as [|k K IH]; intros s Hk Hnd HD HX Hled HI; rewrite ?pd_nodes_cons in *; simpl.
  - apply wps_ret. split_and!; [done|set_solver|done|apply made_nil|done].
  - apply NoDup_cons in Hnd as [Hkn Hnd]. pose proof (lm_keeps _ _ _ _ _ _ _ _ _ _ Hled) as Hst.
    destruct (Hk k) as (Hn0 & b & Hb & Hrefs & Hcl); [by left|].
    assert (HkX : forall p, p ∉ X -> p <> pd_node k) by (intros p Hp ->; apply Hp, HX; by left).
    unfold sRunContinuation, cont_claim. wp_steps. rewrite tn_claim_wins, Hcl. simpl. wp_steps.
    eapply wp_call_bind; [apply (lm_call _ _ _ _ _ _ _ _ _ _ Hled k K); [done|]|].
    { eapply Hst; [| | |exact HI]; [|done|].
      - intros p Hp. specialize (HkX p Hp). simpl. lk.
      - etrans; [eapply (claim_evolves _ b); exact Hb|apply evolves_log]. }
    simpl. intros _ s1 (Hh1 & Hf1 & HI1 & tr & HT & Htr).
    assert (Hk1 : heap s1 !! pd_node k = Some (OContinuation
      (MkContinuation (tn_claim b).2 (pd_fn k) (pd_ctx k)))).
    { rewrite Hh1 by (apply HD; by left). lk. }
    eapply wps_seq; [eapply sNodeRelease_last; [exact Hk1|done|by rewrite tn_claim_refs]|].
    simpl. intros _ s2 ->.
    assert (Hsame : forall p, D p -> p <> pd_node k -> delete (pd_node k) (heap s1) !! p = heap s !! p).
    { intros p Hp Hne. rewrite lookup_delete_ne by done. rewrite Hh1 by done. lk. }
    eapply wp_mono; [apply IH; clear IH|].
    + intros k' Hk'. assert (Hk'n : pd_node k' ∈ pd_nodes K) by by apply list_elem_of_fmap_2.
      eapply pending_node_frame; [|apply (Hk k'); by right]. simpl. apply Hsame; [apply HD; by right|].
      intros Hx. by rewrite Hx in Hk'n.
    + done.
    + intros p Hp. apply HD. by right.
    + intros p Hp. apply HX. by right.
    + by eapply led_tail.
    + eapply Hst; [| | |exact HI1]; [|done|apply evolves_delete]. intros p Hp. specialize (HkX p Hp). simpl. lk.
    + simpl. intros _ s2 (Ha & Hb' & Hc & Hd & HI2). split_and!; [| | | |done].
      * intros p Hp [Hpk HpK]%not_elem_of_cons. rewrite Ha by done. by apply Hsame.
      * intros p [->|Hp]%elem_of_cons; [|by apply Hb'].
        rewrite Ha; [apply lookup_delete_eq|apply HD; by left|done].
      * intros fd Hfd. rewrite Hc by done. by apply Hf1.
      * rewrite all_calls_cons. eapply made_app; [|exact Hd]. by eapply made_cons.
Qed.

(** Continuations that leave the future alone see it as it was published. *)
Lemma led_reading f y X X' Zs D DF T calls K I :
  led tbl (published f (fut_result y)) X Zs D DF T calls f K I -> fut_state y = READY ->
  D f -> f ∉ X' -> (forall p, p ∈ X' -> p ∈ X) ->
  led_moving tbl X' Zs D DF T calls f K (fun L s => heap s !! f = Some (OFuture y) /\ I L s).
Proof.
  intros [Hst Hcall] Hrd HDf Hf HX. split.
  - intros L s s' Hh Hz _ [Hy HI]. split; [by rewrite Hh|]. eapply Hst; [|exact Hz|exact HI]. auto.
  - intros k L s Hs [Hy HI]. eapply wp_mono; [apply Hcall; [done|by exists y|done]|].
    simpl. intros _ s' (Hh & Hfd & HI' & Htr). split_and!; try done. by rewrite Hh.
Qed.

Lemma drain_conts_led f r K D DF T X Zs calls I s :
  published f r s -> (forall k, k ∈ K -> pending_node (heap s) k) -> NoDup (pd_nodes K) ->
  (forall p, p ∈ f :: pd_nodes K -> D p) -> (forall p, p ∈ pd_nodes K -> p ∈ X) ->
  led tbl (published f r) X Zs D DF T calls f K I -> I K s ->
  WP (sDrainContinuations_loop f (pd_nodes K))
    (fun _ s' => (forall p, D p -> p ∉ pd_nodes K -> heap s' !! p = heap s !! p) /\
       (forall p, p ∈ pd_nodes K -> heap s' !! p = None) /\
       (forall fd, DF fd -> fds s' !! fd = fds s !! fd) /\
       made T (all_calls f calls K) (trace s) (trace s') /\ I [] s') s.
Proof.
  intros (y & Hy & Hrd & <-) Hk Hnd HD HX Hled HI.
  assert (Hf : f ∉ pd_nodes K) by (intros (k & -> & Hin)%list_elem_of_fmap; destruct (Hk k Hin) as (_ & b & Hb & _); congruence).
  eapply wp_mono; [eapply (drain_conts_moving f K D DF T (pd_nodes K) Zs calls (fun L s => heap s !! f = Some (OFuture y) /\ I L s)); try done|simpl; naive_solver].
  - intros p Hp. apply HD. by right.
  - eapply led_reading; try done. apply HD. by left.
Qed.

(** Waking the blocked waiters: each is claimed, written to once and released. *)
Lemma drain_waits_spec W s :
  (forall w, w ∈ W -> sleeping (heap s) (fds s) w) -> NoDup (sl_nodes W) -> NoDup (sl_fds W) ->
  WP (sDrainWaiters_loop (sl_nodes W))
    (fun _ s' => (forall w, w ∈ W -> awake (heap s') (fds s') w) /\
       (forall p, p ∉ sl_nodes W -> heap s' !! p = heap s !! p) /\
       (forall fd, fd ∉ sl_fds W -> fds s' !! fd = fds s !! fd) /\
       trace s' = trace s /\ evolves s s') s.
Proof.
  revert s; induction W as [|w W IH]; intros s Hw Hn Hf; rewrite ?sl_nodes_cons, ?sl_fds_cons in *; simpl.
  - apply wps_ret. split_and!; [set_solver|done..].
  - apply NoDup_cons in Hn as [Hwn Hn], Hf as [Hwf Hf].
    destruct (Hw w) as (Hfd & Hz & Hr2 & b & Hb & Hrefs & Hcl); [by left|].
    unfold waiter_claim, sWaiterRelease, waiter_release. wp_steps. rewrite tn_claim_wins, Hcl.
    simpl. unfold wake_waiter. wp_steps. change (is_null NULL) with true. simpl. wp_steps.
    rewrite bool_decide_eq_true_2 by done. simpl.
    eapply wps_write; [exact Hz|lia|]. simpl. wp_steps.
    rewrite tn_release_last, tn_claim_refs, Hrefs, bool_decide_eq_false_2 by lia. simpl. wp_steps.
    eapply wps_seq; [apply IH; clear IH; [|done..]|].
    + intros w' Hw'. destruct (Hw w') as (Hfd' & Hz' & Hr2' & b' & Hb' & ?); [by right|].
      assert (sl_node w' <> sl_node w) by (intros Hx; apply Hwn; rewrite <- Hx; by apply list_elem_of_fmap_2).
      assert (sl_fd w' <> sl_fd w) by (intros Hx; apply Hwf; rewrite <- Hx; by apply list_elem_of_fmap_2).
      split_and!; [done|by simpl; rewrite lookup_insert_ne|done|]. exists b'. split; [lk|done].
    + simpl. intros [] s' (Ha & Hb' & Hc & Hd & He). apply wps_ret. split_and!; [| | |done|].
      * intros w' [->|Hw']%elem_of_cons; [|by apply Ha]. split.
        { rewrite Hc by done. simpl. by rewrite lookup_insert_eq. }
        eexists. rewrite Hb' by done. split; [lk|].
        rewrite tn_release_refs, tn_claim_refs, tn_release_claimed, tn_claim_claimed. split; [lia|done].
      * intros p [Hp ?]%not_elem_of_cons. rewrite Hb' by done. lk.
      * intros fd [Hp ?]%not_elem_of_cons. rewrite Hc by done. simpl. by rewrite lookup_insert_ne.
      * etrans; [|exact He].
        etrans; [|eapply (evolves_store (A:=UfsrvWaiter)); [simpl; by rewrite lookup_insert_eq|by split]].
        etrans; [|apply evolves_fds; [simpl; by rewrite Hz|lia]].
        eapply (evolves_store (A:=UfsrvWaiter)); [exact Hb|by split].
Qed.

(** The queues of an open future, and what is left of them. *)
Definition queue_cells (x : UfsrvFuture) (K : list pending) (W : list sleeper) : list ptr :=
  fut_continuations x :: fut_waiters x :: pd_nodes K ++ sl_nodes W.
Definition queues_closed (h : gmap N obj) (x : UfsrvFuture) : Prop :=
  stack_at h (fut_continuations x) [] true /\ stack_at h (fut_waiters x) [] true /\ fut_continuations x <> fut_waiters x.
Lemma settled_closed h f x y :
  queues_closed h x -> f <> NULL -> h !! f = Some (OFuture y) -> fut_is_completed y = true -> fut_state y = READY ->
  fut_continuations y = fut_continuations x -> fut_waiters y = fut_waiters x -> settled_future h f y.
Proof. intros (Hk & Hw & Hd) ? ? ? ? Hyk Hyw. by split; rewrite ?Hyk, ?Hyw. Qed.

(** The queues and the future itself are apart. *)
Lemma open_apart h fd f x K W :
  open_future h fd f x K W ->
  f ∉ queue_cells x K W /\ fut_continuations x ∉ pd_nodes K /\ fut_waiters x ∉ pd_nodes K /\
  fut_continuations x ∉ sl_nodes W /\ fut_waiters x ∉ sl_nodes W /\ forall p, p ∈ pd_nodes K -> p ∉ sl_nodes W.
Proof.
  intros [? Hf ? ? (_ & ks & Hks & _) (_ & ws & Hws & _) ? Hk Hw _ _ _].
  assert (HK : forall p, p ∈ pd_nodes K -> exists o, h !! p = Some (OContinuation o)).
  { intros p (k & -> & Hin)%list_elem_of_fmap. destruct (Hk k Hin) as (_ & b & Hb & _). eauto. }
  assert (HW : forall p, p ∈ sl_nodes W -> exists o, h !! p = Some (OWaiter o)).
  { intros p (w & -> & Hin)%list_elem_of_fmap. destruct (Hw w Hin) as (_ & _ & _ & b & Hb & _). eauto. }
  unfold queue_cells. rewrite !not_elem_of_cons, not_elem_of_app. split_and!; try congruence.
  all: try (intros [o Ho]%HK; congruence). all: try (intros [o Ho]%HW; congruence).
  intros p [o Ho]%HK [o' Ho']%HW. congruence.
Qed.

(** The two drains of completion: [s0] is the state before the future was published. *)
Lemma drain_all_moving f x y K W D DF T X calls I s0 s :
  open_future (heap s0) (fds s0) f x K W ->
  heap s !! f = Some (OFuture y) -> fut_continuations y = fut_continuations x -> fut_waiters y = fut_waiters x ->
  (forall p, p ∈ queue_cells x K W -> heap s !! p = heap s0 !! p) ->
  (forall fd, fd ∈ sl_fds W -> fds s !! fd = fds s0 !! fd) ->
  (forall p, p ∈ queue_cells x K W -> D p) -> (forall fd, fd ∈ sl_fds W -> DF fd) ->
  (forall p, p ∈ queue_cells x K W -> p ∈ X) ->
  led_moving tbl X (sl_fds W) D DF T calls f K I -> I K s ->
  WP (sDrainWaiters f ;; sDrainContinuations f)%prog
    (fun _ s' => queues_closed (heap s') x /\
       (forall w, w ∈ W -> awake (heap s') (fds s') w) /\
       (forall p, p ∈ pd_nodes K -> heap s' !! p = None) /\
       (forall p, D p -> p ∉ queue_cells x K W -> heap s' !! p = heap s !! p) /\
       (forall fd, DF fd -> fd ∉ sl_fds W -> fds s' !! fd = fds s !! fd) /\
       made T (all_calls f calls K) (trace s) (trace s') /\ I [] s') s.
Proof.
  intros Ho Hf Hyc Hyw Hold Hfd HD HDF HX Hled HI. pose proof (open_apart _ _ _ _ _ _ Ho) as (Hfq & Hck & Hwk & Hcw & Hww & Hkw).
  pose proof Ho as []. pose proof (lm_keeps _ _ _ _ _ _ _ _ _ _ Hled) as Hst.
  destruct of_conts0 as (Hc0 & ks & Hks & Hksn & Hksc), of_waits0 as (Hw0 & ws & Hws & Hwsn & Hwsc).
  rewrite <- Hold in Hks by (by left). rewrite <- Hold in Hws by (by right; left).
  assert (HqK : forall p, p ∈ pd_nodes K -> p ∈ queue_cells x K W) by (unfold queue_cells; set_solver +).
  assert (HqW : forall p, p ∈ sl_nodes W -> p ∈ queue_cells x K W) by (unfold queue_cells; set_solver +).
  unfold queue_cells in Hfq. rewrite !not_elem_of_cons, not_elem_of_app in Hfq. destruct Hfq as (Hfc & Hfw & HfK & HfW).
  unfold sDrainWaiters, sDrainContinuations, lockless_treiber_stack_steal_all_and_close.
  wp_steps. rewrite Hyw. wp_steps. rewrite ts_steal_list, Hwsn.
  eapply wps_seq; [apply drain_waits_spec; [|done|done]|].
  { intros w Hw. assert (Hin : sl_node w ∈ sl_nodes W) by by apply list_elem_of_fmap_2.
    eapply sleeping_frame; [| |by apply of_sleepers0].
    - simpl. rewrite lookup_insert_ne by (intros Hx; apply Hww; by rewrite Hx). by apply Hold, HqW.
    - apply Hfd. by apply list_elem_of_fmap_2. }
  simpl. intros _ s1 (Haw & Hh1 & Hf1 & Ht1 & He1).
  assert (Hfs1 : heap s1 !! f = Some (OFuture y)) by (rewrite Hh1 by done; lk).
  assert (Hks2 : heap s1 !! fut_continuations x = Some (OStack ks)) by (rewrite Hh1 by done; lk).
  wp_steps. rewrite Hyc. wp_steps. rewrite ts_steal_list, Hksn.
  eapply wps_seq.
  { apply (drain_conts_moving f K D DF T X (sl_fds W) calls I); simpl; try done; auto.
    - intros k Hk. assert (Hin : pd_node k ∈ pd_nodes K) by by apply list_elem_of_fmap_2.
      eapply pending_node_frame; [|by apply of_pendings0]. simpl.
      rewrite lookup_insert_ne by (intros Hx; apply Hck; by rewrite Hx).
      rewrite Hh1 by auto. rewrite lookup_insert_ne by (intros Hx; apply Hwk; by rewrite Hx). auto.
    - eapply Hst; [| | |exact HI]; simpl; [|by apply Hf1|].
      2: { etrans; [|eapply (evolves_store (A:=tstack)); [exact Hks2|]]; [|by split; [|simpl; rewrite ts_steal_closed]].
           etrans; [|exact He1]. eapply (evolves_store (A:=tstack)); [exact Hws|by split; [|simpl; rewrite ts_steal_closed]]. }
      intros p Hp.
      assert (Hnq : p ∉ queue_cells x K W) by auto. unfold queue_cells in Hnq.
      rewrite !not_elem_of_cons, not_elem_of_app in Hnq. destruct Hnq as (? & ? & ? & ?).
      rewrite lookup_insert_ne by done. rewrite Hh1 by done. by rewrite lookup_insert_ne. }
  simpl. intros [] s2 (Hh2 & Hn2 & Hf2 & Ht2 & HI2). wp_steps.
  split_and!; [split_and!| |done| | |by rewrite Ht1 in Ht2|done].
  - split; [done|]. rewrite Hh2 by (done || by apply HD; left). eexists. split; [lk|]. by rewrite ts_steal_nodes, ts_steal_closed.
  - split; [done|]. rewrite Hh2 by (done || by apply HD; right; left). lk. rewrite Hh1 by done. eexists. split; [lk|].
    by rewrite ts_steal_nodes, ts_steal_closed.
  - done.
  - intros w Hw. assert (Hin : sl_node w ∈ sl_nodes W) by by apply list_elem_of_fmap_2.
    eapply awake_frame; [| |by apply Haw].
    + rewrite Hh2; [|by apply HD, HqW|by intros ?%Hkw]. rewrite lookup_insert_ne; [done|]. intros Hx. apply Hcw. by rewrite Hx.
    + apply Hf2, HDF. by apply list_elem_of_fmap_2.
  - unfold queue_cells. intros p Hp Hni. rewrite !not_elem_of_cons, not_elem_of_app in Hni.
    destruct Hni as (? & ? & ? & ?). rewrite Hh2 by done. lk. rewrite Hh1 by done. lk.
  - intros fd Hfd' Hni. rewrite Hf2 by done. by apply Hf1.
Qed.

Lemma drain_all_led f r x y K W D DF T X calls I s0 s :
  open_future (heap s0) (fds s0) f x K W ->
  heap s !! f = Some (OFuture y) -> fut_state y = READY -> fut_result y = r ->
  fut_is_completed y = true -> fut_continuations y = fut_continuations x -> fut_waiters y = fut_waiters x ->
  (forall p, p ∈ footprint f x K W -> p <> f -> heap s !! p = heap s0 !! p) ->
  (forall fd, fd ∈ sl_fds W -> fds s !! fd = fds s0 !! fd) ->
  (forall p, p ∈ footprint f x K W -> D p) -> (forall fd, fd ∈ sl_fds W -> DF fd) ->
  (forall p, p ∈ footprint f x K W -> p ∈ X) ->
  led tbl (published f r) X (sl_fds W) D DF T calls f K I -> I K s ->
  WP (sDrainWaiters f ;; sDrainContinuations f)%prog
    (fun _ s' => settled_future (heap s') f y /\
       (forall w, w ∈ W -> awake (heap s') (fds s') w) /\
       (forall p, p ∈ pd_nodes K -> heap s' !! p = None) /\
       (forall p, D p -> p ∉ footprint f x K W -> heap s' !! p = heap s !! p) /\
       (forall fd, DF fd -> fd ∉ sl_fds W -> fds s' !! fd = fds s !! fd) /\
       made T (all_calls f calls K) (trace s) (trace s') /\ I [] s') s.
Proof.
  intros Ho Hf Hrd <- Hcp Hyc Hyw Hold Hfd HD HDF HX Hled HI. pose proof (open_apart _ _ _ _ _ _ Ho) as (Hfq & _).
  eapply wp_mono; [apply (drain_all_moving f x y K W D DF T (queue_cells x K W) calls (fun L s => heap s !! f = Some (OFuture y) /\ I L s) s0); try done|].
  - intros p Hp. apply Hold; [by right|]. by intros ->.
  - intros p Hp. apply HD. by right.
  - eapply led_reading; try done; [apply HD; by left|]. intros p Hp. apply HX. by right.
  - simpl. intros _ s' (Hcl & Haw & Hk & Hrest & Hfds & Htr & Hfy & HI'). split_and!; try done.
    + eapply settled_closed; try done. apply Ho.
    + intros p Hp [Hne Hni]%not_elem_of_cons. by apply Hrest.
Qed.


Lemma drain_all_spec f r x y K W D DF T s0 s :
  open_future (heap s0) (fds s0) f x K W ->
  heap s !! f = Some (OFuture y) -> fut_state y = READY -> fut_result y = r ->
  fut_is_completed y = true -> fut_continuations y = fut_continuations x -> fut_waiters y = fut_waiters x ->
  (forall p, p ∈ footprint f x K W -> p <> f -> heap s !! p = heap s0 !! p) ->
  (forall fd, fd ∈ sl_fds W -> fds s !! fd = fds s0 !! fd) ->
  (forall p, p ∈ footprint f x K W -> D p) -> (forall fd, fd ∈ sl_fds W -> DF fd) ->
  (forall k, k ∈ K -> mannered tbl (published f r) D DF T (pd_call f k)) ->
  WP (sDrainWaiters f ;; sDrainContinuations f)%prog
    (fun _ s' => settled_future (heap s') f y /\
       (forall w, w ∈ W -> awake (heap s') (fds s') w) /\
       (forall p, p ∈ pd_nodes K -> heap s' !! p = None) /\
       (forall p, D p -> p ∉ footprint f x K W -> heap s' !! p = heap s !! p) /\
       (forall fd, DF fd -> fd ∉ sl_fds W -> fds s' !! fd = fds s !! fd) /\
       made T (pd_call f <$> K) (trace s) (trace s')) s.
Proof.
  intros. rewrite <- all_calls_silent. eapply wp_mono; [eapply (drain_all_led f r x y K W D DF T (footprint f x K W) (fun _ => []) (fun _ _ => True) s0);
    try done; by apply mannered_led|].
  simpl. naive_solver.
Qed.

(** Completing a future whose continuations may change its cell: [I] says what becomes
    of it, from its publication on. *)
Lemma sFutureComplete_moving f r x K W D DF T X calls I s :
  open_future (heap s) (fds s) f x K W -> fut_cancel_handle x = NULL ->
  (forall p, p ∈ queue_cells x K W -> D p) -> (forall fd, fd ∈ sl_fds W -> DF fd) ->
  (forall p, p ∈ queue_cells x K W -> p ∈ X) ->
  led_moving tbl X (sl_fds W) D DF T calls f K I ->
  (forall s1, heap s1 !! f = Some (OFuture (complete_with r x)) -> (forall p, p <> f -> heap s1 !! p = heap s !! p) ->
     fds s1 = fds s -> evolves s s1 -> I K s1) ->
  WP (sFutureComplete f r)
    (fun won s' => won = true /\ queues_closed (heap s') x /\
       (forall w, w ∈ W -> awake (heap s') (fds s') w) /\
       (forall p, p ∈ pd_nodes K -> heap s' !! p = None) /\
       (forall p, D p -> p ∉ footprint f x K W -> heap s' !! p = heap s !! p) /\
       (forall fd, DF fd -> fd ∉ sl_fds W -> fds s' !! fd = fds s !! fd) /\
       made T (all_calls f calls K) (trace s) (trace s') /\ I [] s') s.
Proof.
  intros Ho Hh HD HDF HX Hled HI. pose proof (open_apart _ _ _ _ _ _ Ho) as (Hfq & _). pose proof Ho as [].
  unfold sFutureComplete.
  wp_steps. rewrite of_completed0. wp_steps. rewrite Hh. change (is_null NULL) with true. simpl. wp_steps.
  rewrite <- bind_bind. eapply wps_seq.
  { eapply (drain_all_moving f x (complete_with r x) K W D DF T X calls I s); try done; [lk| |].
    - intros p Hp. assert (p <> f) by (intros ->; done). lk.
    - apply HI; [lk| |done|]; [intros p Hp; lk|].
      do 3 (etrans; [|eapply (evolves_store (A:=UfsrvFuture)); [simpl; by rewrite lookup_insert_eq|by repeat split]]).
      eapply (evolves_store (A:=UfsrvFuture)); [exact of_fut0|by repeat split]. }
  simpl. intros _ s' (Hs & Ha & Hk & Hf & Hfd & Htr & HI'). wp_steps. split_and!; try done.
  intros p Hp [Hne Hni]%not_elem_of_cons. rewrite Hf by done. lk.
Qed.

(** Completing an open future with no cancellation attached: it is published, its
    waiters are woken, and its continuations then run in list order, each seeing
    the published result. *)
Lemma sFutureComplete_led f r x K W D DF T X calls I s :
  open_future (heap s) (fds s) f x K W -> fut_cancel_handle x = NULL ->
  (forall p, p ∈ footprint f x K W -> D p) -> (forall fd, fd ∈ sl_fds W -> DF fd) ->
  (forall p, p ∈ footprint f x K W -> p ∈ X) ->
  led tbl (published f r) X (sl_fds W) D DF T calls f K I -> I K s ->
  WP (sFutureComplete f r)
    (fun won s' => won = true /\ settled_future (heap s') f (complete_with r x) /\
       (forall w, w ∈ W -> awake (heap s') (fds s') w) /\
       (forall p, p ∈ pd_nodes K -> heap s' !! p = None) /\
       (forall p, D p -> p ∉ footprint f x K W -> heap s' !! p = heap s !! p) /\
       (forall fd, DF fd -> fd ∉ sl_fds W -> fds s' !! fd = fds s !! fd) /\
       made T (all_calls f calls K) (trace s) (trace s') /\ I [] s') s.
Proof.
  intros Ho Hh HD HDF HX Hled HI. pose proof Ho as []. unfold sFutureComplete.
  assert (HfX : forall p, p ∉ X -> p <> f) by (intros p Hp ->; apply Hp, HX; by left).
  wp_steps. rewrite of_completed0. wp_steps. rewrite Hh. change (is_null NULL) with true. simpl. wp_steps.
  rewrite <- bind_bind. eapply wps_seq.
  { eapply (drain_all_led f r x (complete_with r x) K W D DF T X calls I s); try done; [lk| |].
    - intros p _ Hne. lk.
    - eapply (led_stable _ _ _ _ _ _ _ _ _ _ _ Hled); [| |exact HI]; [|done].
      intros p Hp. specialize (HfX p Hp). simpl. lk. }
  simpl. intros _ s' (Hs & Ha & Hk & Hf & Hfd & Htr & HI'). wp_steps. split_and!; try done.
  intros p Hp Hni. rewrite Hf by done. assert (p <> f) by (intros ->; apply Hni; by left). lk.
Qed.

Lemma sFutureComplete_spec f r x K W D DF T s :
  open_future (heap s) (fds s) f x K W -> fut_cancel_handle x = NULL ->
  (forall p, p ∈ footprint f x K W -> D p) -> (forall fd, fd ∈ sl_fds W -> DF fd) ->
  (forall k, k ∈ K -> mannered tbl (published f r) D DF T (pd_call f k)) ->
  WP (sFutureComplete f r)
    (fun won s' => won = true /\ settled_future (heap s') f (complete_with r x) /\
       (forall w, w ∈ W -> awake (heap s') (fds s') w) /\
       (forall p, p ∈ pd_nodes K -> heap s' !! p = None) /\
       (forall p, D p -> p ∉ footprint f x K W -> heap s' !! p = heap s !! p) /\
       (forall fd, DF fd -> fd ∉ sl_fds W -> fds s' !! fd = fds s !! fd) /\
       made T (pd_call f <$> K) (trace s) (trace s')) s.
Proof.
  intros. rewrite <- all_calls_silent. eapply wp_mono; [eapply (sFutureComplete_led f r x K W D DF T (footprint f x K W) (fun _ => []) (fun _ _ => True));
    try done; by apply mannered_led|].
  simpl. naive_solver.
Qed.

(** A completed future is not completed again. *)
Lemma sFutureComplete_again f r x s :
  heap s !! f = Some (OFuture x) -> fut_is_completed x = true ->
  WP (sFutureComplete f r) (fun won s' => won = false /\ heap s' = heap s /\ fds s' = fds s /\
    trace s' = trace s) s.
Proof.
  intros Hf Hc. unfold sFutureComplete. wp_steps. rewrite Hc. wp_steps. simpl. split_and!; try done.
  apply insert_id. rewrite Hf. simpl. by destruct x; simpl in *; subst.
Qed.

(** ** Disposing of a value *)
Lemma free_result_value_spec r D DF T s :
  (forall c, c ∈ dispose r -> mannered tbl (fun _ => True) D DF T c) ->
  WP (free_result_value r)
    (fun _ s' => (forall p, D p -> heap s' !! p = heap s !! p) /\
       (forall fd, DF fd -> fds s' !! fd = fds s !! fd) /\
       made T (dispose r) (trace s) (trace s')) s.
Proof.
  unfold free_result_value, dispose, when, call_opt. intros Hc.
  destruct (is_null (res_value r)); simpl; [apply wps_ret; split_and!; [done..|apply made_nil]|].
  destruct (res_free_value r) as [fn|]; [|apply wps_ret; split_and!; [done..|apply made_nil]].
  eapply wp_call_bind; [apply Hc; [by left|done]|].
  simpl. intros _ s' (? & ? & tr & HT & Htr). apply wps_ret. split_and!; [done..|].
  eapply made_cons; [done|]. rewrite Htr. apply made_nil.
Qed.

(** ** Promises *)
Definition promise_at (h : gmap N obj) (prm f : ptr) (fulfilled : bool) : Prop :=
  prm <> NULL /\ h !! prm = Some (OPromise (MkPromise f fulfilled)).

(** Writing the promise leaves its future as it is. *)
Lemma open_store_promise h fd f x K W prm p p' :
  h !! prm = Some (OPromise p) -> open_future h fd f x K W ->
  open_future (<[prm := OPromise p']> h) fd f x K W.
Proof.
  intros Hx Ho. eapply open_frame; [|done|exact Ho]. intros q Hq. apply lookup_insert_ne.
  intros ->. by eapply open_outside in Hq.
Qed.
(** A second fulfilment disposes of the value it is given and changes nothing. *)
Lemma SetResult_again f prm r D DF T s :
  promise_at (heap s) prm f true -> (D prm) ->
  (forall c, c ∈ dispose r -> mannered tbl (fun _ => True) D DF T c) ->
  WP (UfsrvPromiseSetResult prm r)
    (fun _ s' => (forall p, D p -> heap s' !! p = heap s !! p) /\
       (forall fd, DF fd -> fds s' !! fd = fds s !! fd) /\
       made T (dispose r) (trace s) (trace s')) s.
Proof.
  intros [Hn Hp] HD Hd. unfold UfsrvPromiseSetResult. rewrite (is_null_false prm) by done. wp_steps.
  eapply wps_seq; [by eapply free_result_value_spec|]. simpl. intros [] s' (Hh & ? & ?).
  apply wps_ret. split_and!; [|done..].
  intros p HDp. rewrite Hh by done. destruct (decide (p = prm)) as [->|]; [|lk]. by rewrite lookup_insert_eq, Hp.
Qed.

(** The first fulfilment completes the future. *)
Lemma SetResult_led f prm r x K W D DF T calls I s :
  promise_at (heap s) prm f false ->
  open_future (heap s) (fds s) f x K W -> fut_cancel_handle x = NULL ->
  (forall p, p ∈ footprint f x K W -> D p) -> D prm -> (forall fd, fd ∈ sl_fds W -> DF fd) ->
  led tbl (published f r) (prm :: footprint f x K W) (sl_fds W) D DF T calls f K I -> I K s ->
  WP (UfsrvPromiseSetResult prm r)
    (fun _ s' => settled_future (heap s') f (complete_with r x) /\
       promise_at (heap s') prm f true /\
       (forall w, w ∈ W -> awake (heap s') (fds s') w) /\
       (forall p, p ∈ pd_nodes K -> heap s' !! p = None) /\
       (forall p, D p -> p ∉ prm :: footprint f x K W -> heap s' !! p = heap s !! p) /\
       (forall fd, DF fd -> fd ∉ sl_fds W -> fds s' !! fd = fds s !! fd) /\
       made T (all_calls f calls K) (trace s) (trace s') /\ I [] s') s.
Proof.
  intros [Hn Hp] Ho Hh HD HDp HDF Hled HI. pose proof Ho as [].
  assert (Hpf : prm ∉ footprint f x K W) by by eapply open_outside.
  unfold UfsrvPromiseSetResult. rewrite (is_null_false prm) by done. wp_steps.
  eapply wps_seq.
  - apply (sFutureComplete_led f r x K W D DF T (prm :: footprint f x K W) calls I); try done; simpl.
    + by eapply open_store_promise.
    + intros p ?. by right.
    + eapply (led_stable _ _ _ _ _ _ _ _ _ _ _ Hled); [| |exact HI]; [|done].
      intros p [? ?]%not_elem_of_cons. simpl. lk.
  - simpl. intros won s' (-> & Hs & Ha & Hk & Hf & Hfd & Ht & HI'). simpl. wp_steps.
    split_and!; [done| |done..| |done|done|done].
    + split; [done|]. rewrite Hf by done. lk.
    + intros p Hp' [Hne Hni]%not_elem_of_cons. rewrite Hf by done. lk.
Qed.

Lemma SetResult_moving f prm r x K W D DF T calls I s :
  promise_at (heap s) prm f false ->
  open_future (heap s) (fds s) f x K W -> fut_cancel_handle x = NULL ->
  (forall p, p ∈ queue_cells x K W -> D p) -> D prm -> (forall fd, fd ∈ sl_fds W -> DF fd) ->
  led_moving tbl (queue_cells x K W) (sl_fds W) D DF T calls f K I ->
  (forall s1, heap s1 !! f = Some (OFuture (complete_with r x)) ->
     (forall p, p <> f -> p <> prm -> heap s1 !! p = heap s !! p) -> fds s1 = fds s -> evolves s s1 -> I K s1) ->
  WP (UfsrvPromiseSetResult prm r)
    (fun _ s' => queues_closed (heap s') x /\ promise_at (heap s') prm f true /\
       (forall w, w ∈ W -> awake (heap s') (fds s') w) /\
       (forall p, p ∈ pd_nodes K -> heap s' !! p = None) /\
       (forall p, D p -> p ∉ prm :: footprint f x K W -> heap s' !! p = heap s !! p) /\
       (forall fd, DF fd -> fd ∉ sl_fds W -> fds s' !! fd = fds s !! fd) /\
       made T (all_calls f calls K) (trace s) (trace s') /\ I [] s') s.
Proof.
  intros [Hn Hp] Ho Hh HD HDp HDF Hled HI.
  assert (Hpf : prm ∉ footprint f x K W) by by eapply open_outside.
  unfold UfsrvPromiseSetResult. rewrite (is_null_false prm) by done. wp_steps.
  eapply wps_seq.
  - apply (sFutureComplete_moving f r x K W D DF T (queue_cells x K W) calls I); try done; simpl.
    + by eapply open_store_promise.
    + intros s1 Hf1 Hh1 Hfd1 He1. apply HI; [done| |done|]; [intros p ??; rewrite Hh1 by done; lk|].
      etrans; [|exact He1]. eapply (evolves_store (A:=UfsrvPromise)); [exact Hp|by split].
  - simpl. intros won s' (-> & Hs & Ha & Hk & Hf & Hfd & Ht & HI'). simpl. wp_steps.
    split_and!; [done| |done..| |done|done|done].
    + split; [done|]. rewrite Hf by done. lk.
    + intros p Hp' [Hne Hni]%not_elem_of_cons. rewrite Hf by done. lk.
Qed.

Lemma SetResult_first f prm r x K W D DF T s :
  promise_at (heap s) prm f false ->
  open_future (heap s) (fds s) f x K W -> fut_cancel_handle x = NULL ->
  (forall p, p ∈ footprint f x K W -> D p) -> D prm -> (forall fd, fd ∈ sl_fds W -> DF fd) ->
  (forall k, k ∈ K -> mannered tbl (published f r) D DF T (pd_call f k)) ->
  WP (UfsrvPromiseSetResult prm r)
    (fun _ s' => settled_future (heap s') f (complete_with r x) /\
       promise_at (heap s') prm f true /\
       (forall w, w ∈ W -> awake (heap s') (fds s') w) /\
       (forall p, p ∈ pd_nodes K -> heap s' !! p = None) /\
       (forall p, D p -> p ∉ prm :: footprint f x K W -> heap s' !! p = heap s !! p) /\
       (forall fd, DF fd -> fd ∉ sl_fds W -> fds s' !! fd = fds s !! fd) /\
       made T (pd_call f <$> K) (trace s) (trace s')) s.
Proof.
  intros. rewrite <- all_calls_silent. eapply wp_mono; [eapply (SetResult_led f prm r x K W D DF T (fun _ => []) (fun _ _ => True));
    try done; by apply mannered_led|].
  simpl. naive_solver.
Qed.

(** ** Registering continuations *)
Lemma sFutureThen_ready f fn ctx x D DF T s :
  heap s !! f = Some (OFuture x) -> fut_state x = READY -> f <> NULL ->
  mannered tbl (published f (fut_result x)) D DF T (K_future_cb fn f ctx) ->
  WP (sFutureThen f (Some fn) ctx)
    (fun ok s' => ok = true /\ (forall p, D p -> heap s' !! p = heap s !! p) /\
       (forall fd, DF fd -> fds s' !! fd = fds s !! fd) /\
       made T [K_future_cb fn f ctx] (trace s) (trace s')) s.
Proof.
  intros Hf Hr Hn Hc. unfold sFutureThen, future_is_ready. rewrite (is_null_false f) by done.
  wp_steps. rewrite Hr. simpl. wp_steps. eapply wp_call_bind; [apply Hc; by exists x|].
  simpl. intros _ s' (? & ? & tr & HT & Htr). apply wps_ret. split_and!; [done..|].
  eapply made_cons; [done|]. rewrite Htr. apply made_nil.
Qed.

(** Before completion, a node is pushed in front; if memory is exhausted, nothing
    happens and the caller is told. *)
Lemma sFutureThen_open f fn ctx x K W s :
  wf_alloc s -> open_future (heap s) (fds s) f x K W ->
  WP (sFutureThen f (Some fn) ctx)
    (fun ok s' => trace s' = trace s /\ fds s' = fds s /\
       ((ok = false /\ heap s' = heap s) \/
        (ok = true /\ exists n, heap s !! n = None /\
           open_future (heap s') (fds s') f x (Pend n fn ctx :: K) W /\
           forall p, p <> n -> p <> fut_continuations x -> heap s' !! p = heap s !! p))) s.
Proof.
  intros [Hpos Hwf] Ho. pose proof Ho as [].
  destruct of_conts0 as (Hc0 & ks & Hks & Hksn & Hksc). destruct of_waits0 as (Hw0 & ws & Hws & Hwsn & Hwsc).
  unfold sFutureThen, future_is_ready, sPushContinuation, lockless_treiber_stack_push.
  rewrite (is_null_false f) by done. wp_steps. rewrite of_pending0. simpl.
  apply wps_alloc; [by split| |]; intros o.
  { change (is_null NULL) with true. wp_steps. simpl. auto. }
  assert (Hnew : heap s !! next_ptr s = None) by (apply Hwf; lia).
  assert (Hn0 : next_ptr s <> NULL) by (unfold NULL; lia).
  rewrite (is_null_false (next_ptr s)) by done.
  set (n := next_ptr s) in *. clearbody n. simpl. wp_steps.
  rewrite ts_push_accepts, Hksc. simpl. unfold sNodeRelease, cont_release. wp_steps.
  rewrite tn_release_last, tn_init_refs. simpl. wp_steps. simpl. split_and!; [done..|]. right.
  split; [done|]. exists n. split; [done|].
  assert (Hkn : n ∉ pd_nodes K).
  { intros (k & -> & Hk)%list_elem_of_fmap. destruct (of_pendings0 k Hk) as (_ & b & Hb & _). congruence. }
  split; [|intros p ??; lk]. split; try done.
  - lk.
  - split; [done|]. eexists. split; [lk|]. by rewrite ts_push_nodes, ts_push_closed, Hksc, Hksn.
  - split; [done|]. eexists. split; [lk|done].
  - intros k [->|Hk]%elem_of_cons.
    + split; [done|]. eexists. split; [lk|]. rewrite tn_release_refs, tn_release_claimed, tn_init_refs.
      split; [lia|apply tn_init_claimed].
    + destruct (of_pendings0 k Hk) as (? & b & Hb & ?). split; [done|]. exists b. split; [lk|done].
  - intros w Hw. destruct (of_sleepers0 w Hw) as (? & ? & ? & b & Hb & ?). split_and!; [done..|].
    exists b. split; [lk|done].
  - rewrite pd_nodes_cons. by apply NoDup_cons.
Qed.

(** ** Creation *)
Lemma wf_alloc_oracle o s : wf_alloc s -> wf_alloc (with_oracle o s).
Proof. done. Qed.
Lemma wf_alloc_new {A} `{!Cell A} (x : A) o s :
  wf_alloc s ->
  wf_alloc (with_next_ptr (next_ptr s + 1) (store_cell (next_ptr s) x (with_oracle o s))).
Proof.
  intros [H1 H2]. split; simpl; [lia|]. intros p Hp. rewrite lookup_insert_ne by lia. apply H2; lia.
Qed.

Definition new_future (c w : ptr) : UfsrvFuture :=
  MkFuture false false PENDING zero_result c w 2 NULL NULL.

Lemma PromiseCreate_spec s :
  wf_alloc s ->
  WP (UfsrvPromiseCreate false)
    (fun pf s' => trace s' = trace s /\ fds s' = fds s /\
       ((pf = (NULL, NULL) /\ heap s' = heap s) \/
        exists c w, open_future (heap s') (fds s') pf.2 (new_future c w) [] [] /\
          promise_at (heap s') pf.1 pf.2 false /\ NoDup [pf.1; pf.2; c; w] /\
          (forall p, p ∈ [pf.1; pf.2; c; w] -> heap s !! p = None) /\
          (forall p, p ∉ [pf.1; pf.2; c; w] -> heap s' !! p = heap s !! p))) s.
Proof.
  intros Hwf. pose proof Hwf as [Hpos Hfresh].
  unfold UfsrvPromiseCreate, lockless_treiber_stack_create, lockless_treiber_stack_destroy.
  assert (Hf : forall k, heap s !! (next_ptr s + k)%N = None) by (intros; apply Hfresh; lia).
  assert (Hn0 : forall k, (next_ptr s + k)%N <> NULL) by (unfold NULL; lia).
  assert (Hn00 : next_ptr s <> NULL) by (unfold NULL; lia).
  assert (Hf0 : heap s !! next_ptr s = None) by (apply Hfresh; lia).
  wp_steps.
  apply wps_alloc; [done| |]; intros o1.
  { change (is_null NULL) with true. wp_steps. simpl. auto. }
  rewrite (is_null_false (next_ptr s)) by done. wp_steps.
  apply wps_alloc; [by apply wf_alloc_new| |]; intros o2; simpl.
  { change (is_null NULL) with true. wp_steps. simpl. split_and!; [done..|]. left.
    split; [done|]. by rewrite delete_insert_eq, delete_id. }
  rewrite (is_null_false (next_ptr s + 1)%N) by apply Hn0. wp_steps.
  (* the two stacks: four outcomes, three of which give everything back *)
  apply wps_alloc; [by do 2 apply wf_alloc_new| |]; intros o3; simpl; wp_steps;
    (apply wps_alloc; [first [by do 3 apply wf_alloc_new|by do 2 apply wf_alloc_new]| |]; intros o4; simpl; wp_steps);
    rewrite ?(is_null_false (next_ptr s + 1 + 1)%N), ?(is_null_false (next_ptr s + 1 + 1 + 1)%N)
      by (unfold NULL; lia); simpl; wp_steps; simpl; (split_and!; [done..|]).
  1-3: left; split; [done|]; apply map_eq; intros q; rewrite !lookup_delete, !lookup_insert;
    repeat case_decide; subst; try congruence; try lia; try done; symmetry; apply Hfresh; lia.
  right. exists (next_ptr s + 1 + 1)%N, (next_ptr s + 1 + 1 + 1)%N. split_and!.
  - split; simpl; try done; try (intros ? ?%elem_of_nil; done); try apply NoDup_nil_2; [lk| | |lia].
    + split; [unfold NULL; lia|]. exists ts_create. split; [lk|]. by rewrite ts_create_nodes, ts_create_open.
    + split; [unfold NULL; lia|]. exists ts_create. split; [lk|]. by rewrite ts_create_nodes, ts_create_open.
  - split; [apply Hn0|]. simpl. lk.
  - simpl. repeat (apply NoDup_cons; split; [rewrite ?elem_of_cons, elem_of_nil; lia|]). apply NoDup_nil_2.
  - simpl. intros p Hp. apply Hfresh. rewrite !elem_of_cons, elem_of_nil in Hp. lia.
  - simpl. intros p Hp. rewrite !not_elem_of_cons in Hp. destruct Hp as (? & ? & ? & ? & _). lk.
Qed.

(** ** References *)
Lemma Retain_spec f x s :
  heap s !! f = Some (OFuture x) -> f <> NULL ->
  WP (UfsrvFutureRetain f)
    (fun _ s' => s' = store_cell f (set_fut_refcount (wrap_i32 (fut_refcount x + 1)) x) s) s.
Proof.
  intros Hf Hn. unfold UfsrvFutureRetain. rewrite (is_null_false f) by done. by wp_steps.
Qed.

(** Not the last reference: only the count changes. *)
Lemma Release_shared f x s :
  heap s !! f = Some (OFuture x) -> f <> NULL -> fut_refcount x <> 1%Z ->
  WP (UfsrvFutureRelease f)
    (fun _ s' => s' = store_cell f (set_fut_refcount (wrap_i32 (fut_refcount x + -1)) x) s) s.
Proof.
  intros Hf Hn Hr. unfold UfsrvFutureRelease. rewrite (is_null_false f) by done. wp_steps.
  rewrite bool_decide_eq_false_2 by done. simpl. by wp_steps.
Qed.

(** The last reference of a completed future: the value is disposed of, once, and
    the future and its two stacks are freed. *)
Lemma Release_last f x D DF T s :
  settled_future (heap s) f x -> fut_refcount x = 1%Z -> fut_cancel_token x = NULL ->
  (forall p, p ∈ [f; fut_continuations x; fut_waiters x] -> D p) ->
  (forall c, c ∈ dispose (fut_result x) -> mannered tbl (fun _ => True) D DF T c) ->
  WP (UfsrvFutureRelease f)
    (fun _ s' => (forall p, p ∈ [f; fut_continuations x; fut_waiters x] -> heap s' !! p = None) /\
       (forall p, D p -> p ∉ [f; fut_continuations x; fut_waiters x] -> heap s' !! p = heap s !! p) /\
       (forall fd, DF fd -> fds s' !! fd = fds s !! fd) /\
       made T (dispose (fut_result x)) (trace s) (trace s')) s.
Proof.
  intros [] Hr Ht HD Hd. destruct sf_conts0 as (Hc0 & ks & Hks & Hksn & Hksc).
  destruct sf_waits0 as (Hw0 & ws & Hws & Hwsn & Hwsc).
  unfold UfsrvFutureRelease, lockless_treiber_stack_steal_all_and_close, lockless_treiber_stack_destroy.
  rewrite (is_null_false f) by done. wp_steps. rewrite Hr. simpl. wp_steps.
  eapply wps_seq; [by eapply (free_result_value_spec _ D DF T)|].
  simpl. intros _ s1 (Hh & Hf & Htr).
  assert (Hf1 : heap s1 !! f = Some (OFuture (set_fut_refcount (wrap_i32 (1 + -1)) x))).
  { rewrite Hh by (apply HD; by left). lk. }
  assert (Hk1 : heap s1 !! fut_continuations x = Some (OStack ks)).
  { rewrite Hh by (apply HD; set_solver). lk. }
  assert (Hw1 : heap s1 !! fut_waiters x = Some (OStack ws)).
  { rewrite Hh by (apply HD; set_solver). lk. }
  wp_steps. rewrite ts_steal_list, Hksn. simpl. wp_steps. rewrite ts_steal_list, Hwsn. simpl. wp_steps.
  rewrite Ht. change (is_null NULL) with true. simpl. wp_steps. split_and!; [| |done|done].
  - intros p Hp. rewrite !elem_of_cons, elem_of_nil in Hp.
    destruct Hp as [->|[->|[->|[]]]]; simpl; [apply lookup_delete_eq| |].
    + lk. apply lookup_delete_eq.
    + lk. apply lookup_delete_eq.
  - intros p Hp Hni. rewrite !not_elem_of_cons in Hni. destruct Hni as (? & ? & ? & _). lk.
    rewrite Hh by done. lk.
Qed.
End Specs.
