(* ===== verification/FutureSpec.v ===== *)
(** * FutureSpec: the promise/future pair as an abstract object

    The contract of ufsrv_future.h for one promise and its future, used from one
    thread, as a transition system, and the proof that the implementation takes
    only its transitions: one-shot completion, every continuation run exactly once
    and latest first, every value disposed of exactly once, all memory returned
    with the last reference. *)
From S2P Require Import Prelude Machine Uflib Model Cancellation Scheduler Coroutine Future Waiting.
From S2P Require Import Dispatch Logic Guarantee CancellationFacts FutureFacts.

(** ** The specification *)

(** [fs_promise]: the promise is alive; [fs_refs]: the client's references to the
    future; [fs_pending]: continuations not yet run, latest first. *)
Record fspec := FSpec {
  fs_promise : bool;
  fs_refs : nat;
  fs_result : option UfsrvFutureResult;
  fs_pending : list (fut_cb * ptr);
  fs_calls : list code;
}.
Definition fspec_init : fspec := FSpec true 1 None [] [].
Definition fs_total (a : fspec) : nat := (if fs_promise a then 1 else 0) + fs_refs a.

Inductive future_op :=
| FThen (fn : N) (context_ptr : ptr)
| FSetResult (r : UfsrvFutureResult)
| FSetValue (value_ptr : ptr) (free_value : option free_fn)
| FSetError (error : Z)
| FDestroyPromise
| FRetain
| FRelease
| FIsReady
| FGet.
Inductive future_ret := RUnit | RBool (b : bool) | RResult (r : UfsrvFutureResult).

Definition cb_calls (f : ptr) (l : list (fut_cb * ptr)) : list code :=
  (fun k => K_future_cb k.1 f k.2) <$> l.

(** Completion publishes the result and runs what is pending. *)
Definition spec_complete (f : ptr) (r : UfsrvFutureResult) (a : fspec) : fspec :=
  FSpec (fs_promise a) (fs_refs a) (Some r) [] (fs_calls a ++ cb_calls f (fs_pending a)).
(** Fulfilment: the first completes, a later one only disposes of its value. *)
Definition spec_set (f : ptr) (r : UfsrvFutureResult) (a : fspec) : fspec :=
  match fs_result a with
  | None => spec_complete f r a
  | Some _ => FSpec (fs_promise a) (fs_refs a) (fs_result a) (fs_pending a) (fs_calls a ++ dispose r)
  end.
(** Keeping [p]/[n] references; the last one gone disposes of the value. *)
Definition spec_drop (p : bool) (n : nat) (a : fspec) : fspec :=
  FSpec p n (fs_result a) (fs_pending a)
    (fs_calls a ++ (if p || negb (bool_decide (n = 0)) then []
                    else match fs_result a with Some r => dispose r | None => [] end)).

(** [fspec_step f a op v a']: the transitions, for the future at address [f]. *)
Inductive fspec_step (f : ptr) (a : fspec) : future_op -> future_ret -> fspec -> Prop :=
| fstep_then_oom fn ctx : fs_result a = None -> fspec_step f a (FThen fn ctx) (RBool false) a
| fstep_then_pending fn ctx :
    fs_result a = None ->
    fspec_step f a (FThen fn ctx) (RBool true)
      (FSpec (fs_promise a) (fs_refs a) None ((CB_user fn, ctx) :: fs_pending a) (fs_calls a))
| fstep_then_now fn ctx r :
    fs_result a = Some r ->
    fspec_step f a (FThen fn ctx) (RBool true)
      (FSpec (fs_promise a) (fs_refs a) (Some r) (fs_pending a)
         (fs_calls a ++ [K_future_cb (CB_user fn) f ctx]))
| fstep_set_result r : fspec_step f a (FSetResult r) RUnit (spec_set f r a)
| fstep_set_value v fv : fspec_step f a (FSetValue v fv) RUnit (spec_set f (MkResult 0 v fv) a)
| fstep_set_error e : fspec_step f a (FSetError e) RUnit (spec_set f (error_result e) a)
| fstep_destroy :
    fspec_step f a FDestroyPromise RUnit
      (spec_drop false (fs_refs a) (match fs_result a with
                                    | None => spec_complete f (error_result EPIPE) a
                                    | Some _ => a
                                    end))
| fstep_retain :
    fspec_step f a FRetain RUnit
      (FSpec (fs_promise a) (S (fs_refs a)) (fs_result a) (fs_pending a) (fs_calls a))
| fstep_release n : fs_refs a = S n -> fspec_step f a FRelease RUnit (spec_drop (fs_promise a) n a)
| fstep_is_ready : fspec_step f a FIsReady (RBool (bool_decide (fs_result a <> None))) a
| fstep_get r : fs_result a = Some r -> fspec_step f a FGet (RResult r) a.

(** The caller uses the promise until it destroys it, the future while it holds a
    reference, and waits ([Get]) only for a result that is there (a wait that
    blocks is the subject of WaitingFacts). *)
Definition fallowed (a : fspec) (op : future_op) : Prop :=
  match op with
  | FSetResult _ | FSetValue _ _ | FSetError _ | FDestroyPromise => fs_promise a = true
  | FRetain => 0 < fs_refs a /\ (Z.of_nat (fs_total a) + 1 < 2 ^ 31)%Z
  | FGet => 0 < fs_refs a /\ fs_result a <> None
  | FThen _ _ | FRelease | FIsReady => 0 < fs_refs a
  end.

Inductive fspec_runs (f : ptr) (strategy : list future_ret -> option future_op) :
    nat -> list future_ret -> fspec -> list future_ret -> fspec -> Prop :=
| fruns_fuel hist a : fspec_runs f strategy 0 hist a hist a
| fruns_stop n hist a : strategy hist = None -> fspec_runs f strategy (S n) hist a hist a
| fruns_step n hist a op v a' hist' a'' :
    strategy hist = Some op -> fspec_step f a op v a' ->
    fspec_runs f strategy n (hist ++ [v]) a' hist' a'' ->
    fspec_runs f strategy (S n) hist a hist' a''.

Inductive fwell_behaved (f : ptr) (strategy : list future_ret -> option future_op) :
    nat -> list future_ret -> fspec -> Prop :=
| fwb_fuel hist a : fwell_behaved f strategy 0 hist a
| fwb_stop n hist a : strategy hist = None -> fwell_behaved f strategy (S n) hist a
| fwb_step n hist a op :
    strategy hist = Some op -> fallowed a op ->
    (forall v a', fspec_step f a op v a' -> fwell_behaved f strategy n (hist ++ [v]) a') ->
    fwell_behaved f strategy (S n) hist a.

(** ** The specification's own invariants *)

(** A future stays pending only while its promise lives; nothing waits on a
    completed one. *)
Definition fspec_inv (a : fspec) : Prop :=
  match fs_result a with None => fs_promise a = true | Some _ => fs_pending a = [] end.

Lemma fspec_inv_step f a op v a' : fspec_inv a -> fspec_step f a op v a' -> fspec_inv a'.
Proof.
  intros Hi Hs; destruct Hs; unfold fspec_inv, spec_set, spec_complete, spec_drop in *; simpl; try done;
    destruct (fs_result a) eqn:Hr; simpl; rewrite ?Hr; simpl; try done; congruence.
Qed.

(** Once there, the result never changes. *)
Lemma fspec_result_step f a op v a' r :
  fspec_step f a op v a' -> fs_result a = Some r -> fs_result a' = Some r.
Proof.
  intros Hs Hr; destruct Hs; unfold spec_set, spec_complete, spec_drop; rewrite ?Hr; simpl; congruence.
Qed.

(** ** The simulation *)

Section Refinement.
Context {E : Ext} {TS : TreiberSpec E} (client : Client).
Hypothesis Hclient : client_guar client.
Hypothesis Hcb : forall n f ctx, observes (body client) (K_future_cb (CB_user n) f ctx).
Hypothesis Hfree : forall fn v, observes (body client) (K_free_value fn v).
#[local] Abbreviation WP := (wp (body client) log).
#[local] Abbreviation any := (fun _ => True).

Lemma dispose_mannered r c :
  c ∈ dispose r -> mannered (body client) any any any (eq []) c.
Proof.
  unfold dispose. case_match; [by intros ?%elem_of_nil|]. case_match; [|by intros ?%elem_of_nil].
  intros ->%list_elem_of_singleton. by apply observes_mannered.
Qed.

Definition fexec (f prm : ptr) (op : future_op) : cprog future_ret :=
  match op with
  | FThen fn ctx => let! b := UfsrvFutureThen f (Some (CB_user fn)) ctx in Ret (RBool b)
  | FSetResult r => UfsrvPromiseSetResult prm r ;; Ret RUnit
  | FSetValue v fv => UfsrvPromiseSetValue prm v fv ;; Ret RUnit
  | FSetError e => UfsrvPromiseSetError prm e ;; Ret RUnit
  | FDestroyPromise => UfsrvPromiseDestroy prm ;; Ret RUnit
  | FRetain => UfsrvFutureRetain f ;; Ret RUnit
  | FRelease => UfsrvFutureRelease f ;; Ret RUnit
  | FIsReady => let! b := UfsrvFutureIsReady f in Ret (RBool b)
  | FGet => let! r := UfsrvFutureGet f in Ret (RResult r)
  end%prog.

(** The pair is alive, [n] references are counted: what is on the heap. *)
Record live (f prm : ptr) (F : gmap N obj) (n : nat) (a : fspec) (s : st) (x : UfsrvFuture)
    (K : list pending) : Prop := {
  lv_count : fut_refcount x = Z.of_nat n;
  lv_token : fut_cancel_token x = NULL;
  lv_handle : fut_cancel_handle x = NULL;
  lv_pending : fs_pending a = (fun k => (pd_fn k, pd_ctx k)) <$> K;
  lv_user k : k ∈ K -> exists n, pd_fn k = CB_user n;
  lv_state : match fs_result a with
             | None => open_future (heap s) (fds s) f x K []
             | Some r => settled_future (heap s) f x /\ fut_result x = r /\ K = []
             end;
  lv_promise : fs_promise a = true ->
    promise_at (heap s) prm f (bool_decide (fs_result a <> None));
  lv_fresh p : p ∈ prm :: footprint f x K [] -> F !! p = None;
  lv_frame p : p ∉ footprint f x K [] -> (fs_promise a = true -> p <> prm) -> heap s !! p = F !! p;
}.

Record frepresents (f prm : ptr) (F : gmap N obj) (FD : gmap Z Z) (tr : list code)
    (a : fspec) (s : st) : Prop := {
  fr_wf : wf_machine s;
  fr_inv : fspec_inv a;
  fr_total : (Z.of_nat (fs_total a) < 2 ^ 31)%Z;
  fr_heap : if bool_decide (fs_total a = 0) then heap s = F
            else exists x K, live f prm F (fs_total a) a s x K;
  fr_fds : fds s = FD;
  fr_trace : trace s = tr ++ fs_calls a;
}.

Lemma pd_calls f K : pd_call f <$> K = cb_calls f ((fun k => (pd_fn k, pd_ctx k)) <$> K).
Proof. unfold cb_calls. rewrite <- list_fmap_compose. done. Qed.

Lemma guar_fexec f prm op : guar evolves (fexec f prm op).
Proof.
  destruct op; unfold fexec; (apply guar_bind; [|intros; apply guar_ret]);
    eapply api_guar; constructor.
Qed.

(** The promise's cell is not part of the future's footprint. *)
Lemma live_promise_outside f prm F n a s x K :
  live f prm F n a s x K -> fs_promise a = true -> prm ∉ footprint f x K [].
Proof.
  intros [] Hp. destruct (lv_promise0 Hp) as [Hn Hx]. unfold footprint.
  destruct (fs_result a); [destruct lv_state0 as ([] & _ & ->)|destruct lv_state0].
  - destruct sf_conts as (? & ? & ? & _), sf_waits as (? & ? & ? & _).
    rewrite !not_elem_of_cons. split_and!; try congruence. apply not_elem_of_nil.
  - destruct of_conts as (? & ? & ? & _), of_waits as (? & ? & ? & _).
    rewrite !not_elem_of_cons, not_elem_of_app. split_and!; try congruence; [|apply not_elem_of_nil].
    intros (k & Hk & Hin)%list_elem_of_fmap. destruct (of_pendings k Hin) as (_ & b & Hb & _). congruence.
Qed.

(** ** Fulfilment *)
Lemma set_spec f prm F FD tr a s r :
  frepresents f prm F FD tr a s -> fs_promise a = true ->
  WP (UfsrvPromiseSetResult prm r)
    (fun _ s' => wf_machine s' -> frepresents f prm F FD tr (spec_set f r a) s') s.
Proof.
  intros [] Hp. assert (Ht : fs_total a <> 0) by (unfold fs_total; rewrite Hp; lia).
  rewrite bool_decide_eq_false_2 in fr_heap0 by done. destruct fr_heap0 as (x & K & Hl).
  pose proof (live_promise_outside _ _ _ _ _ _ _ _ Hl Hp) as Hout. pose proof Hl as [].
  specialize (lv_promise0 Hp). unfold spec_set. destruct (fs_result a) as [r0|] eqn:Hr.
  - eapply wp_mono; [eapply (SetResult_again (body client) f prm r any any (eq [])); try done;
      intros; by eapply dispose_mannered|].
    simpl. intros _ s' (Hh & Hf & Htr%made_silent) Hwf.
    assert (Hh' : heap s' = heap s) by (apply map_eq; auto).
    split; simpl; try done; [by unfold fspec_inv in *; simpl; rewrite Hr in *| | |].
    + rewrite bool_decide_eq_false_2 by done. exists x, K. split; simpl; try done; by rewrite Hh', ?Hr.
    + rewrite <- fr_fds0. apply map_eq; auto.
    + by rewrite Htr, fr_trace0, app_assoc.
  - eapply wp_mono; [eapply (SetResult_first (body client) f prm r x K [] any any (eq [])); try done|].
    { intros k Hk. unfold pd_call. destruct (lv_user0 k Hk) as [n ->]. by apply observes_mannered. }
    simpl. intros _ s' (Hs & Hpr & _ & Hk & Hfr & Hf & Htr%made_silent) Hwf.
    split; simpl; try done.
    + rewrite bool_decide_eq_false_2 by done. exists (complete_with r x), []. split; simpl; try done.
      * by intros k ?%elem_of_nil.
      * intros p Hpx. apply lv_fresh0. unfold footprint in *. simpl in *. set_solver.
      * intros p Hni Hne. destruct (decide (p ∈ pd_nodes K)) as [Hin|Hin].
        { rewrite Hk by done. symmetry. apply lv_fresh0. unfold footprint. set_solver. }
        rewrite Hfr; [|done|].
        { apply lv_frame0; [|done]. unfold footprint in *. simpl in *. set_solver. }
        apply not_elem_of_cons. split; [by apply Hne|]. unfold footprint in *; simpl in *. set_solver.
    + rewrite <- fr_fds0. apply map_eq. intros fd. apply Hf; [done|]. apply not_elem_of_nil.
    + by rewrite Htr, fr_trace0, app_assoc, lv_pending0, pd_calls.
Qed.

(** ** Dropping a reference *)
Lemma live_future f prm F n a s x K :
  live f prm F n a s x K -> f <> NULL /\ heap s !! f = Some (OFuture x).
Proof. intros []. destruct (fs_result a); [destruct lv_state0 as ([] & _)|destruct lv_state0]; done. Qed.

Lemma drop_shared f prm F a s x K m :
  live f prm F (S (S m)) a s x K -> (Z.of_nat (S (S m)) < 2 ^ 31)%Z ->
  WP (UfsrvFutureRelease f)
    (fun _ s' => s' = store_cell f (set_fut_refcount (Z.of_nat (S m)) x) s) s.
Proof.
  intros Hl Hb. destruct (live_future _ _ _ _ _ _ _ _ Hl) as [Hn Hf]. pose proof (lv_count _ _ _ _ _ _ _ _ Hl) as Hc.
  eapply wp_mono; [eapply (Release_shared (body client) f x); [done..|rewrite Hc; lia]|].
  simpl. intros _ s' ->. rewrite Hc, wrap_i32_id by (unfold int_range; lia).
  by replace (Z.of_nat (S (S m)) + -1)%Z with (Z.of_nat (S m)) by lia.
Qed.

Lemma drop_last f prm F a s x K r :
  live f prm F 1 a s x K -> fs_result a = Some r ->
  WP (UfsrvFutureRelease f)
    (fun _ s' => (forall p, p ∈ footprint f x K [] -> heap s' !! p = None) /\
       (forall p, p ∉ footprint f x K [] -> heap s' !! p = heap s !! p) /\
       fds s' = fds s /\ trace s' = trace s ++ dispose r) s.
Proof.
  intros [] Hr. rewrite Hr in lv_state0. destruct lv_state0 as (Hs & <- & ->).
  eapply wp_mono; [eapply (Release_last (body client) f x any any (eq [])); try done|].
  - intros c Hc. by eapply dispose_mannered.
  - simpl. intros _ s' (H1 & H2 & H3 & H4%made_silent). unfold footprint. simpl.
    split_and!; [done| |apply map_eq; auto|done]. intros p Hp. by apply H2.
Qed.

(** Changing only the count, and retiring the promise. *)
Lemma live_recount f prm F n m a s x K :
  live f prm F n a s x K ->
  live f prm F m a (store_cell f (set_fut_refcount (Z.of_nat m) x) s)
    (set_fut_refcount (Z.of_nat m) x) K.
Proof.
  intros Hl. destruct (live_future _ _ _ _ _ _ _ _ Hl) as [Hn Hf].
  pose proof Hl as []. split; simpl; try done.
  - destruct (fs_result a).
    + destruct lv_state0 as (Hs & Hx & ->). split_and!; [|done..]. by eapply settled_update.
    + by eapply open_update.
  - intros Hpt. pose proof (live_promise_outside _ _ _ _ _ _ _ _ Hl Hpt) as Hout.
    apply not_elem_of_cons in Hout as [Hne _]. destruct (lv_promise0 Hpt) as [? Hx]. split; [done|].
    simpl. by rewrite lookup_insert_ne.
  - intros p Hpx Hne. assert (p <> f) by (intros ->; apply Hpx; by left).
    rewrite lookup_insert_ne by done. auto.
Qed.

Lemma live_retire f prm F n a s x K :
  live f prm F n a s x K -> fs_promise a = true ->
  live f prm F n (FSpec false (fs_refs a) (fs_result a) (fs_pending a) (fs_calls a))
    (with_heap (delete prm) s) x K.
Proof.
  intros Hl Hp. pose proof (live_promise_outside _ _ _ _ _ _ _ _ Hl Hp) as Hout.
  pose proof Hl as []. destruct (lv_promise0 Hp) as [Hn0 Hx]. split; simpl; try done.
  - destruct (fs_result a).
    + destruct lv_state0 as (Hs & Hr & ->). split_and!; [|done..].
      eapply settled_frame; [|exact Hs]. intros q Hq. apply lookup_delete_ne. intros ->. apply Hout.
      unfold footprint. set_solver.
    + eapply open_frame; [|done|exact lv_state0]. intros q Hq. apply lookup_delete_ne. by intros ->.
  - intros p Hpx _. destruct (decide (p = prm)) as [->|Hpp].
    + rewrite lookup_delete_eq. symmetry. apply lv_fresh0. by left.
    + rewrite lookup_delete_ne by done. apply lv_frame0; [done|by intros _].
Qed.

Lemma frep_live f prm F FD tr a s :
  frepresents f prm F FD tr a s -> fs_total a <> 0 ->
  exists x K, live f prm F (fs_total a) a s x K.
Proof. intros [] Ht. by rewrite bool_decide_eq_false_2 in fr_heap0. Qed.

(** Everything in the footprint of a live pair is allocated. *)
Lemma live_footprint f prm F n a s x K p :
  live f prm F n a s x K -> p ∈ footprint f x K [] -> exists o, heap s !! p = Some o.
Proof.
  intros Hl Hp. destruct (live_future _ _ _ _ _ _ _ _ Hl) as [_ Hf]. destruct Hl.
  unfold footprint in Hp. rewrite !elem_of_cons, elem_of_app in Hp.
  destruct (fs_result a).
  - destruct lv_state0 as ([? ? ? ? (_ & t & ? & _) (_ & t' & ? & _) ?] & _ & ->).
    destruct Hp as [->|[->|[->|[Hp|Hp]]]]; eauto; by apply elem_of_nil in Hp.
  - destruct lv_state0 as [? ? ? ? (_ & t & ? & _) (_ & t' & ? & _) ? Hpd ? ? ? ?].
    destruct Hp as [->|[->|[->|[Hp|Hp]]]]; eauto; [|by apply elem_of_nil in Hp].
    apply list_elem_of_fmap in Hp as (k & -> & Hk). destruct (Hpd k Hk) as (_ & b & ? & _). eauto.
Qed.

(** Building the relation for an abstract state that is still referenced. *)
Lemma frep_intro f prm F FD tr a a' op v s' x K :
  fspec_inv a -> fspec_step f a op v a' -> wf_machine s' -> (Z.of_nat (fs_total a') < 2 ^ 31)%Z ->
  live f prm F (fs_total a') a' s' x K -> fs_total a' <> 0 ->
  fds s' = FD -> trace s' = tr ++ fs_calls a' -> frepresents f prm F FD tr a' s'.
Proof.
  intros Hi Hs Hwf Ht Hl Hn Hf Htr. split; try done; [by eapply fspec_inv_step|].
  rewrite bool_decide_eq_false_2 by done. eauto.
Qed.

(** An operation's specification, combined with what every step guarantees. *)
Lemma fsim_intro {A} f prm op (p : cprog A) (g : A -> future_ret) Q a FD F tr s :
  fexec f prm op = (let! x := p in Ret (g x))%prog -> wf_machine s -> WP p Q s ->
  (forall x s', Q x s' -> wf_machine s' ->
     exists a', fspec_step f a op (g x) a' /\ frepresents f prm F FD tr a' s') ->
  WP (fexec f prm op) (fun v s' => exists a', fspec_step f a op v a' /\ frepresents f prm F FD tr a' s') s.
Proof.
  intros Hexec Hwf HQ Hk.
  eapply wp_mono with (Q := fun v s' => (exists x, v = g x /\ Q x s') /\ evolves s s').
  - apply wp_evolves; [done|apply guar_fexec|]. rewrite Hexec. eapply wps_seq; [exact HQ|].
    simpl. intros x s' ?. apply wps_ret. eauto.
  - simpl. intros v s' [(x & -> & Hq) He]. apply Hk; [done|]. by apply He.
Qed.

#[local] Abbreviation sim f prm F FD tr a s op :=
  (WP (fexec f prm op) (fun v s' => exists a', fspec_step f a op v a' /\ frepresents f prm F FD tr a' s') s).

Lemma fsim_then f prm F FD tr a s fn ctx :
  frepresents f prm F FD tr a s -> fallowed a (FThen fn ctx) -> sim f prm F FD tr a s (FThen fn ctx).
Proof.
  intros Hr Hall. simpl in Hall. assert (Ht : fs_total a <> 0) by (unfold fs_total; lia).
  destruct (frep_live _ _ _ _ _ _ _ Hr Ht) as (x & K & Hl).
  destruct (live_future _ _ _ _ _ _ _ _ Hl) as [Hn Hf]. pose proof Hr as []. pose proof Hl as [].
  assert (Hexec : fexec f prm (FThen fn ctx) =
    (let! b := sFutureThen f (Some (CB_user fn)) ctx in Ret (RBool b))%prog).
  { unfold fexec, UfsrvFutureThen. rewrite (is_null_false f) by done. done. }
  destruct (fs_result a) as [r|] eqn:Hres.
  - destruct lv_state0 as (Hs & Hx & ->). pose proof (sf_ready _ _ _ Hs) as Hrdy.
    eapply fsim_intro; [exact Hexec|done|eapply (sFutureThen_ready (body client) f _ _ x any any (eq [])); try done|].
    { by apply observes_mannered. }
    simpl. intros b s' (-> & Hh & Hfd & Htr%made_silent) Hwf.
    assert (Hh' : heap s' = heap s) by (apply map_eq; auto).
    eexists. split; [by eapply fstep_then_now|].
    eapply frep_intro; try done; [by eapply fstep_then_now|..].
    + by split; simpl; rewrite ?Hh'.
    + rewrite <- fr_fds0. apply map_eq; auto.
    + simpl. by rewrite Htr, fr_trace0, app_assoc.
  - pose proof (of_conts _ _ _ _ _ _ lv_state0) as (_ & t & Hc & _).
    eapply fsim_intro; [exact Hexec|done|eapply (sFutureThen_open (body client) f _ _ x K []); [apply fr_wf0|done]|].
    simpl. intros b s' (Htr & Hfd & Hcase) Hwf. destruct Hcase as [[-> Hh]|(-> & n & Hn' & Ho & Hfr)].
    + exists a. split; [by constructor|].
      eapply (frep_intro _ _ _ _ _ a a (FThen fn ctx) (RBool false) _ x K); try done;
        [by constructor| |by rewrite Hfd|by rewrite Htr].
      split; simpl; rewrite ?Hh, ?Hfd, ?Hres; try done.
    + eexists. split; [by apply fstep_then_pending|].
      eapply (frep_intro _ _ _ _ _ _ _ _ _ _ x (Pend n (CB_user fn) ctx :: K)); try done;
        [by apply fstep_then_pending| |by rewrite Hfd|by rewrite Htr].
      assert (HnK : n ∉ footprint f x K []).
      { intros Hin. destruct (live_footprint _ _ _ _ _ _ _ _ _ Hl Hin) as [o Ho']. congruence. }
      split; simpl; try done.
      * by rewrite lv_pending0.
      * intros k [->|Hk]%elem_of_cons; [by exists fn|auto].
      * intros Hp. destruct (lv_promise0 Hp) as [Hp0 Hpx]. split; [done|].
        rewrite Hfr; [done|congruence|congruence].
      * intros p Hp. destruct (decide (p = n)) as [->|Hpn].
        { rewrite <- lv_frame0; [done|done|]. intros Hp' ->. destruct (lv_promise0 Hp') as [_ ?]. congruence. }
        apply lv_fresh0. unfold footprint in *. rewrite pd_nodes_cons in Hp. set_solver +Hp Hpn.
      * intros p Hp Hne. unfold footprint in *. rewrite pd_nodes_cons in Hp. simpl in Hp.
        rewrite !not_elem_of_cons in Hp. destruct Hp as (? & ? & ? & ? & Hpk).
        rewrite Hfr by done. apply lv_frame0; [|done].
        rewrite !not_elem_of_cons. auto.
Qed.

Lemma fsim_set f prm F FD tr a s op r :
  frepresents f prm F FD tr a s -> fs_promise a = true ->
  fexec f prm op = (let! x := UfsrvPromiseSetResult prm r in Ret RUnit)%prog ->
  fspec_step f a op RUnit (spec_set f r a) -> sim f prm F FD tr a s op.
Proof.
  intros Hr Hp Hexec Hst. eapply fsim_intro; [exact Hexec|apply Hr|by eapply set_spec|].
  simpl. intros _ s' Hs' Hwf. eauto.
Qed.

Lemma fsim_retain f prm F FD tr a s :
  frepresents f prm F FD tr a s -> fallowed a FRetain -> sim f prm F FD tr a s FRetain.
Proof.
  intros Hr [Hrf Hmax]. assert (Ht : fs_total a <> 0) by (unfold fs_total; lia).
  destruct (frep_live _ _ _ _ _ _ _ Hr Ht) as (x & K & Hl).
  destruct (live_future _ _ _ _ _ _ _ _ Hl) as [Hn Hf]. pose proof Hr as [].
  eapply fsim_intro; [reflexivity|done|by eapply Retain_spec|]. simpl. intros _ s' -> Hwf.
  set (a' := FSpec (fs_promise a) (S (fs_refs a)) (fs_result a) (fs_pending a) (fs_calls a)).
  assert (Ha' : fs_total a' = S (fs_total a)) by (unfold fs_total; simpl; lia).
  assert (Hc : wrap_i32 (fut_refcount x + 1) = Z.of_nat (fs_total a')).
  { rewrite (lv_count _ _ _ _ _ _ _ _ Hl), wrap_i32_id by (unfold int_range; lia). lia. }
  rewrite Hc in *. exists a'. split; [by constructor|].
  eapply frep_intro; [done|by apply fstep_retain|done|lia| |lia|done|done].
  destruct (live_recount _ _ _ _ (fs_total a') _ _ _ _ Hl). by split.
Qed.

Lemma fsim_is_ready f prm F FD tr a s :
  frepresents f prm F FD tr a s -> fallowed a FIsReady -> sim f prm F FD tr a s FIsReady.
Proof.
  intros Hr Hall. simpl in Hall. assert (Ht : fs_total a <> 0) by (unfold fs_total; lia).
  destruct (frep_live _ _ _ _ _ _ _ Hr Ht) as (x & K & Hl).
  destruct (live_future _ _ _ _ _ _ _ _ Hl) as [Hn Hf].
  assert (Hst : bool_decide (fut_state x = READY) = bool_decide (fs_result a <> None)).
  { destruct Hl. destruct (fs_result a).
    - destruct lv_state0 as ([? ? ? Hrd ? ? ?] & _). by rewrite Hrd.
    - destruct lv_state0 as [? ? ? Hpe]. by rewrite Hpe. }
  eapply fsim_intro with (Q := fun b s' => b = bool_decide (fs_result a <> None) /\ s' = s);
    [reflexivity|apply Hr| |].
  - unfold UfsrvFutureIsReady, future_is_ready. rewrite (is_null_false f) by done. wp_steps. done.
  - simpl. intros b s' [-> ->] _. exists a. split; [constructor|done].
Qed.

Lemma fsim_get f prm F FD tr a s :
  frepresents f prm F FD tr a s -> fallowed a FGet -> sim f prm F FD tr a s FGet.
Proof.
  intros Hr [Hrf Hres]. assert (Ht : fs_total a <> 0) by (unfold fs_total; lia).
  destruct (frep_live _ _ _ _ _ _ _ Hr Ht) as (x & K & Hl).
  destruct (live_future _ _ _ _ _ _ _ _ Hl) as [Hn Hf].
  destruct (fs_result a) as [r|] eqn:Hra; [|done].
  pose proof (lv_state _ _ _ _ _ _ _ _ Hl) as Hst. rewrite Hra in Hst. destruct Hst as (Hs & Hx & _).
  eapply fsim_intro with (Q := fun v s' => v = r /\ s' = s); [reflexivity|apply Hr| |].
  - unfold UfsrvFutureGet, future_is_ready. rewrite (is_null_false f) by done. wp_steps.
    rewrite (sf_ready _ _ _ Hs). simpl. wp_steps. done.
  - simpl. intros v s' [-> ->] _. exists a. split; [by constructor|done].
Qed.

(** The relation does not depend on the call history. *)
Lemma live_eq f prm F n a a' s x K :
  live f prm F n a s x K -> fs_promise a' = fs_promise a -> fs_result a' = fs_result a ->
  fs_pending a' = fs_pending a -> live f prm F n a' s x K.
Proof. intros [] Hp Hr Hpd. split; rewrite ?Hp, ?Hr, ?Hpd; done. Qed.

Lemma frep_dead f prm F FD tr a s :
  wf_machine s -> fspec_inv a -> fs_total a = 0 -> heap s = F -> fds s = FD ->
  trace s = tr ++ fs_calls a -> frepresents f prm F FD tr a s.
Proof. intros ?? Ht ???. split; rewrite ?Ht; done. Qed.

Lemma fsim_release f prm F FD tr a s :
  frepresents f prm F FD tr a s -> fallowed a FRelease -> sim f prm F FD tr a s FRelease.
Proof.
  intros Hr Hall. simpl in Hall. destruct (fs_refs a) as [|n] eqn:Hn; [lia|].
  assert (Ht : fs_total a <> 0) by (unfold fs_total; lia).
  destruct (frep_live _ _ _ _ _ _ _ Hr Ht) as (x & K & Hl). pose proof Hr as [].
  set (a' := spec_drop (fs_promise a) n a).
  assert (Hst : fspec_step f a FRelease RUnit a') by by apply fstep_release.
  assert (Ha' : fs_total a = S (fs_total a')) by (unfold fs_total; simpl; lia).
  pose proof (fspec_inv_step _ _ _ _ _ fr_inv0 Hst) as Hinv'.
  destruct (fs_total a') as [|m] eqn:Hm.
  - assert (fs_promise a = false /\ n = 0) as [Hp ->].
    { unfold fs_total in Hm; simpl in Hm. destruct (fs_promise a); [lia|]. split; [done|lia]. }
    destruct (fs_result a) as [r|] eqn:Hres; [|unfold fspec_inv in fr_inv0; rewrite Hres in fr_inv0; congruence].
    rewrite Ha' in Hl. eapply fsim_intro; [reflexivity|done|by eapply drop_last|].
    simpl. intros _ s' (Hfp & Hfr & Hfd & Htr) Hwf. exists a'. split; [done|].
    apply frep_dead; try done; [|by rewrite Hfd|].
    + apply map_eq. intros p. destruct (decide (p ∈ footprint f x K [])) as [Hi|Hi].
      * rewrite Hfp by done. symmetry. apply (lv_fresh _ _ _ _ _ _ _ _ Hl). by right.
      * rewrite Hfr by done. apply (lv_frame _ _ _ _ _ _ _ _ Hl); [done|by rewrite Hp].
    + unfold a', spec_drop. simpl. rewrite Hp, Hres. simpl. by rewrite Htr, fr_trace0, app_assoc.
  - rewrite Ha' in Hl. eapply fsim_intro; [reflexivity|done|eapply drop_shared; [done|lia]|].
    simpl. intros _ s' -> Hwf. exists a'. split; [done|].
    eapply (frep_intro _ _ _ _ _ a a' FRelease RUnit); [done|exact Hst|done|lia| |lia|done|].
    + rewrite Hm. eapply live_eq; [by eapply live_recount|done..].
    + unfold a', spec_drop. simpl. rewrite fr_trace0.
      assert (Hb : fs_promise a || negb (bool_decide (n = 0)) = true).
      { unfold fs_total in Hm; simpl in Hm. destruct (fs_promise a); [done|]. simpl.
        by rewrite bool_decide_eq_false_2 by lia. }
      rewrite Hb. by rewrite app_nil_r.
Qed.

(** The end of the promise's life, once the future is complete. *)
Lemma destroy_tail f prm F FD tr a s r x K :
  live f prm F (fs_total a) a s x K -> (Z.of_nat (fs_total a) < 2 ^ 31)%Z ->
  fs_promise a = true -> fs_result a = Some r -> fs_pending a = [] -> fds s = FD ->
  trace s = tr ++ fs_calls a ->
  WP (UfsrvFutureRelease f ;; free prm)%prog
    (fun _ s' => wf_machine s' -> frepresents f prm F FD tr (spec_drop false (fs_refs a) a) s') s.
Proof.
  intros Hl Hb Hp Hres Hpd Hfd0 Htr0. pose proof (lv_promise _ _ _ _ _ _ _ _ Hl Hp) as [Hn0 Hx].
  pose proof (live_promise_outside _ _ _ _ _ _ _ _ Hl Hp) as Hout.
  assert (Ht : fs_total a = S (fs_refs a)) by (unfold fs_total; by rewrite Hp). rewrite Ht in *.
  assert (Hinv' : fspec_inv (spec_drop false (fs_refs a) a)).
  { unfold fspec_inv. simpl. by rewrite Hres. }
  destruct (fs_refs a) as [|m] eqn:Hm.
  - eapply wps_seq; [by eapply drop_last|]. simpl. intros _ s1 (Hfp & Hfr & Hfd & Htr).
    assert (Hx1 : heap s1 !! prm = heap s !! prm) by by apply Hfr. rewrite Hx in Hx1. wp_steps.
    intros Hwf. apply frep_dead; simpl; try done; [|by rewrite Hfd|by rewrite Htr, Hres, Htr0, app_assoc].
    apply map_eq. intros p. destruct (decide (p = prm)) as [->|Hpp].
    { rewrite lookup_delete_eq. symmetry. apply (lv_fresh _ _ _ _ _ _ _ _ Hl). by left. }
    rewrite lookup_delete_ne by done. destruct (decide (p ∈ footprint f x K [])) as [Hi|Hi].
    + rewrite Hfp by done. symmetry. apply (lv_fresh _ _ _ _ _ _ _ _ Hl). by right.
    + rewrite Hfr by done. by apply (lv_frame _ _ _ _ _ _ _ _ Hl).
  - eapply wps_seq; [eapply drop_shared; [exact Hl|lia]|]. simpl. intros _ s1 ->.
    assert (Hpf : prm <> f) by (intros ->; apply Hout; by left). wp_steps.
    intros Hwf. split; simpl; try done; [unfold fs_total; simpl; lia| |].
    + exists (set_fut_refcount (Z.of_nat (S m)) x), K.
      pose proof (live_recount _ _ _ _ (S m) _ _ _ _ (live_retire _ _ _ _ _ _ _ _ Hl Hp)) as Hl'.
      unfold store_cell, with_heap in *. simpl in *.
      rewrite <- delete_insert_ne in Hl' by done. exact (live_eq _ _ _ _ _ (spec_drop false (S m) a) _ _ _ Hl' eq_refl eq_refl eq_refl).
    + by rewrite Htr0, app_nil_r.
Qed.


Lemma fsim_destroy f prm F FD tr a s :
  frepresents f prm F FD tr a s -> fallowed a FDestroyPromise -> sim f prm F FD tr a s FDestroyPromise.
Proof.
  intros Hr Hp. simpl in Hp. assert (Ht : fs_total a <> 0) by (unfold fs_total; rewrite Hp; lia).
  destruct (frep_live _ _ _ _ _ _ _ Hr Ht) as (x & K & Hl).
  pose proof (live_promise_outside _ _ _ _ _ _ _ _ Hl Hp) as Hout.
  pose proof Hr as []. pose proof (lv_promise _ _ _ _ _ _ _ _ Hl Hp) as [Hn0 Hx].
  set (a1 := match fs_result a with None => spec_complete f (error_result EPIPE) a | Some _ => a end).
  eapply fsim_intro with (g := fun _ : unit => RUnit) (Q := fun _ s' => wf_machine s' ->
    frepresents f prm F FD tr (spec_drop false (fs_refs a) a1) s');
    [reflexivity|done| |intros _ s' Hs' Hwf; eexists; split; [apply fstep_destroy|by apply Hs']].
  unfold UfsrvPromiseDestroy. rewrite (is_null_false prm) by done. wp_steps.
  destruct (fs_result a) as [r|] eqn:Hres; simpl.
  - assert (Hs : store_cell prm (set_prm_is_fulfilled true (MkPromise f true)) s = s).
    { destruct s. unfold store_cell, with_heap; simpl in *. f_equal. apply insert_id. by rewrite Hx. }
    simpl in Hs. rewrite Hs. wp_steps.
    pose proof (lv_state _ _ _ _ _ _ _ _ Hl) as Hst. rewrite Hres in Hst. destruct Hst as (_ & _ & ->).
    apply (destroy_tail f prm F FD tr a s r x []); try done. exact (lv_pending _ _ _ _ _ _ _ _ Hl).
  - pose proof (lv_state _ _ _ _ _ _ _ _ Hl) as Hst. rewrite Hres in Hst. wp_steps.
    eapply wps_seq.
    { eapply (sFutureComplete_spec (body client) f _ x K [] any any (eq [])); try done.
      - simpl. by eapply open_store_promise.
      - apply (lv_handle _ _ _ _ _ _ _ _ Hl).
      - intros k Hk. unfold pd_call. destruct (lv_user _ _ _ _ _ _ _ _ Hl k Hk) as [n ->].
        by apply observes_mannered. }
    simpl. intros _ s1 (_ & Hs1 & _ & Hk & Hfr & Hfd & Htr%made_silent).
    assert (Hx1 : heap s1 !! prm = Some (OPromise (MkPromise f true))).
    { rewrite Hfr by done. simpl. by rewrite lookup_insert_eq. }
    wp_steps.
    assert (Hfds1 : fds s1 = FD).
    { rewrite <- fr_fds0. apply map_eq. intros fd. apply Hfd; [done|]. apply not_elem_of_nil. }
    eapply (destroy_tail f prm F FD tr a1 s1 (error_result EPIPE) (complete_with (error_result EPIPE) x) []);
      try done; [|unfold a1; simpl; by rewrite Htr, fr_trace0, (lv_pending _ _ _ _ _ _ _ _ Hl), pd_calls, app_assoc].
    destruct Hl. split; simpl; try done.
    + by intros k ?%elem_of_nil.
    + intros p Hpx. apply lv_fresh0. unfold footprint in *. simpl in *. set_solver.
    + intros p Hni Hne. destruct (decide (p ∈ pd_nodes K)) as [Hin|Hin].
      { rewrite Hk by done. symmetry. apply lv_fresh0. unfold footprint. set_solver. }
      assert (Hpp : p <> prm) by by apply Hne.
      assert (Hpf : p ∉ footprint f x K []) by (unfold footprint in *; simpl in *; set_solver).
      rewrite Hfr by done. simpl. rewrite lookup_insert_ne by done. by apply lv_frame0.
Qed.

Lemma fsim_step f prm F FD tr a s op :
  frepresents f prm F FD tr a s -> fallowed a op -> sim f prm F FD tr a s op.
Proof.
  destruct op; intros Hr Hall; eauto using fsim_then, fsim_destroy, fsim_retain, fsim_release, fsim_is_ready, fsim_get.
  - eapply fsim_set; [done|exact Hall|reflexivity|constructor].
  - eapply fsim_set; [done|exact Hall|reflexivity|constructor].
  - eapply fsim_set; [done|exact Hall|reflexivity|constructor].
Qed.

(** A client of the pair: up to [n] calls, each chosen from the results so far. *)
Fixpoint fdrive (f prm : ptr) (strategy : list future_ret -> option future_op) (n : nat)
    (hist : list future_ret) : cprog (list future_ret) :=
  match n with
  | O => Ret hist
  | S n =>
      match strategy hist with
      | None => Ret hist
      | Some op => let! v := fexec f prm op in fdrive f prm strategy n (hist ++ [v])
      end
  end%prog.

Definition flifetime (strategy : list future_ret -> option future_op) (n : nat)
    : cprog (option (ptr * list future_ret)) :=
  (let! pf := UfsrvPromiseCreate false in
   if is_null pf.1 then Ret None
   else let! hist := fdrive pf.2 pf.1 strategy n [] in Ret (Some (pf.2, hist)))%prog.

Lemma fdrive_spec f prm F FD tr strategy n hist a s :
  frepresents f prm F FD tr a s -> fwell_behaved f strategy n hist a ->
  WP (fdrive f prm strategy n hist)
    (fun hist' s' => exists a', fspec_runs f strategy n hist a hist' a' /\
                                frepresents f prm F FD tr a' s') s.
Proof.
  intros Hr Hw. revert s Hr; induction Hw as [hist a|n hist a Hs|n hist a op Hs Hop _ IH];
    intros s Hr; simpl.
  - apply wps_ret. exists a. split; [constructor|done].
  - rewrite Hs. apply wps_ret. exists a. split; [by constructor|done].
  - rewrite Hs. eapply wps_seq; [by eapply fsim_step|]. simpl. intros v s1 (a1 & Hst & Hr1).
    eapply wp_mono; [by eapply IH|]. simpl. intros hist' s' (a' & Hruns & Hr').
    exists a'. split; [by eapply fruns_step|done].
Qed.

Lemma fcreate_spec s :
  wf_machine s ->
  WP (UfsrvPromiseCreate false)
    (fun pf s' => (pf = (NULL, NULL) /\ heap s' = heap s /\ fds s' = fds s /\ trace s' = trace s) \/
       (pf.1 <> NULL /\ frepresents pf.2 pf.1 (heap s) (fds s) (trace s) fspec_init s')) s.
Proof.
  intros Hwf. eapply wp_mono; [eapply wp_evolves; [done| |eapply (PromiseCreate_spec (body client))]|].
  - apply (api_guar _ _ (api_promise_create _)).
  - apply Hwf.
  - simpl. intros pf s' [(Htr & Hfd & [[-> Hh]|(c & w & Ho & Hp & Hnd & Hnew & Hfr)]) He]; [by left|right].
    split; [by destruct Hp|]. specialize (He Hwf). destruct He as [Hwf' _ _ _ _ _].
    split; simpl; try done; [|by rewrite Htr, app_nil_r].
    exists (new_future c w), []. split; simpl; try done.
    + by intros k ?%elem_of_nil.
    + intros p Hni Hne. apply Hfr. apply not_elem_of_cons. split; [by apply Hne|done].
Qed.

Lemma flifetime_spec strategy n s :
  wf_machine s -> (forall f, fwell_behaved f strategy n [] fspec_init) ->
  WP (flifetime strategy n)
    (fun r s' => match r with
      | None => heap s' = heap s /\ fds s' = fds s /\ trace s' = trace s
      | Some (f, hist) => exists prm a', fspec_runs f strategy n [] fspec_init hist a' /\
          frepresents f prm (heap s) (fds s) (trace s) a' s'
      end) s.
Proof.
  intros Hwf Hw. unfold flifetime. eapply wps_seq; [by apply fcreate_spec|]. simpl.
  intros pf s1 [(-> & ? & ? & ?)|[Hn Hr]].
  - change (is_null (NULL, NULL).1) with true. by apply wps_ret.
  - rewrite is_null_false by done. eapply wps_seq; [by eapply fdrive_spec|]. simpl.
    intros hist s2 ?. apply wps_ret. by exists pf.1.
Qed.
End Refinement.

(** ** Conservation of values and of continuations *)

Definition is_free (c : code) : bool := match c with K_free_value _ _ => true | _ => false end.
Definition is_future_cb (c : code) : bool := match c with K_future_cb _ _ _ => true | _ => false end.
Definition frees (l : list code) : list code := filter (fun c => is_free c = true) l.
Definition callbacks (l : list code) : list code := filter (fun c => is_future_cb c = true) l.

(** The disposal still owed for the value a live future holds. *)
Definition held (a : fspec) : list code :=
  if bool_decide (fs_total a = 0) then []
  else match fs_result a with Some r => dispose r | None => [] end.
(** The disposals owed for the values handed over by a call. *)
Definition supplied (op : future_op) : list code :=
  match op with
  | FSetResult r => dispose r
  | FSetValue v fv => dispose (MkResult 0 v fv)
  | _ => []
  end.
(** The continuation calls owed by a successful registration. *)
Definition registered (f : ptr) (op : future_op) (v : future_ret) : list code :=
  match op, v with
  | FThen fn ctx, RBool true => [K_future_cb (CB_user fn) f ctx]
  | _, _ => []
  end.

Lemma frees_dispose r : frees (dispose r) = dispose r.
Proof. unfold dispose. by repeat case_match. Qed.
Lemma callbacks_dispose r : callbacks (dispose r) = [].
Proof. unfold dispose. by repeat case_match. Qed.
Lemma frees_cb_calls f l : frees (cb_calls f l) = [].
Proof. by induction l. Qed.
Lemma callbacks_cb_calls f l : callbacks (cb_calls f l) = cb_calls f l.
Proof. induction l as [|k l IH]; [done|]. cbn. f_equal. exact IH. Qed.
Lemma frees_app l l' : frees (l ++ l') = frees l ++ frees l'.
Proof. apply filter_app. Qed.
Lemma callbacks_app l l' : callbacks (l ++ l') = callbacks l ++ callbacks l'.
Proof. apply filter_app. Qed.
Lemma dispose_error e : dispose (error_result e) = [].
Proof. done. Qed.

Lemma step_frees f a op v a' :
  fallowed a op -> fspec_step f a op v a' ->
  frees (fs_calls a') ++ held a' ≡ₚ frees (fs_calls a) ++ held a ++ supplied op.
Proof.
  assert (Hset : forall r, fs_promise a = true ->
    frees (fs_calls (spec_set f r a)) ++ held (spec_set f r a) ≡ₚ
    frees (fs_calls a) ++ held a ++ dispose r).
  { intros r Hp. unfold spec_set, spec_complete, held, fs_total. rewrite Hp.
    destruct (fs_result a) as [r0|]; simpl; rewrite frees_app, ?frees_dispose, ?frees_cb_calls, ?app_nil_r; [|done].
    rewrite <- app_assoc. by rewrite (Permutation_app_comm (dispose r)). }
  assert (Hdrop : forall p n a0, fs_total a0 <> 0 -> held a0 = match fs_result a0 with Some r => dispose r | None => [] end ->
    frees (fs_calls (spec_drop p n a0)) ++ held (spec_drop p n a0) ≡ₚ frees (fs_calls a0) ++ held a0).
  { intros p n a0 Ht ->. unfold spec_drop, held, fs_total; simpl. rewrite frees_app, <- app_assoc.
    destruct p; simpl; [done|]. destruct n; simpl; [|done].
    destruct (fs_result a0); rewrite ?frees_dispose, ?app_nil_r; done. }
  assert (Hheld : fs_total a <> 0 -> held a = match fs_result a with Some r => dispose r | None => [] end).
  { intros Ht. unfold held. by rewrite bool_decide_eq_false_2. }
  intros Hall Hs; destruct Hs; cbn [supplied fallowed fs_calls] in *; rewrite ?app_nil_r; auto.
  - unfold held, fs_total; simpl. rewrite H. by repeat case_bool_decide.
  - rewrite frees_app. simpl. rewrite app_nil_r. unfold held, fs_total; simpl. by rewrite H.
  - pose proof (Hset (error_result e) Hall) as He. rewrite dispose_error, app_nil_r in He. exact He.
  - assert (Ht : fs_total a <> 0) by (unfold fs_total; rewrite Hall; lia).
    destruct (fs_result a) as [r|] eqn:Hr.
    + etrans; [apply Hdrop; [done|rewrite Hr; auto]|done].
    + etrans; [apply Hdrop; [done|]|].
      * unfold held. by rewrite bool_decide_eq_false_2.
      * simpl. rewrite frees_app, frees_cb_calls, app_nil_r, Hheld by done.
        unfold held. rewrite bool_decide_eq_false_2 by done. done.
  - unfold held, fs_total in *; simpl. rewrite Nat.add_succ_r. simpl.
    rewrite bool_decide_eq_false_2; [done|lia].
  - assert (Ht : fs_total a <> 0) by (unfold fs_total; lia). apply Hdrop; auto.
Qed.

Lemma step_callbacks f a op v a' :
  fspec_inv a -> fspec_step f a op v a' ->
  callbacks (fs_calls a') ++ cb_calls f (fs_pending a') ≡ₚ
  callbacks (fs_calls a) ++ cb_calls f (fs_pending a) ++ registered f op v.
Proof.
  intros Hinv Hs. unfold fspec_inv in Hinv.
  assert (Hset : forall r, callbacks (fs_calls (spec_set f r a)) ++ cb_calls f (fs_pending (spec_set f r a)) ≡ₚ
    callbacks (fs_calls a) ++ cb_calls f (fs_pending a)).
  { intros r. unfold spec_set, spec_complete. destruct (fs_result a); simpl;
      rewrite callbacks_app, ?callbacks_dispose, ?callbacks_cb_calls, ?app_nil_r; done. }
  assert (Hdrop : forall p n a0, callbacks (fs_calls (spec_drop p n a0)) = callbacks (fs_calls a0)).
  { intros p n a0. unfold spec_drop; simpl. rewrite callbacks_app.
    destruct (p || _); [|destruct (fs_result a0)]; rewrite ?callbacks_dispose; simpl; by rewrite app_nil_r. }
  destruct Hs; cbn [registered fs_calls fs_pending]; rewrite ?app_nil_r; auto.
  - apply Permutation_app_head, Permutation_cons_append.
  - rewrite callbacks_app. rewrite H in Hinv. rewrite Hinv. simpl. by rewrite app_nil_r.
  - rewrite Hdrop. destruct (fs_result a) as [r|] eqn:Hr; simpl; [done|].
    rewrite callbacks_app, callbacks_cb_calls, app_nil_r. done.
  - by rewrite Hdrop.
Qed.

(** ** Properties *)

(** C1.  Refinement.  From any well-formed machine, the life of a promise and its
    future under any well-behaved client terminates without undefined behaviour;
    every result is one the specification allows; the machine represents the
    abstract state, so that the client functions called are, in order, those of
    the specification and nothing else has changed.  When the pair cannot be
    created, nothing has changed. *)
Theorem future_refines_spec {E : Ext} {TS : TreiberSpec E} client strategy n s :
  client_guar client ->
  (forall m f ctx, observes (body client) (K_future_cb (CB_user m) f ctx)) ->
  (forall fn v, observes (body client) (K_free_value fn v)) ->
  wf_machine s -> (forall f, fwell_behaved f strategy n [] fspec_init) ->
  wp (body client) log (flifetime strategy n)
    (fun r s' => match r with
      | None => heap s' = heap s /\ fds s' = fds s /\ trace s' = trace s
      | Some (f, hist) => exists prm a', fspec_runs f strategy n [] fspec_init hist a' /\
          frepresents f prm (heap s) (fds s) (trace s) a' s'
      end) s.
Proof. intros. by apply flifetime_spec. Qed.

(** C3.  Every value is disposed of exactly once.  Across any call, the disposals
    made so far and the one still owed for the value the future holds grow exactly
    by those owed for the values the call hands over: a second fulfilment consumes
    its value at once, the last reference consumes the held one. *)
Theorem values_disposed_once {E : Ext} {TS : TreiberSpec E} client f prm F FD tr a s op :
  client_guar client ->
  (forall m f ctx, observes (body client) (K_future_cb (CB_user m) f ctx)) ->
  (forall fn v, observes (body client) (K_free_value fn v)) ->
  frepresents f prm F FD tr a s -> fallowed a op ->
  wp (body client) log (fexec f prm op)
    (fun _ s' => exists a', frepresents f prm F FD tr a' s' /\
       frees (trace s') ++ held a' ≡ₚ frees (trace s) ++ held a ++ supplied op) s.
Proof.
  intros Hcl Hcb Hfr Hr Hall. eapply wp_mono; [by eapply (fsim_step client)|].
  simpl. intros v s' (a' & Hst & Hr'). exists a'. split; [done|].
  rewrite (fr_trace _ _ _ _ _ _ _ Hr), (fr_trace _ _ _ _ _ _ _ Hr'), !frees_app, <- !app_assoc.
  apply Permutation_app_head. by eapply step_frees.
Qed.

(** C4.  Every continuation runs exactly once.  Across any call, the continuation
    calls made so far and those still pending grow exactly by the one a successful
    registration adds; and nothing is pending on a completed future. *)
Theorem continuations_run_once {E : Ext} {TS : TreiberSpec E} client f prm F FD tr a s op :
  client_guar client ->
  (forall m f ctx, observes (body client) (K_future_cb (CB_user m) f ctx)) ->
  (forall fn v, observes (body client) (K_free_value fn v)) ->
  frepresents f prm F FD tr a s -> fallowed a op ->
  wp (body client) log (fexec f prm op)
    (fun v s' => exists a', frepresents f prm F FD tr a' s' /\
       callbacks (trace s') ++ cb_calls f (fs_pending a') ≡ₚ
       callbacks (trace s) ++ cb_calls f (fs_pending a) ++ registered f op v /\
       (fs_result a' <> None -> fs_pending a' = [])) s.
Proof.
  intros Hcl Hcb Hfr Hr Hall. eapply wp_mono; [by eapply (fsim_step client)|].
  simpl. intros v s' (a' & Hst & Hr'). exists a'. pose proof (fr_inv _ _ _ _ _ _ _ Hr) as Hinv.
  split_and!; [done| |].
  - rewrite (fr_trace _ _ _ _ _ _ _ Hr), (fr_trace _ _ _ _ _ _ _ Hr'), !callbacks_app, <- !app_assoc.
    apply Permutation_app_head. by eapply step_callbacks.
  - pose proof (fr_inv _ _ _ _ _ _ _ Hr') as Hinv'. unfold fspec_inv in Hinv'. by destruct (fs_result a').
Qed.

(** C5.  The first result is final on the pair's own interface.  A client that owns a
    completed pair and goes on using it through SetResult/SetValue/SetError, Then with
    callbacks that only observe, IsReady, Get, Retain, Release and the promise's
    Destroy, in any order and with any arguments, finds the result it was completed
    with: every Get returns it, and the future still holds it at the end.  (The operators
    that move a value out of their input are not part of this interface; what stays
    true of a result with them, and with other threads, is the subject of
    Publication.v.) *)
Theorem result_is_final {E : Ext} {TS : TreiberSpec E} client f prm F FD tr strategy n hist a s r :
  client_guar client ->
  (forall m f ctx, observes (body client) (K_future_cb (CB_user m) f ctx)) ->
  (forall fn v, observes (body client) (K_free_value fn v)) ->
  frepresents f prm F FD tr a s -> fs_result a = Some r -> fwell_behaved f strategy n hist a ->
  wp (body client) log (fdrive f prm strategy n hist)
    (fun hist' s' => exists a', frepresents f prm F FD tr a' s' /\ fs_result a' = Some r /\
       forall r', RResult r' ∈ drop (length hist) hist' -> r' = r) s.
Proof.
  intros Hcl Hcb Hfr Hr Hres Hw. eapply wp_mono; [by eapply (fdrive_spec client)|].
  simpl. intros hist' s' (a' & Hruns & Hr'). exists a'. split; [done|].
  assert (Hgo : fs_result a' = Some r /\ exists l, hist' = hist ++ l /\ forall r', RResult r' ∈ l -> r' = r).
  { clear Hr Hr' Hw. induction Hruns as [hist a|n hist a Hst|n hist a op v a1 hist' a'' Hop Hst _ IH].
    - split; [done|]. exists []. rewrite app_nil_r. split; [done|]. by intros ? ?%elem_of_nil.
    - split; [done|]. exists []. rewrite app_nil_r. split; [done|]. by intros ? ?%elem_of_nil.
    - destruct IH as (H1 & l & -> & Hl); [by eapply fspec_result_step|]. split; [done|].
      exists (v :: l). rewrite <- app_assoc. split; [done|].
      intros r' [Hv|Hin]%elem_of_cons; [subst v|by apply Hl]. inversion Hst; congruence. }
  destruct Hgo as (? & l & -> & Hl). split; [done|]. intros r'. rewrite drop_app_length. apply Hl.
Qed.

(** C7.  Nothing leaks.  When the promise is destroyed and every reference is
    released, the heap and the descriptors are what they were before the pair. *)
Theorem future_reclaimed {E : Ext} {TS : TreiberSpec E} client strategy n s :
  client_guar client ->
  (forall m f ctx, observes (body client) (K_future_cb (CB_user m) f ctx)) ->
  (forall fn v, observes (body client) (K_free_value fn v)) ->
  wf_machine s -> (forall f, fwell_behaved f strategy n [] fspec_init) ->
  (forall f hist a', fspec_runs f strategy n [] fspec_init hist a' -> fs_total a' = 0) ->
  wp (body client) log (flifetime strategy n) (fun _ s' => heap s' = heap s /\ fds s' = fds s) s.
Proof.
  intros Hcl Hcb Hfr Hwf Hw H0. eapply wp_mono; [by eapply (flifetime_spec client)|].
  simpl. intros [[f hist]|] s'; [|by intros (? & ? & _)]. intros (prm & a' & Hruns & []).
  rewrite (H0 _ _ _ Hruns) in fr_heap0. by split.
Qed.

(** ** A client *)

(** Two continuations, a fulfilment, a late fulfilment, a wait, the promise's end,
    a late continuation, and the release. *)
Definition fdemo (hist : list future_ret) : option future_op :=
  match length hist with
  | 0 => Some (FThen 1 10%N)
  | 1 => Some (FThen 2 20%N)
  | 2 => Some (FSetValue 77%N (Some FREE_libc))
  | 3 => Some (FSetValue 88%N (Some FREE_libc))
  | 4 => Some FGet
  | 5 => Some FDestroyPromise
  | 6 => Some (FThen 3 30%N)
  | 7 => Some FRelease
  | _ => None
  end.

Ltac fspec_cases :=
  repeat match goal with
  | H : fspec_step _ _ _ _ _ |- _ => inversion H; clear H; simplify_eq/=
  | H : Some _ = Some _ |- _ => injection H as H; simplify_eq/=
  | H : None = Some _ |- _ => discriminate H
  | H : Some _ = None |- _ => discriminate H
  | H : fspec_runs _ _ _ _ _ _ _ |- _ => inversion H; clear H; simplify_eq/=
  end.

Lemma fdemo_allowed f : fwell_behaved f fdemo 9 [] fspec_init.
Proof.
  repeat first
    [ apply fwb_stop; reflexivity
    | eapply fwb_step;
      [ reflexivity
      | simpl; first [lia | reflexivity | split; [lia|done]]
      | intros ? ? Hst; inversion Hst; clear Hst; simplify_eq/= ] ].
Qed.

Lemma fdemo_balanced f hist a' : fspec_runs f fdemo 9 [] fspec_init hist a' -> fs_total a' = 0.
Proof. intros Hr. fspec_cases; reflexivity. Qed.

Lemma quiet_observes_cb {E : Ext} m f ctx : observes (body quiet_client) (K_future_cb (CB_user m) f ctx).
Proof. intros s. by apply wps_ret. Qed.
Lemma quiet_observes_free {E : Ext} fn v : observes (body quiet_client) (K_free_value fn v).
Proof. intros s. by apply wps_ret. Qed.

#[local] Existing Instances RefExt.ext RefExt.treiber.

Lemma future_refines_spec_witness :
  wp (body quiet_client) log (flifetime fdemo 9)
    (fun r s' => match r with
      | None => heap s' = heap boot /\ fds s' = fds boot /\ trace s' = trace boot
      | Some (f, hist) => exists prm a', fspec_runs f fdemo 9 [] fspec_init hist a' /\
          frepresents f prm (heap boot) (fds boot) (trace boot) a' s'
      end) boot.
Proof.
  apply (future_refines_spec quiet_client fdemo 9 boot).
  - apply quiet_guar.
  - apply quiet_observes_cb.
  - apply quiet_observes_free.
  - apply boot_wf.
  - apply fdemo_allowed.
Defined.

Lemma future_reclaimed_witness :
  wp (body quiet_client) log (flifetime fdemo 9) (fun _ s' => heap s' = heap boot /\ fds s' = fds boot) boot.
Proof.
  apply (future_reclaimed quiet_client fdemo 9 boot).
  - apply quiet_guar.
  - apply quiet_observes_cb.
  - apply quiet_observes_free.
  - apply boot_wf.
  - apply fdemo_allowed.
  - apply fdemo_balanced.
Defined.

(** The pair [boot] creates: the future at address 1, the promise at address 2. *)
Definition created : st :=
  match run (body quiet_client) log 100 (UfsrvPromiseCreate false) boot with Done _ s => s | _ => boot end.
Definition fulfilled_st : st :=
  match run (body quiet_client) log 100 (fexec 1%N 2%N (FSetValue 77%N (Some FREE_libc))) created with
  | Done _ s => s | _ => boot end.
Definition fulfilled_spec : fspec := spec_set 1%N (MkResult 0 77%N (Some FREE_libc)) fspec_init.

Lemma created_represents : frepresents 1%N 2%N ∅ ∅ [] fspec_init created.
Proof.
  pose proof (fcreate_spec quiet_client quiet_guar boot boot_wf) as Hc.
  apply (wp_done _ _ 100 _ _ _ (2%N, 1%N) created) in Hc; [|vm_compute; reflexivity].
  by destruct Hc as [[? _]|[_ ?]].
Qed.

Lemma fulfilled_represents : frepresents 1%N 2%N ∅ ∅ [] fulfilled_spec fulfilled_st.
Proof.
  pose proof (fsim_step quiet_client quiet_guar quiet_observes_cb quiet_observes_free _ _ _ _ _ _ _
    (FSetValue 77%N (Some FREE_libc)) created_represents eq_refl) as Hc.
  apply (wp_done _ _ 100 _ _ _ RUnit fulfilled_st) in Hc; [|vm_compute; reflexivity].
  destruct Hc as (a' & Hst & Hr). by inversion Hst; simplify_eq.
Qed.

Lemma values_disposed_once_witness :
  wp (body quiet_client) log (fexec 1%N 2%N (FSetValue 88%N (Some FREE_libc)))
    (fun _ s' => exists a', frepresents 1%N 2%N ∅ ∅ [] a' s' /\
       frees (trace s') ++ held a' ≡ₚ
       frees (trace fulfilled_st) ++ held fulfilled_spec ++ supplied (FSetValue 88%N (Some FREE_libc)))
    fulfilled_st.
Proof.
  apply (values_disposed_once quiet_client).
  - apply quiet_guar.
  - apply quiet_observes_cb.
  - apply quiet_observes_free.
  - apply fulfilled_represents.
  - reflexivity.
Defined.

Lemma continuations_run_once_witness :
  wp (body quiet_client) log (fexec 1%N 2%N (FThen 1 10%N))
    (fun v s' => exists a', frepresents 1%N 2%N ∅ ∅ [] a' s' /\
       callbacks (trace s') ++ cb_calls 1%N (fs_pending a') ≡ₚ
       callbacks (trace created) ++ cb_calls 1%N (fs_pending fspec_init) ++
         registered 1%N (FThen 1 10%N) v /\
       (fs_result a' <> None -> fs_pending a' = [])) created.
Proof.
  apply (continuations_run_once quiet_client).
  - apply quiet_guar.
  - apply quiet_observes_cb.
  - apply quiet_observes_free.
  - apply created_represents.
  - simpl. lia.
Defined.

Lemma result_is_final_witness :
  wp (body quiet_client) log
    (fdrive 1%N 2%N (fun h => match h with [] => Some (FSetError 5) | _ => Some FGet end) 2 [])
    (fun hist' s' => exists a', frepresents 1%N 2%N ∅ ∅ [] a' s' /\
       fs_result a' = Some (MkResult 0 77%N (Some FREE_libc)) /\
       forall r', RResult r' ∈ drop (length (@nil future_ret)) hist' -> r' = MkResult 0 77%N (Some FREE_libc))
    fulfilled_st.
Proof.
  apply (result_is_final quiet_client) with (a := fulfilled_spec).
  - apply quiet_guar.
  - apply quiet_observes_cb.
  - apply quiet_observes_free.
  - apply fulfilled_represents.
  - reflexivity.
  - eapply fwb_step; [reflexivity|reflexivity|]. intros v a' Hst. inversion Hst; subst.
    eapply fwb_step; [reflexivity|simpl; split; [lia|done]|]. intros; constructor.
Defined.
