(* ===== verification/Demo.v ===== *)
(** * Demo: concrete machines for the witnesses

    States reached from [boot] by running the library's own code, with the quiet
    client and the reference implementation of the libraries. *)
From S2P Require Import Prelude Machine Uflib Model Cancellation Scheduler Coroutine Future Waiting.
From S2P Require Import Operators Combinators Dispatch Logic Guarantee CancellationFacts FutureFacts.
#[local] Existing Instances RefExt.ext RefExt.treiber.
Local Open Scope prog_scope.

(** The machine after [p], run to its end. *)
Definition after {A} (p : cprog A) (s : st) : st :=
  match run (body quiet_client) log 400 p s with Done _ s' => s' | _ => s end.
Definition value {A} (d : A) (p : cprog A) (s : st) : A :=
  match run (body quiet_client) log 400 p s with Done a _ => a | _ => d end.

Lemma after_wf {A} (p : cprog A) s : guar evolves p -> wf_machine s -> wf_machine (after p s).
Proof.
  intros Hp Hs. unfold after. destruct (run _ _ _ _ _) eqn:Er; try done.
  eapply evolves_run_done; [apply quiet_guar|exact Hp|exact Er|exact Hs].
Qed.

Lemma quiet_observes c :
  match c with
  | K_future_cb (CB_user _) _ _ | K_free_value _ _ | K_cancel_cb (CC_user _) _
  | K_job (JB_user _) _ | K_map _ _ _ | K_flat_map _ _ _ | K_recover _ _ _
  | K_action _ _ _ | K_zip _ _ _ _ => observes (body quiet_client) c
  | _ => True
  end.
Proof. destruct c as [[]| | | | | | |[]|[]| | | | | | | | | | |]; try done; intros s; by apply wps_ret. Qed.

(** A promise/future pair with one continuation, and a token with one callback. *)
Definition setup : cprog unit :=
  let! pf := UfsrvPromiseCreate false in
  let! _ := UfsrvFutureThen pf.2 (Some (CB_user 7)) 70%N in
  let! t := UfsrvCancellationTokenCreate in
  let! _ := UfsrvCancellationTokenRegister t (Some (CC_user 3)) 30%N in
  Ret tt.
Definition ready_st : st := after setup boot.
(** The addresses it hands out. *)
Definition fut : ptr := 1%N.
Definition prm : ptr := 2%N.
Definition conts : list pending := [Pend 5%N (CB_user 7) 70%N].
Definition tok : ptr := 6%N.
Definition regs : list registration := [Reg 7%N (CC_user 3) 30%N None].
Definition fut_cell : UfsrvFuture := new_future 3%N 4%N.

Lemma ready_wf : wf_machine ready_st.
Proof.
  apply after_wf; [|apply boot_wf]. unfold setup.
  apply guar_bind; [apply (api_guar _ _ (api_promise_create _))|intros pf].
  apply guar_bind; [apply (api_guar _ _ (api_then _ _ _))|intros _].
  apply guar_bind; [apply (api_guar _ _ (api_token_create))|intros t].
  apply guar_bind; [apply (api_guar _ _ (api_token_register _ _ _))|intros; apply guar_ret].
Qed.

Lemma ready_open : open_future (heap ready_st) (fds ready_st) fut fut_cell conts [].
Proof.
  split; try done; try (vm_compute; reflexivity).
  - split; [done|]. eexists. split; [vm_compute; reflexivity|by split].
  - split; [done|]. eexists. split; [vm_compute; reflexivity|by split].
  - intros k ->%list_elem_of_singleton. split; [done|]. eexists. split; [vm_compute; reflexivity|by split].
  - by intros w ?%elem_of_nil.
  - apply NoDup_singleton.
  - apply NoDup_nil_2.
  - apply NoDup_nil_2.
Qed.

Lemma ready_promise : promise_at (heap ready_st) prm fut false.
Proof. split; [done|vm_compute; reflexivity]. Qed.

Lemma ready_token : token_rep (heap ready_st) tok 2 false regs.
Proof.
  exists 7%N, 7%N. split_and!; [done|vm_compute; reflexivity| |apply NoDup_singleton|done|done].
  split_and!; [done|done|]. exists NULL. split; [vm_compute; reflexivity|done].
Qed.

Lemma ready_conts k : k ∈ conts -> observes (body quiet_client) (pd_call fut k).
Proof. intros ->%list_elem_of_singleton. apply (quiet_observes (K_future_cb (CB_user 7) fut 70%N)). Qed.
Lemma ready_regs r : r ∈ regs -> observes (body quiet_client) (reg_call r).
Proof. intros ->%list_elem_of_singleton. apply (quiet_observes (K_cancel_cb (CC_user 3) 30%N)). Qed.
