(* ===== verification/WaitingFacts.v ===== *)
(** * WaitingFacts: what happens to a caller of [Get]

    A wait is specified by what its suspended continuation does: [Get] either
    fails without effect or goes to sleep as a registered waiter, and what is left
    of it, run in any later state where the waiter has been woken, returns the
    published result and gives its memory and descriptor back. *)
From S2P Require Import Prelude Machine Uflib Model Cancellation Scheduler Coroutine Future Waiting.
From S2P Require Import Dispatch Logic Guarantee CancellationFacts FutureFacts Demo.
Local Open Scope prog_scope.

Section Waiting.
Context {E : Ext} {TS : TreiberSpec E} (client : Client).
#[local] Abbreviation WPS := (wps (body client) log).
#[local] Abbreviation WP := (wp (body client) log).

(** ** The read loop *)

(** A readable descriptor: EINTR is retried, the counter is consumed. *)
Lemma read_retry_spec fd n s :
  fds s !! fd = Some n -> n <> 0%Z ->
  WP (read_retry_loop fd)
    (fun r s' => r = NULL /\ exists o, s' = with_fds (<[fd := 0%Z]>) (with_oracle o s)) s.
Proof.
  remember (oracle s) as l eqn:Hl. revert s Hl. induction l as [|b l IH]; intros s Hl Hf Hn;
    unfold read_retry_loop.
  - eapply wps_act; [rewrite Hf; unfold take_oracle; rewrite <- Hl, bool_decide_eq_false_2 by done; reflexivity|].
    apply wps_ret. split; [done|]. exists (oracle s). by destruct s.
  - destruct b; (eapply wps_act; [rewrite Hf; unfold take_oracle; rewrite <- Hl,
        ?bool_decide_eq_false_2 by done; reflexivity|]); [|apply wps_ret; split; [done|by exists l]].
    apply (wp_call_bind _ _ _ (fun _ s' => exists o, s' = with_fds (<[fd := 0%Z]>) (with_oracle o s))).
    + eapply wp_mono; [by apply (IH (with_oracle l s))|]. simpl. intros _ s' [_ [o ->]]. by exists o.
    + intros _ s' H. by apply wps_ret.
Qed.

(** [resumes fd k p]: [p] is a suspended [k]; once [fd] is readable it goes on. *)
Definition resumes {A} (fd : Z) (k p : cprog A) : Prop :=
  forall Q W Y s n, fds s !! fd = Some n -> n <> 0%Z ->
    (forall o, WPS k Q W Y (with_fds (<[fd := 0%Z]>) (with_oracle o s))) -> WPS p Q W Y s.

Lemma resumes_bind {A} fd (k : cprog A) p :
  resumes fd (Ret NULL) p -> resumes fd k (bind p (fun _ => k)).
Proof. intros Hp Q W Y s n Hf Hn Hk. apply wps_bind. eapply Hp; [done..|]. intros o. by apply wps_ret. Qed.

(** An unreadable one: the caller sleeps in the loop. *)
Lemma read_retry_sleep fd s :
  fds s !! fd = Some 0%Z ->
  WPS (read_retry_loop fd) (fun _ _ => False)
    (fun p s' => (exists o, s' = with_oracle o s) /\ resumes fd (Ret NULL) p) (fun _ _ => False) s.
Proof.
  remember (oracle s) as l eqn:Hl. revert s Hl.
  assert (Hself : resumes fd (Ret NULL) (read_retry_loop fd)).
  { intros Q W Y s n Hf Hn Hk. eapply wps_mono; [by eapply read_retry_spec| |done..].
    simpl. intros a s' [-> [o ->]]. by destruct (Hk o) as [[|m] Hm]. }
  induction l as [|b l IH]; intros s Hl Hf.
  - eapply wps_block; [rewrite Hf; unfold take_oracle; by rewrite <- Hl|].
    split; [|exact Hself]. exists (oracle s). by destruct s.
  - destruct b.
    + eapply wps_act; [rewrite Hf; unfold take_oracle; rewrite <- Hl; reflexivity|].
      apply wps_call_bind. change (log (L_read_retry fd) (with_oracle l s)) with (with_oracle l s).
      eapply wps_mono; [by apply (IH (with_oracle l s))|done| |done].
      simpl. intros p s' [[o ->] Hp]. split; [by exists o|by apply resumes_bind].
    + eapply wps_block; [rewrite Hf; unfold take_oracle; by rewrite <- Hl|].
      split; [|exact Hself]. exists (oracle s). by destruct s.
Qed.

Lemma wps_read_retry {A} fd n (k : unit -> cprog A) Q W Y s :
  fds s !! fd = Some n -> n <> 0%Z ->
  (forall o, WPS (k tt) Q W Y (with_fds (<[fd := 0%Z]>) (with_oracle o s))) ->
  WPS (bind (call (L_read_retry fd)) k) Q W Y s.
Proof.
  intros Hf Hn Hk. eapply wp_call_bind; [by eapply read_retry_spec|]. simpl. intros _ s' [_ [o ->]]. apply Hk.
Qed.
Lemma wps_read_sleep {A} fd (k : unit -> cprog A) (Q : A -> st -> Prop) (W : cprog A -> st -> Prop) Y s :
  fds s !! fd = Some 0%Z ->
  (forall o p, resumes fd (k tt) p -> W p (with_oracle o s)) ->
  WPS (bind (call (L_read_retry fd)) k) Q W Y s.
Proof.
  intros Hf Hk. apply wps_call_bind. change (log (L_read_retry fd) s) with s.
  eapply wps_mono; [by apply read_retry_sleep|done| |done]. simpl.
  intros p s' [[o ->] Hp]. by apply Hk, resumes_bind.
Qed.

(** ** The blocking wait *)

(** A fresh eventfd, or -1. *)
Lemma wps_eventfd {A} (k : Z -> cprog A) Q W Y s :
  (forall o, WPS (k (-1)%Z) Q W Y (with_oracle o s)) ->
  (forall o, WPS (k (next_fd s)) Q W Y
     (with_next_fd (next_fd s + 1) (with_fds (<[next_fd s := 0%Z]>) (with_oracle o s)))) ->
  WPS (bind eventfd k) Q W Y s.
Proof.
  intros H0 H1. assert (Hs : s = with_oracle (oracle s) s) by by destruct s.
  destruct (oracle s) as [|[] r] eqn:Eo.
  - eapply wps_act; [unfold take_oracle; rewrite Eo; reflexivity|]. rewrite Hs at 3. apply H1.
  - eapply wps_act; [unfold take_oracle; rewrite Eo; reflexivity|]. apply H0.
  - eapply wps_act; [unfold take_oracle; rewrite Eo; reflexivity|]. apply H1.
Qed.

(** The caller as a registered waiter [w] of [f], in a state reached from [s]. *)
Record asleep (f : ptr) (x : UfsrvFuture) K W (w : sleeper) (s s1 : st) : Prop := {
  as_open : open_future (heap s1) (fds s1) f x K (w :: W);
  as_node : heap s !! sl_node w = None;
  as_fd : fds s !! sl_fd w = None;
  as_heap p : p <> sl_node w -> p <> fut_waiters x -> heap s1 !! p = heap s !! p;
  as_fds fd : fd <> sl_fd w -> fds s1 !! fd = fds s !! fd;
  as_trace : trace s1 = trace s;
  as_cur : cur s1 = cur s;
}.

(** What a woken waiter does: it returns the published result and gives back its
    node and its descriptor, nothing else. *)
Definition wakes_up (f : ptr) (w : sleeper) (p : cprog UfsrvFutureResult) : Prop :=
  forall s2 x2, heap s2 !! f = Some (OFuture x2) -> awake (heap s2) (fds s2) w ->
    WP p (fun r s3 => r = fut_result x2 /\ heap s3 = delete (sl_node w) (heap s2) /\
      fds s3 = delete (sl_fd w) (fds s2) /\ trace s3 = trace s2) s2.

(** A future and a token have no cell in common. *)
Lemma open_not_token h fd f x K W t rc c L p :
  open_future h fd f x K W -> token_rep h t rc c L -> p ∈ t :: nodes L -> p ∉ footprint f x K W.
Proof.
  intros Ho (hd & last & _ & Ht & Hseg & _) [->|Hp]%elem_of_cons; [by eapply open_outside|].
  destruct (cb_seg_live _ _ _ _ _ _ _ _ Hseg Hp) as [_ [y Hy]]. by eapply open_outside.
Qed.

(** A new waiter on the stack of a pending future. *)
Lemma open_push_waiter h fd h' fd' f x K W w ws :
  open_future h fd f x K W -> h !! fut_waiters x = Some (OStack ws) -> ts_nodes ws = sl_nodes W -> ts_closed ws = false ->
  h !! sl_node w = None -> fd !! sl_fd w = None ->
  h' !! fut_waiters x = Some (OStack (ts_push (sl_node w) ws).2) ->
  (forall q, q ∈ footprint f x K W -> q <> fut_waiters x -> h' !! q = h !! q) ->
  (forall z, z ∈ sl_fds W -> fd' !! z = fd !! z) -> sleeping h' fd' w ->
  open_future h' fd' f x K (w :: W).
Proof.
  intros [] Hws Hwsn Hwsc Hn Hz Hws' Hh Hfd Hw. destruct of_conts as (Hc0 & ks & Hks & ?), of_waits as (Hw0 & _).
  split; try done.
  - rewrite Hh; [done|by left|congruence].
  - split; [done|]. exists ks. rewrite Hh; [done|unfold footprint; set_solver +|done].
  - split; [done|]. exists (ts_push (sl_node w) ws).2. split; [done|]. by rewrite ts_push_nodes, ts_push_closed, Hwsc, Hwsn.
  - intros k Hk. pose proof (of_pendings k Hk) as (_ & b & ? & _).
    eapply pending_node_frame; [|by apply of_pendings]. apply Hh; [by apply footprint_cont|congruence].
  - intros w' [->|Hin]%elem_of_cons; [done|]. pose proof (of_sleepers w' Hin) as (_ & ? & _ & b & ? & _).
    eapply sleeping_frame; [| |by apply of_sleepers]; [apply Hh; [by apply footprint_wait|congruence]|].
    apply Hfd. by apply list_elem_of_fmap_2.
  - rewrite sl_nodes_cons. apply NoDup_cons. split; [|done]. intros (w' & Hx & Hin)%list_elem_of_fmap.
    destruct (of_sleepers w' Hin) as (_ & _ & _ & b & ? & _). congruence.
  - rewrite sl_fds_cons. apply NoDup_cons. split; [|done]. intros (w' & Hx & Hin)%list_elem_of_fmap.
    destruct (of_sleepers w' Hin) as (_ & ? & _). congruence.
Qed.

Lemma GetBlocking_spec f x K W s :
  wf_machine s -> open_future (heap s) (fds s) f x K W ->
  WPS (sFutureGetBlocking f)
    (fun r s' => r = error_result (-1) /\ heap s' = heap s /\ fds s' = fds s /\ trace s' = trace s)
    (fun p s1 => exists w, asleep f x K W w s s1 /\ wakes_up f w p)
    (fun _ _ => False) s.
Proof.
  intros [[Hpos Hfresh] Hfd0 Hfdf _] Ho. pose proof Ho as [].
  destruct of_conts as (Hc0 & ks & Hks & Hksn & Hksc), of_waits as (Hw0 & ws & Hws & Hwsn & Hwsc).
  unfold sFutureGetBlocking, lockless_treiber_stack_push. wp_steps.
  apply wps_alloc; [by split| |]; intros o1.
  { change (is_null NULL) with true. wp_steps. simpl. auto. }
  assert (Hnew : heap s !! next_ptr s = None) by (apply Hfresh; lia).
  assert (Hn0 : next_ptr s <> NULL) by (unfold NULL; lia).
  rewrite (is_null_false (next_ptr s)) by done.
  set (n := next_ptr s) in *. clearbody n. wp_steps.
  apply wps_eventfd; intros o2; wp_steps.
  { simpl. wp_steps. simpl. split_and!; [done| |done..]. by rewrite !insert_insert_eq, delete_insert_eq, delete_id. }
  set (z := next_fd s) in *. rewrite bool_decide_eq_false_2 by (simpl; lia). wp_steps.
  rewrite ts_push_accepts, Hwsc. simpl. wp_steps.
  apply wps_read_sleep; [simpl; apply lookup_insert_eq|]. intros o3 p Hres.
  exists (Sleeper n z 2 NULL).
  split.
  - split; simpl; try done; try (by apply Hfdf); try (intros; lk; by rewrite ?insert_insert_eq).
    + eapply (open_push_waiter (heap s) (fds s) _ _ f x K W (Sleeper n z 2 NULL) ws); try done; simpl; [by apply Hfdf|lk| | |].
      * intros q Hq ?. destruct (open_allocated _ _ _ _ _ _ _ Ho Hq). lk.
      * intros fd (w & -> & Hin)%list_elem_of_fmap. destruct (of_sleepers w Hin) as (_ & Hx & _). rewrite lookup_insert_ne; [done|].
        intros Hy. rewrite <- Hy, Hfdf in Hx; [done|lia].
      * split_and!; simpl; [lia|apply lookup_insert_eq|done|]. eexists. split; [lk|].
        split; [apply tn_init_refs|apply tn_init_claimed].
  - intros s2 x2 Hf2 (Hz2 & b & Hb & Hrefs & Hcl). simpl in *.
    eapply Hres; [exact Hz2|done|]. intros o. wp_steps. unfold sWaiterRelease, waiter_release. wp_steps.
    rewrite tn_release_last, Hrefs. simpl. wp_steps. simpl. split_and!; [done| | |done].
    + by rewrite delete_insert_eq.
    + by rewrite delete_insert_eq.
Qed.

(** [Get] on a thread that is neither a worker nor inside a scheduled coroutine. *)
Definition plain_thread (s : st) : Prop :=
  t_current_scheduler (tls_of s) = NULL /\ t_worker_scheduler (tls_of s) = NULL.

Lemma Get_plain f x K W s :
  wf_machine s -> open_future (heap s) (fds s) f x K W -> plain_thread s ->
  WPS (UfsrvFutureGet f)
    (fun r s' => r = error_result (-1) /\ heap s' = heap s /\ fds s' = fds s /\ trace s' = trace s)
    (fun p s1 => exists w, asleep f x K W w s s1 /\ wakes_up f w p)
    (fun _ _ => False) s.
Proof.
  intros Hwf Ho [Hcs Hws]. pose proof Ho as [].
  unfold UfsrvFutureGet, future_is_ready, UfsrvCoroutineCurrentScheduler, UfsrvSchedulerIsOnWorkerThread.
  rewrite (is_null_false f) by done. wp_steps. rewrite of_pending. wp_steps. rewrite Hcs.
  change (is_null NULL) with true. wp_steps. rewrite Hws. change (is_null NULL) with true. simpl.
  by apply GetBlocking_spec.
Qed.

(** ** The cancellable blocking wait *)

(** The registration a cancellable waiter makes on its token. *)
Definition wake_reg (w : sleeper) : registration :=
  Reg (sl_handle w) CC_sWakeBlockingWaiterOnCancel (sl_node w) (Some CC_sWaiterCancelRelease).

(** The waiter's cell: its claim flag and its references. *)
Definition waiter_cell (h : gmap N obj) (w : sleeper) (refs : Z) (claimed : bool) : Prop :=
  exists b, h !! sl_node w = Some (OWaiter (MkWaiter b NULL NULL (sl_fd w) (sl_handle w))) /\
    tn_refs b = refs /\ tn_claimed b = claimed.

(** After the wake-up, by completion (the callback is still registered) and by
    cancellation (it has been dispatched). *)
Definition completes (f t : ptr) (w : sleeper) (p : cprog UfsrvFutureResult) : Prop :=
  forall s2 x2 rc L1 L2, heap s2 !! f = Some (OFuture x2) -> awake (heap s2) (fds s2) w ->
    token_rep (heap s2) t rc false (L1 ++ wake_reg w :: L2) -> int_range rc -> (1 < rc)%Z ->
    WP p (fun r s3 => r = fut_result x2 /\ heap s3 !! sl_node w = None /\ heap s3 !! sl_handle w = None /\
      token_rep (heap s3) t (rc - 1) false (L1 ++ L2) /\ fds s3 = delete (sl_fd w) (fds s2) /\
      forall q, q <> sl_node w -> q ∉ t :: nodes (L1 ++ wake_reg w :: L2) -> heap s3 !! q = heap s2 !! q) s2.
Definition gives_up (f t : ptr) (w : sleeper) (p : cprog UfsrvFutureResult) : Prop :=
  forall s2 rc, waiter_cell (heap s2) w 3 true -> fds s2 !! sl_fd w = Some 1%Z ->
    heap s2 !! sl_handle w = Some (dispatched_node (wake_reg w) t) ->
    token_rep (heap s2) t rc true [] -> int_range rc -> (1 < rc)%Z ->
    WP p (fun r s3 => r = error_result ECANCELED /\ heap s3 !! sl_handle w = None /\
      token_rep (heap s3) t (rc - 1) true [] /\ fds s3 = delete (sl_fd w) (fds s2) /\
      forall q, q <> sl_node w -> q <> t -> q <> sl_handle w -> heap s3 !! q = heap s2 !! q) s2.

Definition waiter_is (n : ptr) (b : tnode) (fd : Z) (handle : ptr) (FD : gmap Z Z) (s : st) : Prop :=
  fds s = FD /\ heap s !! n = Some (OWaiter (MkWaiter b NULL NULL fd handle)).
Lemma waiter_is_steady X n b fd handle FD : n ∉ X -> steady X (waiter_is n b fd handle FD).
Proof. intros Hn s s' [Hh _ [Hf] _ _] [<- Hx]. split; [done|]. by rewrite Hh. Qed.

(** The release hook of a cancellable waiter drops the callback's reference. *)
Lemma release_hook_does w b fd FD :
  (2 <= tn_refs b)%Z ->
  hook_does (body client) (fun p => p <> sl_node w) (eq [])
    (waiter_is (sl_node w) b fd (sl_handle w) FD)
    (waiter_is (sl_node w) (tn_release b).2 fd (sl_handle w) FD) (wake_reg w).
Proof.
  intros Hb s [Hf Hn]. simpl. unfold sWaiterCancelRelease, sWaiterRelease, waiter_release. wp_steps.
  rewrite tn_release_last, bool_decide_eq_false_2 by lia. simpl. wp_steps. simpl. split_and!.
  - intros p Hp. lk.
  - exists []. by rewrite app_nil_r.
  - split; [done|]. simpl. lk.
Qed.

(** What a cancellable waiter does when its read returns. *)
Definition wake_tail (f t n : ptr) : cprog UfsrvFutureResult :=
  let! block_fd := rd wt_block_fd n in
  close block_fd ;;
  wr (set_wt_block_fd (-1)) n ;;
  let! cancel_handle := rd wt_cancel_handle n in
  let! _ := UfsrvCancellationTokenUnregister cancel_handle in
  sWaiterRelease n ;;
  result_unless_cancelled f t.

Lemma token_not_waiter h t rc c L n y :
  token_rep h t rc c L -> h !! n = Some (OWaiter y) -> n ∉ t :: nodes L.
Proof.
  intros (hd & last & _ & Ht & Hseg & _) Hn [->|Hp]%elem_of_cons; [congruence|].
  destruct (cb_seg_live _ _ _ _ _ _ _ _ Hseg Hp) as [_ [z Hz]]. congruence.
Qed.
Lemma token_not_future h t rc c L n y :
  token_rep h t rc c L -> h !! n = Some (OFuture y) -> n ∉ t :: nodes L.
Proof.
  intros (hd & last & _ & Ht & Hseg & _) Hn [->|Hp]%elem_of_cons; [congruence|].
  destruct (cb_seg_live _ _ _ _ _ _ _ _ Hseg Hp) as [_ [z Hz]]. congruence.
Qed.

Lemma tail_completed f t w s x2 rc L1 L2 :
  sl_node w <> NULL -> heap s !! f = Some (OFuture x2) -> waiter_cell (heap s) w 2 true ->
  token_rep (heap s) t rc false (L1 ++ wake_reg w :: L2) -> int_range rc -> (1 < rc)%Z ->
  WP (wake_tail f t (sl_node w))
    (fun r s3 => r = fut_result x2 /\ heap s3 !! sl_node w = None /\ heap s3 !! sl_handle w = None /\
      token_rep (heap s3) t (rc - 1) false (L1 ++ L2) /\ fds s3 = delete (sl_fd w) (fds s) /\
      forall q, q <> sl_node w -> q ∉ t :: nodes (L1 ++ wake_reg w :: L2) -> heap s3 !! q = heap s !! q) s.
Proof.
  intros Hn0 Hf (b & Hb & Hrefs & Hcl) Htok Hrc Hpos. unfold wake_tail. wp_steps.
  pose proof (token_not_waiter _ _ _ _ _ _ _ Htok Hb) as Hnt.
  pose proof (token_not_future _ _ _ _ _ _ _ Htok Hf) as Hft.
  eapply wps_seq.
  { eapply (Unregister_linked_does (body client) t rc false L1 (wake_reg w) L2
      (fun p => p <> sl_node w) (eq [])); [|exact Hrc|..].
    - eapply token_rep_frame; [|exact Htok]. intros p Hp. assert (p <> sl_node w) by congruence. lk.
    - intros p Hp ->. done.
    - eapply (release_hook_does w b (-1) (delete (sl_fd w) (fds s))). lia.
    - by apply waiter_is_steady.
    - by apply waiter_is_steady.
    - split; [done|]. simpl. lk. }
  simpl. intros won s1 (_ & Hcb & Htok1 & _ & [Hfd1 Hn1] & Hfr).
  unfold token_after in Htok1. rewrite bool_decide_eq_false_2 in Htok1 by lia.
  pose proof (token_not_waiter _ _ _ _ _ _ _ Htok1 Hn1) as Hnt1.
  assert (Hf1 : heap s1 !! f = Some (OFuture x2)).
  { rewrite Hfr; [lk|congruence|done]. }
  unfold sWaiterRelease, waiter_release, result_unless_cancelled. wp_steps.
  rewrite tn_release_last, tn_release_refs, Hrefs. simpl. wp_steps.
  eapply wps_seq; [eapply (IsCancelled_spec (body client) t (rc - 1) false (L1 ++ L2))|].
  { eapply token_rep_frame; [|exact Htok1]. intros p Hp. simpl. assert (p <> sl_node w) by congruence. lk. }
  simpl. intros c s' [-> ->]. wp_steps. simpl. split_and!; try done.
  - by rewrite lookup_delete_eq.
  - assert (sl_node w <> sl_handle w).
    { intros Hx. apply Hnt. rewrite Hx. unfold nodes. rewrite fmap_app. set_solver. }
    lk.
  - eapply token_rep_frame; [|exact Htok1]. intros p Hp. assert (p <> sl_node w) by congruence. lk.
  - intros q Hq Hqn. lk. rewrite Hfr by done. lk.
Qed.

Lemma tail_cancelled f t w s rc :
  sl_node w <> NULL -> sl_handle w <> NULL -> waiter_cell (heap s) w 3 true ->
  heap s !! sl_handle w = Some (dispatched_node (wake_reg w) t) ->
  token_rep (heap s) t rc true [] -> int_range rc -> (1 < rc)%Z ->
  WP (wake_tail f t (sl_node w))
    (fun r s3 => r = error_result ECANCELED /\ heap s3 !! sl_handle w = None /\
      token_rep (heap s3) t (rc - 1) true [] /\ fds s3 = delete (sl_fd w) (fds s) /\
      forall q, q <> sl_node w -> q <> t -> q <> sl_handle w -> heap s3 !! q = heap s !! q) s.
Proof.
  intros Hn0 Hh0 (b & Hb & Hrefs & Hcl) Hcb Htok Hrc Hpos. unfold wake_tail. wp_steps.
  pose proof (token_not_waiter _ _ _ _ _ _ _ Htok Hb) as Hnt.
  assert (Hnh : sl_node w <> sl_handle w) by (intros Hx; unfold dispatched_node in Hcb; congruence).
  apply not_elem_of_cons in Hnt as [Hnt _].
  eapply wps_seq.
  { eapply (Unregister_dispatched_does (body client) t rc true [] (wake_reg w)
      (fun p => p <> sl_node w) (eq [])); try done.
    - eapply token_rep_frame; [|exact Htok]. intros p ->%list_elem_of_singleton. lk.
    - simpl. lia.
    - lk.
    - apply not_elem_of_nil.
    - intros p. simpl. set_solver.
    - eapply (release_hook_does w b (-1) (delete (sl_fd w) (fds s))). lia.
    - apply waiter_is_steady. simpl. set_solver.
    - apply waiter_is_steady. simpl. set_solver.
    - split; [done|]. simpl. lk. }
  simpl. intros won s1 (_ & Hcb1 & Htok1 & _ & [Hfd1 Hn1] & Hfr).
  unfold token_after in Htok1. rewrite bool_decide_eq_false_2 in Htok1 by lia.
  unfold sWaiterRelease, waiter_release, result_unless_cancelled. wp_steps.
  rewrite tn_release_last, tn_release_refs, Hrefs. simpl. wp_steps.
  eapply wps_seq; [eapply (IsCancelled_spec (body client) t (rc - 1) true [])|].
  { eapply token_rep_frame; [|exact Htok1]. intros p ->%list_elem_of_singleton. simpl. lk. }
  simpl. intros c s' [-> ->]. wp_steps. simpl. split_and!; try done.
  - lk.
  - eapply token_rep_frame; [|exact Htok1]. intros p ->%list_elem_of_singleton. lk.
  - intros q Hq Hqt Hqh. lk. rewrite Hfr by done. lk.
Qed.

(** The cancellable waiter is in place: [s1] is the state after its registration, [h0]
    the heap before it. *)
Lemma cancellable_parked f x K W t rc L n z cb ws (h0 : gmap N obj) s s1 :
  open_future (heap s) (fds s) f x K W -> token_rep (heap s) t rc false L ->
  heap s !! fut_waiters x = Some (OStack ws) -> ts_nodes ws = sl_nodes W -> ts_closed ws = false ->
  heap s !! n = None -> heap s !! cb = None -> fds s !! z = None -> n <> NULL -> (0 <= z)%Z ->
  h0 !! fut_waiters x = Some (OStack (ts_push n ws).2) -> (forall q, q <> n -> q <> fut_waiters x -> h0 !! q = heap s !! q) ->
  heap s1 !! n = Some (OWaiter (MkWaiter (tn_retain tn_init) NULL NULL z NULL)) ->
  token_rep (heap s1) t (rc + 1) false (wake_reg (Sleeper n z 3 cb) :: L) ->
  (forall p, p ∉ t :: cb :: nodes L -> heap s1 !! p = h0 !! p) -> fds s1 = <[z := 0%Z]> (fds s) ->
  let h2 := <[n := OWaiter (MkWaiter (tn_retain tn_init) NULL NULL z cb)]> (heap s1) in
  open_future h2 (fds s1) f x K (Sleeper n z 3 cb :: W) /\ token_rep h2 t (rc + 1) false (wake_reg (Sleeper n z 3 cb) :: L) /\
  forall q, q <> n -> q <> fut_waiters x -> q ∉ t :: cb :: nodes L -> h2 !! q = heap s !! q.
Proof.
  intros Ho Htok Hws Hwsn Hwsc Hn Hcb Hz Hn0 Hz0 Hw0 Hrest0 Hn1 Htok1 Hfr Hfd h2.
  assert (Hin : forall q, q ∈ footprint f x K W -> q ∉ t :: cb :: nodes L /\ q <> n).
  { intros q Hq. destruct (open_allocated _ _ _ _ _ _ _ Ho Hq).
    assert (q ∉ t :: nodes L) as [? ?]%not_elem_of_cons by (intros Hx; by eapply (open_not_token _ _ _ _ _ _ _ _ _ _ q Ho Htok)).
    rewrite !not_elem_of_cons. split_and!; congruence || done. }
  assert (Hkeep : forall q, q <> n -> q <> fut_waiters x -> q ∉ t :: cb :: nodes L -> h2 !! q = heap s !! q).
  { intros q ? ? ?. unfold h2. rewrite lookup_insert_ne by done. rewrite Hfr by done. by apply Hrest0. }
  split_and!; [| |done].
  - eapply (open_push_waiter (heap s) (fds s) _ _ f x K W (Sleeper n z 3 cb) ws); try done; simpl.
    + destruct (Hin (fut_waiters x)); [unfold footprint; set_solver +|]. unfold h2. rewrite lookup_insert_ne by done. by rewrite Hfr.
    + intros q Hq ?. destruct (Hin q Hq). by apply Hkeep.
    + rewrite Hfd. intros fd (w & -> & Hw)%list_elem_of_fmap. destruct (of_sleepers _ _ _ _ _ _ Ho w Hw) as (_ & Hx & _).
      rewrite lookup_insert_ne; [done|]. intros Hy. rewrite Hy in Hz. congruence.
    + rewrite Hfd. split_and!; simpl; [done|apply lookup_insert_eq|done|]. exists (tn_retain tn_init). split; [apply lookup_insert_eq|].
      by rewrite tn_retain_refs, tn_retain_claimed, tn_init_refs, tn_init_claimed.
  - eapply token_rep_frame; [|exact Htok1]. intros p Hp. unfold h2. rewrite lookup_insert_ne; [done|]. intros <-.
    destruct Htok1 as (hd & last & _ & Ht1 & Hseg & _). apply elem_of_cons in Hp as [->|Hp]; [congruence|].
    destruct (cb_seg_live _ _ _ _ _ _ _ _ Hseg Hp) as [_ [y Hy]]. congruence.
Qed.

Lemma GetBlockingCancellable_spec f x K W t rc L s :
  wf_machine s -> open_future (heap s) (fds s) f x K W ->
  token_rep (heap s) t rc false L -> int_range (rc + 1) ->
  WPS (sFutureGetBlockingCancellable f t)
    (fun r s' => r = error_result (-1) /\ fds s' = fds s /\ trace s' = trace s /\
       token_rep (heap s') t rc false L)
    (fun p s1 => exists w, sl_refs w = 3%Z /\ open_future (heap s1) (fds s1) f x K (w :: W) /\
       heap s !! sl_node w = None /\ heap s !! sl_handle w = None /\ fds s !! sl_fd w = None /\
       token_rep (heap s1) t (rc + 1) false (wake_reg w :: L) /\
       (forall q, q <> sl_node w -> q <> fut_waiters x -> q ∉ t :: sl_handle w :: nodes L ->
          heap s1 !! q = heap s !! q) /\
       (forall fd, fd <> sl_fd w -> fds s1 !! fd = fds s !! fd) /\ trace s1 = trace s /\ cur s1 = cur s /\
       completes f t w p /\ gives_up f t w p)
    (fun _ _ => False) s.
Proof.
  intros [[Hpos Hfresh] Hfd0 Hfdf _] Ho Htok Hrc. pose proof Ho as [].
  destruct of_conts as (Hc0 & ks & Hks & Hksn & Hksc), of_waits as (Hw0 & ws & Hws & Hwsn & Hwsc).
  unfold sFutureGetBlockingCancellable, lockless_treiber_stack_push, waiter_retain. wp_steps.
  apply wps_alloc; [by split| |]; intros o1.
  { change (is_null NULL) with true. wp_steps. simpl. auto. }
  assert (Hnew : heap s !! next_ptr s = None) by (apply Hfresh; lia).
  assert (Hn0 : next_ptr s <> NULL) by (unfold NULL; lia).
  rewrite (is_null_false (next_ptr s)) by done.
  set (n := next_ptr s) in *.
  assert (Htn : forall p, p ∈ t :: nodes L -> p <> n /\ p <> fut_waiters x).
  { destruct Htok as (hd & last & _ & Ht & Hseg & _). intros p [->|Hp]%elem_of_cons; [split; congruence|].
    destruct (cb_seg_live _ _ _ _ _ _ _ _ Hseg Hp) as [_ [y Hy]]. split; congruence. }
  wp_steps.
  apply wps_eventfd; intros o2; wp_steps.
  { simpl. wp_steps. simpl. split_and!; [done|done|done|].
    by rewrite !insert_insert_eq, delete_insert_eq, delete_id. }
  set (z := next_fd s) in *. rewrite bool_decide_eq_false_2 by (simpl; lia). wp_steps.
  rewrite ts_push_accepts, Hwsc. simpl. wp_steps.
  eapply wps_seq.
  { eapply (RegisterEx_spec (body client) t rc L); [| |done].
    - split; simpl; [lia|]. intros p Hp. repeat rewrite (lookup_insert_ne _ n) by lia.
      destruct (decide (fut_waiters x = p)) as [<-|].
      + rewrite Hfresh in Hws; [done|lia].
      + rewrite lookup_insert_ne by done. repeat rewrite (lookup_insert_ne _ n) by lia. apply Hfresh. lia.
    - eapply token_rep_frame; [|exact Htok]. intros p Hp. destruct (Htn p Hp). lk. }
  simpl. intros cb s1 (Htr & He & Hcase).
  pose proof (se_fds _ _ He) as Hfd1. simpl in Hfd1.
  set (b3 := tn_retain tn_init).
  assert (Hn1 : cb <> n /\ heap s1 !! n = Some (OWaiter (MkWaiter b3 NULL NULL z NULL))).
  { destruct Hcase as [(-> & Hh & _)|(Hcb0 & Hcbn & Htok1 & Hfr)].
    - split; [done|]. rewrite Hh. lk.
    - assert (cb <> n) by (intros ->; by rewrite lookup_insert_eq in Hcbn).
      split; [done|]. rewrite Hfr; [lk|]. rewrite !not_elem_of_cons. split_and!; [|done|].
      + intros ->. by destruct (Htn t) as [? _]; [left|].
      + intros Hin. by destruct (Htn n) as [? _]; [right|]. }
  destruct Hn1 as [Hcn Hn1].
  destruct Hcase as [(-> & Hh & _)|(Hcb0 & Hcbn & Htok1 & Hfr)].
  { (* the registration failed: the list keeps a dead waiter *)
    unfold waiter_release. wp_steps. change (is_null NULL) with true. wp_steps. simpl. split_and!; [done| |done|].
    - rewrite Hfd1. apply delete_insert_id. apply Hfdf. lia.
    - eapply token_rep_frame; [|exact Htok]. intros p Hp. destruct (Htn p Hp). lk. rewrite Hh. lk. }
  rewrite (is_null_false cb) by done. wp_steps.
  apply wps_read_sleep; [simpl; rewrite Hfd1; apply lookup_insert_eq|]. intros o3 p Hres.
  exists (Sleeper n z 3 cb).
  simpl.
  assert (Hcbs : heap s !! cb = None).
  { repeat rewrite (lookup_insert_ne _ n) in Hcbn by done.
    destruct (decide (fut_waiters x = cb)) as [<-|]; [by rewrite lookup_insert_eq in Hcbn|].
    rewrite lookup_insert_ne in Hcbn by done. by repeat rewrite (lookup_insert_ne _ n) in Hcbn by done. }
  assert (Hz : fds s !! z = None) by (apply Hfdf; lia).
  edestruct (fun H1 H2 => cancellable_parked f x K W t rc L n z cb ws _ s s1 Ho Htok Hws Hwsn Hwsc Hnew Hcbs Hz Hn0 Hfd0
    H1 H2 Hn1 Htok1 Hfr Hfd1) as (Hopen2 & Htokp & Hkeep2); [lk|intros; lk|].
  split_and!; try done; try (by apply Hfdf).
  - rewrite Hfd1. intros fd Hfd. by rewrite lookup_insert_ne.
  - apply He.
  - intros s2 x2 rc2 L1 L2 Hf2 (Hz2 & b & Hb & Hrefs & Hcl) Htok2 ??. simpl in *.
    eapply Hres; [exact Hz2|done|]. intros o.
    eapply wps_mono; [eapply (tail_completed f t (Sleeper n z 3 cb) _ x2 rc2 L1 L2); try done| |done..].
    + exists b. done.
    + simpl. intros r s3 (? & ? & ? & ? & Hfd3 & ?). by rewrite delete_insert_eq in Hfd3.
  - intros s2 rc2 Hc2 Hz2 Hcb2 Htok2 ??. simpl in *.
    eapply Hres; [exact Hz2|done|]. intros o.
    eapply wps_mono; [eapply (tail_cancelled f t (Sleeper n z 3 cb) _ rc2); try done| |done..].
    simpl. intros r s3 (? & ? & ? & Hfd3 & ?). by rewrite delete_insert_eq in Hfd3.
Qed.
End Waiting.

Section Scenarios.
Context {E : Ext} {TS : TreiberSpec E} (client : Client).
#[local] Abbreviation WPS := (wps (body client) log).
#[local] Abbreviation WP := (wp (body client) log).
#[local] Abbreviation any := (fun _ => True).

Lemma Get_cancellable_plain f x K W t rc L s :
  open_future (heap s) (fds s) f x K W -> plain_thread s -> token_rep (heap s) t rc false L ->
  forall Q V Y, WPS (sFutureGetBlockingCancellable f t) Q V Y s ->
  WPS (UfsrvFutureGetWithCancellation f t) Q V Y s.
Proof.
  intros [] [Hcs Hws] (hd & last & Ht0 & Ht & _) Q V Y Hk.
  unfold UfsrvFutureGetWithCancellation, future_is_ready, UfsrvCoroutineCurrentScheduler,
    UfsrvSchedulerIsOnWorkerThread, UfsrvCancellationTokenIsCancelled.
  rewrite (is_null_false f), (is_null_false t) by done. wp_steps. rewrite of_pending. wp_steps.
  rewrite Hcs. change (is_null NULL) with true. wp_steps. rewrite Hws. change (is_null NULL) with true.
  done.
Qed.

(** Fulfilment by thread [th], observed from the waiter's point of view. *)
Lemma fulfil_wakes f prm x K W w r th s :
  (forall k, k ∈ K -> observes (body client) (pd_call f k)) ->
  promise_at (heap s) prm f false -> open_future (heap s) (fds s) f x K (w :: W) ->
  fut_cancel_handle x = NULL ->
  WP (UfsrvPromiseSetResult prm r)
    (fun _ s2 => heap s2 !! f = Some (OFuture (complete_with r x)) /\ awake (heap s2) (fds s2) w /\
       trace s2 = trace s ++ (pd_call f <$> K) /\
       (forall p, p ∈ pd_nodes K -> heap s2 !! p = None) /\
       (forall p, p ∉ prm :: footprint f x K (w :: W) -> heap s2 !! p = heap s !! p) /\
       (forall fd, fd ∉ sl_fds (w :: W) -> fds s2 !! fd = fds s !! fd)) (with_cur th s).
Proof.
  intros Hobs Hp Ho Hh.
  eapply wp_mono; [eapply (SetResult_first (body client) f prm r x K (w :: W) any any (eq [])); try done|].
  { intros k Hk. by apply observes_mannered, Hobs. }
  simpl. intros _ s2 (Hs & _ & Ha & Hk & Hf & Hfd & Htr%made_silent). split_and!; auto.
  - by destruct Hs.
  - apply Ha. by left.
Qed.

(** Cancellation by thread [th]: the waiter is claimed and its descriptor written,
    and the other callbacks run. *)
Definition dispatching (w : sleeper) (FD : gmap Z Z) (L : list registration) (s : st) : Prop :=
  if decide (sl_handle w ∈ nodes L)
  then waiter_cell (heap s) w 3 false /\ fds s = FD
  else waiter_cell (heap s) w 3 true /\ fds s = <[sl_fd w := 1%Z]> FD.

Lemma dispatching_guided t w FD L :
  FD !! sl_fd w = Some 0%Z -> NoDup (nodes (wake_reg w :: L)) -> sl_node w ∉ t :: nodes (wake_reg w :: L) ->
  (forall r, r ∈ L -> observes (body client) (reg_call r)) ->
  guided (body client) (fun p => p <> sl_node w) (eq []) (t :: nodes (wake_reg w :: L)) (wake_reg w :: L) []
    (dispatching w FD).
Proof.
  intros Hz [Hh _]%NoDup_cons Hn Hobs. split.
  - intros L' s s' [Hf _ [Hfd] _ _]. unfold dispatching, waiter_cell. by rewrite Hf, Hfd.
  - intros r L' s Hsuf. rewrite app_nil_r. intros HI. unfold dispatching in *. simpl in HI, Hh.
    apply suffix_cons_inv in Hsuf as [Hx|Hsuf].
    + simplify_eq. rewrite decide_True in HI by by left.
      destruct HI as [(b & Hb & Hrefs & Hcl) <-]. simpl. unfold sWakeBlockingWaiterOnCancel, waiter_claim.
      wp_steps. rewrite tn_claim_wins, Hcl. simpl. wp_steps. eapply wps_write; [exact Hz|lia|]. wp_steps.
      simpl. rewrite decide_False by done.
      split_and!; [intros p Hp; lk|exists []; by rewrite app_nil_r| |done].
      eexists. split; [lk|]. by rewrite tn_claim_refs, tn_claim_claimed.
    + assert (Hsub : forall p, p ∈ nodes (r :: L') -> p ∈ nodes L).
      { destruct Hsuf as [k ->]. intros p. unfold nodes. rewrite fmap_app. set_solver. }
      rewrite decide_False in HI by (intros Hp; by apply Hh, Hsub).
      eapply wp_mono; [apply Hobs; destruct Hsuf as [k ->]; set_solver|].
      simpl. intros _ s' (Hhe & Hfd & Htr). rewrite decide_False by (intros Hp; apply Hh, Hsub; by right).
      rewrite Hhe, Hfd. split_and!; [done| |apply HI..].
      exists []. by rewrite app_nil_r.
Qed.

Lemma cancel_wakes t w rc L th s :
  waiter_cell (heap s) w 3 false -> fds s !! sl_fd w = Some 0%Z ->
  token_rep (heap s) t rc false (wake_reg w :: L) ->
  (forall r, r ∈ L -> observes (body client) (reg_call r)) ->
  WP (UfsrvCancellationTokenCancel t)
    (fun _ s2 => waiter_cell (heap s2) w 3 true /\ fds s2 = <[sl_fd w := 1%Z]> (fds s) /\
       heap s2 !! sl_handle w = Some (dispatched_node (wake_reg w) t) /\
       token_rep (heap s2) t rc true [] /\ trace s2 = trace s ++ (reg_call <$> wake_reg w :: L) /\
       forall q, q <> sl_node w -> q ∉ t :: nodes (wake_reg w :: L) -> heap s2 !! q = heap s !! q)
    (with_cur th s).
Proof.
  intros Hc Hz Htok Hobs. pose proof Hc as (b & Hb & _).
  pose proof (token_not_waiter _ _ _ _ _ _ _ Htok Hb) as Hnt.
  assert (Hnd : NoDup (nodes (wake_reg w :: L))) by (by destruct Htok as (? & ? & _ & _ & _ & ? & _)).
  eapply wp_mono; [eapply (Cancel_does (body client) t rc _ (fun p => p <> sl_node w) (eq [])); try done|].
  - intros p Hp ->. done.
  - by apply dispatching_guided.
  - unfold dispatching. rewrite decide_True by by left. done.
  - simpl. intros _ s2 (Ht & Hd & Hf & Htr%made_silent & HI). unfold dispatching in HI.
    rewrite decide_False in HI by apply not_elem_of_nil. destruct HI as [HI Hfd].
    split_and!; try done. apply (Hd (wake_reg w)). by left.
Qed.
End Scenarios.

(** C11.  A caller of [Get] sleeps until the future completes.  On a plain thread,
    [Get] on a pending future either fails with -1 and no effect (no memory or
    descriptors left) or blocks; when another thread then fulfils the promise, the
    continuations run and the blocked caller returns the value it was fulfilled
    with, leaving no waiter and no descriptor behind. *)
Theorem blocked_get_returns {E : Ext} {TS : TreiberSpec E} client f prm x K W r th s :
  (forall k, k ∈ K -> observes (body client) (pd_call f k)) ->
  wf_machine s -> promise_at (heap s) prm f false -> open_future (heap s) (fds s) f x K W ->
  fut_cancel_handle x = NULL -> plain_thread s ->
  wps (body client) log (UfsrvFutureGet f)
    (fun v s' => v = error_result (-1) /\ heap s' = heap s /\ fds s' = fds s /\ trace s' = trace s)
    (fun p s1 => wp (body client) log (UfsrvPromiseSetResult prm r)
       (fun _ s2 => trace s2 = trace s ++ (pd_call f <$> K) /\
          wp (body client) log p (fun v s3 => v = r /\ trace s3 = trace s2 /\
            (forall q, heap s !! q = None -> heap s3 !! q = None) /\
            (forall fd, fds s !! fd = None -> fds s3 !! fd = None)) (with_cur (cur s) s2))
       (with_cur th s1))
    (fun _ _ => False) s.
Proof.
  intros Hobs Hwf Hp Ho Hh Hpl. eapply wps_mono; [by apply (Get_plain client f x K W)|done| |done].
  simpl. intros p s1 (w & [] & Hwake).
  assert (Hpo : prm ∉ footprint f x K W) by (destruct Hp as [_ Hp]; by eapply open_outside).
  unfold footprint in Hpo. rewrite !not_elem_of_cons, not_elem_of_app in Hpo.
  assert (Hp1 : promise_at (heap s1) prm f false).
  { destruct Hp as [? Hp]. split; [done|]. rewrite as_heap0; [done|congruence|naive_solver]. }
  eapply wp_mono; [by eapply (fulfil_wakes client f prm x K W w r th)|].
  simpl. intros _ s2 (Hf & Ha & Htr & Hk & Hfr & Hfd). split; [by rewrite Htr, as_trace0|].
  eapply wp_mono; [apply (Hwake (with_cur (cur s) s2)); [exact Hf|exact Ha]|].
  simpl. intros v s3 (-> & Hh3 & Hf3 & Ht3). split_and!; try done.
  - intros q Hq. rewrite Hh3. destruct (decide (q = sl_node w)) as [->|Hne]; [apply lookup_delete_eq|].
    rewrite lookup_delete_ne by done.
    assert (Hq1 : heap s1 !! q = None).
    { rewrite as_heap0; [done|done|]. intros ->. by destruct (of_waits _ _ _ _ _ _ Ho) as (_ & ? & ? & _); congruence. }
    destruct (heap s2 !! q) eqn:Hq2; [|done]. rewrite Hfr in Hq2; [congruence|].
    rewrite not_elem_of_cons. split; [destruct Hp1; congruence|].
    intros Hin. destruct (open_allocated _ _ _ _ _ _ _ as_open0 Hin). congruence.
  - intros fd Hfdn. rewrite Hf3. destruct (decide (fd = sl_fd w)) as [->|Hne]; [apply lookup_delete_eq|].
    rewrite lookup_delete_ne by done. rewrite Hfd, as_fds0; [done|done|].
    rewrite sl_fds_cons, not_elem_of_cons. split; [done|]. intros (w' & -> & Hin)%list_elem_of_fmap.
    destruct (of_sleepers _ _ _ _ _ _ Ho w' Hin) as (_ & ? & _). congruence.
Qed.

(** C12.  A cancellable wait has two exits.  Blocked on a pending future with a live
    token, the caller is woken by whichever comes first: fulfilment by another
    thread, and it returns the value and takes its callback off the token; or
    cancellation by another thread, and it returns ECANCELED.  Either way the
    token's references are back where they were and the descriptor is closed. *)
Theorem cancellable_get_returns {E : Ext} {TS : TreiberSpec E} client f prm x K W t rc L r th s :
  (forall k, k ∈ K -> observes (body client) (pd_call f k)) ->
  (forall c, c ∈ L -> observes (body client) (reg_call c)) ->
  wf_machine s -> promise_at (heap s) prm f false -> open_future (heap s) (fds s) f x K W ->
  fut_cancel_handle x = NULL -> plain_thread s ->
  token_rep (heap s) t rc false L -> (0 < rc)%Z -> int_range (rc + 1) ->
  wps (body client) log (UfsrvFutureGetWithCancellation f t)
    (fun v s' => v = error_result (-1) /\ fds s' = fds s /\ trace s' = trace s /\
       token_rep (heap s') t rc false L)
    (fun p s1 =>
       wp (body client) log (UfsrvPromiseSetResult prm r)
         (fun _ s2 => wp (body client) log p (fun v s3 => v = r /\
            token_rep (heap s3) t rc false L /\
            (forall fd, fds s !! fd = None -> fds s3 !! fd = None)) (with_cur (cur s) s2))
         (with_cur th s1) /\
       wp (body client) log (UfsrvCancellationTokenCancel t)
         (fun _ s2 => exists w, trace s2 = trace s ++ (reg_call <$> wake_reg w :: L) /\
            wp (body client) log p (fun v s3 => v = error_result ECANCELED /\
            token_rep (heap s3) t rc true [] /\
            (forall fd, fds s !! fd = None -> fds s3 !! fd = None)) (with_cur (cur s) s2))
         (with_cur th s1))
    (fun _ _ => False) s.
Proof.
  intros HobsK HobsL Hwf Hp Ho Hh Hpl Htok Hrc0 Hrc.
  eapply Get_cancellable_plain; [done..|].
  eapply wps_mono; [by apply (GetBlockingCancellable_spec client f x K W t rc L)|done| |done].
  simpl. intros p s1 (w & Hrefs & Ho1 & Hnn & Hhn & Hzn & Htok1 & Hfr & Hfd & Htr & Hcur & Hcomp & Hgive).
  pose proof (of_sleepers _ _ _ _ _ _ Ho1 w ltac:(by left)) as (_ & Hz & _ & b & Hb & Hbr & Hbc).
  assert (Hfdn : forall fd, fd <> sl_fd w -> fds s !! fd = None -> fd ∉ sl_fds (w :: W)).
  { intros fd Hne Hn. rewrite sl_fds_cons, not_elem_of_cons. split; [done|]. intros (w' & -> & Hin)%list_elem_of_fmap.
    destruct (of_sleepers _ _ _ _ _ _ Ho w' Hin) as (_ & ? & _). congruence. }
  split.
  - assert (Hp1 : promise_at (heap s1) prm f false).
    { destruct Hp as [? Hp]. split; [done|]. rewrite Hfr; [done|congruence| |].
      - destruct (of_waits _ _ _ _ _ _ Ho) as (_ & ? & ? & _). congruence.
      - destruct Htok as (hd & last & _ & Ht & Hseg & _). rewrite !not_elem_of_cons.
        split_and!; [congruence|congruence|]. intros Hin.
        destruct (cb_seg_live _ _ _ _ _ _ _ _ Hseg Hin) as [_ [y Hy]]. congruence. }
    eapply wp_mono; [by eapply (fulfil_wakes client f prm x K W w r th)|].
    simpl. intros _ s2 (Hf & Ha & _ & _ & Hfr2 & Hfd2).
    eapply wp_mono; [apply (Hcomp (with_cur (cur s) s2) (complete_with r x) (rc + 1)%Z [] L); simpl; try done|].
    + eapply token_rep_frame; [|exact Htok1]. intros q Hq. apply Hfr2.
      destruct Htok1 as (hd & last & _ & Ht & Hseg & _).
      assert (Hk : exists o, heap s1 !! q = Some o /\ ((exists y, o = OToken y) \/ exists y, o = OCallback y)).
      { apply elem_of_cons in Hq as [->|Hq]; [by eauto 6|].
        destruct (cb_seg_live _ _ _ _ _ _ _ _ Hseg Hq) as [_ [y Hy]]. eauto 6. }
      destruct Hk as (o & Hq' & Ho'). rewrite not_elem_of_cons. split; [destruct Hp1; naive_solver congruence|].
      eapply open_outside; [exact Ho1|exact Hq'|..]; intros y ->; naive_solver.
    + lia.
    + simpl. intros v s3 (-> & _ & _ & Htok3 & Hf3 & _). split_and!; [done| |].
      * by replace (rc + 1 - 1)%Z with rc in Htok3 by lia.
      * intros fd Hn. rewrite Hf3. destruct (decide (fd = sl_fd w)) as [->|Hne]; [apply lookup_delete_eq|].
        rewrite lookup_delete_ne by done. rewrite Hfd2 by auto. by rewrite Hfd.
  - eapply wp_mono; [apply (cancel_wakes client t w (rc + 1) L th s1); try done|].
    + exists b. by rewrite Hbr.
    + simpl. intros _ s2 (Hc2 & Hfd2 & Hcb & Htok2 & Htr2 & _). exists w. rewrite Htr2, Htr. split; [done|].
      eapply wp_mono; [apply (Hgive (with_cur (cur s) s2) (rc + 1)%Z); simpl; try done|].
      * rewrite Hfd2. apply lookup_insert_eq.
      * lia.
      * simpl. intros v s3 (-> & _ & Htok3 & Hf3 & _). split_and!; [done| |].
        { by replace (rc + 1 - 1)%Z with rc in Htok3 by lia. }
        intros fd Hn. rewrite Hf3, Hfd2. destruct (decide (fd = sl_fd w)) as [->|Hne]; [apply lookup_delete_eq|].
        rewrite lookup_delete_ne, lookup_insert_ne by done. by rewrite Hfd.
Qed.

(** ** Witnesses: thread 0 waits on the future of Demo, thread 1 acts *)
#[local] Existing Instances RefExt.ext RefExt.treiber.

Lemma ready_plain : plain_thread ready_st.
Proof. by split; vm_compute. Qed.

Lemma blocked_get_returns_witness :
  wps (body quiet_client) log (UfsrvFutureGet fut)
    (fun v s' => v = error_result (-1) /\ heap s' = heap ready_st /\ fds s' = fds ready_st /\
       trace s' = trace ready_st)
    (fun p s1 => wp (body quiet_client) log (UfsrvPromiseSetResult prm (MkResult 0 77 None))
       (fun _ s2 => trace s2 = trace ready_st ++ (pd_call fut <$> conts) /\
          wp (body quiet_client) log p (fun v s3 => v = MkResult 0 77 None /\ trace s3 = trace s2 /\
            (forall q, heap ready_st !! q = None -> heap s3 !! q = None) /\
            (forall fd, fds ready_st !! fd = None -> fds s3 !! fd = None)) (with_cur (cur ready_st) s2))
       (with_cur 1%N s1))
    (fun _ _ => False) ready_st.
Proof.
  apply (blocked_get_returns quiet_client fut prm fut_cell conts []).
  - apply ready_conts.
  - apply ready_wf.
  - apply ready_promise.
  - apply ready_open.
  - reflexivity.
  - apply ready_plain.
Defined.

Lemma cancellable_get_returns_witness :
  wps (body quiet_client) log (UfsrvFutureGetWithCancellation fut tok)
    (fun v s' => v = error_result (-1) /\ fds s' = fds ready_st /\ trace s' = trace ready_st /\
       token_rep (heap s') tok 2 false regs)
    (fun p s1 =>
       wp (body quiet_client) log (UfsrvPromiseSetResult prm (MkResult 0 77 None))
         (fun _ s2 => wp (body quiet_client) log p (fun v s3 => v = MkResult 0 77 None /\
            token_rep (heap s3) tok 2 false regs /\
            (forall fd, fds ready_st !! fd = None -> fds s3 !! fd = None)) (with_cur (cur ready_st) s2))
         (with_cur 1%N s1) /\
       wp (body quiet_client) log (UfsrvCancellationTokenCancel tok)
         (fun _ s2 => exists w, trace s2 = trace ready_st ++ (reg_call <$> wake_reg w :: regs) /\
            wp (body quiet_client) log p (fun v s3 => v = error_result ECANCELED /\
            token_rep (heap s3) tok 2 true [] /\
            (forall fd, fds ready_st !! fd = None -> fds s3 !! fd = None)) (with_cur (cur ready_st) s2))
         (with_cur 1%N s1))
    (fun _ _ => False) ready_st.
Proof.
  apply (cancellable_get_returns quiet_client fut prm fut_cell conts [] tok 2 regs).
  - apply ready_conts.
  - apply ready_regs.
  - apply ready_wf.
  - apply ready_promise.
  - apply ready_open.
  - reflexivity.
  - apply ready_plain.
  - apply ready_token.
  - lia.
  - split; lia.
Defined.
