(* ===== verification/AttachFacts.v ===== *)
(** * AttachFacts: a future whose completion is tied to a token

    [UfsrvFutureAttachCancellation] makes future and token hold each other; the
    cycle is broken when either side finishes.  Specified here: the attachment
    and its roll-back, completion of an attached future (which takes its callback
    off the token), and cancellation of the token (which completes the future
    from inside the dispatch loop, unregistering the running callback). *)
From S2P Require Import Prelude Machine Uflib Model Cancellation Scheduler Coroutine Future Waiting.
From S2P Require Import Dispatch Logic Guarantee CancellationFacts FutureFacts Demo WaitingFacts.
Local Open Scope prog_scope.

(** The registration of future [f], whose handle is [cb]. *)
Definition attach_reg (cb f : ptr) : registration :=
  Reg cb CC_sFutureCancelCallback f (Some CC_sFutureCancelRelease).
Definition attached `{E : Ext} (t cb : ptr) (x : UfsrvFuture) : UfsrvFuture :=
  set_fut_cancel_handle cb (set_fut_refcount (fut_refcount x + 1) (set_fut_cancel_token t x)).

Section Attach.
Context {E : Ext} {TS : TreiberSpec E} (client : Client).
#[local] Abbreviation WP := (wp (body client) log).

(** Callbacks that only observe guide any dispatch. *)
Lemma observes_guided X L1 L2 FD :
  (forall r, r ∈ L1 -> observes (body client) (reg_call r)) ->
  guided (body client) (fun _ => True) (eq []) X L1 L2 (fun _ s => fds s = FD).
Proof.
  intros Hobs. split.
  - intros _ s s' [_ _ [Hf] _ _] Hs. by rewrite Hf.
  - intros r L s [k ->] Hs. eapply wp_mono; [apply Hobs; set_solver|].
    simpl. intros _ s' (-> & -> & ->). split_and!; [done| |done]. exists []. by rewrite app_nil_r.
Qed.

(** The reference the callback held is given back when its node is freed. *)
Definition detached (f : ptr) (y : UfsrvFuture) (FD : gmap Z Z) (s : st) : Prop :=
  heap s !! f = Some (OFuture (set_fut_refcount (fut_refcount y - 1) y)) /\ fds s = FD.
Lemma detach_hook cb f y FD :
  f <> NULL -> (1 < fut_refcount y)%Z -> int_range (fut_refcount y) ->
  hook_does (body client) (fun p => p <> f) (eq [])
    (fun s => heap s !! f = Some (OFuture y) /\ fds s = FD) (detached f y FD) (attach_reg cb f).
Proof.
  intros Hn Hr Hi s [Hf Hfd]. simpl. unfold sFutureCancelRelease.
  eapply wps_seq; [eapply (Release_shared (body client) f y); [done|done|lia]|].
  simpl. intros _ s' ->. wp_steps. unfold detached. simpl. split_and!; [| | |done].
  - intros p Hp. lk.
  - exists []. by rewrite app_nil_r.
  - rewrite lookup_insert_eq. do 3 f_equal. rewrite wrap_i32_id; unfold int_range in *; lia.
Qed.
Lemma cell_steady X f o FD : f ∉ X -> steady X (fun s => heap s !! f = o /\ fds s = FD).
Proof. intros Hf s s' [Hh _ [He] _ _] [Hs Hd]. by rewrite Hh, He. Qed.

(** The cancellation callback of an attached future, run by the dispatch loop: the
    future completes with ECANCELED and the handle's reference to the running
    node is dropped. *)
Lemma cancel_callback_led f x K W t cb rc next D DF T X calls I s :
  led (body client) (published f (error_result ECANCELED)) X (sl_fds W) D DF T calls f K I ->
  (forall p, p ∈ t :: cb :: footprint f x K W -> D p) -> (forall fd, fd ∈ sl_fds W -> DF fd) ->
  (forall p, p ∈ t :: cb :: footprint f x K W -> p ∈ X) -> I K s ->
  open_future (heap s) (fds s) f x K W -> fut_cancel_handle x = cb -> cb <> NULL ->
  heap s !! cb = Some (marked_node (attach_reg cb f) t next) ->
  heap s !! t = Some (OToken (MkToken rc false true NULL)) ->
  WP (sFutureCancelCallback f)
    (fun _ s' => settled_future (heap s') f (complete_with (error_result ECANCELED) x) /\
       (forall w, w ∈ W -> awake (heap s') (fds s') w) /\
       (forall p, p ∈ pd_nodes K -> heap s' !! p = None) /\
       heap s' !! cb = Some (OCallback (MkCallback NULL next t 1 false true
         CC_sFutureCancelCallback f (Some CC_sFutureCancelRelease))) /\
       (forall p, D p -> p <> cb -> p ∉ footprint f x K W -> heap s' !! p = heap s !! p) /\
       (forall fd, DF fd -> fd ∉ sl_fds W -> fds s' !! fd = fds s !! fd) /\
       made T (all_calls f calls K) (trace s) (trace s') /\ I [] s') s.
Proof.
  intros Hled HD HDF HX HI Ho Hcb Hcb0 Hcbc Ht. pose proof Ho as []. unfold marked_node in Hcbc. simpl in Hcbc.
  assert (Hcf : cb ∉ footprint f x K W) by by eapply open_outside.
  assert (Htf : t ∉ footprint f x K W) by by eapply open_outside.
  assert (cb <> f /\ t <> f) as [] by (split; intros ->; [apply Hcf|apply Htf]; by left).
  unfold sFutureCancelCallback, sFutureComplete. wp_steps. rewrite of_completed. wp_steps.
  rewrite Hcb, (is_null_false cb) by done. simpl. wp_steps.
  unfold UfsrvCancellationTokenUnregister. rewrite (is_null_false cb) by done. wp_steps. simpl. wp_steps.
  rewrite (bind_bind (sDrainContinuations f)), <- bind_bind. match goal with |- wps _ _ _ _ _ _ ?u => set (s1 := u) end.
  assert (Hs1 : forall p, p <> cb -> p <> f -> heap s1 !! p = heap s !! p).
  { intros p ??. simpl. destruct (decide (p = t)) as [->|]; lk. by rewrite Ht. }
  eapply wps_seq.
  { eapply (drain_all_led (body client) f (error_result ECANCELED) x
      (complete_with (error_result ECANCELED) x) K W D DF T X calls I s s1); try done; [simpl; lk| | | |].
    - intros p Hp Hne. apply Hs1; [by intros ->|done].
    - intros p Hp. apply HD. by do 2 right.
    - intros p Hp. apply HX. by do 2 right.
    - eapply (led_stable _ _ _ _ _ _ _ _ _ _ _ Hled K s s1); [|done|exact HI]. intros p Hp.
      apply Hs1; intros ->; apply Hp, HX; [by right; left|by do 2 right; left]. }
  simpl. intros _ s' (Hs & Ha & Hk & Hf & Hfd & Htr & HI'). wp_steps. split_and!; try done.
  - rewrite Hf by (apply HD; set_solver +) || done. lk.
  - intros p Hp Hpc Hni. rewrite Hf by done. apply Hs1; [done|]. intros ->. apply Hni. by left.
Qed.

Lemma marked_seg_live h t cur L p :
  marked_seg h t cur L -> p ∈ nodes L -> exists y, h !! p = Some (OCallback y).
Proof.
  revert cur; induction L as [|r L IH]; intros cur; [by intros _ ?%elem_of_nil|].
  intros (-> & _ & next & Hx & Hs) [->|Hp]%elem_of_cons; [by eexists|by eapply IH].
Qed.

(** Once its callback has run, the token gives up the node, which detaches the future. *)
Lemma drop_attached f y t cb rc next s :
  f <> NULL -> t <> NULL -> cb <> NULL -> f <> t -> f <> cb -> t <> cb ->
  heap s !! f = Some (OFuture y) -> (1 < fut_refcount y)%Z -> int_range (fut_refcount y) ->
  heap s !! t = Some (OToken (MkToken rc false true NULL)) -> (0 < rc)%Z -> int_range rc ->
  heap s !! cb = Some (OCallback (MkCallback NULL next t 1 false true CC_sFutureCancelCallback f (Some CC_sFutureCancelRelease))) ->
  WP (sNodeDropRef cb)
    (fun _ s' => heap s' !! cb = None /\ token_after (heap s') t (rc - 1) true [] /\ detached f y (fds s) s' /\
       (forall p, p <> f -> p <> t -> p <> cb -> heap s' !! p = heap s !! p) /\
       trace s' = trace s ++ [K_cancel_cb CC_sFutureCancelRelease f]) s.
Proof.
  intros Hf0 Ht0 Hcb0 Hft Hfcb Htcb Hf Hr Hri Ht Hrc0 Hrci Hcb. unfold sNodeDropRef. wp_steps. simpl. wp_steps.
  eapply wps_seq.
  { eapply (sNodeFree_spec (body client) (attach_reg cb f) t rc true [] (fun p => p <> f) (eq []) _
      (detached f y (fds s))); [..|by apply (detach_hook cb f y)| | |]; simpl; try done.
    - lk.
    - rewrite elem_of_cons. intros [?|?%elem_of_nil]; [by subst|done].
    - done.
    - done.
    - done.
    - exists NULL, NULL. split_and!; try done; [lk|constructor|simpl; lia].
    - intros p. rewrite !elem_of_cons. intros [->|[->|?%elem_of_nil]]; done.
    - apply cell_steady. set_solver.
    - apply cell_steady. set_solver.
    - split; [lk|done]. }
  simpl. intros _ s2 (Hcb2 & Haft & Htr2%made_silent & Hdet & Hh2). apply wps_ret. split_and!; try done.
  intros p ???. rewrite Hh2 by done. simpl. lk.
Qed.

(** One iteration of the dispatch loop on it: the callback is left dead. *)
Lemma run_attached_led f x K W t cb rc L2 D DF X calls I (R : st -> Prop) cur s :
  led (body client) (published f (error_result ECANCELED)) X (sl_fds W) D DF (eq []) calls f K I ->
  (forall p, p ∈ t :: cb :: nodes L2 ++ footprint f x K W -> D p) -> (forall fd, fd ∈ sl_fds W -> DF fd) ->
  (forall p, p ∈ t :: cb :: footprint f x K W -> p ∈ X) -> I K s ->
  open_future (heap s) (fds s) f x K W -> fut_cancel_handle x = cb ->
  (1 < fut_refcount x)%Z -> int_range (fut_refcount x) -> (0 < rc)%Z -> int_range rc ->
  marked_seg (heap s) t cur (attach_reg cb f :: L2) -> NoDup (cb :: nodes L2) -> t ∉ cb :: nodes L2 ->
  t <> NULL -> heap s !! t = Some (OToken (MkToken rc false true NULL)) ->
  (forall cur' s', marked_seg (heap s') t cur' L2 -> token_after (heap s') t (rc - 1) true [] ->
     settled_future (heap s') f (let y := complete_with (error_result ECANCELED) x in
       set_fut_refcount (fut_refcount y - 1) y) ->
     (forall w, w ∈ W -> awake (heap s') (fds s') w) ->
     (forall p, p ∈ cb :: pd_nodes K -> heap s' !! p = None) ->
     (forall p, D p -> p ∉ t :: cb :: footprint f x K W -> heap s' !! p = heap s !! p) ->
     (forall fd, DF fd -> fd ∉ sl_fds W -> fds s' !! fd = fds s !! fd) ->
     trace s' = trace s ++ K_cancel_cb CC_sFutureCancelCallback f :: all_calls f calls K ++
       [K_cancel_cb CC_sFutureCancelRelease f] -> I [] s' ->
     WP (Cancel_run_loop cur') (fun _ => R) s') ->
  WP (Cancel_run_loop cur) (fun _ => R) s.
Proof.
  intros Hled HD HDF HX HI Ho Hcb Hr Hri Hrc0 Hrci (-> & Hcb0 & next & Hx & Hseg) Hnd HtL Ht0 Ht Hk. simpl in *.
  pose proof Ho as [].
  assert (Hout : forall p, p ∈ t :: cb :: nodes L2 -> p ∉ footprint f x K W).
  { rewrite not_elem_of_cons in HtL. intros p Hp. rewrite !elem_of_cons in Hp.
    destruct Hp as [->|[->|Hp]]; [by eapply open_outside..|].
    destruct (marked_seg_live _ _ _ _ _ Hseg Hp) as [y Hy]. by eapply open_outside. }
  assert (Hff : f ∉ t :: cb :: nodes L2) by (intros Hin; apply (Hout f Hin); by left).
  rewrite !not_elem_of_cons in Hff. destruct Hff as (Hft & Hfcb & HfL).
  rewrite not_elem_of_cons in HtL. destruct HtL as [Htcb HtL]. apply NoDup_cons in Hnd as [HcbL _].
  unfold Cancel_run_loop. rewrite (is_null_false cb) by done. unfold marked_node in Hx. simpl in Hx. wp_steps.
  eapply wp_call_bind.
  { eapply (cancel_callback_led f x K W t cb rc next D DF (eq []) X calls I); try done.
    - intros p Hp. apply HD. rewrite !elem_of_cons, elem_of_app in *. naive_solver.
    - eapply (led_stable _ _ _ _ _ _ _ _ _ _ _ Hled K s); [|done|exact HI]. intros p Hp. simpl. lk. }
  simpl. intros _ s1 (Hs1 & Ha1 & Hk1 & Hx1 & Hf1 & Hfd1 & Htr1%made_silent & HI1).
  set (y := complete_with (error_result ECANCELED) x) in *.
  assert (Hf1f : heap s1 !! f = Some (OFuture y)) by apply Hs1.
  assert (Ht1 : heap s1 !! t = Some (OToken (MkToken rc false true NULL))).
  { rewrite Hf1; [done|apply HD; by left|done|]. apply Hout. by left. }
  wp_steps. eapply wps_seq; [apply (drop_attached f y t cb rc NULL); try done; simpl; lk|].
  simpl. intros _ s2 (Hcb2 & Haft & [Hf2 Hfd2] & Hkeep' & Htr2). wp_steps.
  assert (Hkeep : forall p, p <> f -> p <> t -> p <> cb -> heap s2 !! p = heap s1 !! p) by (intros p ???; rewrite Hkeep' by done; lk).
  eapply (wp_call_bind _ _ _ (fun _ => R)); [|intros; by apply wps_ret]. unfold log; simpl.
  assert (Htot : forall p, D p -> p ∉ t :: cb :: footprint f x K W -> heap s2 !! p = heap s !! p).
  { intros p HDp [? [? ?]%not_elem_of_cons]%not_elem_of_cons.
    assert (p <> f) by (intros ->; set_solver). rewrite Hkeep by done. by apply Hf1. }
  assert (Hin : forall p, p ∈ footprint f x K W -> p <> t /\ p <> cb).
  { intros p Hp. split; intros ->; eapply Hout; try exact Hp; set_solver. }
  apply Hk; try done.
  - eapply marked_seg_frame; [|exact Hseg]. intros p Hp. apply Htot.
    + apply HD. rewrite !elem_of_cons, elem_of_app. auto.
    + rewrite !not_elem_of_cons. split_and!; [by intros ->|by intros ->|]. apply Hout. by do 2 right.
  - eapply (settled_frame (<[f := OFuture (set_fut_refcount (fut_refcount x - 1) y)]> (heap s1)));
      [|by eapply settled_update].
    intros p Hp. destruct (decide (p = f)) as [->|]; [by rewrite lookup_insert_eq|].
    rewrite lookup_insert_ne by done. destruct (Hin p); [|by apply Hkeep].
    unfold footprint. simpl in Hp. set_solver.
  - intros w Hw. destruct (Ha1 w Hw) as [Hfw (b & Hb & Hrest)]. split; [by rewrite Hfd2|].
    exists b. split; [|done]. destruct (Hin (sl_node w)); [by apply footprint_wait|].
    rewrite Hkeep; [done| |done|done]. intros Heq. rewrite Heq in Hb. congruence.
  - intros p [->|Hp]%elem_of_cons; [done|]. assert (Hpf : p ∈ footprint f x K W).
    { apply list_elem_of_fmap in Hp as (k & -> & Hkin). by apply footprint_cont. }
    destruct (Hin p Hpf). rewrite Hkeep; [by apply Hk1|intros ->|done|done].
    by rewrite Hk1 in Hf1f.
  - intros fd ??. rewrite Hfd2. by apply Hfd1.
  - rewrite Htr2, Htr1. by rewrite <- !app_assoc.
  - eapply (led_stable _ _ _ _ _ _ _ _ _ _ _ Hled [] s1); [|by intros; rewrite Hfd2|exact HI1]. intros p Hp.
    apply Hkeep; intros ->; apply Hp, HX; rewrite !elem_of_cons; auto. do 2 right. by left.
Qed.

(** The special case of continuations that only observe. *)
Lemma run_attached f x K W t cb rc L2 (R : st -> Prop) cur s :
  (forall k, k ∈ K -> observes (body client) (pd_call f k)) ->
  open_future (heap s) (fds s) f x K W -> fut_cancel_handle x = cb ->
  (1 < fut_refcount x)%Z -> int_range (fut_refcount x) -> (0 < rc)%Z -> int_range rc ->
  marked_seg (heap s) t cur (attach_reg cb f :: L2) -> NoDup (cb :: nodes L2) -> t ∉ cb :: nodes L2 ->
  t <> NULL -> heap s !! t = Some (OToken (MkToken rc false true NULL)) ->
  (forall cur' s', marked_seg (heap s') t cur' L2 -> token_after (heap s') t (rc - 1) true [] ->
     settled_future (heap s') f (let y := complete_with (error_result ECANCELED) x in
       set_fut_refcount (fut_refcount y - 1) y) ->
     (forall w, w ∈ W -> awake (heap s') (fds s') w) ->
     (forall p, p ∈ cb :: pd_nodes K -> heap s' !! p = None) ->
     (forall p, p ∉ t :: cb :: footprint f x K W -> heap s' !! p = heap s !! p) ->
     (forall fd, fd ∉ sl_fds W -> fds s' !! fd = fds s !! fd) ->
     trace s' = trace s ++ K_cancel_cb CC_sFutureCancelCallback f :: (pd_call f <$> K) ++
       [K_cancel_cb CC_sFutureCancelRelease f] ->
     WP (Cancel_run_loop cur') (fun _ => R) s') ->
  WP (Cancel_run_loop cur) (fun _ => R) s.
Proof.
  intros Hobs. intros. eapply (run_attached_led f x K W t cb rc L2 (fun _ => True) (fun _ => True) (t :: cb :: footprint f x K W)
    (fun _ => []) (fun _ _ => True)); try done.
  - apply mannered_led. intros k Hk. by apply observes_mannered, Hobs.
  - cbn zeta. rewrite all_calls_silent. intros. eauto.
Qed.

(** After the attached callback, the rest of the chain only observes. *)
Lemma run_observers t L s cur (R : st -> Prop) :
  (forall r, r ∈ L -> observes (body client) (reg_call r)) -> marked_seg (heap s) t cur L ->
  NoDup (nodes L) -> t ∉ nodes L -> (exists rc, heap s !! t = Some (OToken (MkToken rc false true NULL))) ->
  (forall s', (forall r, r ∈ L -> heap s' !! reg_node r = Some (dispatched_node r t)) ->
     (forall p, p ∉ nodes L -> heap s' !! p = heap s !! p) -> fds s' = fds s ->
     trace s' = trace s ++ (reg_call <$> L) -> R s') ->
  WP (Cancel_run_loop cur) (fun _ => R) s.
Proof.
  intros Hobs Hm Hnd Ht [rc Hrc] HR.
  eapply wp_mono; [eapply (run_loop_does (body client) t rc (t :: nodes L) L (fun _ => True) (eq []) (fun _ u => fds u = fds s));
    try done; by apply observes_guided|].
  simpl. intros _ s' (Hd & Hf & Htr%made_silent & Hfd). apply HR; try done. intros p Hp. by apply Hf.
Qed.

(** A future on the way to being attached: the token is in its field, and each of the
    two holds a reference on the other. *)
Definition attaching (t : ptr) (x : UfsrvFuture) : UfsrvFuture :=
  set_fut_refcount (fut_refcount x + 1) (set_fut_cancel_token t x).

(** Registration failed: every reference taken on the way is given back. *)
Lemma attach_undo f x K W t rc L s s1 :
  open_future (heap s) (fds s) f x K W -> fut_cancel_token x = NULL ->
  (forall p, p ∈ footprint f x K W -> p ∉ t :: nodes L) -> (Z.of_nat (length L) < rc)%Z ->
  int_range (rc + 1) -> int_range (fut_refcount x + 1) -> (0 < fut_refcount x)%Z ->
  heap s1 !! f = Some (OFuture (attaching t x)) -> token_rep (heap s1) t (rc + 1) false L ->
  (forall p, p ∉ f :: t :: nodes L -> heap s1 !! p = heap s !! p) -> fds s1 = fds s ->
  WP (wr (set_fut_cancel_token NULL) f ;; UfsrvCancellationTokenDestroy t ;; UfsrvFutureRelease f ;; Ret false)%prog
    (fun ok s' => ok = false /\ trace s' = trace s1 /\ fds s' = fds s /\
       open_future (heap s') (fds s') f x K W /\ token_rep (heap s') t rc false L /\
       forall p, p ∉ f :: t :: nodes L -> heap s' !! p = heap s !! p) s1.
Proof.
  intros Ho Htk Hfoot Hlt Hrc Hrf Hrf0 Hf1 Htok Hrest Hfd. pose proof Ho as [].
  assert (Hff : f ∉ t :: nodes L) by (apply Hfoot; by left). pose proof Htok as (hd & last & Ht0 & _).
  unfold attaching in Hf1. wp_steps. unfold UfsrvCancellationTokenDestroy. rewrite (is_null_false t) by done.
  eapply wps_seq.
  { apply (sTokenRelease_spec (body client) t (rc + 1) false L); [|lia|done].
    eapply token_rep_frame; [|exact Htok]. intros p Hp. apply lookup_insert_ne. by intros <-. }
  simpl. intros _ s2 (Htok2 & Htr2 & Hoff).
  unfold token_after in Htok2. rewrite bool_decide_eq_false_2 in Htok2 by lia.
  replace (rc + 1 - 1)%Z with rc in Htok2 by lia. pose proof (off_heap _ _ _ Hoff) as Hh2. simpl in Hh2.
  assert (Hft2 : f ∉ [t]) by set_solver.
  eapply wps_seq; [eapply (Release_shared (body client) f); [rewrite Hh2 by done; lk|done|simpl; lia]|].
  simpl. intros _ s3 ->. wp_steps. simpl.
  assert (Hfd2 : fds s2 = fds s) by by rewrite (se_fds _ _ (off_env _ _ _ Hoff)).
  assert (Hx : set_fut_refcount (wrap_i32 (fut_refcount x + 1 + -1)) (set_fut_cancel_token NULL (attaching t x)) = x).
  { replace (fut_refcount x + 1 + -1)%Z with (fut_refcount x) by lia.
    rewrite wrap_i32_id by (unfold int_range in *; lia). destruct x; simpl in *. by subst. }
  unfold attaching in Hx. rewrite Hx.
  assert (Hfin : forall p, p ∉ f :: t :: nodes L -> <[f:=OFuture x]> (heap s2) !! p = heap s !! p).
  { intros p Hp. pose proof Hp as [? [? ?]%not_elem_of_cons]%not_elem_of_cons. lk. rewrite Hh2 by set_solver. lk. by apply Hrest. }
  split_and!; [done|done|done| | |exact Hfin].
  - eapply open_frame; [| |exact Ho]; [|by rewrite Hfd2].
    intros p Hp. destruct (decide (p = f)) as [->|]; [by rewrite lookup_insert_eq, of_fut|]. apply Hfin.
    rewrite not_elem_of_cons. split; [done|]. by apply Hfoot.
  - eapply token_rep_frame; [|exact Htok2]. intros p Hp. apply lookup_insert_ne. by intros <-.
Qed.

(** Registration succeeded: the future keeps the handle. *)
Lemma attach_done f x K W t cb L rc s s1 :
  open_future (heap s) (fds s) f x K W -> (forall p, p ∈ footprint f x K W -> p ∉ t :: cb :: nodes L) ->
  heap s1 !! f = Some (OFuture (attaching t x)) -> token_rep (heap s1) t rc false (attach_reg cb f :: L) ->
  (forall p, p ∉ f :: t :: cb :: nodes L -> heap s1 !! p = heap s !! p) -> fds s1 = fds s ->
  open_future (<[f := OFuture (attached t cb x)]> (heap s1)) (fds s1) f (attached t cb x) K W /\
  token_rep (<[f := OFuture (attached t cb x)]> (heap s1)) t rc false (attach_reg cb f :: L) /\
  forall p, p ∉ f :: t :: cb :: nodes L -> <[f := OFuture (attached t cb x)]> (heap s1) !! p = heap s !! p.
Proof.
  intros Ho Hfoot Hf1 Htok Hrest Hfd.
  assert (Hfin : forall p, p ∉ f :: t :: cb :: nodes L -> <[f:=OFuture (attached t cb x)]> (heap s1) !! p = heap s !! p).
  { intros p Hp. pose proof Hp as [? Hp']%not_elem_of_cons. lk. by apply Hrest. }
  split_and!; [| |exact Hfin].
  - eapply (open_frame (<[f := OFuture (attached t cb x)]> (heap s))); [|by intros; rewrite Hfd|by eapply open_update].
    intros p Hp. destruct (decide (p = f)) as [->|]; [by rewrite !lookup_insert_eq|].
    rewrite (lookup_insert_ne (heap s)) by done. apply Hfin. apply not_elem_of_cons. split; [done|]. by apply Hfoot.
  - eapply token_rep_frame; [|exact Htok]. intros p Hp. apply lookup_insert_ne. intros <-.
    by apply (Hfoot f); [left|].
Qed.

(** What [UfsrvFutureAttachCancellation] promises. *)
Definition attach_post f x K W t rc L s (ok : bool) s' : Prop :=
  trace s' = trace s /\ fds s' = fds s /\
  ((ok = false /\ oracle s <> [] /\ open_future (heap s') (fds s') f x K W /\ token_rep (heap s') t rc false L /\
    forall p, p ∉ f :: t :: nodes L -> heap s' !! p = heap s !! p) \/
   (ok = true /\ exists cb, cb <> NULL /\ heap s !! cb = None /\
    open_future (heap s') (fds s') f (attached t cb x) K W /\
    token_rep (heap s') t (rc + 2) false (attach_reg cb f :: L) /\
    forall p, p ∉ f :: t :: cb :: nodes L -> heap s' !! p = heap s !! p)).

Lemma Attach_spec f x K W t rc L s :
  wf_alloc s -> open_future (heap s) (fds s) f x K W -> fut_cancel_token x = NULL ->
  token_rep (heap s) t rc false L -> (Z.of_nat (length L) < rc)%Z ->
  int_range (rc + 2) -> int_range (fut_refcount x + 1) -> (0 < fut_refcount x)%Z ->
  WP (UfsrvFutureAttachCancellation f t) (attach_post f x K W t rc L s) s.
Proof.
  intros Hwf Ho Htk Htok Hlt Hrc Hrf Hrf0. pose proof Ho as [].
  pose proof Htok as (hd & last & Ht0 & Ht & Hseg & Hnd & Hlen & _).
  assert (Hfoot : forall p, p ∈ footprint f x K W -> p ∉ t :: nodes L) by (intros p Hp Hin; by eapply open_not_token).
  assert (Hff : f ∉ t :: nodes L) by (apply Hfoot; by left). pose proof Hff as [Hft HfL]%not_elem_of_cons.
  unfold UfsrvFutureAttachCancellation, cas_cancel_token, UfsrvFutureRetain, UfsrvCancellationTokenRetainInternal.
  rewrite (is_null_false f), (is_null_false t) by done. simpl. wp_steps. rewrite of_completed. wp_steps.
  rewrite Htk. change (is_null NULL) with true. simpl. wp_steps.
  rewrite (wrap_i32_id (rc + 1)) by (unfold int_range in *; lia). rewrite (wrap_i32_id (fut_refcount x + 1)) by done.
  set (s0 := store_cell f _ _).
  assert (Hs0 : forall p, p <> f -> p <> t -> heap s0 !! p = heap s !! p) by (intros; simpl; lk).
  assert (Hf0 : heap s0 !! f = Some (OFuture (attaching t x))) by (simpl; lk).
  assert (Htok0 : token_rep (heap s0) t (rc + 1) false L).
  { exists hd, last. split_and!; try done; [simpl; lk| |lia]. eapply cb_seg_frame; [|exact Hseg].
    intros p Hp. apply Hs0; [congruence|by eapply seg_not_token]. }
  eapply wps_seq.
  { eapply (RegisterEx_spec (body client) t (rc + 1) L); [|exact Htok0|by replace (rc + 1 + 1)%Z with (rc + 2)%Z by lia].
    destruct Hwf as [Hp Hfr]. split; [done|]. intros p Hle. change (next_ptr s0) with (next_ptr s) in Hle.
    rewrite Hs0; [by apply Hfr|intros ->; by rewrite Hfr in of_fut|intros ->; by rewrite Hfr in Ht]. }
  simpl. intros cb s1 (Htr & He & Hcase). pose proof (se_fds _ _ He) as Hfd1. change (fds s1 = fds s) in Hfd1.
  destruct Hcase as [(-> & Hh & Hor)|(Hcb0 & Hcbn & Htok1 & Hfr)].
  - change (is_null NULL) with true. simpl. eapply wp_mono.
    { apply (attach_undo f x K W t rc L s); try done; [unfold int_range in *; lia|by rewrite Hh|by rewrite Hh|].
      intros p [? [? ?]%not_elem_of_cons]%not_elem_of_cons. rewrite Hh. by apply Hs0. }
    simpl. intros ok s' (-> & Ht' & Hf' & ? & ? & ?). split_and!; [by rewrite Ht', Htr|done|]. by left.
  - rewrite (is_null_false cb) by done. change (heap s0 !! cb = None) in Hcbn.
    assert (Hcf : cb <> f) by congruence. assert (Hct : cb <> t) by (intros ->; simpl in Hcbn; rewrite lookup_insert_ne, lookup_insert_eq in Hcbn by done; done).
    assert (Hf1 : heap s1 !! f = Some (OFuture (attaching t x))) by (rewrite Hfr; [done|]; rewrite !not_elem_of_cons; done).
    unfold attaching in Hf1. wp_steps. rewrite of_completed. wp_steps. split_and!; [done|done|]. right. split; [done|].
    rewrite Hs0 in Hcbn by done. exists cb. split; [done|]. split; [done|].
    replace (rc + 1 + 1)%Z with (rc + 2)%Z in Htok1 by lia. change (heap (store_cell f _ s1)) with (<[f := OFuture (attached t cb x)]> (heap s1)).
    change (fds (store_cell f _ s1)) with (fds s1). eapply attach_done; [exact Ho| |exact Hf1|exact Htok1| |done].
    + intros p Hp. pose proof (Hfoot p Hp) as [? ?]%not_elem_of_cons. rewrite !not_elem_of_cons. split_and!; [done| |done].
      intros ->. destruct (open_allocated _ _ _ _ _ _ _ Ho Hp). congruence.
    + intros p Hp. rewrite Hfr by (rewrite !not_elem_of_cons in Hp; rewrite !not_elem_of_cons; naive_solver).
      apply Hs0; intros ->; apply Hp; rewrite !elem_of_cons; auto.
Qed.
End Attach.


(** Cancelling a token completes the futures attached to it.  The dispatch runs
    the callbacks in list order; at the attached one the future completes with
    ECANCELED, its sleeping waiters are woken and its continuations run, the node
    and the reference it held on the future are given back, and the walk goes on. *)
Lemma cancel_completes_attached {E : Ext} {TS : TreiberSpec E} client f x K W t cb rc L1 L2 s :
  (forall k, k ∈ K -> observes (body client) (pd_call f k)) ->
  (forall r, r ∈ L1 ++ L2 -> observes (body client) (reg_call r)) ->
  open_future (heap s) (fds s) f x K W -> fut_cancel_handle x = cb ->
  (1 < fut_refcount x)%Z -> int_range (fut_refcount x) -> int_range rc ->
  token_rep (heap s) t rc false (L1 ++ attach_reg cb f :: L2) ->
  (Z.of_nat (length (L1 ++ attach_reg cb f :: L2)) < rc)%Z ->
  wp (body client) log (UfsrvCancellationTokenCancel t)
    (fun _ s' =>
       settled_future (heap s') f
         (set_fut_refcount (fut_refcount x - 1) (complete_with (error_result ECANCELED) x)) /\
       (forall w, w ∈ W -> awake (heap s') (fds s') w) /\
       (forall p, p ∈ cb :: pd_nodes K -> heap s' !! p = None) /\
       token_rep (heap s') t (rc - 1) true [] /\
       (forall r, r ∈ L1 ++ L2 -> heap s' !! reg_node r = Some (dispatched_node r t)) /\
       trace s' = trace s ++ (reg_call <$> L1) ++
         (K_cancel_cb CC_sFutureCancelCallback f :: (pd_call f <$> K) ++ [K_cancel_cb CC_sFutureCancelRelease f]) ++
         (reg_call <$> L2)) s.
Proof.
  intros HobsK HobsL Ho Hcb Hr Hri Hrci Htok Hlen.
  pose proof Htok as (hd & last & Ht0 & _).
  assert (Hout : forall p, p ∈ t :: nodes (L1 ++ attach_reg cb f :: L2) -> p ∉ footprint f x K W)
    by (intros p; by eapply open_not_token).
  destruct (nodes_remove _ _ _ ltac:(by destruct Htok as (? & ? & _ & _ & _ & ? & _)))
    as (Hnd & Hsub & Hdis & Hcbn).
  eapply (Cancel_start (body client)); [done|]. intros cur s1 Hm Hnd0 HtL Ht1 Hoff Htr1.
  pose proof (off_heap _ _ _ Hoff) as Hh1. pose proof (se_fds _ _ (off_env _ _ _ Hoff)) as Hfd1.
  eapply (run_loop_prefix (body client) t rc (t :: nodes L1) L1 (attach_reg cb f :: L2) (fun _ => True) (eq [])
    (fun _ u => fds u = fds s)); try done.
  { apply observes_guided. intros r Hr'. apply HobsL. set_solver. }
  intros cur2 s2 Hm2 Ht2 Hd2 Hf2 Htr2%made_silent Hfd2.
  assert (Hh2 : forall p, p ∈ footprint f x K W -> heap s2 !! p = heap s !! p).
  { intros p Hp. assert (Hno : p ∉ t :: nodes (L1 ++ attach_reg cb f :: L2)) by (intros Hin; by eapply Hout).
    rewrite Hf2; [apply Hh1, Hno|done|]. intros Hin. apply Hno. right. unfold nodes in *.
    rewrite fmap_app. set_solver. }
  assert (Hnd2 : NoDup (cb :: nodes L2) /\ t ∉ cb :: nodes L2).
  { unfold nodes in Hnd0, HtL. rewrite fmap_app, fmap_cons in Hnd0, HtL. simpl in Hnd0, HtL.
    apply NoDup_app in Hnd0 as (_ & _ & ?). split; [done|]. unfold nodes. set_solver. }
  destruct Hnd2 as [Hnd2 HtL2]. rewrite length_app in Hlen. simpl in Hlen.
  assert (Hinout : forall r, r ∈ L1 ++ L2 -> reg_node r ∈ nodes (L1 ++ L2)) by (intros; by apply list_elem_of_fmap_2).
  eapply (run_attached client f x K W t cb rc L2 _ cur2 s2); try done; [|lia|].
  { eapply open_frame; [exact Hh2| |exact Ho]. intros z _. by rewrite Hfd2. }
  intros cur3 s3 Hm3 Haft Hset Haw Hfree Hf3 _ Htr3. unfold token_after in Haft.
  rewrite bool_decide_eq_false_2 in Haft by lia. pose proof Haft as (hd' & last' & _ & Ht3 & [-> _] & _).
  eapply (run_observers client t L2); [intros r Hr'; apply HobsL; set_solver|done|by inversion Hnd2| |by eexists|].
  { by apply not_elem_of_cons in HtL2 as [_ ?]. }
  intros s4 Hd4 Hf4 Hfd4 Htr4. simpl in Hset.
  assert (Hkeep : forall p, p ∈ footprint f x K W -> heap s4 !! p = heap s3 !! p).
  { intros p Hp. apply Hf4. intros Hin. apply (Hout p); [|done]. right. unfold nodes in *.
    rewrite fmap_app. set_solver. }
  split_and!.
  - eapply settled_frame; [|exact Hset]. intros p Hp. apply Hkeep. unfold footprint. simpl in Hp. set_solver.
  - intros w Hw. eapply awake_frame; [apply Hkeep; by apply footprint_wait|by rewrite Hfd4|by apply Haw].
  - intros p Hp. rewrite Hf4; [by apply Hfree|]. intros Hin.
    apply elem_of_cons in Hp as [->|Hp]; [by inversion Hnd2|].
    apply list_elem_of_fmap in Hp as (k & -> & Hk). eapply Hout; [|by apply (footprint_cont f x K W)].
    right. unfold nodes in *. rewrite fmap_app. set_solver.
  - eapply token_rep_frame; [|exact Haft]. intros p [->|?%elem_of_nil]%elem_of_cons; [|done].
    apply Hf4. by apply not_elem_of_cons in HtL2 as [_ ?].
  - intros r [Hr'|Hr']%elem_of_app; [|by apply Hd4].
    assert (Hrn : reg_node r ∈ nodes L1) by (by apply list_elem_of_fmap_2).
    destruct (Hsub (reg_node r)) as [Hrin Hrc']; [apply Hinout; set_solver|].
    rewrite Hf4, Hf3; [by apply Hd2| |by apply Hdis].
    rewrite !not_elem_of_cons. split_and!; [by intros <-|done|]. apply Hout. by right.
  - rewrite Htr4, Htr3, Htr2, Htr1. by rewrite <- !app_assoc.
Qed.

(** C14.  Completing an attached future takes its callback off the token: the node is
    unlinked and freed, its reference on the future given back, all at the completion
    and not at a later cancellation, and the callback will never be dispatched; then the waiters are woken and the continuations
    run, as for any completion. *)
Theorem attached_completion_detaches {E : Ext} {TS : TreiberSpec E} client f prm r x K W t cb rc L1 L2 s :
  (forall k, k ∈ K -> observes (body client) (pd_call f k)) ->
  open_future (heap s) (fds s) f x K W -> promise_at (heap s) prm f false -> fut_cancel_handle x = cb ->
  (1 < fut_refcount x)%Z -> int_range (fut_refcount x) -> int_range rc ->
  token_rep (heap s) t rc false (L1 ++ attach_reg cb f :: L2) ->
  (Z.of_nat (length (L1 ++ attach_reg cb f :: L2)) < rc)%Z ->
  wp (body client) log (UfsrvPromiseSetResult prm r)
    (fun _ s' =>
       settled_future (heap s') f (set_fut_refcount (fut_refcount x - 1) (complete_with r x)) /\
       (forall w, w ∈ W -> awake (heap s') (fds s') w) /\
       (forall p, p ∈ cb :: pd_nodes K -> heap s' !! p = None) /\
       token_rep (heap s') t (rc - 1) false (L1 ++ L2) /\
       trace s' = trace s ++ K_cancel_cb CC_sFutureCancelRelease f :: (pd_call f <$> K)) s.
Proof.
  intros Hobs Ho Hp Hcb Hr Hri Hrci Htok Hlen. pose proof Ho as [].
  pose proof Htok as (hd & last & Ht0 & Ht & Hseg & _).
  assert (Hout : forall p, p ∈ t :: nodes (L1 ++ attach_reg cb f :: L2) -> p ∉ footprint f x K W)
    by (intros p; by eapply open_not_token).
  assert (HcbL : cb ∈ nodes (L1 ++ attach_reg cb f :: L2))
    by (unfold nodes; rewrite fmap_app; set_solver).
  assert (Hin : forall p, p ∈ footprint f x K W -> p ∉ t :: nodes (L1 ++ attach_reg cb f :: L2))
    by (intros p Hpf Hpt; by eapply Hout).
  assert (Hff : f ∉ t :: nodes (L1 ++ attach_reg cb f :: L2)) by (apply Hin; by left).
  destruct (cb_seg_live _ _ _ _ _ _ _ _ Hseg HcbL) as [Hcb0 _]. simpl in Hcb0.
  destruct Hp as [Hp0 Hp]. assert (Hpf : prm <> f) by congruence.
  assert (Hpo : prm ∉ footprint f x K W) by by eapply open_outside.
  assert (Hpt' : prm ∉ t :: nodes (L1 ++ attach_reg cb f :: L2)).
  { intros [->|Hpt]%elem_of_cons; [congruence|].
    destruct (token_rep_node _ _ _ _ _ _ Htok Hpt) as (_ & _ & y & Hy). congruence. }
  unfold UfsrvPromiseSetResult, sFutureComplete. rewrite (is_null_false prm) by done. wp_steps. simpl. wp_steps.
  rewrite of_completed. wp_steps. rewrite Hcb, (is_null_false cb) by done. simpl. wp_steps.
  eapply wps_seq.
  { eapply (Unregister_linked_does (body client) t rc false L1 (attach_reg cb f) L2 (fun p => p <> f) (eq []) _
      (detached f (complete_with r x) (fds s))); [..|by apply (detach_hook client cb f (complete_with r x))| | |].
    - eapply token_rep_frame; [|exact Htok]. intros p Hpt. assert (p <> f) by (by intros ->).
      assert (p <> prm) by (intros ->; exact (Hpt' Hpt)). simpl; lk.
    - done.
    - intros p Hpt ->. done.
    - by apply cell_steady.
    - by apply cell_steady.
    - split; [simpl; lk|done]. }
  simpl. intros _ s1 (-> & Hcb1 & Haft & Htr1%made_silent & [Hf1 Hfd1] & Hh1). simpl in *.
  unfold token_after in Haft. rewrite bool_decide_eq_false_2 in Haft by (rewrite length_app in Hlen; simpl in Hlen; lia).
  wp_steps. rewrite (bind_bind (sDrainContinuations f)), <- bind_bind. eapply wps_seq.
  { eapply (drain_all_spec (body client) f r x _ K W (fun _ => True) (fun _ => True) (eq []) s); try done.
    - intros p Hpt Hne. assert (p <> prm) by (intros ->; exact (Hpo Hpt)). rewrite Hh1; [lk|done|by apply Hin].
    - intros fd _. by rewrite Hfd1.
    - intros k Hk. by apply observes_mannered, Hobs. }
  simpl. intros _ s2 (Hs & Ha & Hk & Hf & _ & Htr%made_silent). wp_steps. simpl. wp_steps. split_and!; try done.
  - intros p [->|Hpk]%elem_of_cons; [|by apply Hk]. rewrite Hf; [done|done|]. intros Hcbf. by apply (Hin cb Hcbf); right.
  - eapply token_rep_frame; [|exact Haft]. intros p Hpt. apply Hf; [done|]. apply Hout.
    destruct (nodes_remove L1 (attach_reg cb f) L2) as (_ & Hsub & _);
      [by destruct Htok as (? & ? & _ & _ & _ & ? & _)|].
    apply elem_of_cons in Hpt as [->|Hpt]; [by left|right; by apply Hsub].
  - by rewrite Htr, Htr1, <- app_assoc.
Qed.

(** ** Witnesses: the future and token of Demo, attached *)
#[local] Existing Instances RefExt.ext RefExt.treiber.

Definition attached_st : st := after (UfsrvFutureAttachCancellation fut tok) ready_st.
Definition attached_cell : UfsrvFuture := attached tok 8%N fut_cell.

Lemma attached_open : open_future (heap attached_st) (fds attached_st) fut attached_cell conts [].
Proof.
  split; try done; try (vm_compute; reflexivity).
  - split; [done|]. eexists. split; [vm_compute; reflexivity|by split].
  - split; [done|]. eexists. split; [vm_compute; reflexivity|by split].
  - intros k ->%list_elem_of_singleton. split; [done|]. eexists. split; [vm_compute; reflexivity|by split].
  - by intros w ?%elem_of_nil.
  - apply NoDup_singleton.
  - apply NoDup_nil_2.
  - apply NoDup_nil_2.
Qed.
Lemma attached_token : token_rep (heap attached_st) tok 4 false (attach_reg 8%N fut :: regs).
Proof.
  exists 8%N, 7%N. split_and!; [done|vm_compute; reflexivity| | |done|done].
  - split_and!; [done|done|]. exists 7%N. split; [vm_compute; reflexivity|].
    split_and!; [done|done|]. exists NULL. split; [vm_compute; reflexivity|done].
  - apply NoDup_cons. split; [|apply NoDup_singleton]. by intros ?%list_elem_of_singleton.
Qed.


Lemma attached_completion_detaches_witness :
  wp (body quiet_client) log (UfsrvPromiseSetResult prm (MkResult 0 77 None))
    (fun _ s' =>
       settled_future (heap s') fut
         (set_fut_refcount (fut_refcount attached_cell - 1) (complete_with (MkResult 0 77 None) attached_cell)) /\
       (forall w, w ∈ ([] : list sleeper) -> awake (heap s') (fds s') w) /\
       (forall p, p ∈ 8%N :: pd_nodes conts -> heap s' !! p = None) /\
       token_rep (heap s') tok (4 - 1) false ([] ++ regs) /\
       trace s' = trace attached_st ++ K_cancel_cb CC_sFutureCancelRelease fut :: (pd_call fut <$> conts))
    attached_st.
Proof.
  apply (attached_completion_detaches quiet_client fut prm _ attached_cell conts [] tok 8%N 4 [] regs).
  - apply ready_conts.
  - apply attached_open.
  - split; [done|vm_compute; reflexivity].
  - reflexivity.
  - reflexivity.
  - split; [vm_compute; discriminate|reflexivity].
  - split; lia.
  - apply attached_token.
  - reflexivity.
Defined.
