(* ===== verification/OperatorFacts.v ===== *)
(** * OperatorFacts: correctness of the single-input operators

    What [map], [flatMap], [onError] and [doOnSuccess] make of the result of their
    input: the output future is completed with exactly the result the operator
    promises, its promise and the operator's context are freed, its waiters woken
    and its continuations run. *)
From Stdlib Require Import FunctionalExtensionality.
From S2P Require Import Prelude Machine Uflib Model Cancellation Scheduler Coroutine Future Waiting.
From S2P Require Import Operators Dispatch Logic Guarantee CancellationFacts FutureFacts Demo.
Local Open Scope prog_scope.

(** The places of an element in [l1 ++ x :: l2]. *)
Lemma app_cons_places {A} (l1 : list A) x l2 l y l' :
  l1 ++ x :: l2 = l ++ y :: l' ->
  (exists m, l1 = l ++ y :: m /\ l' = m ++ x :: l2) \/ (l1 = l /\ x = y /\ l2 = l') \/
  (exists m, l = l1 ++ x :: m /\ l2 = m ++ y :: l').
Proof.
  revert l; induction l1 as [|z l1 IH]; intros [|z' l] Heq; simpl in *.
  - injection Heq as -> ->. auto.
  - injection Heq as -> ->. eauto 10.
  - injection Heq as -> <-. eauto.
  - injection Heq as -> Heq. destruct (IH l Heq) as [(m & -> & ->)|[(-> & -> & ->)|(m & -> & ->)]]; eauto 10.
Qed.

Section Operators.
Context {E : Ext} {TS : TreiberSpec E} (client : Client).
#[local] Abbreviation WPS := (wps (body client) log).
#[local] Abbreviation WP := (wp (body client) log).
#[local] Abbreviation quiet := (observes (body client)).

(** A call whose result is used. *)
Lemma wps_call_then {A B} c (q : ptr -> cprog B) (k : B -> cprog A) (R : ptr -> st -> Prop) Q W Y s :
  WP (body client c) R (log c s) -> (forall v s', R v s' -> WPS (bind (q v) k) Q W Y s') ->
  WPS (bind (Call c q) k) Q W Y s.
Proof. apply wps_call_seq. Qed.

(** Client functions that compute a value and observe. *)
Definition answers (c : code) (v : ptr) : Prop :=
  forall s, WP (body client c)
    (fun w s' => w = v /\ heap s' = heap s /\ fds s' = fds s /\ trace s' = trace s) s.

(** An operator's output: its promise, and its future with continuations [K] and
    blocked waiters [W]; somebody besides the promise holds the future. *)
Record output (op out : ptr) (y : UfsrvFuture) (K : list pending) (W : list sleeper) (s : st) : Prop := {
  ou_promise : promise_at (heap s) op out false;
  ou_open : open_future (heap s) (fds s) out y K W;
  ou_handle : fut_cancel_handle y = NULL;
  ou_refs : (2 <= fut_refcount y <= 2 ^ 31 - 1)%Z;
  ou_quiet k : k ∈ K -> quiet (pd_call out k);
}.
Definition ou_cells (op out : ptr) (y : UfsrvFuture) K W : list ptr := op :: footprint out y K W.

(** The output has received [r]; and nothing else has changed. *)
Record received (op out : ptr) (y : UfsrvFuture) (K : list pending) (W : list sleeper)
    (r : UfsrvFutureResult) (s : st) : Prop := {
  rv_settled : settled_future (heap s) out (set_fut_refcount (fut_refcount y - 1) (complete_with r y));
  rv_promise : heap s !! op = None;
  rv_woken w : w ∈ W -> awake (heap s) (fds s) w;
  rv_nodes p : p ∈ pd_nodes K -> heap s !! p = None;
}.
Record only_changed (M : list ptr) (MF : list Z) (s s' : st) : Prop := {
  oc_heap p : p ∉ M -> heap s' !! p = heap s !! p;
  oc_fds fd : fd ∉ MF -> fds s' !! fd = fds s !! fd;
}.

Lemma output_promise_outside op out y K W s :
  output op out y K W s -> op ∉ footprint out y K W.
Proof. intros [[_ Hp] Ho _ _ _]. by eapply open_outside. Qed.

Lemma settle_spec op out y K W r s :
  output op out y K W s ->
  WP (settle op r) (fun _ s' => received op out y K W r s' /\ only_changed (ou_cells op out y K W) (sl_fds W) s s' /\
       trace s' = trace s ++ (pd_call out <$> K)) s.
Proof.
  intros Hou. pose proof (output_promise_outside _ _ _ _ _ _ Hou) as Hop. destruct Hou as [Hp Ho Hh Hr Hq].
  unfold settle. eapply wps_seq.
  { eapply (SetResult_first (body client) out op r y K W (fun _ => True) (fun _ => True) (eq [])); try done.
    intros k Hk. by apply observes_mannered, Hq. }
  simpl. intros _ s1 (Hs & [Hn Hp1] & Hw & Hk & Hrest & Hf & Htr%made_silent).
  unfold UfsrvPromiseDestroy. rewrite (is_null_false op) by done. wp_steps. simpl. wp_steps.
  assert (Hout : out <> op) by (intros ->; apply Hop; by left).
  pose proof (sf_fut _ _ _ Hs) as Hout1. pose proof (sf_null _ _ _ Hs) as Hn0.
  eapply wps_seq; [eapply (Release_shared _ out (complete_with r y)); [simpl; lk|done|simpl; lia]|].
  simpl. intros _ s2 ->. wp_steps.
  assert (Hcells : forall p, p ∈ footprint out y K W -> p <> op) by (intros p Hin ->; done).
  assert (Hwrap : wrap_i32 (fut_refcount y + -1) = (fut_refcount y - 1)%Z)
    by (rewrite wrap_i32_id; unfold int_range; lia).
  split_and!; [| |done]; split; simpl.
  - rewrite Hwrap. eapply settled_frame; [|eapply (settled_update _ out (complete_with r y)); [exact Hs|done..]].
    simpl. intros p Hin. assert (p <> op) by (apply Hcells; unfold footprint; simpl in *; set_solver).
    rewrite lookup_delete_ne by done. destruct (decide (p = out)) as [->|]; lk.
  - apply lookup_delete_eq.
  - intros w Hin. pose proof (Hw w Hin) as (Hfd & b & Hb & Hb'). split; [done|]. exists b. split; [|done].
    assert (sl_node w <> op) by (apply Hcells; by apply footprint_wait).
    assert (sl_node w <> out) by (intros Heq; rewrite Heq in Hb; congruence). lk.
  - intros p Hin. assert (p <> op).
    { apply list_elem_of_fmap in Hin as (k & -> & Hin). apply Hcells. by apply footprint_cont. }
    specialize (Hk p Hin). assert (p <> out) by congruence. lk.
  - intros p Hni. assert (p <> op /\ p <> out) as [].
    { split; intros ->; apply Hni; unfold ou_cells, footprint; set_solver. }
    lk. rewrite Hrest; [done|done|]. done.
  - intros fd Hni. by apply Hf.
Qed.

Lemma output_frame op out y K W s s' :
  (forall p, p ∈ ou_cells op out y K W -> heap s' !! p = heap s !! p) ->
  (forall fd, fd ∈ sl_fds W -> fds s' !! fd = fds s !! fd) ->
  output op out y K W s -> output op out y K W s'.
Proof.
  intros Hh Hf [[Hn Hp] Ho ???]. split; try done.
  - split; [done|]. rewrite Hh; [done|by left].
  - eapply open_frame; [|done|exact Ho]. intros p Hp'. apply Hh. by right.
Qed.

Lemma received_frame op out y K W r s s' :
  (forall p, p ∈ ou_cells op out y K W -> heap s' !! p = heap s !! p) ->
  (forall fd, fd ∈ sl_fds W -> fds s' !! fd = fds s !! fd) ->
  received op out y K W r s -> received op out y K W r s'.
Proof.
  intros Hh Hf []. split.
  - eapply settled_frame; [|done]. intros p Hp. apply Hh. unfold ou_cells, footprint. simpl in Hp. set_solver.
  - rewrite Hh; [done|by left].
  - intros w Hw. destruct (rv_woken0 w Hw) as (Hz & b & Hb & ?). split.
    + rewrite Hf; [done|]. by apply (list_elem_of_fmap_2 sl_fd).
    + exists b. split; [|done]. rewrite Hh; [done|]. right. by apply footprint_wait.
  - intros p Hp. rewrite Hh; [by apply rv_nodes0|]. apply list_elem_of_fmap in Hp as (k & -> & Hk).
    right. by apply footprint_cont.
Qed.

Lemma only_changed_weaken M M' F F' s s' :
  (forall p, p ∈ M -> p ∈ M') -> (forall fd, fd ∈ F -> fd ∈ F') -> only_changed M F s s' -> only_changed M' F' s s'.
Proof. intros HM HF [Hh Hf]. split; [intros p Hp; apply Hh; auto|intros fd Hp; apply Hf; auto]. Qed.
Lemma only_changed_same M F s s' : heap s' = heap s -> fds s' = fds s -> only_changed M F s s'.
Proof. intros Hh Hf. split; intros; by rewrite ?Hh, ?Hf. Qed.
Lemma only_changed_trans M F s1 s2 s3 :
  only_changed M F s1 s2 -> only_changed M F s2 s3 -> only_changed M F s1 s3.
Proof. intros [H1 F1] [H2 F2]. split; intros; rewrite ?H2, ?F2 by done; auto. Qed.

(** ** map *)
Definition map_calls (m : N) (u : ptr) (r : UfsrvFutureResult) : list code :=
  if bool_decide (res_error r <> 0)%Z then [] else [K_map m (res_value r) u].
(** What [map] makes of a result, the mapper computing [g]. *)
Definition map_result (g : ptr -> ptr) (fv : option free_fn) (r : UfsrvFutureResult) : UfsrvFutureResult :=
  if bool_decide (res_error r <> 0)%Z then error_result (res_error r)
  else if is_null (g (res_value r)) then error_result (-1)
  else MkResult 0 (g (res_value r)) fv.

Lemma map_cont_spec f r ctx op m u fv out y K W g s :
  published f r s -> ctx <> NULL -> heap s !! ctx = Some (OMapContext (MkMapContext op m u fv)) ->
  output op out y K W s ->
  (res_error r = 0%Z -> answers (K_map m (res_value r) u) (g (res_value r))) ->
  f ∉ ou_cells op out y K W ->
  WP (sMapContinuation f ctx)
    (fun _ s' => heap s' !! ctx = None /\ received op out y K W (map_result g fv r) s' /\
       only_changed (ctx :: ou_cells op out y K W) (sl_fds W) s s' /\
       trace s' = trace s ++ map_calls m u r ++ (pd_call out <$> K)) s.
Proof.
  intros (x & Hx & _ & Hr) Hc0 Hc Hou Hg Hf. unfold sMapContinuation, map_result, map_calls.
  assert (Hctx : ctx ∉ ou_cells op out y K W).
  { destruct Hou as [[_ Hp] Ho _ _ _]. unfold ou_cells. rewrite not_elem_of_cons. split; [congruence|].
    by eapply open_outside. }
  assert (Hend : forall r' s1 cs, heap s1 = heap s -> fds s1 = fds s -> trace s1 = trace s ++ cs ->
    WPS (bind (settle op r') (fun _ => free ctx ;; Ret NULL)%prog)
      (fun _ s' => heap s' !! ctx = None /\ received op out y K W r' s' /\
         only_changed (ctx :: ou_cells op out y K W) (sl_fds W) s s' /\
         trace s' = trace s ++ cs ++ (pd_call out <$> K)) (fun _ _ => False) (fun _ _ => False) s1).
  { intros r' s1 cs Hh1 Hf1 Ht1. eapply wps_seq.
    { eapply settle_spec. eapply output_frame; [| |exact Hou]; intros; by rewrite ?Hh1, ?Hf1. }
    simpl. intros _ s2 [Hrv [[Hrest Hfds] Ht2]].
    assert (Hc2 : heap s2 !! ctx = Some (OMapContext (MkMapContext op m u fv))) by (rewrite Hrest by done; by rewrite Hh1).
    wp_steps. split_and!; [apply lookup_delete_eq| | |simpl; by rewrite Ht2, Ht1, <- app_assoc].
    - eapply (received_frame _ _ _ _ _ _ s2); [|done|exact Hrv]. intros p Hp. simpl. apply lookup_delete_ne. by intros ->.
    - split; simpl.
      + intros p [? Hni]%not_elem_of_cons. rewrite lookup_delete_ne by done. rewrite Hrest by done. by rewrite Hh1.
      + intros fd Hni. rewrite Hfds by done. by rewrite Hf1. }
  wp_steps. rewrite Hr. case_bool_decide as He.
  - wp_steps. rewrite Hr. rewrite <- (app_nil_l (pd_call out <$> K)), ?app_nil_l.
    apply (Hend _ s []); [done..|]. by rewrite app_nil_r.
  - assert (res_error r = 0%Z) as He0 by lia. wp_steps. rewrite Hr.
    eapply wps_call_then; [by apply Hg|]. simpl. intros v s1 (-> & Hh1 & Hf1 & Ht1).
    destruct (is_null (g (res_value r))).
    + apply (Hend _ s1 [K_map m (res_value r) u]); done.
    + assert (heap s1 !! ctx = Some (OMapContext (MkMapContext op m u fv))) by by rewrite Hh1.
      wp_steps. rewrite <- bind_bind.
      apply (Hend (MkResult 0 (g (res_value r)) fv) s1 [K_map m (res_value r) u]); done.
Qed.

Lemma all_calls_quiet f calls K :
  (forall k, k ∈ K -> calls k = []) -> all_calls f calls K = pd_call f <$> K.
Proof.
  intros Hc. induction K as [|k K IH]; [done|]. rewrite all_calls_cons, Hc, IH by set_solver. done.
Qed.

(** ** Completing a future through an operator's continuation

    [k], among continuations that only observe, turns [Pre] into [Post], touching
    only the cells [M] and the eventfds [MF], and makes the calls [cs]. *)
Definition through_calls (k : pending) (cs : list code) : pending -> list code :=
  fun k' => if decide (pd_node k' = pd_node k) then cs else [].
Definition through_inv (K2 : list pending) (Pre Post : st -> Prop) : list pending -> st -> Prop :=
  fun L => if decide (length K2 < length L) then Pre else Post.

Lemma others_differ K1 k K2 k' : NoDup (pd_nodes (K1 ++ k :: K2)) -> k' ∈ K1 ++ K2 -> pd_node k' <> pd_node k.
Proof.
  unfold pd_nodes. rewrite fmap_app, fmap_cons. intros (_ & Hnd12 & [Hnk2 _]%NoDup_cons)%NoDup_app [H1|H2]%elem_of_app Heq.
  - apply (Hnd12 (pd_node k')); [by apply list_elem_of_fmap_2|]. rewrite Heq. by left.
  - apply Hnk2. rewrite <- Heq. by apply list_elem_of_fmap_2.
Qed.

Lemma through_all_calls f K1 k K2 cs :
  NoDup (pd_nodes (K1 ++ k :: K2)) ->
  all_calls f (through_calls k cs) (K1 ++ k :: K2) = (pd_call f <$> K1) ++ pd_call f k :: cs ++ (pd_call f <$> K2).
Proof.
  intros Hnd. unfold all_calls. rewrite bind_app, bind_cons.
  change (K1 ≫= _) with (all_calls f (through_calls k cs) K1). change (K2 ≫= _) with (all_calls f (through_calls k cs) K2).
  rewrite !all_calls_quiet; unfold through_calls.
  - by rewrite decide_True.
  - intros k' Hk'. rewrite decide_False; [done|]. eapply others_differ; [exact Hnd|]. set_solver +Hk'.
  - intros k' Hk'. rewrite decide_False; [done|]. eapply others_differ; [exact Hnd|]. set_solver +Hk'.
Qed.

(** Other continuations observe, and [P] with them. *)
Definition quietly (f : ptr) (k : pending) (P : st -> Prop) : Prop :=
  forall s1, P s1 -> WP (body client (pd_call f k))
    (fun _ s' => heap s' = heap s1 /\ fds s' = fds s1 /\ trace s' = trace s1 /\ P s') s1.
Lemma quiet_stable f k X Zs P : quiet (pd_call f k) -> stable X Zs P -> quietly f k P.
Proof.
  intros Hq HP s1 Hs1. eapply wp_mono; [apply Hq|]. simpl. intros _ s' (Hh & Hf & Ht). split_and!; try done.
  eapply HP; [| |exact Hs1]; intros; by rewrite ?Hh, ?Hf.
Qed.
Lemma quiet_keeps f k X Zs P : client_guar client -> quiet (pd_call f k) -> keeps X Zs P -> quietly f k P.
Proof.
  intros Hc Hq HP s1 Hs1. eapply wp_mono; [apply wp_evolves; [done|by apply body_guar_all|apply Hq]|].
  simpl. intros _ s' [(Hh & Hf & Ht) Hev]. split_and!; try done. eapply HP; [| |exact Hev|exact Hs1]; intros; by rewrite ?Hh, ?Hf.
Qed.

Lemma through_call f (Pub : st -> Prop) K1 k K2 (D : ptr -> Prop) (DF : Z -> Prop) cs (Pre Post : st -> Prop) :
  NoDup (pd_nodes (K1 ++ k :: K2)) ->
  (forall k' P, k' ∈ K1 ++ K2 -> P = Pre \/ P = Post -> quietly f k' P) ->
  (forall s1, Pub s1 -> Pre s1 -> WP (body client (pd_call f k))
     (fun _ s' => Post s' /\ (forall p, D p -> heap s' !! p = heap s1 !! p) /\
       (forall fd, DF fd -> fds s' !! fd = fds s1 !! fd) /\ trace s' = trace s1 ++ cs) s1) ->
  forall k' L s1, suffix (k' :: L) (K1 ++ k :: K2) -> Pub s1 -> through_inv K2 Pre Post (k' :: L) s1 ->
    WP (body client (pd_call f k')) (fun _ s' => (forall p, D p -> heap s' !! p = heap s1 !! p) /\
      (forall fd, DF fd -> fds s' !! fd = fds s1 !! fd) /\ through_inv K2 Pre Post L s' /\
      exists tr, [] = tr /\ made (eq []) (through_calls k cs k') (trace s1 ++ tr) (trace s')) s1.
Proof.
  intros Hnd Hq Hk.
  assert (Hquiet : forall k' L s1 P, k' ∈ K1 ++ K2 -> P s1 -> (P = Pre \/ P = Post) -> through_inv K2 Pre Post L = P ->
    WP (body client (pd_call f k')) (fun _ s' => (forall p, D p -> heap s' !! p = heap s1 !! p) /\
      (forall fd, DF fd -> fds s' !! fd = fds s1 !! fd) /\ through_inv K2 Pre Post L s' /\
      exists tr, [] = tr /\ made (eq []) (through_calls k cs k') (trace s1 ++ tr) (trace s')) s1).
  { intros k' L s1 P Hin HP Hor HI. eapply wp_mono; [by apply (Hq k' P)|]. simpl. intros _ s' (Hh' & Hf' & -> & HP').
    split_and!; [by rewrite Hh'|by rewrite Hf'|by rewrite HI|].
    exists []. split; [done|]. unfold through_calls. rewrite decide_False by by eapply others_differ.
    rewrite app_nil_r. apply made_nil. }
  intros k' L s1 [l Hl] Hpub HI.
  destruct (app_cons_places _ _ _ _ _ _ Hl) as [(m & Hm & ->)|[(-> & <- & <-)|(m & -> & Hm)]].
  - apply (Hquiet k' _ s1 Pre); [set_solver| |by left|].
    + unfold through_inv in HI. rewrite decide_True in HI; [done|]. simpl. rewrite length_app. simpl. lia.
    + unfold through_inv. rewrite decide_True; [done|]. rewrite length_app. simpl. lia.
  - unfold through_inv in HI. rewrite decide_True in HI by (simpl; lia).
    eapply wp_mono; [by apply Hk|]. simpl. intros _ s' (HPost & Hh' & Hf' & Htr). split_and!; try done.
    + unfold through_inv. by rewrite decide_False by lia.
    + exists []. split; [done|]. unfold through_calls. rewrite decide_True by done. rewrite app_nil_r, Htr.
      exists (replicate (length cs) []). split_and!; [by rewrite length_replicate|by apply Forall_replicate|].
      f_equal. unfold in_order. clear. induction cs as [|c cs IH]; simpl; [done|by f_equal].
  - apply (Hquiet k' _ s1 Post); [set_solver| |by right|].
    + unfold through_inv in HI. rewrite decide_False in HI; [done|]. rewrite Hm, length_app. simpl. lia.
    + unfold through_inv. rewrite decide_False; [done|]. rewrite Hm, length_app. simpl. lia.
Qed.

Lemma led_through f Pub X Zs K1 k K2 M MF cs (Pre Post : st -> Prop) :
  NoDup (pd_nodes (K1 ++ k :: K2)) -> (forall k', k' ∈ K1 ++ K2 -> quiet (pd_call f k')) ->
  (forall P, P = Pre \/ P = Post -> stable X Zs P) ->
  (forall s1, Pub s1 -> Pre s1 -> WP (body client (pd_call f k))
     (fun _ s' => Post s' /\ only_changed M MF s1 s' /\ trace s' = trace s1 ++ cs) s1) ->
  led (body client) Pub X Zs (fun p => p ∉ M) (fun fd => fd ∉ MF) (eq []) (through_calls k cs) f (K1 ++ k :: K2)
    (through_inv K2 Pre Post).
Proof.
  intros Hnd Hq Hst Hk. split; [intros L; unfold through_inv; case_decide; apply Hst; auto|].
  apply through_call; [done|intros k' P Hin HP; by eapply quiet_stable; [apply Hq|apply Hst]|].
  intros s1 H1 H2. eapply wp_mono; [by apply Hk|]. simpl. intros _ s' (? & [? ?] & ?). by split_and!.
Qed.

Lemma SetResult_through f prm r x K1 k K2 W M MF cs (Pre Post : st -> Prop) s :
  promise_at (heap s) prm f false ->
  open_future (heap s) (fds s) f x (K1 ++ k :: K2) W -> fut_cancel_handle x = NULL ->
  (forall p, p ∈ prm :: footprint f x (K1 ++ k :: K2) W -> p ∉ M) -> (forall fd, fd ∈ sl_fds W -> fd ∉ MF) ->
  (forall k', k' ∈ K1 ++ K2 -> quiet (pd_call f k')) ->
  (forall P, P = Pre \/ P = Post -> stable (prm :: footprint f x (K1 ++ k :: K2) W) (sl_fds W) P) ->
  (forall s1, published f r s1 -> Pre s1 -> WP (body client (pd_call f k))
     (fun _ s' => Post s' /\ only_changed M MF s1 s' /\ trace s' = trace s1 ++ cs) s1) ->
  Pre s ->
  WP (UfsrvPromiseSetResult prm r)
    (fun _ s' => settled_future (heap s') f (complete_with r x) /\ promise_at (heap s') prm f true /\
       (forall w, w ∈ W -> awake (heap s') (fds s') w) /\
       (forall p, p ∈ pd_nodes (K1 ++ k :: K2) -> heap s' !! p = None) /\ Post s' /\
       only_changed (M ++ prm :: footprint f x (K1 ++ k :: K2) W) (MF ++ sl_fds W) s s' /\
       trace s' = trace s ++ (pd_call f <$> K1) ++ pd_call f k :: cs ++ (pd_call f <$> K2)) s.
Proof.
  intros Hp Ho Hh HM HMF Hq Hst Hk HPre. pose proof (of_nodup_k _ _ _ _ _ _ Ho) as Hnd.
  eapply wp_mono; [eapply (SetResult_led (body client) f prm r x (K1 ++ k :: K2) W
    (fun p => p ∉ M) (fun fd => fd ∉ MF) (eq []) (through_calls k cs) (through_inv K2 Pre Post))|]; try done.
  - intros p Hp'. apply HM. by right.
  - apply HM. by left.
  - by apply led_through.
  - unfold through_inv. rewrite decide_True; [done|]. rewrite length_app. simpl. lia.
  - simpl. intros _ s' (Hs & Hp' & Hw & Hn & Hrest & Hf & Htr%made_silent & HI). split_and!; try done.
    + split.
      * intros p [? Hni]%not_elem_of_app. by apply Hrest.
      * intros fd [? Hni]%not_elem_of_app. by apply Hf.
    + by rewrite Htr, through_all_calls.
Qed.

(** The same when [k] also changes the cell of the future it is called on: [Pre] holds
    from the publication on. *)
Lemma SetResult_keeping f prm r x K1 k K2 W (D : ptr -> Prop) (DF : Z -> Prop) cs (Pre Post : st -> Prop) s :
  promise_at (heap s) prm f false ->
  open_future (heap s) (fds s) f x (K1 ++ k :: K2) W -> fut_cancel_handle x = NULL ->
  (forall p, p ∈ prm :: queue_cells x (K1 ++ k :: K2) W -> D p) -> (forall fd, fd ∈ sl_fds W -> DF fd) ->
  (forall k' P, k' ∈ K1 ++ K2 -> P = Pre \/ P = Post -> quietly f k' P) ->
  (forall P, P = Pre \/ P = Post -> keeps (queue_cells x (K1 ++ k :: K2) W) (sl_fds W) P) ->
  (forall s1, Pre s1 -> WP (body client (pd_call f k))
     (fun _ s' => Post s' /\ (forall p, D p -> heap s' !! p = heap s1 !! p) /\
       (forall fd, DF fd -> fds s' !! fd = fds s1 !! fd) /\ trace s' = trace s1 ++ cs) s1) ->
  (forall s1, heap s1 !! f = Some (OFuture (complete_with r x)) ->
     (forall p, p <> f -> p <> prm -> heap s1 !! p = heap s !! p) -> fds s1 = fds s -> evolves s s1 -> Pre s1) ->
  WP (UfsrvPromiseSetResult prm r)
    (fun _ s' => queues_closed (heap s') x /\ promise_at (heap s') prm f true /\
       (forall w, w ∈ W -> awake (heap s') (fds s') w) /\
       (forall p, p ∈ pd_nodes (K1 ++ k :: K2) -> heap s' !! p = None) /\ Post s' /\
       (forall p, D p -> p ∉ prm :: footprint f x (K1 ++ k :: K2) W -> heap s' !! p = heap s !! p) /\
       (forall fd, DF fd -> fd ∉ sl_fds W -> fds s' !! fd = fds s !! fd) /\
       trace s' = trace s ++ (pd_call f <$> K1) ++ pd_call f k :: cs ++ (pd_call f <$> K2)) s.
Proof.
  intros Hp Ho Hh HM HMF Hq Hst Hk HPre. pose proof (of_nodup_k _ _ _ _ _ _ Ho) as Hnd.
  eapply wp_mono; [eapply (SetResult_moving (body client) f prm r x (K1 ++ k :: K2) W
    D DF (eq []) (through_calls k cs) (through_inv K2 Pre Post))|]; try done.
  - intros p Hp'. apply HM. by right.
  - apply HM. by left.
  - split; [intros L; unfold through_inv; case_decide; apply Hst; auto|]. intros k' L s1 Hs HI.
    by apply (through_call f (fun _ => True) K1 k K2 D DF cs Pre Post); auto.
  - intros s1 ????. unfold through_inv. rewrite decide_True; [auto|]. rewrite length_app. simpl. lia.
  - simpl. intros _ s' (Hs & Hp' & Hw & Hn & Hrest & Hf & Htr%made_silent & HI). split_and!; try done.
    by rewrite Htr, through_all_calls.
Qed.

Lemma SetResult_moves f prm r x K1 k K2 W M MF cs (Pre Post : st -> Prop) s :
  promise_at (heap s) prm f false ->
  open_future (heap s) (fds s) f x (K1 ++ k :: K2) W -> fut_cancel_handle x = NULL ->
  (forall p, p ∈ prm :: queue_cells x (K1 ++ k :: K2) W -> p ∉ M) -> (forall fd, fd ∈ sl_fds W -> fd ∉ MF) ->
  (forall k', k' ∈ K1 ++ K2 -> quiet (pd_call f k')) ->
  (forall P, P = Pre \/ P = Post -> stable (queue_cells x (K1 ++ k :: K2) W) (sl_fds W) P) ->
  (forall s1, Pre s1 -> WP (body client (pd_call f k))
     (fun _ s' => Post s' /\ only_changed M MF s1 s' /\ trace s' = trace s1 ++ cs) s1) ->
  (forall s1, heap s1 !! f = Some (OFuture (complete_with r x)) ->
     (forall p, p <> f -> p <> prm -> heap s1 !! p = heap s !! p) -> fds s1 = fds s -> Pre s1) ->
  WP (UfsrvPromiseSetResult prm r)
    (fun _ s' => queues_closed (heap s') x /\ promise_at (heap s') prm f true /\
       (forall w, w ∈ W -> awake (heap s') (fds s') w) /\
       (forall p, p ∈ pd_nodes (K1 ++ k :: K2) -> heap s' !! p = None) /\ Post s' /\
       only_changed (M ++ prm :: footprint f x (K1 ++ k :: K2) W) (MF ++ sl_fds W) s s' /\
       trace s' = trace s ++ (pd_call f <$> K1) ++ pd_call f k :: cs ++ (pd_call f <$> K2)) s.
Proof.
  intros Hp Ho Hh HM HMF Hq Hst Hk HPre.
  eapply wp_mono; [eapply (SetResult_keeping f prm r x K1 k K2 W (fun p => p ∉ M) (fun fd => fd ∉ MF) cs Pre Post); try done|].
  - intros k' P Hin HP. by eapply quiet_stable; [apply Hq|apply Hst].
  - intros P HP. by apply stable_keeps, Hst.
  - intros s1 H1. eapply wp_mono; [by apply Hk|]. simpl. intros _ s' (? & [? ?] & ?). by split_and!.
  - auto.
  - simpl. intros _ s' (? & ? & ? & ? & ? & Hrest & Hf & ?). split_and!; try done. split.
    + intros p [? Hni]%not_elem_of_app. by apply Hrest.
    + intros fd [? Hni]%not_elem_of_app. by apply Hf.
Qed.

(** ** Setting an operator up *)

(** Giving up a pair nobody has seen. *)
Lemma abandon_spec op out c w s :
  output op out (new_future c w) [] [] s -> NoDup [op; out; c; w] ->
  WP (abandon op out)
    (fun _ s' => (forall p, p ∈ [op; out; c; w] -> heap s' !! p = None) /\
       (forall p, p ∉ [op; out; c; w] -> heap s' !! p = heap s !! p) /\ fds s' = fds s /\ trace s' = trace s) s.
Proof.
  intros [[Hn Hp] Ho _ _ _] Hnd. unfold abandon, UfsrvPromiseDestroy. rewrite (is_null_false op) by done.
  pose proof Hnd as [Hop [Hout [Hcw _]%NoDup_cons]%NoDup_cons]%NoDup_cons.
  wp_steps. simpl. wp_steps. eapply wps_seq.
  { apply (sFutureComplete_spec (body client) out (error_result EPIPE) (new_future c w) [] [] (fun _ => True) (fun _ => True) (eq []));
      try done; simpl; [by eapply open_store_promise|by intros k ?%elem_of_nil]. }
  simpl. intros won s1 (_ & Hs & _ & _ & Hrest & Hf & Htr%made_silent). wp_steps. rewrite app_nil_r in Htr.
  assert (Hp1 : heap s1 !! op = Some (OPromise (MkPromise out true))).
  { rewrite Hrest; [simpl; lk|done|]. unfold footprint. simpl. set_solver. }
  wp_steps. eapply wps_seq; [eapply (Release_shared _ out); [by apply Hs|by apply Hs|done]|].
  simpl. intros _ s2 ->. assert (out <> op) by set_solver. wp_steps.
  eapply wps_seq.
  { eapply (Release_last _ out (set_fut_refcount (wrap_i32 (2 + -1)) (complete_with (error_result EPIPE) (new_future c w))) (fun _ => True) (fun _ => True) (eq [])); [|done|done|done|by intros ? ?%elem_of_nil].
    eapply settled_frame; [|eapply (settled_update _ out (complete_with (error_result EPIPE) (new_future c w))); [exact Hs|done..]].
    simpl. intros p Hin. rewrite lookup_delete_ne; [|set_solver]. destruct (decide (p = out)) as [->|]; simpl; lk. }
  simpl. intros [] s3 (Hg3 & Hr3 & Hf3 & Htr3%made_silent). apply wps_ret. split_and!.
  - intros p [->|Hin]%elem_of_cons; [|by apply Hg3]. rewrite Hr3 by (done || set_solver). apply lookup_delete_eq.
  - intros p [? Hin]%not_elem_of_cons. rewrite Hr3 by done. assert (p <> out) by set_solver.
    lk. rewrite Hrest; [simpl; lk|done|]. unfold footprint. simpl. set_solver.
  - apply map_eq. intros fd. rewrite Hf3 by done. simpl. apply Hf; [done|apply not_elem_of_nil].
  - rewrite Htr3. simpl. rewrite app_nil_r. by rewrite Htr.
Qed.

(** The shape the operators share: a pair, a context that names the promise, and
    the continuation registered on the input; then the output inherits the input's
    token. *)
Definition operator_pair {T} `{!Cell T} (mk : ptr -> T) (prep : ptr -> cprog unit) (cb : fut_cb) (f : ptr) : cprog (option ptr) :=
  let! pf := UfsrvPromiseCreate false in
  if is_null pf.1 then Ret None
  else
    let! ctx := alloc (mk pf.1) in
    if is_null ctx then abandon pf.1 pf.2 ;; Ret None
    else
      prep ctx ;;
      let! ok := sFutureThen f (Some cb) ctx in
      if negb ok then free ctx ;; abandon pf.1 pf.2 ;; Ret None
      else Ret (Some pf.2).
Definition operator_prog {T} `{!Cell T} (mk : ptr -> T) (prep : ptr -> cprog unit) (cb : fut_cb) (f : ptr) : cprog ptr :=
  let! pf := UfsrvPromiseCreate false in
  if is_null pf.1 then Ret NULL
  else
    let! ctx := alloc (mk pf.1) in
    if is_null ctx then abandon pf.1 pf.2 ;; Ret NULL
    else
      prep ctx ;;
      let! ok := sFutureThen f (Some cb) ctx in
      if negb ok then free ctx ;; abandon pf.1 pf.2 ;; Ret NULL
      else inherit_token f pf.2.

Lemma operator_split {T} `{!Cell T} (mk : ptr -> T) prep cb f :
  operator_prog mk prep cb f =
  bind (operator_pair mk prep cb f) (fun o => match o with None => Ret NULL | Some out => inherit_token f out end).
Proof.
  unfold operator_prog, operator_pair. rewrite bind_bind. f_equal. apply functional_extensionality. intros pf.
  destruct (is_null pf.1); [done|]. rewrite bind_bind. f_equal. apply functional_extensionality. intros ctx.
  destruct (is_null ctx); [by rewrite bind_bind|]. rewrite !bind_bind. f_equal. apply functional_extensionality. intros [].
  f_equal. apply functional_extensionality. intros [|]; [done|]. simpl. by rewrite !bind_bind.
Qed.

(** The operator is in place, apart from what the cells [X] hold: [n] is its node on
    [f]. *)
Record installed {T} `{!Cell T} (mk : ptr -> T) (cb : fut_cb) (f : ptr) (x : UfsrvFuture) K W (X : list ptr)
    (op out c w ctx n : ptr) (s s' : st) : Prop := {
  in_output : output op out (new_future c w) [] [] s';
  in_ctx : ctx <> NULL /\ heap s' !! ctx = Some (cell_inj (mk op));
  in_input : open_future (heap s') (fds s') f x (Pend n cb ctx :: K) W;
  in_fresh p : p ∈ [op; out; c; w; ctx; n] -> heap s !! p = None;
  in_nodup : NoDup [op; out; c; w; ctx; n];
  in_rest p : p ∉ [op; out; c; w; ctx; n] -> p <> fut_continuations x -> p ∉ X -> heap s' !! p = heap s !! p;
}.

Lemma new_output op out c w s :
  promise_at (heap s) op out false -> open_future (heap s) (fds s) out (new_future c w) [] [] ->
  output op out (new_future c w) [] [] s.
Proof. intros Hp Ho. split; try done. by intros k ?%elem_of_nil. Qed.

(** All or nothing, and nothing only for want of memory. *)
Definition set_up {T} `{!Cell T} (mk : ptr -> T) cb f x K W (s : st) (p : cprog ptr) : Prop :=
  WP p (fun out s' => fds s' = fds s /\ trace s' = trace s /\
    ((out = NULL /\ oracle s <> [] /\ forall q, heap s' !! q = heap s !! q) \/
     exists op c w ctx n, installed mk cb f x K W [] op out c w ctx n s s')) s.

(** Two specifications, one of them for when memory is not exhausted. *)
Lemma wp_or_oom {A} (p : cprog A) (Q R : A -> st -> Prop) s :
  WP p Q s -> (oracle s = [] -> WP p R s) -> WP p (fun a s' => (oracle s = [] -> R a s') /\ Q a s') s.
Proof.
  intros HQ HR. destruct (decide (oracle s = [])) as [Ho|Ho].
  - eapply wp_mono; [apply (wp_det _ _ _ _ _ _ HQ (HR Ho))|]. simpl. naive_solver.
  - eapply wp_mono; [exact HQ|]. simpl. naive_solver.
Qed.

Lemma PromiseCreate_plenty s :
  wf_alloc s -> oracle s = [] -> WP (UfsrvPromiseCreate false) (fun pf s' => pf.1 <> NULL /\ oracle s' = []) s.
Proof.
  intros [Hpos _] Ho. unfold UfsrvPromiseCreate, lockless_treiber_stack_create.
  assert (Hn0 : forall k, (next_ptr s + k)%N <> NULL) by (unfold NULL; lia).
  assert (Hn00 : next_ptr s <> NULL) by (unfold NULL; lia).
  wp_steps. apply wps_alloc_ok; [done|]. rewrite (is_null_false (next_ptr s)) by done. wp_steps.
  apply wps_alloc_ok; [done|]. simpl. rewrite (is_null_false (next_ptr s + 1)%N) by apply Hn0. wp_steps.
  apply wps_alloc_ok; [done|]. simpl. wp_steps. apply wps_alloc_ok; [done|]. simpl. wp_steps.
  rewrite (is_null_false (next_ptr s + 1 + 1)%N), (is_null_false (next_ptr s + 1 + 1 + 1)%N) by (unfold NULL; lia).
  simpl. wp_steps. split; [apply Hn0|exact Ho].
Qed.

Lemma sFutureThen_plenty f fn ctx x K W s :
  wf_alloc s -> open_future (heap s) (fds s) f x K W -> oracle s = [] ->
  WP (sFutureThen f (Some fn) ctx) (fun ok _ => ok = true) s.
Proof.
  intros [Hpos Hwf] Ho Hor. pose proof Ho as []. destruct of_conts as (Hc0 & ks & Hks & Hksn & Hksc).
  assert (Hnew : heap s !! next_ptr s = None) by (apply Hwf; lia).
  unfold sFutureThen, future_is_ready, sPushContinuation, lockless_treiber_stack_push.
  rewrite (is_null_false f) by done. wp_steps. rewrite of_pending. simpl.
  apply wps_alloc_ok; [done|]. rewrite (is_null_false (next_ptr s)) by (unfold NULL; lia).
  set (n := next_ptr s) in *. clearbody n. simpl. wp_steps.
  rewrite ts_push_accepts, Hksc. simpl. unfold sNodeRelease, cont_release. wp_steps.
  rewrite tn_release_last, tn_init_refs. simpl. by wp_steps.
Qed.


(** *** The pair *)
Record made_pair (op out c w : ptr) (s s1 : st) : Prop := {
  mp_output : output op out (new_future c w) [] [] s1;
  mp_nodup : NoDup [op; out; c; w];
  mp_fresh p : p ∈ [op; out; c; w] -> heap s !! p = None;
  mp_rest p : p ∉ [op; out; c; w] -> heap s1 !! p = heap s !! p;
  mp_fds : fds s1 = fds s;
  mp_trace : trace s1 = trace s;
}.

Lemma made_pair_live op out c w s s1 p : made_pair op out c w s s1 -> p ∈ [op; out; c; w] -> is_Some (heap s1 !! p).
Proof.
  intros [[[Hp0 Hp] Ho _ _ _] _ _ _ _ _] Hin. destruct (decide (p = op)) as [->|]; [eauto|].
  eapply open_allocated; [exact Ho|]. unfold footprint. simpl. set_solver.
Qed.

Lemma create_pair s :
  client_guar client -> wf_machine s ->
  WP (UfsrvPromiseCreate false)
    (fun pf s1 => wf_machine s1 /\ (oracle s = [] -> oracle s1 = []) /\
       ((pf = (NULL, NULL) /\ oracle s <> [] /\ heap s1 = heap s /\ fds s1 = fds s /\ trace s1 = trace s) \/
        (pf.1 <> NULL /\ exists c w, made_pair pf.1 pf.2 c w s s1))) s.
Proof.
  intros Hc Hwf. eapply wp_mono.
  { apply wp_evolves; [done|apply (api_guar _ _ (api_promise_create _))|].
    apply wp_or_oom; [apply PromiseCreate_spec, Hwf|apply PromiseCreate_plenty, Hwf]. }
  intros pf s1 [[Hplenty (Ht1 & Hf1 & Hcase)] Hev]. specialize (Hev Hwf). split; [apply Hev|]. split; [apply Hev|].
  destruct Hcase as [[-> Hh1]|(c & w & Ho1 & Hp1 & Hnd & Hnew & Hrest)]; [left|right].
  - split_and!; try done. intros Hor. by apply Hplenty.
  - split; [apply Hp1|]. exists c, w. split; try done. by apply new_output.
Qed.

(** Giving the pair up, whatever became of the cells [X] in between. *)
Lemma give_pair_up {A} (a : A) op out c w (X : list ptr) s s1 s2 :
  made_pair op out c w s s1 -> (forall p, p ∈ [op; out; c; w] -> p ∉ X) ->
  (forall p, p ∈ [op; out; c; w] -> heap s2 !! p = heap s1 !! p) ->
  (forall p, p ∉ [op; out; c; w] -> p ∉ X -> heap s2 !! p = heap s !! p) -> fds s2 = fds s -> trace s2 = trace s ->
  WP (abandon op out ;; Ret a)%prog
    (fun a' s' => a' = a /\ fds s' = fds s /\ trace s' = trace s /\
       (forall p, p ∉ X -> heap s' !! p = heap s !! p) /\ (forall p, p ∈ X -> heap s' !! p = heap s2 !! p)) s2.
Proof.
  intros [Hou Hnd Hnew Hrest Hf1 Ht1] HX Hin Hout Hf Ht. eapply wps_seq; [eapply (abandon_spec op out c w)|].
  - eapply output_frame; [exact Hin|intros; by rewrite Hf, Hf1|exact Hou].
  - done.
  - simpl. intros _ s3 (Hg & Hs & Hf3 & Ht3). apply wps_ret. split_and!; [done|congruence..| |].
    + intros p Hp. destruct (decide (p ∈ [op; out; c; w])); [rewrite Hg, Hnew by done; done|]. rewrite Hs by done. by apply Hout.
    + intros p Hp. apply Hs. intros Hin'. by apply (HX p).
Qed.

(** What preparing the context does to it and to the cells [X]. *)
Definition prepares {T} `{!Cell T} (mk mk' : ptr -> T) (prep : ptr -> cprog unit) f X (hX : ptr -> option obj) s : Prop :=
  forall op ctx u, heap u !! ctx = Some (cell_inj (mk op)) -> ctx ∉ f :: X -> (forall p, p ∈ f :: X -> heap u !! p = heap s !! p) ->
    WP (prep ctx) (fun _ u' => heap u' !! ctx = Some (cell_inj (mk' op)) /\ off (ctx :: X) u u' /\ trace u' = trace u /\
      forall p, p ∈ X -> heap u' !! p = hX p) u.

Definition pair_post {T} `{!Cell T} (mk' : ptr -> T) cb f x K W X (hX : ptr -> option obj) s (o : option ptr) s' : Prop :=
  fds s' = fds s /\ trace s' = trace s /\
  ((o = None /\ oracle s <> [] /\ (forall p, p ∉ X -> heap s' !! p = heap s !! p) /\
    ((forall p, p ∈ X -> heap s' !! p = heap s !! p) \/ (forall p, p ∈ X -> heap s' !! p = hX p))) \/
   (exists op out c w ctx n, o = Some out /\ installed mk' cb f x K W X op out c w ctx n s s' /\
      forall p, p ∈ X -> heap s' !! p = hX p)).

(** The last step: what [sFutureThen] leaves is an operator in place. *)
Lemma pair_placed {T} `{!Cell T} (mk' : ptr -> T) cb f x K W X op out c w ctx n s s1 s2 s3 :
  made_pair op out c w s s1 -> ctx <> NULL -> heap s1 !! ctx = None -> heap s !! ctx = None ->
  heap s2 !! ctx = Some (cell_inj (mk' op)) ->
  (forall p, p ∉ ctx :: X -> heap s2 !! p = heap s1 !! p) -> (forall p, p ∈ X -> is_Some (heap s !! p)) ->
  heap s2 !! n = None -> (forall p, p ∈ X -> is_Some (heap s2 !! p)) -> is_Some (heap s !! fut_continuations x) ->
  open_future (heap s3) (fds s3) f x (Pend n cb ctx :: K) W ->
  (forall p, p <> n -> p <> fut_continuations x -> heap s3 !! p = heap s2 !! p) -> fds s3 = fds s ->
  installed mk' cb f x K W X op out c w ctx n s s3.
Proof.
  intros Hmp Hc0 Hc1 Hcs Hctx Hs2 HX Hn HX2 Hcon Ho3 Hs3 Hf3. pose proof Hmp as [Hou Hnd Hnew Hrest Hf1 _].
  pose proof (fun p => made_pair_live _ _ _ _ _ _ p Hmp) as Hlive.
  assert (Hcn : ctx ∉ [op; out; c; w]) by (intros Hp; destruct (Hlive _ Hp); congruence).
  assert (HXn : forall p, p ∈ [op; out; c; w] -> p ∉ X) by (intros p Hp Hx; destruct (HX p Hx); specialize (Hnew p Hp); congruence).
  assert (Hold : forall p, p ∈ [op; out; c; w] -> heap s2 !! p = heap s1 !! p).
  { intros p Hp. apply Hs2. rewrite not_elem_of_cons. split; [by intros ->|by apply HXn]. }
  assert (Hnn : n ∉ [op; out; c; w]) by (intros Hp; destruct (Hlive n Hp); rewrite Hold in Hn by done; congruence).
  assert (Hnc : n <> ctx) by congruence.
  assert (HnX : n ∉ X) by (intros Hx; destruct (HX2 n Hx); congruence).
  assert (Hns : heap s !! n = None) by (rewrite <- Hrest, <- Hs2; [done|by apply not_elem_of_cons|done]).
  assert (Hout3 : forall p, p ∈ [op; out; c; w] -> heap s3 !! p = heap s1 !! p).
  { intros p Hp. rewrite Hs3; [by apply Hold|by intros ->|]. intros ->. destruct Hcon. specialize (Hnew _ Hp). congruence. }
  assert (Hsplit : forall p, p ∈ [op; out; c; w; ctx; n] <-> p ∈ [op; out; c; w] \/ p = ctx \/ p = n) by set_solver +.
  split; try done.
  - eapply output_frame; [exact Hout3|by intros ? ?%elem_of_nil|exact Hou].
  - split; [done|]. rewrite Hs3; [done|congruence|]. destruct Hcon. congruence.
  - intros p [Hp|[->| ->]]%Hsplit; [by apply Hnew|done|done].
  - change [op; out; c; w; ctx; n] with ([op; out; c; w] ++ [ctx; n]). apply NoDup_app. split_and!; [done| |].
    + intros p Hp [->|[->|?%elem_of_nil]%elem_of_cons]%elem_of_cons; done.
    + apply NoDup_cons. split; [by intros ?%list_elem_of_singleton|apply NoDup_singleton].
  - intros p Hp Hpc HpX. rewrite Hsplit in Hp. rewrite Hs3 by naive_solver. rewrite Hs2 by (apply not_elem_of_cons; naive_solver).
    apply Hrest. naive_solver.
Qed.

(** Giving up on the way. *)
Lemma pair_undone {T} `{!Cell T} (mk' : ptr -> T) cb f x K W X hX op out c w s s1 s2 :
  made_pair op out c w s s1 -> (forall p, p ∈ X -> is_Some (heap s !! p)) ->
  (forall p, p ∈ [op; out; c; w] -> heap s2 !! p = heap s1 !! p) ->
  (forall p, p ∉ [op; out; c; w] -> p ∉ X -> heap s2 !! p = heap s !! p) -> fds s2 = fds s -> trace s2 = trace s ->
  ((forall p, p ∈ X -> heap s2 !! p = heap s !! p) \/ (forall p, p ∈ X -> heap s2 !! p = hX p)) -> oracle s <> [] ->
  WP (abandon op out ;; Ret None)%prog (pair_post mk' cb f x K W X hX s) s2.
Proof.
  intros Hmp HX ???? HX2 Hor. assert (HXn : forall p, p ∈ [op; out; c; w] -> p ∉ X).
  { intros p Hp Hx. destruct (HX p Hx). pose proof (mp_fresh _ _ _ _ _ _ Hmp p Hp). congruence. }
  eapply wp_mono; [by eapply (give_pair_up None op out c w X)|].
  intros ? s' (-> & ? & ? & HnX & HXs). split_and!; [done..|]. left. split_and!; [done..|].
  destruct HX2 as [HX2|HX2]; [left|right]; intros p Hp; rewrite HXs by done; by apply HX2.
Qed.

(** Registering the continuation of a context [ctx] that has been prepared. *)
Lemma pair_registers {T} `{!Cell T} (mk' : ptr -> T) cb f x K W X hX op out c w ctx s s1 s3 :
  made_pair op out c w s s1 -> open_future (heap s) (fds s) f x K W ->
  (forall p, p ∈ X -> is_Some (heap s !! p) /\ is_Some (hX p)) -> (forall p, p ∈ footprint f x K W -> p ∉ X) ->
  ctx <> NULL -> heap s1 !! ctx = None -> heap s !! ctx = None -> ctx ∉ X ->
  wf_alloc s3 -> heap s3 !! ctx = Some (cell_inj (mk' op)) -> (forall p, p ∉ ctx :: X -> heap s3 !! p = heap s1 !! p) ->
  (forall p, p ∈ X -> heap s3 !! p = hX p) -> fds s3 = fds s -> trace s3 = trace s -> (oracle s = [] -> oracle s3 = []) ->
  WP (let! ok := sFutureThen f (Some cb) ctx in
      if negb ok then free ctx ;; abandon op out ;; Ret None else Ret (Some out))%prog (pair_post mk' cb f x K W X hX s) s3.
Proof.
  intros Hmp Ho HXX HfX Hctx0 Hctx Hctxs HctxX Hwf3 Hc3 Hh3 HX3 Hf3 Ht3 Hor3. pose proof Hmp as [_ _ Hnew Hrest _ _].
  assert (HX : forall p, p ∈ X -> is_Some (heap s !! p)) by (intros; by apply HXX).
  assert (Hpn : forall p, p ∈ [op; out; c; w] -> p <> ctx) by (intros p Hp ->; destruct (made_pair_live _ _ _ _ _ _ _ Hmp Hp); congruence).
  assert (HXn : forall p, p ∈ [op; out; c; w] -> p ∉ X) by (intros p Hp Hx; destruct (HX p Hx); specialize (Hnew p Hp); congruence).
  assert (Ho3 : open_future (heap s3) (fds s3) f x K W).
  { eapply open_frame; [|intros; by rewrite Hf3|exact Ho]. intros p Hp. destruct (open_allocated _ _ _ _ _ _ _ Ho Hp) as [o Hs].
    rewrite Hh3, Hrest; [done|intros Hx; by rewrite Hnew in Hs|]. apply not_elem_of_cons. split; [congruence|by apply HfX]. }
  eapply wps_seq.
  { apply wp_or_oom; [by apply (sFutureThen_open (body client) f cb ctx x K W s3)|by eapply (sFutureThen_plenty f cb ctx x K W)]. }
  intros ok s4 (Hok & Ht4 & Hf4 & [[-> Hh4]|(-> & n & Hn & Ho4 & Hs4)]).
  - simpl. assert (Hc4 : heap s4 !! ctx = Some (cell_inj (mk' op))) by by rewrite Hh4.
    eapply wps_free; [done|exact Hc4|]. eapply pair_undone; try done; simpl; rewrite ?Hh4.
    + intros p Hp. rewrite lookup_delete_ne by (intros <-; by apply (Hpn ctx)). apply Hh3. apply not_elem_of_cons. auto.
    + intros p Hp HpX. destruct (decide (p = ctx)) as [->|]; [by rewrite lookup_delete_eq|].
      rewrite lookup_delete_ne, Hh3 by (done || by apply not_elem_of_cons). by apply Hrest.
    + by rewrite Hf4, Hf3.
    + by rewrite Ht4, Ht3.
    + right. intros p Hp. rewrite lookup_delete_ne by (by intros <-). by apply HX3.
    + intros Hs. specialize (Hok (Hor3 Hs)). done.
  - simpl. apply wps_ret. split_and!; [by rewrite Hf4, Hf3|by rewrite Ht4, Ht3|]. right. exists op, out, c, w, ctx, n.
    assert (Hcon : fut_continuations x ∈ footprint f x K W) by (unfold footprint; set_solver +).
    split; [done|]. split.
    + eapply (pair_placed mk' cb f x K W X op out c w ctx n s s1 s3); try done; [|by eapply open_allocated|by rewrite Hf4, Hf3].
      intros p Hp. rewrite HX3 by done. by apply HXX.
    + intros p Hp. rewrite Hs4; [by apply HX3|intros ->; rewrite HX3 in Hn by done; destruct (HXX n Hp) as [_ [? ?]]; congruence|].
      intros ->. by apply (HfX (fut_continuations x)).
Qed.

Lemma operator_pair_spec {T} `{!Cell T} (mk mk' : ptr -> T) prep cb f x K W X hX s :
  client_guar client -> wf_machine s -> open_future (heap s) (fds s) f x K W ->
  (forall p, p ∈ X -> is_Some (heap s !! p) /\ is_Some (hX p)) -> (forall p, p ∈ footprint f x K W -> p ∉ X) ->
  prepares mk mk' prep f X hX s ->
  WP (operator_pair mk prep cb f) (pair_post mk' cb f x K W X hX s) s.
Proof.
  intros Hc Hwf Ho HXX HfX Hprep. assert (HX : forall p, p ∈ X -> is_Some (heap s !! p)) by (intros; by apply HXX). unfold operator_pair. eapply wps_seq; [by apply create_pair|].
  intros [op out] s1 (Hwm1 & Hplenty & [([= -> ->] & Hor & Hh1 & Hf1 & Ht1)|(Hop & c & w & Hmp)]); simpl in *.
  { change (is_null NULL) with true. apply wps_ret. split_and!; [done..|]. left. split_and!; [done..| |left]; by rewrite Hh1. }
  rewrite (is_null_false op) by done. pose proof (wm_alloc _ Hwm1) as Hwf1. pose proof Hwf1 as [Hpos Hfresh].
  pose proof Hmp as [Hou Hnd Hnew Hrest Hf1 Ht1].
  assert (Hlive : forall p, is_Some (heap s !! p) -> p ∉ [op; out; c; w] /\ heap s1 !! p = heap s !! p).
  { intros p [o Hp]. assert (p ∉ [op; out; c; w]) by (intros Hin; specialize (Hnew p Hin); congruence). split; [done|by apply Hrest]. }
  apply wps_alloc_or_oom; [done|..]; intros o.
  { intros Hor. change (is_null NULL) with true. eapply pair_undone; simpl; try done; [intros; by apply Hrest| |intros ?; by apply Hor, Hplenty].
    left. intros p Hp. by apply Hlive, HX. }
  intros Hor. set (ctx := next_ptr s1). assert (Hctx0 : ctx <> NULL) by (unfold ctx, NULL; lia). rewrite (is_null_false ctx) by done.
  assert (Hctx : heap s1 !! ctx = None) by (apply Hfresh; unfold ctx; lia). set (s2 := with_next_ptr _ _).
  assert (Hs2 : forall p, p <> ctx -> heap s2 !! p = heap s1 !! p) by (intros; simpl; lk).
  assert (Hctxs : heap s !! ctx = None).
  { rewrite <- Hrest; [done|]. intros Hin. destruct (made_pair_live _ _ _ _ _ _ _ Hmp Hin). congruence. }
  assert (Hold : forall p, is_Some (heap s !! p) -> heap s2 !! p = heap s !! p).
  { intros p Hp. rewrite Hs2; [by apply Hlive|]. intros ->. destruct Hp. congruence. }
  assert (Hcc : heap s2 !! ctx = Some (cell_inj (mk op))) by (simpl; lk).
  assert (Hcf : ctx ∉ f :: X).
  { apply not_elem_of_cons. split; [pose proof (of_fut _ _ _ _ _ _ Ho); congruence|]. intros Hx. destruct (HX _ Hx). congruence. }
  eapply wps_seq; [apply (Hprep op ctx s2 Hcc Hcf)|].
  { intros p [->|Hp]%elem_of_cons; apply Hold; [pose proof (of_fut _ _ _ _ _ _ Ho); eauto|by apply HX]. }
  intros [] s3 (Hc3 & Hoff & Ht3 & HX3). pose proof (off_heap _ _ _ Hoff) as Hh3. pose proof (se_fds _ _ (off_env _ _ _ Hoff)) as Hf3.
  assert (Hwf3 : wf_alloc s3).
  { pose proof (wf_alloc_new (mk op) o s1 Hwf1) as [? Hfr]. split; [by rewrite (off_next _ _ _ Hoff)|].
    intros p. rewrite (off_next _ _ _ Hoff). intros Hp. apply (off_none _ _ _ Hoff). by apply Hfr. }
  eapply (pair_registers mk' cb f x K W X hX op out c w ctx s s1 s3); try done.
  - intros Hx. apply Hcf. by right.
  - intros p Hp. rewrite Hh3 by done. apply Hs2. by apply not_elem_of_cons in Hp as [? _].
  - by rewrite Hf3.
  - by rewrite Ht3.
  - intros Hs. rewrite (off_oracle _ _ _ Hoff). by apply Hor, Hplenty.
Qed.

(** Without a token to inherit, that is all. *)
Lemma operator_spec {T} `{!Cell T} (mk : ptr -> T) prep cb f x K W s :
  client_guar client -> wf_machine s -> open_future (heap s) (fds s) f x K W -> fut_cancel_token x = NULL ->
  prepares mk mk prep f [] (fun _ => None) s ->
  set_up mk cb f x K W s (operator_prog mk prep cb f).
Proof.
  intros Hc Hwf Ho Htok Hprep. unfold set_up. rewrite operator_split. eapply wps_seq.
  { apply (operator_pair_spec mk mk prep cb f x K W [] (fun _ => None)); try done; intros p; [by intros ?%elem_of_nil|intros _; apply not_elem_of_nil]. }
  intros r s1 (Hf & Ht & [(-> & Hor & Hh & _)|(op & out & c & w & ctx & n & -> & Hin & _)]).
  - apply wps_ret. split_and!; [done..|]. left. split_and!; [done..|]. intros p. apply Hh, not_elem_of_nil.
  - unfold inherit_token. pose proof (of_fut _ _ _ _ _ _ (in_input _ _ _ _ _ _ _ _ _ _ _ _ _ _ _ Hin)) as Hfx. wp_steps. rewrite Htok.
    change (is_null NULL) with true. simpl. wp_steps. split_and!; [done..|]. right. by exists op, c, w, ctx, n.
Qed.

Lemma off_refl X s : off X s s.
Proof. by split. Qed.

(** A context that is complete when allocated. *)
Lemma prepares_nothing {T} `{!Cell T} (mk : ptr -> T) f s : prepares mk mk (fun _ => Ret tt) f [] (fun _ => None) s.
Proof. intros op ctx u Hctx _ _. apply wps_ret. split_and!; [done|by apply off_refl|done|by intros p ?%elem_of_nil]. Qed.

Lemma map_set_up f m u fv x K W s :
  client_guar client -> wf_machine s -> open_future (heap s) (fds s) f x K W -> fut_cancel_token x = NULL ->
  set_up (fun op => MkMapContext op m u fv) CB_sMapContinuation f x K W s (sFutureMap f (Some m) u fv).
Proof.
  intros Hc Hwf Ho Ht. unfold sFutureMap. rewrite (is_null_false f) by apply Ho.
  by apply (operator_spec (fun op => MkMapContext op m u fv) (fun _ => Ret tt)); [..|apply prepares_nothing].
Qed.
Lemma on_error_set_up f m u x K W s :
  client_guar client -> wf_machine s -> open_future (heap s) (fds s) f x K W -> fut_cancel_token x = NULL ->
  set_up (fun op => MkOnErrorContext op m u f) CB_sOnErrorContinuation f x K W s (UfsrvFutureOnError f (Some m) u).
Proof.
  intros Hc Hwf Ho Ht. unfold UfsrvFutureOnError. rewrite (is_null_false f) by apply Ho.
  by apply (operator_spec (fun op => MkOnErrorContext op m u f) (fun _ => Ret tt)); [..|apply prepares_nothing].
Qed.
Lemma on_success_set_up f m u x K W s :
  client_guar client -> wf_machine s -> open_future (heap s) (fds s) f x K W -> fut_cancel_token x = NULL ->
  set_up (fun op => MkDoOnSuccessContext op m u f) CB_sDoOnSuccessContinuation f x K W s
    (UfsrvFutureDoOnSuccess f (Some m) u).
Proof.
  intros Hc Hwf Ho Ht. unfold UfsrvFutureDoOnSuccess. rewrite (is_null_false f) by apply Ho.
  by apply (operator_spec (fun op => MkDoOnSuccessContext op m u f) (fun _ => Ret tt)); [..|apply prepares_nothing].
Qed.

(** [flatMap] first copies the input's token, NULL here, into its context. *)
Definition copy_token (f ctx : ptr) : cprog unit :=
  let! token := rd fut_cancel_token f in
  wr (set_fm_token token) ctx ;;
  when (negb (is_null token)) (UfsrvCancellationTokenRetainInternal token).
Lemma flat_map_set_up f m u x K W s :
  client_guar client -> wf_machine s -> open_future (heap s) (fds s) f x K W -> fut_cancel_token x = NULL ->
  set_up (fun op => MkFlatMapContext op m u NULL) CB_sFlatMapContinuation f x K W s (UfsrvFutureFlatMap f (Some m) u).
Proof.
  intros Hc Hwf Ho Ht. unfold UfsrvFutureFlatMap. rewrite (is_null_false f) by apply Ho.
  replace (bind _ _) with
    (operator_prog (fun op => MkFlatMapContext op m u NULL) (copy_token f) CB_sFlatMapContinuation f).
  - apply operator_spec; try done. intros op ctx s1 Hctx _ Hf.
    assert (Hfx : heap s1 !! f = Some (OFuture x)) by (rewrite Hf by (by left); apply Ho).
    unfold copy_token. wp_steps. rewrite Ht. wp_steps. change (is_null NULL) with true. simpl. wp_steps.
    assert (Hs : store_cell ctx (set_fm_token NULL (MkFlatMapContext op m u NULL)) s1 = s1).
    { unfold store_cell. destruct s1; unfold with_heap; simpl in *. by rewrite insert_id. }
    rewrite Hs. split_and!; [done|by apply off_refl|done|by intros p ?%elem_of_nil].
  - reflexivity.
Qed.

Lemma output_stable op out y K W X Zs :
  (forall p, p ∈ X -> p ∉ ou_cells op out y K W) -> (forall fd, fd ∈ Zs -> fd ∉ sl_fds W) ->
  stable X Zs (output op out y K W).
Proof.
  intros HX HZ s s' Hh Hf. apply output_frame; [intros p Hp; apply Hh|intros fd Hp; apply Hf]; intros Hin.
  - by apply (HX p Hin).
  - by apply (HZ fd Hin).
Qed.
Lemma received_stable op out y K W r X Zs :
  (forall p, p ∈ X -> p ∉ ou_cells op out y K W) -> (forall fd, fd ∈ Zs -> fd ∉ sl_fds W) ->
  stable X Zs (received op out y K W r).
Proof.
  intros HX HZ s s' Hh Hf. apply received_frame; [intros p Hp; apply Hh|intros fd Hp; apply Hf]; intros Hin.
  - by apply (HX p Hin).
  - by apply (HZ fd Hin).
Qed.
Lemma cell_stable X Zs p o : p ∉ X -> stable X Zs (fun s => heap s !! p = o).
Proof. intros Hp s s' Hh _. by rewrite Hh. Qed.
Lemma and_stable X Zs P Q : stable X Zs P -> stable X Zs Q -> stable X Zs (fun s => P s /\ Q s).
Proof. intros HP HQ s s' Hh Hf [? ?]. split; [by eapply HP|by eapply HQ]. Qed.

Lemma map_transforms_spec f prm x K1 K2 W n ctx op m u fv out y KO WO g r s :
  promise_at (heap s) prm f false ->
  open_future (heap s) (fds s) f x (K1 ++ Pend n CB_sMapContinuation ctx :: K2) W -> fut_cancel_handle x = NULL ->
  (forall k, k ∈ K1 ++ K2 -> quiet (pd_call f k)) ->
  ctx <> NULL -> heap s !! ctx = Some (OMapContext (MkMapContext op m u fv)) -> output op out y KO WO s ->
  (forall p, p ∈ prm :: footprint f x (K1 ++ Pend n CB_sMapContinuation ctx :: K2) W -> p ∉ ou_cells op out y KO WO) ->
  (forall fd, fd ∈ sl_fds W -> fd ∉ sl_fds WO) ->
  (res_error r = 0%Z -> answers (K_map m (res_value r) u) (g (res_value r))) ->
  WP (UfsrvPromiseSetResult prm r)
    (fun _ s' => settled_future (heap s') f (complete_with r x) /\ promise_at (heap s') prm f true /\
       (forall w, w ∈ W -> awake (heap s') (fds s') w) /\
       (forall p, p ∈ pd_nodes (K1 ++ Pend n CB_sMapContinuation ctx :: K2) -> heap s' !! p = None) /\
       (heap s' !! ctx = None /\ received op out y KO WO (map_result g fv r) s') /\
       only_changed ((ctx :: ou_cells op out y KO WO) ++ prm :: footprint f x (K1 ++ Pend n CB_sMapContinuation ctx :: K2) W)
         (sl_fds WO ++ sl_fds W) s s' /\
       trace s' = trace s ++ (pd_call f <$> K1) ++ K_future_cb CB_sMapContinuation f ctx ::
         (map_calls m u r ++ (pd_call out <$> KO)) ++ (pd_call f <$> K2)) s.
Proof.
  intros Hp Ho Hh Hq Hc0 Hc Hou Hdis Hdfd Hg.
  assert (Hcx : ctx ∉ prm :: footprint f x (K1 ++ Pend n CB_sMapContinuation ctx :: K2) W).
  { rewrite not_elem_of_cons. split; [destruct Hp; congruence|by eapply open_outside]. }
  assert (Hst : stable (prm :: footprint f x (K1 ++ Pend n CB_sMapContinuation ctx :: K2) W) (sl_fds W)
    (output op out y KO WO)) by by apply output_stable.
  apply (SetResult_through f prm r x K1 (Pend n CB_sMapContinuation ctx) K2 W (ctx :: ou_cells op out y KO WO)
    (sl_fds WO) (map_calls m u r ++ (pd_call out <$> KO))
    (fun s => heap s !! ctx = Some (OMapContext (MkMapContext op m u fv)) /\ output op out y KO WO s)); try done.
  - intros p Hin. apply not_elem_of_cons. split; [by intros ->|by apply Hdis].
  - intros P [-> | ->]; apply and_stable; try done; try by apply cell_stable. by apply received_stable.
  - intros s1 Hpub [Hc1 Hou1]. eapply wp_mono; [eapply (map_cont_spec f r); [exact Hpub|done|exact Hc1|exact Hou1|exact Hg|]|].
    + apply Hdis. right. by left.
    + simpl. intros _ s' (? & ? & ? & ?). split_and!; try done.
Qed.
End Operators.

(** C28.  [map], end to end.  Mapping a pending future and then fulfilling its promise
    with any result completes both: the input with that result and the output with
    the mapped value, or with the input's error, or with [-1] when the mapper
    returns NULL.  The mapper runs once, on success only, before the continuations
    that were registered earlier; the context and the output's promise are freed. *)
Theorem map_pipeline {E : Ext} {TS : TreiberSpec E} client f prm x K W m u fv g r s :
  client_guar client -> wf_machine s ->
  promise_at (heap s) prm f false -> open_future (heap s) (fds s) f x K W ->
  fut_cancel_token x = NULL -> fut_cancel_handle x = NULL ->
  (forall k, k ∈ K -> observes (body client) (pd_call f k)) ->
  (res_error r = 0%Z -> answers client (K_map m (res_value r) u) (g (res_value r))) ->
  wp (body client) log (UfsrvFutureMapEx f (Some m) u fv)
    (fun out s1 => (out = NULL /\ oracle s <> [] /\ forall p, heap s1 !! p = heap s !! p) \/
       exists op ctx n y, output client op out y [] [] s1 /\
         wp (body client) log (UfsrvPromiseSetResult prm r)
           (fun _ s2 => settled_future (heap s2) f (complete_with r x) /\
              received op out y [] [] (map_result g fv r) s2 /\
              (forall p, p ∈ ctx :: n :: pd_nodes K -> heap s2 !! p = None) /\
              (forall w, w ∈ W -> awake (heap s2) (fds s2) w) /\
              trace s2 = trace s ++ (K_future_cb CB_sMapContinuation f ctx :: map_calls m u r) ++ (pd_call f <$> K)) s1) s.
Proof.
  intros Hc Hwf Hp Ho Htok Hh Hq Hg. eapply wp_mono; [by eapply map_set_up|]. simpl.
  intros out s1 (Hf1 & Ht1 & [?|(op & c & w & ctx & n & [Hou [Hc0 Hctx] Hin Hfresh Hnd Hrest'])]); [by left|right].
  assert (Hrest : forall p, p ∉ [op; out; c; w; ctx; n] -> p <> fut_continuations x -> heap s1 !! p = heap s !! p)
    by (intros; apply Hrest'; try done; apply not_elem_of_nil).
  assert (Hold : forall p, is_Some (heap s !! p) -> p ∉ [op; out; c; w; ctx; n]).
  { intros p [o Hs] Hni. specialize (Hfresh p Hni). congruence. }
  assert (Hcells : forall p, p ∈ ou_cells op out (new_future c w) [] [] -> p ∈ [op; out; c; w]).
  { intros p. unfold ou_cells, footprint. simpl. set_solver. }
  assert (Hnn : n ∉ [op; out; c; w; ctx]).
  { change [op; out; c; w; ctx; n] with ([op; out; c; w; ctx] ++ [n]) in Hnd. apply NoDup_app in Hnd as (_ & Hd & _).
    intros Hx. apply (Hd n Hx). by left. }
  assert (Hprm : prm <> fut_continuations x).
  { destruct Hp as [_ Hp], (of_conts _ _ _ _ _ _ Ho) as (_ & t & Ht & _). congruence. }
  assert (Hdis : forall p, p ∈ prm :: footprint f x ([] ++ Pend n CB_sMapContinuation ctx :: K) W ->
    p ∉ ou_cells op out (new_future c w) [] []).
  { intros p Hp' Hx%Hcells. assert (p = n \/ is_Some (heap s !! p)) as [->|Hs].
    - destruct Hp as [_ Hp]. unfold footprint in Hp'. simpl in Hp'.
      rewrite !elem_of_cons in Hp'. destruct Hp' as [->|[->|[->|[->|[->|Hp']]]]]; [eauto|right|..|by left|].
      + pose proof (of_fut _ _ _ _ _ _ Ho). eauto.
      + right. destruct (of_conts _ _ _ _ _ _ Ho) as (_ & t & ? & _). eauto.
      + right. destruct (of_waits _ _ _ _ _ _ Ho) as (_ & t & ? & _). eauto.
      + right. eapply open_allocated; [exact Ho|]. unfold footprint. by do 3 right.
    - set_solver.
    - apply (Hold p Hs). set_solver. }
  exists op, ctx, n, (new_future c w). split; [done|].
  eapply wp_mono; [eapply (map_transforms_spec client f prm x [] K W n ctx op m u fv out (new_future c w) [] [] g r s1);
    try done|].
  - destruct Hp as [Hpn Hp]. split; [done|]. rewrite Hrest; [done|apply Hold; eauto|done].
  - intros fd _. apply not_elem_of_nil.
  - simpl. intros _ s2 (Hs & _ & Hw & Hn & [Hcn Hrv] & _ & Ht). split_and!; try done.
    + intros p [->|Hp']%elem_of_cons; [done|by apply Hn].
    + rewrite Ht, Ht1. simpl. by rewrite app_nil_r.
Qed.

(** ** Witness: [map] on the pending future of [ready_st] *)
#[local] Existing Instances RefExt.ext RefExt.treiber.

(** The quiet client maps a value to another one. *)
Lemma map_pipeline_witness :
  wp (body quiet_client) log (UfsrvFutureMapEx fut (Some 5%N) 50%N None)
    (fun out s1 => (out = NULL /\ oracle ready_st <> [] /\ forall p, heap s1 !! p = heap ready_st !! p) \/
       exists op ctx n y, output quiet_client op out y [] [] s1 /\
         wp (body quiet_client) log (UfsrvPromiseSetResult prm (MkResult 0 99%N None))
           (fun _ s2 => settled_future (heap s2) fut (complete_with (MkResult 0 99%N None) fut_cell) /\
              received op out y [] [] (map_result (fun v => v + 1000)%N None (MkResult 0 99%N None)) s2 /\
              (forall p, p ∈ ctx :: n :: pd_nodes conts -> heap s2 !! p = None) /\
              (forall w, w ∈ [] -> awake (heap s2) (fds s2) w) /\
              trace s2 = trace ready_st ++ (K_future_cb CB_sMapContinuation fut ctx ::
                map_calls 5%N 50%N (MkResult 0 99%N None)) ++ (pd_call fut <$> conts)) s1) ready_st.
Proof.
  apply (map_pipeline quiet_client fut prm fut_cell conts [] 5%N 50%N None (fun v => v + 1000)%N (MkResult 0 99%N None) ready_st).
  - apply quiet_guar.
  - apply ready_wf.
  - apply ready_promise.
  - apply ready_open.
  - reflexivity.
  - reflexivity.
  - apply ready_conts.
  - intros _ s. by apply wps_ret.
Defined.
