(* ===== verification/InheritFacts.v ===== *)
(** * InheritFacts: operators on inputs with a cancellation token

    The output of a single-input operator inherits the token of its input: it is
    attached to it in turn, so that one cancellation completes the whole pipeline. *)
From S2P Require Import Prelude Machine Uflib Model Cancellation Scheduler Coroutine Future Waiting.
From S2P Require Import Operators Dispatch Logic Guarantee CancellationFacts FutureFacts Demo WaitingFacts AttachFacts OperatorFacts.
Local Open Scope prog_scope.

Section Inherit.
Context {E : Ext} {TS : TreiberSpec E} (client : Client).
#[local] Abbreviation WPS := (wps (body client) log).
#[local] Abbreviation WP := (wp (body client) log).

(** An operator is in place on [f] and its output is attached to the token [t] of [f]
    as well; or memory ran out for that, and the output is without a token. *)
Record inherited {T} `{!Cell T} (mk : ptr -> T) (cb : fut_cb) (f : ptr) (x : UfsrvFuture) K W (t : ptr) (rc : Z) L
    (op out c w ctx n : ptr) (s s' : st) : Prop := {
  ih_promise : promise_at (heap s') op out false;
  ih_output : (oracle s <> [] /\ open_future (heap s') (fds s') out (new_future c w) [] [] /\ token_rep (heap s') t rc false L) \/
    (exists h, h <> NULL /\ heap s !! h = None /\ h ∉ [op; out; c; w; ctx; n] /\
      open_future (heap s') (fds s') out (attached t h (new_future c w)) [] [] /\
      token_rep (heap s') t (rc + 2) false (attach_reg h out :: L));
  ih_ctx : ctx <> NULL /\ heap s' !! ctx = Some (cell_inj (mk op));
  ih_input : open_future (heap s') (fds s') f x (Pend n cb ctx :: K) W;
  ih_fresh p : p ∈ [op; out; c; w; ctx; n] -> heap s !! p = None;
  ih_nodup : NoDup [op; out; c; w; ctx; n];
  ih_rest p : is_Some (heap s !! p) -> p <> fut_continuations x -> p ∉ t :: nodes L -> heap s' !! p = heap s !! p;
}.

Lemma g_operator_pair {T} `{!Cell T} (mk : ptr -> T) prep cb f :
  (forall ctx, guar evolves (prep ctx)) -> guar evolves (operator_pair mk prep cb f).
Proof.
  intros Hp. unfold operator_pair, abandon. apply guar_bind; [apply g_PromiseCreate|intros pf].
  destruct (is_null pf.1); [apply guar_ret|]. apply guar_bind; [apply g_alloc|intros ctx].
  assert (Hab : guar evolves (UfsrvPromiseDestroy pf.1 ;; UfsrvFutureRelease pf.2)%prog).
  { apply guar_bind; [apply g_PromiseDestroy|intros; apply g_Release]. }
  destruct (is_null ctx); [apply guar_bind; [done|intros; apply guar_ret]|].
  apply guar_bind; [done|intros _]. apply guar_bind; [apply g_sFutureThen|intros []]; [apply guar_ret|].
  apply guar_bind; [apply g_free|intros _]. apply guar_bind; [done|intros; apply guar_ret].
Qed.

(** The new cells of an operator in place are not the token's. *)
Lemma token_kept {T} `{!Cell T} (mk : ptr -> T) cb f x K W X op out c w ctx n s s3 t rc c0 L :
  installed client mk cb f x K W X op out c w ctx n s s3 -> open_future (heap s) (fds s) f x K W ->
  token_rep (heap s) t rc c0 L -> forall p, p ∈ t :: nodes L -> p ∉ X -> heap s3 !! p = heap s !! p.
Proof.
  intros Hin Ho Htok p Hp HpX. apply (in_rest _ _ _ _ _ _ _ _ _ _ _ _ _ _ _ _ Hin); [|intros ->|done].
  - intros Hn. pose proof (in_fresh _ _ _ _ _ _ _ _ _ _ _ _ _ _ _ _ Hin p Hn) as Hz.
    destruct Htok as (? & ? & _ & Ht & Hseg & _). apply elem_of_cons in Hp as [->|Hp]; [congruence|].
    destruct (cb_seg_live _ _ _ _ _ _ _ _ Hseg Hp) as [_ [? ?]]. congruence.
  - eapply (open_not_token _ _ _ _ _ _ _ _ _ _ _ Ho Htok Hp). unfold footprint. set_solver +.
Qed.

Lemma installed_cells {T} `{!Cell T} (mk : ptr -> T) cb f x K W X op out c w ctx n s s3 p :
  installed client mk cb f x K W X op out c w ctx n s s3 -> p ∈ [op; out; c; w; ctx; n] -> is_Some (heap s3 !! p).
Proof.
  intros [[[_ Hp] Ho _ _ _] [_ Hc] Hi _ _ _] Hin. rewrite !elem_of_cons in Hin.
  assert (Hout : forall q, q ∈ [out; c; w] -> is_Some (heap s3 !! q)).
  { intros q Hq. eapply open_allocated; [exact Ho|]. unfold footprint. simpl. set_solver +Hq. }
  destruct Hin as [->|[->|[->|[->|[->|[->|?%elem_of_nil]]]]]]; [eauto|apply Hout; set_solver +..|eauto| |done].
  eapply open_allocated; [exact Hi|]. unfold footprint. simpl. set_solver +.
Qed.

Lemma token_cells_live h t rc b L p : token_rep h t rc b L -> p ∈ t :: nodes L -> is_Some (h !! p).
Proof.
  intros (? & ? & _ & Hx & Hseg & _) [->|Hp]%elem_of_cons; [eauto|].
  destruct (cb_seg_live _ _ _ _ _ _ _ _ Hseg Hp) as [_ [? ?]]. eauto.
Qed.

(** What has been installed does not notice changes to the output and the token. *)
Lemma installed_kept {T} `{!Cell T} (mk : ptr -> T) cb f x K W X t rc L op out c w ctx n s s3 s' :
  installed client mk cb f x K W X op out c w ctx n s s3 -> open_future (heap s) (fds s) f x K W ->
  token_rep (heap s3) t rc false L -> (forall p, p ∈ [op; out; c; w; ctx; n] -> p ∉ t :: nodes L) ->
  (forall p, p ∈ X -> p ∈ t :: nodes L) -> fds s' = fds s3 ->
  (forall p, is_Some (heap s3 !! p) -> p <> out -> p ∉ t :: nodes L -> heap s' !! p = heap s3 !! p) ->
  promise_at (heap s') op out false /\ (ctx <> NULL /\ heap s' !! ctx = Some (cell_inj (mk op))) /\
  open_future (heap s') (fds s') f x (Pend n cb ctx :: K) W /\
  forall p, is_Some (heap s !! p) -> p <> fut_continuations x -> p ∉ t :: nodes L -> heap s' !! p = heap s !! p.
Proof.
  intros Hin Ho Htok Hnew HX Hf' Hkeep. pose proof Hin as [Hou [Hc0 Hc] Hi Hfresh Hnd Hrest].
  destruct (ou_promise _ _ _ _ _ _ _ Hou) as [Hop0 Hop].
  assert (Hne : op <> out /\ ctx <> out /\ n <> out) by (rewrite !NoDup_cons, !not_elem_of_cons in Hnd; naive_solver).
  split_and!; try done.
  - split; [done|]. rewrite Hkeep; [done|eauto|apply Hne|]. apply Hnew. by left.
  - rewrite Hkeep; [done|eauto|apply Hne|]. apply Hnew. set_solver +.
  - eapply open_frame; [|by intros; rewrite Hf'|exact Hi]. intros p Hp. apply Hkeep; [by eapply open_allocated| |].
    + intros ->. assert (out = n \/ out ∈ footprint f x K W) as [|Hof]; [|by destruct Hne as (_ & _ & []); auto|].
      { unfold footprint in *. simpl in *. rewrite !elem_of_cons in *. naive_solver. }
      destruct (open_allocated _ _ _ _ _ _ _ Ho Hof). rewrite Hfresh in *; [done|]. by right; left.
    + intros Hpt. by eapply (open_not_token _ _ _ _ _ _ _ _ _ _ _ Hi Htok Hpt).
  - intros p Hp Hpc Hpt. assert (Hpn : p ∉ [op; out; c; w; ctx; n]) by (intros Hx; destruct Hp; rewrite (Hfresh p Hx) in *; done).
    assert (Hs3 : heap s3 !! p = heap s !! p) by (apply Hrest; [done|done|by intros ?%HX]).
    rewrite <- Hs3. apply Hkeep; [by rewrite Hs3| |done]. intros ->. apply Hpn. by right; left.
Qed.

Lemma inherit_token_spec {T} `{!Cell T} (mk : ptr -> T) cb f x K W X t rc0 rc L op out c w ctx n s s3 :
  installed client mk cb f x K W X op out c w ctx n s s3 -> wf_alloc s3 -> (oracle s = [] -> oracle s3 = []) ->
  fut_cancel_token x = t -> open_future (heap s) (fds s) f x K W -> token_rep (heap s) t rc0 false L ->
  (forall p, p ∈ X -> p ∈ t :: nodes L) -> token_rep (heap s3) t rc false L ->
  (Z.of_nat (length L) < rc)%Z -> int_range (rc + 2) ->
  WP (inherit_token f out)
    (fun o s' => o = out /\ fds s' = fds s3 /\ trace s' = trace s3 /\ inherited mk cb f x K W t rc L op out c w ctx n s s') s3.
Proof.
  intros Hin Hwf Hor Ht Ho Htok0 HX Htok Hlt Hrc. pose proof Hin as [Hou Hctx Hi Hfresh Hnd Hrest].
  pose proof (fun p => installed_cells _ _ _ _ _ _ _ _ _ _ _ _ _ _ _ p Hin) as Hlive.
  assert (Ht0 : t <> NULL) by (by destruct Htok as (? & ? & ? & _)).
  assert (Hcon : is_Some (heap s3 !! fut_continuations x)).
  { eapply open_allocated; [exact Hi|]. unfold footprint. set_solver +. }
  assert (Hnone : forall p, heap s3 !! p = None -> heap s !! p = None).
  { intros p Hp. rewrite <- Hrest; [done|..].
    - intros Hin'. destruct (Hlive p Hin'). congruence.
    - intros ->. destruct Hcon. congruence.
    - intros [? ?]%HX%(token_cells_live _ _ _ _ _ _ Htok). congruence. }
  assert (Hft : forall p, p ∈ t :: nodes L -> p ∉ ou_cells op out (new_future c w) [] []).
  { intros p Hp [->|Hp']%elem_of_cons.
    - destruct Htok as (? & ? & _ & Hx & Hseg & _), (ou_promise _ _ _ _ _ _ _ Hou) as [_ Hpo].
      apply elem_of_cons in Hp as [->|Hp]; [congruence|].
      destruct (cb_seg_live _ _ _ _ _ _ _ _ Hseg Hp) as [_ [? ?]]. congruence.
    - by eapply (open_not_token _ _ _ _ _ _ _ _ _ _ _ (ou_open _ _ _ _ _ _ _ Hou) Htok Hp). }
  assert (Hnew : forall p, p ∈ [op; out; c; w; ctx; n] -> p ∉ t :: nodes L).
  { intros p Hp [o Hpt]%(token_cells_live _ _ _ _ _ _ Htok0). rewrite Hfresh in Hpt; done. }
  (* only the output and the token change from here on *)
  pose proof (fun s' => installed_kept mk cb f x K W X t rc L op out c w ctx n s s3 s' Hin Ho Htok Hnew HX) as Hrest3.
  unfold inherit_token. pose proof (of_fut _ _ _ _ _ _ Hi) as Hfx. wp_steps. rewrite Ht, (is_null_false t) by done. simpl.
  apply wps_assoc. eapply wps_seq; [apply (Attach_spec client out (new_future c w) [] [] t rc L s3); try done; apply Hou|].
  cbn beta. intros ok s' (Ht' & Hf' & Hpost). wp_steps. split_and!; [done..|].
  destruct Hpost as [(_ & Hoom & Hopen & Htok' & Hkeep)|(_ & h & Hh0 & Hhn & Hopen & Htok' & Hkeep)].
  - destruct (Hrest3 s' Hf') as (? & ? & ? & ?).
    { intros p _ ? ?. apply Hkeep. by apply not_elem_of_cons. }
    split; try done. left. split_and!; [auto|done|done].
  - destruct (Hrest3 s' Hf') as (? & ? & ? & ?).
    { intros p [o Hp] ? Hpt. apply Hkeep. rewrite !not_elem_of_cons in *. split_and!; [done|apply Hpt| |apply Hpt]. intros ->. congruence. }
    split; try done. right. exists h. split_and!; try done; [by apply Hnone|]. intros Hx. destruct (Hlive h Hx). congruence.
Qed.

(** All or nothing, and nothing only for want of memory; the input's token is [t],
    referenced [rc] times, and its callbacks are [L].  [held] says how many more
    references on it the operator's own context takes. *)
Definition inherits {T} `{!Cell T} (mk : ptr -> T) cb f x K W (t : ptr) (rc : Z) L (held : Z) (s : st) (p : cprog ptr) : Prop :=
  WP p (fun out s' => fds s' = fds s /\ trace s' = trace s /\
    ((out = NULL /\ oracle s <> [] /\ (forall q, q <> t -> heap s' !! q = heap s !! q) /\
      (token_rep (heap s') t rc false L \/ token_rep (heap s') t (rc + held) false L)) \/
     exists op c w ctx n, inherited mk cb f x K W t (rc + held) L op out c w ctx n s s')) s.

Lemma operator_inherits {T} `{!Cell T} (mk mk' : ptr -> T) prep cb f x K W X hX t rc L held s :
  client_guar client -> wf_machine s -> open_future (heap s) (fds s) f x K W ->
  fut_cancel_token x = t -> token_rep (heap s) t rc false L -> (Z.of_nat (length L) < rc)%Z -> int_range (rc + held + 2) -> (0 <= held)%Z ->
  (forall ctx, guar evolves (prep ctx)) -> prepares client mk mk' prep f X hX s ->
  (forall p, p ∈ X -> p = t /\ is_Some (hX p)) ->
  (forall s', (forall p, p ∈ X -> heap s' !! p = hX p) -> (forall p, p ∈ t :: nodes L -> p ∉ X -> heap s' !! p = heap s !! p) ->
     token_rep (heap s') t (rc + held) false L) ->
  inherits mk' cb f x K W t rc L held s (operator_prog mk prep cb f).
Proof.
  intros Hc Hwf Ho Ht Htok Hlt Hrc Hheld Hg Hprep HX Htok'. unfold inherits. rewrite operator_split.
  assert (Htt : is_Some (heap s !! t)) by (destruct Htok as (? & ? & _ & Hx & _); eauto).
  eapply wps_seq.
  { apply wp_evolves; [done|by apply g_operator_pair|]. apply (operator_pair_spec client mk mk' prep cb f x K W X hX); try done.
    - intros p [-> ?]%HX. done.
    - intros p Hp [-> _]%HX. by eapply (open_not_token _ _ _ _ _ _ _ _ _ _ t Ho Htok); [left|]. }
  intros r s3 [(Hf & Htr & Hcase) Hev]. specialize (Hev Hwf).
  destruct Hcase as [(-> & Hor & Hh & HhX)|(op & out & c & w & ctx & n & -> & Hin & HhX)].
  - apply wps_ret. split_and!; [done..|]. left. split_and!; [done|done| |].
    + intros q Hq. apply Hh. by intros [-> _]%HX.
    + destruct HhX as [HhX|HhX]; [left|right].
      * eapply token_rep_frame; [|exact Htok]. intros p _. destruct (decide (p ∈ X)); [by apply HhX|by apply Hh].
      * apply Htok'; [done|]. intros p _ Hp. by apply Hh.
  - assert (Htok3 : token_rep (heap s3) t (rc + held) false L).
    { apply Htok'; [done|]. intros p Hp HpX. by eapply (token_kept mk' cb f x K W X). }
    eapply wp_mono; [eapply (inherit_token_spec mk' cb f x K W X t rc (rc + held) L); try done|].
    + apply Hev.
    + apply Hev.
    + intros p [-> _]%HX. by left.
    + lia.
    + cbn beta. intros o s' (-> & Hf' & Ht' & Hih). rewrite Hf', Ht'. split_and!; [done..|]. right. by exists op, c, w, ctx, n.
Qed.

Lemma operator_inherits_plain {T} `{!Cell T} (mk : ptr -> T) cb f x K W t rc L s :
  client_guar client -> wf_machine s -> open_future (heap s) (fds s) f x K W ->
  fut_cancel_token x = t -> token_rep (heap s) t rc false L -> (Z.of_nat (length L) < rc)%Z -> int_range (rc + 2) ->
  inherits mk cb f x K W t rc L 0 s (operator_prog mk (fun _ => Ret tt) cb f).
Proof.
  intros Hc Hwf Ho Ht Htok Hlt Hrc. apply (operator_inherits mk mk _ cb f x K W [] (fun _ => None)); try done.
  - by replace (rc + 0 + 2)%Z with (rc + 2)%Z by lia.
  - intros. apply guar_ret.
  - apply prepares_nothing.
  - by intros p ?%elem_of_nil.
  - intros s' _ Hrest. replace (rc + 0)%Z with rc by lia. eapply token_rep_frame; [|exact Htok]. intros p Hp.
    apply Hrest; [done|apply not_elem_of_nil].
Qed.

Lemma map_inherits f m u fv x K W t rc L s :
  client_guar client -> wf_machine s -> open_future (heap s) (fds s) f x K W ->
  fut_cancel_token x = t -> token_rep (heap s) t rc false L -> (Z.of_nat (length L) < rc)%Z -> int_range (rc + 2) ->
  inherits (fun op => MkMapContext op m u fv) CB_sMapContinuation f x K W t rc L 0 s (sFutureMap f (Some m) u fv).
Proof.
  intros. unfold sFutureMap. rewrite (is_null_false f) by by eapply of_null.
  apply (operator_inherits_plain (fun op => MkMapContext op m u fv)); done.
Qed.
Lemma on_error_inherits f m u x K W t rc L s :
  client_guar client -> wf_machine s -> open_future (heap s) (fds s) f x K W ->
  fut_cancel_token x = t -> token_rep (heap s) t rc false L -> (Z.of_nat (length L) < rc)%Z -> int_range (rc + 2) ->
  inherits (fun op => MkOnErrorContext op m u f) CB_sOnErrorContinuation f x K W t rc L 0 s (UfsrvFutureOnError f (Some m) u).
Proof.
  intros. unfold UfsrvFutureOnError. rewrite (is_null_false f) by by eapply of_null.
  apply (operator_inherits_plain (fun op => MkOnErrorContext op m u f)); done.
Qed.
Lemma on_success_inherits f m u x K W t rc L s :
  client_guar client -> wf_machine s -> open_future (heap s) (fds s) f x K W ->
  fut_cancel_token x = t -> token_rep (heap s) t rc false L -> (Z.of_nat (length L) < rc)%Z -> int_range (rc + 2) ->
  inherits (fun op => MkDoOnSuccessContext op m u f) CB_sDoOnSuccessContinuation f x K W t rc L 0 s
    (UfsrvFutureDoOnSuccess f (Some m) u).
Proof.
  intros. unfold UfsrvFutureDoOnSuccess. rewrite (is_null_false f) by by eapply of_null.
  apply (operator_inherits_plain (fun op => MkDoOnSuccessContext op m u f)); done.
Qed.

(** [flatMap] keeps a reference on the token for the inner future. *)
Lemma flat_map_inherits f m u x K W t rc L s :
  client_guar client -> wf_machine s -> open_future (heap s) (fds s) f x K W ->
  fut_cancel_token x = t -> token_rep (heap s) t rc false L -> (Z.of_nat (length L) < rc)%Z -> int_range (rc + 3) ->
  inherits (fun op => MkFlatMapContext op m u t) CB_sFlatMapContinuation f x K W t rc L 1 s (UfsrvFutureFlatMap f (Some m) u).
Proof.
  intros Hc Hwf Ho Ht Htok Hlt Hrc. unfold UfsrvFutureFlatMap. rewrite (is_null_false f) by apply Ho.
  pose proof Htok as (hd & last & Ht0 & Htc & Hseg & Hnd & Hlen & _).
  change (inherits (fun op => MkFlatMapContext op m u t) CB_sFlatMapContinuation f x K W t rc L 1 s
    (operator_prog (fun op => MkFlatMapContext op m u NULL) (copy_token f) CB_sFlatMapContinuation f)).
  apply (operator_inherits _ _ _ _ _ _ _ _ [t] (fun _ => Some (OToken (MkToken (rc + 1) false false hd)))); try done.
  - by replace (rc + 1 + 2)%Z with (rc + 3)%Z by lia.
  - intros ctx. unfold copy_token. apply guar_bind; [apply g_rd|intros tk]. apply guar_bind; [apply g_wr; intros []; by split|intros _].
    apply g_when. unfold UfsrvCancellationTokenRetainInternal. destruct (is_null tk); [apply guar_ret|].
    apply guar_bind; [apply g_rmw; intros []; by split|intros; apply guar_ret].
  - intros op ctx s1 Hctx Hcn Hs. apply not_elem_of_cons in Hcn as [Hcf Hct]. assert (Hct' : ctx <> t) by (intros ->; apply Hct; by left).
    assert (Hfx : heap s1 !! f = Some (OFuture x)) by (rewrite Hs by (by left); apply Ho).
    assert (Htx : heap s1 !! t = Some (OToken (MkToken rc false false hd))) by (rewrite Hs by (right; by left); done).
    unfold copy_token, UfsrvCancellationTokenRetainInternal. wp_steps. rewrite Ht. wp_steps.
    rewrite (is_null_false t) by done. simpl. wp_steps. rewrite (wrap_i32_id (rc + 1)) by (unfold int_range in *; lia).
    split_and!; [lk| |done|].
    + apply off_intro; try done.
      * intros p Hp. rewrite !elem_of_cons in Hp. destruct Hp as [->|[->|?%elem_of_nil]]; eauto; done.
      * intros p [? [? _]%not_elem_of_cons]%not_elem_of_cons. lk.
    + intros p ->%list_elem_of_singleton. lk.
  - intros p ->%list_elem_of_singleton. eauto.
  - intros s' HtX Hrest. exists hd, last. split_and!; [done|apply HtX; by left| |done|lia|done].
    eapply cb_seg_frame; [|exact Hseg]. intros p Hp. apply Hrest; [by right|]. intros ->%list_elem_of_singleton.
    by eapply (seg_not_token _ _ _ _ _ _ _ _ _ Hseg Htc Hp).
Qed.
End Inherit.

(** C29.  Setting an operator up is all or nothing.  On a pending input, [mapEx],
    [flatMap], [onError] and [doOnSuccess] either return NULL, for want of memory, or
    return the pending future of a new pair, with one new continuation, carrying a
    context that names the promise, in front of the input's continuations.  Without a
    token on the input nothing else changes, and on failure memory is as it was.  With
    one, the output is attached to it as well (unless memory runs out for that), and
    [flatMap]'s context holds one more reference on it; on failure everything but the
    token is as it was, and so is the token, except that [flatMap] may leave its
    reference behind. *)
Theorem operators_install_or_undo {E : Ext} {TS : TreiberSpec E} client f m u fv x K W s :
  client_guar client -> wf_machine s -> open_future (heap s) (fds s) f x K W ->
  (fut_cancel_token x = NULL ->
    set_up client (fun op => MkMapContext op m u fv) CB_sMapContinuation f x K W s (UfsrvFutureMapEx f (Some m) u fv) /\
    set_up client (fun op => MkFlatMapContext op m u NULL) CB_sFlatMapContinuation f x K W s (UfsrvFutureFlatMap f (Some m) u) /\
    set_up client (fun op => MkOnErrorContext op m u f) CB_sOnErrorContinuation f x K W s (UfsrvFutureOnError f (Some m) u) /\
    set_up client (fun op => MkDoOnSuccessContext op m u f) CB_sDoOnSuccessContinuation f x K W s
      (UfsrvFutureDoOnSuccess f (Some m) u)) /\
  (forall t rc L, fut_cancel_token x = t -> token_rep (heap s) t rc false L -> (Z.of_nat (length L) < rc)%Z -> int_range (rc + 3) ->
    inherits client (fun op => MkMapContext op m u fv) CB_sMapContinuation f x K W t rc L 0 s (UfsrvFutureMapEx f (Some m) u fv) /\
    inherits client (fun op => MkFlatMapContext op m u t) CB_sFlatMapContinuation f x K W t rc L 1 s
      (UfsrvFutureFlatMap f (Some m) u) /\
    inherits client (fun op => MkOnErrorContext op m u f) CB_sOnErrorContinuation f x K W t rc L 0 s
      (UfsrvFutureOnError f (Some m) u) /\
    inherits client (fun op => MkDoOnSuccessContext op m u f) CB_sDoOnSuccessContinuation f x K W t rc L 0 s
      (UfsrvFutureDoOnSuccess f (Some m) u)).
Proof.
  intros Hc Hwf Ho. split.
  - intros Ht. split_and!; [by apply map_set_up|by apply flat_map_set_up|by apply on_error_set_up|by apply on_success_set_up].
  - intros t rc L Ht Htok Hlt Hrc. assert (int_range (rc + 2)) by (unfold int_range in *; lia).
    split_and!; [by apply map_inherits|by apply flat_map_inherits|by apply on_error_inherits|by apply on_success_inherits].
Qed.

(** ** Witnesses: the pending future of [ready_st], before and after it is attached *)
#[local] Existing Instances RefExt.ext RefExt.treiber.

Lemma attached_wf : wf_machine attached_st.
Proof. apply after_wf; [apply (api_guar _ _ (api_attach _ _))|apply ready_wf]. Qed.

Lemma operators_install_or_undo_witness :
  (set_up quiet_client (fun op => MkMapContext op 5%N 50%N None) CB_sMapContinuation fut fut_cell conts [] ready_st
    (UfsrvFutureMapEx fut (Some 5%N) 50%N None) /\
   set_up quiet_client (fun op => MkFlatMapContext op 5%N 50%N NULL) CB_sFlatMapContinuation fut fut_cell conts [] ready_st
    (UfsrvFutureFlatMap fut (Some 5%N) 50%N) /\
   set_up quiet_client (fun op => MkOnErrorContext op 5%N 50%N fut) CB_sOnErrorContinuation fut fut_cell conts [] ready_st
    (UfsrvFutureOnError fut (Some 5%N) 50%N) /\
   set_up quiet_client (fun op => MkDoOnSuccessContext op 5%N 50%N fut) CB_sDoOnSuccessContinuation fut fut_cell conts []
    ready_st (UfsrvFutureDoOnSuccess fut (Some 5%N) 50%N)) /\
  inherits quiet_client (fun op => MkFlatMapContext op 5%N 50%N tok) CB_sFlatMapContinuation fut attached_cell conts [] tok 4
    (attach_reg 8%N fut :: regs) 1 attached_st (UfsrvFutureFlatMap fut (Some 5%N) 50%N).
Proof.
  split.
  - apply (operators_install_or_undo quiet_client fut 5%N 50%N None fut_cell conts [] ready_st).
    + apply quiet_guar.
    + apply ready_wf.
    + apply ready_open.
    + reflexivity.
  - apply (operators_install_or_undo quiet_client fut 5%N 50%N None attached_cell conts [] attached_st).
    + apply quiet_guar.
    + apply attached_wf.
    + apply attached_open.
    + reflexivity.
    + apply attached_token.
    + reflexivity.
    + split; [vm_compute; discriminate|reflexivity].
Defined.

(** Memory for the pair and the context, and none for the node: [flatMap] returns NULL
    and the token has one reference more than before, which nobody will drop. *)
Definition short_of_memory : st := with_oracle [false; false; false; false; false; true] attached_st.
Example flat_map_leaks_token :
  value 1%N (UfsrvFutureFlatMap fut (Some 5%N) 50%N) short_of_memory = NULL /\
  heap short_of_memory !! tok = Some (OToken (MkToken 4 false false 8%N)) /\
  heap (after (UfsrvFutureFlatMap fut (Some 5%N) 50%N) short_of_memory) !! tok = Some (OToken (MkToken 5 false false 8%N)).
Proof. split; [|split]; vm_compute; reflexivity. Qed.
