(* ===== verification/PipelineFacts.v ===== *)
(** * PipelineFacts: one cancellation completes a pipeline

    The output of [map] on an attached future is attached to the same token, in front
    of it.  Cancelling the token completes the output first and the input after it;
    the input's continuation then finds the output already complete. *)
From S2P Require Import Prelude Machine Uflib Model Cancellation Scheduler Coroutine Future Waiting.
From S2P Require Import Operators Dispatch Logic Guarantee CancellationFacts FutureFacts Demo WaitingFacts AttachFacts OperatorFacts InheritFacts.
Local Open Scope prog_scope.

Section Pipeline.
Context {E : Ext} {TS : TreiberSpec E} (client : Client).
#[local] Abbreviation WPS := (wps (body client) log).
#[local] Abbreviation WP := (wp (body client) log).
#[local] Abbreviation quiet := (observes (body client)).

(** An error that comes too late is dropped with the promise. *)
Lemma settle_error_late op out z e s :
  promise_at (heap s) op out false -> settled_future (heap s) out z -> (2 <= fut_refcount z <= 2 ^ 31 - 1)%Z ->
  WP (settle_error op e)
    (fun _ s' => heap s' !! op = None /\ settled_future (heap s') out (set_fut_refcount (fut_refcount z - 1) z) /\
       (forall p, p <> op -> p <> out -> heap s' !! p = heap s !! p) /\ fds s' = fds s /\ trace s' = trace s) s.
Proof.
  intros [Hop0 Hop] Hs Hr. pose proof Hs as [Hout0 Hout Hcomp _ _ _ _]. assert (op <> out) by congruence.
  unfold settle_error, UfsrvPromiseSetError, UfsrvPromiseSetResult, UfsrvPromiseDestroy, free_result_value.
  rewrite (is_null_false op) by done. wp_steps. eapply wps_seq; [eapply sFutureComplete_again; [simpl; lk|done]|].
  intros won s1 (-> & Hh1 & Hf1 & Ht1). simpl.
  assert (Hop1 : heap s1 !! op = Some (OPromise (MkPromise out true))) by (rewrite Hh1; simpl; lk).
  wp_steps. simpl. wp_steps. eapply wps_seq; [eapply Release_shared; [simpl; rewrite Hh1; simpl; lk|done|lia]|].
  intros [] s2 ->. wp_steps.
  assert (Hwrap : wrap_i32 (fut_refcount z + -1) = (fut_refcount z - 1)%Z) by (rewrite wrap_i32_id; unfold int_range; lia).
  rewrite Hwrap. split_and!; [apply lookup_delete_eq| | |done|done].
  - eapply settled_frame; [|eapply (settled_update (heap s) out z); [exact Hs|done..]]. intros p Hp.
    assert (p <> op).
    { intros ->. destruct (sf_conts _ _ _ Hs) as (_ & ? & ? & _), (sf_waits _ _ _ Hs) as (_ & ? & ? & _).
      simpl in Hp. unfold footprint in Hp. simpl in Hp. rewrite !elem_of_cons, elem_of_nil in Hp. naive_solver congruence. }
    simpl. rewrite lookup_delete_ne by done. destruct (decide (p = out)) as [->|]; [by rewrite !lookup_insert_eq|].
    rewrite !lookup_insert_ne by done. rewrite Hh1. simpl. by rewrite lookup_insert_ne.
  - intros p ? ?. simpl. rewrite lookup_delete_ne, lookup_insert_ne by done.
    rewrite lookup_insert_ne by done. rewrite Hh1. simpl. by rewrite lookup_insert_ne.
Qed.

(** What the input's continuation holds while it is waiting, and what becomes of it. *)
Definition waiting_map (ctx op m u : ptr) fv out z s : Prop :=
  heap s !! ctx = Some (OMapContext (MkMapContext op m u fv)) /\ promise_at (heap s) op out false /\ settled_future (heap s) out z.
Definition finished_map (ctx op out : ptr) z s : Prop :=
  heap s !! ctx = None /\ heap s !! op = None /\ settled_future (heap s) out (set_fut_refcount (fut_refcount z - 1) z).
(** The cells they live in. *)
Definition map_cells (ctx op out : ptr) (z : UfsrvFuture) : list ptr :=
  [ctx; op; out; fut_continuations z; fut_waiters z].

Lemma waiting_stable X Zs ctx op m u fv out z :
  (forall p, p ∈ map_cells ctx op out z -> p ∉ X) -> stable X Zs (waiting_map ctx op m u fv out z).
Proof.
  intros HX s s' Hh _ (Hc & [Hop0 Hop] & Hs). unfold map_cells in HX. split_and!.
  - rewrite Hh; [done|]. apply HX. by left.
  - split; [done|]. rewrite Hh; [done|]. apply HX. by right; left.
  - eapply settled_frame; [|exact Hs]. intros p Hp. apply Hh, HX. by do 2 right.
Qed.
Lemma finished_stable X Zs ctx op out z :
  (forall p, p ∈ map_cells ctx op out z -> p ∉ X) -> stable X Zs (finished_map ctx op out z).
Proof.
  intros HX s s' Hh _ (Hc & Hop & Hs). unfold map_cells in HX. split_and!.
  - rewrite Hh; [done|]. apply HX. by left.
  - rewrite Hh; [done|]. apply HX. by right; left.
  - eapply settled_frame; [|exact Hs]. intros p Hp. apply Hh, HX. by do 2 right.
Qed.

Lemma map_cont_late f r ctx op m u fv out z s :
  published f r s -> res_error r <> 0%Z -> ctx <> NULL -> (2 <= fut_refcount z <= 2 ^ 31 - 1)%Z ->
  waiting_map ctx op m u fv out z s ->
  WP (sMapContinuation f ctx)
    (fun _ s' => finished_map ctx op out z s' /\ only_changed [ctx; op; out] [] s s' /\ trace s' = trace s ++ []) s.
Proof.
  intros (x & Hx & _ & Hr) He Hc0 Hz (Hc & Hp & Hs). unfold sMapContinuation. wp_steps. rewrite Hr, bool_decide_eq_true_2 by done.
  wp_steps. rewrite Hr. eapply wps_seq; [by eapply settle_error_late|].
  intros [] s1 (Hop1 & Hs1 & Hrest & Hf1 & Ht1). pose proof Hp as [_ Hop]. pose proof (sf_fut _ _ _ Hs).
  assert (Hco : ctx <> op /\ ctx <> out) by (split; congruence). destruct Hco as [Hco Hcu].
  assert (Hc1 : heap s1 !! ctx = Some (OMapContext (MkMapContext op m u fv))) by by rewrite Hrest.
  wp_steps. split_and!; [split_and!| |by rewrite app_nil_r].
  - apply lookup_delete_eq.
  - simpl. by rewrite lookup_delete_ne.
  - eapply settled_frame; [|exact Hs1]. intros p Hp'. simpl. apply lookup_delete_ne. intros <-.
    destruct (sf_conts _ _ _ Hs1) as (_ & ? & ? & _), (sf_waits _ _ _ Hs1) as (_ & ? & ? & _).
    rewrite !elem_of_cons, elem_of_nil in Hp'. simpl in *. naive_solver congruence.
  - split; [|by intros; rewrite <- Hf1]. intros p Hp'. rewrite !not_elem_of_cons in Hp'. simpl.
    rewrite lookup_delete_ne by naive_solver. apply Hrest; naive_solver.
Qed.

(** The dispatch over the output, [L2], the input and [L3], in this order. *)
Section Dispatch.
Context (f : ptr) (x : UfsrvFuture) (K1 K2 : list pending) (W : list sleeper) (n ctx op m u : ptr) (fv : option free_fn)
  (out : ptr) (y : UfsrvFuture) (t cb h : ptr) (L2 L3 : list registration).
#[local] Abbreviation k := (Pend n CB_sMapContinuation ctx).
#[local] Abbreviation K := (K1 ++ Pend n CB_sMapContinuation ctx :: K2).
#[local] Abbreviation L := (attach_reg h out :: L2 ++ attach_reg cb f :: L3).
#[local] Abbreviation cancelled r := (complete_with (error_result ECANCELED) r).

(** The output once it has been completed, its own callback given back. *)
Definition out_cancelled : UfsrvFuture := set_fut_refcount (fut_refcount y - 1) (cancelled y).

Record pipeline (rc : Z) (s : st) : Prop := {
  pi_input : open_future (heap s) (fds s) f x K W;
  pi_handle : fut_cancel_handle x = cb;
  pi_refs : (1 < fut_refcount x)%Z /\ int_range (fut_refcount x);
  pi_ctx : ctx <> NULL /\ heap s !! ctx = Some (OMapContext (MkMapContext op m u fv));
  pi_promise : promise_at (heap s) op out false;
  pi_output : open_future (heap s) (fds s) out y [] [];
  pi_out_handle : fut_cancel_handle y = h;
  pi_out_refs : (3 <= fut_refcount y <= 2 ^ 31 - 1)%Z;
  pi_apart p : p ∈ footprint out y [] [] -> p ∉ footprint f x K W;
  pi_token : token_rep (heap s) t rc false L;
  pi_count : (Z.of_nat (length L) < rc)%Z /\ int_range rc;
  pi_conts k' : k' ∈ K1 ++ K2 -> quiet (pd_call f k');
  pi_regs r : r ∈ L2 ++ L3 -> quiet (reg_call r);
}.

(** The cells of the three parties are pairwise distinct. *)
Record parties : Prop := {
  pa_map p : p ∈ map_cells ctx op out out_cancelled -> p ∉ t :: nodes L /\ p ∉ footprint f x K W;
  pa_input p : p ∈ footprint f x K W -> p ∉ t :: nodes L;
  pa_token : t ∉ nodes L;
  pa_nodes : NoDup (nodes L);
}.
Lemma pipeline_parties rc s : pipeline rc s -> parties.
Proof.
  intros [Hi Hih Hir [Hc0 Hc] [Hop0 Hop] Ho Hoh Hor Hap Ht Hn HqK HqL].
  pose proof Ht as (hd & last & Ht0 & Htc & Hseg & Hnd & _).
  assert (Htyp : forall p, p ∈ t :: nodes L -> exists o, heap s !! p = Some o /\ match o with OToken _ | OCallback _ => True | _ => False end).
  { intros p [->|Hp]%elem_of_cons; [by eexists|]. destruct (cb_seg_live _ _ _ _ _ _ _ _ Hseg Hp) as [_ [z Hz]]. by eexists. }
  assert (Hct : forall p o, heap s !! p = Some o -> match o with OToken _ | OCallback _ => False | _ => True end -> p ∉ t :: nodes L).
  { intros p o Hp Ho' Hin. destruct (Htyp p Hin) as (o' & Hp' & Hm). rewrite Hp in Hp'. injection Hp' as <-. by destruct o. }
  split; [| |intros Hx; by apply (seg_not_token _ _ _ _ _ _ _ _ _ Hseg Htc Hx)|done].
  - intros p Hp. unfold map_cells in Hp. rewrite !elem_of_cons, elem_of_nil in Hp.
    assert (Hfo : forall q, q ∈ footprint out y [] [] -> q ∉ t :: nodes L /\ q ∉ footprint f x K W).
    { intros q Hq. split; [|by apply Hap]. intros Hin. by eapply (open_not_token _ _ _ _ _ _ _ _ _ _ q Ho Ht). }
    destruct Hp as [->|[->|[->|[->|[->|[]]]]]]; [..|apply Hfo; unfold footprint; set_solver +|apply Hfo; unfold footprint; set_solver +|
      apply Hfo; unfold footprint; set_solver +].
    + split; [by eapply Hct|by eapply open_outside].
    + split; [by eapply Hct|by eapply open_outside].
  - intros p Hp Hin. by eapply (open_not_token _ _ _ _ _ _ _ _ _ _ p Hi Ht).
Qed.

(** What is left when the walk is over. *)
Definition cancelled_pipeline (rc : Z) s s' : Prop :=
  settled_future (heap s') f (set_fut_refcount (fut_refcount x - 1) (cancelled x)) /\
  settled_future (heap s') out (set_fut_refcount (fut_refcount y - 2) (cancelled y)) /\
  (forall w, w ∈ W -> awake (heap s') (fds s') w) /\
  (forall p, p ∈ [ctx; op; h; cb] ++ pd_nodes K -> heap s' !! p = None) /\
  token_rep (heap s') t (rc - 2) true [] /\
  (forall r, r ∈ L2 ++ L3 -> heap s' !! reg_node r = Some (dispatched_node r t)) /\
  trace s' = trace s ++ [K_cancel_cb CC_sFutureCancelCallback out; K_cancel_cb CC_sFutureCancelRelease out] ++
    (reg_call <$> L2) ++ (K_cancel_cb CC_sFutureCancelCallback f :: (pd_call f <$> K) ++ [K_cancel_cb CC_sFutureCancelRelease f]) ++
    (reg_call <$> L3).

Lemma nodes_of_pipeline p : p ∈ nodes L <-> p = h \/ p ∈ nodes L2 \/ p = cb \/ p ∈ nodes L3.
Proof. unfold nodes. rewrite fmap_cons, fmap_app, fmap_cons. simpl. rewrite elem_of_cons, elem_of_app, elem_of_cons. done. Qed.
Lemma parties_order : parties -> h ∉ nodes L2 /\ h <> cb /\ h ∉ nodes L3 /\ cb ∉ nodes L2 /\ cb ∉ nodes L3 /\
  NoDup (nodes (L2 ++ attach_reg cb f :: L3)) /\ NoDup (nodes L3) /\ forall p, p ∈ nodes L2 -> p ∉ nodes L3.
Proof.
  intros [_ _ _ Hnd]. unfold nodes in *. rewrite fmap_cons in Hnd. apply NoDup_cons in Hnd as [Hh Hnd]. split_and!; try done.
  all: rewrite fmap_app, fmap_cons in *; simpl in *; apply NoDup_app in Hnd as (? & Hd & Hnd3%NoDup_cons); set_solver.
Qed.

(** From the input's callback on. *)
Lemma walk_input rc s3 cur (R : st -> Prop) :
  parties -> fut_cancel_handle x = cb -> (1 < fut_refcount x)%Z -> int_range (fut_refcount x) -> ctx <> NULL ->
  (3 <= fut_refcount y <= 2 ^ 31 - 1)%Z -> (forall k', k' ∈ K1 ++ K2 -> quiet (pd_call f k')) -> (forall r, r ∈ L3 -> quiet (reg_call r)) ->
  open_future (heap s3) (fds s3) f x K W -> waiting_map ctx op m u fv out out_cancelled s3 ->
  marked_seg (heap s3) t cur (attach_reg cb f :: L3) -> heap s3 !! t = Some (OToken (MkToken rc false true NULL)) ->
  t <> NULL -> (1 < rc)%Z -> int_range rc ->
  (forall s5, settled_future (heap s5) f (set_fut_refcount (fut_refcount x - 1) (cancelled x)) ->
     finished_map ctx op out out_cancelled s5 -> (forall w, w ∈ W -> awake (heap s5) (fds s5) w) ->
     (forall p, p ∈ cb :: pd_nodes K -> heap s5 !! p = None) -> token_rep (heap s5) t (rc - 1) true [] ->
     (forall r, r ∈ L3 -> heap s5 !! reg_node r = Some (dispatched_node r t)) ->
     (forall p, p ∉ t :: cb :: nodes L3 ++ footprint f x K W ++ [ctx; op; out] -> heap s5 !! p = heap s3 !! p) ->
     trace s5 = trace s3 ++ (K_cancel_cb CC_sFutureCancelCallback f :: (pd_call f <$> K) ++ [K_cancel_cb CC_sFutureCancelRelease f]) ++
       (reg_call <$> L3) -> R s5) ->
  WP (Cancel_run_loop cur) (fun _ => R) s3.
Proof.
  intros Hpa Hh Hr1 Hr2 Hc0 Hor HqK HqL Ho Hw Hm Ht Ht0 Hrc Hrci HR. pose proof (parties_order Hpa) as (_ & _ & _ & _ & Hcb3 & _ & Hnd3 & _).
  pose proof Hpa as [Hmap Hin Htn _]. pose proof (of_nodup_k _ _ _ _ _ _ Ho) as HndK.
  assert (Hin3 : forall p, p ∈ t :: cb :: nodes L3 -> p ∈ t :: nodes L).
  { intros p. rewrite !elem_of_cons, nodes_of_pipeline. naive_solver. }
  assert (HM : forall p, p ∈ [ctx; op; out] -> p ∈ map_cells ctx op out out_cancelled) by (unfold map_cells; set_solver +).
  eapply (run_attached_led client f x K W t cb rc L3 (fun p => p ∉ [ctx; op; out]) (fun fd => fd ∉ []) (t :: cb :: footprint f x K W)
    (through_calls k []) (through_inv K2 (waiting_map ctx op m u fv out out_cancelled) (finished_map ctx op out out_cancelled))); try done.
  - apply led_through; [done|done| |].
    + intros P [-> | ->]; [apply waiting_stable|apply finished_stable]; intros p Hp; destruct (Hmap p Hp) as [Hp1 Hp2];
        intros [->|[->|Hp']%elem_of_cons]%elem_of_cons; try done; apply Hp1, Hin3; rewrite !elem_of_cons; auto.
    + intros s1 Hpub Hw1. eapply map_cont_late; [exact Hpub|done|done| |exact Hw1]. simpl. lia.
  - intros p Hp Hp3%HM. destruct (Hmap p Hp3) as [Hp1 Hp2]. rewrite !elem_of_cons, elem_of_app in Hp.
    assert (p ∈ t :: cb :: nodes L3 -> False) by (intros ?%Hin3; done). rewrite !elem_of_cons in *. naive_solver.
  - intros fd _. apply not_elem_of_nil.
  - unfold through_inv. rewrite decide_True; [done|]. rewrite length_app. simpl. lia.
  - lia.
  - apply NoDup_cons. done.
  - rewrite not_elem_of_cons. split; [intros ->|intros Hx]; apply Htn, nodes_of_pipeline; auto.
  - intros cur4 s4 Hm4 Haft Hset Haw Hfree Hrest4 Hfd4 Htr4 HI. unfold token_after in Haft. rewrite bool_decide_eq_false_2 in Haft by lia.
    pose proof Haft as (hd & last & _ & Ht4 & [-> _] & _).
    assert (Htn3 : t ∉ nodes L3) by (intros Hx; apply Htn, nodes_of_pipeline; auto).
    eapply (run_observers client t L3); [done|done|done|done|by eexists|].
    intros s5 Hd5 Hf5 Hfd5 Htr5.
    assert (Hkeep : forall p, p ∉ t :: nodes L -> heap s5 !! p = heap s4 !! p).
    { intros p Hp. apply Hf5. intros Hx. apply Hp. right. apply nodes_of_pipeline. auto. }
    assert (HkeepF : forall p, p ∈ footprint f x K W -> heap s5 !! p = heap s4 !! p) by (intros p Hp; apply Hkeep, Hin, Hp).
    apply HR; try done.
    + eapply settled_frame; [|exact Hset]. intros p Hp. apply HkeepF. unfold footprint. simpl in Hp. set_solver +Hp.
    + unfold through_inv in HI. rewrite decide_False in HI by (simpl; lia).
      eapply (finished_stable (nodes L3) [] ctx op out out_cancelled); [|exact Hf5|by intros; rewrite Hfd5|exact HI].
      intros p Hp Hx. destruct (Hmap p Hp) as [Hp1 _]. apply Hp1. right. apply nodes_of_pipeline. auto.
    + intros w Hw'. eapply awake_frame; [apply HkeepF; by apply footprint_wait|by rewrite Hfd5|by apply Haw].
    + intros p Hp. apply elem_of_cons in Hp as [->|Hp]; [rewrite Hf5 by done; apply Hfree; by left|].
      rewrite HkeepF; [apply Hfree; by right|]. apply list_elem_of_fmap in Hp as (k' & -> & Hk). by apply footprint_cont.
    + eapply token_rep_frame; [|exact Haft]. intros p [->|?%elem_of_nil]%elem_of_cons; [|done]. by apply Hf5.
    + intros p Hp. rewrite !not_elem_of_cons, !not_elem_of_app in Hp. destruct Hp as (? & ? & ? & ? & ?).
      rewrite Hf5 by done. apply Hrest4; [done|]. rewrite !not_elem_of_cons. done.
    + rewrite Htr5, Htr4. rewrite through_all_calls by done. rewrite fmap_app, fmap_cons.
      repeat (rewrite <- !app_assoc; simpl). done.
Qed.

Lemma off_the_input p :
  p ∉ map_cells ctx op out out_cancelled -> p ∉ footprint f x K W -> p <> t -> p <> cb -> p ∉ nodes L3 ->
  p ∉ t :: cb :: nodes L3 ++ footprint f x K W ++ [ctx; op; out].
Proof.
  intros Hm Hf Ht Hc H3 [Hx|[Hx|[Hx|[Hx|Hx]%elem_of_app]%elem_of_app]%elem_of_cons]%elem_of_cons; try done.
  apply Hm. unfold map_cells. set_solver +Hx.
Qed.

Lemma Cancel_pipeline rc s :
  pipeline rc s -> WP (UfsrvCancellationTokenCancel t) (fun _ s' => cancelled_pipeline rc s s') s.
Proof.
  intros Hpi. pose proof (pipeline_parties rc s Hpi) as Hpa. pose proof (parties_order Hpa) as (Hh2 & Hhcb & Hh3 & Hcb2 & Hcb3 & Hnd & Hnd3 & H23).
  pose proof Hpa as [Hmap Hin Htn Hndall]. pose proof Hpi as [Hi Hih [Hir1 Hir2] [Hc0 Hc] Hp Ho Hoh Hor Hap Ht [Hn Hrc] HqK HqL].
  pose proof Ht as (_ & _ & Ht0 & _). rewrite length_cons, length_app, length_cons in Hn.
  assert (HmN : forall p, p ∈ map_cells ctx op out out_cancelled -> p ∉ t :: nodes L) by (intros p Hx; by apply Hmap).
  assert (HN : forall p, p ∈ h :: cb :: nodes L2 ++ nodes L3 -> p ∈ nodes L).
  { intros p. rewrite nodes_of_pipeline, !elem_of_cons, elem_of_app. naive_solver. }
  eapply (Cancel_start (body client)); [exact Ht|]. intros cur s1 Hm1 _ _ Ht1 Hoff Htr1.
  pose proof (off_heap _ _ _ Hoff) as Hh1. pose proof (se_fds _ _ (off_env _ _ _ Hoff)) as Hfd1.
  (* the output *)
  assert (HFo : forall p, p ∈ footprint out y [] [] -> p ∈ map_cells ctx op out out_cancelled).
  { intros p. unfold footprint, map_cells. simpl. set_solver +. }
  eapply (run_attached client out y [] [] t h rc (L2 ++ attach_reg cb f :: L3) _ cur s1); try done; try lia.
  { by intros k' ?%elem_of_nil. }
  { eapply open_frame; [|by intros; rewrite Hfd1|exact Ho]. intros p Hp'. apply Hh1. by apply Hmap, HFo. }
  { unfold int_range. lia. }
  intros cur2 s2 Hm2 Haft2 Hset2 _ Hfree2 Hf2 Hfd2 Htr2. cbn zeta in Hset2. simpl in Htr2.
  unfold token_after in Haft2. rewrite bool_decide_eq_false_2 in Haft2 by lia. pose proof Haft2 as (hd & last & _ & Ht2 & [-> _] & _).
  (* the observers between the two *)
  eapply (run_loop_prefix (body client) t (rc - 1) (t :: nodes L2) L2 (attach_reg cb f :: L3) (fun _ => True) (eq [])
    (fun _ u => fds u = fds s)); try done.
  { apply observes_guided. intros r Hr. apply HqL, elem_of_app. by left. }
  { rewrite <- Hfd1. apply map_eq. intros z. apply Hfd2, not_elem_of_nil. }
  { intros Hx. apply Htn, HN. unfold nodes in *. rewrite fmap_app, fmap_cons in Hx. simpl in Hx. set_solver +Hx. }
  intros cur3 s3 Hm3 Ht3 Hd3 Hf3 Htr3%made_silent Hfd3.
  assert (Hold : forall p, p ∉ t :: nodes L -> p ∉ footprint out y [] [] -> heap s3 !! p = heap s !! p).
  { intros p [Hpt Hpn]%not_elem_of_cons Hpo. rewrite Hf3; [|done|intros Hx; apply Hpn, HN; set_solver +Hx].
    rewrite Hf2; [apply Hh1; by apply not_elem_of_cons|]. rewrite !not_elem_of_cons. split_and!; [done| |done]. intros ->. apply Hpn, HN. by left. }
  assert (Hwait : waiting_map ctx op m u fv out out_cancelled s3).
  { assert (Hmc : forall p, p = ctx \/ p = op -> heap s3 !! p = heap s !! p).
    { intros p Hp'. assert (p ∈ map_cells ctx op out out_cancelled) by (unfold map_cells; set_solver +Hp').
      apply Hold; [by apply Hmap|]. destruct Hp' as [-> | ->]; [by eapply open_outside|]. destruct Hp. by eapply open_outside. }
    split_and!.
    - rewrite Hmc; auto.
    - destruct Hp as [? Hp]. split; [done|]. rewrite Hmc; auto.
    - eapply settled_frame; [|exact Hset2]. intros p Hp'. apply Hf3; [done|]. intros Hx.
      apply (HmN p); [|right; apply HN; set_solver +Hx]. unfold map_cells. by do 2 right. }
  (* the input, and the rest *)
  eapply (walk_input (rc - 1) s3 cur3); try done; [..|lia|unfold int_range in *; lia|].
  { intros r Hr. apply HqL, elem_of_app. by right. }
  { eapply open_frame; [|by intros; rewrite Hfd3|exact Hi]. intros p Hp'. apply Hold; [by apply Hin|]. intros Hx. by apply (Hap p). }
  intros s5 Hset5 (Hctx5 & Hop5 & Hout5) Haw5 Hfree5 Htok5 Hd5 Hf5 Htr5. unfold cancelled_pipeline. split_and!; try done.
  - change (set_fut_refcount (fut_refcount y - 2) (cancelled y)) with (set_fut_refcount (fut_refcount y - 2) out_cancelled).
    replace (fut_refcount y - 2)%Z with (fut_refcount out_cancelled - 1)%Z by (simpl; lia). exact Hout5.
  - intros p [Hp'|Hp']%elem_of_app; [|apply Hfree5; by right]. rewrite !elem_of_cons, elem_of_nil in Hp'.
    destruct Hp' as [->|[->|[->|[->|[]]]]]; [done|done| |apply Hfree5; by left].
    assert (Hhn : h ∉ map_cells ctx op out out_cancelled /\ h ∉ footprint f x K W).
    { split; intros Hx; [apply (HmN h Hx)|apply (Hin h Hx)]; right; apply HN; by left. }
    rewrite Hf5; [rewrite Hf3 by done; apply Hfree2; by left|]. apply off_the_input; [apply Hhn|apply Hhn| |done|done].
    intros Heq. apply Htn, HN. rewrite <- Heq. by left.
  - by replace (rc - 2)%Z with (rc - 1 - 1)%Z by lia.
  - intros r [Hr|Hr]%elem_of_app; [|by apply Hd5]. assert (Hrn : reg_node r ∈ nodes L2) by by apply list_elem_of_fmap_2.
    assert (HrN : reg_node r ∈ nodes L) by (apply HN; set_solver +Hrn). rewrite Hf5; [by apply Hd3|].
    assert (Hnm : reg_node r ∉ map_cells ctx op out out_cancelled /\ reg_node r ∉ footprint f x K W).
    { split; intros Hx; [apply (HmN _ Hx)|apply (Hin _ Hx)]; by right. }
    apply off_the_input; [apply Hnm|apply Hnm| | |by apply H23]; intros Heq; [apply Htn|apply Hcb2]; by rewrite <- Heq.
  - rewrite Htr5, Htr3, Htr2, Htr1. repeat (rewrite <- !app_assoc; simpl). done.
Qed.
End Dispatch.
End Pipeline.

(** C13.  Cancellation completes a pipeline.  Mapping a pending future that is attached
    to a token, memory lasting, attaches the output to that token too.  Cancelling the
    token then completes the output with ECANCELED, runs the callbacks registered
    before the map and after the input's attachment, and completes the input with
    ECANCELED, whose waiters are woken and whose continuations run.  The mapper does
    not run.  The output's promise, the operator's context, both callbacks and the
    continuation nodes are freed, and the token's references are back to what they
    were. *)
Theorem cancel_completes_pipeline {E : Ext} {TS : TreiberSpec E} client f x K W m u fv t cb rc L2 L3 s :
  client_guar client -> wf_machine s -> oracle s = [] ->
  open_future (heap s) (fds s) f x K W -> fut_cancel_token x = t -> fut_cancel_handle x = cb ->
  (1 < fut_refcount x)%Z -> int_range (fut_refcount x) ->
  token_rep (heap s) t rc false (L2 ++ attach_reg cb f :: L3) ->
  (Z.of_nat (length (L2 ++ attach_reg cb f :: L3)) < rc)%Z -> int_range (rc + 2) ->
  (forall k, k ∈ K -> observes (body client) (pd_call f k)) ->
  (forall r, r ∈ L2 ++ L3 -> observes (body client) (reg_call r)) ->
  wp (body client) log (UfsrvFutureMapEx f (Some m) u fv)
    (fun out s1 => out <> NULL /\ exists op ctx n h,
       wp (body client) log (UfsrvCancellationTokenCancel t)
         (fun _ s2 => settled_future (heap s2) f (set_fut_refcount (fut_refcount x - 1) (complete_with (error_result ECANCELED) x)) /\
            (exists z, settled_future (heap s2) out z /\ fut_result z = error_result ECANCELED /\ fut_refcount z = 1%Z) /\
            (forall w, w ∈ W -> awake (heap s2) (fds s2) w) /\
            (forall p, p ∈ [ctx; op; h; cb; n] ++ pd_nodes K -> heap s2 !! p = None) /\
            token_rep (heap s2) t rc true [] /\
            (forall r, r ∈ L2 ++ L3 -> heap s2 !! reg_node r = Some (dispatched_node r t)) /\
            trace s2 = trace s ++ [K_cancel_cb CC_sFutureCancelCallback out; K_cancel_cb CC_sFutureCancelRelease out] ++
              (reg_call <$> L2) ++
              (K_cancel_cb CC_sFutureCancelCallback f :: K_future_cb CB_sMapContinuation f ctx :: (pd_call f <$> K) ++
                [K_cancel_cb CC_sFutureCancelRelease f]) ++
              (reg_call <$> L3)) s1) s.
Proof.
  intros Hc Hwf Hor Ho Htk Hcb Hr1 Hr2 Htok Hlen Hrc HqK HqL.
  eapply wp_mono; [by eapply (map_inherits client f m u fv x K W t rc (L2 ++ attach_reg cb f :: L3))|].
  intros out s1 (Hf1 & Ht1 & [(_ & Hoom & _)|(op & c & w & ctx & n & Hih)]); [done|].
  destruct Hih as [Hp [[? _]|(h & Hh0 & Hhs & Hhn & Hopen & Htok1)] Hctx Hin Hfresh Hnd Hrest]; [done|].
  split; [apply Hopen|]. exists op, ctx, n, h.
  eapply wp_mono; [apply (Cancel_pipeline client f x [] K W n ctx op m u fv out (attached t h (new_future c w)) t cb h L2 L3 (rc + 0 + 2) s1)|].
  - split; try done.
    + intros p Hp' Hpf. assert (Hpn : p ∈ [out; c; w]) by (unfold footprint in Hp'; simpl in Hp'; set_solver +Hp').
      assert (Hpn' : p ∈ [op; out; c; w; ctx; n]) by set_solver +Hpn.
      assert (p = n \/ p ∈ footprint f x K W) as [->|Hpf'].
      { unfold footprint in *. simpl in Hpf. rewrite !elem_of_cons in *. naive_solver. }
      * rewrite !NoDup_cons in Hnd. set_solver.
      * destruct (open_allocated _ _ _ _ _ _ _ Ho Hpf'). rewrite Hfresh in *; done.
    + split; [rewrite length_cons; lia|]. by replace (rc + 0 + 2)%Z with (rc + 2)%Z by lia.
  - intros _ s2 (Hsf & Hso & Haw & Hfree & Ht2 & Hd & Htr). split_and!; try done.
    + eexists. split; [exact Hso|done].
    + by replace (rc + 0 + 2 - 2)%Z with rc in Ht2 by lia.
    + by rewrite Htr, Ht1.
Qed.

(** ** Witness: [map] on the attached future, one observer on the token *)
#[local] Existing Instances RefExt.ext RefExt.treiber.

Lemma cancel_completes_pipeline_witness :
  wp (body quiet_client) log (UfsrvFutureMapEx fut (Some 5%N) 50%N None)
    (fun out s1 => out <> NULL /\ exists op ctx n h,
       wp (body quiet_client) log (UfsrvCancellationTokenCancel tok)
         (fun _ s2 => settled_future (heap s2) fut
              (set_fut_refcount (fut_refcount attached_cell - 1) (complete_with (error_result ECANCELED) attached_cell)) /\
            (exists z, settled_future (heap s2) out z /\ fut_result z = error_result ECANCELED /\ fut_refcount z = 1%Z) /\
            (forall w, w ∈ [] -> awake (heap s2) (fds s2) w) /\
            (forall p, p ∈ [ctx; op; h; 8%N; n] ++ pd_nodes conts -> heap s2 !! p = None) /\
            token_rep (heap s2) tok 4 true [] /\
            (forall r, r ∈ [] ++ regs -> heap s2 !! reg_node r = Some (dispatched_node r tok)) /\
            trace s2 = trace attached_st ++
              [K_cancel_cb CC_sFutureCancelCallback out; K_cancel_cb CC_sFutureCancelRelease out] ++ (reg_call <$> []) ++
              (K_cancel_cb CC_sFutureCancelCallback fut :: K_future_cb CB_sMapContinuation fut ctx :: (pd_call fut <$> conts) ++
                [K_cancel_cb CC_sFutureCancelRelease fut]) ++
              (reg_call <$> regs)) s1) attached_st.
Proof.
  apply (cancel_completes_pipeline quiet_client fut attached_cell conts [] 5%N 50%N None tok 8%N 4 [] regs attached_st).
  - apply quiet_guar.
  - apply attached_wf.
  - vm_compute. reflexivity.
  - apply attached_open.
  - reflexivity.
  - reflexivity.
  - reflexivity.
  - split; [vm_compute; discriminate|reflexivity].
  - apply attached_token.
  - reflexivity.
  - split; [vm_compute; discriminate|reflexivity].
  - apply ready_conts.
  - apply ready_regs.
Defined.
