(* ===== verification/MovingFacts.v ===== *)
(** * MovingFacts: the operators that move a result on

    [doOnSuccess] and the success path of [onError] hand the input's result over to
    the output, once; [flatMap] and the recovery path of [onError] hand over the
    result of an inner future, at once if it is complete and later if it is not. *)
From Stdlib Require Import FunctionalExtensionality.
From S2P Require Import Prelude Machine Uflib Model Cancellation Scheduler Coroutine Future Waiting.
From S2P Require Import Operators Dispatch Logic Guarantee CancellationFacts FutureFacts Demo OperatorFacts.
Local Open Scope prog_scope.

Section Moving.
Context {E : Ext} {TS : TreiberSpec E} (client : Client).
#[local] Abbreviation WPS := (wps (body client) log).
#[local] Abbreviation WP := (wp (body client) log).
#[local] Abbreviation quiet := (observes (body client)).
#[local] Abbreviation output := (output client).

(** ** Moving a result *)

(** A future whose result is taken by the first mover. *)
Definition moved (x : UfsrvFuture) : UfsrvFuture :=
  if fut_is_consumed x then x else set_fut_result zero_result (set_fut_is_consumed true x).
Definition moved_result (x : UfsrvFuture) : UfsrvFutureResult :=
  if fut_is_consumed x then error_result EINVAL else fut_result x.

Lemma set_consumed_id x : fut_is_consumed x = true -> set_fut_is_consumed true x = x.
Proof. by destruct x; simpl; intros ->. Qed.

Lemma settle_error_is op e : settle_error op e = settle op (error_result e).
Proof. reflexivity. Qed.

Lemma forward_once_spec f x op out y K W s :
  heap s !! f = Some (OFuture x) -> output op out y K W s -> f ∉ ou_cells op out y K W ->
  WP (forward_once f op f)
    (fun _ s' => received op out y K W (moved_result x) s' /\ heap s' !! f = Some (OFuture (moved x)) /\
       only_changed (f :: ou_cells op out y K W) (sl_fds W) s s' /\ trace s' = trace s ++ (pd_call out <$> K)) s.
Proof.
  intros Hf Hou Hni. unfold forward_once, sConsumeOnce, moved, moved_result. wp_steps.
  assert (Hne : forall p, p ∈ ou_cells op out y K W -> p <> f) by (intros p Hp ->; done).
  set (s1 := store_cell _ _ s). assert (Hou1 : output op out y K W s1).
  { eapply output_frame; [| |exact Hou]; [|done]. intros p Hp. specialize (Hne p Hp). simpl. lk. }
  destruct (fut_is_consumed x) eqn:Hc; simpl; wp_steps.
  - rewrite ?bind_ret_r, settle_error_is. eapply wp_mono; [by eapply settle_spec|].
    simpl. intros _ s2 (Hr & [Hh Hfd] & Ht). split_and!; try done.
    + rewrite Hh by done. simpl. lk. by rewrite set_consumed_id.
    + split; [|done]. intros p [? Hp]%not_elem_of_cons. rewrite Hh by done. simpl. lk.
  - eapply wps_seq; [by eapply settle_spec|]. simpl. intros _ s2 (Hr & [Hh Hfd] & Ht).
    assert (Hf2 : heap s2 !! f = Some (OFuture (set_fut_is_consumed true x))) by (rewrite Hh by done; simpl; lk).
    wp_steps. split_and!; try done; [|simpl; lk|].
    + eapply (received_frame _ _ _ _ _ _ s2); [|done|done]. intros p Hp. specialize (Hne p Hp). simpl. lk.
    + split; [|done]. intros p [? Hp]%not_elem_of_cons. simpl. lk. rewrite Hh by done. simpl. lk.
Qed.

(** An operator's continuation ends by freeing its context. *)
Lemma free_ctx_spec ctx ob (p : cprog unit) op out y K W r M MF cs (R : st -> Prop) s :
  ctx <> NULL -> heap s !! ctx = Some ob -> ctx ∉ ou_cells op out y K W -> ctx ∉ M ->
  (forall s', R s' -> R (with_heap (delete ctx) s')) ->
  WP p (fun _ s' => received op out y K W r s' /\ only_changed M MF s s' /\ trace s' = trace s ++ cs /\ R s') s ->
  WP (p ;; free ctx ;; Ret NULL)%prog
    (fun _ s' => heap s' !! ctx = None /\ received op out y K W r s' /\ only_changed (ctx :: M) MF s s' /\
       trace s' = trace s ++ cs /\ R s') s.
Proof.
  intros Hc0 Hc Hni HM HR Hp. eapply wps_seq; [exact Hp|]. simpl. intros _ s1 (Hrv & [Hh Hf] & Ht & HRs).
  assert (Hc1 : heap s1 !! ctx = Some ob) by by rewrite Hh.
  wp_steps. split_and!; try done; [apply lookup_delete_eq| | |by apply HR].
  - eapply (received_frame _ _ _ _ _ _ s1); [|done|done]. intros q Hq. simpl. apply lookup_delete_ne. by intros ->.
  - split; [|done]. intros q [? Hq]%not_elem_of_cons. simpl. rewrite lookup_delete_ne by done. by apply Hh.
Qed.

Definition action_calls (a : N) (u : ptr) (r : UfsrvFutureResult) : list code :=
  if bool_decide (res_error r = 0)%Z then [K_action a (res_value r) u] else [].

Lemma on_success_cont_spec f x ctx op a u out y K W s :
  heap s !! f = Some (OFuture x) -> ctx <> NULL ->
  heap s !! ctx = Some (ODoOnSuccessContext (MkDoOnSuccessContext op a u f)) ->
  output op out y K W s -> f ∉ ou_cells op out y K W ->
  (forall c, c ∈ action_calls a u (fut_result x) -> quiet c) ->
  WP (sDoOnSuccessContinuation f ctx)
    (fun _ s' => heap s' !! ctx = None /\ received op out y K W (moved_result x) s' /\
       only_changed (ctx :: f :: ou_cells op out y K W) (sl_fds W) s s' /\
       trace s' = trace s ++ action_calls a u (fut_result x) ++ (pd_call out <$> K) /\
       heap s' !! f = Some (OFuture (moved x))) s.
Proof.
  intros Hf Hc0 Hc Hou Hni Hq. unfold sDoOnSuccessContinuation, action_calls in *.
  assert (Hcx : ctx ∉ ou_cells op out y K W).
  { destruct Hou as [[_ Hp] Ho _ _ _]. apply not_elem_of_cons. split; [congruence|by eapply open_outside]. }
  assert (Hend : forall s1 cs, heap s1 = heap s -> fds s1 = fds s -> trace s1 = trace s ++ cs ->
    WP (let! in_future := rd ds_in_future ctx in let! out_promise := rd ds_out_promise ctx in
        forward_once in_future out_promise f ;; free ctx ;; Ret NULL)%prog
      (fun _ s' => heap s' !! ctx = None /\ received op out y K W (moved_result x) s' /\
         only_changed (ctx :: f :: ou_cells op out y K W) (sl_fds W) s s' /\
         trace s' = trace s ++ cs ++ (pd_call out <$> K) /\ heap s' !! f = Some (OFuture (moved x))) s1).
  { intros s1 cs Hh1 Hf1 Ht1. rewrite <- Hh1 in Hf, Hc. wp_steps.
    eapply wp_mono; [eapply (free_ctx_spec ctx _ (forward_once f op f) op out y K W (moved_result x)
      (f :: ou_cells op out y K W) (sl_fds W) (pd_call out <$> K) (fun s' => heap s' !! f = Some (OFuture (moved x))))|];
      [done|exact Hc|done| | | |].
    - apply not_elem_of_cons. split; [congruence|done].
    - intros s' Hs'. simpl. rewrite lookup_delete_ne by congruence. done.
    - eapply wp_mono; [eapply forward_once_spec; [exact Hf| |done]|].
      + eapply output_frame; [| |exact Hou]; intros; by rewrite ?Hh1, ?Hf1.
      + simpl. naive_solver.
    - simpl. intros _ s' (? & ? & [Hh' Hf'] & Ht' & ?). split_and!; try done.
      + split; intros; rewrite ?Hh', ?Hf' by done; by rewrite ?Hh1, ?Hf1.
      + by rewrite Ht', Ht1, <- app_assoc. }
  wp_steps. case_bool_decide as He.
  - wp_steps. eapply wp_call_bind; [apply Hq; by left|]. simpl. intros _ s1 (Hh1 & Hf1 & Ht1).
    by apply (Hend s1 [K_action a (res_value (fut_result x)) u]).
  - apply (Hend s []); try done. by rewrite app_nil_r.
Qed.

(** ** Following an inner future *)
Definition own_cells (f : ptr) (x : UfsrvFuture) : list ptr := [f; fut_continuations x; fut_waiters x].
(** One reference to the completed future [z] is given up. *)
Definition let_go (next : ptr) (z : UfsrvFuture) (s : st) : Prop :=
  if bool_decide (fut_refcount z = 1%Z) then forall p, p ∈ own_cells next z -> heap s !! p = None
  else settled_future (heap s) next (set_fut_refcount (fut_refcount z - 1) z).

Lemma let_go_spec next z s :
  settled_future (heap s) next z -> fut_cancel_token z = NULL -> (1 <= fut_refcount z <= 2 ^ 31 - 1)%Z ->
  (fut_refcount z = 1%Z -> forall c, c ∈ dispose (fut_result z) -> quiet c) ->
  WP (UfsrvFutureRelease next)
    (fun _ s' => let_go next z s' /\ only_changed (own_cells next z) [] s s' /\
       trace s' = trace s ++ (if bool_decide (fut_refcount z = 1%Z) then dispose (fut_result z) else [])) s.
Proof.
  intros Hs Ht Hr Hq. unfold let_go. case_bool_decide as H1.
  - eapply wp_mono; [eapply (Release_last _ next z (fun _ => True) (fun _ => True) (eq [])); try done|].
    + intros c Hc. by apply observes_mannered, Hq.
    + simpl. intros _ s' (Hg & Hh & Hf & ->%made_silent). split_and!; [done| |done].
      split; [intros p Hp; by apply Hh|intros fd _; by apply Hf].
  - eapply wp_mono; [apply (Release_shared _ next z); [apply Hs|apply Hs|done]|]. simpl. intros _ s' ->.
    rewrite wrap_i32_id by (unfold int_range; lia). rewrite app_nil_r. split_and!; [|split; [|done]|done].
    + replace (fut_refcount z + -1)%Z with (fut_refcount z - 1)%Z by lia. by eapply settled_update.
    + intros p [? _]%not_elem_of_cons. simpl. lk.
Qed.

(** The continuation [UfsrvFutureFlatMap] and [UfsrvFutureOnError] leave on an inner
    future: it hands the inner result over to the output. *)
Lemma move_chain_spec next z op out y K W s :
  heap s !! next = Some (OFuture z) -> output op out y K W s -> next ∉ ou_cells op out y K W ->
  WP (sMoveChainContinuation next op)
    (fun _ s' => received op out y K W (fut_result z) s' /\
       heap s' !! next = Some (OFuture (set_fut_result zero_result z)) /\
       only_changed (next :: ou_cells op out y K W) (sl_fds W) s s' /\
       trace s' = trace s ++ (pd_call out <$> K)) s.
Proof.
  intros Hn Hou Hni. unfold sMoveChainContinuation. wp_steps. rewrite <- bind_bind.
  change (bind (UfsrvPromiseSetResult op (fut_result z)) (fun _ => UfsrvPromiseDestroy op))
    with (settle op (fut_result z)).
  eapply wps_seq; [by eapply settle_spec|]. simpl. intros _ s1 (Hr & [Hh Hf] & Ht).
  assert (Hn1 : heap s1 !! next = Some (OFuture z)) by by rewrite Hh.
  assert (Hne : forall p, p ∈ ou_cells op out y K W -> p <> next) by (intros p Hp ->; done).
  wp_steps. split_and!; [|simpl; lk| |done].
  - eapply (received_frame _ _ _ _ _ _ s1); [|done|done]. intros p Hp. specialize (Hne p Hp). simpl. lk.
  - split; [|done]. intros p [? Hp]%not_elem_of_cons. simpl. lk. by apply Hh.
Qed.

(** The calls made when the inner future is complete already. *)
Definition chain_calls (next op out : ptr) (z : UfsrvFuture) (K : list pending) : list code :=
  if fut_is_consumed z
  then (pd_call out <$> K) ++ (if bool_decide (fut_refcount z = 1%Z) then dispose (fut_result z) else [])
  else K_future_cb CB_sMoveChainContinuation next op :: (pd_call out <$> K).

Lemma moved_settled h f x : settled_future h f x -> settled_future (<[f := OFuture (moved x)]> h) f (moved x).
Proof. intros Hs. unfold moved. by case_match; eapply settled_update. Qed.

(** The end of [chain_inner]: the inner future, whose cell is [u] by now, is released. *)
Lemma release_chained next z u r op out y K W cs s s2 :
  (forall p, p ∈ own_cells next z -> p ∉ ou_cells op out y K W) ->
  settled_future (heap s2) next u -> fut_cancel_token u = NULL ->
  fut_continuations u = fut_continuations z -> fut_waiters u = fut_waiters z -> fut_refcount u = fut_refcount z ->
  (1 <= fut_refcount z <= 2 ^ 31 - 1)%Z -> (forall c, c ∈ dispose (fut_result u) -> quiet c) ->
  received op out y K W r s2 -> only_changed (own_cells next z ++ ou_cells op out y K W) (sl_fds W) s s2 ->
  trace s2 = trace s ++ cs ->
  WP (UfsrvFutureRelease next) (fun _ s' => received op out y K W r s' /\ let_go next u s' /\
    only_changed (own_cells next z ++ ou_cells op out y K W) (sl_fds W) s s' /\
    trace s' = trace s ++ cs ++ (if bool_decide (fut_refcount z = 1%Z) then dispose (fut_result u) else [])) s2.
Proof.
  intros Hdis Hu Hut Huc Huw Hur Href Huq Hrv [Hh Hf] Ht.
  eapply wp_mono; [eapply (let_go_spec next u); try done; by rewrite Hur|]. simpl.
  intros _ s3 (Hl & [Hh3 Hf3] & Ht3). rewrite Hur, Ht in Ht3. unfold own_cells in Hh3. rewrite Huc, Huw in Hh3.
  split_and!; [|done| |by rewrite Ht3, <- app_assoc].
  - eapply (received_frame _ _ _ _ _ _ s2); [|intros; apply Hf3, not_elem_of_nil|done].
    intros p Hp. apply Hh3. intros Hin. by apply (Hdis p Hin).
  - split.
    + intros p Hp. rewrite Hh3 by set_solver. by apply Hh.
    + intros fd Hp. rewrite Hf3 by apply not_elem_of_nil. by apply Hf.
Qed.

Lemma chain_ready next z op out y K W s :
  settled_future (heap s) next z -> fut_cancel_token z = NULL -> (1 <= fut_refcount z <= 2 ^ 31 - 1)%Z ->
  (forall c, c ∈ dispose (fut_result z) -> quiet c) ->
  output op out y K W s -> (forall p, p ∈ own_cells next z -> p ∉ ou_cells op out y K W) ->
  WP (chain_inner next op)
    (fun _ s' => received op out y K W (moved_result z) s' /\ let_go next (moved z) s' /\
       only_changed (own_cells next z ++ ou_cells op out y K W) (sl_fds W) s s' /\
       trace s' = trace s ++ chain_calls next op out z K) s.
Proof.
  intros Hs Htok Href Hq Hou Hdis. unfold chain_inner, sConsumeOnce, chain_calls, moved_result.
  pose proof (sf_fut _ _ _ Hs) as Hn. pose proof (sf_null _ _ _ Hs) as Hn0.
  assert (Hnext : next ∉ ou_cells op out y K W) by (apply Hdis; by left).
  set (z1 := set_fut_is_consumed true z). wp_steps. set (s1 := store_cell _ _ s).
  assert (Hs1 : settled_future (heap s1) next z1) by by eapply settled_update.
  assert (Hou1 : output op out y K W s1).
  { eapply output_frame; [| |exact Hou]; [|done]. intros p Hp. assert (p <> next) by (intros ->; done). simpl. lk. }
  assert (Hoc1 : forall p, p <> next -> heap s1 !! p = heap s !! p) by (intros; simpl; lk).
  unfold moved. destruct (fut_is_consumed z) eqn:Hc; simpl; wp_steps.
  - rewrite settle_error_is. eapply wps_seq; [by eapply settle_spec|]. simpl. intros _ s2 (Hrv & [Hh Hf] & Ht).
    rewrite ?bind_ret_r. apply (release_chained next z z); try done.
    + replace z with z1 by by apply set_consumed_id. eapply settled_frame; [|exact Hs1].
      intros p Hp. apply Hh. by apply Hdis.
    + split; [|intros fd Hfd; rewrite Hf by done; done]. intros p [[Hp _]%not_elem_of_cons Hp']%not_elem_of_app.
      rewrite Hh by done. by apply Hoc1.
  - pose proof (sf_fut _ _ _ Hs1) as Hz1. pose proof (sf_ready _ _ _ Hs) as Hready.
    unfold sFutureThen, future_is_ready. rewrite (is_null_false next) by done. wp_steps. rewrite Hready. simpl. wp_steps.
    eapply wp_call_bind.
    { eapply (move_chain_spec next z1 op out y K W); [exact Hz1| |done].
      eapply output_frame; [| |exact Hou1]; done. }
    simpl. intros _ s2 (Hrv & Hn2 & [Hh Hf] & Ht). wp_steps. rewrite ?bind_ret_r.
    eapply wp_mono; [apply (release_chained next z (set_fut_result zero_result z1) (fut_result z) op out y K W
      (K_future_cb CB_sMoveChainContinuation next op :: (pd_call out <$> K)) s s2); try done|].
    + eapply (settled_frame (<[next := OFuture (set_fut_result zero_result z1)]> (heap s1))); [|by eapply settled_update].
      intros p Hp. simpl in Hp. destruct (decide (p = next)) as [->|]; [by rewrite lookup_insert_eq|].
      rewrite lookup_insert_ne by done. rewrite Hh; [done|]. apply not_elem_of_cons. split; [done|]. by apply Hdis.
    + intros c Hcc. by apply elem_of_nil in Hcc.
    + split; [|intros fd Hfd; rewrite Hf by done; done]. intros p [[Hp _]%not_elem_of_cons Hp']%not_elem_of_app.
      rewrite Hh by by apply not_elem_of_cons. by apply Hoc1.
    + rewrite Ht. simpl. by rewrite <- app_assoc.
    + simpl. intros _ s3 (? & ? & ? & Ht3). split_and!; try done. rewrite Ht3. by case_bool_decide; rewrite ?app_nil_r.
Qed.

Definition waited (z : UfsrvFuture) : UfsrvFuture :=
  set_fut_refcount (fut_refcount z - 1) (set_fut_is_consumed true z).
(** The inner future is pending: the continuation that will hand its result over is
    registered on it, unless there was no memory for its node, in which case the
    output is abandoned for good. *)
Definition chained (next : ptr) (z : UfsrvFuture) KN WN (op : ptr) (M : list ptr) (s s' : st) : Prop :=
  fds s' = fds s /\ trace s' = trace s /\
  ((exists n, heap s !! n = None /\
      open_future (heap s') (fds s') next (waited z) (Pend n CB_sMoveChainContinuation op :: KN) WN /\
      forall p, p ∉ M ++ [n; next; fut_continuations z] -> heap s' !! p = heap s !! p) \/
   (oracle s <> [] /\ open_future (heap s') (fds s') next (waited z) KN WN /\
      forall p, p ∉ M ++ [next] -> heap s' !! p = heap s !! p)).

Lemma chain_pending next z KN WN op out y K W s :
  wf_alloc s -> open_future (heap s) (fds s) next z KN WN -> fut_is_consumed z = false ->
  (2 <= fut_refcount z <= 2 ^ 31 - 1)%Z ->
  output op out y K W s -> (forall p, p ∈ footprint next z KN WN -> p ∉ ou_cells op out y K W) ->
  WP (chain_inner next op)
    (fun _ s' => output op out y K W s' /\ chained next z KN WN op [] s s') s.
Proof.
  intros Hwf Ho Hc Href Hou Hdis. unfold chain_inner, sConsumeOnce, chained.
  pose proof (of_fut _ _ _ _ _ _ Ho) as Hn. pose proof (of_null _ _ _ _ _ _ Ho) as Hn0.
  assert (Hne : forall p, p ∈ ou_cells op out y K W -> p <> next /\ p <> fut_continuations z).
  { intros p Hp. split; intros ->; eapply (Hdis _); try exact Hp; unfold footprint; set_solver. }
  wp_steps. rewrite Hc. simpl. wp_steps. set (s1 := store_cell _ _ s).
  assert (Hs1 : forall p, p <> next -> heap s1 !! p = heap s !! p) by (intros; simpl; lk).
  assert (Ho1 : open_future (heap s1) (fds s1) next (set_fut_is_consumed true z) KN WN) by by eapply open_update.
  assert (Hwf1 : wf_alloc s1).
  { destruct Hwf as [? Hfr]. split; [done|]. intros p Hp. rewrite Hs1; [by apply Hfr|]. intros ->. rewrite Hfr in Hn; [done|exact Hp]. }
  assert (Hend : forall ok s2 K2, open_future (heap s2) (fds s2) next (set_fut_is_consumed true z) K2 WN ->
    (forall p, p ∈ ou_cells op out y K W -> heap s2 !! p = heap s !! p) -> fds s2 = fds s -> trace s2 = trace s ->
    WP (UfsrvFutureRelease next) (fun _ s' => output op out y K W s' /\ fds s' = fds s /\ trace s' = trace s /\
      open_future (heap s') (fds s') next (waited z) K2 WN /\ (forall p, p <> next -> heap s' !! p = heap s2 !! p) /\
      ok = ok :> bool) s2).
  { intros ok s2 K2 Ho2 Hh2 Hf2 Ht2.
    eapply wp_mono; [apply (Release_shared _ next (set_fut_is_consumed true z)); [apply Ho2|done|simpl; lia]|].
    simpl. intros _ s' ->. rewrite wrap_i32_id by (unfold int_range; lia). split_and!; try done.
    - eapply output_frame; [| |exact Hou]; [|intros; simpl; by rewrite Hf2]. intros p Hp. destruct (Hne p Hp).
      simpl. lk. by apply Hh2.
    - simpl. replace (fut_refcount z + -1)%Z with (fut_refcount z - 1)%Z by lia. by eapply open_update.
    - intros p Hp. simpl. lk. }
  eapply wps_seq.
  { apply wp_or_oom; [by apply (sFutureThen_open (body client) next CB_sMoveChainContinuation op)|].
    intros Hor. by eapply (sFutureThen_plenty client next). }
  simpl. intros ok s2 (Hok & Ht2 & Hf2 & [[-> Hh2]|(-> & n & Hnn & Ho2 & Hs2)]); wp_steps; rewrite ?bind_ret_r.
  - eapply wp_mono; [apply (Hend false s2 KN)|]; try done.
    + by rewrite Hh2, Hf2.
    + intros p Hp. destruct (Hne p Hp). rewrite Hh2. by apply Hs1.
    + simpl. intros _ s3 (? & ? & ? & ? & Hs3 & _). split_and!; try done. right. split_and!; try done.
      * intros Hor. by specialize (Hok Hor).
      * intros p [? _]%not_elem_of_cons. rewrite Hs3 by done. rewrite Hh2. by apply Hs1.
  - assert (Hnn' : heap s !! n = None).
    { rewrite <- Hs1; [done|]. intros ->. pose proof (of_fut _ _ _ _ _ _ Ho1). simpl in *. congruence. }
    assert (Hnou : forall p, p ∈ ou_cells op out y K W -> p <> n).
    { intros p Hp ->. destruct Hou as [[_ Hpr] Hoo _ _ _]. apply elem_of_cons in Hp as [->|Hp]; [congruence|].
      destruct (open_allocated _ _ _ _ _ _ _ Hoo Hp). congruence. }
    eapply wp_mono; [apply (Hend true s2 (Pend n CB_sMoveChainContinuation op :: KN))|]; try done.
    + intros p Hp. destruct (Hne p Hp). rewrite Hs2 by (done || by apply Hnou). by apply Hs1.
    + simpl. intros _ s3 (? & ? & ? & ? & Hs3 & _). split_and!; try done. left. exists n. split_and!; try done.
      intros p Hp. simpl in Hp. rewrite !not_elem_of_cons in Hp. destruct Hp as (? & ? & ? & _).
      rewrite Hs3 by done. rewrite Hs2 by done. by apply Hs1.
Qed.


(** ** flatMap and onError *)

(** The call [c] from [s] returns [v] and ends in [s1]. *)
Definition runs_to (c : code) (v : ptr) (s s1 : st) : Prop :=
  WP (body client c) (fun w s' => w = v /\ s' = s1) (log c s).

(** The continuation is over: the context freed, the output completed with [r]. *)
Definition handed_over (ctx op out : ptr) (y : UfsrvFuture) (K : list pending) (W : list sleeper)
    (r : UfsrvFutureResult) (M : list ptr) (cs : list code) (s s' : st) : Prop :=
  heap s' !! ctx = None /\ received op out y K W r s' /\ only_changed (ctx :: M) (sl_fds W) s s' /\
  trace s' = trace s ++ cs.

(** An operator context, whatever its type, is none of the output's cells. *)
Lemma ctx_outside ctx ob op out y K W s :
  output op out y K W s -> heap s !! ctx = Some ob -> (forall z, ob <> OFuture z) -> (forall z, ob <> OStack z) ->
  (forall z, ob <> OContinuation z) -> (forall z, ob <> OWaiter z) -> (forall z, ob <> OPromise z) ->
  ctx ∉ ou_cells op out y K W.
Proof.
  intros [[_ Hp] Ho _ _ _] Hc ???? Hpr. apply not_elem_of_cons. split; [|by eapply open_outside].
  intros ->. rewrite Hp in Hc. injection Hc as <-. by eapply Hpr.
Qed.

(** The body of a continuation, then the release of its context. *)
Lemma hand_over ctx ob (p : cprog unit) op out y K W r M cs (R : st -> Prop) s :
  ctx <> NULL -> heap s !! ctx = Some ob -> ctx ∉ ou_cells op out y K W -> ctx ∉ M ->
  (forall s', R s' -> R (with_heap (delete ctx) s')) ->
  WP p (fun _ s' => received op out y K W r s' /\ only_changed M (sl_fds W) s s' /\ trace s' = trace s ++ cs /\ R s') s ->
  WP (p ;; free ctx ;; Ret NULL)%prog (fun _ s' => handed_over ctx op out y K W r M cs s s' /\ R s') s.
Proof.
  intros. eapply wp_mono; [by eapply (free_ctx_spec ctx ob p op out y K W r M (sl_fds W) cs R)|].
  unfold handed_over. simpl. naive_solver.
Qed.

(** Failing with [e]; [R] holds of the memory outside the output. *)
Lemma hand_over_error ctx ob (q : cprog unit) op out y K W e s :
  ctx <> NULL -> heap s !! ctx = Some ob -> ctx ∉ ou_cells op out y K W -> output op out y K W s ->
  (forall s', heap s' !! ctx = Some ob -> WP q (fun _ s'' => s'' = s') s') ->
  WP ((settle_error op e ;; q) ;; free ctx ;; Ret NULL)%prog
    (fun _ s' => handed_over ctx op out y K W (error_result e) (ou_cells op out y K W) (pd_call out <$> K) s s') s.
Proof.
  intros Hc0 Hc Hni Hou Hq. eapply wp_mono.
  - eapply (hand_over ctx ob (settle_error op e ;; q)%prog op out y K W (error_result e) _ _ (fun _ => True)); try done.
    rewrite settle_error_is. eapply wps_seq; [by eapply settle_spec|]. simpl. intros _ s1 (Hr & Ho & Ht).
    eapply wp_mono; [apply Hq; rewrite (oc_heap _ _ _ _ Ho) by done; exact Hc|]. simpl. intros _ s' ->. by split_and!.
  - simpl. naive_solver.
Qed.

Section Inner.
Context (f : ptr) (r : UfsrvFutureResult) (ctx op out : ptr) (y : UfsrvFuture) (K : list pending) (W : list sleeper)
  (ob : obj).
#[local] Abbreviation cells := (ou_cells op out y K W).
#[local] Abbreviation handed := (handed_over ctx op out y K W).

(** An inner future: complete; or pending, and not moved from yet. *)
Record inner_ready (v : ptr) (z : UfsrvFuture) (s : st) : Prop := {
  ir_settled : settled_future (heap s) v z;
  ir_token : fut_cancel_token z = NULL;
  ir_refs : (1 <= fut_refcount z <= 2 ^ 31 - 1)%Z;
  ir_quiet c : c ∈ dispose (fut_result z) -> quiet c;
  ir_apart p : p ∈ own_cells v z -> p ∉ ctx :: cells;
}.
Record inner_pending (v : ptr) (z : UfsrvFuture) KN WN (s : st) : Prop := {
  ip_wf : wf_alloc s;
  ip_open : open_future (heap s) (fds s) v z KN WN;
  ip_fresh : fut_is_consumed z = false;
  ip_refs : (2 <= fut_refcount z <= 2 ^ 31 - 1)%Z;
  ip_apart p : p ∈ footprint v z KN WN -> p ∉ ctx :: cells;
}.

(** The continuation [p] calls the client's [c]; when that returns the future [v] in
    state [s1], having left input, context and output alone, the output follows
    [v]; when it returns NULL the output fails with [e]. *)
Definition follows_inner (p : cprog ptr) (c : code) (e : Z) (s : st) : Prop :=
  forall v s1, runs_to c v s s1 -> published f r s1 -> heap s1 !! ctx = Some ob -> output op out y K W s1 ->
    (v = NULL -> WP p (fun _ => handed (error_result e) cells (pd_call out <$> K) s1) s) /\
    (forall z, inner_ready v z s1 ->
       WP p (fun _ s' => handed (moved_result z) (own_cells v z ++ cells) (chain_calls v op out z K) s1 s' /\
                         let_go v (moved z) s') s) /\
    (forall z KN WN, inner_pending v z KN WN s1 ->
       WP p (fun _ s' => heap s' !! ctx = None /\ output op out y K W s' /\ chained v z KN WN op [ctx] s1 s') s).

Lemma follow_ready v z s :
  ctx <> NULL -> heap s !! ctx = Some ob -> ctx ∉ cells -> output op out y K W s -> inner_ready v z s ->
  WP (chain_inner v op ;; free ctx ;; Ret NULL)%prog
    (fun _ s' => handed (moved_result z) (own_cells v z ++ cells) (chain_calls v op out z K) s s' /\
                 let_go v (moved z) s') s.
Proof.
  intros Hc0 Hc Hni Hou []. assert (Hctx : ctx ∉ own_cells v z) by (intros Hin; apply (ir_apart0 _ Hin); by left).
  assert (Hsame : own_cells v (moved z) = own_cells v z) by (unfold moved, own_cells; by case_match).
  eapply (hand_over ctx ob (chain_inner v op)); try done.
  - by apply not_elem_of_app.
  - intros s' Hl. unfold let_go in *. rewrite Hsame in *. case_bool_decide.
    + intros p Hp. simpl. destruct (decide (p = ctx)) as [->|]; [done|]. rewrite lookup_delete_ne by done. by apply Hl.
    + eapply settled_frame; [|exact Hl]. intros p Hp. simpl. apply lookup_delete_ne. intros <-. apply Hctx.
      rewrite <- Hsame. done.
  - eapply wp_mono; [eapply (chain_ready v z op out y K W s); try done|].
    + intros p Hp Hx. apply (ir_apart0 p Hp). by right.
    + simpl. naive_solver.
Qed.

Lemma follow_pending v z KN WN s :
  ctx <> NULL -> heap s !! ctx = Some ob -> ctx ∉ cells -> output op out y K W s -> inner_pending v z KN WN s ->
  WP (chain_inner v op ;; free ctx ;; Ret NULL)%prog
    (fun _ s' => heap s' !! ctx = None /\ output op out y K W s' /\ chained v z KN WN op [ctx] s s') s.
Proof.
  intros Hc0 Hc Hni Hou []. assert (Hctx : ctx ∉ footprint v z KN WN) by (intros Hin; apply (ip_apart0 _ Hin); by left).
  assert (Hcc : ctx <> v /\ ctx <> fut_continuations z).
  { split; intros ->; apply Hctx; unfold footprint; set_solver. }
  destruct Hcc as [Hcv Hcz]. eapply wps_seq.
  { eapply (chain_pending v z KN WN op out y K W s); try done. intros p Hp Hx. apply (ip_apart0 p Hp). by right. }
  simpl. intros _ s1 (Hou1 & Hf & Ht & Hcase).
  assert (Hout : forall s', (forall p, p <> ctx -> heap s' !! p = heap s1 !! p) -> fds s' = fds s1 -> output op out y K W s').
  { intros s' Hh Hf'. eapply output_frame; [| |exact Hou1]; [|intros; by rewrite Hf']. intros p Hp. apply Hh. by intros ->. }
  assert (Hfree : forall p, p <> ctx -> delete ctx (heap s1) !! p = heap s1 !! p) by (intros; by apply lookup_delete_ne).
  destruct Hcase as [(n & Hn & Ho & Hs)|(Hor & Ho & Hs)].
  - assert (n <> ctx) by congruence. assert (Hc1 : heap s1 !! ctx = Some ob) by (rewrite Hs; [done|set_solver]).
    wp_steps. split_and!; [apply lookup_delete_eq|by apply Hout|]. split_and!; [done..|]. left. exists n. split_and!; [done| |].
    + eapply open_frame; [|done|exact Ho]. intros p Hp. simpl. apply lookup_delete_ne. intros <-.
      apply Hctx. unfold footprint in *. simpl in Hp. rewrite !elem_of_cons in Hp. rewrite !elem_of_cons.
      destruct Hp as [?|[?|[?|[?|?]]]]; auto; congruence.
    + intros p Hp. simpl. assert (p <> ctx) by set_solver. rewrite Hfree by done. apply Hs. set_solver.
  - assert (Hc1 : heap s1 !! ctx = Some ob) by (rewrite Hs; [done|set_solver]).
    wp_steps. split_and!; [apply lookup_delete_eq|by apply Hout|]. split_and!; [done..|]. right. split_and!; [done| |].
    + eapply open_frame; [|done|exact Ho]. intros p Hp. simpl. apply lookup_delete_ne. by intros <-.
    + intros p Hp. simpl. assert (p <> ctx) by set_solver. rewrite Hfree by done. apply Hs. set_solver.
Qed.
End Inner.

Lemma bind_tt (p : cprog unit) : bind p (fun _ => Ret tt) = p.
Proof. rewrite <- (bind_ret_r p) at 2. f_equal. apply functional_extensionality. by intros []. Qed.

Lemma flat_map_cont f r ctx op m u out y K W s :
  published f r s -> ctx <> NULL -> heap s !! ctx = Some (OFlatMapContext (MkFlatMapContext op m u NULL)) ->
  output op out y K W s -> 
  (res_error r <> 0%Z -> WP (sFlatMapContinuation f ctx)
     (fun _ s' => handed_over ctx op out y K W (error_result (res_error r)) (ou_cells op out y K W)
                    (pd_call out <$> K) s s') s) /\
  (res_error r = 0%Z -> follows_inner f r ctx op out y K W (OFlatMapContext (MkFlatMapContext op m u NULL))
     (sFlatMapContinuation f ctx) (K_flat_map m (res_value r) u) (-1) s).
Proof.
  intros (x & Hx & _ & Hr) Hc0 Hc Hou. unfold sFlatMapContinuation.
  assert (Hctx : ctx ∉ ou_cells op out y K W) by (by eapply ctx_outside).
  assert (Hdrop : forall s', heap s' !! ctx = Some (OFlatMapContext (MkFlatMapContext op m u NULL)) ->
    WP (sDropContextToken ctx) (fun _ s'' => s'' = s') s').
  { intros s' Hc'. unfold sDropContextToken. wp_steps. change (is_null NULL) with true. simpl. by wp_steps. }
  split.
  - intros He. wp_steps. rewrite Hr, bool_decide_eq_true_2 by done. wp_steps. rewrite Hr.
    rewrite <- bind_bind. by eapply hand_over_error.
  - intros He v s1 Hrun Hpub Hc1 Hou1.
    assert (Hgo : forall Q, (WP ((if is_null v then settle_error op (-1) ;; sDropContextToken ctx
                                  else chain_inner v op) ;; free ctx ;; Ret NULL)%prog Q s1) ->
      WP (sFlatMapContinuation f ctx) Q s).
    { intros Q HQ. unfold sFlatMapContinuation. wp_steps. rewrite Hr, bool_decide_eq_false_2 by lia. wp_steps. rewrite Hr.
      eapply (wps_call_then client); [exact Hrun|]. simpl. intros w s' [-> ->]. destruct (is_null v); [exact HQ|].
      wp_steps. change (is_null NULL) with true. simpl. wp_steps. exact HQ. }
    split_and!.
    + intros ->. apply Hgo. change (is_null NULL) with true. by eapply hand_over_error.
    + intros z Hz. apply Hgo. rewrite (is_null_false v) by apply Hz. by eapply follow_ready.
    + intros z KN WN Hz. apply Hgo. rewrite (is_null_false v) by apply Hz. by eapply follow_pending.
Qed.

Lemma on_error_cont f x ctx op m u out y K W s :
  heap s !! f = Some (OFuture x) -> fut_state x = READY ->
  ctx <> NULL -> heap s !! ctx = Some (OOnErrorContext (MkOnErrorContext op m u f)) ->
  output op out y K W s -> f ∉ ou_cells op out y K W ->
  (res_error (fut_result x) = 0%Z -> WP (sOnErrorContinuation f ctx)
     (fun _ s' => handed_over ctx op out y K W (moved_result x) (f :: ou_cells op out y K W)
                    (pd_call out <$> K) s s' /\ heap s' !! f = Some (OFuture (moved x))) s) /\
  (res_error (fut_result x) <> 0%Z ->
     follows_inner f (fut_result x) ctx op out y K W (OOnErrorContext (MkOnErrorContext op m u f))
       (sOnErrorContinuation f ctx) (K_recover m (res_error (fut_result x)) u) (res_error (fut_result x)) s).
Proof.
  intros Hx Hrd Hc0 Hc Hou Hf. unfold sOnErrorContinuation.
  assert (Hctx : ctx ∉ ou_cells op out y K W) by (by eapply ctx_outside). split.
  - intros He. wp_steps. rewrite bool_decide_eq_false_2 by lia. wp_steps.
    eapply (hand_over ctx _ (forward_once f op f)); try done; [|intros s' Hs'; simpl; rewrite lookup_delete_ne by congruence; done|].
    + apply not_elem_of_cons. split; [congruence|done].
    + eapply wp_mono; [by eapply forward_once_spec|]. simpl. naive_solver.
  - intros He v s1 Hrun Hpub Hc1 Hou1. destruct Hpub as (x1 & Hx1 & _ & Hr1).
    assert (Hgo : forall Q, (WP ((if is_null v then settle_error op (res_error (fut_result x))
                                  else chain_inner v op) ;; free ctx ;; Ret NULL)%prog Q s1) ->
      WP (sOnErrorContinuation f ctx) Q s).
    { intros Q HQ. unfold sOnErrorContinuation. wp_steps. rewrite bool_decide_eq_true_2 by done. wp_steps.
      eapply (wps_call_then client); [exact Hrun|]. simpl. intros w s' [-> ->]. destruct (is_null v); [|exact HQ].
      wp_steps. rewrite Hr1. exact HQ. }
    split_and!.
    + intros ->. apply Hgo. change (is_null NULL) with true. rewrite <- (bind_tt (settle_error op _)).
      eapply (hand_over_error ctx _ (Ret tt)); try done. intros. by apply wps_ret.
    + intros z Hz. apply Hgo. rewrite (is_null_false v) by apply Hz. by eapply follow_ready.
    + intros z KN WN Hz. apply Hgo. rewrite (is_null_false v) by apply Hz. by eapply follow_pending.
Qed.
End Moving.

(** C30.  [flatMap] and [onError] follow the inner future.  [flatMap] fails its output with
    the error of a failed input, without calling the mapper; [onError] moves a
    successful result to its output, the second of two movers getting EINVAL instead,
    without calling the recovery.  Otherwise the mapper or the recovery is called: if
    it returns NULL the output fails with [-1] or with the original error; the output
    takes over the result of an inner future that is complete (or fails with EINVAL if
    that was moved from before); and it stays pending behind one that is not, whose
    result, when it comes, the registered continuation hands over to it.  Either way
    the context is freed and one reference to the inner future given up.  It is the
    inner future that is moved from and marked consumed: the input of [flatMap] is neither
    claimed nor moved, its cell is unchanged, and a consumed input is followed too. *)
Theorem inner_futures_followed {E : Ext} {TS : TreiberSpec E} client f x ctx op m u out y K W s :
  heap s !! f = Some (OFuture x) -> fut_state x = READY -> ctx <> NULL ->
  output client op out y K W s -> f ∉ ou_cells op out y K W ->
  (heap s !! ctx = Some (OFlatMapContext (MkFlatMapContext op m u NULL)) ->
     (res_error (fut_result x) <> 0%Z -> wp (body client) log (sFlatMapContinuation f ctx)
        (fun _ s' => handed_over ctx op out y K W (error_result (res_error (fut_result x))) (ou_cells op out y K W)
                       (pd_call out <$> K) s s') s) /\
     (res_error (fut_result x) = 0%Z ->
        follows_inner client f (fut_result x) ctx op out y K W (OFlatMapContext (MkFlatMapContext op m u NULL))
          (sFlatMapContinuation f ctx) (K_flat_map m (res_value (fut_result x)) u) (-1) s)) /\
  (heap s !! ctx = Some (OOnErrorContext (MkOnErrorContext op m u f)) ->
     (res_error (fut_result x) = 0%Z -> wp (body client) log (sOnErrorContinuation f ctx)
        (fun _ s' => handed_over ctx op out y K W (moved_result x) (f :: ou_cells op out y K W)
                       (pd_call out <$> K) s s' /\ heap s' !! f = Some (OFuture (moved x))) s) /\
     (res_error (fut_result x) <> 0%Z ->
        follows_inner client f (fut_result x) ctx op out y K W (OOnErrorContext (MkOnErrorContext op m u f))
          (sOnErrorContinuation f ctx) (K_recover m (res_error (fut_result x)) u) (res_error (fut_result x)) s)) /\
  (forall next z s1, heap s1 !! next = Some (OFuture z) -> output client op out y K W s1 ->
     next ∉ ou_cells op out y K W ->
     wp (body client) log (body client (K_future_cb CB_sMoveChainContinuation next op))
       (fun _ s' => received op out y K W (fut_result z) s' /\
          heap s' !! next = Some (OFuture (set_fut_result zero_result z)) /\
          only_changed (next :: ou_cells op out y K W) (sl_fds W) s1 s' /\
          trace s' = trace s1 ++ (pd_call out <$> K)) s1).
Proof.
  intros Hx Hrd Hc0 Hou Hni. split_and!.
  - intros Hc. apply flat_map_cont; try done. by exists x.
  - intros Hc. by apply on_error_cont.
  - intros next z s1 Hn Hou1 Hni1. by apply move_chain_spec.
Qed.

(** ** Witnesses: operators on [fut], whose result has just been published *)
#[local] Existing Instances RefExt.ext RefExt.treiber.

Definition ok_result : UfsrvFutureResult := MkResult 0 99%N None.
Definition published_cell (r : UfsrvFutureResult) : UfsrvFuture := complete_with r fut_cell.
(** The state in which the continuation of the operator [p] on [fut] runs. *)
Definition running_st (p : cprog ptr) (r : UfsrvFutureResult) : st :=
  store_cell fut (published_cell r) (after p ready_st).
(** The output pair that the operators allocate from [ready_st]. *)
Definition out_cell : UfsrvFuture := new_future 10%N 11%N.

Lemma running_output s :
  heap s !! 8%N = Some (OFuture out_cell) -> heap s !! 9%N = Some (OPromise (MkPromise 8%N false)) ->
  heap s !! 10%N = Some (OStack ts_create) -> heap s !! 11%N = Some (OStack ts_create) ->
  output quiet_client 9%N 8%N out_cell [] [] s.
Proof.
  intros Hf Hp Hk Hw. split; [by split| |done|done|by intros k ?%elem_of_nil].
  split; try done.
  - split; [done|]. by exists ts_create.
  - split; [done|]. by exists ts_create.
  - by intros k ?%elem_of_nil.
  - by intros w ?%elem_of_nil.
  - apply NoDup_nil_2.
  - apply NoDup_nil_2.
  - apply NoDup_nil_2.
Qed.
Lemma fut_outside : fut ∉ ou_cells 9%N 8%N out_cell [] [].
Proof. by apply (bool_decide_unpack _). Qed.

Definition flat_map_st : st := running_st (UfsrvFutureFlatMap fut (Some 5%N) 50%N) ok_result.
Definition on_error_st : st := running_st (UfsrvFutureOnError fut (Some 5%N) 50%N) (error_result 7).
Lemma inner_futures_followed_witness :
  follows_inner quiet_client fut ok_result 12%N 9%N 8%N out_cell [] []
    (OFlatMapContext (MkFlatMapContext 9%N 5%N 50%N NULL))
    (sFlatMapContinuation fut 12%N) (K_flat_map 5%N 99%N 50%N) (-1) flat_map_st /\
  follows_inner quiet_client fut (error_result 7) 12%N 9%N 8%N out_cell [] []
    (OOnErrorContext (MkOnErrorContext 9%N 5%N 50%N fut))
    (sOnErrorContinuation fut 12%N) (K_recover 5%N 7 50%N) 7 on_error_st.
Proof.
  split.
  - apply (inner_futures_followed quiet_client fut (published_cell ok_result) 12%N 9%N 5%N 50%N 8%N out_cell [] [] flat_map_st).
    + vm_compute. reflexivity.
    + reflexivity.
    + discriminate.
    + apply running_output; vm_compute; reflexivity.
    + apply fut_outside.
    + vm_compute. reflexivity.
    + reflexivity.
  - apply (inner_futures_followed quiet_client fut (published_cell (error_result 7)) 12%N 9%N 5%N 50%N 8%N out_cell [] [] on_error_st).
    + vm_compute. reflexivity.
    + reflexivity.
    + discriminate.
    + apply running_output; vm_compute; reflexivity.
    + apply fut_outside.
    + vm_compute. reflexivity.
    + discriminate.
Defined.
