(* ===== verification/MovingPipeline.v ===== *)
(** * MovingPipeline: the operators that move a result on, end to end

    From setting the operator up to the completion of its output, when the input is
    fulfilled through its promise.  The continuation takes the result out of the
    input while the input is still running its continuations. *)
From S2P Require Import Prelude Machine Uflib Model Cancellation Scheduler Coroutine Future Waiting.
From S2P Require Import Operators Dispatch Logic Guarantee CancellationFacts FutureFacts Demo OperatorFacts MovingFacts.
Local Open Scope prog_scope.

Section Pipelines.
Context {E : Ext} {TS : TreiberSpec E} (client : Client).
#[local] Abbreviation WP := (wp (body client) log).
#[local] Abbreviation quiet := (observes (body client)).
#[local] Abbreviation output := (output client).

(** [x'] is in the phase of [x] and has its queues; result and references may differ. *)
Definition same_phase (x x' : UfsrvFuture) : Prop :=
  fut_is_completed x' = fut_is_completed x /\ fut_state x' = fut_state x /\
  fut_continuations x' = fut_continuations x /\ fut_waiters x' = fut_waiters x.
Lemma same_moved x : same_phase x (moved x).
Proof. unfold moved. by case_match. Qed.

(** Fulfilling the promise of [f] when the first of its continuations, [k], is that of an
    operator with context [ob] and output [out]: [k] leaves [x'] in the cell of [f],
    frees its context and turns [Q] into [R]. *)
Lemma operator_runs f prm x k K W r x' ctx ob op out y (D : ptr -> Prop) cs (Q R : st -> Prop) s :
  client_guar client -> promise_at (heap s) prm f false -> open_future (heap s) (fds s) f x (k :: K) W ->
  fut_cancel_handle x = NULL -> (forall k', k' ∈ K -> quiet (pd_call f k')) ->
  heap s !! ctx = Some ob -> ctx ∉ prm :: footprint f x (k :: K) W -> output op out y [] [] s -> Q s ->
  (forall p, p ∈ prm :: footprint f x (k :: K) W -> p ∉ ou_cells op out y [] []) ->
  (forall p, p ∈ prm :: queue_cells x (k :: K) W -> D p) ->
  keeps (prm :: footprint f x (k :: K) W) (sl_fds W) Q -> keeps (queue_cells x (k :: K) W) (sl_fds W) R ->
  same_phase (complete_with r x) x' ->
  (forall s1, heap s1 !! f = Some (OFuture (complete_with r x)) -> heap s1 !! ctx = Some ob -> output op out y [] [] s1 ->
     Q s1 -> WP (body client (pd_call f k))
       (fun _ s' => (heap s' !! f = Some (OFuture x') /\ heap s' !! ctx = None) /\ R s' /\
          (forall p, D p -> heap s' !! p = heap s1 !! p) /\ fds s' = fds s1 /\ trace s' = trace s1 ++ cs) s1) ->
  WP (UfsrvPromiseSetResult prm r)
    (fun _ s' => settled_future (heap s') f x' /\ (forall w, w ∈ W -> awake (heap s') (fds s') w) /\
       (forall p, p ∈ ctx :: pd_nodes (k :: K) -> heap s' !! p = None) /\ R s' /\
       trace s' = trace s ++ pd_call f k :: cs ++ (pd_call f <$> K)) s.
Proof.
  intros Hg Hp Ho Hh Hq Hc Hcn Hou HQ Hdis HD HQs HRs (Hsc & Hss & Hsk & Hsw) Hk.
  pose proof (open_apart _ _ _ _ _ _ Ho) as (Hfq & _).
  assert (Hqc : forall p, p ∈ queue_cells x (k :: K) W -> p ∈ prm :: footprint f x (k :: K) W) by (intros; by do 2 right).
  set (Pre := fun s1 => (heap s1 !! f = Some (OFuture (complete_with r x)) /\ heap s1 !! ctx = Some ob) /\
    output op out y [] [] s1 /\ Q s1).
  set (Post := fun s1 => (heap s1 !! f = Some (OFuture x') /\ heap s1 !! ctx = None) /\ R s1).
  assert (Hkeep : forall P, P = Pre \/ P = Post -> keeps (queue_cells x (k :: K) W) (sl_fds W) P).
  { assert (Hcx : ctx ∉ queue_cells x (k :: K) W) by (intros Hx; by apply Hcn, Hqc).
    intros P [-> | ->] s1 s2 Hh1 Hf1 Hev [[H1 H2] H3]; (split; [by rewrite !Hh1|]).
    - destruct H3 as [H3 H4]. split; [|eapply HQs; [..|exact H4]; auto].
      eapply (output_frame _ _ _ _ _ _ s1); [|by intros ? ?%elem_of_nil|exact H3]. intros p Hp1. apply Hh1. intros Hx. by apply (Hdis p); [apply Hqc|].
    - by eapply HRs. }
  eapply wp_mono; [eapply (SetResult_keeping client f prm r x [] k K W D (fun _ => True) cs Pre Post); try done|].
  - intros k' P Hin HP. eapply quiet_keeps; [done|by apply Hq|by apply Hkeep].
  - intros s1 [[H1 H2] [H3 H4]]. eapply wp_mono; [by apply Hk|]. simpl. unfold Post. intros _ s' ([? ?] & ? & ? & Hfd & ?).
    rewrite Hfd. by split_and!.
  - intros s1 Hf1 Hs1 Hfd1 Hev. assert (Hne : forall p, p ∉ prm :: footprint f x (k :: K) W -> heap s1 !! p = heap s !! p).
    { intros p [Hpp [Hpf _]%not_elem_of_cons]%not_elem_of_cons. by apply Hs1. }
    split_and!; [done|by rewrite Hne| |].
    + eapply output_frame; [|intros; by rewrite Hfd1|exact Hou]. intros p Hin. apply Hne. intros Hx. by apply (Hdis p).
    + eapply HQs; [exact Hne| |exact Hev|exact HQ]. intros; by rewrite Hfd1.
  - simpl. intros _ s' (Hcl & _ & Hw & Hn & [[Hf' Hc'] HR'] & _ & _ & Htr). split_and!; try done.
    + eapply settled_closed; [exact Hcl|apply Ho|exact Hf'|by rewrite Hsc|by rewrite Hss|exact Hsk|exact Hsw].
    + intros p [->|Hin]%elem_of_cons; [done|by apply Hn].
Qed.

(** The operator [p], whose continuation is [cb], on the pending [f]: it returns NULL for
    want of memory only; otherwise, fulfilling the promise of [f] with [r] leaves [x'] in
    the cell of [f], frees the operator's context and the continuation nodes, makes
    the calls [cs] before those of the older continuations, and establishes [Fin] of
    the output. *)
Definition piped (p : cprog ptr) cb prm f K (W : list sleeper) (r : UfsrvFutureResult) x' (cs : ptr -> ptr -> list code)
    (Fin : ptr -> ptr -> UfsrvFuture -> st -> Prop) (s : st) : Prop :=
  WP p (fun out s1 => (out = NULL /\ oracle s <> [] /\ forall q, heap s1 !! q = heap s !! q) \/
    exists op ctx n y, output op out y [] [] s1 /\
      WP (UfsrvPromiseSetResult prm r)
        (fun _ s2 => settled_future (heap s2) f x' /\ Fin op out y s2 /\
           (forall q, q ∈ ctx :: n :: pd_nodes K -> heap s2 !! q = None) /\
           (forall w, w ∈ W -> awake (heap s2) (fds s2) w) /\
           trace s2 = trace s ++ (K_future_cb cb f ctx :: cs op out) ++ (pd_call f <$> K)) s1) s.
(** The output is completed with [r'] at once. *)
Definition pipelined (p : cprog ptr) cb prm f K (W : list sleeper) (r : UfsrvFutureResult) x' r' (cs : ptr -> ptr -> list code)
    (R : st -> Prop) (s : st) : Prop :=
  piped p cb prm f K W r x' cs (fun op out y s2 => received op out y [] [] r' s2 /\ R s2) s.

(** [Q] depends on the cells [X] only. *)
Definition lives_in (X : list ptr) (Q : st -> Prop) : Prop :=
  forall s s', (forall p, p ∈ X -> heap s' !! p = heap s !! p) -> Q s -> Q s'.
Lemma lives_keeps X Y Zs Q : (forall p, p ∈ Y -> p ∉ X) -> lives_in X Q -> keeps Y Zs Q.
Proof. intros HY HQ s s' Hh _ _. apply HQ. intros p Hp. apply Hh. intros Hy. by apply (HY p). Qed.

(** An operator that has been set up, run on cells [X] that existed before; [Q] and [Fin]
    may refer to the state in which the promise is fulfilled. *)
Lemma set_up_piped {T} `{!Cell T} (mk : ptr -> T) cb p prm f x K W r x' cs X (Q : st -> st -> Prop)
    (Fin : st -> ptr -> ptr -> UfsrvFuture -> st -> Prop) s :
  client_guar client -> guar evolves p -> wf_machine s ->
  promise_at (heap s) prm f false -> open_future (heap s) (fds s) f x K W -> fut_cancel_handle x = NULL ->
  (forall k, k ∈ K -> quiet (pd_call f k)) ->
  set_up client mk cb f x K W s p -> same_phase (complete_with r x) x' ->
  (forall q, q ∈ X -> is_Some (heap s !! q) /\ q ∉ prm :: footprint f x K W) ->
  (forall s1, evolution s s1 -> (forall q, q ∈ X -> heap s1 !! q = heap s !! q) -> fds s1 = fds s -> Q s1 s1) ->
  (forall s1 Y, (forall q, q ∈ Y -> q ∉ X) -> keeps Y (sl_fds W) (Q s1)) ->
  (forall s1 op out y Y, (forall q, q ∈ Y -> q ∉ X /\ q ∉ ou_cells op out y [] [] /\ (q < next_ptr s1)%N) ->
     keeps Y (sl_fds W) (Fin s1 op out y)) ->
  (forall s0 op out c w ctx s1, ctx <> NULL -> heap s1 !! f = Some (OFuture (complete_with r x)) ->
     heap s1 !! ctx = Some (cell_inj (mk op)) -> output op out (new_future c w) [] [] s1 -> Q s0 s1 ->
     (forall q, q ∈ f :: X -> q ∉ ctx :: ou_cells op out (new_future c w) [] []) ->
     WP (body client (K_future_cb cb f ctx))
       (fun _ s' => (heap s' !! f = Some (OFuture x') /\ heap s' !! ctx = None) /\ Fin s0 op out (new_future c w) s' /\
          (forall q, q ∉ ctx :: X ++ f :: ou_cells op out (new_future c w) [] [] -> (q < next_ptr s0)%N -> heap s' !! q = heap s1 !! q) /\
          fds s' = fds s1 /\ trace s' = trace s1 ++ cs op out) s1) ->
  piped p cb prm f K W r x' cs (fun op out y s2 => exists s0, Fin s0 op out y s2) s.
Proof.
  intros Hg Hgp Hwf Hp Ho Hh Hq Hset Hsame HX HQ HQX HRX Hk. eapply wp_mono; [apply wp_evolves; [done|exact Hgp|exact Hset]|].
  intros out s1 [(Hf1 & Ht1 & [(-> & Hor & Hsm)|(op & c & w & ctx & n & Hin)]) Hev]; [by left|right].
  specialize (Hev Hwf). pose proof (ev_wf _ _ Hev) as Hwf1. pose proof (proj2 (wm_alloc _ Hwf1)) as Hnew1.
  destruct Hin as [Hou [Hc0 Hc] Hin Hfresh Hnd Hrest]. exists op, ctx, n, (new_future c w). split; [done|].
  set (K' := Pend n cb ctx :: K) in *. set (cells := ou_cells op out (new_future c w) [] []) in *.
  assert (Hcells : forall q, q ∈ cells -> q ∈ [op; out; c; w]) by (unfold cells, ou_cells, footprint; set_solver +).
  assert (Hold : forall q, is_Some (heap s !! q) -> q ∉ [op; out; c; w; ctx; n]) by (intros q [o Hq'] Hx; rewrite Hfresh in Hq'; done).
  assert (Hfoot : forall q, q ∈ prm :: footprint f x K' W -> q = n \/ q ∈ prm :: footprint f x K W).
  { intros q. unfold footprint, K'. rewrite pd_nodes_cons. simpl. rewrite !elem_of_cons. naive_solver. }
  assert (Hlive : forall q, q ∈ prm :: footprint f x K W -> is_Some (heap s !! q)).
  { intros q [->|Hq']%elem_of_cons; [destruct Hp; eauto|by eapply open_allocated]. }
  assert (Hn : n ∉ [op; out; c; w; ctx]) by (clear -Hnd; change [op; out; c; w; ctx; n] with ([op; out; c; w; ctx] ++ [n]) in Hnd;
    apply NoDup_app in Hnd as (_ & Hnd & _); intros Hx; apply (Hnd n Hx); by left).
  assert (Hapart : forall q, q ∈ prm :: footprint f x K' W -> q ∉ [op; out; c; w; ctx] /\ q ∉ X).
  { intros q [->|Hq']%Hfoot; split; [done| | |].
    - intros [Hx _]%HX. apply Hold in Hx. set_solver +Hx.
    - specialize (Hold q (Hlive q Hq')). set_solver +Hold.
    - intros [_ Hx]%HX. done. }
  assert (Hqc : forall q, q ∈ queue_cells x K' W -> q ∈ prm :: footprint f x K' W) by (intros; by do 2 right).
  pose proof (open_apart _ _ _ _ _ _ Hin) as (Hfq & _).
  assert (Hprm : heap s1 !! prm = Some (OPromise (MkPromise f false))).
  { destruct Hp as [_ Hp]. rewrite Hrest; [done|apply Hold; eauto| |apply not_elem_of_nil].
    intros Heq. assert (prm <> fut_continuations x); [|done]. intros ->. destruct (of_conts _ _ _ _ _ _ Ho) as (_ & t & Ht & _). congruence. }
  assert (Hbound : forall q, q ∈ prm :: footprint f x K' W -> (q < next_ptr s1)%N).
  { intros q Hq'. destruct (decide (q < next_ptr s1)%N) as [|Hge]; [done|]. exfalso. assert (Hnone : heap s1 !! q = None) by (apply Hnew1; lia).
    apply elem_of_cons in Hq' as [->|Hq']; [congruence|]. destruct (open_allocated _ _ _ _ _ _ _ Hin Hq'). congruence. }
  eapply wp_mono; [apply (operator_runs f prm x (Pend n cb ctx) K W r x' ctx (cell_inj (mk op)) op out (new_future c w)
    (fun q => q ∉ ctx :: X ++ f :: cells /\ (q < next_ptr s1)%N) (cs op out) (Q s1) (Fin s1 op out (new_future c w)) s1); try done|].
  - by split; [apply Hp|].
  - intros Hx. destruct (Hapart ctx Hx) as [Hx' _]. apply Hx'. set_solver +.
  - apply HQ; [done| |done]. intros q Hq'. destruct (HX q Hq') as [Hs Hnf]. apply Hrest; [by apply Hold| |apply not_elem_of_nil].
    intros ->. apply Hnf. unfold footprint. set_solver +.
  - intros q Hq' Hx%Hcells. destruct (Hapart q Hq') as [Hx' _]. apply Hx'. set_solver +Hx.
  - intros q Hq'. assert (Hq2 : q ∈ prm :: footprint f x K' W) by (apply elem_of_cons in Hq' as [->|?]; [by left|by apply Hqc]).
    split; [|by apply Hbound]. rewrite not_elem_of_cons, not_elem_of_app, not_elem_of_cons.
    destruct (Hapart q Hq2) as [Hx1 Hx2]. split_and!; [set_solver +Hx1|done| |intros Hx%Hcells; apply Hx1; set_solver +Hx].
    intros ->. apply elem_of_cons in Hq' as [->|?]; [|done]. pose proof (of_fut _ _ _ _ _ _ Ho). destruct Hp. congruence.
  - apply HQX. intros q Hq'. by apply Hapart.
  - apply HRX. intros q Hq'%Hqc. split; [by apply Hapart|]. split; [|by apply Hbound].
    intros Hx%Hcells. destruct (Hapart q Hq') as [Hx' _]. apply Hx'. set_solver +Hx.
  - intros s2 Hfs Hcs Hous HQs. eapply wp_mono; [apply (Hk s1 op out c w ctx s2); try done|].
    + intros q Hq' Hx. assert (Hx' : q ∈ [op; out; c; w; ctx]) by (apply elem_of_cons in Hx as [->|Hx%Hcells]; set_solver).
      apply elem_of_cons in Hq' as [->|Hq'].
      * destruct (Hapart f) as [Hy _]; [right; by left|done].
      * destruct (HX q Hq') as [Hy%Hold _]. set_solver.
    + simpl. intros _ s' ([? ?] & ? & Hsm & ? & ?). split_and!; try done. intros q [? ?]. by apply Hsm.
  - simpl. intros _ s2 (Hst & Hw & Hg' & HR & Ht2). split_and!; try done; [by exists s1|]. by rewrite Ht2, Ht1.
Qed.

Lemma set_up_pipelined {T} `{!Cell T} (mk : ptr -> T) cb p prm f x K W r x' r' cs X (Q R : st -> Prop) s :
  client_guar client -> guar evolves p -> wf_machine s ->
  promise_at (heap s) prm f false -> open_future (heap s) (fds s) f x K W -> fut_cancel_handle x = NULL ->
  (forall k, k ∈ K -> quiet (pd_call f k)) ->
  set_up client mk cb f x K W s p -> same_phase (complete_with r x) x' ->
  (forall q, q ∈ X -> is_Some (heap s !! q) /\ q ∉ prm :: footprint f x K W) ->
  Q s -> lives_in X Q -> lives_in X R ->
  (forall op out c w ctx s1, ctx <> NULL -> heap s1 !! f = Some (OFuture (complete_with r x)) ->
     heap s1 !! ctx = Some (cell_inj (mk op)) -> output op out (new_future c w) [] [] s1 -> Q s1 ->
     (forall q, q ∈ f :: X -> q ∉ ctx :: ou_cells op out (new_future c w) [] []) ->
     WP (body client (K_future_cb cb f ctx))
       (fun _ s' => handed_over ctx op out (new_future c w) [] [] r' (X ++ f :: ou_cells op out (new_future c w) [] [])
          (cs op out) s1 s' /\ R s' /\ heap s' !! f = Some (OFuture x')) s1) ->
  pipelined p cb prm f K W r x' r' cs R s.
Proof.
  intros Hg Hgp Hwf Hp Ho Hh Hq Hset Hsame HX HQ HQX HRX Hk.
  eapply wp_mono; [apply (set_up_piped mk cb p prm f x K W r x' cs X (fun _ => Q)
    (fun _ op out y s2 => received op out y [] [] r' s2 /\ R s2)); try done|].
  - intros s1 _ Hsm _. by eapply HQX.
  - intros s1 Y HY. by eapply lives_keeps.
  - intros s1 op out y Y HY a b Hh1 Hf1 Hev [H1 H2]. split; [|by eapply HRX; [|exact H2]; intros q Hq'; apply Hh1; intros [Hx _]%HY].
    eapply (received_frame _ _ _ _ _ _ a); [|by intros ? ?%elem_of_nil|exact H1]. intros q Hq'. apply Hh1. by intros (_ & Hx & _)%HY.
  - intros s0 op out c w ctx s1 Hc0 Hf Hc Hou HQ1 Hni. eapply wp_mono; [by apply Hk|].
    unfold handed_over. simpl. intros _ s' ((Hcn & Hr & [Hoh Hof] & Ht) & HR & Hf'). split_and!; try done; [by intros; apply Hoh|].
    apply map_eq. intros fd. apply Hof, not_elem_of_nil.
  - simpl. intros out s1 [?|(op & ctx & n & y & Hou & Hw)]; [by left|right]. exists op, ctx, n, y. split; [done|].
    eapply wp_mono; [exact Hw|]. simpl. intros _ s2 (? & (s0 & ? & ?) & ? & ? & ?). by split_and!.
Qed.

Lemma handed_weaken ctx op out y K W r M M' cs s s' :
  (forall q, q ∈ M -> q ∈ M') -> handed_over ctx op out y K W r M cs s s' -> handed_over ctx op out y K W r M' cs s s'.
Proof.
  intros HM (Hc & Hr & Hoc & Ht). split_and!; try done. eapply only_changed_weaken; [|done|exact Hoc].
  intros q [->|Hq]%elem_of_cons; [by left|]. right. by apply HM.
Qed.

(** An inner future the operator may consume: complete, apart from the input, and with a
    reference to give up. *)
Record spare (f prm : ptr) (x : UfsrvFuture) K W (v : ptr) (z : UfsrvFuture) (s : st) : Prop := {
  sp_settled : settled_future (heap s) v z;
  sp_token : fut_cancel_token z = NULL;
  sp_refs : (1 <= fut_refcount z <= 2 ^ 31 - 1)%Z;
  sp_quiet c : c ∈ dispose (fut_result z) -> quiet c;
  sp_apart q : q ∈ own_cells v z -> q ∉ prm :: footprint f x K W;
}.

Lemma settled_lives v z : lives_in (own_cells v z) (fun s => settled_future (heap s) v z).
Proof. intros s s' Hh. by apply settled_frame. Qed.
Lemma let_go_lives v z : lives_in (own_cells v z) (let_go v z).
Proof.
  intros s s' Hh. unfold let_go. case_bool_decide; [|by apply settled_frame].
  intros Hn q Hq. rewrite Hh by done. by apply Hn.
Qed.
Lemma own_cells_moved v z : own_cells v (moved z) = own_cells v z.
Proof. unfold moved, own_cells. by case_match. Qed.
Lemma settled_live h v z q : settled_future h v z -> q ∈ own_cells v z -> is_Some (h !! q).
Proof.
  intros [? Hv _ _ (_ & ? & Hk & _) (_ & ? & Hw & _) _]. unfold own_cells. rewrite !elem_of_cons, elem_of_nil.
  intros [->|[->|[->|[]]]]; eauto.
Qed.

(** The call [c] answers with [v], and does nothing else. *)
Lemma answers_run c v s :
  client_guar client -> is_loop c = false -> answers client c v ->
  exists s1, runs_to client c v s s1 /\ heap s1 = heap s /\ fds s1 = fds s /\ trace s1 = trace s ++ [c] /\ evolves s s1.
Proof.
  intros Hg Hl Ha. pose proof (evolves_log c s) as Hel. pose proof (wp_evolves client _ _ _ Hg (body_guar_all client Hg c) (Ha (log c s))) as Hw.
  destruct (proj1 (wp_run _ _ _ _ _) Hw) as (n & a & s1 & Hrun & (-> & Hh & Hf & Ht) & Hev).
  assert (Hev' : evolves s s1) by by etrans. unfold log in Hh, Hf, Ht. rewrite Hl in *.
  exists s1. split; [apply wp_run; by exists n, v, s1|]. by split_and!.
Qed.
(** An inner future the operator may wait for: pending, not moved from yet, apart from the
    input, with a reference to give up, and promised by [prmv]. *)
Record spare_pending (f prm : ptr) (x : UfsrvFuture) K W (v prmv : ptr) (z : UfsrvFuture) KN WN (s : st) : Prop := {
  pe_promise : promise_at (heap s) prmv v false;
  pe_open : open_future (heap s) (fds s) v z KN WN;
  pe_fresh : fut_is_consumed z = false;
  pe_handle : fut_cancel_handle z = NULL;
  pe_refs : (2 <= fut_refcount z <= 2 ^ 31 - 1)%Z;
  pe_quiet k : k ∈ KN -> quiet (pd_call v k);
  pe_apart q : q ∈ prmv :: footprint v z KN WN -> q ∉ prm :: footprint f x K W;
  pe_fds fd : fd ∈ sl_fds W -> fd ∉ sl_fds WN;
}.
(** The output [out] waits for [v]: whatever that is fulfilled with is moved on to it. *)
Definition moves_on (v prmv : ptr) (z : UfsrvFuture) (KN : list pending) (WN : list sleeper) op out (y : UfsrvFuture) (s : st) : Prop :=
  forall rv, WP (UfsrvPromiseSetResult prmv rv)
    (fun _ s' => settled_future (heap s') v (set_fut_result zero_result (complete_with rv (waited z))) /\
       received op out y [] [] rv s' /\ (forall w, w ∈ WN -> awake (heap s') (fds s') w) /\
       (forall q, q ∈ pd_nodes KN -> heap s' !! q = None) /\
       trace s' = trace s ++ K_future_cb CB_sMoveChainContinuation v op :: (pd_call v <$> KN)) s.

Lemma moves_on_spec v prmv z KN WN n op out y s :
  promise_at (heap s) prmv v false ->
  open_future (heap s) (fds s) v (waited z) (Pend n CB_sMoveChainContinuation op :: KN) WN ->
  fut_cancel_handle z = NULL -> (forall k, k ∈ KN -> quiet (pd_call v k)) -> output op out y [] [] s ->
  (forall q, q ∈ prmv :: footprint v z KN WN -> q ∉ ou_cells op out y [] []) -> moves_on v prmv z KN WN op out y s.
Proof.
  intros Hp Ho Hh Hq Hou Hap rv. set (K' := Pend n CB_sMoveChainContinuation op :: KN) in *.
  pose proof (open_apart _ _ _ _ _ _ Ho) as (Hvq & _).
  assert (Hn : n ∉ ou_cells op out y [] []).
  { destruct (of_pendings _ _ _ _ _ _ Ho (Pend n CB_sMoveChainContinuation op)) as (_ & b & Hb & _); [by left|]. simpl in Hb.
    unfold ou_cells, footprint. destruct Hou as [[_ Hp'] [_ Hf _ _ (_ & ? & Hk & _) (_ & ? & Hw & _) _ _ _ _ _ _] _ _ _].
    rewrite !not_elem_of_cons. split_and!; [congruence..|apply not_elem_of_nil]. }
  assert (Hqn : forall q, q ∈ queue_cells (waited z) K' WN -> q = n \/ q ∈ footprint v z KN WN).
  { intros q. unfold queue_cells, footprint, K'. rewrite pd_nodes_cons. simpl. rewrite !elem_of_cons. naive_solver. }
  assert (Hqo : forall q, q ∈ queue_cells (waited z) K' WN -> q ∉ ou_cells op out y [] []).
  { intros q [->|Hq']%Hqn; [done|]. apply Hap. by right. }
  assert (Hv : v ∉ ou_cells op out y [] []) by (apply Hap; right; by left).
  assert (Hpv : prmv <> v) by (intros ->; destruct Hp as [_ Hp]; pose proof (of_fut _ _ _ _ _ _ Ho); congruence).
  eapply wp_mono; [eapply (SetResult_moves client v prmv rv (waited z) [] (Pend n CB_sMoveChainContinuation op) KN WN
    (v :: ou_cells op out y [] []) [] []
    (fun s1 => heap s1 !! v = Some (OFuture (complete_with rv (waited z))) /\ output op out y [] [] s1)
    (fun s1 => heap s1 !! v = Some (OFuture (set_fut_result zero_result (complete_with rv (waited z)))) /\
       received op out y [] [] rv s1)); try done|].
  - intros q [->|Hq']%elem_of_cons; rewrite not_elem_of_cons; [split; [done|apply Hap; by left]|].
    split; [by intros ->|by apply Hqo].
  - intros fd _. apply not_elem_of_nil.
  - intros P [-> | ->]; (apply and_stable; [by apply cell_stable|]); [apply output_stable|apply received_stable];
      try done; intros fd _; apply not_elem_of_nil.
  - intros s1 [Hv1 Hou1]. eapply wp_mono; [by apply (move_chain_spec client v (complete_with rv (waited z)) op out y [] [] s1)|].
    simpl. intros _ s' (? & ? & ? & ?). by split_and!.
  - intros s1 Hv1 Hs1 Hfd1. split; [done|]. eapply (output_frame _ _ _ _ _ _ s); [|by intros ? ?%elem_of_nil|exact Hou].
    intros q Hq'. apply Hs1; intros ->; [done|]. apply (Hap prmv); [by left|done].
  - simpl. intros _ s' (Hcl & _ & Hw & Hg & [Hv' Hr] & _ & Ht). split_and!; try done.
    + by eapply settled_closed; [exact Hcl|apply Ho|exact Hv'|..].
    + intros q Hq'. apply Hg. rewrite pd_nodes_cons. by right.
Qed.

(** What an operator makes of a call [c] that answers with [v], failing with [e] when
    that is NULL. *)
Definition pipelined_by (p : cprog ptr) cb prm f x K W (r : UfsrvFutureResult) (c : code) (e : Z) s : Prop :=
  forall v, answers client c v ->
    (v = NULL -> pipelined p cb prm f K W r (complete_with r x) (error_result e) (fun _ _ => [c]) (fun _ => True) s) /\
    (forall z, spare f prm x K W v z s ->
       pipelined p cb prm f K W r (complete_with r x) (moved_result z) (fun op out => c :: chain_calls v op out z [])
         (let_go v (moved z)) s) /\
    (forall prmv z KN WN, spare_pending f prm x K W v prmv z KN WN s ->
       piped p cb prm f K W r (complete_with r x) (fun _ _ => [c])
         (fun op out y s' => output op out y [] [] s' /\
            ((oracle s <> [] /\ open_future (heap s') (fds s') v (waited z) KN WN) \/ moves_on v prmv z KN WN op out y s')) s).

(** From a continuation that follows an inner future to the whole pipeline. *)
Section Follows.
Context {T} `{!Cell T} (mk : ptr -> T) (cb : fut_cb) (p : cprog ptr) (prm f : ptr) (x : UfsrvFuture) (K : list pending)
  (W : list sleeper) (r : UfsrvFutureResult) (c : code) (e : Z) (s : st).
Context (Hg : client_guar client) (Hgp : guar evolves p) (Hwf : wf_machine s) (Hp : promise_at (heap s) prm f false)
  (Ho : open_future (heap s) (fds s) f x K W) (Hh : fut_cancel_handle x = NULL)
  (Hq : forall k, k ∈ K -> quiet (pd_call f k)) (Hset : set_up client mk cb f x K W s p) (Hloop : is_loop c = false)
  (Hk : forall op out y ctx s1, ctx <> NULL -> heap s1 !! f = Some (OFuture (complete_with r x)) ->
     heap s1 !! ctx = Some (cell_inj (mk op)) -> output op out y [] [] s1 -> f ∉ ou_cells op out y [] [] ->
     follows_inner client f r ctx op out y [] [] (cell_inj (mk op)) (body client (K_future_cb cb f ctx)) c e s1).

(** The continuation after the client's answer. *)
Lemma answered v op out y ctx s1 : answers client c v ->
  ctx <> NULL -> heap s1 !! f = Some (OFuture (complete_with r x)) -> heap s1 !! ctx = Some (cell_inj (mk op)) ->
  output op out y [] [] s1 -> f ∉ ctx :: ou_cells op out y [] [] ->
  f <> ctx /\ exists s2, heap s2 = heap s1 /\ fds s2 = fds s1 /\ trace s2 = trace s1 ++ [c] /\ evolves s1 s2 /\
    (v = NULL -> WP (body client (K_future_cb cb f ctx)) (fun _ =>
       handed_over ctx op out y [] [] (error_result e) (ou_cells op out y [] []) [] s2) s1) /\
    (forall z, inner_ready client ctx op out y [] [] v z s2 ->
       WP (body client (K_future_cb cb f ctx)) (fun _ s' => handed_over ctx op out y [] [] (moved_result z)
         (own_cells v z ++ ou_cells op out y [] []) (chain_calls v op out z []) s2 s' /\ let_go v (moved z) s') s1) /\
    (forall z KN WN, inner_pending ctx op out y [] [] v z KN WN s2 ->
       WP (body client (K_future_cb cb f ctx)) (fun _ s' => heap s' !! ctx = None /\ output op out y [] [] s' /\
         chained v z KN WN op [ctx] s2 s') s1).
Proof.
  intros Hans Hc0 Hf Hc Hou [Hfc Hfo]%not_elem_of_cons. split; [done|].
  destruct (answers_run c v s1 Hg Hloop Hans) as (s2 & Hrun & Hh2 & Hf2 & Ht2 & Hev). exists s2. split_and!; try done.
  all: apply (Hk op out y ctx s1 Hc0 Hf Hc Hou Hfo v s2 Hrun); [exists (complete_with r x); by rewrite Hh2|by rewrite Hh2|].
  all: eapply output_frame; [| |exact Hou]; intros; by rewrite ?Hh2, ?Hf2.
Qed.

Lemma follows_null : answers client c NULL ->
  pipelined p cb prm f K W r (complete_with r x) (error_result e) (fun _ _ => [c]) (fun _ => True) s.
Proof.
  intros Hans. eapply (set_up_pipelined mk cb p prm f x K W r _ _ _ [] (fun _ => True)); try done; [by intros q ?%elem_of_nil|].
  intros op out c' w ctx s1 Hc0 Hf Hc Hou _ Hni.
  destruct (answered NULL op out (new_future c' w) ctx s1) as (Hff & s2 & Hh2 & Hf2 & Ht2 & _ & Hnull & _); try done; [apply Hni; by left|].
  eapply wp_mono; [by apply Hnull|]. unfold handed_over. simpl. intros _ s' (Hcn & Hr & [Hoh Hof] & Ht). split_and!; try done.
  - split; [|intros fd Hfd; by rewrite Hof, Hf2]. intros q [? [? ?]%not_elem_of_cons]%not_elem_of_cons.
    rewrite Hoh, Hh2; [done|]. by apply not_elem_of_cons.
  - by rewrite Ht, Ht2, <- app_assoc.
  - rewrite Hoh, Hh2; [done|]. apply (Hni f). by left.
Qed.

Lemma follows_ready v z : answers client c v -> spare f prm x K W v z s ->
  pipelined p cb prm f K W r (complete_with r x) (moved_result z) (fun op out => c :: chain_calls v op out z [])
    (let_go v (moved z)) s.
Proof.
  intros Hans [Hs Htk Hr Hqz Hap].
  assert (Hlive : forall q, q ∈ own_cells v z -> is_Some (heap s !! q)) by (intros q; by apply (settled_live (heap s) v z)).
  eapply (set_up_pipelined mk cb p prm f x K W r _ _ _ (own_cells v z) (fun s => settled_future (heap s) v z)); try done.
  - intros q Hq'. auto.
  - apply settled_lives.
  - rewrite <- own_cells_moved. apply let_go_lives.
  - intros op out c' w ctx s1 Hc0 Hf Hc Hou Hs1 Hni.
    assert (Hfv : f ∉ own_cells v z) by (intros Hx; apply (Hap f Hx); by right; left).
    destruct (answered v op out (new_future c' w) ctx s1) as (Hff & s2 & Hh2 & Hf2 & Ht2 & _ & _ & Hready & _); try done; [apply Hni; by left|].
    eapply wp_mono; [apply Hready|].
    + split; try done; [by rewrite Hh2|]. intros q Hq'. apply Hni. by right.
    + unfold handed_over. intros _ s' ((Hcn & Hrv & [Hoh Hof] & Ht) & Hlg). split_and!; try done.
      * split; [|intros fd Hfd; by rewrite Hof, Hf2]. intros q [? Hq']%not_elem_of_cons.
        rewrite Hoh, Hh2; [done|]. rewrite not_elem_of_app, not_elem_of_cons in Hq'. rewrite not_elem_of_cons, not_elem_of_app. naive_solver.
      * by rewrite Ht, Ht2, <- app_assoc.
      * rewrite Hoh, Hh2; [done|]. rewrite not_elem_of_cons, not_elem_of_app. split_and!; [done..|].
        intros Hx. apply (Hni f); [by left|by right].
Qed.

(** What holds of the pending [v] before and after it has been chained; [s0] is the state
    in which the input's promise is fulfilled. *)
Definition to_chain (v prmv : ptr) (z : UfsrvFuture) KN WN (s0 s1 : st) : Prop :=
  evolution s s0 /\ evolution s0 s1 /\ promise_at (heap s1) prmv v false /\ open_future (heap s1) (fds s1) v z KN WN.
Definition chained_on (v prmv : ptr) (z : UfsrvFuture) KN WN (s0 : st) op out y (s1 : st) : Prop :=
  output op out y [] [] s1 /\ (forall q, q ∈ prmv :: footprint v z KN WN -> q ∉ ou_cells op out y [] []) /\
  promise_at (heap s1) prmv v false /\
  ((oracle s <> [] /\ open_future (heap s1) (fds s1) v (waited z) KN WN) \/
   exists n, (next_ptr s0 <= n)%N /\
     open_future (heap s1) (fds s1) v (waited z) (Pend n CB_sMoveChainContinuation op :: KN) WN).

Lemma to_chain_keeps v prmv z KN WN s0 Y :
  (forall q, q ∈ Y -> q ∉ prmv :: footprint v z KN WN) -> (forall fd, fd ∈ sl_fds W -> fd ∉ sl_fds WN) ->
  keeps Y (sl_fds W) (to_chain v prmv z KN WN s0).
Proof.
  intros HY HF s1 s2 Hh1 Hf1 Hev (H0 & H1 & [Hv0 Hv] & Hov).
  assert (Hsame : forall q, q ∈ prmv :: footprint v z KN WN -> heap s2 !! q = heap s1 !! q) by (intros q Hq'; apply Hh1; intros Hx; by apply (HY q)).
  split_and!; [done| | |].
  - apply (transitivity (R:=evolves) (y:=s1)); [by intros _|done|apply H0].
  - split; [done|]. rewrite Hsame; [done|by left].
  - eapply open_frame; [| |exact Hov]; [intros q Hq'; apply Hsame; by right|]. intros fd Hfd. apply Hf1. intros Hx. by apply (HF fd).
Qed.
Lemma chained_on_keeps v prmv z KN WN s0 op out y Y :
  (forall q, q ∈ Y -> q ∉ prmv :: footprint v z KN WN /\ q ∉ ou_cells op out y [] [] /\ (q < next_ptr s0)%N) ->
  (forall fd, fd ∈ sl_fds W -> fd ∉ sl_fds WN) -> keeps Y (sl_fds W) (chained_on v prmv z KN WN s0 op out y).
Proof.
  intros HY HF s1 s2 Hh1 Hf1 _ (Hou & Hap & [Hv0 Hv] & Hcase).
  assert (Hsame : forall q, q ∈ prmv :: footprint v z KN WN -> heap s2 !! q = heap s1 !! q) by (intros q Hq'; apply Hh1; by intros [Hx _]%HY).
  assert (Hfd : forall fd, fd ∈ sl_fds WN -> fds s2 !! fd = fds s1 !! fd) by (intros fd Hfd; apply Hf1; intros Hx; by apply (HF fd)).
  split_and!; [|done|split; [done|rewrite Hsame; [done|by left]]|].
  - eapply (output_frame _ _ _ _ _ _ s1); [|by intros ? ?%elem_of_nil|exact Hou]. intros q Hq'. apply Hh1. by intros (_ & Hx & _)%HY.
  - destruct Hcase as [[Hor Hov]|(n & Hn & Hov)]; [left|right; exists n]; (split; [done|]); (eapply open_frame; [|exact Hfd|exact Hov]).
    + intros q Hq'. apply Hsame. by right.
    + intros q Hq'. unfold footprint in Hq'. rewrite pd_nodes_cons in Hq'. simpl in Hq'. rewrite !elem_of_cons in Hq'.
      assert (Hq2 : q = n \/ q ∈ footprint v z KN WN) by (unfold footprint; rewrite !elem_of_cons; tauto).
      destruct Hq2 as [->|Hq2]; [|apply Hsame; by right]. apply Hh1. intros (_ & _ & Hx)%HY. lia.
Qed.

(** The continuation, called while the inner future is pending. *)
Lemma chains v prmv z KN WN s0 op out y ctx s1 : answers client c v -> spare_pending f prm x K W v prmv z KN WN s ->
  ctx <> NULL -> heap s1 !! f = Some (OFuture (complete_with r x)) -> heap s1 !! ctx = Some (cell_inj (mk op)) ->
  output op out y [] [] s1 -> to_chain v prmv z KN WN s0 s1 ->
  (forall q, q ∈ f :: prmv :: footprint v z KN WN -> q ∉ ctx :: ou_cells op out y [] []) ->
  WP (body client (K_future_cb cb f ctx))
    (fun _ s' => (heap s' !! f = Some (OFuture (complete_with r x)) /\ heap s' !! ctx = None) /\
       chained_on v prmv z KN WN s0 op out y s' /\
       (forall q, q ∉ ctx :: (prmv :: footprint v z KN WN) ++ f :: ou_cells op out y [] [] -> (q < next_ptr s0)%N -> heap s' !! q = heap s1 !! q) /\
       fds s' = fds s1 /\ trace s' = trace s1 ++ [c]) s1.
Proof.
  intros Hans [Hpv Hov Hcz Hhz Hrz Hqz Hap HF] Hc0 Hf Hc Hou (He0 & He1 & [Hpv0 Hpv1] & Hov1) Hni.
  destruct (answered v op out y ctx s1) as (Hff & s2 & Hh2 & Hf2 & Ht2 & He2 & _ & _ & Hpend); try done; [apply Hni; by left|].
  specialize (He2 (ev_wf _ _ He1)).
  assert (Hvx : forall q, q ∈ prmv :: footprint v z KN WN -> q ∉ ctx :: ou_cells op out y [] []) by (intros q Hq'; apply Hni; by right).
  eapply wp_mono; [apply wp_evolves; [exact Hg|by apply body_guar_all|apply (Hpend z KN WN)]|].
  { split; try done; [apply (ev_wf _ _ He2)|by rewrite Hh2, Hf2|]. intros q Hq'. apply Hvx. by right. }
  simpl. intros _ s' [(Hcn & Hou' & Hfd' & Ht' & Hcase) Hev]. specialize (Hev (ev_wf _ _ He1)). rewrite Hf2 in Hfd'. rewrite Ht2 in Ht'.
  rewrite Hh2 in Hcase.
  assert (Hvf : forall q, q ∈ prm :: footprint f x K W -> q <> v /\ q <> fut_continuations z).
  { intros q Hq'. split; intros ->; eapply (Hap _); try exact Hq'; [right; by left|]. unfold footprint. set_solver +. }
  assert (Hpc : prmv <> v /\ prmv <> fut_continuations z).
  { destruct (of_conts _ _ _ _ _ _ Hov1) as (_ & t & Htk & _). pose proof (of_fut _ _ _ _ _ _ Hov1). split; congruence. }
  assert (Hkeep : forall q o, heap s1 !! q = Some o -> q <> ctx -> q <> v -> q <> fut_continuations z -> heap s' !! q = Some o).
  { intros q o Hq' ???. destruct Hcase as [(n & Hn & _ & Hs)|(_ & _ & Hs)]; (rewrite Hs; [done|simpl; rewrite !not_elem_of_cons]);
      split_and!; try done; try apply not_elem_of_nil. congruence. }
  assert (Hold : forall q o, heap s' !! q = Some o -> heap s1 !! q = None -> (next_ptr s0 <= q)%N).
  { intros q o Hq' Hn. destruct (decide (q < next_ptr s1)%N) as [Hlt|].
    - destruct (ev_heap _ _ Hev q o Hlt Hq') as (o' & Ho' & _). congruence.
    - pose proof (ev_next _ _ He1). lia. }
  destruct (Hvf f) as [Hfv Hfc]; [right; by left|].
  split; [split; [by apply Hkeep|done]|]. split_and!; try done.
  - split; [done|]. split; [intros q Hq' Hx; apply (Hvx q Hq'); by right|]. split.
    + split; [done|]. apply Hkeep; [done| |apply Hpc..]. intros ->. apply (Hvx ctx); by left.
    + destruct Hcase as [(n & Hn & Hon & _)|(Hor & Hon & _)]; [right|left; split; [|done]].
      * exists n. split; [|done]. destruct (of_pendings _ _ _ _ _ _ Hon (Pend n CB_sMoveChainContinuation op)) as (_ & b & Hb & _); [by left|].
        by eapply Hold.
      * intros Hs. apply Hor, (ev_oracle _ _ He2), (ev_oracle _ _ He1), (ev_oracle _ _ He0), Hs.
  - intros q Hq' Hlt. assert (Hqn : q <> ctx /\ q <> v /\ q <> fut_continuations z).
    { clear -Hq'. unfold footprint in Hq'. set_solver. }
    destruct Hqn as (? & ? & ?). destruct Hcase as [(n & Hn & Hon & Hs)|(_ & _ & Hs)]; apply Hs; simpl; rewrite !not_elem_of_cons;
      split_and!; try done; try apply not_elem_of_nil. intros ->.
    destruct (of_pendings _ _ _ _ _ _ Hon (Pend n CB_sMoveChainContinuation op)) as (_ & b & Hb & _); [by left|].
    simpl in Hb. pose proof (Hold _ _ Hb Hn). lia.
Qed.

Lemma follows_pending v prmv z KN WN : answers client c v -> spare_pending f prm x K W v prmv z KN WN s ->
  piped p cb prm f K W r (complete_with r x) (fun _ _ => [c])
    (fun op out y s' => output op out y [] [] s' /\
       ((oracle s <> [] /\ open_future (heap s') (fds s') v (waited z) KN WN) \/ moves_on v prmv z KN WN op out y s')) s.
Proof.
  intros Hans Hsp. pose proof Hsp as [Hpv Hov Hcz Hhz Hrz Hqz Hap HF].
  eapply wp_mono; [apply (set_up_piped mk cb p prm f x K W r (complete_with r x) (fun _ _ => [c]) (prmv :: footprint v z KN WN)
    (to_chain v prmv z KN WN) (chained_on v prmv z KN WN)); try done|].
  - intros q Hq'. split; [|by apply Hap]. apply elem_of_cons in Hq' as [->|Hq']; [destruct Hpv; eauto|by eapply open_allocated].
  - intros s1 Hev Hsm Hfd. split_and!; [done|apply (reflexivity (R:=evolves) s1), Hev| |].
    + destruct Hpv as [? Hpv]. split; [done|]. rewrite Hsm; [done|by left].
    + eapply open_frame; [| |exact Hov]; [intros q Hq'; apply Hsm; by right|intros; by rewrite Hfd].
  - intros s1 Y HY. by apply to_chain_keeps.
  - intros s1 op out y Y HY. by apply chained_on_keeps.
  - intros s0 op out c' w ctx s1 Hc0 Hf Hc Hou Hto Hni. by apply (chains v prmv z KN WN s0 op out (new_future c' w) ctx s1).
  - simpl. intros out s1 [?|(op & ctx & n & y & Hou & Hw)]; [by left|right]. exists op, ctx, n, y. split; [done|].
    eapply wp_mono; [exact Hw|]. simpl. intros _ s2 (? & (s0 & Hou2 & Hap2 & Hpv2 & Hcase) & ? & ? & ?). split_and!; try done.
    destruct Hcase as [Hcase|(n' & _ & Hov2)]; [by left|right]. by eapply moves_on_spec.
Qed.

Lemma follows_pipelined : pipelined_by p cb prm f x K W r c e s.
Proof.
  intros v Hans. split_and!.
  - intros ->. by apply follows_null.
  - intros z. by apply follows_ready.
  - intros prmv z KN WN. by apply follows_pending.
Qed.
End Follows.

Section Operators.
Context (f prm : ptr) (x : UfsrvFuture) (K : list pending) (W : list sleeper) (m : N) (u : ptr)
  (r : UfsrvFutureResult) (s : st).
Context (Hguar : client_guar client) (Hwf : wf_machine s) (Hp : promise_at (heap s) prm f false)
  (Ho : open_future (heap s) (fds s) f x K W) (Htok : fut_cancel_token x = NULL) (Hh : fut_cancel_handle x = NULL)
  (Hq : forall k, k ∈ K -> quiet (pd_call f k)).
#[local] Abbreviation y := (complete_with r x).

Lemma on_success_pipelined :
  (forall c, c ∈ action_calls m u r -> quiet c) ->
  pipelined (UfsrvFutureDoOnSuccess f (Some m) u) CB_sDoOnSuccessContinuation prm f K W r (moved y) (moved_result y)
    (fun _ _ => action_calls m u r) (fun _ => True) s.
Proof.
  intros Hqa. eapply (set_up_pipelined (fun op => MkDoOnSuccessContext op m u f) _ _ prm f x K W r _ _ _ [] (fun _ => True)); try done.
  - apply (api_guar _ _ (api_do_on_success _ _ _)).
  - by apply on_success_set_up.
  - apply same_moved.
  - by intros q ?%elem_of_nil.
  - intros op out c w ctx s1 Hc0 Hf Hc Hou _ Hni.
    eapply wp_mono; [eapply (on_success_cont_spec client f y ctx op m u out (new_future c w) [] []); try done|].
    + intros Hx. apply (Hni f); [by left|by right].
    + simpl. intros _ s' (? & ? & ? & Ht & ?). rewrite app_nil_r in Ht. by split_and!.
Qed.

Lemma on_error_pipelined :
  (res_error r = 0%Z ->
     pipelined (UfsrvFutureOnError f (Some m) u) CB_sOnErrorContinuation prm f K W r (moved y) (moved_result y)
       (fun _ _ => []) (fun _ => True) s) /\
  (res_error r <> 0%Z ->
     pipelined_by (UfsrvFutureOnError f (Some m) u) CB_sOnErrorContinuation prm f x K W r
       (K_recover m (res_error r) u) (res_error r) s).
Proof.
  assert (Hset : set_up client (fun op => MkOnErrorContext op m u f) CB_sOnErrorContinuation f x K W s (UfsrvFutureOnError f (Some m) u))
    by by apply on_error_set_up.
  split; intros He.
  - eapply (set_up_pipelined (fun op => MkOnErrorContext op m u f) _ _ prm f x K W r _ _ _ [] (fun _ => True)); try done.
    + apply (api_guar _ _ (api_on_error _ _ _)).
    + apply same_moved.
    + by intros q ?%elem_of_nil.
    + intros op out c w ctx s1 Hc0 Hf Hc Hou _ Hni.
      destruct (on_error_cont client f y ctx op m u out (new_future c w) [] [] s1) as [Hok _]; try done.
      { intros Hx. apply (Hni f); [by left|by right]. }
      eapply wp_mono; [by apply Hok|]. simpl. naive_solver.
  - eapply (follows_pipelined (fun op => MkOnErrorContext op m u f)); try done; [apply (api_guar _ _ (api_on_error _ _ _))|].
    intros op out z ctx s1 Hc0 Hf Hc Hou Hni. by apply (on_error_cont client f y ctx op m u out z [] [] s1).
Qed.

Lemma flat_map_pipelined :
  (res_error r <> 0%Z ->
     pipelined (UfsrvFutureFlatMap f (Some m) u) CB_sFlatMapContinuation prm f K W r y (error_result (res_error r))
       (fun _ _ => []) (fun _ => True) s) /\
  (res_error r = 0%Z ->
     pipelined_by (UfsrvFutureFlatMap f (Some m) u) CB_sFlatMapContinuation prm f x K W r
       (K_flat_map m (res_value r) u) (-1) s).
Proof.
  assert (Hset : set_up client (fun op => MkFlatMapContext op m u NULL) CB_sFlatMapContinuation f x K W s (UfsrvFutureFlatMap f (Some m) u))
    by by apply flat_map_set_up.
  split; intros He.
  - eapply (set_up_pipelined (fun op => MkFlatMapContext op m u NULL) _ _ prm f x K W r _ _ _ [] (fun _ => True)); try done.
    + apply (api_guar _ _ (api_flat_map _ _ _)).
    + by intros q ?%elem_of_nil.
    + intros op out c w ctx s1 Hc0 Hf Hc Hou _ Hni.
      destruct (flat_map_cont client f r ctx op m u out (new_future c w) [] [] s1) as [Herr _]; try done; [by exists y|].
      assert (Hff : f ∉ ctx :: ou_cells op out (new_future c w) [] []) by (apply Hni; by left).
      eapply wp_mono; [by apply Herr|]. simpl. intros _ s' Hho. split_and!; [|done|].
      * eapply handed_weaken; [|exact Hho]. intros q Hx. by right.
      * destruct Hho as (_ & _ & [Hoh _] & _). by rewrite Hoh.
  - eapply (follows_pipelined (fun op => MkFlatMapContext op m u NULL)); try done; [apply (api_guar _ _ (api_flat_map _ _ _))|].
    intros op out z ctx s1 Hc0 Hf Hc Hou Hni. apply (flat_map_cont client f r ctx op m u out z [] [] s1); try done. by exists y.
Qed.
End Operators.
End Pipelines.

(** C31.  The moving operators, end to end.  Set up on a pending future whose promise is
    then fulfilled with any result, while other continuations observe: [doOnSuccess]
    calls its action on success only and moves the result from the input to the
    output; [onError] moves a successful result in the same way, and on failure calls
    its recovery; [flatMap] fails its output with the error of a failed input, and
    calls its mapper on success.  A recovery or mapper that returns NULL fails the
    output with the original error or [-1]; one that returns a complete future hands
    that future's result over and gives back one reference to it.  The input
    of [flatMap] keeps its result, those of the other two lose a result that is moved.
    In every case the input is settled, the output completed once, and the output's promise, the
    operator's context and the continuation nodes are freed. *)
Theorem moving_pipelines {E : Ext} {TS : TreiberSpec E} client f prm x K W m u r s :
  client_guar client -> wf_machine s ->
  promise_at (heap s) prm f false -> open_future (heap s) (fds s) f x K W ->
  fut_cancel_token x = NULL -> fut_cancel_handle x = NULL ->
  (forall k, k ∈ K -> observes (body client) (pd_call f k)) ->
  ((forall c, c ∈ action_calls m u r -> observes (body client) c) ->
     pipelined client (UfsrvFutureDoOnSuccess f (Some m) u) CB_sDoOnSuccessContinuation prm f K W r
       (moved (complete_with r x)) (moved_result (complete_with r x)) (fun _ _ => action_calls m u r) (fun _ => True) s) /\
  ((res_error r = 0%Z ->
      pipelined client (UfsrvFutureOnError f (Some m) u) CB_sOnErrorContinuation prm f K W r
        (moved (complete_with r x)) (moved_result (complete_with r x)) (fun _ _ => []) (fun _ => True) s) /\
   (res_error r <> 0%Z ->
      pipelined_by client (UfsrvFutureOnError f (Some m) u) CB_sOnErrorContinuation prm f x K W r
        (K_recover m (res_error r) u) (res_error r) s)) /\
  ((res_error r <> 0%Z ->
      pipelined client (UfsrvFutureFlatMap f (Some m) u) CB_sFlatMapContinuation prm f K W r
        (complete_with r x) (error_result (res_error r)) (fun _ _ => []) (fun _ => True) s) /\
   (res_error r = 0%Z ->
      pipelined_by client (UfsrvFutureFlatMap f (Some m) u) CB_sFlatMapContinuation prm f x K W r
        (K_flat_map m (res_value r) u) (-1) s)).
Proof.
  intros. split_and!; [by apply on_success_pipelined|by apply on_error_pipelined..|by apply flat_map_pipelined|by apply flat_map_pipelined].
Qed.

(** ** Witness: the pending future of [ready_st] *)
#[local] Existing Instances RefExt.ext RefExt.treiber.

Lemma moving_pipelines_witness :
  pipelined quiet_client (UfsrvFutureDoOnSuccess fut (Some 5%N) 50%N) CB_sDoOnSuccessContinuation prm fut conts [] ok_result
    (moved (complete_with ok_result fut_cell)) ok_result (fun _ _ => [K_action 5%N 99%N 50%N]) (fun _ => True) ready_st /\
  pipelined quiet_client (UfsrvFutureFlatMap fut (Some 5%N) 50%N) CB_sFlatMapContinuation prm fut conts [] ok_result
    (complete_with ok_result fut_cell) (error_result (-1)) (fun _ _ => [K_flat_map 5%N 99%N 50%N]) (fun _ => True) ready_st.
Proof.
  destruct (moving_pipelines quiet_client fut prm fut_cell conts [] 5%N 50%N ok_result ready_st) as [Hs [_ [_ Hf]]].
  - apply quiet_guar.
  - apply ready_wf.
  - apply ready_promise.
  - apply ready_open.
  - reflexivity.
  - reflexivity.
  - apply ready_conts.
  - split.
    + apply Hs. intros c ->%list_elem_of_singleton. apply (quiet_observes (K_action 5%N 99%N 50%N)).
    + apply (Hf eq_refl NULL); [|reflexivity]. intros s. by apply wps_ret.
Defined.
