(* ===== verification/CombinatorFacts.v ===== *)
(** * CombinatorFacts: correctness of [all], [any] and [zip]

    The combinators join several inputs through a context that counts the reports
    still to come.  [all] is settled by the first failure or the last report, [any]
    by the first report, [zip] by the second one; the last report frees the context. *)
From S2P Require Import Prelude Machine Uflib Model Cancellation Scheduler Coroutine Future Waiting.
From S2P Require Import Operators Combinators Dispatch Logic Guarantee CancellationFacts FutureFacts Demo OperatorFacts.
From S2P Require Import MovingFacts.
Local Open Scope prog_scope.

Section Joining.
Context {E : Ext} {TS : TreiberSpec E} (client : Client).
#[local] Abbreviation WPS := (wps (body client) log).
#[local] Abbreviation WP := (wp (body client) log).
#[local] Abbreviation quiet := (observes (body client)).
#[local] Abbreviation output := (output client).

Lemma published_frame f r s s' : heap s' !! f = heap s !! f -> published f r s -> published f r s'.
Proof. intros Hh (x & Hx & ?). exists x. by rewrite Hh. Qed.

(** The counter of a context at least as large as the number of reports to come. *)
Definition counts (n : Z) : Prop := (1 <= n <= 2 ^ 64 - 1)%Z.
Lemma counts_down n : counts n -> wrap_u64 (n - 1) = (n - 1)%Z.
Proof. intros []. unfold wrap_u64. apply Z.mod_small. lia. Qed.

(** ** all *)

(** The context of [all] with [n] reports to come; [failure] is the error the output
    was failed with, if it was. *)
Definition has_failed (failure : option Z) : bool := match failure with Some _ => true | None => false end.
Record all_at ctx op out y K W (n : Z) (failure : option Z) (s : st) : Prop := {
  al_null : ctx <> NULL;
  al_ctx : heap s !! ctx = Some (OAllContext (MkAllContext op n (has_failed failure)));
  al_out : match failure with
           | None => output op out y K W s
           | Some e => received op out y K W (error_result e) s
           end;
  al_apart : ctx ∉ ou_cells op out y K W;
}.
Definition all_step (failure : option Z) (r : UfsrvFutureResult) : option Z :=
  match failure with
  | Some e => Some e
  | None => if bool_decide (res_error r = 0)%Z then None else Some (res_error r)
  end.
Definition all_result (failure : option Z) : UfsrvFutureResult :=
  match failure with Some e => error_result e | None => MkResult 0 NULL None end.
Definition all_after ctx op out y K W (n : Z) (failure : option Z) (s : st) : Prop :=
  if bool_decide (n = 0)%Z then heap s !! ctx = None /\ received op out y K W (all_result failure) s
  else all_at ctx op out y K W n failure s.
(** The output is settled, and its continuations run, at the first failure or the end. *)
Definition all_settles (n : Z) (failure : option Z) (r : UfsrvFutureResult) : bool :=
  negb (has_failed failure) && (bool_decide (res_error r <> 0)%Z || bool_decide (n = 1)%Z).

Lemma all_at_frame ctx op out y K W n failure s s' :
  (forall p, p ∈ ctx :: ou_cells op out y K W -> heap s' !! p = heap s !! p) ->
  (forall fd, fd ∈ sl_fds W -> fds s' !! fd = fds s !! fd) ->
  all_at ctx op out y K W n failure s -> all_at ctx op out y K W n failure s'.
Proof.
  intros Hh Hf []. split; try done.
  - rewrite Hh; [done|by left].
  - destruct failure; [eapply received_frame|eapply output_frame]; try exact al_out0; try exact Hf; intros p Hp; apply Hh; by right.
Qed.

(** A report of the error [e]: the output is failed unless it was before. *)
Lemma all_fail_spec (k : cprog unit) ctx op out y K W n failure e s :
  e <> 0%Z -> all_at ctx op out y K W n failure s ->
  (forall Q s1, heap s1 !! ctx = Some (OAllContext (MkAllContext op n true)) ->
     (forall p, p <> ctx -> heap s1 !! p = heap s !! p) -> WP (settle_error op e) Q s1 -> WP k Q s1) ->
  WP (let! failed := xchg all_failed set_all_failed true ctx in when (negb failed) k)%prog
    (fun _ s' => all_at ctx op out y K W n (all_step failure (error_result e)) s' /\
       only_changed (ctx :: ou_cells op out y K W) (sl_fds W) s s' /\
       trace s' = trace s ++ (if negb (has_failed failure) then pd_call out <$> K else [])) s.
Proof.
  intros He [Hc0 Hc Ho Hni] Hk. unfold all_step. simpl. rewrite (bool_decide_eq_false_2 (e = 0%Z)) by done.
  destruct failure as [e'|].
  - wp_steps. simpl. wp_steps. unfold set_all_failed. simpl.
    rewrite app_nil_r. split_and!; [|split; [|done]|done].
    + split; try done; simpl; [by rewrite lookup_insert_eq|].
      eapply (received_frame _ _ _ _ _ _ s); [|done|exact Ho]. intros p Hp. assert (p <> ctx) by by intros ->. simpl. lk.
    + intros p [? _]%not_elem_of_cons. simpl. lk.
  - wp_steps. simpl. wp_steps.
    rewrite bind_ret_r. apply Hk; [simpl; lk|intros; simpl; lk|]. rewrite settle_error_is. eapply wp_mono.
    { eapply settle_spec. eapply (output_frame _ _ _ _ _ _ s); [|done|exact Ho].
      intros p Hp. assert (p <> ctx) by by intros ->. simpl. lk. }
    simpl. intros _ s1 (Hr & [Hh Hf] & Ht). split_and!; [|split|done].
    + split; try done. rewrite Hh by done. simpl. lk.
    + intros p [? Hp]%not_elem_of_cons. rewrite Hh by done. simpl. lk.
    + intros fd Hfd. by rewrite Hf.
Qed.

Lemma all_cont_spec f r ctx op out y K W n failure s :
  counts n -> published f r s -> all_at ctx op out y K W n failure s ->
  WP (sAllContinuation f ctx)
    (fun _ s' => all_after ctx op out y K W (n - 1) (all_step failure r) s' /\
       only_changed (ctx :: ou_cells op out y K W) (sl_fds W) s s' /\
       trace s' = trace s ++ (if all_settles n failure r then pd_call out <$> K else [])) s.
Proof.
  intros Hn (x & Hx & _ & Hr) Ha. unfold sAllContinuation. wp_steps. rewrite Hr.
  eapply (wps_seq _ _ _ _ (fun _ s1 => all_at ctx op out y K W n (all_step failure r) s1 /\
    only_changed (ctx :: ou_cells op out y K W) (sl_fds W) s s1 /\
    trace s1 = trace s ++ (if negb (has_failed failure) && bool_decide (res_error r <> 0)%Z then pd_call out <$> K else []))).
  - case_bool_decide as He.
    + replace (all_step failure r) with (all_step failure (error_result (res_error r))) by by destruct failure.
      rewrite andb_true_r. apply all_fail_spec; try done. intros Q s1 Hc Hs HQ.
      assert (f <> ctx) by (intros ->; destruct Ha; congruence).
      assert (heap s1 !! f = Some (OFuture x)) by by rewrite Hs. wp_steps. rewrite Hr, bind_ret_r. exact HQ.
    + apply wps_ret. rewrite andb_false_r, app_nil_r. split_and!; [|by apply only_changed_same|done].
      unfold all_step. destruct failure; [done|]. by rewrite bool_decide_eq_true_2 by lia.
  - simpl. intros _ s1 ([Hc0 Hc Ho Hni] & Hoc & Ht). set (st := all_step failure r) in *. wp_steps.
    assert (Hout : forall s2, (forall p, p <> ctx -> heap s2 !! p = heap s1 !! p) -> fds s2 = fds s1 ->
      (forall p, p ∈ ou_cells op out y K W -> heap s2 !! p = heap s1 !! p)).
    { intros s2 Hs2 _ p Hp. apply Hs2. by intros ->. }
    assert (Hoc' : forall s2, (forall p, p ∉ ctx :: ou_cells op out y K W -> heap s2 !! p = heap s1 !! p) ->
      (forall fd, fd ∉ sl_fds W -> fds s2 !! fd = fds s1 !! fd) -> only_changed (ctx :: ou_cells op out y K W) (sl_fds W) s s2).
    { intros s2 Hs2 Hf2. eapply only_changed_trans; [exact Hoc|]. by split. }
    rewrite counts_down by done. unfold all_after. destruct (decide (n = 1%Z)) as [Hone|Hone].
    + rewrite (bool_decide_eq_true_2 (n - 1 = 0)%Z), (bool_decide_eq_true_2 (n = 1)%Z) by lia. subst n. wp_steps. simpl.
      unfold all_settles. rewrite (bool_decide_eq_true_2 (1 = 1)%Z), orb_true_r, andb_true_r by done.
      assert (Hst : all_step failure r = st) by done. clearbody st.
      destruct st as [e|]; simpl in *; wp_steps.
      * split_and!; [simpl; apply lookup_delete_eq| | |].
        -- eapply (received_frame _ _ _ _ _ _ s1); [|done|exact Ho]. apply Hout; [|done]. intros p ?. simpl. lk.
        -- apply Hoc'; [|done]. intros p [? _]%not_elem_of_cons. simpl. lk.
        -- simpl. rewrite Ht. destruct failure; [done|]. simpl in *. unfold all_step in Hst.
           repeat case_bool_decide; try done; lia.
      * change (UfsrvPromiseSetValue op NULL None) with (UfsrvPromiseSetResult op (MkResult 0 NULL None)).
        rewrite <- bind_bind. change (bind (UfsrvPromiseSetResult op ?r) _) with (settle op r).
        eapply wps_seq; [eapply settle_spec; eapply (output_frame _ _ _ _ _ _ s1); [|done|exact Ho]|].
        { apply Hout; [|done]. intros p ?. simpl. lk. }
        simpl. intros _ s2 (Hrv & [Hh Hf] & Ht2).
        assert (Hc2 : heap s2 !! ctx = Some (OAllContext (MkAllContext op 0 false))) by (rewrite Hh by done; simpl; lk).
        wp_steps. split_and!; [simpl; apply lookup_delete_eq| | |].
        -- eapply (received_frame _ _ _ _ _ _ s2); [|done|exact Hrv]. intros p Hp. simpl. apply lookup_delete_ne. by intros ->.
        -- apply Hoc'; [|intros; by rewrite Hf]. intros p [? Hp]%not_elem_of_cons. simpl.
           rewrite lookup_delete_ne by done. rewrite Hh by done. simpl. lk.
        -- simpl. rewrite Ht2. simpl. rewrite Ht. unfold all_step in Hst. destruct failure; [done|]. simpl in *.
           repeat case_bool_decide; try done. by rewrite app_nil_r.
    + rewrite (bool_decide_eq_false_2 (n - 1 = 0)%Z), (bool_decide_eq_false_2 (n = 1)%Z) by lia. wp_steps. simpl. wp_steps. unfold all_settles.
      rewrite (bool_decide_eq_false_2 (n = 1)%Z), orb_false_r by done. split_and!; [split| |]; try done; simpl; [lk| |].
      * destruct st; [eapply (received_frame _ _ _ _ _ _ s1)|eapply (output_frame _ _ _ _ _ _ s1)]; try exact Ho;
          try done; intros p Hp; assert (p <> ctx) by (by intros ->); simpl; lk.
      * apply Hoc'; [|done]. intros p [? _]%not_elem_of_cons. simpl. lk.
Qed.

(** ** Setting a combinator up *)

(** The operation delivered [r]: it left a complete future that the caller holds the
    only reference to, in memory otherwise equal to [h]. *)
Definition delivered (r : UfsrvFutureResult) (out : ptr) (h : gmap N obj) (s' : st) : Prop :=
  exists c w, let y := set_fut_refcount 1 (complete_with r (new_future c w)) in
    settled_future (heap s') out y /\
    (forall p, p ∈ own_cells out y -> h !! p = None) /\ (forall p, p ∉ own_cells out y -> heap s' !! p = h !! p).
(** The calls [cs] are reports by the inputs [fs]. *)
Definition reports (cb : fut_cb) (fs : list ptr) (cs : list code) : Prop :=
  Forall2 (fun f c => exists a, c = K_future_cb cb f a) fs cs.

(** A pair and a context that names the promise, or NULL. *)
Definition combinator_prog {T} `{!Cell T} (mk : ptr -> T) (rest : ptr -> ptr -> cprog ptr) : cprog ptr :=
  let! pf := UfsrvPromiseCreate false in
  if is_null pf.1 then Ret NULL
  else
    let! ctx := alloc (mk pf.1) in
    if is_null ctx then abandon pf.1 pf.2 ;; Ret NULL
    else rest ctx pf.2.

(** The state in which the inputs are looked at. *)
Record prepared {T} `{!Cell T} (mk : ptr -> T) (op out c w ctx : ptr) (s s' : st) : Prop := {
  pr_output : output op out (new_future c w) [] [] s';
  pr_null : ctx <> NULL;
  pr_ctx : heap s' !! ctx = Some (cell_inj (mk op));
  pr_fresh p : p ∈ [op; out; c; w; ctx] -> heap s !! p = None;
  pr_rest p : p ∉ [op; out; c; w; ctx] -> heap s' !! p = heap s !! p;
  pr_nodup : NoDup [op; out; c; w; ctx];
  pr_fds : fds s' = fds s;
  pr_trace : trace s' = trace s;
  pr_oracle : oracle s = [] -> oracle s' = [];
  pr_wf : wf_machine s';
}.

Lemma combinator_spec {T} `{!Cell T} (mk : ptr -> T) rest (Q : ptr -> st -> Prop) s :
  client_guar client -> wf_machine s ->
  (forall op out c w ctx s1, prepared mk op out c w ctx s s1 -> WP (rest ctx out) Q s1) ->
  (forall s1, oracle s <> [] -> (forall p, heap s1 !! p = heap s !! p) -> fds s1 = fds s -> trace s1 = trace s -> Q NULL s1) ->
  WP (combinator_prog mk rest) Q s.
Proof.
  intros Hc Hwf Hgo Hoom. unfold combinator_prog. eapply wps_seq.
  { apply wp_evolves; [done|apply (api_guar _ _ (api_promise_create _))|].
    apply wp_or_oom; [apply PromiseCreate_spec, Hwf|apply PromiseCreate_plenty, Hwf]. }
  simpl. intros [op out] s1 [[Hplenty (Ht1 & Hf1 & [[[= -> ->] Hh1]|(c & w & Ho1 & Hp1 & Hnd & Hnew & Hrest)])] Hev]; simpl in *.
  { change (is_null NULL) with true. apply wps_ret. apply Hoom; try done; [|by intros; rewrite Hh1]. intros Hor. by apply Hplenty. }
  pose proof (ev_wf _ _ (Hev Hwf)) as Hwf1. pose proof Hwf1 as [Hwa _ _ _]. pose proof Hwa as [Hpos Hfresh].
  rewrite (is_null_false op) by apply Hp1. pose proof (new_output client op out c w s1 Hp1 Ho1) as Hou.
  assert (Hold : forall p, p ∈ [op; out; c; w] -> is_Some (heap s1 !! p)).
  { intros p Hp. destruct (decide (p = op)) as [->|]; [destruct Hp1; eauto|].
    eapply open_allocated; [exact Ho1|]. unfold footprint. simpl. set_solver. }
  assert (Hctx : heap s1 !! next_ptr s1 = None) by (apply Hfresh; lia).
  assert (Hctx0 : next_ptr s1 <> NULL) by (unfold NULL; lia).
  assert (Hctxn : next_ptr s1 ∉ [op; out; c; w]) by (intros Hp; destruct (Hold _ Hp); congruence).
  apply wps_alloc_or_oom; [done|..]; intros o Hor.
  - change (is_null NULL) with true. eapply wps_seq; [eapply (abandon_spec client op out c w); [by eapply (output_frame client _ _ _ _ _ s1)|exact Hnd]|].
    simpl. intros _ s2 (Hg & Hs & Hf2 & Ht2). apply wps_ret. apply Hoom; simpl in *; try congruence; [intros ?; by apply Hor, Hplenty|].
    intros p. destruct (decide (p ∈ [op; out; c; w])) as [Hp|Hp]; [by rewrite Hg, Hnew|]. rewrite Hs by done. by apply Hrest.
  - rewrite (is_null_false (next_ptr s1)) by done. apply (Hgo op out c w). set (ctx := next_ptr s1) in *.
    assert (Hs2 : forall p, p <> ctx -> <[ctx := cell_inj (mk op)]> (heap s1) !! p = heap s1 !! p) by (intros; lk).
    assert (Hsplit : forall p, p ∈ [op; out; c; w; ctx] <-> p ∈ [op; out; c; w] \/ p = ctx) by (intros; set_solver +).
    split; simpl; try done.
    + eapply output_frame; [| |exact Hou]; [|done]. intros p Hp. apply Hs2. intros ->. apply Hctxn.
      unfold ou_cells, footprint in Hp. simpl in Hp. set_solver +Hp.
    + lk.
    + intros p [Hp| ->]%Hsplit; [by apply Hnew|]. rewrite <- Hrest by done. done.
    + intros p Hp. rewrite Hs2 by set_solver +Hp. apply Hrest. set_solver +Hp.
    + change [op; out; c; w; ctx] with ([op; out; c; w] ++ [ctx]). apply NoDup_app. split_and!; [done| |apply NoDup_singleton].
      intros p Hp ->%list_elem_of_singleton. done.
    + intros Hs. apply Hor. by apply Hplenty.
    + destruct Hwf1. split; try done. by apply (wf_alloc_new (mk op) o s1).
Qed.

(** The output settled, the context gone: the result has been delivered. *)
Lemma prepared_delivered {T} `{!Cell T} (mk : ptr -> T) op out c w ctx r h s s1 s' :
  prepared mk op out c w ctx s s1 -> received op out (new_future c w) [] [] r s' -> heap s' !! ctx = None ->
  (forall p, p ∈ [op; out; c; w; ctx] -> h !! p = None) ->
  (forall p, p ∉ [op; out; c; w; ctx] -> heap s' !! p = h !! p) -> delivered r out h s'.
Proof.
  intros Hpr Hrv Hctx Hn Hs. exists c, w. simpl. split_and!; [exact (rv_settled _ _ _ _ _ _ _ Hrv)| |].
  - intros p Hp. apply Hn. unfold own_cells in Hp. simpl in Hp. set_solver +Hp.
  - intros p Hp. unfold own_cells in Hp. simpl in Hp. destruct (decide (p = op)) as [->|]; [|destruct (decide (p = ctx)) as [->|]].
    + rewrite (rv_promise _ _ _ _ _ _ _ Hrv), Hn; [done|]. by left.
    + rewrite Hctx, Hn; [done|]. set_solver +.
    + apply Hs. set_solver.
Qed.

(** ** all, on inputs that are complete or NULL *)

(** What the input [f] reports to [all]. *)
Definition complete_input (s : st) (f : ptr) (r : UfsrvFutureResult) : Prop :=
  (f = NULL /\ r = error_result EINVAL) \/ (f <> NULL /\ published f r s).
Definition non_null (fs : list ptr) : list ptr := filter (fun f => f <> NULL) fs.

Lemma Then_ready f r cb ctx (Q : st -> Prop) s :
  f <> NULL -> published f r s -> WP (body client (K_future_cb cb f ctx)) (fun _ => Q) (log (K_future_cb cb f ctx) s) ->
  WP (UfsrvFutureThen f (Some cb) ctx) (fun ok s' => ok = true /\ Q s') s.
Proof.
  intros Hf (x & Hx & Hr & _) HQ. unfold UfsrvFutureThen, sFutureThen, future_is_ready.
  rewrite (is_null_false f) by done. simpl. wp_steps. rewrite Hr. simpl. wp_steps.
  eapply wp_call_bind; [exact HQ|]. simpl. intros _ s' Hs'. by wp_steps.
Qed.

Lemma all_loop_step {A} (fs : list A) i f rest : drop i fs = f :: rest -> fs !! i = Some f /\ drop (S i) fs = rest.
Proof.
  intros Hd. split.
  - rewrite <- (Nat.add_0_r i), <- lookup_drop, Hd. done.
  - rewrite <- Nat.add_1_r, <- drop_drop, Hd. done.
Qed.

Lemma all_after_live ctx op out y K W n failure s :
  counts n -> all_after ctx op out y K W n failure s -> all_at ctx op out y K W n failure s.
Proof. intros []. unfold all_after. rewrite bool_decide_eq_false_2 by lia. done. Qed.

(** Counting a report that came to nothing. *)
Lemma all_count_spec ctx op out y K W n e s :
  counts n -> all_at ctx op out y K W n (Some e) s ->
  WP (let! old := fetch_sub_size all_remaining set_all_remaining 1 ctx in when (bool_decide (old = 1)%Z) (free ctx))%prog
    (fun _ s' => all_after ctx op out y K W (n - 1) (Some e) s' /\
       only_changed (ctx :: ou_cells op out y K W) (sl_fds W) s s' /\ trace s' = trace s) s.
Proof.
  intros Hn [Hc0 Hc Ho Hni]. simpl in Hc. wp_steps. rewrite counts_down by done. unfold all_after, when.
  assert (Hne : forall p, p ∈ ou_cells op out y K W -> p <> ctx) by (intros p Hp ->; done).
  destruct (decide (n = 1%Z)) as [->|].
  - simpl. wp_steps. split_and!; [simpl; apply lookup_delete_eq| | |done].
    + eapply (received_frame _ _ _ _ _ _ s); [|done|exact Ho]. intros p Hp. specialize (Hne p Hp). simpl. lk.
    + split; [|done]. intros p [? _]%not_elem_of_cons. simpl. lk.
  - rewrite (bool_decide_eq_false_2 (n - 1 = 0)%Z), (bool_decide_eq_false_2 (n = 1)%Z) by lia. wp_steps.
    split_and!; [|split; [|done]|done].
    + split; try done; [simpl; lk|]. eapply (received_frame _ _ _ _ _ _ s); [|done|exact Ho].
      intros p Hp. specialize (Hne p Hp). simpl. lk.
    + intros p [? _]%not_elem_of_cons. simpl. lk.
Qed.

Lemma All_loop_spec ctx op out y W fs rest : forall i rs failure s,
  drop i fs = rest -> Forall2 (fun f r => complete_input s f r /\ (f <> NULL -> f ∉ ou_cells op out y [] W)) rest rs ->
  (Z.of_nat (length rest) <= 2 ^ 64 - 1)%Z ->
  all_after ctx op out y [] W (Z.of_nat (length rest)) failure s ->
  WP (All_loop ctx fs i (length rest))
    (fun _ s' => all_after ctx op out y [] W 0 (fold_left all_step rs failure) s' /\
       only_changed (ctx :: ou_cells op out y [] W) (sl_fds W) s s' /\
       trace s' = trace s ++ ((fun f => K_future_cb CB_sAllContinuation f ctx) <$> non_null rest)) s.
Proof.
  induction rest as [|f rest IH]; intros i rs failure s Hd Hin Hlen Ha.
  { inversion Hin; subst. simpl in *. apply wps_ret. split_and!; [done|by apply only_changed_same|by rewrite app_nil_r]. }
  apply all_loop_step in Hd as [Hlook Hd]. apply Forall2_cons_inv_l in Hin as (r & rs' & [Hr _] & Hin & ->).
  assert (Hn : counts (Z.of_nat (length (f :: rest)))) by (unfold counts; simpl in *; lia).
  apply all_after_live in Ha; [|done]. cbn [length All_loop]. unfold input.
  eapply wps_act; [by rewrite Hlook|]. cbn beta.
  rewrite <- bind_bind.
  eapply (wps_seq _ _ _ _ (fun _ s1 => all_after ctx op out y [] W (Z.of_nat (length (f :: rest)) - 1) (all_step failure r) s1 /\
    only_changed (ctx :: ou_cells op out y [] W) (sl_fds W) s s1 /\
    trace s1 = trace s ++ ((fun f => K_future_cb CB_sAllContinuation f ctx) <$> non_null [f]))).
  - destruct Hr as [[-> ->]|[Hf Hr]].
    + unfold UfsrvFutureThen. change (is_null NULL) with true. cbn [orb].
      eapply (wps_seq _ _ _ _ (fun a s' => a = false /\ s' = s)); [by apply wps_ret|]. intros ? ? [-> ->]. cbn iota.
      rewrite <- bind_bind. eapply wps_seq.
      { apply (all_fail_spec _ ctx op out y [] W (Z.of_nat (length (NULL :: rest))) failure EINVAL); [done|exact Ha|]. intros Q s1 Hc _ HQ.
        wp_steps. rewrite bind_ret_r. exact HQ. }
      simpl. intros _ s1 (Ha1 & Hoc & Ht). destruct (all_step failure (error_result EINVAL)) as [e|] eqn:He; [|by destruct failure].
      eapply wp_mono; [by apply all_count_spec|]. simpl. intros _ s2 (Ha2 & Hoc2 & Ht2). split_and!; [done| |].
      * by eapply only_changed_trans.
      * rewrite Ht2, Ht. by destruct failure.
    + eapply wps_seq.
      { eapply (Then_ready f r CB_sAllContinuation ctx); [done..|].
        eapply (all_cont_spec f r ctx op out y [] W _ failure); [exact Hn|exact Hr|].
        by eapply (all_at_frame _ _ _ _ _ _ _ _ s). }
      simpl. intros ok s1 (-> & Ha1 & [Hh Hf1] & Ht). apply wps_ret. split_and!; [done|by split|].
      rewrite Ht. unfold non_null. rewrite filter_cons_True by done. simpl. destruct (all_settles _ _ _); by rewrite ?app_nil_r.
  - simpl. intros _ s1 (Ha1 & Hoc & Ht).
    assert (Hin1 : Forall2 (fun f r => complete_input s1 f r /\ (f <> NULL -> f ∉ ou_cells op out y [] W)) rest rs').
    { destruct Hoc as [Hoc _]. eapply Forall2_impl; [exact Hin|]. intros g r' [[[-> ->]|[Hg Hr']] Hni]; (split; [|done]); [by left|].
      right. split; [done|]. eapply published_frame; [|exact Hr']. apply Hoc. apply not_elem_of_cons. split; [|by apply Hni].
      intros ->. destruct Ha, Hr' as (? & ? & _). congruence. }
    eapply wp_mono; [apply (IH (S i) rs' (all_step failure r) s1)|]; try done.
    + simpl in Hlen. lia.
    + by replace (Z.of_nat (length rest)) with (Z.of_nat (length (f :: rest)) - 1)%Z by (simpl; lia).
    + simpl. intros _ s2 (Ha2 & Hoc2 & Ht2). split_and!; [done|by eapply only_changed_trans|].
      rewrite Ht2, Ht. unfold non_null. rewrite <- app_assoc, <- fmap_app. by rewrite <- filter_app.
Qed.

(** The pair alone, as [UfsrvFutureFromValue] makes it. *)
Lemma FromValue_spec v fv s :
  wf_alloc s ->
  WP (UfsrvFutureFromValue v fv)
    (fun out s' => fds s' = fds s /\ trace s' = trace s /\
       ((out = NULL /\ oracle s <> [] /\ forall p, heap s' !! p = heap s !! p) \/
        delivered (MkResult 0 v fv) out (heap s) s')) s.
Proof.
  intros Hwf. unfold UfsrvFutureFromValue. eapply wps_seq.
  { apply wp_or_oom; [by apply PromiseCreate_spec|by apply PromiseCreate_plenty]. }
  simpl. intros [op out] s1 (Hplenty & Ht1 & Hf1 & [[[= -> ->] Hh1]|(c & w & Ho1 & Hp1 & Hnd & Hnew & Hrest)]); simpl in *.
  { change (is_null NULL) with true. apply wps_ret. split_and!; [done..|]. left. split_and!; [done| |by rewrite Hh1].
    intros Hor. by apply Hplenty. }
  rewrite (is_null_false op) by apply Hp1. unfold UfsrvPromiseSetValue. rewrite <- bind_bind.
  change (bind (UfsrvPromiseSetResult op ?r) _) with (settle op r).
  eapply wps_seq; [eapply settle_spec; by eapply new_output|]. simpl. intros _ s2 (Hr & [Hh Hf] & Ht). apply wps_ret.
  rewrite Ht, Ht1. split_and!; [|by rewrite app_nil_r|right].
  - apply map_eq. intros fd. rewrite Hf, Hf1; [done|apply not_elem_of_nil].
  - exists c, w. simpl. split_and!; [apply (rv_settled _ _ _ _ _ _ _ Hr)| |]; intros p Hp; unfold own_cells in Hp; simpl in Hp.
    + apply Hnew. set_solver +Hp.
    + destruct (decide (p = op)) as [->|]; [rewrite (rv_promise _ _ _ _ _ _ _ Hr), Hnew; [done|by left]|].
      assert (p ∉ [op; out; c; w]) by set_solver. rewrite Hh, Hrest; [done|done|].
      unfold ou_cells, footprint. simpl. set_solver.
Qed.

Lemma non_null_in f fs : f ∈ non_null fs -> f <> NULL.
Proof. by intros [? _]%list_elem_of_filter. Qed.

Lemma reports_fmap cb ctx fs : reports cb fs ((fun f => K_future_cb cb f ctx) <$> fs).
Proof. apply Forall2_fmap_r, Forall_Forall2_diag, Forall_forall. intros f _. by exists ctx. Qed.

(** Inputs are none of the cells allocated since. *)
Lemma published_prepared {T} `{!Cell T} (mk : ptr -> T) op out c w ctx s s1 f r :
  prepared mk op out c w ctx s s1 -> published f r s ->
  published f r s1 /\ f <> ctx /\ f ∉ ou_cells op out (new_future c w) [] [].
Proof.
  intros [] Hr. assert (Hni : f ∉ [op; out; c; w; ctx]).
  { intros Hin%pr_fresh0. destruct Hr as (? & ? & _). congruence. }
  split_and!; [eapply published_frame; [|exact Hr]; by apply pr_rest0|set_solver +Hni|].
  unfold ou_cells, footprint. simpl. set_solver +Hni.
Qed.

Lemma prepared_apart {T} `{!Cell T} (mk : ptr -> T) op out c w ctx s s1 :
  prepared mk op out c w ctx s s1 -> ctx ∉ ou_cells op out (new_future c w) [] [].
Proof.
  intros [] Hx. change [op; out; c; w; ctx] with ([op; out; c; w] ++ [ctx]) in pr_nodup0.
  apply NoDup_app in pr_nodup0 as (_ & Hd & _). apply (Hd ctx); [|by left].
  unfold ou_cells, footprint in Hx. simpl in Hx. set_solver +Hx.
Qed.
Lemma prepared_cells {T} `{!Cell T} (mk : ptr -> T) op out c w ctx s s1 p :
  prepared mk op out c w ctx s s1 -> p ∉ [op; out; c; w; ctx] <-> p ∉ ctx :: ou_cells op out (new_future c w) [] [].
Proof. intros _. unfold ou_cells, footprint. simpl. set_solver +. Qed.

Lemma all_of_complete_spec fs rs s :
  client_guar client -> wf_machine s -> (Z.of_nat (length fs) <= 2 ^ 64 - 1)%Z -> Forall2 (complete_input s) fs rs ->
  WP (UfsrvFutureAll (Some fs) (length fs))
    (fun out s' => fds s' = fds s /\
       ((out = NULL /\ oracle s <> [] /\ (forall p, heap s' !! p = heap s !! p) /\ trace s' = trace s) \/
        (delivered (all_result (fold_left all_step rs None)) out (heap s) s' /\
         exists cs, reports CB_sAllContinuation (non_null fs) cs /\ trace s' = trace s ++ cs))) s.
Proof.
  intros Hc Hwf Hlen Hin. unfold UfsrvFutureAll. case_bool_decide as H0.
  { destruct fs; [|done]. inversion Hin; subst. eapply wp_mono; [apply FromValue_spec, Hwf|]. simpl.
    intros out s' (Hf & Ht & [(? & ? & ?)|Hd]); (split; [done|]); [by left|right]. split; [done|].
    exists []. split; [constructor|by rewrite app_nil_r]. }
  change (bind _ _) with (combinator_prog (fun op => MkAllContext op (Z.of_nat (length fs)) false)
    (fun ctx out => All_loop ctx fs 0 (length fs) ;; Ret out)%prog).
  apply combinator_spec; try done.
  - intros op out c w ctx s1 Hpr. eapply wps_seq.
    { apply (All_loop_spec ctx op out (new_future c w) [] fs fs 0 rs None); [done| |done|].
      - eapply Forall2_impl; [exact Hin|]. intros f r [[-> ->]|[Hf Hr]]; [by split; [left|]|].
        destruct (published_prepared _ _ _ _ _ _ _ _ _ _ Hpr Hr) as (? & ? & ?). split; [by right|done].
      - unfold all_after. rewrite bool_decide_eq_false_2 by lia. pose proof Hpr as []. split; try done. by eapply prepared_apart. }
    simpl. intros _ s2 ((Hctx & Hrv) & [Hh Hf] & Ht). apply wps_ret. pose proof Hpr as []. split.
    { apply map_eq. intros fd. rewrite Hf, pr_fds0; [done|apply not_elem_of_nil]. }
    right. split.
    + eapply prepared_delivered; [exact Hpr|exact Hrv|done|done|]. intros p Hp.
      rewrite Hh by (by apply (prepared_cells _ _ _ _ _ _ _ _ _ Hpr)). by apply pr_rest0.
    + eexists. split; [apply reports_fmap|]. by rewrite Ht, pr_trace0.
  - intros s1 Hor Hh Hf Ht. split; [done|]. by left.
Qed.

(** ** any *)

(** The context of [any] with [n] reports to come; [won] is what the output was
    settled with, if it was. *)
Definition has_won (won : option UfsrvFutureResult) : bool := match won with Some _ => true | None => false end.
Record any_at ctx op out y K W (n : Z) (won : option UfsrvFutureResult) (s : st) : Prop := {
  an_null : ctx <> NULL;
  an_ctx : heap s !! ctx = Some (OAnyContext (MkAnyContext op (has_won won) n));
  an_out : match won with None => output op out y K W s | Some r => received op out y K W r s end;
  an_apart : ctx ∉ ou_cells op out y K W;
}.
Definition any_step (won : option UfsrvFutureResult) (r : UfsrvFutureResult) : option UfsrvFutureResult :=
  match won with Some r' => Some r' | None => Some r end.
Definition any_result (won : option UfsrvFutureResult) : UfsrvFutureResult :=
  match won with Some r => r | None => error_result EINVAL end.
Definition any_after ctx op out y K W (n : Z) (won : option UfsrvFutureResult) (s : st) : Prop :=
  if bool_decide (n = 0)%Z then heap s !! ctx = None /\ received op out y K W (any_result won) s
  else any_at ctx op out y K W n won s.
(** The first input to report is moved from. *)
Definition any_input (won : option UfsrvFutureResult) (x : UfsrvFuture) : UfsrvFuture :=
  if has_won won then x else moved x.

Lemma any_at_frame ctx op out y K W n won s s' :
  (forall p, p ∈ ctx :: ou_cells op out y K W -> heap s' !! p = heap s !! p) ->
  (forall fd, fd ∈ sl_fds W -> fds s' !! fd = fds s !! fd) ->
  any_at ctx op out y K W n won s -> any_at ctx op out y K W n won s'.
Proof.
  intros Hh Hf []. split; try done.
  - rewrite Hh; [done|by left].
  - destruct won; [eapply received_frame|eapply output_frame]; try exact an_out0; try exact Hf; intros p Hp; apply Hh; by right.
Qed.

Lemma any_count_spec ctx op out y K W n r s :
  counts n -> any_at ctx op out y K W n (Some r) s ->
  WP (let! old := fetch_sub_size any_remaining set_any_remaining 1 ctx in when (bool_decide (old = 1)%Z) (free ctx))%prog
    (fun _ s' => any_after ctx op out y K W (n - 1) (Some r) s' /\ only_changed [ctx] [] s s' /\ trace s' = trace s) s.
Proof.
  intros Hn [Hc0 Hc Ho Hni]. simpl in Hc. wp_steps. rewrite counts_down by done. unfold any_after, when.
  assert (Hne : forall p, p ∈ ou_cells op out y K W -> p <> ctx) by (intros p Hp ->; done).
  destruct (decide (n = 1%Z)) as [->|].
  - simpl. wp_steps. split_and!; [simpl; apply lookup_delete_eq| | |done].
    + eapply (received_frame _ _ _ _ _ _ s); [|done|exact Ho]. intros p Hp. specialize (Hne p Hp). simpl. lk.
    + split; [|done]. intros p [? _]%not_elem_of_cons. simpl. lk.
  - rewrite (bool_decide_eq_false_2 (n - 1 = 0)%Z), (bool_decide_eq_false_2 (n = 1)%Z) by lia. wp_steps.
    split_and!; [|split; [|done]|done].
    + split; try done; [simpl; lk|]. eapply (received_frame _ _ _ _ _ _ s); [|done|exact Ho].
      intros p Hp. specialize (Hne p Hp). simpl. lk.
    + intros p [? _]%not_elem_of_cons. simpl. lk.
Qed.

Lemma any_cont_spec f x reg ctx op out y K W n won s :
  counts n -> heap s !! f = Some (OFuture x) -> f ∉ ou_cells op out y K W -> reg <> NULL ->
  heap s !! reg = Some (OAnyRegistration (MkAnyRegistration ctx f)) -> reg ∉ ou_cells op out y K W ->
  any_at ctx op out y K W n won s ->
  WP (sAnyContinuation f reg)
    (fun _ s' => any_after ctx op out y K W (n - 1) (any_step won (moved_result x)) s' /\
       heap s' !! reg = None /\ heap s' !! f = Some (OFuture (any_input won x)) /\
       only_changed (reg :: f :: ctx :: ou_cells op out y K W) (sl_fds W) s s' /\
       trace s' = trace s ++ (if has_won won then [] else pd_call out <$> K)) s.
Proof.
  intros Hn Hf Hfo Hr0 Hr Hro Ha. pose proof (an_ctx _ _ _ _ _ _ _ _ _ Ha) as Hc.
  pose proof (an_null _ _ _ _ _ _ _ _ _ Ha) as Hc0. pose proof (an_apart _ _ _ _ _ _ _ _ _ Ha) as Hca.
  unfold sAnyContinuation. wp_steps. set (s0 := store_cell _ _ _).
  assert (Hcf : ctx <> f /\ reg <> f /\ ctx <> reg) by (split_and!; congruence). destruct Hcf as (Hcf & Hrf & Hcr).
  assert (Hne : forall p, p ∈ ou_cells op out y K W -> p <> f /\ p <> reg /\ p <> ctx) by (intros p Hp; split_and!; intros ->; done).
  assert (Hs0 : forall p, p <> reg -> p <> ctx -> heap s0 !! p = heap s !! p) by (intros; simpl; lk).
  assert (Hs0r : heap s0 !! reg = None) by (simpl; rewrite lookup_insert_ne by done; apply lookup_delete_eq).
  eapply (wps_seq _ _ _ _ (fun _ s1 => any_at ctx op out y K W n (any_step won (moved_result x)) s1 /\
    heap s1 !! f = Some (OFuture (any_input won x)) /\ only_changed (f :: ou_cells op out y K W) (sl_fds W) s0 s1 /\
    trace s1 = trace s0 ++ (if has_won won then [] else pd_call out <$> K))).
  - destruct Ha as [_ _ Ho _]. unfold any_input. destruct won as [r|]; simpl.
    + apply wps_ret. split_and!; [|rewrite Hs0 by done; exact Hf|by apply only_changed_same|by rewrite app_nil_r].
      split; try done; [simpl; lk|]. eapply (received_frame _ _ _ _ _ _ s); [|done|exact Ho].
      intros p Hp. destruct (Hne p Hp) as (? & ? & ?). by apply Hs0.
    + wp_steps. rewrite bind_ret_r. eapply wp_mono; [eapply (forward_once_spec client f x op out y K W s0); [|  |exact Hfo]|].
      * by rewrite Hs0.
      * eapply (output_frame _ _ _ _ _ _ s); [|done|exact Ho]. intros p Hp. destruct (Hne p Hp) as (? & ? & ?). by apply Hs0.
      * simpl. intros _ s1 (Hrv & Hf1 & Hoc & Ht). split_and!; try done. split; try done.
        rewrite (oc_heap _ _ _ _ Hoc); [simpl; lk|]. by apply not_elem_of_cons.
  - simpl. intros _ s1 (Ha1 & Hf1 & [Hh1 Hfd1] & Ht1). rewrite <- bind_bind.
    destruct (any_step won (moved_result x)) as [r|] eqn:Hst; [|by destruct won].
    eapply wps_seq; [by apply any_count_spec|]. simpl. intros _ s2 (Ha2 & [Hh2 Hfd2] & Ht2). apply wps_ret.
    assert (Hs2 : forall p, p <> ctx -> heap s2 !! p = heap s1 !! p) by (intros p Hp; apply Hh2; by intros ?%list_elem_of_singleton).
    split_and!; [done| | |split|by rewrite Ht2, Ht1].
    + rewrite Hs2, Hh1; [done| |done]. by apply not_elem_of_cons.
    + by rewrite Hs2.
    + intros p Hp. rewrite !not_elem_of_cons in Hp. destruct Hp as (? & ? & ? & ?).
      rewrite Hs2, Hh1 by (done || by apply not_elem_of_cons). by apply Hs0.
    + intros fd Hfd. rewrite Hfd2, Hfd1; [done|done|apply not_elem_of_nil].
Qed.

(** An input of [any] or [zip]: a future that is complete. *)
Definition done_future (f : ptr) (s : st) : Prop :=
  exists x, f <> NULL /\ heap s !! f = Some (OFuture x) /\ fut_state x = READY.
(** Registering the input: done when there is memory for its registration. *)
Lemma any_register_spec f x ctx op out y n won s :
  client_guar client -> wf_machine s ->
  counts n -> any_at ctx op out y [] [] n won s -> f <> NULL -> heap s !! f = Some (OFuture x) -> fut_state x = READY ->
  f ∉ ou_cells op out y [] [] -> (forall p, p ∈ ou_cells op out y [] [] -> (p < next_ptr s)%N) ->
  WP (Any_register ctx f)
    (fun ok s' => (fds s' = fds s /\
       if ok : bool then exists reg, trace s' = trace s ++ [K_future_cb CB_sAnyContinuation f reg] /\
         any_after ctx op out y [] [] (n - 1) (any_step won (moved_result x)) s' /\
         heap s' !! f = Some (OFuture (any_input won x)) /\
         (forall p, p ∉ f :: ctx :: ou_cells op out y [] [] -> heap s' !! p = heap s !! p)
       else oracle s <> [] /\ trace s' = trace s /\ any_at ctx op out y [] [] n won s' /\ heap s' = heap s) /\ evolves s s') s.
Proof.
  intros Hcl Hwf Hn Ha Hf0 Hf Hrd Hfo Hlow. apply wp_evolves; [done|apply g_Any_register|].
  unfold Any_register. pose proof Hwf as [Hwa _ _ _]. pose proof Hwa as [Hpos Hfresh].
  apply wps_alloc_or_oom; [done|..]; intros o Hor.
  - change (is_null NULL) with true. apply wps_ret. split_and!; try done. by eapply (any_at_frame _ _ _ _ _ _ _ _ s).
  - assert (Hr0 : next_ptr s <> NULL) by (unfold NULL; lia). assert (Hrn : heap s !! next_ptr s = None) by (apply Hfresh; lia).
    rewrite (is_null_false (next_ptr s)) by done. set (reg := next_ptr s) in *. set (s1 := with_next_ptr _ _).
    assert (Hs1 : forall p, p <> reg -> heap s1 !! p = heap s !! p) by (intros; simpl; lk).
    assert (Hro : reg ∉ ou_cells op out y [] [] /\ reg <> ctx).
    { split; [|destruct Ha; congruence]. intros Hx%Hlow. unfold reg in Hx. lia. }
    destruct Hro as [Hro Hrc]. assert (Hrf : reg <> f) by congruence.
    eapply wps_seq.
    { eapply (Then_ready f (fut_result x) CB_sAnyContinuation reg); [done|exists x; by rewrite Hs1|].
      eapply (any_cont_spec f x reg ctx op out y [] [] n won); try done; simpl; [lk|lk|].
      eapply (any_at_frame _ _ _ _ _ _ _ _ s); [|done|exact Ha]. intros p Hp. simpl. apply lookup_insert_ne.
      intros <-. apply elem_of_cons in Hp as [?|?]; done. }
    simpl. intros ok s2 (-> & Ha2 & Hreg & Hf2 & [Hh2 Hfd2] & Ht2). apply wps_ret. split.
    { apply map_eq. intros fd. apply Hfd2, not_elem_of_nil. }
    exists reg. split_and!; [rewrite Ht2; simpl; by destruct (has_won won); rewrite app_nil_r|done|done|].
    intros p Hp. destruct (decide (p = reg)) as [->|Hpr]; [by rewrite Hreg, Hrn|].
    rewrite Hh2; [apply Hs1; done|]. by apply not_elem_of_cons.
Qed.

(** The first of the inputs that reported is the one the output is settled with. *)
Definition any_won (won : option UfsrvFutureResult) (h : gmap N obj) (fs : list ptr) : option UfsrvFutureResult :=
  match won, fs with
  | None, f :: _ => match h !! f with Some (OFuture x) => Some (moved_result x) | _ => None end
  | _, _ => won
  end.
Definition any_moved (won : option UfsrvFutureResult) (h : gmap N obj) (fs : list ptr) : gmap N obj :=
  match won, fs with
  | None, f :: _ => match h !! f with Some (OFuture x) => <[f := OFuture (moved x)]> h | _ => h end
  | _, _ => h
  end.

(** An input that could not be registered is counted as having reported nothing. *)
Definition any_skip (ctx : ptr) : cprog unit :=
  let! old := fetch_sub_size any_remaining set_any_remaining 1 ctx in
  if bool_decide (old = 1)%Z then
    let! claimed := rd any_claimed ctx in
    when (negb claimed) (let! out_promise := rd any_out_promise ctx in settle_error out_promise EINVAL) ;;
    free ctx
  else Ret tt.
Lemma any_skip_spec ctx op out y n won s :
  counts n -> any_at ctx op out y [] [] n won s ->
  WP (any_skip ctx)
    (fun _ s' => any_after ctx op out y [] [] (n - 1) won s' /\
       only_changed (ctx :: ou_cells op out y [] []) [] s s' /\ trace s' = trace s) s.
Proof.
  intros Hn [Hc0 Hc Ho Hni]. unfold any_skip. wp_steps. rewrite counts_down by done. unfold any_after.
  assert (Hne : forall p, p ∈ ou_cells op out y [] [] -> p <> ctx) by (intros p Hp ->; done).
  set (s1 := store_cell _ _ s). assert (Hs1 : forall p, p <> ctx -> heap s1 !! p = heap s !! p) by (intros; simpl; lk).
  destruct (decide (n = 1%Z)) as [->|].
  - simpl. wp_steps. destruct won as [r|]; simpl; wp_steps.
    + split_and!; [simpl; apply lookup_delete_eq| | |done].
      * eapply (received_frame _ _ _ _ _ _ s); [|done|exact Ho]. intros p Hp. specialize (Hne p Hp). simpl. lk.
      * split; [|done]. intros p [? _]%not_elem_of_cons. simpl. lk.
    + rewrite settle_error_is. eapply wps_seq.
      { eapply settle_spec. eapply (output_frame _ _ _ _ _ _ s); [|done|exact Ho]. intros p Hp. by apply Hs1, Hne. }
      simpl. intros _ s2 (Hrv & [Hh Hf] & Ht).
      assert (heap s2 !! ctx = Some (OAnyContext (MkAnyContext op false 0))) by (rewrite Hh by done; simpl; lk).
      wp_steps. split_and!; [simpl; apply lookup_delete_eq| | |simpl; rewrite Ht; simpl; by rewrite app_nil_r].
      * eapply (received_frame _ _ _ _ _ _ s2); [|done|exact Hrv]. intros p Hp. specialize (Hne p Hp). simpl. lk.
      * split; [|intros fd Hfd; by apply Hf]. intros p [? Hp]%not_elem_of_cons. simpl.
        rewrite lookup_delete_ne by done. rewrite Hh by done. by apply Hs1.
  - rewrite (bool_decide_eq_false_2 (n - 1 = 0)%Z), (bool_decide_eq_false_2 (n = 1)%Z) by lia. wp_steps.
    split_and!; [|split; [|done]|done].
    + split; try done; [simpl; lk|]. destruct won; [eapply (received_frame _ _ _ _ _ _ s)|eapply (output_frame _ _ _ _ _ _ s)];
        try exact Ho; try done; intros p Hp; by apply Hs1, Hne.
    + intros p [? _]%not_elem_of_cons. by apply Hs1.
Qed.

(** The cells from which an input is read are apart from the output. *)
Definition any_input_ok op out y (s : st) (f : ptr) : Prop := f = NULL \/ (done_future f s /\ f ∉ ou_cells op out y [] []).

(** The inputs [regs] among [fs] have reported, the output being settled before or now. *)
Definition any_reported ctx op out y (n : Z) won (fs : list ptr) (s s' : st) : Prop :=
  fds s' = fds s /\ exists regs cs, regs `sublist_of` non_null fs /\ (oracle s = [] -> regs = non_null fs) /\
    reports CB_sAnyContinuation regs cs /\ trace s' = trace s ++ cs /\
    any_after ctx op out y [] [] n (any_won won (heap s) regs) s' /\
    (forall p, p ∉ ctx :: ou_cells op out y [] [] -> heap s' !! p = any_moved won (heap s) regs !! p).

Lemma any_register_null ctx s :
  client_guar client -> wf_machine s ->
  WP (Any_register ctx NULL)
    (fun ok s' => (ok = false /\ fds s' = fds s /\ trace s' = trace s /\ heap s' = heap s) /\ evolves s s') s.
Proof.
  intros Hcl Hwf. apply wp_evolves; [done|apply g_Any_register|]. pose proof Hwf as [Hwa _ _ _]. pose proof Hwa as [Hpos Hfresh].
  unfold Any_register. apply wps_alloc; [done|..]; intros o.
  - change (is_null NULL) with true. by apply wps_ret.
  - rewrite (is_null_false (next_ptr s)) by (unfold NULL; lia). unfold UfsrvFutureThen. change (is_null NULL) with true. simpl.
    assert (next_ptr s <> NULL) by (unfold NULL; lia). wp_steps. split_and!; try done. simpl. rewrite delete_insert_eq.
    apply delete_id, Hfresh. lia.
Qed.

Lemma Any_input_spec ctx op out y n won f s :
  client_guar client -> wf_machine s -> (forall p, p ∈ ou_cells op out y [] [] -> (p < next_ptr s)%N) ->
  any_input_ok op out y s f -> counts n -> any_at ctx op out y [] [] n won s ->
  WP (Any_input ctx f) (fun _ s' => any_reported ctx op out y (n - 1) won [f] s s' /\ evolves s s') s.
Proof.
  intros Hcl Hwf Hlow Hin Hn Ha. apply wp_evolves; [done|apply g_Any_input|].
  assert (Hskip : forall s1, fds s1 = fds s -> trace s1 = trace s -> heap s1 = heap s -> (oracle s = [] -> f = NULL) ->
    WP (any_skip ctx) (fun _ => any_reported ctx op out y (n - 1) won [f] s) s1).
  { intros s1 Hf1 Ht1 Hh1 Hor. eapply wp_mono; [apply (any_skip_spec ctx op out y n won); [done|]|].
    - eapply (any_at_frame _ _ _ _ _ _ _ _ s); [|by rewrite Hf1|exact Ha]. intros. by rewrite Hh1.
    - simpl. intros _ s2 (Ha2 & [Hh2 Hf2] & Ht2). split.
      { apply map_eq. intros fd. rewrite Hf2, Hf1; [done|apply not_elem_of_nil]. }
      exists [], []. split_and!; [apply sublist_nil_l| |constructor|by rewrite Ht2, Ht1, app_nil_r|by destruct won|].
      + by intros ->%Hor.
      + intros p Hp. rewrite Hh2, Hh1 by done. by destruct won. }
  unfold Any_input. destruct Hin as [->|((x & Hf0 & Hf & Hrd) & Hfo)].
  - eapply wps_seq; [by apply any_register_null|]. simpl. intros ok s1 ((-> & Hf1 & Ht1 & Hh1) & _). by apply Hskip.
  - eapply wps_seq; [by eapply any_register_spec|]. simpl. intros [] s1 ((Hf1 & Hr) & _).
    + destruct Hr as (reg & Ht & Ha1 & Hfx & Hrest). apply wps_ret. split; [done|].
      exists [f], [K_future_cb CB_sAnyContinuation f reg]. unfold non_null. rewrite filter_cons_True by done.
      split_and!; try done; [constructor; [by exists reg|constructor]| |].
      * unfold any_won. rewrite Hf. by destruct won.
      * intros p Hp. unfold any_moved. rewrite Hf. unfold any_input in Hfx.
        destruct (decide (p = f)) as [->|Hpf].
        -- destruct won; simpl in Hfx; [by rewrite Hfx|]. by rewrite lookup_insert_eq.
        -- rewrite Hrest by by apply not_elem_of_cons. destruct won; [done|]. by rewrite lookup_insert_ne.
    + destruct Hr as (Hor & Ht & Ha1 & Hh). by apply Hskip.
Qed.

Lemma sublist_single f regs : regs `sublist_of` non_null [f] -> regs = [] \/ (regs = [f] /\ f <> NULL).
Proof.
  unfold non_null. destruct (decide (f = NULL)) as [->|Hf].
  - rewrite filter_cons_False by naive_solver. intros ->%sublist_nil_r. by left.
  - rewrite filter_cons_True by done. change (filter _ []) with (@nil ptr).
    intros Hs; inversion Hs as [|? ? ? H'|? ? ? H']; subst; apply sublist_nil_r in H'; subst; auto.
Qed.

(** Reports by [r1], then by [r2]. *)
Lemma any_won_app won h h' x f regs :
  h !! f = Some (OFuture x) -> any_won (any_won won h [f]) h' regs = any_won won h (f :: regs).
Proof. intros Hf. unfold any_won. rewrite Hf. by destruct won. Qed.
Lemma any_unmoved won h h' regs p :
  (forall g, g ∈ regs -> h' !! g = h !! g) ->
  any_won won h' regs = any_won won h regs /\
  (h' !! p = h !! p -> any_moved won h' regs !! p = any_moved won h regs !! p).
Proof.
  intros Hr. unfold any_won, any_moved. destruct won, regs as [|g regs]; try done.
  rewrite (Hr g) by by left. split; [done|]. destruct (h !! g) as [[]|]; try done. intros Hp. by rewrite !lookup_insert, Hp.
Qed.

Lemma Any_loop_spec ctx op out y fs rest : client_guar client -> forall i won s,
  wf_machine s -> (forall p, p ∈ ou_cells op out y [] [] -> (p < next_ptr s)%N) ->
  drop i fs = rest -> Forall (any_input_ok op out y s) rest -> (Z.of_nat (length rest) <= 2 ^ 64 - 1)%Z ->
  any_after ctx op out y [] [] (Z.of_nat (length rest)) won s ->
  WP (Any_loop ctx fs i (length rest)) (fun _ => any_reported ctx op out y 0 won rest s) s.
Proof.
  intros Hcl. induction rest as [|f rest IH]; intros i won s Hwf Hlow Hd Hin Hlen Ha.
  { simpl. apply wps_ret. split; [done|]. exists [], []. split_and!; try done; [constructor|by rewrite app_nil_r|by destruct won..]. }
  apply all_loop_step in Hd as [Hlook Hd]. apply Forall_cons in Hin as [Hf Hin].
  assert (Hn : counts (Z.of_nat (length (f :: rest)))) by (unfold counts; simpl in *; lia).
  assert (Hat : any_at ctx op out y [] [] (Z.of_nat (length (f :: rest))) won s).
  { unfold any_after in Ha. rewrite bool_decide_eq_false_2 in Ha by (simpl; lia). done. }
  cbn [length Any_loop]. unfold input. eapply wps_act; [by rewrite Hlook|]. cbn beta.
  eapply wps_seq; [by apply Any_input_spec|]. simpl.
  intros _ s1 ((Hf1 & regs1 & cs1 & Hsub1 & Hor1 & Hrep1 & Ht1 & Ha1 & Hs1) & Hev). specialize (Hev Hwf).
  pose proof (an_ctx _ _ _ _ _ _ _ _ _ Hat) as Hctx.
  assert (Hout : forall g, any_input_ok op out y s g -> g <> NULL -> g ∉ ctx :: ou_cells op out y [] []).
  { intros g [->|((x & _ & Hx & _) & Hg)] Hg0; [done|]. apply not_elem_of_cons. split; [congruence|done]. }
  assert (Hmoved : forall g, g ∉ ctx :: ou_cells op out y [] [] -> done_future g s -> done_future g s1).
  { intros g Hg (x & Hg0 & Hx & Hrd). unfold done_future. rewrite Hs1 by done. unfold any_moved.
    destruct won; [by exists x|]. destruct (sublist_single f regs1 Hsub1) as [->|[-> Hf0]]; [by exists x|].
    destruct Hf as [->|((z & _ & Hz & _) & _)]; [done|]. rewrite Hz, lookup_insert. case_decide; [|by exists x].
    subst f. rewrite Hx in Hz. injection Hz as <-. exists (moved x). split_and!; [done..|]. unfold moved. by case_match. }
  eapply wp_mono; [apply (IH (S i) (any_won won (heap s) regs1) s1)|].
  - apply Hev.
  - intros p Hp. pose proof (ev_next _ _ Hev). specialize (Hlow p Hp). lia.
  - done.
  - eapply Forall_impl; [exact Hin|]. intros g Hg. pose proof (Hout g Hg) as Hgo.
    destruct Hg as [->|((x & Hg0 & Hx & Hrd) & Hg)]; [by left|]. right. split; [|done]. apply Hmoved; [by apply Hgo|].
    by exists x.
  - simpl in Hlen. lia.
  - by replace (Z.of_nat (length rest)) with (Z.of_nat (length (f :: rest)) - 1)%Z by (simpl; lia).
  - simpl. intros _ s2 (Hf2 & regs2 & cs2 & Hsub2 & Hor2 & Hrep2 & Ht2 & Ha2 & Hs2). split; [congruence|].
    exists (regs1 ++ regs2), (cs1 ++ cs2).
    assert (Hsame : regs1 = [] -> forall g, g ∈ regs2 -> heap s1 !! g = heap s !! g).
    { intros -> g Hg. assert (Hgr : g ∈ non_null rest) by (by eapply elem_of_sublist).
      apply list_elem_of_filter in Hgr as [Hg0 Hgr]. rewrite Hs1; [by destruct won|].
      apply Hout; [|done]. by eapply Forall_forall. }
    change (f :: rest) with ([f] ++ rest). unfold non_null. rewrite filter_app. split_and!.
    + by apply sublist_app.
    + intros Hor. rewrite (Hor1 Hor), Hor2; [done|]. by apply (ev_oracle _ _ Hev).
    + by apply Forall2_app.
    + by rewrite Ht2, Ht1, app_assoc.
    + destruct (sublist_single f regs1 Hsub1) as [->|[-> Hf0]]; simpl.
      * destruct (any_unmoved won (heap s) (heap s1) regs2 NULL) as [<- _]; [by apply Hsame|]. by destruct won.
      * destruct Hf as [->|((x & _ & Hx & _) & _)]; [done|]. by erewrite <- any_won_app.
    + intros p Hp. rewrite Hs2 by done. destruct (sublist_single f regs1 Hsub1) as [->|[-> Hf0]]; simpl.
      * replace (any_won won (heap s) []) with won by by destruct won. apply any_unmoved; [by apply Hsame|].
        rewrite Hs1 by done. by destruct won.
      * destruct Hf as [->|((x & _ & Hx & _) & _)]; [done|]. specialize (Hs1 p Hp). unfold any_won, any_moved in *.
        rewrite Hx in *. by destruct won.
Qed.

Lemma any_of_complete_spec fs s :
  client_guar client -> wf_machine s -> (0 < length fs) -> (Z.of_nat (length fs) <= 2 ^ 64 - 1)%Z ->
  Forall (fun f => f = NULL \/ done_future f s) fs ->
  WP (UfsrvFutureAny (Some fs) (length fs))
    (fun out s' => fds s' = fds s /\
       ((out = NULL /\ oracle s <> [] /\ (forall p, heap s' !! p = heap s !! p) /\ trace s' = trace s) \/
        exists regs cs, regs `sublist_of` non_null fs /\ (oracle s = [] -> regs = non_null fs) /\
          reports CB_sAnyContinuation regs cs /\ trace s' = trace s ++ cs /\
          delivered (any_result (any_won None (heap s) regs)) out (any_moved None (heap s) regs) s')) s.
Proof.
  intros Hc Hwf Hpos Hlen Hin. unfold UfsrvFutureAny. rewrite bool_decide_eq_false_2 by lia.
  change (bind _ _) with (combinator_prog (fun op => MkAnyContext op false (Z.of_nat (length fs)))
    (fun ctx out => Any_loop ctx fs 0 (length fs) ;; Ret out)%prog).
  apply combinator_spec; try done; [|intros; split; [done|by left]].
  intros op out c w ctx s1 Hpr. pose proof Hpr as [].
  assert (Hdone : forall g, done_future g s -> done_future g s1 /\ heap s1 !! g = heap s !! g /\
    g ∉ ou_cells op out (new_future c w) [] [] /\ g ∉ [op; out; c; w; ctx]).
  { intros g (x & Hg0 & Hx & Hrd). assert (Hg : g ∉ [op; out; c; w; ctx]) by (intros Hg%pr_fresh0; congruence).
    split_and!; [exists x; by rewrite pr_rest0|by apply pr_rest0| |done].
    apply (prepared_cells _ _ _ _ _ _ _ _ g Hpr) in Hg. by apply not_elem_of_cons in Hg as []. }
  eapply wps_seq.
  { apply (Any_loop_spec ctx op out (new_future c w) fs fs Hc 0 None); try done.
    - intros p Hp. destruct (decide (p < next_ptr s1)%N) as [|Hge]; [done|]. exfalso.
      destruct pr_wf0 as [[_ Hfr] _ _ _]. specialize (Hfr p ltac:(lia)). destruct pr_output0 as [[_ Hop] Ho _ _ _].
      apply elem_of_cons in Hp as [->|Hp]; [congruence|]. destruct (open_allocated _ _ _ _ _ _ _ Ho Hp). congruence.
    - eapply Forall_impl; [exact Hin|]. intros g [->|Hg]; [by left|]. right. by destruct (Hdone g Hg) as (? & ? & ? & ?).
    - unfold any_after. rewrite bool_decide_eq_false_2 by lia. split; try done. by eapply prepared_apart. }
  simpl. intros _ s2 (Hf & regs & cs & Hsub & Hor & Hrep & Ht & Hfin & Hs). apply wps_ret. split; [congruence|]. right.
  assert (Hregs : forall g, g ∈ regs -> done_future g s).
  { intros g Hg. assert (Hgr : g ∈ non_null fs) by (by eapply elem_of_sublist).
    apply list_elem_of_filter in Hgr as [Hg0 Hgr]. rewrite Forall_forall in Hin. by destruct (Hin g Hgr). }
  exists regs, cs. split_and!; [done|auto|done|by rewrite Ht, pr_trace0|].
  destruct (any_unmoved None (heap s) (heap s1) regs NULL) as [Hwon _].
  { intros g Hg. by destruct (Hdone g (Hregs g Hg)) as (_ & ? & _). }
  rewrite Hwon in Hfin. destruct Hfin as [Hctx Hrv].
  eapply prepared_delivered; [exact Hpr|exact Hrv|done| |].
  - intros p Hp. destruct regs as [|g regs]; [by apply pr_fresh0|]. destruct (Hregs g) as (x & _ & Hx & _); [by left|].
    simpl. rewrite Hx. rewrite lookup_insert_ne; [by apply pr_fresh0|]. intros <-. rewrite pr_fresh0 in Hx; done.
  - intros p Hp. rewrite Hs by (by apply (prepared_cells _ _ _ _ _ _ _ _ _ Hpr)).
    apply (any_unmoved None); [|by apply pr_rest0]. intros g Hg. by destruct (Hdone g (Hregs g Hg)) as (_ & ? & _).
Qed.

(** ** zip *)
Definition zip_result (g : ptr) (fv : option free_fn) (r1 r2 : UfsrvFutureResult) : UfsrvFutureResult :=
  if bool_decide (res_error r1 <> 0)%Z then error_result (res_error r1)
  else if bool_decide (res_error r2 <> 0)%Z then error_result (res_error r2)
  else if is_null g then error_result (-1) else MkResult 0 g fv.
Definition zip_calls (z : N) (u : ptr) (r1 r2 : UfsrvFutureResult) : list code :=
  if bool_decide (res_error r1 <> 0)%Z || bool_decide (res_error r2 <> 0)%Z then []
  else [K_zip z (res_value r1) (res_value r2) u].

Definition fewer (x : UfsrvFuture) : UfsrvFuture := set_fut_refcount (fut_refcount x - 1) x.

Lemma release_shared_at f x s :
  f <> NULL -> heap s !! f = Some (OFuture x) -> (2 <= fut_refcount x <= 2 ^ 31 - 1)%Z ->
  WP (UfsrvFutureRelease f) (fun _ s' => s' = store_cell f (fewer x) s) s.
Proof.
  intros Hf0 Hf Hr. eapply wp_mono; [apply (Release_shared _ f x); [done|done|lia]|]. simpl. intros _ s' ->.
  rewrite wrap_i32_id by (unfold int_range; lia). unfold fewer.
  by replace (fut_refcount x + -1)%Z with (fut_refcount x - 1)%Z by lia.
Qed.

Lemma zip_complete_spec ctx op out y K W z u a b xa xb r1 r2 n fv g s :
  output op out y K W s -> ctx <> NULL ->
  heap s !! ctx = Some (OZipContext (MkZipContext op z u a b r1 r2 n fv)) -> ctx ∉ ou_cells op out y K W ->
  a <> NULL -> b <> NULL -> a <> b ->
  heap s !! a = Some (OFuture xa) -> heap s !! b = Some (OFuture xb) ->
  a ∉ ou_cells op out y K W -> b ∉ ou_cells op out y K W ->
  (2 <= fut_refcount xa <= 2 ^ 31 - 1)%Z -> (2 <= fut_refcount xb <= 2 ^ 31 - 1)%Z ->
  (res_error r1 = 0%Z -> res_error r2 = 0%Z -> answers client (K_zip z (res_value r1) (res_value r2) u) g) ->
  WP (sZipComplete ctx)
    (fun _ s' => heap s' !! ctx = None /\ received op out y K W (zip_result g fv r1 r2) s' /\
       heap s' !! a = Some (OFuture (fewer xa)) /\ heap s' !! b = Some (OFuture (fewer xb)) /\
       only_changed (ctx :: a :: b :: ou_cells op out y K W) (sl_fds W) s s' /\
       trace s' = trace s ++ zip_calls z u r1 r2 ++ (pd_call out <$> K)) s.
Proof.
  intros Hou Hc0 Hc Hco Ha0 Hb0 Hab Ha Hb Hao Hbo Hra Hrb Hg.
  assert (Hca : ctx <> a /\ ctx <> b) by (split; congruence). destruct Hca as [Hca Hcb].
  assert (Hne : forall p, p ∈ ou_cells op out y K W -> p <> ctx /\ p <> a /\ p <> b) by (intros p Hp; split_and!; intros ->; done).
  unfold sZipComplete. wp_steps.
  eapply (wps_seq _ _ _ _ (fun _ s1 => received op out y K W (zip_result g fv r1 r2) s1 /\
    only_changed (ou_cells op out y K W) (sl_fds W) s s1 /\
    trace s1 = trace s ++ zip_calls z u r1 r2 ++ (pd_call out <$> K))).
  - unfold zip_result, zip_calls. case_bool_decide as He1; simpl.
    { rewrite settle_error_is. by eapply settle_spec. }
    case_bool_decide as He2; simpl.
    { rewrite settle_error_is. by eapply settle_spec. }
    wp_steps. eapply wps_call_then; [apply Hg; lia|]. simpl. intros v s1 (-> & Hh1 & Hf1 & Ht1).
    assert (Hou1 : output op out y K W s1) by (eapply output_frame; [| |exact Hou]; intros; by rewrite ?Hh1, ?Hf1).
    assert (Hend : forall r', WP (settle op r') (fun _ s2 => received op out y K W r' s2 /\
       only_changed (ou_cells op out y K W) (sl_fds W) s s2 /\
       trace s2 = trace s ++ [K_zip z (res_value r1) (res_value r2) u] ++ (pd_call out <$> K)) s1).
    { intros r'. eapply wp_mono; [by eapply settle_spec|]. simpl. intros _ s2 (? & [Hh2 Hf2] & Ht2). split_and!; [done| |].
      - split; intros; rewrite ?Hh2, ?Hf2 by done; by rewrite ?Hh1, ?Hf1.
      - rewrite Ht2, Ht1. unfold log. simpl. by rewrite <- app_assoc. }
    destruct (is_null g).
    + rewrite bind_ret_r, settle_error_is. apply Hend.
    + assert (Hc1 : heap s1 !! ctx = Some (OZipContext (MkZipContext op z u a b r1 r2 n fv))) by by rewrite Hh1.
      wp_steps. rewrite bind_ret_r. apply (Hend (MkResult 0 g fv)).
  - simpl. intros _ s1 (Hrv & [Hh1 Hf1] & Ht1).
    assert (Hc1 : heap s1 !! ctx = Some (OZipContext (MkZipContext op z u a b r1 r2 n fv))) by by rewrite Hh1.
    wp_steps. set (s2 := with_heap _ s1).
    assert (Hs2 : forall p, p <> ctx -> heap s2 !! p = heap s1 !! p) by (intros; simpl; by apply lookup_delete_ne).
    eapply wps_seq; [eapply (release_shared_at a xa); [done|rewrite Hs2, Hh1 by done; exact Ha|done]|]. simpl. intros _ s3 ->.
    eapply wp_mono; [eapply (release_shared_at b xb); [done| |done]|].
    { simpl. rewrite lookup_insert_ne by done. rewrite lookup_delete_ne by done. rewrite Hh1; done. }
    simpl. intros _ s4 ->. simpl. split_and!; try done; simpl.
    + rewrite !lookup_insert_ne by done. apply lookup_delete_eq.
    + eapply (received_frame _ _ _ _ _ _ s1); [|done|exact Hrv]. intros p Hp. destruct (Hne p Hp) as (? & ? & ?).
      simpl. rewrite !lookup_insert_ne by done. by apply lookup_delete_ne.
    + rewrite lookup_insert_ne by done. apply lookup_insert_eq.
    + apply lookup_insert_eq.
    + split; [|done]. intros p Hp. rewrite !not_elem_of_cons in Hp. destruct Hp as (? & ? & ? & ?). simpl.
      rewrite !lookup_insert_ne by done. rewrite lookup_delete_ne by done. by apply Hh1.
Qed.

Lemma Retain_in_range f x s :
  f <> NULL -> heap s !! f = Some (OFuture x) -> (0 <= fut_refcount x < 2 ^ 31 - 1)%Z ->
  WP (UfsrvFutureRetain f) (fun _ s' => s' = store_cell f (set_fut_refcount (fut_refcount x + 1) x) s) s.
Proof.
  intros Hf0 Hf Hr. eapply wp_mono; [by eapply Retain_spec|]. simpl. intros _ s' ->.
  by rewrite wrap_i32_id by (unfold int_range; lia).
Qed.

Lemma zip_first_spec f x ctx op z u a b fv s :
  heap s !! f = Some (OFuture x) ->
  heap s !! ctx = Some (OZipContext (MkZipContext op z u a b zero_result zero_result 2 fv)) ->
  WP (sZipFirstContinuation f ctx)
    (fun _ s' => heap s' = <[ctx := OZipContext (MkZipContext op z u a b (fut_result x) zero_result 1 fv)]> (heap s) /\
       fds s' = fds s /\ trace s' = trace s) s.
Proof.
  intros Hf Hc. unfold sZipFirstContinuation. wp_steps. simpl. wp_steps.
  split_and!; try done. simpl. by rewrite insert_insert_eq.
Qed.

Lemma zip_second_spec f x ctx op out y K W z u a b xa xb r1 fv g s :
  heap s !! f = Some (OFuture x) -> output op out y K W s -> ctx <> NULL ->
  heap s !! ctx = Some (OZipContext (MkZipContext op z u a b r1 zero_result 1 fv)) -> ctx ∉ ou_cells op out y K W ->
  a <> NULL -> b <> NULL -> a <> b ->
  heap s !! a = Some (OFuture xa) -> heap s !! b = Some (OFuture xb) ->
  a ∉ ou_cells op out y K W -> b ∉ ou_cells op out y K W ->
  (2 <= fut_refcount xa <= 2 ^ 31 - 1)%Z -> (2 <= fut_refcount xb <= 2 ^ 31 - 1)%Z ->
  (res_error r1 = 0%Z -> res_error (fut_result x) = 0%Z ->
     answers client (K_zip z (res_value r1) (res_value (fut_result x)) u) g) ->
  WP (sZipSecondContinuation f ctx)
    (fun _ s' => heap s' !! ctx = None /\ received op out y K W (zip_result g fv r1 (fut_result x)) s' /\
       heap s' !! a = Some (OFuture (fewer xa)) /\ heap s' !! b = Some (OFuture (fewer xb)) /\
       only_changed (ctx :: a :: b :: ou_cells op out y K W) (sl_fds W) s s' /\
       trace s' = trace s ++ zip_calls z u r1 (fut_result x) ++ (pd_call out <$> K)) s.
Proof.
  intros Hf Hou Hc0 Hc Hco Ha0 Hb0 Hab Ha Hb Hao Hbo Hra Hrb Hg.
  assert (Hca : ctx <> a /\ ctx <> b) by (split; congruence). destruct Hca as [Hca Hcb].
  unfold sZipSecondContinuation. wp_steps. simpl. set (s1 := store_cell _ _ _).
  assert (Hs1 : forall p, p <> ctx -> heap s1 !! p = heap s !! p) by (intros; simpl; lk).
  eapply wps_seq.
  { eapply (zip_complete_spec ctx op out y K W z u a b xa xb r1 (fut_result x) 0 fv g s1); try done.
    - eapply (output_frame _ _ _ _ _ _ s); [|done|exact Hou]. intros p Hp. apply Hs1. by intros ->.
    - simpl. apply lookup_insert_eq.
    - by rewrite Hs1.
    - by rewrite Hs1. }
  simpl. intros _ s2 (? & ? & ? & ? & [Hh Hf2] & ?). apply wps_ret. split_and!; try done.
  split; [|done]. intros p Hp. rewrite Hh by done. apply Hs1. by apply not_elem_of_cons in Hp as [].
Qed.

(** Both inputs report at once, when the continuations are registered. *)
Lemma zip_registers_both ctx op out y z u fv a b xa xb ra rb g s :
  output op out y [] [] s -> ctx <> NULL -> ctx ∉ ou_cells op out y [] [] ->
  heap s !! ctx = Some (OZipContext (MkZipContext op z u a b zero_result zero_result 2 fv)) ->
  a <> NULL -> b <> NULL -> a <> b -> a ∉ ou_cells op out y [] [] -> b ∉ ou_cells op out y [] [] ->
  heap s !! a = Some (OFuture xa) -> fut_state xa = READY -> fut_result xa = ra -> (2 <= fut_refcount xa <= 2 ^ 31 - 1)%Z ->
  heap s !! b = Some (OFuture xb) -> fut_state xb = READY -> fut_result xb = rb -> (2 <= fut_refcount xb <= 2 ^ 31 - 1)%Z ->
  (res_error ra = 0%Z -> res_error rb = 0%Z -> answers client (K_zip z (res_value ra) (res_value rb) u) g) ->
  WP (let! ok_a := UfsrvFutureThen a (Some CB_sZipFirstContinuation) ctx in
      if negb ok_a then Ret NULL
      else let! ok_b := UfsrvFutureThen b (Some CB_sZipSecondContinuation) ctx in
           if negb ok_b then Ret NULL else Ret out)%prog
    (fun o s' => o = out /\ fds s' = fds s /\ heap s' !! ctx = None /\ received op out y [] [] (zip_result g fv ra rb) s' /\
       heap s' !! a = Some (OFuture (fewer xa)) /\ heap s' !! b = Some (OFuture (fewer xb)) /\
       (forall p, p ∉ ctx :: a :: b :: ou_cells op out y [] [] -> heap s' !! p = heap s !! p) /\
       trace s' = trace s ++ K_future_cb CB_sZipFirstContinuation a ctx ::
         K_future_cb CB_sZipSecondContinuation b ctx :: zip_calls z u ra rb) s.
Proof.
  intros Hou Hc0 Hco Hc Ha0 Hb0 Hab Hao Hbo Ha Har <- Hra Hb Hbr <- Hrb Hg.
  eapply wps_seq.
  { eapply (Then_ready a (fut_result xa) CB_sZipFirstContinuation ctx); [done|by exists xa|].
    by apply (zip_first_spec a xa ctx op z u a b fv (log _ s)). }
  simpl. intros ok s3 (-> & Hh3 & Hf3 & Ht3). simpl. unfold log in Hh3. simpl in Hh3.
  assert (Hs3 : forall p, p <> ctx -> heap s3 !! p = heap s !! p) by (intros; rewrite Hh3; simpl; by apply lookup_insert_ne).
  assert (Hb3 : heap s3 !! b = Some (OFuture xb)) by (rewrite Hs3; [done|congruence]).
  eapply wps_seq.
  { eapply (Then_ready b (fut_result xb) CB_sZipSecondContinuation ctx); [done|by exists xb|].
    eapply (zip_second_spec b xb ctx op out y [] [] z u a b xa xb (fut_result xa) fv g); try done.
    - eapply (output_frame _ _ _ _ _ _ s); [|intros ? ?%elem_of_nil; done|exact Hou]. intros p Hp. apply Hs3. by intros ->.
    - simpl. rewrite Hh3. apply lookup_insert_eq.
    - simpl. rewrite Hs3; [done|congruence]. }
  simpl. intros ok s4 (-> & Hctx & Hrv & Ha4 & Hb4 & [Hh4 Hf4] & Ht4). apply wps_ret. split_and!; try done.
  - apply map_eq. intros fd. rewrite Hf4 by apply not_elem_of_nil. simpl. by rewrite Hf3.
  - intros p Hp. rewrite Hh4 by done. simpl. apply Hs3. by apply not_elem_of_cons in Hp as [? _].
  - rewrite Ht4. simpl. rewrite Ht3. simpl. by rewrite app_nil_r, <- !app_assoc.
Qed.

Lemma zip_of_complete_spec a b xa xb z u fv g s :
  client_guar client -> wf_machine s -> a <> NULL -> b <> NULL -> a <> b ->
  heap s !! a = Some (OFuture xa) -> fut_state xa = READY -> (1 <= fut_refcount xa < 2 ^ 31 - 1)%Z ->
  heap s !! b = Some (OFuture xb) -> fut_state xb = READY -> (1 <= fut_refcount xb < 2 ^ 31 - 1)%Z ->
  (res_error (fut_result xa) = 0%Z -> res_error (fut_result xb) = 0%Z ->
     answers client (K_zip z (res_value (fut_result xa)) (res_value (fut_result xb)) u) g) ->
  WP (UfsrvFutureZipEx a b (Some z) u fv)
    (fun out s' => fds s' = fds s /\
       ((out = NULL /\ oracle s <> [] /\ (forall p, heap s' !! p = heap s !! p) /\ trace s' = trace s) \/
        exists ctx, delivered (zip_result g fv (fut_result xa) (fut_result xb)) out (heap s) s' /\
          trace s' = trace s ++ K_future_cb CB_sZipFirstContinuation a ctx ::
            K_future_cb CB_sZipSecondContinuation b ctx :: zip_calls z u (fut_result xa) (fut_result xb))) s.
Proof.
  intros Hcl Hwf Ha0 Hb0 Hab Ha Har Hra Hb Hbr Hrb Hg. unfold UfsrvFutureZipEx, sFutureZip.
  rewrite (is_null_false a), (is_null_false b) by done. cbn [orb].
  change (bind (UfsrvPromiseCreate false) _) with
    (combinator_prog (fun op => MkZipContext op z u a b zero_result zero_result 2 fv)
      (fun ctx out => UfsrvFutureRetain a ;; UfsrvFutureRetain b ;;
        let! ok_a := UfsrvFutureThen a (Some CB_sZipFirstContinuation) ctx in
        if negb ok_a then Ret NULL
        else let! ok_b := UfsrvFutureThen b (Some CB_sZipSecondContinuation) ctx in
             if negb ok_b then Ret NULL else Ret out)%prog).
  apply combinator_spec; try done; [|intros; split; [done|by left]].
  intros op out c w ctx s1 Hpr. pose proof Hpr as [].
  assert (Hold : forall p o, heap s !! p = Some o -> heap s1 !! p = Some o /\ p <> ctx /\ p ∉ ou_cells op out (new_future c w) [] []).
  { intros p o Hp. assert (Hni : p ∉ [op; out; c; w; ctx]) by (intros Hin%pr_fresh0; congruence).
    split; [by rewrite pr_rest0|]. by apply (prepared_cells _ _ _ _ _ _ _ _ p Hpr), not_elem_of_cons in Hni. }
  destruct (Hold a _ Ha) as (Ha1 & Hac & Hao). destruct (Hold b _ Hb) as (Hb1 & Hbc & Hbo).
  eapply wps_seq; [apply (Retain_in_range a xa); [done|done|lia]|]. simpl. intros _ ? ->.
  eapply wps_seq; [apply (Retain_in_range b xb); [done|simpl; by rewrite lookup_insert_ne|lia]|]. simpl. intros _ ? ->.
  set (xa' := set_fut_refcount (fut_refcount xa + 1) xa). set (xb' := set_fut_refcount (fut_refcount xb + 1) xb).
  set (s2 := store_cell b xb' _). assert (Hs2 : forall p, p <> a -> p <> b -> heap s2 !! p = heap s1 !! p) by (intros; simpl; lk).
  eapply wp_mono; [apply (zip_registers_both ctx op out (new_future c w) z u fv a b xa' xb' (fut_result xa) (fut_result xb) g s2); try done|].
  - eapply (output_frame _ _ _ _ _ _ s1); [|intros ? ?%elem_of_nil; done|exact pr_output0]. intros p Hp. apply Hs2; by intros ->.
  - by apply (prepared_apart _ _ _ _ _ _ _ _ Hpr).
  - rewrite Hs2 by congruence. exact pr_ctx0.
  - simpl. rewrite lookup_insert_ne by done. apply lookup_insert_eq.
  - simpl. lia.
  - apply lookup_insert_eq.
  - simpl. lia.
  - cbn beta. intros o s4 (-> & Hf4 & Hctx & Hrv & Ha4 & Hb4 & Hh4 & Ht4). split; [by rewrite Hf4|]. right. exists ctx. split.
    + eapply prepared_delivered; [exact Hpr|exact Hrv|done|done|]. intros p Hp.
      assert (Hback : forall x, fewer (set_fut_refcount (fut_refcount x + 1) x) = x).
      { intros []. unfold fewer, set_fut_refcount. simpl. f_equal. lia. }
      destruct (decide (p = a)) as [->|]; [rewrite Ha4, Ha; unfold xa'; by rewrite Hback|].
      destruct (decide (p = b)) as [->|]; [rewrite Hb4, Hb; unfold xb'; by rewrite Hback|].
      apply (prepared_cells _ _ _ _ _ _ _ _ p Hpr) in Hp as Hp'. apply not_elem_of_cons in Hp' as [? ?].
      rewrite Hh4 by (by rewrite !not_elem_of_cons). rewrite Hs2 by done. by apply pr_rest0.
    + rewrite Ht4. simpl. by rewrite pr_trace0.
Qed.
End Joining.

(** C33.  [all] over inputs that are complete already, or NULL, returns a complete
    future: with the error of the first input that failed, a NULL input counting as
    EINVAL, or with a NULL value when none failed.  Nothing but that future remains
    of the operation.  It returns NULL only for want of memory, and then nothing
    has changed. *)
Theorem all_of_complete {E : Ext} {TS : TreiberSpec E} client fs rs s :
  client_guar client -> wf_machine s -> (Z.of_nat (length fs) <= 2 ^ 64 - 1)%Z -> Forall2 (complete_input s) fs rs ->
  wp (body client) log (UfsrvFutureAll (Some fs) (length fs))
    (fun out s' => fds s' = fds s /\
       ((out = NULL /\ oracle s <> [] /\ (forall p, heap s' !! p = heap s !! p) /\ trace s' = trace s) \/
        (delivered (all_result (fold_left all_step rs None)) out (heap s) s' /\
         exists cs, reports CB_sAllContinuation (non_null fs) cs /\ trace s' = trace s ++ cs))) s.
Proof. apply all_of_complete_spec. Qed.

(** C34.  [any] over inputs that are complete already, or NULL, returns a future complete
    with the result of the first of them, which is moved out of that input (EINVAL
    if it was moved before), whether a value or an error; the other inputs keep
    theirs.  Inputs for whose registration there is no memory are passed over, and
    EINVAL is the result when no input is left. *)
Theorem any_takes_first {E : Ext} {TS : TreiberSpec E} client fs s :
  client_guar client -> wf_machine s -> (0 < length fs) -> (Z.of_nat (length fs) <= 2 ^ 64 - 1)%Z ->
  Forall (fun f => f = NULL \/ done_future f s) fs ->
  wp (body client) log (UfsrvFutureAny (Some fs) (length fs))
    (fun out s' => fds s' = fds s /\
       ((out = NULL /\ oracle s <> [] /\ (forall p, heap s' !! p = heap s !! p) /\ trace s' = trace s) \/
        exists regs cs, regs `sublist_of` non_null fs /\ (oracle s = [] -> regs = non_null fs) /\
          reports CB_sAnyContinuation regs cs /\ trace s' = trace s ++ cs /\
          delivered (any_result (any_won None (heap s) regs)) out (any_moved None (heap s) regs) s')) s.
Proof. apply any_of_complete_spec. Qed.

(** C35.  [zip] of two complete futures returns a future complete with what the zipper makes
    of their values, or with the error of the first, or else of the second, or with
    [-1] if the zipper returns NULL.  The zipper is called only if both succeeded; it
    borrows the values, and the references held on the inputs are given back. *)
Theorem zip_of_complete {E : Ext} {TS : TreiberSpec E} client a b xa xb z u fv g s :
  client_guar client -> wf_machine s -> a <> NULL -> b <> NULL -> a <> b ->
  heap s !! a = Some (OFuture xa) -> fut_state xa = READY -> (1 <= fut_refcount xa < 2 ^ 31 - 1)%Z ->
  heap s !! b = Some (OFuture xb) -> fut_state xb = READY -> (1 <= fut_refcount xb < 2 ^ 31 - 1)%Z ->
  (res_error (fut_result xa) = 0%Z -> res_error (fut_result xb) = 0%Z ->
     answers client (K_zip z (res_value (fut_result xa)) (res_value (fut_result xb)) u) g) ->
  wp (body client) log (UfsrvFutureZipEx a b (Some z) u fv)
    (fun out s' => fds s' = fds s /\
       ((out = NULL /\ oracle s <> [] /\ (forall p, heap s' !! p = heap s !! p) /\ trace s' = trace s) \/
        exists ctx, delivered (zip_result g fv (fut_result xa) (fut_result xb)) out (heap s) s' /\
          trace s' = trace s ++ K_future_cb CB_sZipFirstContinuation a ctx ::
            K_future_cb CB_sZipSecondContinuation b ctx :: zip_calls z u (fut_result xa) (fut_result xb))) s.
Proof. apply zip_of_complete_spec. Qed.

(** ** Witnesses *)
#[local] Existing Instances RefExt.ext RefExt.treiber.

(** Two complete futures: a value, and a failure. *)
Definition complete_setup : cprog unit :=
  let! _ := UfsrvFutureFromValue 99%N None in
  let! _ := UfsrvFutureFromError 7 in
  let! _ := UfsrvFutureFromValue 98%N None in
  Ret tt.
Definition complete_st : st := after complete_setup boot.
Definition value_fut : ptr := 1%N.
Definition error_fut : ptr := 5%N.
Definition value_fut' : ptr := 9%N.
Definition complete_cell (r : UfsrvFutureResult) (c w : ptr) : UfsrvFuture := set_fut_refcount 1 (complete_with r (new_future c w)).

Lemma complete_wf : wf_machine complete_st.
Proof.
  apply after_wf; [|apply boot_wf]. unfold complete_setup.
  apply guar_bind; [apply (api_guar _ _ (api_from_value _ _))|intros _].
  apply guar_bind; [apply (api_guar _ _ (api_from_error _))|intros _].
  apply guar_bind; [apply (api_guar _ _ (api_from_value _ _))|intros; apply guar_ret].
Qed.

Lemma all_of_complete_witness :
  wp (body quiet_client) log (UfsrvFutureAll (Some [value_fut; NULL; error_fut]) 3)
    (fun out s' => fds s' = fds complete_st /\
       ((out = NULL /\ oracle complete_st <> [] /\ (forall p, heap s' !! p = heap complete_st !! p) /\ trace s' = trace complete_st) \/
        (delivered (all_result (fold_left all_step [MkResult 0 99%N None; error_result EINVAL; error_result 7] None)) out
           (heap complete_st) s' /\
         exists cs, reports CB_sAllContinuation (non_null [value_fut; NULL; error_fut]) cs /\
           trace s' = trace complete_st ++ cs))) complete_st.
Proof.
  apply (all_of_complete quiet_client [value_fut; NULL; error_fut]
    [MkResult 0 99%N None; error_result EINVAL; error_result 7] complete_st).
  - apply quiet_guar.
  - apply complete_wf.
  - simpl. lia.
  - constructor; [right; split; [done|]|constructor; [by left|constructor; [right; split; [done|]|constructor]]].
    + exists (complete_cell (MkResult 0 99%N None) 3%N 4%N). split_and!; vm_compute; reflexivity.
    + exists (complete_cell (error_result 7) 7%N 8%N). split_and!; vm_compute; reflexivity.
Defined.

Lemma any_takes_first_witness :
  wp (body quiet_client) log (UfsrvFutureAny (Some [NULL; value_fut; error_fut]) 3)
    (fun out s' => fds s' = fds complete_st /\
       ((out = NULL /\ oracle complete_st <> [] /\ (forall p, heap s' !! p = heap complete_st !! p) /\ trace s' = trace complete_st) \/
        exists regs cs, regs `sublist_of` non_null [NULL; value_fut; error_fut] /\
          (oracle complete_st = [] -> regs = non_null [NULL; value_fut; error_fut]) /\
          reports CB_sAnyContinuation regs cs /\ trace s' = trace complete_st ++ cs /\
          delivered (any_result (any_won None (heap complete_st) regs)) out (any_moved None (heap complete_st) regs) s')) complete_st.
Proof.
  apply (any_takes_first quiet_client [NULL; value_fut; error_fut] complete_st).
  - apply quiet_guar.
  - apply complete_wf.
  - simpl. lia.
  - simpl. lia.
  - constructor; [by left|constructor; [right|constructor; [right|constructor]]].
    + exists (complete_cell (MkResult 0 99%N None) 3%N 4%N). split_and!; [discriminate|vm_compute; reflexivity..].
    + exists (complete_cell (error_result 7) 7%N 8%N). split_and!; [discriminate|vm_compute; reflexivity..].
Defined.

(** The quiet client zips by adding. *)
Lemma zip_of_complete_witness :
  wp (body quiet_client) log (UfsrvFutureZipEx value_fut value_fut' (Some 5%N) 50%N None)
    (fun out s' => fds s' = fds complete_st /\
       ((out = NULL /\ oracle complete_st <> [] /\ (forall p, heap s' !! p = heap complete_st !! p) /\ trace s' = trace complete_st) \/
        exists ctx, delivered (zip_result 197%N None (MkResult 0 99%N None) (MkResult 0 98%N None)) out (heap complete_st) s' /\
          trace s' = trace complete_st ++ K_future_cb CB_sZipFirstContinuation value_fut ctx ::
            K_future_cb CB_sZipSecondContinuation value_fut' ctx ::
            zip_calls 5%N 50%N (MkResult 0 99%N None) (MkResult 0 98%N None))) complete_st.
Proof.
  apply (zip_of_complete quiet_client value_fut value_fut' (complete_cell (MkResult 0 99%N None) 3%N 4%N)
    (complete_cell (MkResult 0 98%N None) 11%N 12%N) 5%N 50%N None 197%N complete_st).
  - apply quiet_guar.
  - apply complete_wf.
  - discriminate.
  - discriminate.
  - discriminate.
  - vm_compute. reflexivity.
  - reflexivity.
  - simpl. lia.
  - vm_compute. reflexivity.
  - reflexivity.
  - simpl. lia.
  - intros _ _ s. by apply wps_ret.
Defined.
