(* ===== verification/JoinFacts.v ===== *)
(** * JoinFacts: combinators over inputs that are still pending

    The inputs of [all] and [any] report one after the other, in the order in which
    their promises are fulfilled.  What they share, a context and an output, goes from
    one abstract state to the next at each report; the section [Reports] carries the
    rest of a fulfilment, and the two combinators instantiate it. *)
From S2P Require Import Prelude Machine Uflib Model Cancellation Scheduler Coroutine Future Waiting.
From S2P Require Import Operators Combinators Dispatch Logic Guarantee CancellationFacts FutureFacts Demo OperatorFacts.
From S2P Require Import MovingFacts MovingPipeline CombinatorFacts.
Local Open Scope prog_scope.

(** An input on which a combinator waits, among continuations that observe, and the
    result its promise is given.  The combinator's continuation may own cells. *)
Record join_input := Join {
  ji_prm : ptr; ji_fut : ptr; ji_cell : UfsrvFuture;
  ji_before : list pending; ji_own : list ptr; ji_cont : pending; ji_after : list pending; ji_waits : list sleeper;
  ji_result : UfsrvFutureResult;
}.
Definition ji_conts (i : join_input) : list pending := ji_before i ++ ji_cont i :: ji_after i.
Definition ji_cells (i : join_input) : list ptr :=
  ji_own i ++ ji_prm i :: footprint (ji_fut i) (ji_cell i) (ji_conts i) (ji_waits i).
Definition ji_complete (i : join_input) : UfsrvFuture := complete_with (ji_result i) (ji_cell i).
Lemma ji_result_complete i : fut_result (ji_complete i) = ji_result i.
Proof. done. Qed.
(** The promises are fulfilled one after the other. *)
Fixpoint fulfil_all {E : Ext} (inputs : list join_input) : cprog unit :=
  match inputs with
  | [] => Ret tt
  | i :: inputs => UfsrvPromiseSetResult (ji_prm i) (ji_result i) ;; fulfil_all inputs
  end.

Definition apart (i j : join_input) : Prop :=
  (forall p, p ∈ ji_cells i -> p ∉ ji_cells j) /\ (forall fd, fd ∈ sl_fds (ji_waits i) -> fd ∉ sl_fds (ji_waits j)).
Definition all_cells (inputs : list join_input) : list ptr := inputs ≫= ji_cells.
Definition all_fds (inputs : list join_input) : list Z := inputs ≫= (fun i => sl_fds (ji_waits i)).
Lemma grow {A} (g : join_input -> list A) B x i l : x ∈ B ++ g i \/ x ∈ B ++ (l ≫= g) -> x ∈ B ++ ((i :: l) ≫= g).
Proof. rewrite bind_cons, !elem_of_app. tauto. Qed.

Section Reports.
Context {E : Ext} {TS : TreiberSpec E} (client : Client).
#[local] Abbreviation WP := (wp (body client) log).
#[local] Abbreviation quiet := (observes (body client)).

(** What the inputs share: [J a] holds of the cells [shared] and the eventfds [MF] when
    the abstract state is [a].  [own] says what the continuation of an input owns. *)
Context {A : Type} (shared : list ptr) (MF : list Z) (J : A -> st -> Prop) (live : A -> Prop)
  (own : join_input -> st -> Prop) (step : A -> join_input -> A) (leaves : A -> join_input -> UfsrvFuture)
  (calls : A -> join_input -> list code).

(** An input waiting for its promise; and one that has been served, its future left in
    the state [x']. *)
Record armed (i : join_input) (s : st) : Prop := {
  ar_promise : promise_at (heap s) (ji_prm i) (ji_fut i) false;
  ar_open : open_future (heap s) (fds s) (ji_fut i) (ji_cell i) (ji_conts i) (ji_waits i);
  ar_handle : fut_cancel_handle (ji_cell i) = NULL;
  ar_quiet k : k ∈ ji_before i ++ ji_after i -> quiet (pd_call (ji_fut i) k);
  ar_own : own i s;
  ar_apart p : p ∈ ji_own i -> p ∉ ji_prm i :: footprint (ji_fut i) (ji_cell i) (ji_conts i) (ji_waits i);
  ar_shared p : p ∈ ji_cells i -> p ∉ shared;
  ar_fds fd : fd ∈ sl_fds (ji_waits i) -> fd ∉ MF;
}.
Record fulfilled (x' : UfsrvFuture) (i : join_input) (s : st) : Prop := {
  ff_settled : settled_future (heap s) (ji_fut i) x';
  ff_promise : promise_at (heap s) (ji_prm i) (ji_fut i) true;
  ff_woken w : w ∈ ji_waits i -> awake (heap s) (fds s) w;
  ff_nodes p : p ∈ pd_nodes (ji_conts i) ++ ji_own i -> heap s !! p = None;
}.
(** The inputs have reported in this order, from the abstract state [a] on. *)
Fixpoint served (a : A) (inputs : list join_input) (s : st) : Prop :=
  match inputs with
  | [] => True
  | i :: inputs => fulfilled (leaves a i) i s /\ served (step a i) inputs s
  end.
Fixpoint join_calls (a : A) (inputs : list join_input) : list code :=
  match inputs with
  | [] => []
  | i :: inputs => ((pd_call (ji_fut i) <$> ji_before i) ++ pd_call (ji_fut i) (ji_cont i) :: calls a i ++
      (pd_call (ji_fut i) <$> ji_after i)) ++ join_calls (step a i) inputs
  end.

(** What a report does. *)
Definition reports_well : Prop := forall a i s, live a -> J a s -> own i s ->
  heap s !! ji_fut i = Some (OFuture (ji_complete i)) -> (forall p, p ∈ ji_fut i :: ji_own i -> p ∉ shared) ->
  ji_fut i ∉ ji_own i ->
  WP (body client (pd_call (ji_fut i) (ji_cont i)))
    (fun _ s' => heap s' !! ji_fut i = Some (OFuture (leaves a i)) /\ (forall p, p ∈ ji_own i -> heap s' !! p = None) /\
       J (step a i) s' /\ only_changed (ji_own i ++ ji_fut i :: shared) MF s s' /\ trace s' = trace s ++ calls a i) s.

Context (J_frame : forall a s s', (forall p, p ∈ shared -> heap s' !! p = heap s !! p) ->
    (forall fd, fd ∈ MF -> fds s' !! fd = fds s !! fd) -> J a s -> J a s')
  (own_frame : forall i s s', (forall p, p ∈ ji_own i -> heap s' !! p = heap s !! p) -> own i s -> own i s')
  (leaves_same : forall a i, same_phase (ji_complete i) (leaves a i)).

Lemma armed_frame i s s' :
  (forall p, p ∈ ji_cells i -> heap s' !! p = heap s !! p) ->
  (forall fd, fd ∈ sl_fds (ji_waits i) -> fds s' !! fd = fds s !! fd) -> armed i s -> armed i s'.
Proof.
  intros Hh Hf []. unfold ji_cells in Hh. split; try done.
  - destruct ar_promise0. split; [done|]. rewrite Hh; [done|]. apply elem_of_app. right. by left.
  - eapply open_frame; [|done|exact ar_open0]. intros p Hp. apply Hh, elem_of_app. right. by right.
  - eapply own_frame; [|done]. intros p Hp. apply Hh, elem_of_app. by left.
Qed.
Lemma fulfilled_frame x' i s s' :
  same_phase (ji_complete i) x' ->
  (forall p, p ∈ ji_cells i -> heap s' !! p = heap s !! p) ->
  (forall fd, fd ∈ sl_fds (ji_waits i) -> fds s' !! fd = fds s !! fd) -> fulfilled x' i s -> fulfilled x' i s'.
Proof.
  intros (_ & _ & Hck & Hcw) Hh Hf []. unfold ji_cells in Hh.
  assert (Hfoot : forall p, p ∈ footprint (ji_fut i) (ji_cell i) (ji_conts i) (ji_waits i) -> heap s' !! p = heap s !! p)
    by (intros p Hp; apply Hh, elem_of_app; right; by right).
  split.
  - eapply settled_frame; [|done]. intros p Hp. apply Hfoot. rewrite Hck, Hcw in Hp. unfold footprint. simpl in Hp. set_solver +Hp.
  - destruct ff_promise0. split; [done|]. rewrite Hh; [done|]. apply elem_of_app. right. by left.
  - intros w Hw. eapply awake_frame; [| |by apply ff_woken0].
    + by apply Hfoot, footprint_wait.
    + apply Hf. by apply (list_elem_of_fmap_2 sl_fd).
  - intros p Hp. rewrite <- (ff_nodes0 p Hp). apply elem_of_app in Hp as [Hp|Hp]; [|apply Hh, elem_of_app; by left].
    apply list_elem_of_fmap in Hp as (k & -> & Hk). by apply Hfoot, footprint_cont.
Qed.

Lemma J_stable a X Zs :
  (forall p, p ∈ X -> p ∉ shared) -> (forall fd, fd ∈ Zs -> fd ∉ MF) -> stable X Zs (J a).
Proof.
  intros HX HZ s s' Hh Hf. apply J_frame; [intros p Hp; apply Hh|intros fd Hp; apply Hf]; intros Hin.
  - by apply (HX p).
  - by apply (HZ fd).
Qed.

Lemma fulfil_one a i s :
  reports_well -> live a -> J a s -> armed i s ->
  WP (UfsrvPromiseSetResult (ji_prm i) (ji_result i))
    (fun _ s' => J (step a i) s' /\ fulfilled (leaves a i) i s' /\
       only_changed (shared ++ ji_cells i) (MF ++ sl_fds (ji_waits i)) s s' /\
       trace s' = trace s ++ (pd_call (ji_fut i) <$> ji_before i) ++ pd_call (ji_fut i) (ji_cont i) :: calls a i ++
         (pd_call (ji_fut i) <$> ji_after i)) s.
Proof.
  intros Hrep Hl Ha []. pose proof (open_apart _ _ _ _ _ _ ar_open0) as (Hfq & _).
  set (foot := ji_prm i :: footprint (ji_fut i) (ji_cell i) (ji_conts i) (ji_waits i)) in *.
  assert (Hqc : forall p, p ∈ queue_cells (ji_cell i) (ji_conts i) (ji_waits i) -> p ∈ foot) by (intros; by do 2 right).
  assert (Hff : ji_fut i ∈ foot) by (right; by left).
  assert (Hsh : forall p, p ∈ foot -> p ∉ shared) by (intros p Hp; apply ar_shared0, elem_of_app; by right).
  assert (Hpf : ji_prm i <> ji_fut i).
  { intros Heq. destruct ar_promise0 as [_ Hp]. pose proof (of_fut _ _ _ _ _ _ ar_open0). congruence. }
  eapply wp_mono.
  { eapply (SetResult_moves client (ji_fut i) (ji_prm i) (ji_result i) (ji_cell i) (ji_before i) (ji_cont i) (ji_after i) (ji_waits i)
      (ji_own i ++ ji_fut i :: shared) MF (calls a i)
      (fun s1 => heap s1 !! ji_fut i = Some (OFuture (ji_complete i)) /\ J a s1 /\ own i s1)
      (fun s1 => heap s1 !! ji_fut i = Some (OFuture (leaves a i)) /\ J (step a i) s1 /\ forall p, p ∈ ji_own i -> heap s1 !! p = None)); try done.
    - intros p Hp. assert (Hpp : p ∈ foot) by (apply elem_of_cons in Hp as [->|Hp]; [by left|by apply Hqc]).
      rewrite not_elem_of_app, not_elem_of_cons. split_and!; [intros Ho; by apply (ar_apart0 p Ho)| |by apply Hsh].
      intros ->. by apply elem_of_cons in Hp as [|].
    - assert (HJ : forall a, stable (queue_cells (ji_cell i) (ji_conts i) (ji_waits i)) (sl_fds (ji_waits i)) (J a)).
      { intros b. apply J_stable; [|done]. intros p Hp. by apply Hsh, Hqc. }
      intros P [-> | ->]; (apply and_stable; [by apply cell_stable|apply and_stable; [apply HJ|]]).
      + intros s1 s2 Hh _. apply own_frame. intros p Hp. apply Hh. intros Hx. by apply (ar_apart0 p Hp), Hqc.
      + intros s1 s2 Hh _ Hn p Hp. rewrite Hh; [by apply Hn|]. intros Hx. by apply (ar_apart0 p Hp), Hqc.
    - intros s1 (Hf1 & HJ1 & Ho1). eapply wp_mono; [apply (Hrep a i s1); try done|simpl; naive_solver].
      + intros p Hp. apply ar_shared0, elem_of_app. apply elem_of_cons in Hp as [->|Hp]; [by right|by left].
      + intros Hx. by apply (ar_apart0 _ Hx).
    - intros s1 Hf1 Hs1 Hfd1. split_and!; [done| |].
      + eapply J_frame; [|by intros; rewrite Hfd1|exact Ha]. intros p Hp. apply Hs1; intros ->; by apply (Hsh _) in Hp; [|by (left || right; left)].
      + eapply own_frame; [|exact ar_own0]. intros p Hp. apply Hs1; intros ->; apply (ar_apart0 _ Hp); [done|by left]. }
  simpl. intros _ s' (Hcl & Hp' & Hw & Hn & (Hf' & HJ' & Hown) & [Hoc Hof] & Ht). destruct (leaves_same a i) as (Hsc & Hss & Hsk & Hsw).
  split_and!; [done| | |done].
  - split; [|done|done|].
    + eapply settled_closed; [exact Hcl|apply ar_open0|exact Hf'|by rewrite Hsc|by rewrite Hss|exact Hsk|exact Hsw].
    + intros p [Hp|Hp]%elem_of_app; [by apply Hn|by apply Hown].
  - split; [intros p Hp; apply Hoc|intros fd Hp; apply Hof]; [|by rewrite not_elem_of_app in *].
    intros Hin. apply Hp. unfold ji_cells. rewrite !elem_of_app in *. rewrite elem_of_cons in Hin.
    destruct Hin as [[?|[->|?]]|?]; auto.
Qed.

(** A report is due at each turn. *)
Fixpoint lives (a : A) (inputs : list join_input) : Prop :=
  match inputs with [] => True | i :: inputs => live a /\ lives (step a i) inputs end.

Lemma served_frame a inputs : forall s s',
  (forall p, p ∈ all_cells inputs -> heap s' !! p = heap s !! p) ->
  (forall fd, fd ∈ all_fds inputs -> fds s' !! fd = fds s !! fd) -> served a inputs s -> served a inputs s'.
Proof.
  revert a. induction inputs as [|i inputs IH]; intros a s s' Hh Hf; [done|]. unfold all_cells, all_fds in *.
  intros [Hi Hl]. split.
  - eapply (fulfilled_frame _ i s); [apply leaves_same|..|exact Hi]; intros; [apply Hh|apply Hf]; rewrite bind_cons; apply elem_of_app; by left.
  - eapply IH; [..|exact Hl]; intros; [apply Hh|apply Hf]; rewrite bind_cons; apply elem_of_app; by right.
Qed.

Lemma fulfil_all_spec inputs : reports_well -> forall a s,
  lives a inputs -> J a s -> Forall (fun i => armed i s) inputs -> ForallOrdPairs apart inputs ->
  WP (fulfil_all inputs)
    (fun _ s' => J (fold_left step inputs a) s' /\ served a inputs s' /\
       only_changed (shared ++ all_cells inputs) (MF ++ all_fds inputs) s s' /\
       trace s' = trace s ++ join_calls a inputs) s.
Proof.
  intros Hrep. induction inputs as [|i inputs IH]; intros a s Hl Ha Har Hap; cbn [fulfil_all].
  { apply wps_ret. split_and!; [done..|by apply only_changed_same|by rewrite app_nil_r]. }
  destruct Hl as [Hl Hls]. apply Forall_cons in Har as [Hi Har]. inversion Hap as [|? ? Hapi Hap']; subst.
  eapply wps_seq; [by apply (fulfil_one a i)|]. cbn beta. intros _ s1 (Ha1 & Hff & [Hoc Hof] & Ht1).
  rewrite Forall_forall in Har, Hapi.
  assert (Har1 : Forall (fun j => armed j s1) inputs).
  { apply Forall_forall. intros j Hj. pose proof (Har j Hj) as Hj'. destruct (Hapi j Hj) as [Hx Hz]. eapply armed_frame; [| |exact Hj'].
    - intros p Hp. apply Hoc, not_elem_of_app. split; [by apply (ar_shared _ _ Hj')|]. intros Hin. by apply (Hx p Hin).
    - intros fd Hfd. apply Hof, not_elem_of_app. split; [by apply (ar_fds _ _ Hj')|]. intros Hin. by apply (Hz fd Hin). }
  eapply wp_mono; [by apply (IH (step a i) s1)|]. cbn beta. intros _ s2 (Ha2 & Hff2 & [Hoc2 Hof2] & Ht2). split_and!.
  - done.
  - split; [|done]. eapply fulfilled_frame; [apply leaves_same| |..|exact Hff].
    + intros p Hp. apply Hoc2, not_elem_of_app. split; [by apply (ar_shared _ _ Hi)|].
      intros (j & Hin & Hj)%list_elem_of_bind. by destruct (Hapi j Hj) as [Hx _]; apply (Hx p).
    + intros fd Hfd. apply Hof2, not_elem_of_app. split; [by apply (ar_fds _ _ Hi)|].
      intros (j & Hin & Hj)%list_elem_of_bind. by destruct (Hapi j Hj) as [_ Hz]; apply (Hz fd).
  - split; [intros p Hp; rewrite Hoc2, Hoc|intros fd Hp; rewrite Hof2, Hof]; try done; intros Hin; apply Hp, grow; auto.
  - simpl. by rewrite Ht2, Ht1, <- app_assoc.
Qed.
End Reports.

(** ** all *)
Section All.
Context {E : Ext} {TS : TreiberSpec E} (client : Client).
Context (ctx op out : ptr) (y : UfsrvFuture) (K : list pending) (W : list sleeper).
#[local] Abbreviation shared := (ctx :: ou_cells op out y K W).

(** The reports still to come, and the error the output was failed with. *)
Definition all_holds (a : Z * option Z) (s : st) : Prop := all_after client ctx op out y K W a.1 a.2 s.
Definition all_due (a : Z * option Z) : Prop := counts a.1.
Definition all_owns (i : join_input) (_ : st) : Prop :=
  ji_own i = [] /\ pd_fn (ji_cont i) = CB_sAllContinuation /\ pd_ctx (ji_cont i) = ctx.
Definition all_reported (a : Z * option Z) (i : join_input) : (Z * option Z) := ((a.1 - 1)%Z, all_step a.2 (ji_result i)).
Definition all_leaves (_ : Z * option Z) (i : join_input) : UfsrvFuture := ji_complete i.
Definition all_calls_out (a : Z * option Z) (i : join_input) : list code :=
  if all_settles a.1 a.2 (ji_result i) then pd_call out <$> K else [].

Lemma all_holds_frame a s s' :
  (forall p, p ∈ shared -> heap s' !! p = heap s !! p) -> (forall fd, fd ∈ sl_fds W -> fds s' !! fd = fds s !! fd) ->
  all_holds a s -> all_holds a s'.
Proof.
  intros Hh Hf. unfold all_holds, all_after. case_bool_decide; [|by apply all_at_frame].
  intros [Hc Hr]. split; [by rewrite Hh by (by left)|]. eapply received_frame; [|exact Hf|exact Hr]. intros p Hp. apply Hh. by right.
Qed.

Lemma all_reports_well :
  reports_well client shared (sl_fds W) all_holds all_due all_owns all_reported all_leaves all_calls_out.
Proof.
  intros [n failure] i s Hn Ha (Ho & Hcb & Hcx) Hf Hsh _. unfold all_holds in *. simpl in *. rewrite Ho in *. destruct (ji_cont i) as [nd cb cx]. simpl in *. subst cb cx.
  eapply wp_mono; [apply (all_cont_spec client _ (ji_result i)); [exact Hn|by eexists|by apply all_after_live]|].
  simpl. intros _ s' (Ha' & [Hh Hfd] & Ht). split_and!; try done.
  - rewrite Hh; [done|]. apply Hsh. by left.
  - by intros p ?%elem_of_nil.
  - split; [|done]. intros p Hp. apply Hh. by apply not_elem_of_cons in Hp as [_ ?].
Qed.
End All.

(** ** any *)
Section Any.
Context {E : Ext} {TS : TreiberSpec E} (client : Client).
Context (ctx op out : ptr) (y : UfsrvFuture) (K : list pending) (W : list sleeper).
#[local] Abbreviation shared := (ctx :: ou_cells op out y K W).

(** The reports still to come, and what the output was settled with. *)
Definition any_holds (a : Z * option UfsrvFutureResult) (s : st) : Prop := any_after client ctx op out y K W a.1 a.2 s.
Definition any_due (a : Z * option UfsrvFutureResult) : Prop := counts a.1.
(** The continuation owns its registration. *)
Definition any_owns (i : join_input) (s : st) : Prop :=
  pd_fn (ji_cont i) = CB_sAnyContinuation /\ ji_own i = [pd_ctx (ji_cont i)] /\ pd_ctx (ji_cont i) <> NULL /\
  heap s !! pd_ctx (ji_cont i) = Some (OAnyRegistration (MkAnyRegistration ctx (ji_fut i))).
Definition any_reported_one (a : Z * option UfsrvFutureResult) (i : join_input) : (Z * option UfsrvFutureResult) :=
  ((a.1 - 1)%Z, any_step a.2 (moved_result (ji_complete i))).
(** The first one is moved from. *)
Definition any_leaves (a : Z * option UfsrvFutureResult) (i : join_input) : UfsrvFuture := any_input a.2 (ji_complete i).
Definition any_calls_out (a : Z * option UfsrvFutureResult) (_ : join_input) : list code := if has_won a.2 then [] else pd_call out <$> K.

Lemma any_holds_frame a s s' :
  (forall p, p ∈ shared -> heap s' !! p = heap s !! p) -> (forall fd, fd ∈ sl_fds W -> fds s' !! fd = fds s !! fd) ->
  any_holds a s -> any_holds a s'.
Proof.
  intros Hh Hf. unfold any_holds, any_after. case_bool_decide; [|by apply any_at_frame].
  intros [Hc Hr]. split; [by rewrite Hh by (by left)|]. eapply received_frame; [|exact Hf|exact Hr]. intros p Hp. apply Hh. by right.
Qed.
Lemma any_owns_frame i s s' :
  (forall p, p ∈ ji_own i -> heap s' !! p = heap s !! p) -> any_owns i s -> any_owns i s'.
Proof. intros Hh (Hcb & Ho & Hr & Hreg). split_and!; try done. rewrite Hh; [done|]. rewrite Ho. by left. Qed.
Lemma any_leaves_same a i : same_phase (ji_complete i) (any_leaves a i).
Proof. unfold any_leaves, any_input. destruct (has_won a.2); [done|apply same_moved]. Qed.

Lemma any_reports_well :
  reports_well client shared (sl_fds W) any_holds any_due any_owns any_reported_one any_leaves any_calls_out.
Proof.
  intros [n won] i s Hn Ha (Hcb & Ho & Hr0 & Hreg) Hf Hsh Hni. unfold any_holds, any_leaves, any_calls_out in *. simpl in *. rewrite Ho in *.
  destruct (ji_cont i) as [nd cb reg]. simpl in *. subst cb.
  assert (Hat : any_at client ctx op out y K W n won s) by (unfold any_after in Ha; rewrite bool_decide_eq_false_2 in Ha by (unfold any_due, counts in Hn; simpl in Hn; lia); done).
  assert (Hfs : ji_fut i ∉ shared /\ reg ∉ shared) by (split; apply Hsh; set_solver +). destruct Hfs as [Hfs Hrs].
  eapply wp_mono; [eapply (any_cont_spec client (ji_fut i) (ji_complete i) reg ctx op out y K W n won); try done;
    [by apply not_elem_of_cons in Hfs as []|by apply not_elem_of_cons in Hrs as []]|].
  simpl. intros _ s' (Ha' & Hreg' & Hf' & Hoc & Ht). split_and!; try done. by intros p ->%list_elem_of_singleton.
Qed.
End Any.

(** ** zip *)
Section Zip.
Context {E : Ext} {TS : TreiberSpec E} (client : Client).
#[local] Abbreviation WP := (wp (body client) log).
Context (ctx op out : ptr) (y : UfsrvFuture) (K : list pending) (W : list sleeper) (z : N) (u : ptr) (fv : option free_fn).
#[local] Abbreviation shared := (ctx :: ou_cells op out y K W).

(** Of the two inputs, [i] reports first and [j] second; [left] tells whether [i] is the
    first argument of [zip]. *)
Context (left : bool) (i j : join_input).
Definition swap {B} (p q : B) : B * B := if left then (p, q) else (q, p).
Definition zip_slots (ri rj : UfsrvFutureResult) (n : Z) : UfsrvZipContext :=
  let f := swap (ji_fut i) (ji_fut j) in let r := swap ri rj in MkZipContext op z u f.1 f.2 r.1 r.2 n fv.
Definition zip_cbs : fut_cb * fut_cb := if left then (CB_sZipFirstContinuation, CB_sZipSecondContinuation)
  else (CB_sZipSecondContinuation, CB_sZipFirstContinuation).

(** What they share until the second report: [a] is what the first one left. *)
Definition zip_holds (a : option UfsrvFutureResult) (s : st) : Prop :=
  ctx <> NULL /\ ctx ∉ ou_cells op out y K W /\ output client op out y K W s /\
  heap s !! ctx = Some (OZipContext match a with None => zip_slots zero_result zero_result 2 | Some r => zip_slots r zero_result 1 end).
Definition zip_owns (which : join_input) (cb : fut_cb) (i' : join_input) (_ : st) : Prop :=
  i' = which /\ ji_own i' = [] /\ pd_fn (ji_cont i') = cb /\ pd_ctx (ji_cont i') = ctx.
Definition zip_armed (which : join_input) (cb : fut_cb) : st -> Prop := armed client shared (sl_fds W) (zip_owns which cb) which.

Lemma zip_holds_frame a s s' :
  (forall p, p ∈ shared -> heap s' !! p = heap s !! p) -> (forall fd, fd ∈ sl_fds W -> fds s' !! fd = fds s !! fd) ->
  zip_holds a s -> zip_holds a s'.
Proof.
  intros Hh Hf (? & ? & Ho & Hc). split_and!; [done..| |by rewrite Hh by (by left)].
  eapply output_frame; [|exact Hf|exact Ho]. intros p Hp. apply Hh. by right.
Qed.

(** The first report is noted. *)
Lemma zip_note s :
  pd_fn (ji_cont i) = zip_cbs.1 -> pd_ctx (ji_cont i) = ctx -> ji_fut i ∉ shared -> zip_holds None s ->
  heap s !! ji_fut i = Some (OFuture (ji_complete i)) ->
  WP (body client (pd_call (ji_fut i) (ji_cont i)))
    (fun _ s' => heap s' !! ji_fut i = Some (OFuture (ji_complete i)) /\ zip_holds (Some (ji_result i)) s' /\
       only_changed [ctx] [] s s' /\ trace s' = trace s) s.
Proof.
  intros Hcb Hcx [Hfc Hfo]%not_elem_of_cons (Hc0 & Hco & Ho & Hc) Hf. destruct (ji_cont i) as [nd cb cx]. simpl in *. subst cx.
  assert (Hne : forall p, p ∈ ou_cells op out y K W -> p <> ctx) by (intros p Hp ->; done).
  assert (Hend : forall s', heap s' = <[ctx := OZipContext (zip_slots (ji_result i) zero_result 1)]> (heap s) -> fds s' = fds s ->
    trace s' = trace s -> heap s' !! ji_fut i = Some (OFuture (ji_complete i)) /\ zip_holds (Some (ji_result i)) s' /\
       only_changed [ctx] [] s s' /\ trace s' = trace s).
  { intros s' Hh Hfd Ht. split_and!; [rewrite Hh; lk| |split; [|by intros; rewrite Hfd]|done].
    - split_and!; try done; [|rewrite Hh; apply lookup_insert_eq]. eapply (output_frame _ _ _ _ _ _ s); [|by intros; rewrite Hfd|exact Ho].
      intros p Hp. rewrite Hh. apply lookup_insert_ne. by apply not_eq_sym, Hne.
    - intros p Hp%not_elem_of_cons. rewrite Hh. apply lookup_insert_ne. naive_solver. }
  unfold zip_cbs in *. eapply (wp_mono _ _ _ (fun _ s' => heap s' = <[ctx := OZipContext (zip_slots (ji_result i) zero_result 1)]> (heap s) /\
    fds s' = fds s /\ trace s' = trace s)); [|simpl; intros _ s' (? & ? & ?); by apply Hend]. clear Hend.
  unfold zip_slots, swap in *. destruct left; simpl in *; subst cb; simpl.
  - by apply (zip_first_spec client _ (ji_complete i)).
  - unfold sZipSecondContinuation. wp_steps. simpl. wp_steps. split_and!; [|done..]. simpl. by rewrite insert_insert_eq.
Qed.

(** The second one settles the output. *)
Definition zip_settled (g : ptr) (s' : st) : Prop :=
  heap s' !! ctx = None /\
  received op out y K W (zip_result g fv (swap (ji_result i) (ji_result j)).1 (swap (ji_result i) (ji_result j)).2) s' /\
  heap s' !! ji_fut i = Some (OFuture (fewer (ji_complete i))) /\ heap s' !! ji_fut j = Some (OFuture (fewer (ji_complete j))).
Definition zip_called : list code :=
  zip_calls z u (swap (ji_result i) (ji_result j)).1 (swap (ji_result i) (ji_result j)).2 ++ (pd_call out <$> K).
Definition zip_answers (g : ptr) : Prop := res_error (ji_result i) = 0%Z -> res_error (ji_result j) = 0%Z ->
  answers client (K_zip z (res_value (swap (ji_result i) (ji_result j)).1) (res_value (swap (ji_result i) (ji_result j)).2) u) g.

Lemma zip_finish g s :
  pd_fn (ji_cont j) = zip_cbs.2 -> pd_ctx (ji_cont j) = ctx -> ji_fut i <> NULL -> ji_fut j <> NULL -> ji_fut i <> ji_fut j ->
  ji_fut i ∉ shared -> ji_fut j ∉ shared -> zip_holds (Some (ji_result i)) s ->
  heap s !! ji_fut i = Some (OFuture (ji_complete i)) -> heap s !! ji_fut j = Some (OFuture (ji_complete j)) ->
  (2 <= fut_refcount (ji_cell i) <= 2 ^ 31 - 1)%Z -> (2 <= fut_refcount (ji_cell j) <= 2 ^ 31 - 1)%Z -> zip_answers g ->
  WP (body client (pd_call (ji_fut j) (ji_cont j)))
    (fun _ s' => zip_settled g s' /\ only_changed (ji_fut i :: ji_fut j :: shared) (sl_fds W) s s' /\
       trace s' = trace s ++ zip_called) s.
Proof.
  intros Hcb Hcx Hi0 Hj0 Hij [Hic Hio]%not_elem_of_cons [Hjc Hjo]%not_elem_of_cons (Hc0 & Hco & Ho & Hc) Hi Hj Hri Hrj Hans.
  destruct (ji_cont j) as [nd cb cx]. simpl in *. subst cx.
  assert (Hsw : forall s', only_changed (ctx :: ji_fut i :: ji_fut j :: ou_cells op out y K W) (sl_fds W) s s' ->
    only_changed (ji_fut i :: ji_fut j :: shared) (sl_fds W) s s').
  { intros s'. apply only_changed_weaken; [|done]. intros p. rewrite !elem_of_cons. tauto. }
  unfold zip_settled, zip_called, zip_answers, zip_cbs, zip_slots, swap in *. destruct left; simpl in *; subst cb; simpl.
  - eapply wp_mono; [eapply (zip_second_spec client (ji_fut j) (ji_complete j) ctx op out y K W z u (ji_fut i) (ji_fut j) (ji_complete i) (ji_complete j) (ji_result i) fv g); try done; rewrite ji_result_complete; exact Hans|].
    simpl. intros _ s' (? & ? & ? & ? & Hoc%Hsw & ?). by split_and!.
  - assert (Hne : forall p, p ∈ ou_cells op out y K W -> p <> ctx) by (intros p Hp ->; done).
    unfold sZipFirstContinuation. wp_steps. simpl. set (s1 := store_cell _ _ _).
    assert (Hs1 : forall p, p <> ctx -> heap s1 !! p = heap s !! p) by (intros; simpl; lk).
    eapply wps_seq.
    { eapply (zip_complete_spec client ctx op out y K W z u (ji_fut j) (ji_fut i) (ji_complete j) (ji_complete i)
        (ji_result j) (ji_result i) 0 fv g s1); try done; [|simpl; apply lookup_insert_eq|by rewrite Hs1|by rewrite Hs1|auto].
      eapply (output_frame _ _ _ _ _ _ s); [|done|exact Ho]. intros p Hp. by apply Hs1, Hne. }
    simpl. intros _ s2 (? & ? & ? & ? & [Hh Hf2] & ?). apply wps_ret. split_and!; try done. apply Hsw. split; [|done].
    intros p Hp. rewrite !not_elem_of_cons in Hp. destruct Hp as (? & ? & ? & ?). rewrite Hh; [by apply Hs1|]. by rewrite !not_elem_of_cons.
Qed.

Lemma zip_first_turn s :
  zip_holds None s -> zip_armed i zip_cbs.1 s ->
  WP (UfsrvPromiseSetResult (ji_prm i) (ji_result i))
    (fun _ s' => zip_holds (Some (ji_result i)) s' /\ fulfilled (ji_complete i) i s' /\
       only_changed (shared ++ ji_cells i) (sl_fds W ++ sl_fds (ji_waits i)) s s' /\
       trace s' = trace s ++ (pd_call (ji_fut i) <$> ji_before i) ++ pd_call (ji_fut i) (ji_cont i) ::
         (pd_call (ji_fut i) <$> ji_after i)) s.
Proof.
  intros Hz Ha. apply (fulfil_one client shared (sl_fds W) zip_holds (fun a => a = None) (zip_owns i zip_cbs.1)
    (fun _ _ => Some (ji_result i)) (fun _ => ji_complete) (fun _ _ => []) ltac:(apply zip_holds_frame) ltac:(done) ltac:(done) None i s);
    try done.
  intros a i' s1 -> Hz1 (-> & Ho & Hcb & Hcx) Hf Hsh _. rewrite Ho in *.
  eapply wp_mono; [apply zip_note; try done; apply Hsh; by left|].
  simpl. intros _ s2 (? & ? & Hoc & ->). split_and!; try done; [by intros p ?%elem_of_nil| |by rewrite app_nil_r].
  eapply only_changed_weaken; [| |exact Hoc]; [|by intros fd ?%elem_of_nil]. intros p ->%list_elem_of_singleton. right. by left.
Qed.

(** The cell of a fulfilled input may still change. *)
Lemma fulfilled_update x x' i' s s' :
  fulfilled x i' s -> same_phase x x' -> same_phase (ji_complete i') x -> heap s' !! ji_fut i' = Some (OFuture x') ->
  (forall p, p ∈ ji_cells i' -> p <> ji_fut i' -> heap s' !! p = heap s !! p) ->
  (forall fd, fd ∈ sl_fds (ji_waits i') -> fds s' !! fd = fds s !! fd) -> fulfilled x' i' s'.
Proof.
  intros [Hs Hp Hw Hn] Hx Hx0 Hf Hh Hfd. destruct (Hx) as (Hxc & Hxs & Hxk & Hxw).
  assert (Hsame : same_phase (ji_complete i') x') by (destruct Hx0 as (? & ? & ? & ?); split_and!; congruence).
  set (s1 := with_heap (<[ji_fut i' := OFuture x']>) s).
  assert (Hother : forall p, p ∈ ji_cells i' -> heap s' !! p = heap s1 !! p).
  { intros p Hin. simpl. destruct (decide (p = ji_fut i')) as [->|]; [by rewrite lookup_insert_eq|].
    rewrite lookup_insert_ne by done. by apply Hh. }
  eapply (fulfilled_frame x' i' s1); [exact Hsame|exact Hother|exact Hfd|]. split; simpl.
  - by eapply settled_update.
  - destruct Hp as [Hp0 Hp]. split; [done|]. rewrite lookup_insert_ne; [done|]. intros Heq. pose proof (sf_fut _ _ _ Hs). congruence.
  - intros w Hin. eapply awake_frame; [|done|by apply Hw]. simpl. apply lookup_insert_ne. intros Heq.
    destruct (Hw w Hin) as (_ & b & Hb & _). pose proof (sf_fut _ _ _ Hs). congruence.
  - intros p Hin. rewrite lookup_insert_ne; [by apply Hn|]. intros <-. pose proof (sf_fut _ _ _ Hs). rewrite Hn in *; done.
Qed.

Lemma zip_second_turn g s :
  ji_fut i ∉ shared -> zip_holds (Some (ji_result i)) s -> fulfilled (ji_complete i) i s -> zip_armed j zip_cbs.2 s -> apart i j ->
  (2 <= fut_refcount (ji_cell i) <= 2 ^ 31 - 1)%Z -> (2 <= fut_refcount (ji_cell j) <= 2 ^ 31 - 1)%Z -> zip_answers g ->
  WP (UfsrvPromiseSetResult (ji_prm j) (ji_result j))
    (fun _ s' => zip_settled g s' /\ fulfilled (fewer (ji_complete j)) j s' /\
       only_changed (ji_fut i :: shared ++ ji_cells j) (sl_fds W ++ sl_fds (ji_waits j)) s s' /\
       trace s' = trace s ++ (pd_call (ji_fut j) <$> ji_before j) ++ pd_call (ji_fut j) (ji_cont j) :: zip_called ++
         (pd_call (ji_fut j) <$> ji_after j)) s.
Proof.
  intros Hish Hz Hi [Hp Ho Hh Hq (_ & Hown & Hcb & Hcx) _ Hsh Hfds] [Hap _] Hri Hrj Hans.
  pose proof (open_apart _ _ _ _ _ _ Ho) as (Hfq & _). pose proof (sf_fut _ _ _ (ff_settled _ _ _ Hi)) as Hfi.
  assert (Hic : ji_fut i ∈ ji_cells i) by (apply elem_of_app; right; right; by left).
  assert (Hcells : ji_cells j = ji_prm j :: footprint (ji_fut j) (ji_cell j) (ji_conts j) (ji_waits j)) by (unfold ji_cells; by rewrite Hown).
  assert (Hqc : forall p, p ∈ queue_cells (ji_cell j) (ji_conts j) (ji_waits j) -> p ∈ ji_cells j) by (rewrite Hcells; intros; by do 2 right).
  assert (Hjc : ji_fut j ∈ ji_cells j) by (rewrite Hcells; right; by left).
  assert (Hij : ji_fut i <> ji_fut j) by (intros Heq; apply (Hap _ Hic); by rewrite Heq).
  eapply wp_mono.
  { eapply (SetResult_moves client (ji_fut j) (ji_prm j) (ji_result j) (ji_cell j) (ji_before j) (ji_cont j) (ji_after j) (ji_waits j)
      (ji_fut i :: ji_fut j :: shared) (sl_fds W) zip_called
      (fun s1 => zip_holds (Some (ji_result i)) s1 /\ heap s1 !! ji_fut i = Some (OFuture (ji_complete i)) /\
         heap s1 !! ji_fut j = Some (OFuture (ji_complete j)))
      (zip_settled g)); try done.
    - intros p Hin. assert (Hpc : p ∈ ji_cells j) by (apply elem_of_cons in Hin as [->|Hin]; [rewrite Hcells; by left|by apply Hqc]).
      rewrite !not_elem_of_cons. pose proof (Hsh p Hpc) as [? ?]%not_elem_of_cons. split_and!; try done; intros ->.
      + by apply (Hap _ Hic).
      + apply elem_of_cons in Hin as [Heq|?]; [|done]. destruct Hp as [_ Hp]. rewrite Heq in Ho. pose proof (of_fut _ _ _ _ _ _ Ho). congruence.
    - assert (HX : forall p, p ∈ queue_cells (ji_cell j) (ji_conts j) (ji_waits j) -> p ∉ shared) by auto.
      assert (Hiq : ji_fut i ∉ queue_cells (ji_cell j) (ji_conts j) (ji_waits j)) by (intros Hx; by apply (Hap _ Hic), Hqc).
      intros P [-> | ->].
      + apply and_stable; [|apply and_stable; by apply cell_stable]. intros s1 s2 Hh1 Hf1.
        apply zip_holds_frame; [intros p Hx; apply Hh1; intros ?; by apply (HX p)|intros fd Hx; apply Hf1; intros ?; by apply (Hfds fd)].
      + apply and_stable; [apply cell_stable; intros Hx%HX; apply Hx; by left|].
        apply and_stable; [|apply and_stable; by apply cell_stable].
        apply received_stable; [|done]. by intros p [_ Hx]%HX%not_elem_of_cons.
    - intros s1 (Hz1 & Hi1 & Hj1). eapply wp_mono; [apply (zip_finish g); try done|simpl; naive_solver].
      + apply (ff_settled _ _ _ Hi).
      + apply Ho.
      + by apply Hsh.
    - intros s1 Hj1 Hs1 Hfd1.
      assert (Hout : forall p, p ∉ ji_cells j -> heap s1 !! p = heap s !! p).
      { intros p Hx. apply Hs1; intros ->; [done|]. apply Hx. rewrite Hcells. by left. }
      split_and!; [|rewrite Hout; [done|by apply Hap]|done].
      eapply zip_holds_frame; [|by intros; rewrite Hfd1|exact Hz]. intros p Hx. apply Hout. intros Hy. by apply (Hsh p Hy). }
  cbn beta. intros _ s' (Hcl & Hp' & Hw & Hn & Hset & [Hoc Hof] & Ht). split_and!; [done| | |exact Ht].
  - split; [|done|done|].
    + eapply settled_closed; [exact Hcl|apply Ho|apply Hset|done..].
    + rewrite Hown, app_nil_r. exact Hn.
  - rewrite Hcells. split; [|done]. intros p [Hpi [Hps Hpj]%not_elem_of_app]%not_elem_of_cons. apply Hoc, not_elem_of_app.
    split; [|exact Hpj]. apply not_elem_of_cons. split; [done|]. apply not_elem_of_cons. split; [|done].
    intros ->. apply Hpj. right. by left.
Qed.
End Zip.

(** ** The combinators *)
Lemma counted_lives {B} (step : Z * B -> join_input -> Z * B) inputs : forall a,
  (forall a i, (step a i).1 = a.1 - 1)%Z -> (Z.of_nat (length inputs) <= a.1 <= 2 ^ 64 - 1)%Z ->
  lives (fun a => counts a.1) step a inputs /\ (fold_left step inputs a).1 = (a.1 - Z.of_nat (length inputs))%Z.
Proof.
  induction inputs as [|i inputs IH]; intros a Hs Ha; simpl in *; [split; [done|lia]|].
  destruct (IH (step a i) Hs) as [Hl Hn]; [rewrite Hs; lia|]. rewrite Hs in Hn.
  split; [split; [unfold counts; lia|done]|lia].
Qed.

Lemma all_fold inputs : forall a : (Z * option Z), (fold_left all_reported inputs a).2 = fold_left all_step (ji_result <$> inputs) a.2.
Proof. induction inputs as [|i inputs IH]; intros a; [done|]. apply IH. Qed.
Lemma all_served {E : Ext} {TS : TreiberSpec E} inputs : forall (a : Z * option Z) s,
  served all_reported all_leaves a inputs s -> Forall (fun i => fulfilled (ji_complete i) i s) inputs.
Proof. induction inputs as [|i inputs IH]; intros a s; [constructor|]. intros [Hi Hl]. constructor; [exact Hi|by eapply IH]. Qed.

(** The first of the inputs to report, and the others. *)
Definition any_winner (inputs : list join_input) : option UfsrvFutureResult :=
  match inputs with [] => None | i :: _ => Some (moved_result (ji_complete i)) end.
Definition any_served {E : Ext} {TS : TreiberSpec E} (inputs : list join_input) (s : st) : Prop :=
  match inputs with
  | [] => True
  | i :: rest => fulfilled (moved (ji_complete i)) i s /\ Forall (fun j => fulfilled (ji_complete j) j s) rest
  end.
Lemma any_fold_won inputs : forall (a : Z * option UfsrvFutureResult) r, a.2 = Some r -> (fold_left any_reported_one inputs a).2 = Some r.
Proof. induction inputs as [|i inputs IH]; intros a r Ha; [done|]. apply IH. simpl. by rewrite Ha. Qed.
Lemma any_served_won {E : Ext} {TS : TreiberSpec E} inputs : forall (a : Z * option UfsrvFutureResult) r s, a.2 = Some r ->
  served any_reported_one any_leaves a inputs s -> Forall (fun i => fulfilled (ji_complete i) i s) inputs.
Proof.
  induction inputs as [|i inputs IH]; intros a r s Ha; [constructor|]. intros [Hi Hl]. unfold any_leaves, any_input in Hi. rewrite Ha in Hi.
  constructor; [exact Hi|]. eapply (IH _ r); [|exact Hl]. simpl. by rewrite Ha.
Qed.

(** [all] over pending inputs: the barrier, and fail-fast.  Let [n] reports be due
    and let any of the inputs' promises be fulfilled, in any order.  Every one of
    these inputs gets its result, its waiters and its other continuations served.
    If reports are still due after that, the output is pending as long as no input
    failed, and failed with the first error as soon as one did; after the last
    report the output is complete, with the first error or a NULL value, and the
    context is freed.  The output's continuations run exactly once. *)
Theorem all_joins {E : Ext} {TS : TreiberSpec E} client ctx op out y K W n inputs s :
  (Z.of_nat (length inputs) <= n <= 2 ^ 64 - 1)%Z -> (0 < n)%Z -> all_at client ctx op out y K W n None s ->
  Forall (fun i => armed client (ctx :: ou_cells op out y K W) (sl_fds W) (all_owns ctx) i s) inputs -> ForallOrdPairs apart inputs ->
  wp (body client) log (fulfil_all inputs)
    (fun _ s' => all_after client ctx op out y K W (n - Z.of_nat (length inputs)) (fold_left all_step (ji_result <$> inputs) None) s' /\
       Forall (fun i => fulfilled (ji_complete i) i s') inputs /\
       only_changed ((ctx :: ou_cells op out y K W) ++ all_cells inputs) (sl_fds W ++ all_fds inputs) s s' /\
       trace s' = trace s ++ join_calls all_reported (all_calls_out out K) (n, None) inputs) s.
Proof.
  intros Hn Hpos Ha Har Hap. destruct (counted_lives all_reported inputs (n, None)) as [Hl Hcount]; [done..|].
  eapply wp_mono; [eapply (fulfil_all_spec client _ _ (all_holds client ctx op out y K W) all_due (all_owns ctx) all_reported all_leaves
    (all_calls_out out K) ltac:(apply all_holds_frame) ltac:(done) ltac:(done) inputs); try done|].
  - apply all_reports_well.
  - unfold all_holds, all_after. simpl. by rewrite bool_decide_eq_false_2 by lia.
  - cbn beta. intros _ s' (Ha' & Hsv & Hoc & Ht). split_and!; try done; [|by eapply all_served].
    unfold all_holds in Ha'. by rewrite Hcount, all_fold in Ha'.
Qed.

(** [any] over pending inputs: the first to report wins.  Let [n] reports be due and
    let any of the inputs' promises be fulfilled, in any order.  The output is settled
    at once with the result of the first of them, which is moved out of that input
    (EINVAL if it was moved before), and its continuations run then, once; the others
    keep their results.  Every input has its waiters and its other continuations
    served and its registration freed; the last report frees the context. *)
Theorem any_races {E : Ext} {TS : TreiberSpec E} client ctx op out y K W n inputs s :
  (Z.of_nat (length inputs) <= n <= 2 ^ 64 - 1)%Z -> (0 < n)%Z -> any_at client ctx op out y K W n None s ->
  Forall (fun i => armed client (ctx :: ou_cells op out y K W) (sl_fds W) (any_owns ctx) i s) inputs -> ForallOrdPairs apart inputs ->
  wp (body client) log (fulfil_all inputs)
    (fun _ s' => any_after client ctx op out y K W (n - Z.of_nat (length inputs)) (any_winner inputs) s' /\
       any_served inputs s' /\
       only_changed ((ctx :: ou_cells op out y K W) ++ all_cells inputs) (sl_fds W ++ all_fds inputs) s s' /\
       trace s' = trace s ++ join_calls any_reported_one (any_calls_out out K) (n, None) inputs) s.
Proof.
  intros Hn Hpos Ha Har Hap. destruct (counted_lives any_reported_one inputs (n, None)) as [Hl Hcount]; [done..|].
  eapply wp_mono; [eapply (fulfil_all_spec client _ _ (any_holds client ctx op out y K W) any_due (any_owns ctx) any_reported_one any_leaves
    (any_calls_out out K) ltac:(apply any_holds_frame) ltac:(apply any_owns_frame) ltac:(apply any_leaves_same) inputs); try done|].
  - apply any_reports_well.
  - unfold any_holds, any_after. simpl. by rewrite bool_decide_eq_false_2 by lia.
  - cbn beta. intros _ s' (Ha' & Hsv & Hoc & Ht). unfold any_holds in Ha'. rewrite Hcount in Ha'. destruct inputs as [|i inputs]; [done|].
    cbn [fold_left] in Ha'. erewrite any_fold_won in Ha' by done. split_and!; try done. destruct Hsv as [Hi Hs].
    split; [exact Hi|]. exact (any_served_won inputs (any_reported_one (n, None) i) (moved_result (ji_complete i)) s' eq_refl Hs).
Qed.

(** What [zip] has made of its inputs when both have reported. *)
Definition zip_done {E : Ext} {TS : TreiberSpec E} ctx op out y K W z u fv left i j g (s s' : st) : Prop :=
  heap s' !! ctx = None /\
  received op out y K W (zip_result g fv (swap left (ji_result i) (ji_result j)).1 (swap left (ji_result i) (ji_result j)).2) s' /\
  fulfilled (fewer (ji_complete i)) i s' /\ fulfilled (fewer (ji_complete j)) j s' /\
  only_changed ((ctx :: ou_cells op out y K W) ++ ji_cells i ++ ji_cells j) (sl_fds W ++ sl_fds (ji_waits i) ++ sl_fds (ji_waits j)) s s' /\
  trace s' = trace s ++
    ((pd_call (ji_fut i) <$> ji_before i) ++ pd_call (ji_fut i) (ji_cont i) :: (pd_call (ji_fut i) <$> ji_after i)) ++
    (pd_call (ji_fut j) <$> ji_before j) ++ pd_call (ji_fut j) (ji_cont j) ::
    zip_called out K z u left i j ++ (pd_call (ji_fut j) <$> ji_after j).

(** [zip] over pending inputs.  Whichever of the two promises is fulfilled first, the
    output stays pending until the second one is; then it is completed with what the
    zipper makes of the two values, in the order of [zip]'s arguments, or with the
    error of the first argument, or else of the second, or with [-1] if the zipper
    returns NULL.  The zipper is called only if both succeeded.  Both inputs keep their
    results and have their waiters and other continuations served; the references held
    on them are given back, and the context is freed. *)
Theorem zip_joins {E : Ext} {TS : TreiberSpec E} client ctx op out y K W z u fv left i j g s :
  zip_holds client ctx op out y K W z u fv left i j None s ->
  zip_armed client ctx op out y K W i (zip_cbs left).1 s -> zip_armed client ctx op out y K W j (zip_cbs left).2 s -> apart i j ->
  (2 <= fut_refcount (ji_cell i) <= 2 ^ 31 - 1)%Z -> (2 <= fut_refcount (ji_cell j) <= 2 ^ 31 - 1)%Z ->
  zip_answers client z u left i j g ->
  wp (body client) log (UfsrvPromiseSetResult (ji_prm i) (ji_result i))
    (fun _ s1 => output client op out y K W s1 /\ fulfilled (ji_complete i) i s1 /\
       wp (body client) log (UfsrvPromiseSetResult (ji_prm j) (ji_result j))
         (fun _ s' => zip_done ctx op out y K W z u fv left i j g s s') s1) s.
Proof.
  intros Hz Hi Hj Hap Hri Hrj Hans. eapply wp_mono; [by eapply zip_first_turn|]. cbn beta. intros _ s1 (Hz1 & Hf1 & [Hoc Hof] & Ht1).
  destruct Hap as [Hapc Hapf]. pose proof (ar_shared _ _ _ _ _ _ Hi) as Hish. pose proof (ar_shared _ _ _ _ _ _ Hj) as Hjsh.
  assert (Hic : ji_fut i ∈ ji_cells i) by (apply elem_of_app; right; right; by left).
  assert (Hj1 : zip_armed client ctx op out y K W j (zip_cbs left).2 s1).
  { eapply armed_frame; [| | |exact Hj]; [done|..].
    - intros p Hp. apply Hoc, not_elem_of_app. split; [by apply Hjsh|]. intros Hx. by apply (Hapc p).
    - intros fd Hp. apply Hof, not_elem_of_app. split; [by apply (ar_fds _ _ _ _ _ _ Hj)|]. intros Hx. by apply (Hapf fd). }
  split; [apply Hz1|]. split; [done|].
  eapply wp_mono; [apply (zip_second_turn client ctx op out y K W z u fv left i j g s1); try done; by apply Hish|].
  cbn beta. intros _ s2 ((Hctx & Hrv & Hi2 & Hj2) & Hfj & [Hoc2 Hof2] & Ht2). split_and!; try done.
  - eapply (fulfilled_update (ji_complete i)); [exact Hf1|done|done|exact Hi2|..].
    + intros p Hp Hne. apply Hoc2, not_elem_of_cons. split; [done|]. apply not_elem_of_app. split; [by apply Hish|by apply Hapc].
    + intros fd Hp. apply Hof2, not_elem_of_app. split; [by apply (ar_fds _ _ _ _ _ _ Hi)|by apply Hapf].
  - split.
    + intros p [Hp [Hpi Hpj]%not_elem_of_app]%not_elem_of_app. rewrite Hoc2, Hoc; [done|by apply not_elem_of_app|].
      apply not_elem_of_cons. split; [by intros ->|by apply not_elem_of_app].
    + intros fd [Hp [Hpi Hpj]%not_elem_of_app]%not_elem_of_app. rewrite Hof2, Hof; [done|by apply not_elem_of_app..].
  - rewrite Ht2, Ht1. by rewrite <- !app_assoc.
Qed.
