(* ===== verification/ArmingFacts.v ===== *)
(** * ArmingFacts: joining pending inputs, end to end

    The combinators go through their inputs and leave a continuation on each.  When
    memory lasts, every pending input ends up armed in the sense of JoinFacts, so that
    its theorems apply to the fulfilments that follow, in whatever order they come. *)
From S2P Require Import Prelude Machine Uflib Model Cancellation Scheduler Coroutine Future Waiting.
From S2P Require Import Operators Combinators Dispatch Logic Guarantee CancellationFacts FutureFacts Demo OperatorFacts.
From S2P Require Import MovingFacts MovingPipeline CombinatorFacts JoinFacts.
Local Open Scope prog_scope.

Lemma ForallOrdPairs_perm {A} (R : A -> A -> Prop) l l' :
  (forall x y, R x y -> R y x) -> l ≡ₚ l' -> ForallOrdPairs R l -> ForallOrdPairs R l'.
Proof.
  intros HR. induction 1 as [|x l l' Hp IH|x y l|l l' l'' _ IH1 _ IH2]; intros Hl; [done| | |auto].
  - inversion Hl; subst. constructor; [by rewrite <- Hp|auto].
  - inversion Hl as [|? ? H1 H2]; subst. inversion H2; subst. apply Forall_cons in H1 as [? ?].
    constructor; [constructor; [by apply HR|done]|by constructor].
Qed.
Lemma apart_sym i j : apart i j -> apart j i.
Proof. intros [Hc Hf]. split; [intros p Hp Hx; by apply (Hc p)|intros fd Hp Hx; by apply (Hf fd)]. Qed.

(** An input before it is joined: a pending future, its promise, and the result that will
    be given to it. *)
Record pending_input := PIn {
  pi_prm : ptr; pi_fut : ptr; pi_cell : UfsrvFuture; pi_conts : list pending; pi_waits : list sleeper; pi_result : UfsrvFutureResult;
}.
Definition pi_cells (i : pending_input) : list ptr := pi_prm i :: footprint (pi_fut i) (pi_cell i) (pi_conts i) (pi_waits i).
Definition pi_apart (i j : pending_input) : Prop :=
  (forall p, p ∈ pi_cells i -> p ∉ pi_cells j) /\ (forall fd, fd ∈ sl_fds (pi_waits i) -> fd ∉ sl_fds (pi_waits j)).
(** The input with the continuation [k] of a combinator in front, which owns [own]. *)
Definition place (i : pending_input) (own : list ptr) (k : pending) : join_input :=
  Join (pi_prm i) (pi_fut i) (pi_cell i) [] own k (pi_conts i) (pi_waits i) (pi_result i).
Definition placed_input (i : pending_input) (j : join_input) : Prop := exists own k, j = place i own k.

Lemma place_cells i own k p : p ∈ ji_cells (place i own k) <-> p ∈ pd_node k :: own \/ p ∈ pi_cells i.
Proof.
  unfold ji_cells, pi_cells, footprint. change (ji_conts (place i own k)) with (k :: pi_conts i).
  rewrite pd_nodes_cons, elem_of_app. simpl. rewrite !elem_of_cons. tauto.
Qed.

Section Arming.
Context {E : Ext} {TS : TreiberSpec E} (client : Client) (Hclient : client_guar client).
#[local] Abbreviation WP := (wp (body client) log).
#[local] Abbreviation quiet := (observes (body client)).

Record expecting (i : pending_input) (s : st) : Prop := {
  ex_promise : promise_at (heap s) (pi_prm i) (pi_fut i) false;
  ex_open : open_future (heap s) (fds s) (pi_fut i) (pi_cell i) (pi_conts i) (pi_waits i);
  ex_handle : fut_cancel_handle (pi_cell i) = NULL;
  ex_quiet k : k ∈ pi_conts i -> quiet (pd_call (pi_fut i) k);
}.
Lemma expecting_frame i s s' :
  (forall p, p ∈ pi_cells i -> heap s' !! p = heap s !! p) -> fds s' = fds s -> expecting i s -> expecting i s'.
Proof.
  intros Hh Hf [[Hp0 Hp] Ho Hc Hq]. split; try done; [split; [done|rewrite Hh; [done|by left]]|].
  rewrite Hf. eapply open_frame; [|done|exact Ho]. intros p Hin. apply Hh. by right.
Qed.
Lemma expecting_live i s p : expecting i s -> p ∈ pi_cells i -> is_Some (heap s !! p).
Proof. intros [[_ Hp] Ho _ _] [->|Hin]%elem_of_cons; [eauto|by eapply open_allocated]. Qed.

(** Memory lasts, and nothing but the cells [M] has changed. *)
Record fine (M : list ptr) (s s' : st) : Prop := {
  fi_heap p : p ∉ M -> heap s' !! p = heap s !! p;
  fi_fds : fds s' = fds s;
  fi_trace : trace s' = trace s;
  fi_oracle : oracle s' = [];
  fi_wf : wf_machine s';
}.
Lemma fine_trans M M' s1 s2 s3 : fine M s1 s2 -> fine M' s2 s3 -> fine (M ++ M') s1 s3.
Proof.
  intros [] []. split; try done; try congruence. intros p [? ?]%not_elem_of_app. by rewrite fi_heap1, fi_heap0.
Qed.

(** Registering on a pending future while memory lasts. *)
Lemma Then_places f cb arg x K W s :
  wf_machine s -> oracle s = [] -> open_future (heap s) (fds s) f x K W ->
  WP (UfsrvFutureThen f (Some cb) arg)
    (fun ok s' => ok = true /\ exists n, heap s !! n = None /\ open_future (heap s') (fds s') f x (Pend n cb arg :: K) W /\
       fine [n; fut_continuations x] s s') s.
Proof.
  intros Hwf Hor Ho. eapply wp_mono.
  { apply wp_evolves; [done|apply (api_guar _ _ (api_then _ _ _))|]. unfold UfsrvFutureThen.
    rewrite (is_null_false f) by apply Ho. simpl. apply wp_or_oom.
    - apply (sFutureThen_open (body client) f cb arg x K W); [apply Hwf|done].
    - eapply (sFutureThen_plenty client f); [apply Hwf|done]. }
  simpl. intros ok s' [[Hok (Ht & Hf & Hcase)] Hev]. specialize (Hev Hwf). specialize (Hok Hor) as ->. split; [done|].
  destruct Hcase as [[? _]|(_ & n & Hn & Ho' & Hs)]; [done|]. exists n. split_and!; try done. split; try done.
  - intros p [? ?%not_elem_of_cons]%not_elem_of_cons. apply Hs; naive_solver.
  - by apply (ev_oracle _ _ Hev).
  - apply Hev.
Qed.

(** One turn of a registration loop leaves the continuation [k], owner of the new cells
    [own], on the input. *)
Record joins (owns : join_input -> st -> Prop) (i : pending_input) (own : list ptr) (k : pending) (s s' : st) : Prop := {
  jo_open : open_future (heap s') (fds s') (pi_fut i) (pi_cell i) (k :: pi_conts i) (pi_waits i);
  jo_new p : p ∈ pd_node k :: own -> heap s !! p = None;
  jo_nodup : NoDup (pd_node k :: own);
  jo_owns : owns (place i own k) s';
  jo_fine : fine (fut_continuations (pi_cell i) :: pd_node k :: own) s s';
}.

Context (shared : list ptr) (owns : join_input -> st -> Prop) (turn : ptr -> cprog unit)
  (loop : list ptr -> nat -> nat -> cprog unit).
Context (owns_frame : forall i s s', (forall p, p ∈ ji_own i -> heap s' !! p = heap s !! p) -> owns i s -> owns i s')
  (owns_live : forall i s p, owns i s -> p ∈ ji_own i -> is_Some (heap s !! p))
  (turn_spec : forall i s, wf_machine s -> oracle s = [] -> expecting i s ->
     WP (turn (pi_fut i)) (fun _ s' => exists own k, joins owns i own k s s') s)
  (loop_done : forall fs n Q s, Q tt s -> WP (loop fs n 0) Q s)
  (loop_turn : forall fs n f todo Q s, fs !! n = Some f ->
     WP (turn f) (fun _ s1 => WP (loop fs (S n) todo) Q s1) s -> WP (loop fs n (S todo)) Q s).

(** Some inputs are armed, the others expected, and all of them are apart. *)
Record half_armed (js : list join_input) (rest : list pending_input) (s : st) : Prop := {
  ha_armed j : j ∈ js -> armed client shared [] owns j s;
  ha_rest i : i ∈ rest -> expecting i s;
  ha_js : ForallOrdPairs apart js;
  ha_apart : ForallOrdPairs pi_apart rest;
  ha_cross j i : j ∈ js -> i ∈ rest -> (forall p, p ∈ ji_cells j -> p ∉ pi_cells i) /\
    (forall fd, fd ∈ sl_fds (ji_waits j) -> fd ∉ sl_fds (pi_waits i));
  ha_shared i p : i ∈ rest -> p ∈ pi_cells i -> p ∉ shared;
  ha_live p : p ∈ shared -> is_Some (heap s !! p);
}.

Lemma armed_live j s p : armed client shared [] owns j s -> p ∈ ji_cells j -> is_Some (heap s !! p).
Proof.
  intros [[_ Hp] Ho _ _ Hown _ _ _] [Hin|[->|Hin]%elem_of_cons]%elem_of_app; [by eapply owns_live|eauto|by eapply open_allocated].
Qed.

(** The input that has had its turn is armed. *)
Lemma joins_armed i own k s s' :
  expecting i s -> (forall p, p ∈ pi_cells i -> p ∉ shared) -> (forall p, p ∈ shared -> is_Some (heap s !! p)) ->
  joins owns i own k s s' -> armed client shared [] owns (place i own k) s'.
Proof.
  intros Hi Hsh Hlive [Ho Hnew Hnd Hown [Hh Hf _ _ _]].
  assert (Hold : forall p, is_Some (heap s !! p) -> p ∉ pd_node k :: own) by (intros p [o Hp] Hin; rewrite Hnew in Hp; done).
  split; simpl; try done.
  - destruct (ex_promise _ _ Hi) as [Hp0 Hp]. split; [done|]. rewrite Hh; [done|]. apply not_elem_of_cons. split; [|apply Hold; eauto].
    intros Heq. destruct (of_conts _ _ _ _ _ _ (ex_open _ _ Hi)) as (_ & t & Ht & _). congruence.
  - by apply (ex_handle _ _ Hi).
  - by apply (ex_quiet _ _ Hi).
  - intros p Hp Hx. apply NoDup_cons in Hnd as [Hk _].
    assert (Hx' : p = pd_node k \/ p ∈ pi_cells i).
    { unfold pi_cells, footprint in *. change (ji_conts (place i own k)) with (k :: pi_conts i) in Hx.
      rewrite pd_nodes_cons in Hx. simpl in Hx. rewrite !elem_of_cons in *. tauto. }
    destruct Hx' as [->|Hx']; [done|]. apply (Hold p); [by eapply expecting_live|by right].
  - intros p [Hp|Hp]%place_cells; [|by apply Hsh]. intros Hx%Hlive. by apply (Hold p).
  - intros fd _. apply not_elem_of_nil.
Qed.

Lemma half_armed_perm js js' rest s : js ≡ₚ js' -> half_armed js rest s -> half_armed js' rest s.
Proof.
  intros Hp []. split; try done.
  - intros j Hj. apply ha_armed0. by rewrite Hp.
  - eapply ForallOrdPairs_perm; [apply apart_sym|exact Hp|done].
  - intros j i Hj. apply ha_cross0. by rewrite Hp.
Qed.

Lemma arm_one i own k js rest s s' :
  half_armed js (i :: rest) s -> joins owns i own k s s' -> half_armed (place i own k :: js) rest s'.
Proof.
  intros [Harm Hexp Hjs Hap Hcross Hsh Hlive] Hj. pose proof Hj as [_ Hnew _ _ [Hh Hf _ _ _]].
  inversion Hap as [|? ? Hapi Hap']; subst. rewrite Forall_forall in Hapi.
  assert (Hi : expecting i s) by (apply Hexp; by left).
  assert (Hci : fut_continuations (pi_cell i) ∈ pi_cells i) by (unfold pi_cells, footprint; set_solver +).
  assert (Hsame : forall p, is_Some (heap s !! p) -> p ∉ pi_cells i -> heap s' !! p = heap s !! p).
  { intros p [o Hp] Hpi. apply Hh, not_elem_of_cons. split; [by intros ->|]. intros Hx. rewrite Hnew in Hp; done. }
  assert (Hother : forall j p, j ∈ rest -> p ∈ pi_cells j -> p ∉ pi_cells i /\ p ∉ pd_node k :: own).
  { intros j p Hin Hp. split; [intros Hx; by apply (proj1 (Hapi j Hin) p)|]. intros Hx.
    destruct (expecting_live j s p) as [o Ho]; [apply Hexp; by right|done|]. rewrite Hnew in Ho; done. }
  split.
  - intros j [->|Hin]%elem_of_cons.
    + eapply joins_armed; [exact Hi|intros p; apply Hsh; by left|exact Hlive|exact Hj].
    + pose proof (Harm j Hin) as Ha. eapply armed_frame; [exact owns_frame|..|exact Ha]; [|by intros; rewrite Hf].
      intros p Hp. apply Hsame; [by eapply armed_live|]. by destruct (Hcross j i Hin) as [Hx _]; [by left|apply Hx].
  - intros j Hin. eapply expecting_frame; [|exact Hf|apply Hexp; by right]. intros p Hp.
    apply Hsame; [by eapply expecting_live; [apply Hexp; by right|]|]. by apply (Hother j).
  - constructor; [|done]. apply Forall_forall. intros j Hin. apply apart_sym. destruct (Hcross j i Hin) as [Hx Hz]; [by left|].
    split; [|done]. intros p Hp [Hn|Hpi]%place_cells; [|by apply (Hx p)].
    destruct (armed_live j s p (Harm j Hin) Hp) as [o Ho]. rewrite Hnew in Ho; done.
  - done.
  - intros j i' [->|Hin]%elem_of_cons Hi'; [|apply Hcross; [done|by right]]. destruct (Hapi i' Hi') as [Hx Hz]. split; [|exact Hz].
    intros p [Hn|Hpi]%place_cells; [|by apply Hx]. intros Hp. by apply (Hother i' p Hi' Hp).
  - intros j p Hin. apply Hsh. by right.
  - intros p Hp. destruct (Hlive p Hp) as [o Ho]. exists o. rewrite <- Ho. apply Hsame; [by apply Hlive|].
    intros Hx. by apply (Hsh i p); [left|..].
Qed.

(** The whole loop. *)
Lemma loop_arms fs rest : forall js n s,
  drop n fs = pi_fut <$> rest -> wf_machine s -> oracle s = [] -> half_armed js rest s ->
  WP (loop fs n (length rest))
    (fun _ s' => exists js', Forall2 placed_input rest js' /\ half_armed (js' ++ js) [] s' /\
       (forall p, p ∈ shared -> heap s' !! p = heap s !! p) /\ fds s' = fds s /\ trace s' = trace s) s.
Proof.
  induction rest as [|i rest IH]; intros js n s Hd Hwf Hor Ha.
  { apply loop_done. exists []. by split_and!. }
  simpl in *. pose proof Ha as [_ Hexp _ _ _ Hsh Hlive]. assert (Hi : expecting i s) by (apply Hexp; by left).
  apply (all_loop_step fs n (pi_fut i)) in Hd as [Hn Hd]. eapply loop_turn; [exact Hn|]. eapply wp_mono; [by apply turn_spec|]. cbn beta.
  intros _ s1 (own & k & Hj). pose proof Hj as [_ Hnew _ _ [Hh Hf Ht Hor1 Hwf1]].
  eapply wp_mono; [apply (IH (place i own k :: js) (S n) s1); try done; by eapply arm_one|].
  cbn beta. intros _ s2 (js' & Hf2 & Ha2 & Hs2 & Hfd2 & Ht2). exists (place i own k :: js'). split_and!; try congruence.
  - constructor; [by exists own, k|done].
  - eapply half_armed_perm; [|exact Ha2]. simpl. symmetry. apply Permutation_middle.
  - intros p Hp. rewrite Hs2 by done. destruct (Hlive p Hp) as [o Ho]. apply Hh. apply not_elem_of_cons. split.
    + intros ->. apply (Hsh i (fut_continuations (pi_cell i))); [by left| |done]. unfold pi_cells, footprint. set_solver +.
    + intros Hx. rewrite Hnew in Ho; done.
Qed.
End Arming.

(** ** all *)
Section ArmAll.
Context {E : Ext} {TS : TreiberSpec E} (client : Client) (Hclient : client_guar client).
#[local] Abbreviation WP := (wp (body client) log).

Definition all_turn (ctx f : ptr) : cprog unit :=
  let! ok := UfsrvFutureThen f (Some CB_sAllContinuation) ctx in
  if ok : bool then Ret tt
  else
    (let! failed := xchg all_failed set_all_failed true ctx in
     when (negb failed)
       (let! out_promise := rd all_out_promise ctx in
        settle_error out_promise EINVAL)) ;;
    let! old := fetch_sub_size all_remaining set_all_remaining 1 ctx in
    when (bool_decide (old = 1)%Z) (free ctx).

Lemma all_turn_spec ctx i s : wf_machine s -> oracle s = [] -> expecting client i s ->
  WP (all_turn ctx (pi_fut i)) (fun _ s' => exists own k, joins (all_owns ctx) i own k s s') s.
Proof.
  intros Hwf Hor Hi. unfold all_turn. eapply wps_seq; [eapply Then_places; try done; apply Hi|].
  cbn beta. intros ok s1 (-> & n & Hn & Ho & Hfine). apply wps_ret. exists [], (Pend n CB_sAllContinuation ctx). split; try done.
  - by intros p ->%list_elem_of_singleton.
  - apply NoDup_singleton.
  - destruct Hfine. split; try done. intros p Hp. apply fi_heap0. rewrite !not_elem_of_cons in *. naive_solver.
Qed.
Lemma all_loop_turn ctx fs n f todo Q s : fs !! n = Some f ->
  WP (all_turn ctx f) (fun _ s1 => WP (All_loop ctx fs (S n) todo) Q s1) s -> WP (All_loop ctx fs n (S todo)) Q s.
Proof.
  intros Hn Ht. cbn [All_loop]. unfold input. eapply wps_act; [by rewrite Hn|]. cbn beta. rewrite <- bind_bind.
  eapply wps_seq; [exact Ht|]. by intros [] s1.
Qed.
End ArmAll.

(** ** any *)
Section ArmAny.
Context {E : Ext} {TS : TreiberSpec E} (client : Client) (Hclient : client_guar client).
#[local] Abbreviation WP := (wp (body client) log).

Lemma any_turn_spec ctx i s : wf_machine s -> oracle s = [] -> expecting client i s ->
  WP (Any_input ctx (pi_fut i)) (fun _ s' => exists own k, joins (any_owns ctx) i own k s s') s.
Proof.
  intros Hwf Hor Hi. pose proof (wm_alloc _ Hwf) as [Hpos Hfresh]. pose proof (ex_open _ _ _ Hi) as Ho.
  unfold Any_input, Any_register. rewrite bind_bind. apply wps_alloc_ok; [done|]. set (reg := next_ptr s).
  assert (Hr0 : reg <> NULL) by (unfold reg, NULL; lia). assert (Hrn : heap s !! reg = None) by (apply Hfresh; unfold reg; lia).
  rewrite (is_null_false reg) by done. set (s1 := with_next_ptr _ _).
  assert (Hs1 : forall p, p <> reg -> heap s1 !! p = heap s !! p) by (intros; simpl; lk).
  assert (Hwf1 : wf_machine s1) by (destruct Hwf; split; try done; by apply (wf_alloc_new (MkAnyRegistration ctx (pi_fut i)) (oracle s) s)).
  assert (Ho1 : open_future (heap s1) (fds s1) (pi_fut i) (pi_cell i) (pi_conts i) (pi_waits i)).
  { eapply open_frame; [|done|exact Ho]. intros p Hp. apply Hs1. intros ->. destruct (open_allocated _ _ _ _ _ _ _ Ho Hp). congruence. }
  rewrite bind_bind. eapply wps_seq; [by eapply Then_places|]. cbn beta. intros ok s2 (-> & n & Hn & Ho2 & Hfine). simpl. apply wps_ret.
  assert (Hnr : n <> reg) by (intros ->; simpl in Hn; by rewrite lookup_insert_eq in Hn).
  assert (Hrc : reg <> fut_continuations (pi_cell i)).
  { intros Heq. destruct (of_conts _ _ _ _ _ _ Ho) as (_ & t & Ht & _). congruence. }
  destruct Hfine. exists [reg], (Pend n CB_sAnyContinuation reg). split; try done.
  - intros p [->| ->%list_elem_of_singleton]%elem_of_cons; [by rewrite <- Hs1|done].
  - apply NoDup_cons. split; [by intros ?%list_elem_of_singleton|apply NoDup_singleton].
  - split_and!; try done. rewrite fi_heap0; [simpl; lk|]. rewrite !not_elem_of_cons. split_and!; [done|done|apply not_elem_of_nil].
  - split; try done. intros p Hp. rewrite !not_elem_of_cons in Hp. destruct Hp as (? & ? & ? & _). rewrite fi_heap0; [by apply Hs1|].
    rewrite !not_elem_of_cons. split_and!; [done|done|apply not_elem_of_nil].
Qed.
Lemma any_loop_turn ctx fs n f todo Q s : fs !! n = Some f ->
  WP (Any_input ctx f) (fun _ s1 => WP (Any_loop ctx fs (S n) todo) Q s1) s -> WP (Any_loop ctx fs n (S todo)) Q s.
Proof.
  intros Hn Ht. cbn [Any_loop]. unfold input. eapply wps_act; [by rewrite Hn|]. cbn beta.
  eapply wps_seq; [exact Ht|]. by intros [] s1.
Qed.
End ArmAny.

(** ** The combinators, end to end *)
Section Pipelines.
Context {E : Ext} {TS : TreiberSpec E} (client : Client) (Hclient : client_guar client).
#[local] Abbreviation WP := (wp (body client) log).

(** The inputs are all pending, and memory lasts. *)
Record ready_inputs (inputs : list pending_input) (s : st) : Prop := {
  ri_wf : wf_machine s;
  ri_oracle : oracle s = [];
  ri_some : inputs <> [];
  ri_length : (Z.of_nat (length inputs) <= 2 ^ 64 - 1)%Z;
  ri_expecting : Forall (fun i => expecting client i s) inputs;
  ri_apart : ForallOrdPairs pi_apart inputs;
}.

(** Fulfilling any of the inputs [js], in any order, makes [Post] hold of what has been
    done. *)
Definition any_order (js : list join_input) (Post : list join_input -> st -> st -> Prop) (s : st) : Prop :=
  forall order late, order ++ late ≡ₚ js -> WP (fulfil_all order) (fun _ s' => Post order s s') s.

Lemma prepared_inputs {T} `{!Cell T} (mk : ptr -> T) op out c w ctx inputs s s1 (owns : join_input -> st -> Prop) :
  ready_inputs inputs s -> prepared client mk op out c w ctx s s1 ->
  half_armed client (ctx :: ou_cells op out (new_future c w) [] []) owns [] inputs s1.
Proof.
  intros [Hwf Hor Hne Hlen Hexp Hap] Hpr. pose proof Hpr as [Hou _ Hctx Hfresh Hrest _ Hfds _ _ _]. rewrite Forall_forall in Hexp.
  assert (Hold : forall i p, i ∈ inputs -> p ∈ pi_cells i -> p ∉ [op; out; c; w; ctx]).
  { intros i p Hi Hp Hx. destruct (expecting_live client i s p (Hexp i Hi) Hp) as [o Ho]. rewrite Hfresh in Ho; done. }
  split; try done.
  - by intros j ?%elem_of_nil.
  - intros i Hi. eapply expecting_frame; [|exact Hfds|by apply Hexp]. intros p Hp. apply Hrest. by eapply Hold.
  - constructor.
  - by intros j i ?%elem_of_nil.
  - intros i p Hi Hp. rewrite <- (prepared_cells client mk op out c w ctx s s1 p Hpr). by eapply Hold.
  - intros p [->|[->|Hp]%elem_of_cons]%elem_of_cons; [eauto|destruct Hou as [[_ ?] _ _ _ _]; eauto|].
    eapply open_allocated; [apply Hou|exact Hp].
Qed.

Lemma armed_permuted shared owns js s order late :
  half_armed client shared owns js [] s -> order ++ late ≡ₚ js ->
  Forall (fun j => armed client shared [] owns j s) order /\ ForallOrdPairs apart order.
Proof.
  intros [Harm _ Hap _ _ _ _] Hp. split.
  - apply Forall_forall. intros j Hj. apply Harm. rewrite <- Hp. apply elem_of_app. by left.
  - assert (Hall : ForallOrdPairs apart (order ++ late)) by (eapply ForallOrdPairs_perm; [apply apart_sym|symmetry; exact Hp|exact Hap]).
    clear -Hall. induction order as [|i order IH]; [constructor|]. inversion Hall as [|? ? H1 H2]; subst.
    constructor; [by apply Forall_app in H1 as []|by apply IH].
Qed.
Lemma placed_length inputs js order late : Forall2 placed_input inputs js -> order ++ late ≡ₚ js -> (length order <= length inputs)%nat.
Proof. intros Hf Hp. apply Forall2_length in Hf. apply Permutation_length in Hp. rewrite length_app in Hp. lia. Qed.

(** What has become of [all]'s output and of the inputs fulfilled so far. *)
Definition all_so_far ctx op out y (n : Z) (order : list join_input) (s s' : st) : Prop :=
  all_after client ctx op out y [] [] (n - Z.of_nat (length order)) (fold_left all_step (ji_result <$> order) None) s' /\
  Forall (fun i => fulfilled (ji_complete i) i s') order /\
  only_changed ((ctx :: ou_cells op out y [] []) ++ all_cells order) (all_fds order) s s' /\
  trace s' = trace s ++ join_calls all_reported (all_calls_out out []) (n, None) order.
Definition any_so_far ctx op out y (n : Z) (order : list join_input) (s s' : st) : Prop :=
  any_after client ctx op out y [] [] (n - Z.of_nat (length order)) (any_winner order) s' /\
  any_served order s' /\
  only_changed ((ctx :: ou_cells op out y [] []) ++ all_cells order) (all_fds order) s s' /\
  trace s' = trace s ++ join_calls any_reported_one (any_calls_out out []) (n, None) order.

Lemma all_pipeline_spec inputs s :
  ready_inputs inputs s ->
  WP (UfsrvFutureAll (Some (pi_fut <$> inputs)) (length inputs))
    (fun out s1 => fds s1 = fds s /\ trace s1 = trace s /\ exists op ctx c w js,
       let y := new_future c w in output client op out y [] [] s1 /\ Forall2 placed_input inputs js /\
       any_order js (all_so_far ctx op out y (Z.of_nat (length inputs))) s1) s.
Proof.
  intros Hri. pose proof Hri as [Hwf Hor Hne Hlen Hexp Hap]. set (n := length inputs) in *. assert (0 < n) by (unfold n; destruct inputs; [done|simpl; lia]).
  unfold UfsrvFutureAll. rewrite bool_decide_eq_false_2 by lia.
  change (bind _ _) with (combinator_prog (fun op => MkAllContext op (Z.of_nat n) false)
    (fun ctx out => All_loop ctx (pi_fut <$> inputs) 0 n ;; Ret out)%prog).
  apply combinator_spec; try done. intros op out c w ctx s1 Hpr. pose proof Hpr as [Hou Hc0 Hctx _ _ _ Hf1 Ht1 Hor1 Hwf1].
  eapply wps_seq.
  { eapply (loop_arms client (ctx :: ou_cells op out (new_future c w) [] []) (all_owns ctx) (all_turn ctx) (All_loop ctx)
      ltac:(done) ltac:(by intros i' s' p [-> _] ?%elem_of_nil) (all_turn_spec client Hclient ctx) ltac:(intros; by apply wps_ret)
      (all_loop_turn client ctx) (pi_fut <$> inputs) inputs [] 0 s1); try done; [by apply Hor1|by eapply prepared_inputs]. }
  cbn beta. intros _ s2 (js & Hjs & Har & Hsh & Hf & Ht). apply wps_ret. rewrite app_nil_r in Har.
  split; [congruence|]. split; [congruence|]. exists op, ctx, c, w, js.
  assert (Hat : all_at client ctx op out (new_future c w) [] [] (Z.of_nat n) None s2).
  { eapply (all_at_frame _ _ _ _ _ _ _ _ _ s1); [exact Hsh|by intros; rewrite Hf|]. split; try done. by eapply prepared_apart. }
  split; [apply (al_out _ _ _ _ _ _ _ _ _ _ Hat)|]. split; [done|]. intros order late Hp.
  destruct (armed_permuted _ _ _ _ _ _ Har Hp) as [Ho Hapo]. pose proof (placed_length _ _ _ _ Hjs Hp).
  apply (all_joins client ctx op out (new_future c w) [] [] (Z.of_nat n) order s2); try done; unfold n in *; lia.
Qed.

Lemma any_pipeline_spec inputs s :
  ready_inputs inputs s ->
  WP (UfsrvFutureAny (Some (pi_fut <$> inputs)) (length inputs))
    (fun out s1 => fds s1 = fds s /\ trace s1 = trace s /\ exists op ctx c w js,
       let y := new_future c w in output client op out y [] [] s1 /\ Forall2 placed_input inputs js /\
       any_order js (any_so_far ctx op out y (Z.of_nat (length inputs))) s1) s.
Proof.
  intros Hri. pose proof Hri as [Hwf Hor Hne Hlen Hexp Hap]. set (n := length inputs) in *.
  assert (0 < n) by (unfold n; destruct inputs; [done|simpl; lia]).
  unfold UfsrvFutureAny. rewrite bool_decide_eq_false_2 by lia.
  change (bind _ _) with (combinator_prog (fun op => MkAnyContext op false (Z.of_nat n))
    (fun ctx out => Any_loop ctx (pi_fut <$> inputs) 0 n ;; Ret out)%prog).
  apply combinator_spec; try done. intros op out c w ctx s1 Hpr. pose proof Hpr as [Hou Hc0 Hctx _ _ _ Hf1 Ht1 Hor1 Hwf1].
  eapply wps_seq.
  { eapply (loop_arms client (ctx :: ou_cells op out (new_future c w) [] []) (any_owns ctx) (Any_input ctx) (Any_loop ctx)
      (any_owns_frame ctx) ltac:(intros i' s' p (_ & -> & _ & ?) ->%list_elem_of_singleton; eauto)
      (any_turn_spec client Hclient ctx) ltac:(intros; by apply wps_ret)
      (any_loop_turn client ctx) (pi_fut <$> inputs) inputs [] 0 s1); try done; [by apply Hor1|by eapply prepared_inputs]. }
  cbn beta. intros _ s2 (js & Hjs & Har & Hsh & Hf & Ht). apply wps_ret. rewrite app_nil_r in Har.
  split; [congruence|]. split; [congruence|]. exists op, ctx, c, w, js.
  assert (Hat : any_at client ctx op out (new_future c w) [] [] (Z.of_nat n) None s2).
  { eapply (any_at_frame _ _ _ _ _ _ _ _ _ s1); [exact Hsh|by intros; rewrite Hf|]. split; try done. by eapply prepared_apart. }
  split; [apply (an_out _ _ _ _ _ _ _ _ _ _ Hat)|]. split; [done|]. intros order late Hp.
  destruct (armed_permuted _ _ _ _ _ _ Har Hp) as [Ho Hapo]. pose proof (placed_length _ _ _ _ Hjs Hp).
  apply (any_races client ctx op out (new_future c w) [] [] (Z.of_nat n) order s2); try done; unfold n in *; lia.
Qed.

(** *** zip *)
(** [zip] takes a reference on each of its inputs. *)
Definition retained (i : pending_input) : pending_input :=
  PIn (pi_prm i) (pi_fut i) (set_fut_refcount (fut_refcount (pi_cell i) + 1) (pi_cell i)) (pi_conts i) (pi_waits i) (pi_result i).
Definition some_zip_owns ctx (j : join_input) (_ : st) : Prop :=
  ji_own j = [] /\ pd_ctx (ji_cont j) = ctx.

Lemma retain_step i s :
  expecting client i s -> wf_machine s -> oracle s = [] -> (0 <= fut_refcount (pi_cell i) < 2 ^ 31 - 1)%Z ->
  WP (UfsrvFutureRetain (pi_fut i)) (fun _ s' => fine [pi_fut i] s s' /\ expecting client (retained i) s') s.
Proof.
  intros [Hp Ho Hh Hq] Hwf Hor Hr. eapply wp_mono; [eapply Retain_in_range; [apply Ho|apply Ho|done]|]. simpl. intros _ s' ->.
  assert (Hwf' : wf_machine (store_cell (pi_fut i) (set_fut_refcount (fut_refcount (pi_cell i) + 1) (pi_cell i)) s)).
  { destruct Hwf as [[Hpos Hfr] ? ? ?]. split; try done. split; [done|]. intros p Hp'. simpl. rewrite lookup_insert_ne; [by apply Hfr|].
    intros <-. simpl in Hp'. pose proof (of_fut _ _ _ _ _ _ Ho) as Hf. rewrite Hfr in Hf; done. }
  split; [split; try done|split; try done; simpl].
  - intros p Hp'. simpl. apply lookup_insert_ne. intros <-. apply Hp'. by left.
  - destruct Hp as [Hp0 Hp]. split; [done|]. rewrite lookup_insert_ne; [done|]. intros Heq. pose proof (of_fut _ _ _ _ _ _ Ho). congruence.
  - by eapply open_update.
Qed.

Lemma zip_place cb ctx shared js i rest s :
  half_armed client shared (some_zip_owns ctx) js (i :: rest) s -> wf_machine s -> oracle s = [] ->
  WP (UfsrvFutureThen (pi_fut i) (Some cb) ctx)
    (fun ok s' => ok = true /\ exists n, half_armed client shared (some_zip_owns ctx) (place i [] (Pend n cb ctx) :: js) rest s' /\
       (forall p, p ∈ shared -> heap s' !! p = heap s !! p) /\ fds s' = fds s /\ trace s' = trace s /\ wf_machine s' /\ oracle s' = []) s.
Proof.
  intros Ha Hwf Hor. pose proof Ha as [_ Hexp _ _ _ Hsh Hlive]. assert (Hi : expecting client i s) by (apply Hexp; by left).
  eapply wp_mono; [eapply Then_places; try done; apply Hi|]. cbn beta. intros ok s' (-> & n & Hn & Ho & Hfine). split; [done|]. exists n.
  assert (Hj : joins (some_zip_owns ctx) i [] (Pend n cb ctx) s s').
  { split; try done; [by intros p ->%list_elem_of_singleton|apply NoDup_singleton|]. destruct Hfine. split; try done.
    intros p Hp. apply fi_heap0. rewrite !not_elem_of_cons in *. naive_solver. }
  split; [eapply arm_one; try done; by intros j s0 p [-> _] ?%elem_of_nil|]. destruct Hfine. split_and!; try done.
  intros p Hp. apply fi_heap0. rewrite !not_elem_of_cons. split_and!; [|intros ->|apply not_elem_of_nil].
  - intros ->. destruct (Hlive n Hp). congruence.
  - apply (Hsh i (fut_continuations (pi_cell i))); [by left| |done]. unfold pi_cells, footprint. set_solver +.
Qed.

(** Retaining the inputs leaves them expected. *)
Lemma retained_inputs shared owns a b s s1 s2 :
  half_armed client shared owns [] [a; b] s -> fine [pi_fut a] s s1 -> expecting client (retained a) s1 ->
  fine [pi_fut b] s1 s2 -> expecting client (retained b) s2 -> half_armed client shared owns [] [retained a; retained b] s2.
Proof.
  intros [_ Hexp _ Hap _ Hsh Hlive] Hf1 Ha1 Hf2 Hb2. inversion Hap as [|? ? Hab _]; subst. apply Forall_inv in Hab as [Hc Hz].
  assert (Hfa : pi_fut a ∈ pi_cells a) by (right; by left). assert (Hfb : pi_fut b ∈ pi_cells b) by (right; by left).
  split; try done; try (by intros ? ?%elem_of_nil).
  - intros i [->| ->%list_elem_of_singleton]%elem_of_cons; [|done]. eapply expecting_frame; [|apply Hf2|exact Ha1].
    intros p Hp. apply (fi_heap _ _ _ Hf2). intros ->%list_elem_of_singleton. by apply (Hc (pi_fut b)).
  - constructor.
  - constructor; [by constructor|constructor; constructor].
  - by intros ? ? ?%elem_of_nil.
  - intros i p [->| ->%list_elem_of_singleton]%elem_of_cons Hp; [apply (Hsh a); [by left|exact Hp]|apply (Hsh b); [by right; left|exact Hp]].
  - intros p Hp. rewrite (fi_heap _ _ _ Hf2), (fi_heap _ _ _ Hf1); [by apply Hlive|..]; intros ->%list_elem_of_singleton.
    + by apply (Hsh a (pi_fut a)); [left|..].
    + by apply (Hsh b (pi_fut b)); [right; left|..].
Qed.

(** The context of [zip] in place, on the inputs [ja] and [jb]. *)
Definition zip_ready ctx op out y z u fv (ja jb : join_input) (s : st) : Prop :=
  ctx <> NULL /\ ctx ∉ ou_cells op out y [] [] /\ output client op out y [] [] s /\
  heap s !! ctx = Some (OZipContext (MkZipContext op z u (ji_fut ja) (ji_fut jb) zero_result zero_result 2 fv)).

(** Whichever input reports first. *)
Lemma zip_either_order ctx op out y z u fv a b ka kb g s left :
  let ja := place (retained a) [] ka in let jb := place (retained b) [] kb in
  let i := (swap left ja jb).1 in let j := (swap left ja jb).2 in
  half_armed client (ctx :: ou_cells op out y [] []) (some_zip_owns ctx) [jb; ja] [] s ->
  pd_fn ka = CB_sZipFirstContinuation -> pd_fn kb = CB_sZipSecondContinuation -> zip_ready ctx op out y z u fv ja jb s ->
  (1 <= fut_refcount (pi_cell a) < 2 ^ 31 - 1)%Z -> (1 <= fut_refcount (pi_cell b) < 2 ^ 31 - 1)%Z ->
  (res_error (pi_result a) = 0%Z -> res_error (pi_result b) = 0%Z ->
     answers client (K_zip z (res_value (pi_result a)) (res_value (pi_result b)) u) g) ->
  WP (UfsrvPromiseSetResult (ji_prm i) (ji_result i))
    (fun _ s1 => output client op out y [] [] s1 /\ fulfilled (ji_complete i) i s1 /\
       WP (UfsrvPromiseSetResult (ji_prm j) (ji_result j)) (fun _ s' => zip_done ctx op out y [] [] z u fv left i j g s s') s1) s.
Proof.
  intros ja jb i j [Harm _ Hap _ _ _ _] Hka Hkb (Hc0 & Hco & Ho & Hc) Hra Hrb Hans.
  inversion Hap as [|? ? Hba _]; subst. apply Forall_inv in Hba.
  assert (Hja : armed client (ctx :: ou_cells op out y [] []) [] (some_zip_owns ctx) ja s) by (apply Harm; right; by left).
  assert (Hjb : armed client (ctx :: ou_cells op out y [] []) [] (some_zip_owns ctx) jb s) by (apply Harm; by left).
  assert (Hown : forall which cb, armed client (ctx :: ou_cells op out y [] []) [] (some_zip_owns ctx) which s ->
    pd_fn (ji_cont which) = cb -> zip_armed client ctx op out y [] [] which cb s).
  { intros which cb [H1 H2 H3 H4 [H5 H6] H7 H8 H9] Hcb. by split. }
  apply zip_joins; unfold i, j, swap; destruct left; simpl; try lia; try done; try (by apply Hown); try (by apply apart_sym); try done.
  all: unfold zip_answers, swap; simpl; auto.
Qed.

Lemma zip_pipeline_spec a b z u fv g s :
  ready_inputs [a; b] s ->
  (1 <= fut_refcount (pi_cell a) < 2 ^ 31 - 1)%Z -> (1 <= fut_refcount (pi_cell b) < 2 ^ 31 - 1)%Z ->
  (res_error (pi_result a) = 0%Z -> res_error (pi_result b) = 0%Z ->
     answers client (K_zip z (res_value (pi_result a)) (res_value (pi_result b)) u) g) ->
  WP (UfsrvFutureZipEx (pi_fut a) (pi_fut b) (Some z) u fv)
    (fun out s1 => fds s1 = fds s /\ trace s1 = trace s /\ exists op ctx c w ja jb,
       let y := new_future c w in output client op out y [] [] s1 /\ placed_input (retained a) ja /\ placed_input (retained b) jb /\
       forall left, let i := (swap left ja jb).1 in let j := (swap left ja jb).2 in
         WP (UfsrvPromiseSetResult (ji_prm i) (ji_result i))
           (fun _ s2 => output client op out y [] [] s2 /\ fulfilled (ji_complete i) i s2 /\
              WP (UfsrvPromiseSetResult (ji_prm j) (ji_result j))
                (fun _ s3 => zip_done ctx op out y [] [] z u fv left i j g s1 s3) s2) s1) s.
Proof.
  intros Hri Hra Hrb Hans. pose proof Hri as [Hwf Hor _ _ Hexp _]. rewrite Forall_forall in Hexp.
  assert (Hea : expecting client a s) by (apply Hexp; by left). assert (Heb : expecting client b s) by (apply Hexp; right; by left).
  unfold UfsrvFutureZipEx, sFutureZip. rewrite (is_null_false (pi_fut a)) by apply (ex_open _ _ _ Hea).
  rewrite (is_null_false (pi_fut b)) by apply (ex_open _ _ _ Heb). cbn [orb].
  change (bind (UfsrvPromiseCreate false) _) with
    (combinator_prog (fun op => MkZipContext op z u (pi_fut a) (pi_fut b) zero_result zero_result 2 fv)
      (fun ctx out => UfsrvFutureRetain (pi_fut a) ;; UfsrvFutureRetain (pi_fut b) ;;
        let! ok_a := UfsrvFutureThen (pi_fut a) (Some CB_sZipFirstContinuation) ctx in
        if negb ok_a then Ret NULL
        else let! ok_b := UfsrvFutureThen (pi_fut b) (Some CB_sZipSecondContinuation) ctx in
             if negb ok_b then Ret NULL else Ret out)%prog).
  apply combinator_spec; try done. intros op out c w ctx s1 Hpr. pose proof Hpr as [Hou Hc0 Hctx _ _ _ Hf1 Ht1 Hor1 Hwf1].
  pose proof (prepared_inputs _ _ _ _ _ _ _ _ _ (some_zip_owns ctx) Hri Hpr) as Hha. pose proof Hha as [_ Hexp1 _ _ _ _ _].
  eapply wps_seq; [eapply retain_step; [apply Hexp1; by left|done|by apply Hor1|lia]|]. cbn beta. intros _ s2 [Hfi2 Hea2].
  assert (Heb2 : expecting client b s2).
  { eapply expecting_frame; [|apply Hfi2|apply Hexp1; right; by left]. intros p Hp. apply (fi_heap _ _ _ Hfi2). intros ->%list_elem_of_singleton.
    destruct Hha as [_ _ _ Hap _ _ _]. inversion Hap as [|? ? Hab _]; subst. apply Forall_inv in Hab as [Hc _].
    apply (Hc (pi_fut a)); [right; by left|done]. }
  eapply wps_seq; [eapply retain_step; [exact Heb2|apply Hfi2..|lia]|]. cbn beta. intros _ s3 [Hfi3 Heb3].
  pose proof (retained_inputs _ _ _ _ _ _ _ Hha Hfi2 Hea2 Hfi3 Heb3) as Hha3.
  eapply wps_seq; [eapply (zip_place _ _ _ _ (retained a)); [exact Hha3|apply Hfi3..]|]. cbn beta.
  intros ok s4 (-> & na & Hha4 & Hsh4 & Hf4 & Ht4 & Hwf4 & Hor4). cbn [negb].
  eapply wps_seq; [eapply (zip_place _ _ _ _ (retained b)); [exact Hha4|done..]|]. cbn beta.
  intros ok s5 (-> & nb & Hha5 & Hsh5 & Hf5 & Ht5 & _). cbn [negb]. apply wps_ret.
  assert (Hsh : forall p, p ∈ ctx :: ou_cells op out (new_future c w) [] [] -> heap s5 !! p = heap s1 !! p).
  { intros p Hp. destruct Hha as [_ _ _ _ _ Hns _]. rewrite Hsh5, Hsh4, (fi_heap _ _ _ Hfi3), (fi_heap _ _ _ Hfi2); try done;
      intros ->%list_elem_of_singleton.
    - by apply (Hns a (pi_fut a)); [left|right; left|].
    - by apply (Hns b (pi_fut b)); [right; left|right; left|]. }
  pose proof (fi_fds _ _ _ Hfi2). pose proof (fi_fds _ _ _ Hfi3). pose proof (fi_trace _ _ _ Hfi2). pose proof (fi_trace _ _ _ Hfi3).
  split; [congruence|]. split; [congruence|].
  exists op, ctx, c, w, (place (retained a) [] (Pend na CB_sZipFirstContinuation ctx)), (place (retained b) [] (Pend nb CB_sZipSecondContinuation ctx)).
  assert (Hou5 : output client op out (new_future c w) [] [] s5).
  { eapply (output_frame _ _ _ _ _ _ s1); [|by intros; replace (fds s5) with (fds s1) by congruence|exact Hou]. intros p Hp. apply Hsh. by right. }
  split; [done|]. split; [by eexists _, _|]. split; [by eexists _, _|]. intros left. apply zip_either_order; try done.
  split; [done|]. split; [by eapply prepared_apart|]. split; [exact Hou5|]. rewrite Hsh by (by left). exact Hctx.
Qed.
End Pipelines.

(** C32.  [all] over pending inputs, from set-up to completion: the barrier, and fail-fast.
    While memory lasts, [all] returns a new pending future.  Let then any of the inputs'
    promises be fulfilled, in any order.  Every one of these inputs gets its result,
    its waiters and its other continuations served.  As long as some input has not
    reported, the output is pending if no input failed and failed with the first error
    if one did; after the last report it is complete, with the first error or a NULL
    value, and the context is freed. *)
Theorem all_pipeline {E : Ext} {TS : TreiberSpec E} client inputs s :
  client_guar client -> ready_inputs client inputs s ->
  wp (body client) log (UfsrvFutureAll (Some (pi_fut <$> inputs)) (length inputs))
    (fun out s1 => fds s1 = fds s /\ trace s1 = trace s /\ exists op ctx c w js,
       let y := new_future c w in output client op out y [] [] s1 /\ Forall2 placed_input inputs js /\
       any_order client js (all_so_far client ctx op out y (Z.of_nat (length inputs))) s1) s.
Proof. intros Hclient. by apply all_pipeline_spec. Qed.

(** C36.  [any] over pending inputs, from set-up to completion: the first to report wins.
    While memory lasts, [any] returns a new pending future.  Let then any of the
    inputs' promises be fulfilled, in any order.  The output is settled at once with
    the result of the first of them, which is moved out of that input (EINVAL if it
    was moved before); the others keep their results.  Every input has its waiters and
    its other continuations served and its registration freed; the last report frees
    the context. *)
Theorem any_pipeline {E : Ext} {TS : TreiberSpec E} client inputs s :
  client_guar client -> ready_inputs client inputs s ->
  wp (body client) log (UfsrvFutureAny (Some (pi_fut <$> inputs)) (length inputs))
    (fun out s1 => fds s1 = fds s /\ trace s1 = trace s /\ exists op ctx c w js,
       let y := new_future c w in output client op out y [] [] s1 /\ Forall2 placed_input inputs js /\
       any_order client js (any_so_far client ctx op out y (Z.of_nat (length inputs))) s1) s.
Proof. intros Hclient. by apply any_pipeline_spec. Qed.

(** C37.  [zip] over two pending inputs, from set-up to completion.  While memory lasts,
    [zip] returns a new pending future and holds a reference on either input.
    Whichever of the two promises is fulfilled first, the output stays pending until
    the second one is; then it is completed with what the zipper makes of the two
    values, in the order of [zip]'s arguments, or with the error of the first argument,
    or else of the second, or with [-1] if the zipper returns NULL.  The zipper is
    called only if both succeeded.  Both inputs keep their results and have their
    waiters and other continuations served; the references held on them are given
    back, and the context is freed. *)
Theorem zip_pipeline {E : Ext} {TS : TreiberSpec E} client a b z u fv g s :
  client_guar client -> ready_inputs client [a; b] s ->
  (1 <= fut_refcount (pi_cell a) < 2 ^ 31 - 1)%Z -> (1 <= fut_refcount (pi_cell b) < 2 ^ 31 - 1)%Z ->
  (res_error (pi_result a) = 0%Z -> res_error (pi_result b) = 0%Z ->
     answers client (K_zip z (res_value (pi_result a)) (res_value (pi_result b)) u) g) ->
  wp (body client) log (UfsrvFutureZipEx (pi_fut a) (pi_fut b) (Some z) u fv)
    (fun out s1 => fds s1 = fds s /\ trace s1 = trace s /\ exists op ctx c w ja jb,
       let y := new_future c w in output client op out y [] [] s1 /\ placed_input (retained a) ja /\ placed_input (retained b) jb /\
       forall left, let i := (swap left ja jb).1 in let j := (swap left ja jb).2 in
         wp (body client) log (UfsrvPromiseSetResult (ji_prm i) (ji_result i))
           (fun _ s2 => output client op out y [] [] s2 /\ fulfilled (ji_complete i) i s2 /\
              wp (body client) log (UfsrvPromiseSetResult (ji_prm j) (ji_result j))
                (fun _ s3 => zip_done ctx op out y [] [] z u fv left i j g s1 s3) s2) s1) s.
Proof. intros Hclient. by apply zip_pipeline_spec. Qed.

(** ** Witnesses: two pending futures *)
#[local] Existing Instances RefExt.ext RefExt.treiber.

Definition two_creates : cprog unit :=
  (let! _ := UfsrvPromiseCreate false in let! _ := UfsrvPromiseCreate false in Ret tt)%prog.
Definition pending_st : st := after two_creates boot.
(** The first will fail, the second succeed. *)
Definition first_pending : pending_input := PIn 2%N 1%N (new_future 3%N 4%N) [] [] (error_result 7).
Definition second_pending : pending_input := PIn 6%N 5%N (new_future 7%N 8%N) [] [] (MkResult 0 99%N None).

Lemma pending_st_wf : wf_machine pending_st.
Proof.
  apply after_wf; [|apply boot_wf]. unfold two_creates.
  apply guar_bind; [apply (api_guar _ _ (api_promise_create _))|intros _].
  apply guar_bind; [apply (api_guar _ _ (api_promise_create _))|intros; apply guar_ret].
Qed.
(** A pending future of a concrete machine, its fields computed. *)
Ltac compute_open :=
  split; try done; try (vm_compute; reflexivity); try (by intros ? ?%elem_of_nil); try apply NoDup_nil_2;
    (split; [done|]; eexists; split; [vm_compute; reflexivity|by split]).
Lemma two_expecting i : i ∈ [first_pending; second_pending] -> expecting quiet_client i pending_st.
Proof.
  intros [->| ->%list_elem_of_singleton]%elem_of_cons;
    (split; [split; [done|vm_compute; reflexivity]|compute_open|done|by intros ? ?%elem_of_nil]).
Qed.
Lemma two_ready : ready_inputs quiet_client [first_pending; second_pending] pending_st.
Proof.
  split; [apply pending_st_wf|vm_compute; reflexivity|done|simpl; lia|apply Forall_forall; apply two_expecting|].
  repeat constructor; [|by intros ? ?%elem_of_nil]. apply Forall_forall. by apply (bool_decide_unpack _).
Qed.

Lemma all_pipeline_witness :
  wp (body quiet_client) log (UfsrvFutureAll (Some [1%N; 5%N]) 2)
    (fun out s1 => fds s1 = fds pending_st /\ trace s1 = trace pending_st /\ exists op ctx c w js,
       let y := new_future c w in output quiet_client op out y [] [] s1 /\ Forall2 placed_input [first_pending; second_pending] js /\
       any_order quiet_client js (all_so_far quiet_client ctx op out y 2) s1) pending_st.
Proof. apply (all_pipeline quiet_client [first_pending; second_pending]); [apply quiet_guar|apply two_ready]. Defined.

Lemma any_pipeline_witness :
  wp (body quiet_client) log (UfsrvFutureAny (Some [1%N; 5%N]) 2)
    (fun out s1 => fds s1 = fds pending_st /\ trace s1 = trace pending_st /\ exists op ctx c w js,
       let y := new_future c w in output quiet_client op out y [] [] s1 /\ Forall2 placed_input [first_pending; second_pending] js /\
       any_order quiet_client js (any_so_far quiet_client ctx op out y 2) s1) pending_st.
Proof. apply (any_pipeline quiet_client [first_pending; second_pending]); [apply quiet_guar|apply two_ready]. Defined.

(** The second argument of [zip] is fulfilled first; the first one then fails. *)
Lemma zip_pipeline_witness :
  wp (body quiet_client) log (UfsrvFutureZipEx 1%N 5%N (Some 5%N) 50%N None)
    (fun out s1 => wp (body quiet_client) log (UfsrvPromiseSetResult 6%N (MkResult 0 99%N None))
       (fun _ s2 => wp (body quiet_client) log (UfsrvPromiseSetResult 2%N (error_result 7))
          (fun _ s3 => exists op y, received op out y [] [] (error_result 7) s3) s2) s1) pending_st.
Proof.
  eapply wp_mono; [apply (zip_pipeline quiet_client first_pending second_pending 5%N 50%N None 197%N pending_st)|].
  - apply quiet_guar.
  - apply two_ready.
  - simpl. lia.
  - simpl. lia.
  - done.
  - cbn beta. intros out s1 (_ & _ & op & ctx & c & w & ja & jb & _ & (owna & ka & ->) & (ownb & kb & ->) & Hany).
    eapply wp_mono; [exact (Hany false)|]. cbn beta. intros _ s2 (_ & _ & Hw). eapply wp_mono; [exact Hw|].
    intros _ s3 (_ & Hr & _). eexists _, _. exact Hr.
Defined.
