(* ===== verification/SchedulerFacts.v ===== *)
(** * SchedulerFacts: correctness of the single-worker scheduler

    The queue of a scheduler is a list of jobs; [sched_rep] relates it to the
    struct, the MPSC queue and the job nodes.  Specified here: creation and
    destruction, submission on every branch, and the worker: it runs the jobs in
    submission order, including the ones jobs submit, sleeps on the empty queue,
    is woken by a submission or by [Stop], and drains the queue before it exits. *)
From S2P Require Import Prelude Machine Uflib Model Scheduler Dispatch Logic Guarantee.
From S2P Require Import CancellationFacts FutureFacts Demo WaitingFacts.
Local Open Scope prog_scope.

(** A queued job: its node, and what it will call. *)
Record job := Job { jb_node : ptr; jb_fn : job_cb; jb_ctx : ptr }.
Definition label : Type := job_cb * ptr.
Definition jb_label (j : job) : label := (jb_fn j, jb_ctx j).
Definition job_call (l : label) : code := K_job l.1 l.2.
Definition jb_nodes (J : list job) : list ptr := jb_node <$> J.
Definition labels (J : list job) : list label := jb_label <$> J.

Lemma jb_nodes_app J C : jb_nodes (J ++ C) = jb_nodes J ++ jb_nodes C.
Proof. apply fmap_app. Qed.

Section Scheduler.
Context {E : Ext} {MS : MpscSpec E} (client : Client).
#[local] Abbreviation WPS := (wps (body client) log).
#[local] Abbreviation WP := (wp (body client) log).

(** The worker array. *)
Lemma wps_array_get {A} a l i w (k : ptr -> cprog A) Q W Y s :
  heap s !! a = Some (OArray l) -> l !! i = Some w -> WPS (k w) Q W Y s -> WPS (bind (array_get a i) k) Q W Y s.
Proof.
  intros Ha Hi Hk. eapply wps_act; [|exact Hk]. unfold lookup_cell. rewrite Ha. simpl. by rewrite Hi.
Qed.
Lemma wps_array_set {A} a l i v (k : unit -> cprog A) Q W Y s :
  heap s !! a = Some (OArray l) -> i < length l ->
  WPS (k tt) Q W Y (store_cell a (<[i := v]> l) s) -> WPS (bind (array_set a i v) k) Q W Y s.
Proof.
  intros Ha Hi Hk. eapply wps_act; [|exact Hk]. unfold lookup_cell. rewrite Ha. simpl.
  by rewrite bool_decide_eq_true_2.
Qed.

Definition job_node (s : st) (j : job) : Prop :=
  jb_node j <> NULL /\ heap s !! jb_node j = Some (OJob (MkJob (Some (jb_fn j)) (jb_ctx j))).

Record sched_rep (sc : ptr) (x : UfsrvScheduler) (J : list job) (s : st) : Prop := {
  sr_wf : wf_alloc s;
  sr_null : sc <> NULL;
  sr_cell : heap s !! sc = Some (OScheduler x);
  sr_queue : mq_list (sch_queue x) = jb_nodes J;
  sr_jobs j : j ∈ J -> job_node s j;
  sr_nodup : NoDup (jb_nodes J);
  sr_fd : exists n, fds s !! sch_event_fd x = Some n /\ (0 <= n)%Z;
  sr_open : (0 <= sch_event_fd x)%Z;
  sr_name : sch_name x <> NULL -> exists str, heap s !! sch_name x = Some (OString str);
}.

Lemma wf_alloc_store {A} `{!Cell A} p (y : A) o s :
  heap s !! p = Some o -> wf_alloc s -> wf_alloc (store_cell p y s).
Proof.
  intros Hp [Hn Hf]. split; [done|]. intros q Hq. simpl.
  assert (q <> p) by (intros ->; by rewrite Hf in Hp). lk. by apply Hf.
Qed.
Lemma wf_alloc_delete p s : wf_alloc s -> wf_alloc (with_heap (delete p) s).
Proof.
  intros [Hn Hf]. split; [done|]. intros q Hq. simpl. apply lookup_delete_None. right. by apply Hf.
Qed.

Lemma sr_not_job sc x J s p : sched_rep sc x J s -> p ∈ jb_nodes J -> p <> sc /\ p <> NULL.
Proof.
  intros [] (j & -> & Hj)%list_elem_of_fmap. destruct (sr_jobs0 j Hj) as [? Hx]. split; congruence.
Qed.

(** Replacing the struct, with jobs that are in memory. *)
Lemma sched_rep_update sc x y J J' s :
  sched_rep sc x J s -> mq_list (sch_queue y) = jb_nodes J' -> sch_event_fd y = sch_event_fd x ->
  sch_name y = sch_name x -> (forall j, j ∈ J' -> job_node s j) -> NoDup (jb_nodes J') ->
  sched_rep sc y J' (store_cell sc y s).
Proof.
  intros [] Hq Hfd Hnm HJ Hnd. split; simpl; try done.
  - by eapply wf_alloc_store.
  - apply lookup_insert_eq.
  - intros j Hj. destruct (HJ j Hj). split; [done|]. simpl. assert (jb_node j <> sc) by congruence. lk.
  - by rewrite Hfd.
  - by rewrite Hfd.
  - rewrite Hnm. intros [str Hs]%sr_name0. exists str. assert (sch_name x <> sc) by congruence. lk.
Qed.
Lemma sched_rep_set sc x y J s :
  sched_rep sc x J s -> sch_queue y = sch_queue x -> sch_event_fd y = sch_event_fd x ->
  sch_name y = sch_name x -> sched_rep sc y J (store_cell sc y s).
Proof. intros Hr Hq Hfd Hnm. pose proof Hr as []. eapply sched_rep_update; try done. by rewrite Hq. Qed.
(** Changing only descriptors, oracle or history. *)
Lemma sched_rep_env sc x J s s' :
  sched_rep sc x J s -> heap s' = heap s -> next_ptr s' = next_ptr s ->
  (exists n, fds s' !! sch_event_fd x = Some n /\ (0 <= n)%Z) -> sched_rep sc x J s'.
Proof.
  intros [] Hh Hn Hfd. split; try done; try by rewrite Hh.
  - destruct sr_wf0. split; rewrite ?Hn, ?Hh; auto.
  - intros j Hj. destruct (sr_jobs0 j Hj). split; [done|by rewrite Hh].
Qed.
(** Freeing a job that is not queued. *)
Lemma sched_rep_free sc x J s n y :
  sched_rep sc x J s -> heap s !! n = Some (OJob y) -> n ∉ jb_nodes J ->
  sched_rep sc x J (with_heap (delete n) s).
Proof.
  intros [] Hn HnJ. split; simpl; try done.
  - by apply wf_alloc_delete.
  - lk.
  - intros j Hj. destruct (sr_jobs0 j Hj). split; [done|]. simpl.
    assert (jb_node j <> n) by (intros <-; apply HnJ; by apply list_elem_of_fmap_2). lk.
  - intros [str Hs]%sr_name0. exists str. assert (sch_name x <> n) by congruence. lk.
Qed.

Definition popped (x : UfsrvScheduler) : UfsrvScheduler := set_sch_queue (mq_pop (sch_queue x)).2 x.

Lemma sched_rep_pop sc x j J s :
  sched_rep sc x (j :: J) s ->
  (mq_pop (sch_queue x)).1 = Some (jb_node j) /\ job_node s j /\ jb_node j ∉ jb_nodes J /\
  sched_rep sc (popped x) J (store_cell sc (popped x) s).
Proof.
  intros Hr. pose proof Hr as []. apply NoDup_cons in sr_nodup0 as [Hnj Hnd].
  split_and!; [by rewrite mq_pop_head, sr_queue0|apply sr_jobs0; by left|done|].
  eapply sched_rep_update; try done; simpl.
  - by rewrite mq_pop_list, sr_queue0.
  - intros k Hk. apply sr_jobs0. by right.
Qed.
Lemma sched_rep_pop_empty sc x s :
  sched_rep sc x [] s ->
  (mq_pop (sch_queue x)).1 = None /\ sched_rep sc (popped x) [] (store_cell sc (popped x) s).
Proof.
  intros Hr. pose proof Hr as []. split; [by rewrite mq_pop_head, sr_queue0|].
  eapply sched_rep_update; try done. simpl. by rewrite mq_pop_list, sr_queue0.
Qed.

(** ** The jobs

    Running a job may submit others: [children l C] says a job labelled [l] can
    submit jobs labelled [C], in this order.  A job does not touch the scheduler
    otherwise, except that it may stop it.  [cost l] bounds what the job and its
    descendants add to the eventfd counter, which must not overflow: a write to a
    full counter blocks. *)
Section Jobs.
Context (children : label -> list label -> Prop) (T : list code -> Prop) (cost : label -> nat).

Record advances (x : UfsrvScheduler) (s : st) (x' : UfsrvScheduler) (s' : st) : Prop := {
  adv_fd : sch_event_fd x' = sch_event_fd x;
  adv_thread : sch_thread x' = sch_thread x;
  adv_name : sch_name x' = sch_name x;
  adv_started : sch_is_started x' = sch_is_started x;
  adv_joined : sch_is_joined x' = sch_is_joined x;
  adv_stop : sch_is_running x = false -> sch_is_running x' = false;
  adv_cur : cur s' = cur s;
}.
Lemma advances_trans x s y u z w : advances x s y u -> advances y u z w -> advances x s z w.
Proof. intros [] []. split; try congruence; auto. Qed.

Definition well_behaved (sc : ptr) (l : label) : Prop :=
  forall n x J s, sched_rep sc x J s -> heap s !! n = Some (OJob (MkJob (Some l.1) l.2)) ->
    n ∉ jb_nodes J ->
    forall m, fds s !! sch_event_fd x = Some m -> (m + Z.of_nat (cost l) <= 2 ^ 64 - 2)%Z ->
    WP (body client (job_call l))
      (fun _ s' => exists x' C, sched_rep sc x' (J ++ C) s' /\ children l (labels C) /\ advances x s x' s' /\
         heap s' !! n = heap s !! n /\ n ∉ jb_nodes C /\
         (exists m', fds s' !! sch_event_fd x = Some m' /\
            (m' + Z.of_nat (sum_list_with cost (labels C)) <= m + Z.of_nat (cost l))%Z) /\
         exists tr, T tr /\ trace s' = trace s ++ tr) s.

(** The order in which a FIFO server runs jobs, the submitted ones included. *)
Inductive fifo : list label -> list label -> Prop :=
| fifo_nil : fifo [] []
| fifo_cons l Q C R : children l C -> fifo (Q ++ C) R -> fifo (l :: Q) (l :: R).

(** One job: run, then freed. *)
Lemma sRunJob_spec sc x j J s m :
  well_behaved sc (jb_label j) -> sched_rep sc x J s -> job_node s j -> jb_node j ∉ jb_nodes J ->
  fds s !! sch_event_fd x = Some m -> (m + Z.of_nat (cost (jb_label j)) <= 2 ^ 64 - 2)%Z ->
  WP (sRunJob (jb_node j))
    (fun _ s' => exists x' C, sched_rep sc x' (J ++ C) s' /\ children (jb_label j) (labels C) /\ advances x s x' s' /\
       (exists m', fds s' !! sch_event_fd x = Some m' /\
          (m' + Z.of_nat (sum_list_with cost (labels C)) <= m + Z.of_nat (cost (jb_label j)))%Z) /\
       exists tr, T tr /\ trace s' = (trace s ++ [job_call (jb_label j)]) ++ tr) s.
Proof.
  intros Hb Hr [Hn Hj] HnJ Hm Hmax. unfold sRunJob. wp_steps. simpl. eapply wp_call_bind.
  { eapply (Hb (jb_node j) x J); [|done|done|exact Hm|done]. eapply sched_rep_env; [done..|by apply sr_fd in Hr]. }
  simpl. intros _ s1 (x' & C & Hr' & Hc & Ha & Hh & HnC & Hm' & tr & HT & Htr).
  rewrite Hj in Hh. wp_steps. exists x', C. split_and!; try done; [|by destruct Ha|by exists tr].
  eapply sched_rep_free; [done|exact Hh|]. rewrite jb_nodes_app. set_solver.
Qed.
End Jobs.

(** A closed set of jobs whose submissions die out: what the worker is given. *)
Record workload (sc : ptr) := {
  wl_good : label -> Prop;
  wl_children : label -> list label -> Prop;
  wl_calls : list code -> Prop;
  wl_cost : label -> nat;
  wl_behaves l : wl_good l -> well_behaved wl_children wl_calls wl_cost sc l;
  wl_closed l C : wl_good l -> wl_children l C -> Forall wl_good C;
  wl_smaller l C : wl_good l -> wl_children l C -> sum_list_with wl_cost C < wl_cost l;
}.

Section Worker.
Context (sc : ptr) (wl : workload sc).
#[local] Abbreviation good := (wl_good sc wl).
#[local] Abbreviation runs := (fifo (wl_children sc wl)).
#[local] Abbreviation called R := (made (wl_calls sc wl) (job_call <$> R)).
Definition pending_cost (J : list job) : nat := sum_list_with (wl_cost sc wl) (labels J).

(** The eventfd counter has room for the writes still to come. *)
Definition room (J : list job) (x : UfsrvScheduler) (s : st) : Prop :=
  exists n, fds s !! sch_event_fd x = Some n /\ (n + Z.of_nat (pending_cost J) <= 2 ^ 64 - 2)%Z.

Lemma pending_cons j J : pending_cost (j :: J) = wl_cost sc wl (jb_label j) + pending_cost J.
Proof. done. Qed.
Lemma pending_app J C : pending_cost (J ++ C) = pending_cost J + pending_cost C.
Proof. unfold pending_cost, labels. by rewrite fmap_app, sum_list_with_app. Qed.
Lemma room_step j J C x x' s s' m m' :
  (m + Z.of_nat (pending_cost (j :: J)) <= 2 ^ 64 - 2)%Z -> advances x s x' s' ->
  fds s' !! sch_event_fd x = Some m' ->
  (m' + Z.of_nat (pending_cost C) <= m + Z.of_nat (wl_cost sc wl (jb_label j)))%Z -> room (J ++ C) x' s'.
Proof.
  intros Hm Ha Hf Hm'. exists m'. rewrite (adv_fd _ _ _ _ Ha), pending_app. rewrite pending_cons in Hm.
  split; [done|lia].
Qed.

Lemma cost_step j J C :
  good (jb_label j) -> wl_children sc wl (jb_label j) (labels C) ->
  pending_cost (J ++ C) < pending_cost (j :: J).
Proof.
  intros Hg Hc. pose proof (wl_smaller _ wl _ _ Hg Hc). rewrite pending_cons, pending_app.
  unfold pending_cost in *. lia.
Qed.
Lemma good_step j J C :
  Forall good (labels (j :: J)) -> wl_children sc wl (jb_label j) (labels C) ->
  Forall good (labels (J ++ C)).
Proof.
  intros [Hj HJ]%Forall_cons Hc. unfold labels. rewrite fmap_app. apply Forall_app.
  split; [done|]. by eapply wl_closed.
Qed.

(** *** The final drain runs everything *)
Lemma drain_spec J x s :
  Forall good (labels J) -> sched_rep sc x J s -> room J x s ->
  WP (sWorkerMain_drain sc)
    (fun _ s' => exists x' R, runs (labels J) R /\ sched_rep sc x' [] s' /\ advances x s x' s' /\
       called R (trace s) (trace s')) s.
Proof.
  remember (pending_cost J) as n eqn:Hn. revert J x s Hn.
  induction (lt_wf n) as [n _ IH]. intros J x s -> Hg Hr (m & Hm & Hmax). unfold sWorkerMain_drain, mpsc_queue_pop.
  pose proof (sr_cell _ _ _ _ Hr). destruct J as [|j J].
  - destruct (sched_rep_pop_empty _ _ _ Hr) as [Hp Hr']. wp_steps. rewrite Hp. wp_steps.
    exists (popped x), []. split_and!; [constructor|done|done|apply made_nil].
  - destruct (sched_rep_pop _ _ _ _ _ Hr) as (Hp & Hj & HnJ & Hr'). wp_steps. rewrite Hp.
    pose proof Hg as [Hgj _]%Forall_cons. eapply wps_seq.
    { eapply sRunJob_spec; [by apply wl_behaves|exact Hr'| |done|done|rewrite pending_cons in Hmax; lia]. destruct Hj as [? Hj]. split; [done|].
      simpl. assert (jb_node j <> sc) by congruence. lk. }
    simpl. intros _ s1 (x1 & C & Hr1 & Hc & Ha & (m1 & Hm1 & Hmax1) & tr & HT & Htr).
  assert (Hroom : room (J ++ C) x1 s1) by (eapply (room_step j J C x x1 s s1); [exact Hmax|by destruct Ha; split|exact Hm1|exact Hmax1]).
    eapply wp_call_bind.
    { eapply (IH _ (cost_step _ J _ Hgj Hc)); [done|by eapply good_step|exact Hr1|done]. }
    simpl. intros _ s2 (x2 & R & HR & Hr2 & Ha2 & Htr2). wp_steps.
    exists x2, (jb_label j :: R). split_and!; [|done| |].
    + econstructor; [exact Hc|]. unfold labels in HR. by rewrite fmap_app in HR.
    + eapply advances_trans; [by destruct Ha; split|done].
    + simpl. eapply made_cons; [exact HT|]. by rewrite <- Htr.
Qed.

(** *** Sleeping

    [p] is a worker asleep in the loop, with [k] to do after it: once its
    descriptor is readable it goes round the loop again. *)
Definition dozing {A} (fd : Z) (k p : cprog A) : Prop :=
  forall x J s Q W Y,
    sched_rep sc x J s -> sch_event_fd x = fd -> (exists n, fds s !! fd = Some n /\ n <> 0%Z) ->
    (forall s', sched_rep sc x J s' -> trace s' = trace s -> cur s' = cur s ->
       (exists n n', fds s !! fd = Some n /\ fds s' !! fd = Some n' /\ (n' <= n)%Z) ->
       WPS (sWorkerMain_loop sc) (fun _ u => WPS k Q W Y u) (fun q u => W (bind q (fun _ => k)) u)
         (fun q u => Y (bind q (fun _ => k)) u) s') ->
    WPS p Q W Y s.

Lemma dozing_bind {A} fd (k : cprog A) p : dozing fd (Ret NULL) p -> dozing fd k (bind p (fun _ => k)).
Proof.
  intros Hp x J s Q W Y Hr Hfd Hn Hk. apply wps_bind. eapply Hp; [done..|]. intros s' Hr' Htr Hc Hle.
  eapply wps_mono; [by apply Hk|..]; simpl; intros.
  - by apply wps_ret.
  - by rewrite bind_bind.
  - by rewrite bind_bind.
Qed.

(** Reading the eventfd: empty and not interrupted, the worker sleeps. *)
Definition idle_rest (event_fd : Z) : cprog ptr :=
  let! n := eventfd_read event_fd in
  match n with
  | READ_ebadf => Ret NULL
  | _ => call (L_worker sc) ;; Ret NULL
  end.

Lemma again_spec (Q : ptr -> st -> Prop) W Y s :
  WPS (sWorkerMain_loop sc) (fun _ u => Q NULL u) (fun q u => W (bind q (fun _ => Ret NULL)) u)
    (fun q u => Y (bind q (fun _ => Ret NULL)) u) s ->
  WPS (call (L_worker sc) ;; Ret NULL)%prog Q W Y s.
Proof.
  intros H. apply wps_call_bind. eapply wps_mono; [exact H|..]; simpl; try done.
  intros _ u Hu. by apply wps_ret.
Qed.

Lemma idle_dozing fd : dozing fd (Ret NULL) (idle_rest fd).
Proof.
  intros x J s Q W Y Hr Hfd (n & Hn & Hn0) Hk. pose proof (sr_fd _ _ _ _ Hr) as (n' & Hn' & Hpos).
  rewrite Hfd in Hn'. simplify_eq.
  assert (Hgo : forall s' m, heap s' = heap s -> next_ptr s' = next_ptr s -> trace s' = trace s -> cur s' = cur s ->
    fds s' !! sch_event_fd x = Some m -> (0 <= m <= n)%Z ->
    WPS (call (L_worker sc) ;; Ret NULL)%prog Q W Y s').
  { intros s' m Hh Hnp Ht Hc Hm Hle. apply again_spec. eapply wps_mono; [apply Hk|..]; simpl; try done.
    - eapply sched_rep_env; try done. exists m. split; [done|lia].
    - exists n, m. split_and!; try done. lia.
    - intros _ u [[|?] Hu]; done. }
  unfold idle_rest. destruct (take_oracle s) as [b s1] eqn:Ho.
  assert (Hs1 : s1 = with_oracle (oracle s1) s).
  { unfold take_oracle in Ho. destruct s; simpl in *. by case_match; simplify_eq. }
  destruct b; (eapply wps_act; [rewrite Hn, Ho, ?bool_decide_eq_false_2 by done; reflexivity|]);
    simpl; rewrite Hs1.
  - eapply (Hgo _ n); [done..|lia].
  - eapply (Hgo _ 0%Z); [done..|apply lookup_insert_eq|lia].
Qed.

Definition loop_exit (J : list job) (x0 : UfsrvScheduler) (s0 s' : st) : Prop :=
  exists x' J1 R1, sched_rep sc x' J1 s' /\ Forall good (labels J1) /\ room J1 x' s' /\ sch_is_running x' = false /\
    advances x0 s0 x' s' /\ called R1 (trace s0) (trace s') /\
    forall R2, runs (labels J1) R2 -> runs (labels J) (R1 ++ R2).
Definition loop_sleep (J : list job) (x0 : UfsrvScheduler) (s0 : st) (p : cprog ptr) (s' : st) : Prop :=
  exists x' R, runs (labels J) R /\ sched_rep sc x' [] s' /\ sch_is_running x' = true /\ advances x0 s0 x' s' /\
    called R (trace s0) (trace s') /\ fds s' !! sch_event_fd x0 = Some 0%Z /\ dozing (sch_event_fd x0) (Ret NULL) p.
(** An empty queue: the worker reads its descriptor until it sleeps. *)
Lemma loop_to_idle x s (Q : ptr -> st -> Prop) W Y :
  sched_rep sc x [] s -> sch_is_running x = true ->
  (forall s', s' = store_cell sc (popped x) s -> sched_rep sc (popped x) [] s' ->
    WPS (idle_rest (sch_event_fd x)) Q W Y s') ->
  WPS (sWorkerMain_loop sc) Q W Y s.
Proof.
  intros Hr Hrun Hk. pose proof (sr_cell _ _ _ _ Hr). destruct (sched_rep_pop_empty _ _ _ Hr) as [Hp Hr'].
  unfold sWorkerMain_loop, mpsc_queue_pop. wp_steps. rewrite Hrun. simpl. wp_steps. rewrite Hp. wp_steps.
  rewrite Hrun. simpl. wp_steps. by apply Hk.
Qed.

#[local] Abbreviation SERVES J x s0 s :=
  (WPS (sWorkerMain_loop sc) (fun _ => loop_exit J x s0) (loop_sleep J x s0) (fun _ _ => False) s).
Lemma again_loop J x s0 s :
  SERVES J x s0 s ->
  WPS (call (L_worker sc) ;; Ret NULL)%prog (fun _ => loop_exit J x s0) (loop_sleep J x s0) (fun _ _ => False) s.
Proof.
  intros H. apply again_spec. eapply wps_mono; [exact H|..]; simpl; try done.
  intros p u (x' & R & ? & ? & ? & ? & ? & ? & Hd). exists x', R. split_and!; try done. by apply dozing_bind.
Qed.

Lemma loop_idle x s n :
  sched_rep sc x [] s -> sch_is_running x = true -> fds s !! sch_event_fd x = Some n ->
  (0 <= n)%Z -> SERVES [] x s s.
Proof.
  intros Hr Hrun Hn Hpos.
  assert (Hsleep : forall y u, sched_rep sc y [] u -> sch_is_running y = true -> sch_event_fd y = sch_event_fd x ->
    trace u = trace s -> cur u = cur s ->
    (sch_thread y, sch_name y, sch_is_started y, sch_is_joined y) =
    (sch_thread x, sch_name x, sch_is_started x, sch_is_joined x) -> fds u !! sch_event_fd x = Some 0%Z -> loop_sleep [] x s (idle_rest (sch_event_fd x)) u).
  { intros y u Hy Hyr Hyf Hu Hcu Hfl Hz. exists y, []. split_and!; try done; [constructor| |rewrite Hu; apply made_nil|].
    - split; congruence.
    - apply idle_dozing. }
  (* on an empty counter, after any number of interruptions *)
  assert (H0 : forall o y u, oracle u = o -> sched_rep sc y [] u -> sch_is_running y = true ->
    sch_event_fd y = sch_event_fd x -> trace u = trace s -> cur u = cur s ->
    (sch_thread y, sch_name y, sch_is_started y, sch_is_joined y) =
    (sch_thread x, sch_name x, sch_is_started x, sch_is_joined x) -> fds u !! sch_event_fd x = Some 0%Z -> SERVES [] x s u).
  { induction o as [|b o IH]; intros y u Ho Hy Hyr Hyf Hu Hcu Hfl Hz; eapply loop_to_idle; try done; intros u' -> Hy';
      rewrite Hyf; unfold idle_rest;
      [|destruct b]; [eapply wps_block|eapply wps_act|eapply wps_block];
      try (simpl; rewrite Hz; unfold take_oracle; simpl; rewrite Ho; reflexivity);
      [by eapply (Hsleep (popped y))| |by eapply (Hsleep (popped y))].
    apply again_loop. eapply (IH (popped y)); try done. eapply sched_rep_env; [exact Hy'|done|done|].
    simpl. rewrite Hyf. by exists 0%Z. }
  destruct (decide (n = 0%Z)) as [->|Hn0]; [by eapply H0|].
  (* on a full one *)
  assert (H1 : forall o y u, oracle u = o -> sched_rep sc y [] u -> sch_is_running y = true ->
    sch_event_fd y = sch_event_fd x -> trace u = trace s -> cur u = cur s ->
    (sch_thread y, sch_name y, sch_is_started y, sch_is_joined y) =
    (sch_thread x, sch_name x, sch_is_started x, sch_is_joined x) -> fds u !! sch_event_fd x = Some n -> SERVES [] x s u).
  { induction o as [|b o IH]; intros y u Ho Hy Hyr Hyf Hu Hcu Hfl Hz; eapply loop_to_idle; try done; intros u' -> Hy';
      rewrite Hyf; unfold idle_rest; [|destruct b];
      (eapply wps_act; [simpl; rewrite Hz; unfold take_oracle; simpl; rewrite Ho, ?bool_decide_eq_false_2 by done; reflexivity|]);
      apply again_loop.
    - eapply (H0 _ (popped y)); try done; [|simpl; by rewrite lookup_insert_eq].
      eapply sched_rep_env; [exact Hy'|done|done|]. simpl. rewrite Hyf, lookup_insert_eq. by exists 0%Z.
    - eapply (IH (popped y)); try done. eapply sched_rep_env; [exact Hy'|done|done|]. simpl. rewrite Hyf. by exists n.
    - eapply (H0 _ (popped y)); try done; [|simpl; by rewrite lookup_insert_eq].
      eapply sched_rep_env; [exact Hy'|done|done|]. simpl. rewrite Hyf, lookup_insert_eq. by exists 0%Z. }
  by eapply H1.
Qed.

Lemma loop_exit_now J x s :
  Forall good (labels J) -> sched_rep sc x J s -> room J x s -> sch_is_running x = false -> loop_exit J x s s.
Proof. intros. exists x, J, []. split_and!; try done; apply made_nil. Qed.
Lemma loop_exit_cons j J C x x1 s0 s1 tr s :
  wl_children sc wl (jb_label j) (labels C) -> advances x s0 x1 s1 -> wl_calls sc wl tr ->
  trace s1 = (trace s0 ++ [job_call (jb_label j)]) ++ tr ->
  loop_exit (J ++ C) x1 s1 s -> loop_exit (j :: J) x s0 s.
Proof.
  intros Hc Ha HT Htr (x' & J1 & R1 & ? & ? & ? & ? & Ha' & Hm & HR). rewrite Htr in Hm. exists x', J1, (jb_label j :: R1).
  split_and!; try done; [by eapply advances_trans|simpl; by eapply made_cons|].
  intros R2 HR2. simpl. econstructor; [exact Hc|]. specialize (HR _ HR2).
  unfold labels in HR. by rewrite fmap_app in HR.
Qed.
Lemma loop_sleep_cons j J C x x1 s0 s1 tr p s :
  wl_children sc wl (jb_label j) (labels C) -> advances x s0 x1 s1 -> wl_calls sc wl tr ->
  trace s1 = (trace s0 ++ [job_call (jb_label j)]) ++ tr ->
  loop_sleep (J ++ C) x1 s1 p s -> loop_sleep (j :: J) x s0 p s.
Proof.
  intros Hc Ha HT Htr (x' & R & HR & ? & ? & Ha' & Hm & Hz & Hd). rewrite Htr in Hm. exists x', (jb_label j :: R).
  rewrite (adv_fd _ _ _ _ Ha) in Hz, Hd.
  split_and!; try done; [|by eapply advances_trans|simpl; by eapply made_cons].
  econstructor; [exact Hc|]. unfold labels in HR. by rewrite fmap_app in HR.
Qed.

Lemma loop_spec J x s :
  Forall good (labels J) -> sched_rep sc x J s -> room J x s -> SERVES J x s s.
Proof.
  remember (pending_cost J) as n eqn:Hn. revert J x s Hn.
  induction (lt_wf n) as [n _ IH]. intros J x s -> Hg Hr (m & Hm & Hmax).
  pose proof (sr_cell _ _ _ _ Hr). destruct (sch_is_running x) eqn:Hrun; cycle 1.
  { unfold sWorkerMain_loop. wp_steps. rewrite Hrun. simpl. wp_steps. apply loop_exit_now; try done. by exists m. }
  destruct J as [|j J].
  { destruct (sr_fd _ _ _ _ Hr) as (m' & Hm' & Hpos). by eapply loop_idle. }
  destruct (sched_rep_pop _ _ _ _ _ Hr) as (Hp & Hj & HnJ & Hr').
  unfold sWorkerMain_loop, mpsc_queue_pop. wp_steps. rewrite Hrun. simpl. wp_steps. rewrite Hp.
  pose proof Hg as [Hgj _]%Forall_cons. eapply wps_seq.
  { eapply sRunJob_spec; [by apply wl_behaves|exact Hr'| |done|done|rewrite pending_cons in Hmax; lia]. destruct Hj as [? Hj]. split; [done|].
    simpl. assert (jb_node j <> sc) by congruence. lk. }
  simpl. intros _ s1 (x1 & C & Hr1 & Hc & Ha & (m1 & Hm1 & Hmax1) & tr & HT & Htr).
  assert (Hroom : room (J ++ C) x1 s1) by (eapply (room_step j J C x x1 s s1); [exact Hmax|by destruct Ha; split|exact Hm1|exact Hmax1]).
  assert (Ha1 : advances x s x1 s1) by (by destruct Ha; split).
  eapply wps_mono; [apply (again_loop (J ++ C) x1 s1)|..].
  - eapply (IH _ (cost_step _ J _ Hgj Hc)); [done|by eapply good_step|exact Hr1|done].
  - intros a s2. by eapply loop_exit_cons.
  - intros p s2. by eapply loop_sleep_cons.
  - done.
Qed.

(** *** The worker's thread function *)
Definition after_loop : cprog ptr :=
  call (L_worker_drain sc) ;;
  tls_set (set_t_worker_scheduler NULL) ;;
  pthread_exit ;;
  Ret NULL.

(** Everything has been run: the jobs of [J] and those they led to, in order; and
    the thread is gone, or asleep with its scheduler still running. *)
Definition served (J : list job) (x0 : UfsrvScheduler) (s0 s' : st) : Prop :=
  exists x' R, runs (labels J) R /\ sched_rep sc x' [] s' /\ advances x0 s0 x' s' /\
    sch_is_running x' = false /\ called R (trace s0) (trace s') /\
    t_worker_scheduler (tls_of s') = NULL /\ cur s' ∈ exited s'.
Definition asleep_in (J : list job) (x0 : UfsrvScheduler) (s0 : st) (p : cprog ptr) (s' : st) : Prop :=
  exists x' R, runs (labels J) R /\ sched_rep sc x' [] s' /\ sch_is_running x' = true /\ advances x0 s0 x' s' /\
    called R (trace s0) (trace s') /\ fds s' !! sch_event_fd x0 = Some 0%Z /\
    dozing (sch_event_fd x0) after_loop p.

Lemma wps_exit {A} (k : unit -> cprog A) Q W Y s :
  WPS (k tt) Q W Y (with_exited (cur s) s) -> WPS (bind pthread_exit k) Q W Y s.
Proof. intros Hk. by eapply wps_act. Qed.

Lemma after_loop_spec J x s0 s :
  loop_exit J x s0 s -> WP after_loop (fun r s' => r = NULL /\ served J x s0 s') s.
Proof.
  intros (x1 & J1 & R1 & Hr & Hg & Hrm & Hrun & Ha & Hm & HR). unfold after_loop.
  eapply wp_call_bind; [by eapply drain_spec|].
  simpl. intros _ s1 (x2 & R2 & HR2 & Hr2 & Ha2 & Hm2). wp_steps. apply wps_exit. wp_steps.
  split; [done|]. exists x2, (R1 ++ R2). split_and!; [by apply HR|by destruct Hr2| | | | |].
  - eapply advances_trans; [done|]. by destruct Ha2.
  - by apply (adv_stop _ _ _ _ Ha2).
  - rewrite fmap_app. by eapply made_app.
  - unfold tls_of. simpl. by rewrite lookup_insert_eq.
  - simpl. set_solver.
Qed.

(** One turn of the worker, from its loop to its end or to its next sleep. *)
Lemma turn_spec J x s :
  Forall good (labels J) -> sched_rep sc x J s -> room J x s ->
  WPS (sWorkerMain_loop sc)
    (fun _ u => WPS after_loop (fun r s' => r = NULL /\ served J x s s')
                  (asleep_in J x s) (fun _ _ => False) u)
    (fun p u => asleep_in J x s (bind p (fun _ => after_loop)) u) (fun _ _ => False) s.
Proof.
  intros Hg Hr Hrm. eapply wps_mono; [by apply loop_spec|..]; simpl; try done.
  - intros _ u Hu. eapply wps_mono; [by apply after_loop_spec|..]; naive_solver.
  - intros p u (x' & R & ? & ? & ? & ? & ? & ? & Hd). exists x', R. split_and!; try done.
    by apply dozing_bind.
Qed.
End Worker.
End Scheduler.
