(* ===== verification/SchedulerLife.v ===== *)
(** * SchedulerLife: the life of a scheduler, from creation to destruction

    Submission and [Stop] on every branch, the worker that serves them, [Destroy]
    on a running, a stopped and a never-started scheduler, and [Create]. *)
From S2P Require Import Prelude Machine Uflib Model Scheduler Dispatch Logic Guarantee.
From S2P Require Import CancellationFacts FutureFacts Demo WaitingFacts SchedulerFacts.
Local Open Scope prog_scope.

Section Life.
Context {E : Ext} {MS : MpscSpec E} (client : Client).
#[local] Abbreviation WPS := (wps (body client) log).
#[local] Abbreviation WP := (wp (body client) log).

Lemma wps_join {A} t (k : unit -> cprog A) Q W Y s :
  t ∈ exited s -> WPS (k tt) Q W Y s -> WPS (bind (pthread_join t) k) Q W Y s.
Proof. intros Ht Hk. eapply wps_act; [by rewrite bool_decide_eq_true_2|done]. Qed.

(** Allocation fails only when the platform says so. *)
Lemma sched_rep_grow sc x J s s' :
  sched_rep sc x J s -> heap s' = heap s -> (next_ptr s <= next_ptr s')%N -> fds s' = fds s ->
  sched_rep sc x J s'.
Proof.
  intros [] Hh Hn Hfd. split; try done; try by rewrite ?Hh, ?Hfd.
  - destruct sr_wf as [Hp Hf]. split; [lia|]. intros p Hle. rewrite Hh. apply Hf. lia.
  - intros j Hj. destruct (sr_jobs j Hj). split; [done|by rewrite Hh].
Qed.

(** What a submission to [sc] makes of the struct. *)
Definition queued (p : ptr) (x : UfsrvScheduler) : UfsrvScheduler :=
  set_sch_queue (mq_insert p (sch_queue x)) x.

Lemma Submit_spec fn ctx sc x J s n :
  sched_rep sc x J s -> fds s !! sch_event_fd x = Some n -> (n + 1 <= 2 ^ 64 - 2)%Z ->
  WP (UfsrvSchedulerSubmit sc (Some fn) ctx)
    (fun ok s' => trace s' = trace s /\ (cur s' = cur s /\ (oracle s = [] -> oracle s' = [])) /\
       if ok : bool then sch_is_running x = true /\ exists p, heap s !! p = None /\
         sched_rep sc (queued p x) (J ++ [Job p fn ctx]) s' /\
         fds s' = <[sch_event_fd x := (n + 1)%Z]> (fds s) /\
         (forall q, q <> sc -> q <> p -> heap s' !! q = heap s !! q)
       else heap s' = heap s /\ fds s' = fds s /\ sched_rep sc x J s' /\
         (oracle s = [] -> sch_is_running x = false)) s.
Proof.
  intros Hr Hn Hmax. pose proof Hr as []. unfold UfsrvSchedulerSubmit, sSubmitToScheduler, mpsc_queue_insert.
  rewrite (is_null_false sc) by done. pose proof sr_wf as [Hpos Hfresh].
  assert (Hnew : heap s !! next_ptr s = None) by (apply Hfresh; lia).
  assert (Hne : next_ptr s <> NULL) by (unfold NULL; lia).
  assert (Hnsc : next_ptr s <> sc) by congruence.
  apply (wps_alloc_or_oom _ (MkJob (Some fn) ctx)); [done|..]; intros o.
  - intros Ho. change (is_null NULL) with true. wp_steps. simpl. split_and!; try done.
  - intros Ho. rewrite (is_null_false (next_ptr s)) by done. wp_steps.
    destruct (sch_is_running x) eqn:Hrun; simpl; wp_steps; [|simpl; split_and!; try done].
    + eapply wps_write; [exact Hn|done|]. wp_steps. split_and!; try done; try exact Ho.
      exists (next_ptr s). split_and!; try done; [|intros; simpl; lk].
      set (s1 := with_next_ptr (next_ptr s + 1) (store_cell (next_ptr s) (MkJob (Some fn) ctx) (with_oracle o s))).
      assert (Hr1 : sched_rep sc x J s1).
      { assert (Hold : forall p ob, heap s !! p = Some ob -> heap s1 !! p = Some ob)
          by (intros p ob Hp; assert (p <> next_ptr s) by congruence; simpl; lk).
        split; try done; [by apply wf_alloc_new|by apply Hold| |].
        - intros j Hj. destruct (sr_jobs j Hj). split; [done|by apply Hold].
        - intros [str ?]%sr_name. exists str. by apply Hold. }
      eapply (sched_rep_env _ _ _ (store_cell sc (queued (next_ptr s) x) s1)); try done.
      * eapply sched_rep_update; try done.
        -- simpl. by rewrite mq_insert_list, sr_queue, jb_nodes_app.
        -- intros j [Hj| ->%list_elem_of_singleton]%elem_of_app; [by apply Hr1|]. split; [done|]. simpl; lk.
        -- rewrite jb_nodes_app. apply NoDup_app. split_and!; [done| |apply NoDup_singleton].
           intros p Hp ->%list_elem_of_singleton. apply list_elem_of_fmap in Hp as (j & Hj & Hin).
           destruct (sr_jobs j Hin) as [_ Hx]. simpl in *. congruence.
      * simpl. rewrite lookup_insert_eq. exists (n + 1)%Z. split; [done|].
        destruct sr_fd as (m & Hm & ?). simplify_eq. lia.
    + by rewrite delete_insert_id.
    + eapply sched_rep_grow; [exact Hr|simpl; by rewrite delete_insert_id|simpl; lia|done].
Qed.

Lemma Stop_spec sc x J s n :
  sched_rep sc x J s -> fds s !! sch_event_fd x = Some n -> (n + 1 <= 2 ^ 64 - 2)%Z ->
  WP (UfsrvSchedulerStop sc)
    (fun _ s' => trace s' = trace s /\ cur s' = cur s /\ exited s' = exited s /\
       sched_rep sc (set_sch_is_running false x) J s' /\
       fds s' = <[sch_event_fd x := (n + 1)%Z]> (fds s) /\
       (forall q, q <> sc -> heap s' !! q = heap s !! q)) s.
Proof.
  intros Hr Hn Hmax. pose proof Hr as []. unfold UfsrvSchedulerStop.
  rewrite (is_null_false sc) by done. wp_steps. eapply wps_write; [exact Hn|done|]. wp_steps.
  split_and!; try done; [|intros; simpl; lk].
  eapply (sched_rep_env _ _ _ (store_cell sc (set_sch_is_running false x) s)); try done.
  - by eapply sched_rep_set.
  - simpl. rewrite lookup_insert_eq. exists (n + 1)%Z. destruct sr_fd as (m & Hm & ?). simplify_eq.
    split; [done|lia].
Qed.

(** ** A sleeping worker *)
Section Wake.
Context (sc : ptr) (wl : workload client sc).

Lemma served_from J x s0 s1 s' :
  trace s0 = trace s1 -> cur s0 = cur s1 -> served client sc wl J x s0 s' -> served client sc wl J x s1 s'.
Proof.
  intros Htr Hc (x' & R & ? & ? & [] & ? & Hm & ? & ?). exists x', R. rewrite Htr in Hm.
  split_and!; try done. split; auto; congruence.
Qed.
Lemma asleep_from J x s0 s1 p s' :
  trace s0 = trace s1 -> cur s0 = cur s1 -> asleep_in client sc wl J x s0 p s' -> asleep_in client sc wl J x s1 p s'.
Proof.
  intros Htr Hc (x' & R & ? & ? & ? & [] & Hm & ? & ?). exists x', R. rewrite Htr in Hm.
  split_and!; try done. split; auto; congruence.
Qed.

(** Once readable, it runs what is queued, and exits or goes back to sleep. *)
Lemma wakes_spec J x p th s :
  dozing client sc (sch_event_fd x) (after_loop sc) p -> sched_rep sc x J s ->
  Forall (wl_good client sc wl) (labels J) -> room client sc wl J x s ->
  (exists n, fds s !! sch_event_fd x = Some n /\ n <> 0%Z) ->
  WPS p (fun r s' => r = NULL /\ served client sc wl J x (with_cur th s) s')
    (asleep_in client sc wl J x (with_cur th s)) (fun _ _ => False) (with_cur th s).
Proof.
  intros Hp Hr Hg (m & Hm & Hmax) Hn. eapply (Hp x J); [|done|done|].
  { eapply sched_rep_env; try done. by apply sr_fd in Hr. }
  intros s' Hr' Htr Hc (n1 & n2 & Hn1 & Hn2 & Hle). simpl in Hn1. simplify_eq.
  assert (Hrm : room client sc wl J x s') by (exists n2; split; [done|lia]).
  eapply wps_mono; [by eapply turn_spec|..]; simpl; try done.
  - intros _ u Hu. eapply wps_mono; [exact Hu|..]; simpl; try done.
    + intros r u' [? Hs]. split; [done|]. by eapply served_from.
    + intros q u'. by apply asleep_from.
  - intros q u. by apply asleep_from.
Qed.

(** A stopped scheduler does not put its worker back to sleep. *)
Lemma stopped_wakes J x p th s :
  dozing client sc (sch_event_fd x) (after_loop sc) p -> sched_rep sc x J s ->
  sch_is_running x = false ->
  Forall (wl_good client sc wl) (labels J) -> room client sc wl J x s ->
  (exists n, fds s !! sch_event_fd x = Some n /\ n <> 0%Z) ->
  WP p (fun r s' => r = NULL /\ served client sc wl J x (with_cur th s) s') (with_cur th s).
Proof.
  intros Hp Hr Hrun Hg Hrm Hn. eapply wps_mono; [by apply wakes_spec|done| |done].
  intros q u (x' & R & _ & _ & Hrun' & [] & _). simpl. rewrite adv_stop in Hrun'; done.
Qed.
End Wake.

(** ** Destruction *)

(** The flags and handles of the struct, which draining leaves alone. *)
Definition handles (x : UfsrvScheduler) := (sch_event_fd x, sch_name x).

Lemma destroy_drain_spec sc x J s :
  sched_rep sc x J s ->
  WP (UfsrvSchedulerDestroy_drain sc)
    (fun _ s' => exists x', sched_rep sc x' [] s' /\ handles x' = handles x /\
       trace s' = trace s /\ fds s' = fds s /\
       (forall p, p ∈ jb_nodes J -> heap s' !! p = None) /\
       (forall p, p <> sc -> p ∉ jb_nodes J -> heap s' !! p = heap s !! p)) s.
Proof.
  revert x s; induction J as [|j J IH]; intros x s Hr; pose proof (sr_cell _ _ _ _ Hr);
    unfold UfsrvSchedulerDestroy_drain, mpsc_queue_pop.
  - destruct (sched_rep_pop_empty _ _ _ Hr) as [Hp Hr']. wp_steps. rewrite Hp. wp_steps.
    exists (popped x). split_and!; try done; [by intros ? ?%elem_of_nil|intros; simpl; lk].
  - destruct (sched_rep_pop _ _ _ _ _ Hr) as (Hp & [Hj0 Hj] & HnJ & Hr'). wp_steps. rewrite Hp.
    assert (Hjs : jb_node j <> sc) by congruence. wp_steps. eapply wp_call_bind.
    { eapply (IH (popped x)). eapply sched_rep_free; [exact Hr'|simpl; lk|done]. }
    simpl. intros _ s' (x' & Hr2 & Hh & Htr & Hfd & Hnone & Hsame). wp_steps. exists x'.
    split_and!; try done.
    + intros p [->|Hin]%elem_of_cons; [|by apply Hnone].
      rewrite Hsame by done. apply lookup_delete_eq.
    + intros p Hps [Hpj HpJ]%not_elem_of_cons. rewrite Hsame by done. lk.
Qed.

(** What is left to do once the worker is gone. *)
Definition destroy_rest (sc : ptr) : cprog unit :=
  call (L_destroy_drain sc) ;;
  let! event_fd := rd sch_event_fd sc in
  when (bool_decide (0 <= event_fd)%Z) (close event_fd) ;;
  let! name := rd sch_name sc in
  free name ;;
  free sc.

Record destroyed (sc : ptr) (x : UfsrvScheduler) (J : list job) (s s' : st) : Prop := {
  de_gone p : p <> NULL -> p ∈ sc :: sch_name x :: jb_nodes J -> heap s' !! p = None;
  de_rest p : p ∉ sc :: sch_name x :: jb_nodes J -> heap s' !! p = heap s !! p;
  de_fds : fds s' = delete (sch_event_fd x) (fds s);
  de_trace : trace s' = trace s;
}.

Lemma destroy_rest_spec sc x J s :
  sched_rep sc x J s -> WP (destroy_rest sc) (fun _ s' => destroyed sc x J s s') s.
Proof.
  intros Hr. unfold destroy_rest. eapply wp_call_bind; [by eapply destroy_drain_spec|].
  change (log (L_destroy_drain sc) s) with s. simpl.
  intros _ s1 (x' & Hr1 & Hh & Htr & Hfd & Hnone & Hsame). injection Hh as Hfdx Hnx.
  pose proof (sr_name _ _ _ _ Hr) as Hname. pose proof (sr_cell _ _ _ _ Hr) as Hcell.
  pose proof (sr_jobs _ _ _ _ Hr) as Hjobs. pose proof Hr1 as [].
  wp_steps. rewrite bool_decide_eq_true_2 by done. unfold when. wp_steps.
  assert (HnJ : sch_name x <> NULL -> sch_name x ∉ jb_nodes J /\ sch_name x <> sc).
  { intros [str Hs]%Hname. split; [|congruence].
    intros (j & Hj & Hin)%list_elem_of_fmap. destruct (Hjobs j Hin). congruence. }
  assert (HscJ : sc ∉ jb_nodes J).
  { intros (j & Hj & Hin)%list_elem_of_fmap. destruct (Hjobs j Hin). congruence. }
  assert (Hdone : forall s', (forall p, p <> sc -> p <> sch_name x -> heap s' !! p = heap s1 !! p) ->
    heap s' !! sc = None -> (sch_name x <> NULL -> heap s' !! sch_name x = None) ->
    fds s' = delete (sch_event_fd x) (fds s) -> trace s' = trace s -> destroyed sc x J s s').
  { intros s' Hh' Hsc' Hnm' Hf' Ht'. split; try done; intros p.
    - intros Hp0. rewrite !elem_of_cons. intros [->|[->|Hp]]; [done|by apply Hnm'|].
      rewrite Hh'; [by apply Hnone|by intros ->|]. intros ->. by apply HnJ in Hp0 as [??].
    - rewrite !not_elem_of_cons. intros (? & ? & ?). rewrite Hh' by done. by apply Hsame. }
  rewrite Hnx. destruct (decide (sch_name x = NULL)) as [Hn|Hn].
  - rewrite Hn. wp_steps. apply Hdone; simpl; try done; [intros; lk|apply lookup_delete_eq|by rewrite Hfdx, Hfd].
  - destruct (Hname Hn) as [str Hs]. destruct (HnJ Hn) as [HnJ' Hnsc].
    assert (heap s1 !! sch_name x = Some (OString str)) by by rewrite Hsame.
    wp_steps. apply Hdone; simpl; try done; [intros; lk|apply lookup_delete_eq| |by rewrite Hfdx, Hfd].
    intros _. rewrite lookup_delete_ne by done. apply lookup_delete_eq.
Qed.

Lemma Destroy_over sc x J s :
  sched_rep sc x J s -> sch_is_started x = false \/ sch_is_joined x = true ->
  WP (UfsrvSchedulerDestroy sc) (fun _ s' => destroyed sc x J s s') s.
Proof.
  intros Hr Hover. pose proof Hr as []. unfold UfsrvSchedulerDestroy. rewrite (is_null_false sc) by done.
  wp_steps. destruct (sch_is_started x) eqn:Hst; wp_steps;
    [destruct Hover as [?|Hj]; [done|]; rewrite Hj|]; simpl; wp_steps;
    by apply destroy_rest_spec.
Qed.

(** ** Creation *)
Definition fresh_scheduler (name : ptr) (fd : Z) : UfsrvScheduler :=
  MkScheduler mq_init fd 0%N name false false false false 0%N.

(** [Create] returned [sc]: nothing changed, or a fresh scheduler was built. *)
Definition created (name : option string) (sc : ptr) (s s' : st) : Prop :=
  trace s' = trace s /\
  ((sc = NULL /\ heap s' = heap s /\ fds s' = fds s) \/
   exists np, sched_rep sc (fresh_scheduler np (next_fd s)) [] s' /\ fds s !! next_fd s = None /\
     fds s' = <[next_fd s := 0%Z]> (fds s) /\ heap s !! sc = None /\
     (match name with
      | None => np = NULL
      | Some str => np <> NULL /\ heap s' !! np = Some (OString str) /\ heap s !! np = None
      end) /\
     forall p, p <> sc -> p <> np -> heap s' !! p = heap s !! p).

Lemma Create_spec name s :
  wf_machine s -> WP (UfsrvSchedulerCreate name) (fun sc s' => created name sc s s') s.
Proof.
  intros [Hwf Hfd0 Hffd Hfds]. pose proof Hwf as [Hpos Hfresh]. unfold created.
  assert (Hnew : forall k, heap s !! (next_ptr s + k)%N = None) by (intros; apply Hfresh; lia).
  assert (Hn0 : heap s !! next_ptr s = None) by (apply Hfresh; lia).
  assert (Hz : next_ptr s <> NULL /\ (next_ptr s + 1)%N <> NULL) by (unfold NULL; lia).
  destruct Hz as [Hz Hz1]. assert (Hne : (next_ptr s + 1)%N <> next_ptr s) by lia.
  assert (Hnfd : fds s !! next_fd s = None) by (apply Hffd; lia).
  unfold UfsrvSchedulerCreate.
  assert (Hbuild : forall s' np, wf_alloc s' ->
    heap s' !! next_ptr s = Some (OScheduler (fresh_scheduler np (next_fd s))) ->
    fds s' = <[next_fd s := 0%Z]> (fds s) ->
    (np <> NULL -> exists str, heap s' !! np = Some (OString str)) ->
    sched_rep (next_ptr s) (fresh_scheduler np (next_fd s)) [] s').
  { intros s' np Hwf' Hc Hf Hn. split; try done.
    - apply mq_init_list.
    - by intros j ?%elem_of_nil.
    - apply NoDup_nil_2.
    - exists 0%Z. simpl. by rewrite Hf, lookup_insert_eq. }
  apply wps_alloc; [done|..]; intros o1; [change (is_null NULL) with true; wp_steps; by auto|].
  rewrite (is_null_false (next_ptr s)) by done.
  destruct name as [str|]; wp_steps.
  - apply wps_alloc; [by apply wf_alloc_new|..]; intros o2; simpl; wp_steps; simpl.
    + change (is_null NULL) with true. simpl. wp_steps. split; [done|]. left. split_and!; try done. simpl.
      by rewrite insert_insert_eq, delete_insert_id.
    + rewrite (is_null_false (next_ptr s + 1)) by done. simpl.
      apply wps_eventfd; intros o3; simpl; wp_steps.
      * simpl. split; [done|]. left. split_and!; try done. simpl. apply map_eq. intros q. heap_at q.
      * rewrite bool_decide_eq_false_2 by lia. wp_steps. simpl. split; [done|]. right.
        exists (next_ptr s + 1)%N. split_and!; try done; simpl; [|lk|intros; lk].
        apply Hbuild; [|simpl; lk|done|intros _; exists str; simpl; lk].
        split; simpl; [lia|]. intros q Hq. lk. apply Hfresh. lia.
  - apply wps_eventfd; intros o3; simpl; wp_steps.
    * simpl. split; [done|]. left. split_and!; try done. simpl. apply map_eq. intros q. heap_at q.
    * rewrite bool_decide_eq_false_2 by lia. wp_steps. simpl. split; [done|]. right.
      exists NULL. split_and!; try done; simpl; [|intros; lk].
      apply Hbuild; [|simpl; lk|done|done].
      split; simpl; [lia|]. intros q Hq. lk. apply Hfresh. lia.
Qed.

(** With memory and descriptors to spare, creation succeeds. *)
Lemma Create_plenty name s :
  wf_machine s -> oracle s = [] ->
  WP (UfsrvSchedulerCreate name) (fun sc s' => sc <> NULL /\ oracle s' = []) s.
Proof.
  intros [[Hpos _] Hfd0 _ _] Ho. unfold UfsrvSchedulerCreate.
  assert (Hz : next_ptr s <> NULL /\ (next_ptr s + 1)%N <> NULL) by (unfold NULL; lia). destruct Hz as [Hz Hz1].
  assert (Hne : (next_ptr s + 1)%N <> next_ptr s) by lia.
  apply wps_alloc_ok; [done|]. rewrite (is_null_false (next_ptr s)) by done.
  destruct name as [str|]; wp_steps.
  - apply wps_alloc_ok; [done|]. simpl. wp_steps. rewrite (is_null_false (next_ptr s + 1)) by done. simpl.
    eapply wps_act; [unfold take_oracle; simpl; rewrite Ho; reflexivity|]. simpl. wp_steps.
    rewrite bool_decide_eq_false_2 by lia. wp_steps. by split.
  - eapply wps_act; [unfold take_oracle; simpl; rewrite Ho; reflexivity|]. simpl. wp_steps.
    rewrite bool_decide_eq_false_2 by lia. wp_steps. by split.
Qed.
(** The two together: it fails for want of memory or descriptors only. *)
Lemma Create_or_oom name s :
  wf_machine s ->
  WP (UfsrvSchedulerCreate name)
    (fun sc s' => (oracle s = [] -> sc <> NULL /\ oracle s' = []) /\ created name sc s s') s.
Proof.
  intros Hwf. destruct (decide (oracle s = [])) as [Ho|Ho].
  - eapply wp_mono; [by apply wp_det; [apply (Create_plenty name)|apply Create_spec]|]. simpl. naive_solver.
  - eapply wp_mono; [by apply Create_spec|]. simpl. naive_solver.
Qed.
End Life.

(** C16.  The worker runs the jobs in submission order.  From a started scheduler with
    any queue, the thread function runs every queued job and every job those submit,
    oldest first, each exactly once, and then either sleeps on the empty queue of a
    scheduler that is still running or, the scheduler having been stopped, exits
    with its queue drained. *)
Theorem worker_serves_in_order {E : Ext} {MS : MpscSpec E} client sc (wl : workload client sc) x J s :
  sched_rep sc x J s -> Forall (wl_good client sc wl) (labels J) -> room client sc wl J x s ->
  wps (body client) log (body client (K_sWorkerMain sc))
    (fun _ s' => served client sc wl J x s s')
    (asleep_in client sc wl J x s) (fun _ _ => False) s.
Proof.
  intros Hr Hg Hrm. pose proof (sr_cell _ _ _ _ Hr). unfold body, sWorkerMain. wp_steps.
  set (y := set_sch_is_worker_id_ready true (set_sch_worker_id (cur s) x)).
  set (s1 := with_tls _ _).
  assert (Hr1 : sched_rep sc y J s1).
  { eapply (sched_rep_env _ _ _ (store_cell sc y (store_cell sc (set_sch_worker_id (cur s) x) s))); try done.
    - eapply (sched_rep_set _ (set_sch_worker_id (cur s) x)); try done. by eapply sched_rep_set.
    - by apply sr_fd in Hr. }
  apply wps_call_bind. change (log (L_worker sc) s1) with s1.
  eapply wps_mono; [by apply (turn_spec client sc wl J y)|..]; simpl; try done.
  - intros _ u Hu. eapply wps_mono; [exact Hu|..]; simpl; try done.
    + intros r u' (_ & x' & R & ? & ? & [] & ? & ? & ? & ?). exists x', R. by split_and!.
    + intros q u' (x' & R & ? & ? & ? & [] & ? & ? & ?). exists x', R. by split_and!.
  - intros p u (x' & R & ? & ? & ? & [] & ? & ? & ?). exists x', R. by split_and!.
Qed.

(** C17.  A sleeping worker does not miss what happens to its scheduler.  A job submitted
    by another thread wakes it, and it runs whatever is queued, that job last; and
    [Stop] wakes it for the last time: it drains the queue and exits. *)
Theorem sleeping_worker_wakes {E : Ext} {MS : MpscSpec E} client sc (wl : workload client sc) p th fn ctx x J n s :
  dozing client sc (sch_event_fd x) (after_loop sc) p -> sched_rep sc x J s ->
  Forall (wl_good client sc wl) (labels J) -> wl_good client sc wl (fn, ctx) ->
  fds s !! sch_event_fd x = Some n ->
  (n + 1 + Z.of_nat (pending_cost client sc wl J + wl_cost client sc wl (fn, ctx)) <= 2 ^ 64 - 2)%Z ->
  wp (body client) log (UfsrvSchedulerSubmit sc (Some fn) ctx)
    (fun ok s1 => if ok : bool
       then exists node x1, wps (body client) log p
              (fun _ s2 => served client sc wl (J ++ [Job node fn ctx]) x1 (with_cur th s1) s2)
              (asleep_in client sc wl (J ++ [Job node fn ctx]) x1 (with_cur th s1)) (fun _ _ => False)
              (with_cur th s1)
       else heap s1 = heap s /\ fds s1 = fds s) s /\
  wp (body client) log (UfsrvSchedulerStop sc)
    (fun _ s1 => exists x1, wp (body client) log p
       (fun _ s2 => served client sc wl J x1 (with_cur th s1) s2) (with_cur th s1)) s.
Proof.
  intros Hp Hr Hg Hgn Hn Hmax. pose proof (sr_fd _ _ _ _ Hr) as (m & Hm & Hpos). simplify_eq.
  split.
  - eapply wp_mono; [eapply Submit_spec; [done..|lia]|]. simpl. intros [] s1 (_ & _ & Hs1); [|naive_solver].
    destruct Hs1 as (_ & node & _ & Hr1 & Hfd & _). exists node, (queued node x).
    eapply wps_mono; [eapply (wakes_spec client sc wl _ (queued node x)); [exact Hp|exact Hr1| | |]|..]; try done.
    + unfold labels. rewrite fmap_app. apply Forall_app. by split; [|apply Forall_singleton].
    + exists (n + 1)%Z. simpl. rewrite Hfd, lookup_insert_eq, pending_app. split; [done|].
      change (pending_cost client sc wl [Job node fn ctx]) with (wl_cost client sc wl (fn, ctx) + 0). lia.
    + simpl. rewrite Hfd, lookup_insert_eq. exists (n + 1)%Z. split; [done|lia].
    + naive_solver.
  - eapply wp_mono; [eapply Stop_spec; [done..|lia]|]. simpl. intros _ s1 (_ & _ & _ & Hr1 & Hfd & _).
    exists (set_sch_is_running false x).
    eapply wp_mono; [eapply (stopped_wakes client sc wl J (set_sch_is_running false x) p); [exact Hp|exact Hr1|done|done| |]|]; [| |naive_solver].
    { exists (n + 1)%Z. simpl. rewrite Hfd, lookup_insert_eq. split; [done|lia]. }
    simpl. rewrite Hfd, lookup_insert_eq. exists (n + 1)%Z. split; [done|lia].
Qed.

(** C18.  Destroying a running scheduler waits for its work.  [Destroy] stops the
    scheduler and blocks in the join until the worker, which first runs every job
    still queued, has exited; it then frees the scheduler, its name and its
    descriptor, and nothing else. *)
Theorem destroy_drains_and_reclaims {E : Ext} {MS : MpscSpec E} client sc (wl : workload client sc) p x J n s :
  dozing client sc (sch_event_fd x) (after_loop sc) p -> sched_rep sc x J s ->
  Forall (wl_good client sc wl) (labels J) ->
  fds s !! sch_event_fd x = Some n ->
  (n + 1 + Z.of_nat (pending_cost client sc wl J) <= 2 ^ 64 - 2)%Z ->
  sch_is_started x = true -> sch_is_joined x = false -> sch_thread x ∉ exited s ->
  wps (body client) log (UfsrvSchedulerDestroy sc) (fun _ _ => False)
    (fun q s1 => exists x1, wp (body client) log p
       (fun _ s2 => served client sc wl J x1 (with_cur (sch_thread x) s1) s2 /\
          wp (body client) log q (fun _ s3 => destroyed sc x [] s2 s3) (with_cur (cur s) s2))
       (with_cur (sch_thread x) s1))
    (fun _ _ => False) s.
Proof.
  intros Hp Hr Hg Hn Hmax Hst Hjo Hth. pose proof Hr as []. unfold UfsrvSchedulerDestroy, UfsrvSchedulerJoin.
  rewrite (is_null_false sc) by done. wp_steps. rewrite Hst. wp_steps. rewrite Hjo. simpl. wp_steps.
  eapply wps_seq; [eapply Stop_spec; [done..|lia]|]. simpl. intros _ s1 (Htr & Hc & Hex & Hr1 & Hfd & Hsame).
  assert (Hc1 : heap s1 !! sc = Some (OScheduler (set_sch_is_running false x))) by apply Hr1.
  wp_steps. rewrite Hst. simpl. wp_steps. rewrite Hjo. wp_steps.
  eapply wps_block; [simpl; rewrite bool_decide_eq_false_2; [done|by rewrite Hex]|].
  set (x1 := set_sch_is_joined true (set_sch_is_running false x)).
  set (s1' := store_cell sc x1 s1).
  assert (Hr1' : sched_rep sc x1 J s1') by by eapply sched_rep_set.
  exists x1. eapply wp_mono.
  { eapply (stopped_wakes client sc wl J x1 p); try done.
    { exists (n + 1)%Z. simpl. rewrite Hfd, lookup_insert_eq. split; [done|lia]. }
    simpl. rewrite Hfd, lookup_insert_eq.
    exists (n + 1)%Z. split; [done|]. destruct sr_fd as (m & Hm & ?). simplify_eq. lia. }
  simpl. intros _ s2 [_ Hserved]. split; [done|].
  destruct Hserved as (x2 & R & _ & Hr2 & [] & _ & _ & _ & Hexit).
  simpl in adv_cur, adv_fd, adv_name. eapply wps_act.
  { simpl. rewrite bool_decide_eq_true_2; [reflexivity|]. by rewrite <- adv_cur. }
  eapply wp_mono; [eapply (destroy_rest_spec client sc x2 [])|].
  - eapply sched_rep_env; [exact Hr2|done|done|by apply Hr2].
  - simpl. intros _ s3 [Hg3 Hs3 Hf3 Ht3]. rewrite adv_fd in Hf3. rewrite adv_name in Hg3, Hs3. by split.
Qed.

(** C19.  Creation is all or nothing, and destruction undoes it.  [Create] either fails
    for want of memory or descriptors and leaves memory and descriptors as they were, or returns a stopped scheduler
    with an empty queue, its own copy of the name and an open descriptor; destroying
    it at once restores memory and descriptors exactly. *)
Theorem create_then_destroy {E : Ext} {MS : MpscSpec E} client name s :
  wf_machine s ->
  wp (body client) log (UfsrvSchedulerCreate name)
    (fun sc s1 => trace s1 = trace s /\
       ((sc = NULL /\ oracle s <> [] /\ heap s1 = heap s /\ fds s1 = fds s) \/
        (sc <> NULL /\ exists np, sched_rep sc (fresh_scheduler np (next_fd s)) [] s1 /\
          (forall str, name = Some str -> heap s1 !! np = Some (OString str)) /\
          wp (body client) log (UfsrvSchedulerDestroy sc)
            (fun _ s2 => (forall p, p <> NULL -> heap s2 !! p = heap s !! p) /\ fds s2 = fds s /\ trace s2 = trace s)
            s1))) s.
Proof.
  intros Hwf. eapply wp_mono; [by apply Create_or_oom|]. simpl.
  intros sc s1 [Hplenty [Htr [[-> Hfail]|(np & Hr & Hnfd & Hfd & Hsc & Hname & Hsame)]]]; (split; [done|]).
  { left. split_and!; try done; [|by apply Hfail..]. intros Ho. by apply Hplenty. }
  right. split; [by apply Hr|]. exists np. split_and!; [done| |].
  - intros str ->. by apply Hname.
  - eapply wp_mono; [by eapply Destroy_over; [exact Hr|left]|]. simpl. intros _ s2 [Hg2 Hs2 Hf2 Ht2]. split_and!.
    + intros p Hp. destruct (decide (p ∈ [sc; np])) as [Hin|Hni].
      * rewrite Hg2 by done. rewrite !elem_of_cons in Hin. destruct Hin as [->|[->|?%elem_of_nil]]; [done| |done].
        destruct name; [symmetry; by apply Hname|done].
      * rewrite Hs2 by done. apply Hsame; set_solver.
    + rewrite Hf2, Hfd. by apply delete_insert_id.
    + congruence.
Qed.

(** C20.  Submission queues or refuses.  On a running scheduler [Submit] appends the job
    and rings the eventfd; it returns [false], leaving memory, queue and descriptors
    as they were, when the arguments are null, the scheduler is not running, or
    memory is exhausted, and only then. *)
Theorem submit_queues_or_refuses {E : Ext} {MS : MpscSpec E} client cb ctx sc x J s n :
  sched_rep sc x J s -> fds s !! sch_event_fd x = Some n -> (n + 1 <= 2 ^ 64 - 2)%Z ->
  wp (body client) log (UfsrvSchedulerSubmit sc cb ctx)
    (fun ok s' => trace s' = trace s /\
       if ok : bool then sch_is_running x = true /\ exists fn p, cb = Some fn /\ heap s !! p = None /\
         sched_rep sc (queued p x) (J ++ [Job p fn ctx]) s' /\
         fds s' = <[sch_event_fd x := (n + 1)%Z]> (fds s)
       else heap s' = heap s /\ fds s' = fds s /\ sched_rep sc x J s' /\
         (cb = None \/ sch_is_running x = false \/ oracle s <> [])) s /\
  wp (body client) log (UfsrvSchedulerSubmit NULL cb ctx) (fun ok s' => ok = false /\ s' = s) s.
Proof.
  intros Hr Hn Hmax. split; [|destruct cb; by apply wps_ret]. destruct cb as [fn|]; [|apply wps_ret; auto 10].
  eapply wp_mono; [by eapply Submit_spec|]. simpl. intros [] s' (Htr & _ & H); split; try done.
  - destruct H as (? & p & ? & ? & ? & _). naive_solver.
  - destruct H as (? & ? & ? & H). split_and!; try done. right.
    destruct (decide (oracle s = [])); [left; auto|by right].
Qed.

(** ** Witnesses: a scheduler whose job 1 submits job 2 *)
#[local] Existing Instances RefExt.ext RefExt.treiber RefExt.mpsc.

Definition busy_client : Client := {|
  cl_future_cb _ _ _ := Ret NULL; cl_map _ v _ := Ret v; cl_flat_map _ _ _ := Ret NULL;
  cl_recover _ _ _ := Ret NULL; cl_action _ _ _ := Ret NULL; cl_zip _ a _ _ := Ret a;
  cl_free_value _ _ := Ret NULL; cl_cancel_cb _ _ := Ret NULL;
  cl_job n ctx := if bool_decide (n = 1%N)
                  then let! _ := UfsrvSchedulerSubmit ctx (Some (JB_user 2)) NULL in Ret NULL
                  else Ret NULL;
  cl_entry _ := Ret NULL; cl_aco_resume _ := Ret NULL |}.

Definition busy_good (sc : ptr) (l : label) : Prop :=
  exists n, l.1 = JB_user n /\ (n = 1%N -> l.2 = sc).
Definition busy_children (l : label) (C : list label) : Prop :=
  C = [] \/ l.1 = JB_user 1 /\ C = [(JB_user 2, NULL)].
Definition busy_cost (l : label) : nat := if decide (l.1 = JB_user 1) then 3 else 1.

Lemma busy_body k c :
  body busy_client (job_call (JB_user k, c)) =
  if bool_decide (k = 1%N) then (let! _ := UfsrvSchedulerSubmit c (Some (JB_user 2)) NULL in Ret NULL)%prog
  else Ret NULL.
Proof. done. Qed.
Lemma busy_behaves sc l : busy_good sc l -> well_behaved busy_client busy_children (eq []) busy_cost sc l.
Proof.
  destruct l as [fn c]. intros (k & Hfn & Hc) n x J s Hr Hn HnJ m Hm Hmax. simpl in Hfn, Hc. subst fn. rewrite busy_body.
  unfold busy_cost in Hmax. simpl in Hmax. destruct (decide (k = 1%N)) as [->|Hk].
  - rewrite decide_True in Hmax by done. rewrite Hc by done. rewrite bool_decide_eq_true_2 by done.
    eapply wps_seq; [eapply Submit_spec; [done..|lia]|]. simpl.
    intros [] s' (Htr & [Hcu _] & H); wp_steps.
    + destruct H as (_ & p & Hp & Hr' & Hf & Hsame). exists (queued p x), [Job p (JB_user 2) NULL].
      assert (n <> p) by congruence. assert (n <> sc) by (pose proof (sr_cell _ _ _ _ Hr); congruence).
      split_and!; [done|by right|by split|by apply Hsame| | |].
      * by intros ?%list_elem_of_singleton.
      * exists (m + 1)%Z. rewrite Hf, lookup_insert_eq. split; [done|]. vm_compute sum_list_with. 
        unfold busy_cost. simpl. lia.
      * exists []. by rewrite app_nil_r.
    + destruct H as (Hh & Hf & Hr' & _). exists x, []. rewrite app_nil_r.
      split_and!; [done|by left|by split|by rewrite Hh|by apply not_elem_of_nil| |].
      * exists m. rewrite Hf. split; [done|]. simpl. lia.
      * exists []. by rewrite app_nil_r.
  - rewrite bool_decide_eq_false_2 by done. wp_steps. exists x, []. rewrite app_nil_r.
    split_and!; [done|by left|by split|done|by apply not_elem_of_nil| |].
    + exists m. split; [done|]. simpl. lia.
    + exists []. by rewrite app_nil_r.
Qed.

Definition busy_workload (sc : ptr) : workload busy_client sc.
Proof.
  refine {| wl_good := busy_good sc; wl_children := busy_children; wl_calls := eq []; wl_cost := busy_cost;
            wl_behaves := busy_behaves sc |}.
  - intros l C _ [->|[_ ->]]; [constructor|]. apply Forall_singleton. by exists 2%N.
  - intros l C _ [->|[Hl ->]]; unfold busy_cost; [simpl; case_decide; lia|]. rewrite Hl. simpl. lia.
Defined.

(** Thread 0 creates and starts a scheduler, whose worker is thread 1, and submits
    job 1; a second copy has nothing queued. *)
Definition start : cprog ptr :=
  let! sc := UfsrvSchedulerCreate (Some "w"%string) in
  let! _ := UfsrvSchedulerStart sc in Ret sc.
Definition idle_st : st := after start boot.
Definition busy_st : st := after (UfsrvSchedulerSubmit 1%N (Some (JB_user 1)) 1%N) idle_st.
Definition idle_cell : UfsrvScheduler := MkScheduler ([] : @mqueue RefExt.ext) 3 1%N 2%N true true false false 0%N.
Definition busy_cell : UfsrvScheduler := queued 3%N idle_cell.
Definition busy_jobs : list job := [Job 3%N (JB_user 1) 1%N].

Lemma start_guar : guar evolves start.
Proof.
  unfold start. apply guar_bind; [apply (api_guar _ _ (api_scheduler_create _))|intros sc].
  apply guar_bind; [apply (api_guar _ _ (api_scheduler_start _))|intros; apply guar_ret].
Qed.
Lemma idle_rep : sched_rep 1%N idle_cell [] idle_st.
Proof.
  split; try done; try (vm_compute; reflexivity).
  - apply after_wf; [apply start_guar|apply boot_wf].
  - by intros j ?%elem_of_nil.
  - apply NoDup_nil_2.
  - exists 0%Z. split; [vm_compute; reflexivity|done].
  - intros _. exists "w"%string. vm_compute. reflexivity.
Qed.
Lemma busy_rep : sched_rep 1%N busy_cell busy_jobs busy_st.
Proof.
  split; try done; try (vm_compute; reflexivity).
  - apply after_wf; [apply (api_guar _ _ (api_scheduler_submit _ _ _))|].
    apply after_wf; [apply start_guar|apply boot_wf].
  - intros j ->%list_elem_of_singleton. split; [done|]. vm_compute. reflexivity.
  - apply NoDup_singleton.
  - exists 1%Z. split; [vm_compute; reflexivity|done].
  - intros _. exists "w"%string. vm_compute. reflexivity.
Qed.

Lemma busy_good_jobs : Forall (busy_good 1%N) (labels busy_jobs).
Proof. apply Forall_singleton. by exists 1%N. Qed.
Lemma busy_room : room busy_client 1%N (busy_workload 1%N) busy_jobs busy_cell busy_st.
Proof. exists 1%Z. split; [vm_compute; reflexivity|vm_compute; discriminate]. Qed.
(** Thread 1 asleep in [read]. *)
Definition sleeper_prog : cprog ptr := bind (idle_rest 1%N 3) (fun _ => after_loop 1%N).
Lemma sleeper_dozing : dozing busy_client 1%N 3 (after_loop 1%N) sleeper_prog.
Proof. apply dozing_bind, idle_dozing. Qed.

Lemma worker_serves_in_order_witness :
  wps (body busy_client) log (body busy_client (K_sWorkerMain 1%N))
    (fun _ s' => served busy_client 1%N (busy_workload 1%N) busy_jobs busy_cell busy_st s')
    (asleep_in busy_client 1%N (busy_workload 1%N) busy_jobs busy_cell busy_st) (fun _ _ => False) busy_st.
Proof.
  apply (worker_serves_in_order busy_client 1%N (busy_workload 1%N) busy_cell busy_jobs).
  - apply busy_rep.
  - apply busy_good_jobs.
  - apply busy_room.
Defined.

Lemma sleeping_worker_wakes_witness :
  wp (body busy_client) log (UfsrvSchedulerSubmit 1%N (Some (JB_user 1)) 1%N)
    (fun ok s1 => if ok : bool
       then exists node x1, wps (body busy_client) log sleeper_prog
              (fun _ s2 => served busy_client 1%N (busy_workload 1%N) ([] ++ [Job node (JB_user 1) 1%N]) x1
                             (with_cur 1%N s1) s2)
              (asleep_in busy_client 1%N (busy_workload 1%N) ([] ++ [Job node (JB_user 1) 1%N]) x1
                 (with_cur 1%N s1))
              (fun _ _ => False) (with_cur 1%N s1)
       else heap s1 = heap idle_st /\ fds s1 = fds idle_st) idle_st /\
  wp (body busy_client) log (UfsrvSchedulerStop 1%N)
    (fun _ s1 => exists x1, wp (body busy_client) log sleeper_prog
       (fun _ s2 => served busy_client 1%N (busy_workload 1%N) [] x1 (with_cur 1%N s1) s2) (with_cur 1%N s1)) idle_st.
Proof.
  apply (sleeping_worker_wakes busy_client 1%N (busy_workload 1%N) sleeper_prog 1%N (JB_user 1) 1%N idle_cell [] 0).
  - apply sleeper_dozing.
  - apply idle_rep.
  - constructor.
  - by exists 1%N.
  - vm_compute; reflexivity.
  - vm_compute; discriminate.
Defined.

Lemma destroy_drains_and_reclaims_witness :
  wps (body busy_client) log (UfsrvSchedulerDestroy 1%N) (fun _ _ => False)
    (fun q s1 => exists x1, wp (body busy_client) log sleeper_prog
       (fun _ s2 => served busy_client 1%N (busy_workload 1%N) busy_jobs x1 (with_cur (sch_thread busy_cell) s1) s2 /\
          wp (body busy_client) log q (fun _ s3 => destroyed 1%N busy_cell [] s2 s3) (with_cur (cur busy_st) s2))
       (with_cur (sch_thread busy_cell) s1))
    (fun _ _ => False) busy_st.
Proof.
  apply (destroy_drains_and_reclaims busy_client 1%N (busy_workload 1%N) sleeper_prog busy_cell busy_jobs 1).
  - apply sleeper_dozing.
  - apply busy_rep.
  - apply busy_good_jobs.
  - vm_compute; reflexivity.
  - vm_compute; discriminate.
  - reflexivity.
  - reflexivity.
  - vm_compute. inversion 1.
Defined.

Lemma create_then_destroy_witness :
  wp (body busy_client) log (UfsrvSchedulerCreate (Some "w"%string))
    (fun sc s1 => trace s1 = trace boot /\
       ((sc = NULL /\ oracle boot <> [] /\ heap s1 = heap boot /\ fds s1 = fds boot) \/
        (sc <> NULL /\ exists np, sched_rep sc (fresh_scheduler np (next_fd boot)) [] s1 /\
          (forall str, Some "w"%string = Some str -> heap s1 !! np = Some (OString str)) /\
          wp (body busy_client) log (UfsrvSchedulerDestroy sc)
            (fun _ s2 => (forall p, p <> NULL -> heap s2 !! p = heap boot !! p) /\ fds s2 = fds boot /\
               trace s2 = trace boot) s1))) boot.
Proof. apply (create_then_destroy busy_client (Some "w"%string) boot). apply boot_wf. Defined.

Lemma submit_queues_or_refuses_witness :
  wp (body busy_client) log (UfsrvSchedulerSubmit 1%N (Some (JB_user 1)) 1%N)
    (fun ok s' => trace s' = trace idle_st /\
       if ok : bool then sch_is_running idle_cell = true /\ exists fn p, Some (JB_user 1) = Some fn /\
         heap idle_st !! p = None /\ sched_rep 1%N (queued p idle_cell) ([] ++ [Job p fn 1%N]) s' /\
         fds s' = <[sch_event_fd idle_cell := (0 + 1)%Z]> (fds idle_st)
       else heap s' = heap idle_st /\ fds s' = fds idle_st /\ sched_rep 1%N idle_cell [] s' /\
         (Some (JB_user 1) = None \/ sch_is_running idle_cell = false \/ oracle idle_st <> [])) idle_st /\
  wp (body busy_client) log (UfsrvSchedulerSubmit NULL (Some (JB_user 1)) 1%N)
    (fun ok s' => ok = false /\ s' = idle_st) idle_st.
Proof.
  apply (submit_queues_or_refuses busy_client (Some (JB_user 1)) 1%N 1%N idle_cell [] idle_st 0).
  - apply idle_rep.
  - vm_compute; reflexivity.
  - vm_compute; discriminate.
Defined.
