(* ===== verification/AwaitFacts.v ===== *)
(** * AwaitFacts: coroutines that wait for a future

    [UfsrvFutureGet] inside a coroutine does not block the worker: it parks the
    coroutine on the future and switches out.  Completion queues one resume job on
    the coroutine's own scheduler. *)
From S2P Require Import Prelude Machine Uflib Model Cancellation Scheduler Coroutine Future Waiting.
From S2P Require Import Operators Dispatch Logic Guarantee CancellationFacts FutureFacts Demo OperatorFacts.
From S2P Require Import SchedulerFacts SchedulerLife.
Local Open Scope prog_scope.

Section Await.
Context {E : Ext} {TS : TreiberSpec E} {MS : MpscSpec E} (client : Client).
#[local] Abbreviation WPS := (wps (body client) log).
#[local] Abbreviation WP := (wp (body client) log).
#[local] Abbreviation quiet := (observes (body client)).

(** [w] is a waiter with the coroutine [co] of scheduler [sc] parked on it. *)
Definition waiter_of (h : gmap N obj) (w co sc : ptr) (refs : Z) (claimed : bool) : Prop :=
  w <> NULL /\ exists b, h !! w = Some (OWaiter (MkWaiter b co sc (-1) NULL)) /\ tn_refs b = refs /\ tn_claimed b = claimed.

(** A pending future with one coroutine parked on it. *)
Record awaited (f : ptr) (x : UfsrvFuture) (K : list pending) (w co sc : ptr) (s : st) : Prop := {
  aw_null : f <> NULL;
  aw_fut : heap s !! f = Some (OFuture x);
  aw_fresh : fut_is_completed x = false;
  aw_conts : stack_at (heap s) (fut_continuations x) (pd_nodes K) false;
  aw_waits : stack_at (heap s) (fut_waiters x) [w] false;
  aw_distinct : fut_continuations x <> fut_waiters x;
  aw_pendings k : k ∈ K -> pending_node (heap s) k;
  aw_nodup : NoDup (pd_nodes K);
  aw_waiter : waiter_of (heap s) w co sc 2 false;
}.

(** The end of a parked [Get]: the waiter is given up and the result read. *)
Definition resumes_with (f w : ptr) (p : cprog UfsrvFutureResult) : Prop :=
  forall s3 x3 co sc, heap s3 !! f = Some (OFuture x3) -> waiter_of (heap s3) w co sc 1 true ->
    WP p (fun v s4 => v = fut_result x3 /\ heap s4 = delete w (heap s3) /\ fds s4 = fds s3 /\ trace s4 = trace s3) s3.

Lemma wps_evolves {A} (p : cprog A) Q W Y s :
  client_guar client -> guar evolves p -> WPS p Q W Y s ->
  WPS p (fun a s' => Q a s' /\ evolves s s') (fun p' s' => W p' s' /\ evolves s s') (fun p' s' => Y p' s' /\ evolves s s') s.
Proof. intros Hc Hp HQ. eapply wps_guar; eauto using evolves_log, body_guar_all. apply _. Qed.

Lemma Get_parks f x K co sc s :
  wf_machine s -> oracle s = [] -> open_future (heap s) (fds s) f x K [] ->
  t_current_scheduler (tls_of s) = sc -> sc <> NULL -> t_aco_co (tls_of s) = co ->
  WPS (UfsrvFutureGet f) (fun _ _ => False) (fun _ _ => False)
    (fun p s1 => exists w, heap s !! w = None /\ awaited f x K w co sc s1 /\ resumes_with f w p /\
       (forall q, q <> w -> q <> fut_waiters x -> heap s1 !! q = heap s !! q) /\
       fds s1 = fds s /\ trace s1 = trace s) s.
Proof.
  intros Hwf Hor Ho Hsc Hsc0 Hco. pose proof Ho as []. pose proof Hwf as [[Hpos Hfresh] ? ? ?].
  assert (Hw0 : heap s !! next_ptr s = None) by (apply Hfresh; lia).
  assert (Hwn : next_ptr s <> NULL) by (unfold NULL; lia).
  destruct of_waits as (Hws0 & ws & Hws & Hwsn & Hwsc). change (sl_nodes []) with (@nil ptr) in Hwsn.
  unfold UfsrvFutureGet, future_is_ready, UfsrvCoroutineCurrentScheduler, UfsrvCoroutineCurrent, aco_get_co.
  rewrite (is_null_false f) by done. wp_steps. rewrite of_pending. wp_steps. rewrite Hsc.
  rewrite (is_null_false sc) by done. wp_steps. apply wps_alloc_ok; [done|]. simpl.
  rewrite (is_null_false (next_ptr s)) by done. set (w := next_ptr s) in *. wp_steps.
  unfold lockless_treiber_stack_push. wp_steps.
  rewrite ts_push_accepts, Hwsc. simpl. wp_steps. unfold UfsrvCoroutineYield.
  change (bind (Yield (Ret tt)) ?k) with (Yield (bind (Ret tt) k)). apply wps_yield.
  assert (Hne : w <> f /\ w <> fut_waiters x /\ w <> fut_continuations x).
  { destruct of_conts as (_ & ? & ? & _). split_and!; congruence. }
  destruct Hne as (Hwf' & Hww & Hwc).
  exists w. split_and!; try done; simpl.
  - destruct of_conts as (Hc0 & ks & Hks & ? & ?). split; try done; simpl.
    + rewrite !lookup_insert_ne by congruence. done.
    + split; [done|]. exists ks. by rewrite !lookup_insert_ne by congruence.
    + split; [done|]. eexists. rewrite lookup_insert_eq. split; [done|]. by rewrite ts_push_nodes, ts_push_closed, Hwsc, Hwsn.
    + intros k Hk. eapply pending_node_frame; [|by apply of_pendings]. simpl.
      destruct (of_pendings k Hk) as (_ & b & Hb & _). by rewrite !lookup_insert_ne by congruence.
    + split; [done|]. eexists. rewrite lookup_insert_ne, lookup_insert_eq by done. split; [by rewrite <- Hco|].
      by rewrite tn_init_refs, tn_init_claimed.
  - intros s3 x3 co3 sc3 Hf3 (_ & b & Hb & Href & _). wp_steps. unfold sWaiterRelease, waiter_release. wp_steps.
    rewrite tn_release_last, Href. simpl. wp_steps.
    split_and!; try done. simpl. by rewrite delete_insert_eq.
  - intros q Hq1 Hq2. by rewrite !lookup_insert_ne by done.
Qed.

(** Waking the parked coroutine: a resume job is queued on its scheduler. *)
Lemma SubmitResume_spec sc co x J n s :
  sched_rep sc x J s -> oracle s = [] -> sch_is_running x = true -> co <> NULL ->
  fds s !! sch_event_fd x = Some n -> (n + 1 <= 2 ^ 64 - 2)%Z ->
  WP (UfsrvCoroutineSubmitResume sc co)
    (fun ok s' => ok = true /\ trace s' = trace s /\ exists ctx node, ctx <> NULL /\ heap s !! ctx = None /\ heap s !! node = None /\
       heap s' !! ctx = Some (OResumeContext (MkResumeContext sc co)) /\
       sched_rep sc (queued node x) (J ++ [Job node JB_sResumeJob ctx]) s' /\
       fds s' = <[sch_event_fd x := (n + 1)%Z]> (fds s) /\
       (forall q, q ∉ [sc; ctx; node] -> heap s' !! q = heap s !! q)) s.
Proof.
  intros Hr Hor Hrun Hco Hn Hmax. pose proof Hr as []. unfold UfsrvCoroutineSubmitResume.
  rewrite (is_null_false sc), (is_null_false co) by done. simpl. pose proof sr_wf as [Hpos Hfresh].
  apply wps_alloc_ok; [done|]. rewrite (is_null_false (next_ptr s)) by (unfold NULL; lia).
  assert (Hc0 : heap s !! next_ptr s = None) by (apply Hfresh; lia). set (ctx := next_ptr s) in *.
  set (s1 := with_next_ptr _ _).
  assert (Hs1 : forall q, q <> ctx -> heap s1 !! q = heap s !! q) by (intros; simpl; lk).
  assert (Hr1 : sched_rep sc x J s1).
  { assert (Hold : forall p o, heap s !! p = Some o -> heap s1 !! p = Some o) by (intros p o Hp; rewrite Hs1; congruence).
    split; try done.
    - split; simpl; [lia|]. intros q Hq. rewrite lookup_insert_ne by (unfold ctx; lia). apply Hfresh. lia.
    - by apply Hold.
    - intros j Hj. destruct (sr_jobs j Hj). split; [done|by apply Hold].
    - intros [str ?]%sr_name. exists str. by apply Hold. }
  eapply wps_seq; [eapply (Submit_spec client JB_sResumeJob ctx sc x J s1); done|].
  simpl. intros ok s2 (Ht & _ & Hok). destruct ok.
  - destruct Hok as (_ & node & Hnode & Hr2 & Hf2 & Hs2). apply wps_ret. split_and!; try done.
    assert (node <> ctx) by (intros ->; simpl in Hnode; by rewrite lookup_insert_eq in Hnode).
    exists ctx, node. split_and!; try done.
    + unfold ctx, NULL. lia.
    + by rewrite <- Hs1.
    + rewrite Hs2; [simpl; lk|congruence|done].
    + intros q Hq. rewrite !not_elem_of_cons in Hq. destruct Hq as (? & ? & ? & _). rewrite Hs2 by done. by apply Hs1.
  - destruct Hok as (_ & _ & _ & Hno). rewrite Hno in Hrun; done.
Qed.

(** Writes to cells that are not the scheduler's. *)
Lemma sched_rep_store {T} `{!Cell T} p (v : T) o sc x J s :
  heap s !! p = Some o -> (forall z, o <> OScheduler z) -> (forall z, o <> OJob z) -> (forall z, o <> OString z) ->
  sched_rep sc x J s -> sched_rep sc x J (store_cell p v s).
Proof.
  intros Hp Ho1 Ho2 Ho3 []. split; simpl; try done.
  - by eapply wf_alloc_store.
  - rewrite lookup_insert_ne; [done|]. intros ->. rewrite Hp in sr_cell. injection sr_cell as ->. by eapply Ho1.
  - intros j Hj. destruct (sr_jobs j Hj) as [? Hjn]. split; [done|]. simpl. rewrite lookup_insert_ne; [done|]. intros ->.
    rewrite Hp in Hjn. injection Hjn as ->. by eapply Ho2.
  - intros Hnm. destruct (sr_name Hnm) as [str Hstr]. exists str. rewrite lookup_insert_ne; [done|]. intros ->.
    rewrite Hp in Hstr. injection Hstr as ->. by eapply Ho3.
Qed.

Definition scheduler_obj (o : obj) : bool :=
  match o with OScheduler _ | OJob _ | OString _ => true | _ => false end.
Lemma sched_rep_keep sc x J s s' :
  sched_rep sc x J s -> wf_alloc s' -> fds s' !! sch_event_fd x = fds s !! sch_event_fd x ->
  (forall p o, heap s !! p = Some o -> scheduler_obj o = true -> heap s' !! p = Some o) -> sched_rep sc x J s'.
Proof.
  intros [] Hwf Hf Hh. split; try done.
  - by apply Hh.
  - intros j Hj. destruct (sr_jobs j Hj). split; [done|by apply Hh].
  - by rewrite Hf.
  - intros Hnm. destruct (sr_name Hnm) as [str ?]. exists str. by apply Hh.
Qed.

(** Completion with the coroutine [co] parked on the future. *)
Record resumed (f : ptr) (x : UfsrvFuture) K w co sc sx J n r (own : list ptr) (s s' : st) : Prop := {
  rs_trace : trace s' = trace s ++ (pd_call f <$> K);
  rs_fut : heap s' !! f = Some (OFuture (complete_with r x));
  rs_waiter : waiter_of (heap s') w co sc 1 true;
  rs_job : exists ctx node, ctx <> NULL /\ heap s !! ctx = None /\ heap s !! node = None /\
     heap s' !! ctx = Some (OResumeContext (MkResumeContext sc co)) /\
     (wf_alloc s' -> sched_rep sc (queued node sx) (J ++ [Job node JB_sResumeJob ctx]) s') /\
     forall q, q ∉ own ++ [sc; ctx; node; w; f; fut_continuations x; fut_waiters x] ++ pd_nodes K -> heap s' !! q = heap s !! q;
  rs_fds : fds s' = <[sch_event_fd sx := (n + 1)%Z]> (fds s);
}.

(** Completion once the resume job is queued: the waiter is let go of, and the
    continuations run. *)
Lemma resumed_drains f x r K w b co sc ks s :
  heap s !! f = Some (OFuture (complete_with r x)) -> w <> NULL ->
  heap s !! w = Some (OWaiter (MkWaiter b co sc (-1) NULL)) -> tn_refs b = 2%Z ->
  heap s !! fut_continuations x = Some (OStack ks) -> ts_nodes ks = pd_nodes K ->
  (forall k, k ∈ K -> pending_node (heap s) k) -> NoDup (pd_nodes K) -> (forall k, k ∈ K -> quiet (pd_call f k)) ->
  WP ((sWaiterRelease w ;; Ret tt) ;; sDrainContinuations f ;; Ret true)%prog
    (fun won s' => won = true /\ heap s' !! w = Some (OWaiter (MkWaiter (tn_release b).2 co sc (-1) NULL)) /\
       (forall q, q ∉ w :: fut_continuations x :: pd_nodes K -> heap s' !! q = heap s !! q) /\ fds s' = fds s /\
       trace s' = trace s ++ (pd_call f <$> K)) s.
Proof.
  intros Hf Hw0 Hw Hb Hks Hksn Hpd Hnd Hq.
  assert (HpdK : forall q, (forall z, heap s !! q <> Some (OContinuation z)) -> q ∉ pd_nodes K).
  { intros q Hq' (k & -> & Hk)%list_elem_of_fmap. destruct (Hpd k Hk) as (_ & b' & Hb' & _). by eapply Hq'. }
  unfold sWaiterRelease, waiter_release. wp_steps. rewrite tn_release_last, Hb. simpl. wp_steps.
  unfold sDrainContinuations, lockless_treiber_stack_steal_all_and_close. wp_steps. rewrite ts_steal_list, Hksn.
  match goal with |- wps _ _ _ _ _ _ ?u => set (s3 := u) end.
  assert (Hs3 : forall q, q <> w -> q <> fut_continuations x -> heap s3 !! q = heap s !! q) by (intros; simpl; lk).
  eapply wps_seq.
  { eapply (drain_conts_led (body client) f r K (fun _ => True) (fun _ => True) (eq []) (pd_nodes K) [] (fun _ => []) (fun _ _ => True)); try done.
    - exists (complete_with r x). split; [|done]. rewrite Hs3; [done|congruence|congruence].
    - intros k Hk. destruct (Hpd k Hk) as (? & b' & Hb' & ?). eapply pending_node_frame; [|by apply Hpd]. apply Hs3; congruence.
    - apply mannered_led. intros k Hk. by apply observes_mannered, Hq. }
  simpl. intros [] s4 (Hh4 & _ & Hf4 & Ht4%made_silent & _). rewrite all_calls_silent in Ht4. wp_steps. split_and!; try done.
  - rewrite Hh4; [simpl; lk|done|]. apply HpdK. congruence.
  - intros q [? [? ?]%not_elem_of_cons]%not_elem_of_cons. rewrite Hh4 by done. by apply Hs3.
  - apply map_eq. intros fd. by apply Hf4.
Qed.

Lemma complete_resumes f x K w co sc sx J n r s :
  (forall k, k ∈ K -> quiet (pd_call f k)) ->
  awaited f x K w co sc s -> co <> NULL -> fut_cancel_handle x = NULL ->
  sched_rep sc sx J s -> oracle s = [] -> sch_is_running sx = true ->
  fds s !! sch_event_fd sx = Some n -> (n + 1 <= 2 ^ 64 - 2)%Z ->
  WP (sFutureComplete f r)
    (fun won s' => won = true /\ resumed f x K w co sc sx J n r [] s s') s.
Proof.
  intros Hq Ha Hco Hh Hr Hor Hrun Hn Hmax. pose proof Ha as []. unfold sFutureComplete.
  wp_steps. rewrite aw_fresh0. wp_steps. rewrite Hh. change (is_null NULL) with true. simpl. wp_steps.
  unfold sDrainWaiters, lockless_treiber_stack_steal_all_and_close. wp_steps.
  destruct aw_conts0 as (Hc0 & ks & Hks & Hksn & Hksc), aw_waits0 as (Hw0 & ws & Hws & Hwsn & Hwsc).
  destruct aw_waiter0 as (Hwn & b & Hb & Hbr & Hbc).
  wp_steps. rewrite ts_steal_list, Hwsn. cbn [sDrainWaiters_loop]. unfold waiter_claim. wp_steps. rewrite tn_claim_wins, Hbc. simpl.
  unfold wake_waiter. wp_steps. rewrite (is_null_false co) by done. simpl. wp_steps.
  match goal with |- wps _ _ _ _ _ _ ?u => set (s1 := u) end.
  assert (Hs1 : forall q, q <> w -> q <> f -> q <> fut_waiters x -> heap s1 !! q = heap s !! q) by (intros; simpl; lk).
  assert (Hback : forall q, heap s1 !! q = None -> heap s !! q = None).
  { intros q Hq'. rewrite <- Hs1; [done| | |]; intros ->; revert Hq'; simpl; repeat (rewrite lookup_insert_eq || rewrite lookup_insert_ne by congruence); done. }
  assert (Hw1 : heap s1 !! w = Some (OWaiter (MkWaiter (tn_claim b).2 co sc (-1) NULL))) by (simpl; lk).
  assert (Hf1 : heap s1 !! f = Some (OFuture (complete_with r x))) by (simpl; lk).
  assert (Hks1 : heap s1 !! fut_continuations x = Some (OStack ks)) by (simpl; lk).
  assert (Hk1 : forall k, k ∈ K -> pending_node (heap s1) k).
  { intros k Hk. destruct (aw_pendings0 k Hk) as (? & b' & Hb' & ?). eapply pending_node_frame; [|by apply aw_pendings0].
    apply Hs1; congruence. }
  pose proof (sr_cell _ _ _ _ Hr) as Hsc.
  assert (sc <> w /\ sc <> f /\ sc <> fut_waiters x) as (Hscw & Hscf & Hscws) by (split_and!; intros ->; congruence).
  eapply wps_seq.
  { eapply (SubmitResume_spec sc co sx J n); try done.
    eapply sched_rep_store; [simpl; lk|done..|]. eapply sched_rep_store; [simpl; lk|done..|].
    do 3 (eapply sched_rep_store; [simpl; lk|done..|]). eapply sched_rep_store; [exact aw_fut0|done..|].  done. }
  simpl. intros ok s2 (-> & Ht2 & ctx & node & Hctx0 & Hctx & Hnode & Hctx2 & Hr2 & Hf2 & Hs2).
  change (heap s1 !! ctx = None) in Hctx. change (heap s1 !! node = None) in Hnode.
  assert (Hs2' : forall q o, heap s1 !! q = Some o -> q <> sc -> heap s2 !! q = Some o).
  { intros q o Hq' Hne. rewrite Hs2; [done|]. rewrite !not_elem_of_cons. split_and!; [done|congruence|congruence|apply not_elem_of_nil]. }
  assert (Hk2 : forall k, k ∈ K -> pending_node (heap s2) k).
  { intros k Hk. destruct (Hk1 k Hk) as (? & b' & Hb' & ?). split; [done|]. exists b'. split; [|done]. apply Hs2'; [done|].
    intros Heq. destruct (aw_pendings0 k Hk) as (_ & c & Hc & _). congruence. }
  eapply wp_mono; [eapply (resumed_drains f x r K w (tn_claim b).2 co sc ks s2); try done|].
  { by apply Hs2'. } { by apply Hs2'. } { by rewrite tn_claim_refs. }
  { apply Hs2'; [done|congruence]. }
  simpl. intros won s4 (-> & Hw4 & Hkeep & Hf4 & Ht4).
  assert (Hno : forall q, (forall z, heap s2 !! q <> Some (OContinuation z)) -> q <> w -> q <> fut_continuations x -> heap s4 !! q = heap s2 !! q).
  { intros q Hq' ??. apply Hkeep. rewrite !not_elem_of_cons. split_and!; try done. intros (k & -> & Hk)%list_elem_of_fmap.
    destruct (Hk2 k Hk) as (_ & b' & Hb' & _). by eapply Hq'. }
  split; [done|]. split.
  - by rewrite Ht4, Ht2.
  - pose proof (Hs2' f _ Hf1 ltac:(done)). rewrite Hno; congruence.
  - split; [done|]. exists (tn_release (tn_claim b).2).2. split; [done|].
    by rewrite tn_release_refs, tn_claim_refs, tn_release_claimed, tn_claim_claimed, Hbr.
  - exists ctx, node. split_and!; try done; try by apply Hback.
    + rewrite Hno; congruence.
    + intros Hwf4. eapply sched_rep_keep; [exact Hr2|done|by rewrite Hf4|]. intros p o Hp Ho. pose proof (Hs2' w _ Hw1) as Hw2.
      rewrite Hno; [done|intros z Hz; rewrite Hp in Hz; by simplify_eq|intros ->; rewrite Hw2 in Hp; by simplify_eq|].
      intros ->. rewrite (Hs2' (fut_continuations x) (OStack ks)) in Hp; [by simplify_eq|done|congruence].
    + intros q Hq'. simpl in Hq'. rewrite !not_elem_of_cons in Hq'. destruct Hq' as (? & ? & ? & ? & ? & ? & ? & ?).
      rewrite Hkeep by (rewrite !not_elem_of_cons; done). rewrite Hs2 by (rewrite !not_elem_of_cons; split_and!; try done; apply not_elem_of_nil). by apply Hs1.
  - by rewrite Hf4, Hf2.
Qed.

Lemma awaited_env f x K w co sc s s' : heap s' = heap s -> awaited f x K w co sc s -> awaited f x K w co sc s'.
Proof. intros Hh []. split; rewrite ?Hh; done. Qed.

Lemma SetResult_resumes f prm x K w co sc sx J n r s :
  (forall k, k ∈ K -> quiet (pd_call f k)) -> promise_at (heap s) prm f false ->
  awaited f x K w co sc s -> co <> NULL -> fut_cancel_handle x = NULL ->
  sched_rep sc sx J s -> oracle s = [] -> sch_is_running sx = true ->
  fds s !! sch_event_fd sx = Some n -> (n + 1 <= 2 ^ 64 - 2)%Z ->
  WP (UfsrvPromiseSetResult prm r) (fun _ s' => resumed f x K w co sc sx J n r [prm] s s') s.
Proof.
  intros Hq [Hp0 Hp] Ha Hco Hh Hr Hor Hrun Hn Hmax. unfold UfsrvPromiseSetResult. rewrite (is_null_false prm) by done. wp_steps.
  set (s1 := store_cell _ _ s).
  assert (Hs1 : forall q o, heap s !! q = Some o -> (forall z, o <> OPromise z) -> heap s1 !! q = Some o).
  { intros q o Hqo Hno. simpl. rewrite lookup_insert_ne; [done|]. intros <-. rewrite Hp in Hqo. injection Hqo as <-. by eapply Hno. }
  eapply wps_seq.
  { eapply (complete_resumes f x K w co sc sx J n r s1); try done.
    - destruct Ha. destruct aw_conts0 as (? & ks & ? & ?), aw_waits0 as (? & ws & ? & ?), aw_waiter0 as (? & b & ? & ?). split; try done.
      + by apply Hs1.
      + split; [done|]. exists ks. split; [by apply Hs1|done].
      + split; [done|]. exists ws. split; [by apply Hs1|done].
      + intros k Hk. destruct (aw_pendings0 k Hk) as (? & b' & ? & ?). split; [done|]. exists b'. split; [by apply Hs1|done].
      + split; [done|]. exists b. split; [by apply Hs1|done].
    - by eapply sched_rep_store. }
  simpl. intros won s2 (-> & []). destruct rs_job0 as (ctx & node & Hctx0 & Hctx & Hnode & Hctx2 & Hr2 & Hs2). simpl. wp_steps.
  assert (Hback : forall q, heap s1 !! q = None -> heap s !! q = None /\ q <> prm).
  { intros q Hq'. simpl in Hq'. destruct (decide (q = prm)) as [->|]; [by rewrite lookup_insert_eq in Hq'|].
    by rewrite lookup_insert_ne in Hq'. }
  split; try done. exists ctx, node. split_and!; try done; try by apply Hback.
  intros q Hq'. apply not_elem_of_app in Hq' as [Hqp Hq']. rewrite Hs2 by done. simpl. rewrite lookup_insert_ne; [done|].
  intros <-. apply Hqp. by left.
Qed.

(** The resume job [ctx] switches into [co], on scheduler [sc], and then frees its
    context; [R] is what the coroutine achieves before it switches back. *)
Definition switches_into (ctx sc co : ptr) : Prop :=
  forall (R : st -> Prop) s, ctx <> NULL -> heap s !! ctx = Some (OResumeContext (MkResumeContext sc co)) ->
    t_initialized (tls_of s) = true ->
    WP (body client (K_aco_resume co))
      (fun _ s' => heap s' !! ctx = Some (OResumeContext (MkResumeContext sc co)) /\
         (exists a, heap s' !! co = Some (OAco a) /\ aco_is_end a = false) /\ R s')
      (log (K_aco_resume co) (with_tls (<[cur s := set_t_current_scheduler sc (tls_of s)]>) s)) ->
    WP (body client (K_job JB_sResumeJob ctx))
      (fun _ s'' => exists s', R s' /\ heap s'' = delete ctx (heap s') /\ fds s'' = fds s' /\ trace s'' = trace s' /\
         t_current_scheduler (tls_of s'') = t_current_scheduler (tls_of s)) s.

Lemma resume_job_switches ctx sc co : co <> NULL -> switches_into ctx sc co.
Proof.
  intros Hco R s Hc0 Hc Hinit Hsw. unfold body, body_job, sResumeJob, UfsrvCoroutineResume, sEnsureThreadInit.
  wp_steps. rewrite (is_null_false co) by done. wp_steps.
  replace (t_initialized _) with true.
  - wp_steps. eapply wp_call_bind; [exact Hsw|]. simpl. intros _ s1 (Hc1 & (a & Ha & Hend) & HR). wp_steps.
    rewrite Hend. simpl. wp_steps. exists s1. split_and!; try done. unfold tls_of at 1. simpl. by rewrite lookup_insert_eq.
  - unfold tls_of. simpl. rewrite lookup_insert_eq. symmetry. exact Hinit.
Qed.
End Await.

Lemma wf_cur `{E : Ext} th s : wf_machine s -> wf_machine (with_cur th s).
Proof. intros [[??]]. by split. Qed.

(** C38.  A coroutine that waits for a future is resumed once, on its own scheduler.
    Inside a coroutine, [Get] on a pending future switches out instead of blocking;
    when another thread then fulfils the promise, exactly one job is queued on the
    coroutine's scheduler, whose eventfd is written, and the continuations run.
    That job switches back into the coroutine with its scheduler current, and [Get]
    returns the value, with the waiter freed and nothing else touched. *)
Theorem coroutine_get_resumes {E : Ext} {TS : TreiberSpec E} {MS : MpscSpec E} client f prm x K co sc sx J n r th s :
  client_guar client -> wf_machine s -> oracle s = [] ->
  (forall k, k ∈ K -> observes (body client) (pd_call f k)) ->
  promise_at (heap s) prm f false -> open_future (heap s) (fds s) f x K [] -> fut_cancel_handle x = NULL ->
  t_current_scheduler (tls_of s) = sc -> t_aco_co (tls_of s) = co -> co <> NULL ->
  sched_rep sc sx J s -> sch_is_running sx = true ->
  fds s !! sch_event_fd sx = Some n -> (n + 1 <= 2 ^ 64 - 2)%Z ->
  wps (body client) log (UfsrvFutureGet f) (fun _ _ => False) (fun _ _ => False)
    (fun p s1 => sched_rep sc sx J s1 /\
       wp (body client) log (UfsrvPromiseSetResult prm r)
         (fun _ s2 => trace s2 = trace s ++ (pd_call f <$> K) /\ fds s2 = <[sch_event_fd sx := (n + 1)%Z]> (fds s) /\
            exists w ctx node, heap s2 !! ctx = Some (OResumeContext (MkResumeContext sc co)) /\
              sched_rep sc (queued node sx) (J ++ [Job node JB_sResumeJob ctx]) s2 /\
              switches_into client ctx sc co /\
              (forall q, heap s !! q = None -> q ∉ [w; ctx; node] -> heap s2 !! q = None) /\
              (forall s3, heap s3 !! f = heap s2 !! f -> heap s3 !! w = heap s2 !! w ->
                 wp (body client) log p (fun v s4 => v = r /\ heap s4 = delete w (heap s3) /\
                   fds s4 = fds s3 /\ trace s4 = trace s3) s3))
         (with_cur th s1)) s.
Proof.
  intros Hcl Hwf Hor Hq Hp Ho Hh Hsc Hco Hco0 Hr Hrun Hn Hmax. pose proof (sr_null _ _ _ _ Hr) as Hsc0.
  eapply wps_mono; [apply wps_evolves; [done|apply (api_guar _ _ (api_get f))|by eapply Get_parks]|naive_solver..|].
  simpl. intros p s1 [(w & Hw & Ha & Hres & Hs1 & Hf1 & Ht1) Hev]. specialize (Hev Hwf). pose proof Hp as [Hp0 Hpc].
  assert (Hne : forall q o, heap s !! q = Some o -> (forall z, o <> OStack z) -> heap s1 !! q = Some o).
  { intros q o Hqo Hno. rewrite Hs1; [done|congruence|]. intros ->. destruct (of_waits _ _ _ _ _ _ Ho) as (_ & t & Ht & _).
    rewrite Ht in Hqo. injection Hqo as <-. by eapply Hno. }
  assert (Hr1 : sched_rep sc sx J s1).
  { eapply sched_rep_keep; [exact Hr|apply Hev|by rewrite Hf1|]. intros q o Hqo Hso. apply Hne; [done|]. by intros z ->. }
  split; [done|]. eapply wp_mono.
  { apply wp_evolves; [done|apply (api_guar _ _ (api_promise_set_result _ _))|].
    eapply (SetResult_resumes client f prm x K w co sc sx J n r (with_cur th s1)); try done.
    - by split; [|apply Hne].
    - by apply (awaited_env _ _ _ _ _ _ s1).
    - by apply (sched_rep_grow _ _ _ s1).
    - by apply (ev_oracle _ _ Hev).
    - simpl. by rewrite Hf1. }
  simpl. intros _ s2 [[] Hev2]. destruct rs_job0 as (ctx & node & Hctx0 & Hctx & Hnode & Hctx2 & Hr2 & Hs2).
  split_and!; [by rewrite rs_trace0, <- Ht1|by rewrite rs_fds0, <- Hf1|]. exists w, ctx, node. split_and!; [done| |by apply resume_job_switches| |].
  - apply Hr2, (ev_wf _ _ (Hev2 (wf_cur th s1 (ev_wf _ _ Hev)))).
  - intros q Hqn Hq'. assert (Hal : forall p, is_Some (heap s !! p) -> q <> p) by (intros p' [o Hp'] ->; congruence).
    rewrite !not_elem_of_cons in Hq'. destruct Hq' as (? & ? & ? & _).
    assert (Hall : Forall (fun p => is_Some (heap s !! p)) ([prm; sc; f; fut_continuations x; fut_waiters x] ++ pd_nodes K)).
    { pose proof (sr_cell _ _ _ _ Hr). apply Forall_app. split.
      - destruct Ho. destruct of_conts as (_ & ? & ? & _), of_waits as (_ & ? & ? & _). repeat constructor; eauto.
      - apply Forall_forall. intros p' Hp'. eapply open_allocated; [exact Ho|]. unfold footprint. set_solver +Hp'. }
    assert (Hni : q ∉ [prm; sc; f; fut_continuations x; fut_waiters x] ++ pd_nodes K).
    { intros Hin. rewrite Forall_forall in Hall. by apply (Hal q (Hall q Hin)). }
    rewrite Hs2; [|set_solver]. simpl. rewrite Hs1; [done|done|]. set_solver +Hni.
  - intros s3 Hf3 Hw3. rewrite rs_fut0 in Hf3. eapply wp_mono; [eapply Hres; [exact Hf3|]|].
    + destruct rs_waiter0 as (? & b & ? & ?). split; [done|]. exists b. by rewrite Hw3.
    + simpl. naive_solver.
Qed.

(** ** Witness: the worker of a scheduler runs a coroutine that waits *)
#[local] Existing Instances RefExt.ext RefExt.treiber RefExt.mpsc.

(** The main thread starts a scheduler and makes a promise; the worker, thread 1,
    creates a coroutine with the scheduler current, and libaco has switched to it. *)
Definition await_main : cprog unit :=
  let! _ := start in
  let! pf := UfsrvPromiseCreate false in
  let! _ := UfsrvFutureThen pf.2 (Some (CB_user 7)) 70%N in
  Ret tt.
Definition await_worker : cprog unit :=
  tls_set (set_t_current_scheduler 1%N) ;;
  let! co := UfsrvCoroutineCreate (Some 5%N) NULL in
  Ret tt.
Definition await_created : st := after await_worker (with_cur 1%N (after await_main boot)).
Definition await_co : ptr := 11%N.
Definition await_st : st := with_tls (<[1%N := set_t_aco_co await_co (tls_of await_created)]>) await_created.
Definition await_conts : list pending := [Pend 7%N (CB_user 7) 70%N].

Lemma await_wf : wf_machine await_st.
Proof.
  assert (Hm : wf_machine (after await_main boot)).
  { apply after_wf; [|apply boot_wf]. unfold await_main. apply guar_bind; [apply start_guar|intros _].
    apply guar_bind; [apply (api_guar _ _ (api_promise_create _))|intros pf].
    apply guar_bind; [apply (api_guar _ _ (api_then _ _ _))|intros; apply guar_ret]. }
  assert (Hw : wf_machine await_created).
  { apply after_wf; [|by apply wf_cur]. unfold await_worker. apply guar_bind; [apply g_tls_set|intros _].
    apply guar_bind; [apply (api_guar _ _ (api_coroutine_create _ _))|intros; apply guar_ret]. }
  unfold await_st. generalize dependent await_created. intros u [[??] ? ? ?]. by split.
Qed.

Lemma coroutine_get_resumes_witness :
  wps (body quiet_client) log (UfsrvFutureGet 3%N) (fun _ _ => False) (fun _ _ => False)
    (fun p s1 => sched_rep 1%N idle_cell [] s1 /\
       wp (body quiet_client) log (UfsrvPromiseSetResult 4%N (MkResult 0 99%N None))
         (fun _ s2 => trace s2 = trace await_st ++ (pd_call 3%N <$> await_conts) /\
            fds s2 = <[3%Z := (0 + 1)%Z]> (fds await_st) /\
            exists w ctx node, heap s2 !! ctx = Some (OResumeContext (MkResumeContext 1%N await_co)) /\
              sched_rep 1%N (queued node idle_cell) ([] ++ [Job node JB_sResumeJob ctx]) s2 /\
              switches_into quiet_client ctx 1%N await_co /\
              (forall q, heap await_st !! q = None -> q ∉ [w; ctx; node] -> heap s2 !! q = None) /\
              (forall s3, heap s3 !! 3%N = heap s2 !! 3%N -> heap s3 !! w = heap s2 !! w ->
                 wp (body quiet_client) log p (fun v s4 => v = MkResult 0 99%N None /\ heap s4 = delete w (heap s3) /\
                   fds s4 = fds s3 /\ trace s4 = trace s3) s3))
         (with_cur 0%N s1)) await_st.
Proof.
  apply (coroutine_get_resumes quiet_client 3%N 4%N (new_future 5%N 6%N) await_conts await_co 1%N idle_cell [] 0
    (MkResult 0 99%N None) 0%N await_st).
  - apply quiet_guar.
  - apply await_wf.
  - vm_compute. reflexivity.
  - intros k ->%list_elem_of_singleton. apply (quiet_observes (K_future_cb (CB_user 7) 3%N 70%N)).
  - split; [discriminate|vm_compute; reflexivity].
  - split; try done; try (vm_compute; reflexivity); try (by intros ? ?%elem_of_nil); try apply NoDup_nil_2; try apply NoDup_singleton.
    + split; [done|]. eexists. split; [vm_compute; reflexivity|by split].
    + split; [done|]. eexists. split; [vm_compute; reflexivity|by split].
    + intros k ->%list_elem_of_singleton. split; [done|]. eexists. split; [vm_compute; reflexivity|by split].
  - reflexivity.
  - vm_compute. reflexivity.
  - vm_compute. reflexivity.
  - discriminate.
  - split; try done; try (vm_compute; reflexivity).
    + apply await_wf.
    + by intros j ?%elem_of_nil.
    + apply NoDup_nil_2.
    + exists 0%Z. split; [vm_compute; reflexivity|done].
    + intros _. exists "w"%string. vm_compute. reflexivity.
  - reflexivity.
  - vm_compute. reflexivity.
  - lia.
Defined.
