(* ===== verification/CoroutineFacts.v ===== *)
(** * CoroutineFacts: coroutines that have not been started

    Every coroutine that has been created and never resumed is on an intrusive list
    of its thread.  Creating one links it in front, starting one unlinks it from
    wherever it is, and cleaning the thread up destroys the ones that are left. *)
From S2P Require Import Prelude Machine Uflib Model Cancellation Scheduler Coroutine Future Waiting.
From S2P Require Import Operators Combinators Dispatch Logic Links Guarantee CancellationFacts FutureFacts Demo OperatorFacts.
Local Open Scope prog_scope.

(** A created coroutine: its start record, what it will run, and libaco's object. *)
Record unstarted := Unstarted { us_node : ptr; us_co : ptr; us_entry : N; us_arg : ptr }.

Section Coroutines.
Context {E : Ext} {AS : AcoSpec E} (client : Client).
#[local] Abbreviation WPS := (wps (body client) log).
#[local] Abbreviation WP := (wp (body client) log).
Implicit Types (L : list unstarted).

Definition linked_start (u : unstarted) (prev next : ptr) : obj :=
  OStart (MkStart prev next (us_co u) (us_entry u) (us_arg u)).
Lemma start_inj u p p' n n' : linked_start u p n = linked_start u p' n' -> n = n'.
Proof. by intros [= _ ->]. Qed.
#[local] Abbreviation starts := (seg us_node linked_start).

Definition us_nodes L : list ptr := us_node <$> L.
Definition us_cos L : list ptr := us_co <$> L.

(** The current thread's list is [L]. *)
Record unstarted_list (L : list unstarted) (s : st) : Prop := {
  ul_links : exists last, starts (heap s) NULL (t_unstarted_head (tls_of s)) L last NULL;
  ul_nodes : NoDup (us_nodes L);
  ul_cos : NoDup (us_cos L);
  ul_aco u : u ∈ L -> us_co u <> NULL /\ exists a, heap s !! us_co u = Some (OAco a) /\ aco_arg a = us_node u /\ aco_is_end a = false;
}.

(** The thread's variables with another head of the list. *)
Definition tls_but_head (s s' : st) : Prop :=
  cur s' = cur s /\ tls_of s' = set_t_unstarted_head (t_unstarted_head (tls_of s')) (tls_of s).

(** Only the nodes [ps] and the head of the list differ. *)
Record relinked (ps : list ptr) (s s' : st) : Prop := {
  re_tls : tls_but_head s s';
  re_fds : fds s' = fds s;
  re_trace : trace s' = trace s;
  re_next : next_ptr s' = next_ptr s;
  re_oracle : oracle s' = oracle s;
  re_heap p : p ∉ ps -> heap s' !! p = heap s !! p;
}.

Lemma tls_of_set u s : tls_of (with_tls (<[cur s := u]>) s) = u.
Proof. unfold tls_of. simpl. by rewrite lookup_insert_eq. Qed.

Lemma tls_of_eq s m u : tls s = <[cur s := u]> m -> tls_of s = u.
Proof. unfold tls_of. intros ->. by rewrite lookup_insert_eq. Qed.

Lemma us_not_co L s p : unstarted_list L s -> p ∈ us_nodes L -> p ∉ us_cos L.
Proof.
  intros [[last Hs] _ _ Ha] Hp (u & -> & Hu)%list_elem_of_fmap. destruct (Ha u Hu) as (_ & a & Hx & _).
  destruct (seg_live _ _ _ _ _ _ _ _ _ Hs Hp) as (_ & r & pv & nx & _ & _ & Hy). unfold linked_start in Hy. congruence.
Qed.

Lemma link_spec u L s :
  (exists pv nx, heap s !! us_node u = Some (linked_start u pv nx)) -> us_node u <> NULL -> us_node u ∉ us_nodes L ->
  us_co u <> NULL -> us_co u ∉ us_cos L ->
  (exists a, heap s !! us_co u = Some (OAco a) /\ aco_arg a = us_node u /\ aco_is_end a = false) -> unstarted_list L s ->
  WP (sUnstartedLink (us_node u))
    (fun _ s' => unstarted_list (u :: L) s' /\ relinked (us_nodes (u :: L)) s s') s.
Proof.
  intros (pv & nx & Hu) Hu0 HuL Hc0 HcL Hco Hul. pose proof Hul as [[last Hs] Hn Hcs Ha].
  unfold sUnstartedLink. assert (Hu' : heap s !! us_node u = Some (OStart (MkStart pv nx (us_co u) (us_entry u) (us_arg u)))) by done.
  wp_steps. change (tls_of (store_cell _ _ s)) with (tls_of s). set (hd := t_unstarted_head (tls_of s)) in *.
  eapply (wps_seq _ _ _ _ (fun _ s1 => exists h1 last', s1 = with_heap (fun _ => h1) s /\ starts h1 NULL (us_node u) (u :: L) last' NULL /\
    forall p, p ∉ us_nodes (u :: L) -> h1 !! p = heap s !! p)).
  - destruct L as [|r L]; simpl in Hs.
    + destruct Hs as [-> _]. change (is_null NULL) with true. simpl. apply wps_ret. eexists _, (us_node u). split; [reflexivity|].
      split_and!; try done; [exists NULL; split; [by rewrite !lookup_insert_eq|done]|].
      intros p [Hp _]%not_elem_of_cons. simpl. by rewrite !lookup_insert_ne.
    + destruct Hs as (Hhd & Hh0 & next & Hr & Hs). rewrite (is_null_false hd) by done. simpl. unfold linked_start in Hr.
      assert (Hne : hd <> us_node u) by (intros Heq; apply HuL; rewrite <- Heq, Hhd; by left). wp_steps.
      assert (HuL' : us_node u ∉ us_nodes L) by (intros Hin; apply HuL; by right).
      apply NoDup_cons in Hn as [Hrn _]. eexists _, last. split; [reflexivity|]. split_and!; try done; simpl.
      * exists hd. split; [rewrite !lookup_insert_ne by done; by rewrite !lookup_insert_eq|].
        split_and!; [done|done|]. exists next. split; [by rewrite lookup_insert_eq|].
        eapply seg_frame; [|exact Hs]. intros p Hp. rewrite !lookup_insert_ne; [done|..]; intros <-; [done..|].
        apply Hrn. by rewrite <- Hhd.
      * intros p Hp. rewrite !not_elem_of_cons in Hp. destruct Hp as (? & ? & _). rewrite !lookup_insert_ne; [done|done..|congruence].
  - cbn beta. intros _ s1 (h1 & last' & -> & Hs1 & Hrest). wp_steps.
    assert (Hn' : us_node u ∉ us_nodes L) by done.
    assert (Hac : forall v, v ∈ u :: L -> us_co v <> NULL /\ exists a, h1 !! us_co v = Some (OAco a) /\ aco_arg a = us_node v /\ aco_is_end a = false).
    { intros v Hv. assert (Hva : us_co v <> NULL /\ exists a, heap s !! us_co v = Some (OAco a) /\ aco_arg a = us_node v /\ aco_is_end a = false).
      { apply elem_of_cons in Hv as [->|Hv]; [done|by apply Ha]. }
      destruct Hva as (? & a & Hx & ?). split; [done|]. exists a. split; [|done]. rewrite Hrest; [done|].
      intros [Heq|Hin]%elem_of_cons; [congruence|].
      destruct (seg_live _ _ _ _ _ _ _ _ _ Hs Hin) as (_ & r & pv' & nx' & _ & _ & Hy). unfold linked_start in Hy. congruence. }
    assert (Ht : tls_of (with_tls (<[cur s := set_t_unstarted_head (us_node u) (tls_of s)]>) (with_heap (fun _ => h1) s))
      = set_t_unstarted_head (us_node u) (tls_of s)) by apply (tls_of_set _ (with_heap (fun _ => h1) s)).
    split; split; try done.
      * exists last'. change (tls_of (with_heap _ s)) with (tls_of s). cbn [heap with_tls with_heap cur]. rewrite Ht. exact Hs1.
      * apply NoDup_cons. done.
      * apply NoDup_cons. done.
      * split; [done|]. change (tls_of (with_heap _ s)) with (tls_of s). cbn [cur with_heap]. by rewrite Ht.
Qed.

(** Unlinking a coroutine leaves the others in order. *)
Lemma nodup_middle {A} (f : A -> ptr) l1 u l2 :
  NoDup (f <$> (l1 ++ u :: l2)) -> f u ∉ f <$> (l1 ++ l2) /\ NoDup (f <$> (l1 ++ l2)) /\
  forall p, p ∈ f <$> l1 -> p ∈ f <$> l2 -> False.
Proof. rewrite !fmap_app, fmap_cons, NoDup_app, NoDup_cons, NoDup_app. set_solver. Qed.

Lemma tls_kept s s' : cur s' = cur s -> tls_of s' = tls_of s -> tls_but_head s s'.
Proof. intros Hc Ht. split; [done|]. rewrite Ht. by destruct (tls_of s). Qed.

(** The links of the neighbours, and nothing else of the list, are written. *)
Lemma unlink_finish L1 u L2 s s' h head last :
  unstarted_list (L1 ++ u :: L2) s ->
  starts h NULL head (L1 ++ L2) last NULL -> (forall p, p ∉ us_nodes (L1 ++ L2) -> h !! p = heap s !! p) ->
  heap s' = <[us_node u := linked_start u NULL NULL]> h -> t_unstarted_head (tls_of s') = head -> tls_but_head s s' ->
  fds s' = fds s -> trace s' = trace s -> next_ptr s' = next_ptr s -> oracle s' = oracle s ->
  unstarted_list (L1 ++ L2) s' /\ heap s' !! us_node u = Some (linked_start u NULL NULL) /\
  relinked (us_nodes (L1 ++ u :: L2)) s s'.
Proof.
  intros Hul Hs' Hsame Hh Hhd Htls ? ? ? ?. pose proof Hul as [_ Hn Hcs Ha].
  destruct (nodup_middle us_node _ _ _ Hn) as (Hout & Hn' & _), (nodup_middle us_co _ _ _ Hcs) as (_ & Hcs' & _).
  assert (Hoff : forall p, p ∉ us_nodes (L1 ++ u :: L2) -> heap s' !! p = heap s !! p).
  { unfold us_nodes in *. intros p Hp. rewrite Hh, lookup_insert_ne; [apply Hsame|intros <-; apply Hp];
      rewrite fmap_app, ?fmap_cons in *; set_solver. }
  split_and!; [split; try done|by rewrite Hh, lookup_insert_eq|by split].
  - exists last. rewrite Hh, Hhd. eapply seg_frame; [|exact Hs']. intros p Hp. rewrite lookup_insert_ne; [done|]. by intros <-.
  - intros v Hv. assert (Hv' : v ∈ L1 ++ u :: L2) by (set_solver +Hv). destruct (Ha v Hv') as (? & a & Hx & ?).
    split; [done|]. exists a. split; [|done]. rewrite Hoff; [done|]. intros Hin. eapply us_not_co; [exact Hul|exact Hin|].
    by apply list_elem_of_fmap_2.
Qed.

Lemma unlink_spec L1 u L2 s :
  unstarted_list (L1 ++ u :: L2) s ->
  WP (sUnstartedUnlink (us_node u))
    (fun _ s' => unstarted_list (L1 ++ L2) s' /\ heap s' !! us_node u = Some (linked_start u NULL NULL) /\
       relinked (us_nodes (L1 ++ u :: L2)) s s') s.
Proof.
  intros Hul. pose proof Hul as [[last Hs] Hn _ _].
  destruct (seg_unlink _ _ _ _ _ _ _ _ start_inj Hs Hn) as (prev & next & np & nn & last' & Hr & Hr0 & Hnp & Hnn & Hs').
  destruct (nodup_middle us_node _ _ _ Hn) as (Hout & _ & Hdis).
  assert (Hin : forall p, p ∉ us_nodes (L1 ++ L2) -> p ∉ us_node <$> L1 /\ p ∉ us_node <$> L2).
  { unfold us_nodes. intros p. rewrite fmap_app. set_solver +. }
  assert (Hu : forall p, p ∈ us_node <$> L1 \/ p ∈ us_node <$> L2 -> us_node u <> p).
  { intros p Hp <-. apply Hin in Hout. naive_solver. }
  unfold sUnstartedUnlink. unfold linked_start in Hr, Hnp, Hnn. wp_steps.
  destruct np as [[rp pp]|]; [destruct Hnp as (Hp0 & HpL & Hp); pose proof (Hu _ (or_introl HpL))|destruct Hnp as [-> Hhd]];
  (destruct nn as [[rn nx]|]; [destruct Hnn as (Hnx0 & HnL & Hnx); pose proof (Hu _ (or_intror HnL))|subst next]);
  [assert (prev <> next) by (intros <-; by eapply Hdis)| | |];
  rewrite ?(is_null_false prev), ?(is_null_false next) by done; try change (is_null NULL) with true;
  simpl; wp_steps; simpl; wp_steps; (eapply unlink_finish; [exact Hul|exact Hs'|..]; try done).
  all: try solve [by apply tls_kept].
  all: try solve [split; [done|]; erewrite !tls_of_eq by reflexivity; done].
  all: try solve [erewrite !tls_of_eq by reflexivity; done].
  all: unfold relink_prev, relink_next, linked_start.
  all: try solve [intros p [Hp1 Hp2]%Hin; rewrite ?lookup_insert_ne; [done|..]; intros <-; contradiction].
  all: simpl; apply map_eq; intros p; heap_at p.

Qed.

(** ** Reclaiming the coroutines that are left *)
Lemma relinked_trans ps qs s1 s2 s3 : relinked ps s1 s2 -> relinked qs s2 s3 -> relinked (ps ++ qs) s1 s3.
Proof.
  intros [[Hc1 Ht1] ? ? ? ? Hh1] [[Hc2 Ht2] ? ? ? ? Hh2]. split; try congruence.
  - split; [congruence|]. rewrite Ht2 at 1. by rewrite Ht1.
  - intros p [??]%not_elem_of_app. by rewrite Hh2, Hh1.
Qed.

Definition us_cells L : list ptr := us_nodes L ++ us_cos L.

Lemma unstarted_list_frame L s s' :
  tls_of s' = tls_of s -> (forall p, p ∈ us_cells L -> heap s' !! p = heap s !! p) -> unstarted_list L s -> unstarted_list L s'.
Proof.
  intros Ht Hh [[last Hs] Hn Hcs Ha]. unfold us_cells in Hh. split; try done.
  - exists last. rewrite Ht. eapply seg_frame; [|exact Hs]. intros p Hp. apply Hh, elem_of_app. by left.
  - intros u Hu. destruct (Ha u Hu) as (? & a & ? & ?). split; [done|]. exists a. rewrite Hh; [done|].
    apply elem_of_app. right. by apply list_elem_of_fmap_2.
Qed.

(** The cells of the list are all different. *)
Lemma us_cells_nodup L s : unstarted_list L s -> NoDup (us_cells L).
Proof.
  intros Hul. pose proof Hul as [_ Hn Hcs _]. apply NoDup_app. split_and!; [done| |done]. intros p. by eapply us_not_co.
Qed.

Lemma us_cells_cons u L : us_cells (u :: L) ≡ₚ us_node u :: us_co u :: us_cells L.
Proof. unfold us_cells. simpl. by rewrite <- Permutation_middle. Qed.

Lemma reclaim_spec L s :
  unstarted_list L s ->
  WP (body client L_reclaim_unstarted)
    (fun _ s' => t_unstarted_head (tls_of s') = NULL /\ relinked (us_cells L) s s' /\
       forall p, p ∈ us_cells L -> heap s' !! p = None) s.
Proof.
  revert s. induction L as [|u L IH]; intros s Hul; unfold body, sReclaimUnstarted_loop.
  - wp_steps. pose proof Hul as [(last & Hhd & _) _ _ _]. rewrite Hhd. change (is_null NULL) with true. simpl.
    wp_steps. split; [done|]. split; [split; try done; by apply tls_kept|by intros p ?%elem_of_nil].
  - wp_steps. pose proof Hul as [(last & Hhd & Hu0 & _) Hn Hcs Ha]. simpl in Hhd. rewrite Hhd in Hu0 |- *.
    rewrite (is_null_false (us_node u)) by done. simpl.
    eapply wps_seq; [apply (unlink_spec [] u L s Hul)|]. intros _ s1 (Hul1 & Hu & Hre). simpl in Hul1.
    destruct (Ha u ltac:(by left)) as (Hc0 & a & Hco & _).
    assert (Hne : us_co u <> us_node u).
    { intros Heq. eapply (us_not_co _ _ (us_co u) Hul); [rewrite Heq|]; by left. }
    assert (Hco1 : heap s1 !! us_co u = Some (OAco a)).
    { rewrite (re_heap _ _ _ Hre); [done|]. intros Hin. eapply us_not_co; [exact Hul|exact Hin|by left]. }
    unfold linked_start in Hu. wp_steps. rewrite (is_null_false (us_co u)) by done. simpl. unfold aco_destroy. wp_steps.
    set (s2 := with_heap _ (with_heap _ s1)). pose proof (us_cells_nodup _ _ Hul) as Hnd.
    rewrite us_cells_cons, !NoDup_cons, not_elem_of_cons in Hnd. destruct Hnd as ((_ & HuL) & HcL & _).
    assert (Hs2 : forall p, p ∈ us_cells L -> heap s2 !! p = heap s1 !! p).
    { intros p Hp. simpl. rewrite !lookup_delete_ne; [done|..]; by intros <-. }
    eapply wp_call_bind; [apply (IH s2); by eapply unstarted_list_frame; [|exact Hs2|]|].
    simpl. intros _ s3 (Hhd3 & Hre3 & Hgone). wp_steps. split; [done|].
    assert (Hre2 : relinked (us_cells (u :: L)) s s2).
    { destruct Hre as [[??] ? ? ? ? Hh]. split; try done. intros p Hp. rewrite us_cells_cons, !not_elem_of_cons in Hp.
      destruct Hp as (? & ? & Hp). simpl. rewrite !lookup_delete_ne by done. apply Hh.
      intros [->|Hin]%elem_of_cons; [done|]. apply Hp, elem_of_app. by left. }
    assert (Hcut : forall p, p ∈ us_cells (u :: L) -> heap s3 !! p = None).
    { intros p. rewrite us_cells_cons. intros [->|[->|Hp]%elem_of_cons]%elem_of_cons; [..|by apply Hgone];
        (rewrite (re_heap _ _ _ Hre3) by done); simpl; [apply lookup_delete_eq|].
      rewrite lookup_delete_ne by done. apply lookup_delete_eq. }
    split; [|done]. destruct (relinked_trans _ _ _ _ _ Hre2 Hre3). split; try done.
    intros p Hp. apply re_heap0. rewrite us_cells_cons, !not_elem_of_cons in Hp.
    intros [Hin|Hin]%elem_of_app; [rewrite us_cells_cons, !elem_of_cons in Hin|]; naive_solver.
Qed.

(** ** The thread that owns them *)

(** A thread that has used coroutines: its list, libaco's main coroutine and the
    stack its coroutines share. *)
Record coroutine_thread L (s : st) : Prop := {
  ct_list : unstarted_list L s;
  ct_init : t_initialized (tls_of s) = true;
  ct_main : t_main_co (tls_of s) <> NULL /\ t_main_co (tls_of s) ∉ us_cos L /\ exists a, heap s !! t_main_co (tls_of s) = Some (OAco a);
  ct_share : t_share_stack (tls_of s) <> NULL /\ heap s !! t_share_stack (tls_of s) = Some OShareStack;
}.

(** Everything the thread holds. *)
Definition thread_cells L s : list ptr := [t_share_stack (tls_of s); t_main_co (tls_of s)] ++ us_cells L.

Lemma coroutine_thread_frame L s s' :
  tls_of s' = tls_of s -> (forall p, p ∈ thread_cells L s -> heap s' !! p = heap s !! p) ->
  coroutine_thread L s -> coroutine_thread L s'.
Proof.
  unfold thread_cells. simpl. intros Ht Hh [Hul Hin (? & ? & a & ?) (? & ?)]. split; rewrite ?Ht; try done.
  - eapply unstarted_list_frame; [done| |exact Hul]. intros p Hp. apply Hh. by right; right.
  - split_and!; try done. exists a. rewrite Hh; [done|]. right. by left.
  - split; [done|]. rewrite Hh; [done|]. by left.
Qed.

Lemma thread_cells_live L s p : coroutine_thread L s -> p ∈ thread_cells L s -> is_Some (heap s !! p).
Proof.
  intros [Hul _ (_ & _ & a & Hm) (_ & Hsh)]. destruct Hul as [[last Hs] _ _ Ha]. unfold thread_cells, us_cells. simpl.
  intros [->|[->|[Hp|(u & -> & Hu)%list_elem_of_fmap]%elem_of_app]%elem_of_cons]%elem_of_cons; [eauto..| |].
  - destruct (seg_live _ _ _ _ _ _ _ _ _ Hs Hp) as (_ & r & pv & nx & _ & _ & Hy). eauto.
  - destruct (Ha u Hu) as (_ & b & Hb & _). eauto.
Qed.

(** An address of the list is neither of these waiting. *)
Lemma thread_cells_apart L s :
  coroutine_thread L s -> t_share_stack (tls_of s) ∉ us_cells L /\ t_main_co (tls_of s) ∉ us_cells L /\
  t_share_stack (tls_of s) <> t_main_co (tls_of s).
Proof.
  intros [Hul _ (_ & Hmc & a & Hm) (_ & Hsh)]. pose proof Hul as [[last Hs] _ _ Ha]. unfold us_cells. rewrite !not_elem_of_app.
  assert (Hlive : forall p, p ∈ us_nodes L -> exists c, heap s !! p = Some (OStart c)).
  { intros p Hp. destruct (seg_live _ _ _ _ _ _ _ _ _ Hs Hp) as (_ & r & pv & nx & _ & _ & Hy). eauto. }
  split_and!; try done; try congruence.
  - intros [c Hc]%Hlive. congruence.
  - intros (u & Hu & HuL)%list_elem_of_fmap. destruct (Ha u HuL) as (_ & b & Hb & _). congruence.
  - intros [c Hc]%Hlive. congruence.
Qed.

Lemma thread_cells_nodup L s : coroutine_thread L s -> NoDup (thread_cells L s).
Proof.
  intros Hct. pose proof (thread_cells_apart _ _ Hct) as (Hsl & Hml & Hsm). unfold thread_cells. simpl.
  rewrite !NoDup_cons, not_elem_of_cons. pose proof (us_cells_nodup _ _ (ct_list _ _ Hct)). done.
Qed.

Lemma thread_cells_middle L1 u L2 s : thread_cells (L1 ++ u :: L2) s ≡ₚ us_node u :: us_co u :: thread_cells (L1 ++ L2) s.
Proof. unfold thread_cells, us_cells, us_nodes, us_cos. rewrite !fmap_app, !fmap_cons. solve_Permutation. Qed.

(** Cleaning up frees exactly what the thread holds. *)
Record thread_reclaimed L (s s' : st) : Prop := {
  tr_gone p : p ∈ thread_cells L s -> heap s' !! p = None;
  tr_rest p : p ∉ thread_cells L s -> heap s' !! p = heap s !! p;
  tr_init : t_initialized (tls_of s') = false;
  tr_head : t_unstarted_head (tls_of s') = NULL;
  tr_main : t_main_co (tls_of s') = NULL;
  tr_share : t_share_stack (tls_of s') = NULL;
  tr_fds : fds s' = fds s;
  tr_trace : trace s' = trace s;
}.

Lemma ThreadCleanup_spec L s :
  coroutine_thread L s -> WP UfsrvCoroutineThreadCleanup (fun _ s' => thread_reclaimed L s s') s.
Proof.
  intros Hct. pose proof (thread_cells_apart _ _ Hct) as (Hsl & Hml & Hsm).
  pose proof Hct as [Hul Hin (Hm0 & _ & a & Hm) (Hs0 & Hsh)].
  unfold UfsrvCoroutineThreadCleanup, sFreeThreadState, sReclaimUnstarted, aco_share_stack_destroy, aco_destroy.
  wp_steps. rewrite Hin. simpl. wp_steps. eapply wp_call_bind; [by apply (reclaim_spec L)|].
  change (log L_reclaim_unstarted s) with s. simpl. intros _ s1 (Hhd & [[Hc Ht] ? ? ? ? Hkeep] & Hgone).
  wp_steps. rewrite Ht. simpl. rewrite (is_null_false _ Hs0). simpl.
  assert (Hsh1 : heap s1 !! t_share_stack (tls_of s) = Some OShareStack) by by rewrite Hkeep.
  assert (Hm1 : heap s1 !! t_main_co (tls_of s) = Some (OAco a)) by by rewrite Hkeep.
  wp_steps. erewrite !tls_of_eq by reflexivity. change (tls_of (with_heap _ s1)) with (tls_of s1). rewrite Ht. simpl.
  rewrite (is_null_false _ Hm0). simpl. wp_steps. split; try (erewrite tls_of_eq by reflexivity); simpl.
  - intros p Hp. unfold thread_cells in Hp. simpl in Hp. rewrite !elem_of_cons in Hp. destruct Hp as [->|[->|Hp]].
    + rewrite lookup_delete_ne by done. apply lookup_delete_eq.
    + apply lookup_delete_eq.
    + rewrite !lookup_delete_ne; [by apply Hgone|..]; by intros <-.
  - intros p Hp. unfold thread_cells in Hp. simpl in Hp. rewrite !not_elem_of_cons in Hp. destruct Hp as (? & ? & Hp).
    rewrite !lookup_delete_ne by done. by apply Hkeep.
  - done.
  - repeat (erewrite tls_of_eq by reflexivity). exact Hhd.
  - by repeat (erewrite tls_of_eq by reflexivity).
  - by repeat (erewrite tls_of_eq by reflexivity).
  - done.
  - done.
Qed.

(** ** Creating one *)

(** [u] is new in [s']: its two cells are fresh and in front of the list. *)
Record created L (u : unstarted) entry arg_ptr (s s' : st) : Prop := {
  cr_entry : us_entry u = entry;
  cr_arg : us_arg u = arg_ptr;
  cr_node : heap s !! us_node u = None;
  cr_co : heap s !! us_co u = None;
  cr_thread : coroutine_thread (u :: L) s';
  cr_tls : tls_but_head s s';
  cr_rest p : p ∉ us_nodes L -> p <> us_node u -> p <> us_co u -> heap s' !! p = heap s !! p;
}.

Lemma CoroutineCreate_spec L entry arg_ptr s :
  wf_alloc s -> coroutine_thread L s ->
  WP (UfsrvCoroutineCreate (Some entry) arg_ptr)
    (fun co s' => fds s' = fds s /\ trace s' = trace s /\
       ((co = NULL /\ oracle s <> [] /\ heap s' = heap s /\ coroutine_thread L s') \/
        (exists u, co = us_co u /\ created L u entry arg_ptr s s'))) s.
Proof.
  intros Hwf Hct. pose proof Hct as [Hul Hin (Hm0 & Hmc & a & Hm) (Hs0 & Hsh)].
  unfold UfsrvCoroutineCreate, sEnsureThreadInit, aco_create. wp_steps. rewrite Hin. wp_steps.
  apply wps_alloc_or_oom; [done|intros o Ho; change (is_null NULL) with true; wp_steps|intros o Ho].
  { split_and!; [done..|]. left. split_and!; try done. by apply (coroutine_thread_frame L s). }
  destruct Hwf as [Hpos Hfree]. assert (Hn0 : next_ptr s <> NULL) by (unfold NULL; lia).
  rewrite (is_null_false (next_ptr s)) by done. wp_steps.
  set (s1 := with_next_ptr _ _). assert (Hwf1 : wf_alloc s1).
  { split; simpl; [lia|]. intros p Hp. rewrite lookup_insert_ne by lia. apply Hfree. lia. }
  assert (Hnew : forall p, is_Some (heap s !! p) -> (p < next_ptr s)%N).
  { intros p [c Hc]. destruct (decide (p < next_ptr s)%N); [done|]. rewrite Hfree in Hc by lia. done. }
  pose proof (Hfree (next_ptr s) ltac:(lia)) as Hfn.
  apply wps_alloc_or_oom; [done|intros o' Ho'; change (is_null NULL) with true; wp_steps|intros o' _].
  { assert (Hh : delete (next_ptr s) (<[next_ptr s := OStart (MkStart NULL NULL NULL entry arg_ptr)]> (heap s)) = heap s)
      by by apply delete_insert_id.
    split_and!; [done..|]. left. split_and!; try done; [auto|]. apply (coroutine_thread_frame L s); [done| |done].
    intros p _. simpl. by rewrite Hh. }
  change (next_ptr s1) with (next_ptr s + 1)%N. set (n := next_ptr s) in *.
  assert (Hc0 : (n + 1)%N <> NULL) by (unfold NULL; lia). rewrite (is_null_false (n + 1)%N) by done. wp_steps.
  set (u := Unstarted n (n + 1)%N entry arg_ptr). set (s2 := store_cell n _ _).
  assert (Hs2 : forall p, p <> n -> p <> (n + 1)%N -> heap s2 !! p = heap s !! p) by (intros p ??; simpl; by rewrite !lookup_insert_ne by done).
  assert (Hcells : forall p, p ∈ thread_cells L s -> p <> n /\ p <> (n + 1)%N).
  { intros p Hp. assert (p < n)%N; [|lia]. apply Hnew. by eapply thread_cells_live. }
  pose proof (coroutine_thread_frame L s s2 eq_refl ltac:(intros p [??]%Hcells; by apply Hs2) Hct) as Hct2.
  eapply wps_seq; [apply (link_spec u L s2)|].
  - exists NULL, NULL. simpl. rewrite lookup_insert_eq. done.
  - done.
  - intros Hin'. destruct (Hcells n); [|done]. by do 2 right; apply elem_of_app; left.
  - done.
  - intros Hin'. destruct (Hcells (n + 1)%N); [|done]. by do 2 right; apply elem_of_app; right.
  - eexists. simpl. rewrite lookup_insert_ne, lookup_insert_eq by lia. split; [done|]. by rewrite aco_new_arg, aco_new_end.
  - apply Hct2.
  - intros [] s3 [Hul3 Hre]. wp_steps. pose proof Hre as [[Hcur Ht] ? ? ? ? Hh]. split_and!; [done..|]. right. exists u. split; [done|].
    assert (Hoff : forall p, p ∈ [t_share_stack (tls_of s); t_main_co (tls_of s)] -> heap s3 !! p = heap s !! p /\ p <> (n + 1)%N).
    { intros p Hp. destruct (Hcells p) as [? ?]; [by apply elem_of_app; left|]. split; [|done]. rewrite Hh; [by apply Hs2|].
      apply not_elem_of_cons. split; [done|]. pose proof (thread_cells_apart _ _ Hct) as (Hsl & Hml & _). unfold us_cells in *.
      rewrite !elem_of_cons in Hp. rewrite not_elem_of_app in Hsl, Hml. destruct Hp as [->|[->|?%elem_of_nil]]; naive_solver. }
    destruct (Hoff (t_share_stack (tls_of s))) as [Hsh3 _]; [by left|].
    destruct (Hoff (t_main_co (tls_of s))) as [Hm3 Hmn]; [by right; left|].
    change (tls_of s2) with (tls_of s) in Ht. split; try done.
    + apply Hfree. simpl. lia.
    + split; [done|..]; rewrite Ht; [done|..]; cbn [set_t_unstarted_head t_main_co t_share_stack].
      * split_and!; [done|by apply not_elem_of_cons|]. exists a. by rewrite Hm3.
      * by rewrite Hsh3.
    + intros p Hp ? ?. rewrite Hh; [by apply Hs2|]. by apply not_elem_of_cons.
Qed.

(** ** Starting one *)

(** libaco's switch into the coroutine [co]. *)
Definition switch_to (co : ptr) (s : st) : st := with_tls (<[cur s := set_t_aco_co co (tls_of s)]>) s.

Lemma coroutine_thread_switch co L s : coroutine_thread L s -> coroutine_thread L (switch_to co s).
Proof.
  intros [[[last Hs] Hn Hc Ha] Hin Hm Hsh]. split; [split|..]; unfold switch_to; rewrite ?tls_of_set; try done. by exists last.
Qed.

(** What the first resume of [u] achieves.  libaco switches into the trampoline with
    [u]'s coroutine current.  The entry then runs with [u] off the list, its start
    record freed, its argument readable through the coroutine, and the other
    coroutines, everything else and the history as they were.  If it returns, the
    coroutine is marked ended and switches out for good; [R] is what the entry
    achieves. *)
Definition first_resume L1 u L2 s : Prop :=
  forall R : st -> Prop,
    (forall s1, coroutine_thread (L1 ++ L2) s1 -> heap s1 !! us_node u = None ->
       (exists a, heap s1 !! us_co u = Some (OAco a) /\ aco_arg a = us_arg u /\ aco_is_end a = false) ->
       tls_but_head (switch_to (us_co u) s) s1 -> fds s1 = fds s -> trace s1 = trace s ->
       (forall p, p ∉ us_cells (L1 ++ u :: L2) -> heap s1 !! p = heap s !! p) ->
       WP (body client (K_entry (us_entry u)))
         (fun _ s2 => t_aco_co (tls_of s2) = us_co u /\ (exists a, heap s2 !! us_co u = Some (OAco a)) /\ R s2)
         (log (K_entry (us_entry u)) s1)) ->
    WPS sCoroutineTrampoline (fun _ _ => False) (fun _ _ => False)
      (fun p s3 => p = abort /\ exists s2 a, R s2 /\ heap s2 !! us_co u = Some (OAco a) /\
         heap s3 = <[us_co u := OAco (aco_set_end a)]> (heap s2) /\ fds s3 = fds s2 /\ trace s3 = trace s2) (switch_to (us_co u) s).

Lemma coroutine_thread_drop L1 u L2 s s1 :
  coroutine_thread (L1 ++ u :: L2) s -> unstarted_list (L1 ++ L2) s1 -> relinked (us_nodes (L1 ++ u :: L2)) s s1 ->
  coroutine_thread (L1 ++ L2) s1.
Proof.
  intros Hct Hul [[_ Ht] _ _ _ _ Hh]. pose proof (thread_cells_apart _ _ Hct) as (Hsl & Hml & _).
  pose proof Hct as [_ Hin (Hm0 & Hmc & a & Hm) (Hs0 & Hsh)]. unfold us_cells in *. rewrite not_elem_of_app in Hsl, Hml.
  split; [done|..]; rewrite Ht; [done|..]; cbn [set_t_unstarted_head t_main_co t_share_stack].
  - split_and!; [done| |exists a; by rewrite Hh by apply Hml]. unfold us_cos in *. rewrite fmap_app, ?fmap_cons in *. set_solver +Hmc.
  - by rewrite Hh by apply Hsl.
Qed.

Lemma trampoline_spec L1 u L2 s : coroutine_thread (L1 ++ u :: L2) s -> first_resume L1 u L2 s.
Proof.
  intros Hct%(coroutine_thread_switch (us_co u)) R Hentry.
  assert (Hco : t_aco_co (tls_of (switch_to (us_co u) s)) = us_co u) by (unfold switch_to; by rewrite tls_of_set).
  change (fds s) with (fds (switch_to (us_co u) s)) in Hentry. change (trace s) with (trace (switch_to (us_co u) s)) in Hentry.
  change (heap s) with (heap (switch_to (us_co u) s)) in Hentry. generalize dependent (switch_to (us_co u) s).
  clear s. intros s Hct Hentry Hco. pose proof Hct as [Hul _ _ _]. pose proof Hul as [[last Hs] _ _ Ha].
  assert (Hu : u ∈ L1 ++ u :: L2) by set_solver +. destruct (Ha u Hu) as (Hc0 & a & Hac & Harg & Hend).
  destruct (seg_unlink _ _ _ _ _ _ _ _ start_inj Hs (ul_nodes _ _ Hul)) as (pv & nx & _ & _ & _ & Hn & Hn0 & _).
  unfold sCoroutineTrampoline, aco_get_co, aco_get_arg. wp_steps. rewrite !Hco. wp_steps. unfold aco_get_co. wp_steps. rewrite !Hco. wp_steps. rewrite !Harg.
  unfold linked_start in Hn. wp_steps.
  eapply wps_seq; [by apply unlink_spec|]. cbn beta. intros [] s1 (Hul1 & Hu1 & Hre).
  pose proof (thread_cells_nodup _ _ Hct) as Hnd. rewrite thread_cells_middle, !NoDup_cons, not_elem_of_cons in Hnd.
  destruct Hnd as ((Hnc & HnL) & HcL & _).
  assert (Hco1 : heap s1 !! us_co u = Some (OAco a)).
  { rewrite (re_heap _ _ _ Hre); [done|]. intros Hin. eapply us_not_co; [exact Hul|exact Hin|by apply list_elem_of_fmap_2]. }
  pose proof (coroutine_thread_drop _ _ _ _ _ Hct Hul1 Hre) as Hct1. unfold linked_start in Hu1. wp_steps.
  set (s2 := store_cell _ _ _).
  assert (Hs2 : forall p, p <> us_node u -> p <> us_co u -> heap s2 !! p = heap s1 !! p).
  { intros p ??. simpl. by rewrite lookup_insert_ne, lookup_delete_ne by done. }
  destruct Hre as [[? Ht] ? ? ? ? Hh]. change (tls_of s1) with (tls_of s2) in Ht.
  eapply wp_call_bind; [apply (Hentry s2); try done|].
  - apply (coroutine_thread_frame _ s1); [done| |done]. intros p Hin.
    apply Hs2; intros ->; [apply HnL|apply HcL]; unfold thread_cells in *; change (tls_of s2) with (tls_of s1) in Ht; rewrite Ht in Hin; exact Hin.
  - simpl. by rewrite lookup_insert_ne, lookup_delete_eq.
  - eexists. simpl. rewrite lookup_insert_eq. split; [done|]. by rewrite aco_set_arg_arg, aco_set_arg_end.
  - intros p Hp. assert (Hp' : p ∉ us_node u :: us_co u :: us_cells (L1 ++ L2)).
    { unfold us_cells, us_nodes, us_cos in *. rewrite fmap_app, !fmap_app, !fmap_cons in *. set_solver +Hp. }
    rewrite !not_elem_of_cons in Hp'. rewrite Hs2 by naive_solver. apply Hh. intros Hin. apply Hp, elem_of_app. by left.
  - cbn beta. intros _ s3 (Hco3 & (b & Hb) & HR). unfold aco_exit, aco_get_co. wp_steps. rewrite Hco3. wp_steps.
    rewrite bind_ret_r. apply wps_yield. split; [done|]. by exists s3, b.
Qed.

(** The list after [Create]. *)
Definition linked_after (co : ptr) L entry arg_ptr s s1 L' : Prop :=
  (co = NULL /\ oracle s <> [] /\ heap s1 = heap s /\ L' = L) \/
  (exists u, co = us_co u /\ created L u entry arg_ptr s s1 /\ L' = u :: L).
End Coroutines.

(** C39.  A coroutine that has been created is started or reclaimed.  On a thread
    with the coroutines [L] waiting to be started, [Create] fails for want of memory
    only, with memory as it was, or puts one new coroutine in front of them.  The
    first resume of any of them, in any order, takes that one off the list, frees its
    start record and runs its entry with its argument, the others undisturbed, and
    marks it ended when the entry returns.  Cleaning the thread up instead frees every
    coroutine left, its start record, the shared stack and the main coroutine, and
    nothing else, and runs nothing. *)
Theorem coroutine_starts_or_is_reclaimed {E : Ext} {AS : AcoSpec E} client L entry arg_ptr s :
  wf_alloc s -> coroutine_thread L s ->
  wp (body client) log (UfsrvCoroutineCreate (Some entry) arg_ptr)
    (fun co s1 => fds s1 = fds s /\ trace s1 = trace s /\
       exists L', linked_after co L entry arg_ptr s s1 L' /\ coroutine_thread L' s1 /\
         (forall L1 u L2, L' = L1 ++ u :: L2 -> first_resume client L1 u L2 s1) /\
         wp (body client) log UfsrvCoroutineThreadCleanup (fun _ s2 => thread_reclaimed L' s1 s2) s1) s.
Proof.
  intros Hwf Hct. eapply wp_mono; [by apply CoroutineCreate_spec|]. simpl. intros co s1 (Hf & Ht & Hc). split_and!; [done..|].
  assert (exists L', linked_after co L entry arg_ptr s s1 L' /\ coroutine_thread L' s1) as (L' & Hl & Hct').
  { unfold linked_after. destruct Hc as [(? & ? & ? & ?)|(u & ? & Hu)]; [exists L; naive_solver|].
    exists (u :: L). split; [|apply Hu]. right. by exists u. }
  exists L'. split_and!; [done|done| |by apply ThreadCleanup_spec]. intros L1 u L2 ->. by apply trampoline_spec.
Qed.

(** ** Witness: a thread with two coroutines waiting creates a third *)
#[local] Existing Instances RefExt.ext RefExt.aco_spec.

Definition waiting_prog : cprog unit :=
  let! _ := UfsrvCoroutineCreate (Some 5%N) 50%N in
  let! _ := UfsrvCoroutineCreate (Some 6%N) 60%N in
  Ret tt.
Definition waiting_st : st := after waiting_prog boot.
Definition waiting : list unstarted := [Unstarted 5%N 6%N 6%N 60%N; Unstarted 3%N 4%N 5%N 50%N].

Lemma waiting_wf : wf_machine waiting_st.
Proof.
  apply after_wf; [|apply boot_wf]. unfold waiting_prog.
  repeat (apply guar_bind; [apply (api_guar _ _ (api_coroutine_create _ _))|intros ?]). apply guar_ret.
Qed.

Lemma waiting_thread : coroutine_thread waiting waiting_st.
Proof.
  split; [split|..].
  - exists 3%N. assert (t_unstarted_head (tls_of waiting_st) = 5%N) as -> by (vm_compute; reflexivity). cbn [seg waiting].
    do 2 (apply conj; [reflexivity|]; apply conj; [discriminate|]; eexists; apply conj; [vm_compute; reflexivity|]). done.
  - by apply (bool_decide_unpack _).
  - by apply (bool_decide_unpack _).
  - intros u Hu. unfold waiting in Hu. rewrite !elem_of_cons, elem_of_nil in Hu. destruct Hu as [->|[->|[]]];
      (split; [discriminate|]; eexists; split; [vm_compute; reflexivity|done]).
  - vm_compute. reflexivity.
  - assert (t_main_co (tls_of waiting_st) = 1%N) as -> by (vm_compute; reflexivity). split; [discriminate|]. split; [by apply (bool_decide_unpack _)|].
    eexists. vm_compute. reflexivity.
  - assert (t_share_stack (tls_of waiting_st) = 2%N) as -> by (vm_compute; reflexivity). split; [discriminate|]. vm_compute. reflexivity.
Qed.

Lemma coroutine_starts_or_is_reclaimed_witness :
  wp (body quiet_client) log (UfsrvCoroutineCreate (Some 7%N) 70%N)
    (fun co s1 => fds s1 = fds waiting_st /\ trace s1 = trace waiting_st /\
       exists L', linked_after co waiting 7%N 70%N waiting_st s1 L' /\ coroutine_thread L' s1 /\
         (forall L1 u L2, L' = L1 ++ u :: L2 -> first_resume quiet_client L1 u L2 s1) /\
         wp (body quiet_client) log UfsrvCoroutineThreadCleanup (fun _ s2 => thread_reclaimed L' s1 s2) s1) waiting_st.
Proof.
  apply (coroutine_starts_or_is_reclaimed quiet_client waiting 7%N 70%N waiting_st); [apply waiting_wf|apply waiting_thread].
Defined.
