(* ===== verification/PoolFacts.v ===== *)
(** * PoolFacts: the life of a pool of schedulers

    Creating a pool with all its workers, rolling back when one cannot be created,
    and destroying it. *)
From Stdlib Require Import String FunctionalExtensionality.
From S2P Require Import Prelude Machine Uflib Model Scheduler Dispatch Logic Guarantee.
From S2P Require Import CancellationFacts FutureFacts Demo WaitingFacts SchedulerFacts SchedulerLife.
Local Open Scope prog_scope.

(** The names: prefix or "worker", dash, index. *)
Example worker_names :
  worker_name None 0 = "worker-0"%string /\ worker_name (Some "net"%string) 12 = "net-12"%string /\
  String.length (worker_name (Some (String.concat "." (replicate 9 "12345678"%string))) 3) = 63.
Proof. vm_compute. done. Qed.

Section Pool.
Context {E : Ext} {TS : TreiberSpec E} {MS : MpscSpec E} (client : Client) (Hclient : client_guar client).
#[local] Abbreviation WPS := (wps (body client) log).
#[local] Abbreviation WP := (wp (body client) log).

(** A worker that was created and never started: its struct, its name, its descriptor. *)
Record fresh_worker := Fresh { fw_ptr : ptr; fw_name : ptr; fw_fd : Z }.
Definition fw_rep (s : st) (c : fresh_worker) : Prop :=
  fw_name c <> NULL /\ sched_rep (fw_ptr c) (fresh_scheduler (fw_name c) (fw_fd c)) [] s.
Definition fw_cells (C : list fresh_worker) : list ptr := C ≫= (fun c => [fw_ptr c; fw_name c]).
Definition fw_fds (C : list fresh_worker) : list Z := fw_fd <$> C.

Lemma fw_cells_cons c C : fw_cells (c :: C) = fw_ptr c :: fw_name c :: fw_cells C.
Proof. done. Qed.
Lemma fw_cells_app C D : fw_cells (C ++ D) = fw_cells C ++ fw_cells D.
Proof. unfold fw_cells. by rewrite bind_app. Qed.
Lemma fw_cells_elem c C : c ∈ C -> fw_ptr c ∈ fw_cells C /\ fw_name c ∈ fw_cells C.
Proof. intros Hc. unfold fw_cells. split; apply list_elem_of_bind; exists c; set_solver. Qed.

Lemma fw_rep_frame s s' c :
  fw_rep s c -> wf_alloc s' -> heap s' !! fw_ptr c = heap s !! fw_ptr c ->
  heap s' !! fw_name c = heap s !! fw_name c -> fds s' !! fw_fd c = fds s !! fw_fd c -> fw_rep s' c.
Proof.
  intros [Hn []] Hwf Hp Hnm Hfd. split; [done|]. simpl in *. split; simpl; try done.
  - by rewrite Hp.
  - by intros j ?%elem_of_nil.
  - by rewrite Hfd.
  - by rewrite Hnm.
Qed.

Lemma seq_prog_app (l l' : list (cprog unit)) :
  seq_prog (l ++ l') = bind (seq_prog l) (fun _ => seq_prog l').
Proof. induction l as [|p l IH]; simpl; [done|]. by rewrite bind_bind, IH. Qed.

(** Destroying them one after the other. *)
Lemma destroy_workers C arr l k s :
  wf_machine s -> heap s !! arr = Some (OArray l) ->
  (forall j c, C !! j = Some c -> l !! (k + j) = Some (fw_ptr c)) ->
  Forall (fw_rep s) C -> NoDup (fw_cells C) -> NoDup (fw_fds C) -> arr ∉ fw_cells C ->
  WP (seq_prog ((fun j => let! w := array_get arr j in UfsrvSchedulerDestroy w)%prog <$> seq k (length C)))
    (fun _ s' => wf_machine s' /\ (forall p, p ∈ fw_cells C -> heap s' !! p = None) /\
       (forall p, p ∉ fw_cells C -> heap s' !! p = heap s !! p) /\
       (forall fd, fd ∈ fw_fds C -> fds s' !! fd = None) /\
       (forall fd, fd ∉ fw_fds C -> fds s' !! fd = fds s !! fd) /\ trace s' = trace s) s.
Proof.
  revert k s; induction C as [|c C IH]; intros k s Hwf Ha Hl Hrep Hnd Hndf Harr; simpl.
  - apply wps_ret. split_and!; try done; by intros ? ?%elem_of_nil.
  - rewrite fw_cells_cons in *. unfold fw_fds in *. cbn [fmap list_fmap] in *.
    apply Forall_cons in Hrep as [Hc HC]. apply NoDup_cons in Hnd as [Hn1 [Hn2 Hnd]%NoDup_cons].
    apply NoDup_cons in Hndf as [Hcf Hndf].
    assert (Hl0 : l !! k = Some (fw_ptr c)) by (rewrite <- (Nat.add_0_r k); by apply Hl).
    apply wps_assoc. eapply wps_act.
    { unfold lookup_cell. rewrite Ha. simpl. rewrite Hl0. reflexivity. }
    cbn [bind]. destruct Hc as [Hname Hc]. eapply wps_seq.
    { apply wp_evolves; [done|apply (api_guar _ _ (api_scheduler_destroy _))|].
      eapply Destroy_over; [exact Hc|by left]. }
    simpl. intros _ s1 [[Hg1 Hs1 Hf1 Ht1] Hev]. pose proof (ev_wf _ _ (Hev Hwf)) as Hwf1. simpl in *.
    assert (Hptr : fw_ptr c <> NULL) by apply Hc.
    assert (Hin : forall d, d ∈ C -> fw_ptr d ∉ [fw_ptr c; fw_name c] /\ fw_name d ∉ [fw_ptr c; fw_name c]).
    { intros d Hd. pose proof (fw_cells_elem d C Hd). set_solver. }
    eapply wp_mono; [apply (IH (S k) s1); try done|].
    + rewrite Hs1; [done|]. set_solver.
    + intros j d Hj. rewrite Nat.add_succ_comm. by apply Hl.
    + rewrite Forall_forall in HC |- *. intros d Hd. destruct (Hin d Hd).
      eapply fw_rep_frame; [by apply HC|apply Hwf1|by apply Hs1|by apply Hs1|].
      rewrite Hf1. apply lookup_delete_ne. intros Heq. apply Hcf. rewrite Heq. by apply (list_elem_of_fmap_2 fw_fd).
    + set_solver.
    + simpl. intros _ s2 (Hwf2 & Hg2 & Hs2 & Hfg2 & Hfs2 & Ht2). split_and!; try done; [| | | |congruence].
      * intros p. rewrite !elem_of_cons. intros [->|[->|Hp]]; [| |by apply Hg2]; rewrite Hs2 by set_solver;
          apply Hg1; set_solver.
      * intros p. rewrite !not_elem_of_cons. intros (? & ? & ?). rewrite Hs2 by done. apply Hs1. set_solver.
      * intros fd [->|Hfd]%elem_of_cons; [|by apply Hfg2]. rewrite Hfs2 by done. rewrite Hf1. apply lookup_delete_eq.
      * intros fd [? ?]%not_elem_of_cons. rewrite Hfs2 by done. rewrite Hf1. by apply lookup_delete_ne.
Qed.

(** A pool under construction since [s0]: the workers [C] so far. *)
Record building (prefix : option string) (n : nat) (s0 : st) (pool arr : ptr) (C : list fresh_worker) (s : st) : Prop := {
  bu_wf : wf_machine s;
  bu_null : pool <> NULL /\ arr <> NULL /\ pool <> arr;
  bu_pool : heap s !! pool = Some (OPool (MkPool arr (Z.of_nat n) 0 false));
  bu_arr : exists l, heap s !! arr = Some (OArray l) /\ length l = n /\
    forall j c, C !! j = Some c -> l !! j = Some (fw_ptr c);
  bu_rep : Forall (fw_rep s) C;
  bu_names j c : C !! j = Some c -> heap s !! fw_name c = Some (OString (worker_name prefix j));
  bu_nodup : NoDup (pool :: arr :: fw_cells C);
  bu_nodup_fd : NoDup (fw_fds C);
  bu_fresh p : p ∈ pool :: arr :: fw_cells C -> heap s0 !! p = None;
  bu_frame p : p ∉ pool :: arr :: fw_cells C -> heap s !! p = heap s0 !! p;
  bu_fds fd : fd ∈ fw_fds C -> fds s0 !! fd = None;
  bu_fds_frame fd : fd ∉ fw_fds C -> fds s !! fd = fds s0 !! fd;
  bu_trace : trace s = trace s0;
}.

(** Undoing it. *)
Definition restored (s0 s : st) : Prop :=
  (forall p, heap s !! p = heap s0 !! p) /\ (forall fd, fds s !! fd = fds s0 !! fd) /\ trace s = trace s0.

Lemma undo_workers prefix n s0 pool arr C s :
  building prefix n s0 pool arr C s ->
  WP (for_workers UfsrvSchedulerDestroy arr (length C))
    (fun _ s1 => is_Some (heap s1 !! arr) /\ heap s1 !! pool = heap s !! pool /\
       restored s0 (with_heap (delete pool) (with_heap (delete arr) s1))) s.
Proof.
  intros []. destruct bu_null0 as (Hp0 & Ha0 & Hpa), bu_arr0 as (l & Hl & Hlen & Hlj).
  apply NoDup_cons in bu_nodup0 as [Hpn [Han Hnd]%NoDup_cons]. rewrite not_elem_of_cons in Hpn. destruct Hpn as [_ Hpn].
  eapply wp_mono; [by eapply destroy_workers|]. simpl. intros _ s1 (Hwf1 & Hg1 & Hs1 & Hfg1 & Hfs1 & Ht1).
  split_and!; [by rewrite Hs1|by apply Hs1|]. split_and!; [|intros fd|simpl; congruence].
  - intros p. simpl. destruct (decide (p = pool)) as [->|].
    { rewrite lookup_delete_eq. symmetry. apply bu_fresh0. by left. }
    rewrite lookup_delete_ne by done. destruct (decide (p = arr)) as [->|].
    { rewrite lookup_delete_eq. symmetry. apply bu_fresh0. right; by left. }
    rewrite lookup_delete_ne by done. destruct (decide (p ∈ fw_cells C)) as [Hin|Hni].
    + rewrite Hg1 by done. symmetry. apply bu_fresh0. by do 2 right.
    + rewrite Hs1 by done. apply bu_frame0. by rewrite !not_elem_of_cons.
  - simpl. destruct (decide (fd ∈ fw_fds C)) as [Hin|Hni].
    + rewrite Hfg1 by done. symmetry. by apply bu_fds0.
    + rewrite Hfs1 by done. by apply bu_fds_frame0.
Qed.

Lemma undo_building prefix n s0 pool arr C s :
  building prefix n s0 pool arr C s ->
  WP (for_workers UfsrvSchedulerDestroy arr (length C) ;; free arr ;; free pool)%prog
    (fun _ s' => restored s0 s') s.
Proof.
  intros Hb. pose proof (bu_null _ _ _ _ _ _ _ Hb) as (? & ? & ?). pose proof (bu_pool _ _ _ _ _ _ _ Hb) as Hp.
  eapply wps_seq; [by eapply undo_workers|]. simpl. intros _ s1 ([o Ha] & Hp1 & Hres). rewrite Hp in Hp1. by wp_steps.
Qed.

(** The cells and descriptors of a pool under construction are allocated. *)
Lemma building_live prefix n s0 pool arr C s p :
  building prefix n s0 pool arr C s -> p ∈ pool :: arr :: fw_cells C -> is_Some (heap s !! p).
Proof.
  intros []. destruct bu_arr0 as (l & Hl & _). rewrite !elem_of_cons. intros [->|[->|Hp]]; [eauto..|].
  apply list_elem_of_bind in Hp as (c & Hp & Hc). rewrite Forall_forall in bu_rep0.
  destruct (bu_rep0 c Hc) as [Hn []]. rewrite !elem_of_cons in Hp. simpl in *.
  destruct Hp as [->|[->|?%elem_of_nil]]; [eauto| |done]. destruct (sr_name Hn). eauto.
Qed.
Lemma building_open prefix n s0 pool arr C s fd :
  building prefix n s0 pool arr C s -> fd ∈ fw_fds C -> is_Some (fds s !! fd).
Proof.
  intros [] (c & -> & Hin)%list_elem_of_fmap. rewrite Forall_forall in bu_rep0.
  destruct (bu_rep0 c Hin) as [_ []]. simpl in *. destruct sr_fd as (? & ? & _). eauto.
Qed.
(** The workers so far do not notice changes elsewhere. *)
Lemma building_old prefix n s0 pool arr C s s2 :
  building prefix n s0 pool arr C s -> wf_alloc s2 -> (forall p, p ∈ fw_cells C -> heap s2 !! p = heap s !! p) ->
  (forall fd, fd ∈ fw_fds C -> fds s2 !! fd = fds s !! fd) ->
  Forall (fw_rep s2) C /\ forall j c, C !! j = Some c -> heap s2 !! fw_name c = Some (OString (worker_name prefix j)).
Proof.
  intros [] Hwf Hh Hf. rewrite Forall_forall in bu_rep0. split.
  - apply Forall_forall. intros c Hc. pose proof (fw_cells_elem c C Hc) as [Hcp Hcn].
    eapply fw_rep_frame; [by apply bu_rep0|done|by apply Hh..|]. by apply Hf, list_elem_of_fmap_2.
  - intros j c Hj. apply list_elem_of_lookup_2 in Hj as Hin. pose proof (fw_cells_elem c C Hin) as [_ Hcn].
    rewrite Hh by done. by apply bu_names0.
Qed.

Lemma building_more prefix n s0 pool arr C s w np :
  building prefix n s0 pool arr C s -> length C < n ->
  forall s1, wf_machine s1 -> trace s1 = trace s ->
  sched_rep w (fresh_scheduler np (next_fd s)) [] s1 -> fds s !! next_fd s = None ->
  fds s1 = <[next_fd s := 0%Z]> (fds s) -> heap s !! w = None ->
  np <> NULL -> heap s1 !! np = Some (OString (worker_name prefix (length C))) -> heap s !! np = None ->
  (forall p, p <> w -> p <> np -> heap s1 !! p = heap s !! p) ->
  exists l, heap s1 !! arr = Some (OArray l) /\ length C < length l /\
    forall s2, wf_machine s2 -> s2 = store_cell arr (<[length C := w]> l) s1 ->
    building prefix n s0 pool arr (C ++ [Fresh w np (next_fd s)]) s2.
Proof.
  intros Hb Hlt s1 Hwf1 Htr Hw Hnfd Hfd Hwn Hnp Hnpc Hnpn Hsame. pose proof Hb as [].
  destruct bu_null0 as (Hp0 & Ha0 & Hpa), bu_arr0 as (l & Hl & Hlen & Hlj).
  assert (Hnew : forall p, heap s !! p = None -> p ∉ pool :: arr :: fw_cells C).
  { intros p Hn Hin. destruct (building_live _ _ _ _ _ _ _ _ Hb Hin). congruence. }
  assert (Hkeep : forall p, p ∈ pool :: arr :: fw_cells C -> heap s1 !! p = heap s !! p).
  { intros p Hp. apply Hsame; intros ->; by apply Hnew in Hp. }
  pose proof (Hnew _ Hwn) as Hw'. pose proof (Hnew _ Hnpn) as Hnp'.
  exists l. split_and!; [rewrite Hkeep; [done|right; by left]|lia|]. intros s2 Hwf2 Hs2.
  assert (Hs2h : forall p, p <> arr -> heap s2 !! p = heap s1 !! p) by (intros; subst s2; simpl; lk).
  assert (Hfd2 : fds s2 = <[next_fd s := 0%Z]> (fds s)) by by subst s2.
  assert (Hfresh : next_fd s ∉ fw_fds C) by (intros Hin; destruct (building_open _ _ _ _ _ _ _ _ Hb Hin); congruence).
  assert (Hnpw : np <> w) by (intros ->; pose proof (sr_cell _ _ _ _ Hw); congruence).
  rewrite !not_elem_of_cons in Hw', Hnp'. destruct Hw' as (? & ? & HwC), Hnp' as (? & ? & HnC).
  pose proof bu_nodup0 as [_ [Harr _]%NoDup_cons]%NoDup_cons.
  destruct (building_old prefix n s0 pool arr C s s2 Hb) as [Hrep2 Hnames2]; [apply Hwf2| | |].
  { intros p Hp. rewrite Hs2h by (by intros ->). apply Hkeep. by do 2 right. }
  { intros fd Hin. rewrite Hfd2. apply lookup_insert_ne. by intros <-. }
  split; rewrite ?fw_cells_app; change (fw_cells [Fresh w np (next_fd s)]) with [w; np]; unfold fw_fds; rewrite ?fmap_app; try done.
  - by rewrite Hs2h, Hkeep by (set_solver || done).
  - exists (<[length C := w]> l). subst s2. simpl. rewrite lookup_insert_eq, length_insert. split_and!; try done.
    intros j c [Hj|[Hj Hc]]%lookup_app_Some.
    + rewrite list_lookup_insert_ne; [by apply Hlj|]. apply lookup_lt_Some in Hj. lia.
    + apply list_lookup_singleton_Some in Hc as [Hj0 <-]. replace j with (length C) by lia.
      simpl. apply list_lookup_insert_eq. lia.
  - apply Forall_app. split; [done|]. apply Forall_singleton. split; [done|]. simpl.
    destruct Hw. split; simpl in *; try done; try by rewrite Hs2h.
    + apply Hwf2.
    + by intros j ?%elem_of_nil.
    + by rewrite Hfd2, <- Hfd.
  - intros j c [Hj|[Hj Hc]]%lookup_app_Some; [by apply Hnames2|].
    apply list_lookup_singleton_Some in Hc as [Hj0 <-]. replace j with (length C) by lia. simpl. by rewrite Hs2h.
  - rewrite !app_comm_cons. apply NoDup_app. split_and!; [done| |].
    + intros p Hp. rewrite !elem_of_cons. intros [->|[->|?%elem_of_nil]]; [by apply (Hnew w)|by apply (Hnew np)|done].
    + apply NoDup_cons. split; [set_solver|apply NoDup_singleton].
  - apply NoDup_app. split_and!; [done| |apply NoDup_singleton]. by intros fd Hf ->%list_elem_of_singleton.
  - intros p. rewrite !elem_of_cons, elem_of_app, !elem_of_cons. intros [->|[->|[Hp|[->|[->|?%elem_of_nil]]]]].
    4,5: rewrite <- bu_frame0 by (by apply Hnew); done.
    all: try done; apply bu_fresh0; rewrite !elem_of_cons; auto.
  - intros p Hp. rewrite !not_elem_of_cons, not_elem_of_app, !not_elem_of_cons in Hp. destruct Hp as (? & ? & ? & ? & ? & _).
    rewrite Hs2h, Hsame by done. apply bu_frame0. by rewrite !not_elem_of_cons.
  - intros fd [Hf| ->%list_elem_of_singleton]%elem_of_app; [by apply bu_fds0|]. simpl. by rewrite <- bu_fds_frame0.
  - intros fd [Hf [Hne _]%not_elem_of_cons]%not_elem_of_app. rewrite Hfd2, lookup_insert_ne by done. by apply bu_fds_frame0.
  - subst s2. simpl. congruence.
Qed.

Lemma wf_machine_store {A} `{!Cell A} p (y : A) o s :
  heap s !! p = Some o -> wf_machine s -> wf_machine (store_cell p y s).
Proof. intros Hp []. split; try done. by eapply wf_alloc_store. Qed.
Lemma wf_machine_new {A} `{!Cell A} (y : A) o s :
  wf_machine s -> wf_machine (with_next_ptr (next_ptr s + 1) (store_cell (next_ptr s) y (with_oracle o s))).
Proof. intros []. split; try done. by apply wf_alloc_new. Qed.

(** A creation that failed leaves the pool under construction as it was. *)
Lemma building_keep prefix n s0 pool arr C s s1 l v :
  building prefix n s0 pool arr C s -> heap s !! arr = Some (OArray l) -> wf_machine s1 ->
  trace s1 = trace s -> heap s1 = heap s -> fds s1 = fds s ->
  building prefix n s0 pool arr C (store_cell arr (<[length C := v]> l) s1).
Proof.
  intros [] Ha Hwf Ht Hh Hf. destruct bu_null0 as (Hp0 & Ha0 & Hpa), bu_arr0 as (l' & Hl & Hlen & Hlj). assert (l' = l) as -> by congruence.
  pose proof bu_nodup0 as [_ [Harr _]%NoDup_cons]%NoDup_cons.
  assert (Hs2h : forall p, p <> arr -> heap (store_cell arr (<[length C := v]> l) s1) !! p = heap s !! p)
    by (intros; simpl; lk; by rewrite Hh).
  split; try done.
  - eapply wf_machine_store; [|done]. by rewrite Hh.
  - by rewrite Hs2h.
  - eexists. split; [simpl; lk|]. rewrite length_insert. split; [done|]. intros j c Hj.
    rewrite list_lookup_insert_ne; [by apply Hlj|]. apply lookup_lt_Some in Hj. lia.
  - rewrite Forall_forall in bu_rep0 |- *. intros c Hc. pose proof (fw_cells_elem c C Hc) as [Hcp Hcn].
    eapply fw_rep_frame; [by apply bu_rep0| |apply Hs2h; congruence..|simpl; by rewrite Hf].
    eapply wf_alloc_store; [by rewrite Hh|apply Hwf].
  - intros j c Hj. apply list_elem_of_lookup_2 in Hj as Hin. pose proof (fw_cells_elem c C Hin) as [_ Hcn].
    rewrite Hs2h by congruence. by apply bu_names0.
  - intros p Hp. rewrite Hs2h by set_solver. by apply bu_frame0.
  - intros fd Hfd. simpl. rewrite Hf. by apply bu_fds_frame0.
  - simpl. congruence.
Qed.

(** The creation loop completes the pool or undoes it. *)
Lemma PoolCreate_loop_spec prefix n s0 pool arr todo :
  forall C s, building prefix n s0 pool arr C s -> length C + todo = n ->
  WP (PoolCreate_loop prefix pool arr (length C) todo)
    (fun ok s' => (oracle s = [] -> ok = true) /\
       if ok : bool then exists C', length C' = n /\ building prefix n s0 pool arr C' s'
       else restored s0 s') s.
Proof.
  induction todo as [|todo IH]; intros C s Hb Hn; simpl.
  { apply wps_ret. split; [done|]. exists C. split; [lia|done]. }
  pose proof (bu_wf _ _ _ _ _ _ _ Hb) as Hwf. pose proof (bu_arr _ _ _ _ _ _ _ Hb) as (l & Hl & Hlen & _).
  eapply wps_seq.
  { apply wp_evolves; [done|apply (api_guar _ _ (api_scheduler_create _))|by apply Create_or_oom]. }
  simpl. intros w s1 [[Hplenty [Htr Hcase]] Hev]. pose proof (ev_wf _ _ (Hev Hwf)) as Hwf1.
  destruct Hcase as [(-> & Hh & Hf)|(np & Hr & Hnfd & Hfd & Hw & (Hnp & Hnpc & Hnpn) & Hsame)].
  - change (is_null NULL) with true. eapply (wps_array_set client arr l); [by rewrite Hh|lia|]. simpl.
    eapply (wp_mono _ _ _ (fun ok s' => ok = false /\ restored s0 s')).
    2: { intros ok s' [-> Hres]. split; [intros Ho; by destruct (Hplenty Ho)|done]. }
    pose proof (undo_building _ _ _ _ _ _ _ (building_keep _ _ _ _ _ _ _ _ _ NULL Hb Hl Hwf1 Htr Hh Hf)) as Hu.
    replace (bind _ _) with
      (bind (for_workers UfsrvSchedulerDestroy arr (length C) ;; free arr ;; free pool)%prog (fun _ => Ret false))
      by by rewrite !bind_bind; f_equal; apply functional_extensionality; intros; rewrite bind_bind.
    eapply wps_seq; [exact Hu|]. simpl. intros _ s2 Hs2. by apply wps_ret.
  - rewrite (is_null_false w) by apply Hr.
    destruct (building_more _ _ _ _ _ _ _ w np Hb ltac:(lia) s1) as (l1 & Hl1 & Hlen1 & Hmore); try done.
    eapply (wps_array_set client arr l1); [done|done|]. replace (S (length C)) with (length (C ++ [Fresh w np (next_fd s)]))
      by (rewrite length_app; simpl; lia).
    eapply wp_mono; [apply (IH (C ++ [Fresh w np (next_fd s)]))|].
    + eapply Hmore; [|done]. by eapply wf_machine_store.
    + rewrite length_app. simpl. lia.
    + simpl. intros ok s' [Ho Hres]. split; [|done]. intros Hos. apply Ho. by apply Hplenty.
Qed.

(** What [UfsrvSchedulerPoolCreate] returns. *)
Definition pool_made (n : Z) prefix (s0 : st) (pool : ptr) (s : st) : Prop :=
  (pool = NULL /\ restored s0 s) \/
  (0 < n)%Z /\ exists arr C, length C = Z.to_nat n /\ building prefix (Z.to_nat n) s0 pool arr C s.

Lemma building_none n prefix s0 pool arr s :
  wf_machine s -> pool <> NULL -> arr <> NULL -> pool <> arr -> (0 < n)%Z ->
  heap s !! pool = Some (OPool (MkPool arr n 0 false)) ->
  heap s !! arr = Some (OArray (replicate (Z.to_nat n) NULL)) ->
  heap s0 !! pool = None -> heap s0 !! arr = None ->
  (forall p, p <> pool -> p <> arr -> heap s !! p = heap s0 !! p) -> fds s = fds s0 -> trace s = trace s0 ->
  building prefix (Z.to_nat n) s0 pool arr [] s.
Proof.
  intros Hwf ???? Hp Ha Hp0 Ha0 Hs Hf Ht. split; try done.
  - by rewrite Z2Nat.id by lia.
  - eexists. split; [done|]. by rewrite length_replicate.
  - apply NoDup_cons. split; [by intros ?%list_elem_of_singleton|apply NoDup_singleton].
  - apply NoDup_nil_2.
  - intros p. rewrite !elem_of_cons. intros [->|[->|?%elem_of_nil]]; done.
  - intros p. rewrite !not_elem_of_cons. intros (? & ? & _). by apply Hs.
  - by intros fd ?%elem_of_nil.
  - intros. by rewrite Hf.
Qed.

Lemma PoolCreate_spec n prefix s :
  wf_machine s ->
  WP (UfsrvSchedulerPoolCreate n prefix)
    (fun pool s' => pool_made n prefix s pool s' /\ (oracle s = [] -> (0 < n)%Z -> pool <> NULL)) s.
Proof.
  intros Hwf. pose proof (wm_alloc _ Hwf) as [Hpos Hfresh]. unfold UfsrvSchedulerPoolCreate.
  assert (Hnew : forall k, heap s !! (next_ptr s + k)%N = None) by (intros; apply Hfresh; lia).
  assert (Hn0 : heap s !! next_ptr s = None) by (apply Hfresh; lia).
  assert (Hz : next_ptr s <> NULL /\ (next_ptr s + 1)%N <> NULL) by (unfold NULL; lia). destruct Hz as [Hz Hz1].
  assert (Hne : (next_ptr s + 1)%N <> next_ptr s) by lia.
  case_bool_decide as Hn; [apply wps_ret; split; [left; by split|lia]|].
  apply wps_alloc_or_oom; [by apply Hwf|..]; intros o1.
  { intros Ho. change (is_null NULL) with true. apply wps_ret. split; [left; by split|done]. }
  intros Ho1. rewrite (is_null_false (next_ptr s)) by done.
  set (s1 := with_next_ptr _ _). assert (Hwf1 : wf_machine s1) by by apply wf_machine_new.
  apply wps_alloc_or_oom; [by apply Hwf1|..]; intros o2.
  { intros Ho. change (is_null NULL) with true. simpl. wp_steps. split; [left|by intros ?%Ho1].
    split; [done|]. split; [|done]. intros p. simpl. by rewrite delete_insert_id. }
  intros Ho2. change (next_ptr s1) with (next_ptr s + 1)%N. rewrite (is_null_false (next_ptr s + 1)) by done.
  set (s2 := with_next_ptr _ _). assert (Hwf2 : wf_machine s2) by by apply (wf_machine_new _ o2 s1).
  assert (Hp2 : heap s2 !! next_ptr s = Some (OPool (MkPool NULL 0 0 false))) by (simpl; lk).
  eapply wps_wr; [exact Hp2|]. simpl.
  set (s3 := store_cell _ _ s2). assert (Hwf3 : wf_machine s3) by by eapply wf_machine_store.
  assert (Hb : building prefix (Z.to_nat n) s (next_ptr s) (next_ptr s + 1)%N [] s3).
  { apply (building_none n); try done; try lia; simpl; [lk|lk|]. intros; lk. }
  eapply wps_seq; [apply (PoolCreate_loop_spec _ _ _ _ _ _ [] _ Hb); simpl; lia|]. simpl.
  intros ok s4 [Hok Hres]. apply wps_ret. destruct ok.
  - split; [|done]. right. split; [lia|]. destruct Hres as (C & ? & ?). eauto.
  - split; [by left|]. intros Ho. by specialize (Hok (Ho2 (Ho1 Ho))).
Qed.

(** Destroying a pool that was never started. *)
Lemma PoolDestroy_spec prefix n s0 pool arr C s :
  building prefix n s0 pool arr C s -> length C = n ->
  WP (UfsrvSchedulerPoolDestroy pool) (fun _ s' => restored s0 s') s.
Proof.
  intros Hb Hn. pose proof (bu_null _ _ _ _ _ _ _ Hb) as (? & ? & ?).
  pose proof (bu_pool _ _ _ _ _ _ _ Hb) as Hp. unfold UfsrvSchedulerPoolDestroy.
  rewrite (is_null_false pool) by done. wp_steps. unfold when, for_pool. wp_steps. rewrite Nat2Z.id, <- Hn.
  eapply wps_seq; [by eapply undo_workers|]. simpl. intros _ s1 ([o Ha] & Hp1 & Hres). rewrite Hp in Hp1. by wp_steps.
Qed.
End Pool.

(** C25.  A pool is created whole or not at all, and destruction undoes creation.
    [PoolCreate] either fails, for a count that is not positive or for want of memory
    or descriptors, having given back everything it took; or it returns a stopped
    pool of [n] distinct stopped workers, the [i]-th one named after the prefix and
    [i], each with its own descriptor, in memory that was free.  Destroying the
    pool at once restores memory and descriptors exactly. *)
Theorem pool_create_then_destroy {E : Ext} {TS : TreiberSpec E} {MS : MpscSpec E} client n prefix s :
  client_guar client -> wf_machine s ->
  wp (body client) log (UfsrvSchedulerPoolCreate n prefix)
    (fun pool s1 => pool_made n prefix s pool s1 /\
       (pool = NULL -> (n <= 0)%Z \/ oracle s <> []) /\
       wp (body client) log (UfsrvSchedulerPoolDestroy pool) (fun _ s2 => restored s s2) s1) s.
Proof.
  intros Hc Hwf. eapply wp_mono; [by apply PoolCreate_spec|]. simpl. intros pool s1 [Hm Hp]. split_and!; [done| |].
  - intros ->. destruct (decide (n <= 0)%Z); [by left|right]. intros Ho. apply Hp; [done|lia|done].
  - destruct Hm as [[-> Hres]|(? & arr & C & Hlen & Hb)]; [by apply wps_ret|by eapply PoolDestroy_spec].
Qed.

(** ** Witness *)
#[local] Existing Instances RefExt.ext RefExt.treiber RefExt.mpsc.

Lemma pool_create_then_destroy_witness :
  wp (body quiet_client) log (UfsrvSchedulerPoolCreate 2 (Some "io"%string))
    (fun pool s1 => pool_made 2 (Some "io"%string) boot pool s1 /\
       (pool = NULL -> (2 <= 0)%Z \/ oracle boot <> []) /\
       wp (body quiet_client) log (UfsrvSchedulerPoolDestroy pool) (fun _ s2 => restored boot s2) s1) boot.
Proof.
  apply (pool_create_then_destroy quiet_client 2 (Some "io"%string) boot).
  - apply quiet_guar.
  - apply boot_wf.
Defined.
