(* ===== verification/PoolSpread.v ===== *)
(** * PoolSpread: how a pool places jobs

    The round-robin counter, submission to the pool and to a chosen worker, and
    the distribution of a sequence of submissions over the workers. *)
From Stdlib Require Import String.
From S2P Require Import Prelude Machine Uflib Model Scheduler Dispatch Logic Guarantee.
From S2P Require Import CancellationFacts FutureFacts Demo WaitingFacts SchedulerFacts SchedulerLife.
Local Open Scope prog_scope.

Section Pool.
Context {E : Ext} {MS : MpscSpec E} (client : Client).
#[local] Abbreviation WPS := (wps (body client) log).
#[local] Abbreviation WP := (wp (body client) log).

(** A worker of a running pool, with the jobs in its queue. *)
Record pworker := PW { pw_ptr : ptr; pw_cell : UfsrvScheduler; pw_jobs : list job }.

Definition pw_fd (w : pworker) : Z := sch_event_fd (pw_cell w).
Definition pw_labels (w : pworker) : list label := labels (pw_jobs w).

(** [pool] is running, its counter at [next], with the workers [Ws], whose
    eventfds have room for [k] more writes. *)
Record pool_rep (k : nat) (pool arr : ptr) (next : Z) (Ws : list pworker) (s : st) : Prop := {
  pr_null : pool <> NULL;
  pr_cell : heap s !! pool = Some (OPool (MkPool arr (Z.of_nat (length Ws)) next true));
  pr_arr : heap s !! arr = Some (OArray (pw_ptr <$> Ws));
  pr_next : (0 <= next < 2 ^ 32)%Z;
  pr_size : (0 < length Ws)%nat;
  pr_int : (Z.of_nat (length Ws) < 2 ^ 31)%Z;
  pr_sched w : w ∈ Ws -> sched_rep (pw_ptr w) (pw_cell w) (pw_jobs w) s;
  pr_running w : w ∈ Ws -> sch_is_running (pw_cell w) = true;
  pr_room w : w ∈ Ws -> exists n, fds s !! pw_fd w = Some n /\ (n + Z.of_nat k <= 2 ^ 64 - 2)%Z;
  pr_ptrs : NoDup (pw_ptr <$> Ws);
  pr_fds : NoDup (pw_fd <$> Ws);
}.

(** A scheduler whose cells another one's operation leaves alone. *)
Lemma sched_rep_other sc x J s s' :
  sched_rep sc x J s -> wf_alloc s' -> (forall p, is_Some (heap s !! p) -> p ∈ sc :: sch_name x :: jb_nodes J -> heap s' !! p = heap s !! p) ->
  fds s' !! sch_event_fd x = fds s !! sch_event_fd x -> sched_rep sc x J s'.
Proof.
  intros [] Hwf Hs Hf. split; try done.
  - rewrite Hs; [done|eauto|by left].
  - intros j Hj. destruct (sr_jobs j Hj) as [? Hn]. split; [done|]. rewrite Hs; [done|eauto|].
    do 2 right. by apply list_elem_of_fmap_2.
  - by rewrite Hf.
  - intros Hn. destruct (sr_name Hn) as [str Hstr]. exists str. rewrite Hs; [done|eauto|right; by left].
Qed.

(** Worker [i] after a submission. *)
Definition pw_push (w : pworker) (p : ptr) (l : label) : pworker :=
  PW (pw_ptr w) (queued p (pw_cell w)) (pw_jobs w ++ [Job p l.1 l.2]).
Definition placed (i : nat) (l : label) (ok : bool) (Ws Ws' : list pworker) : Prop :=
  if ok then exists w p, Ws !! i = Some w /\ Ws' = <[i := pw_push w p l]> Ws else Ws' = Ws.

Lemma pool_rep_bump k pool arr next next' Ws s :
  pool_rep k pool arr next Ws s -> (0 <= next' < 2 ^ 32)%Z ->
  pool_rep k pool arr next' Ws
    (store_cell pool (MkPool arr (Z.of_nat (length Ws)) next' true) s).
Proof.
  intros [] Hn. assert (arr <> pool) by congruence. split; try done; simpl; [lk|lk|].
  intros w Hw. eapply sched_rep_other; [by apply pr_sched0| | |done].
  - eapply wf_alloc_store; [exact pr_cell0|]. by destruct (pr_sched0 w Hw).
  - intros p Hp Hin. simpl. apply lookup_insert_ne. intros <-. destruct (pr_sched0 w Hw).
    rewrite !elem_of_cons in Hin. destruct Hin as [->|[->|Hj]]; [congruence| |].
    + destruct sr_name as [? ?]; [done|congruence].
    + apply list_elem_of_fmap in Hj as (j & -> & Hj). destruct (sr_jobs j Hj). congruence.
Qed.

Lemma pool_rep_push k pool arr next Ws i w p l n s s' :
  pool_rep (S k) pool arr next Ws s -> Ws !! i = Some w ->
  sched_rep (pw_ptr w) (pw_cell (pw_push w p l)) (pw_jobs (pw_push w p l)) s' ->
  heap s !! p = None -> fds s !! pw_fd w = Some n -> (n + Z.of_nat (S k) <= 2 ^ 64 - 2)%Z ->
  fds s' = <[pw_fd w := (n + 1)%Z]> (fds s) ->
  (forall q, q <> pw_ptr w -> q <> p -> heap s' !! q = heap s !! q) ->
  pool_rep k pool arr next (<[i := pw_push w p l]> Ws) s'.
Proof.
  intros Hr Hi Hw' Hp Hn Hmax Hf Hs. pose proof Hr as []. pose proof (list_elem_of_lookup_2 _ _ _ Hi) as Hw.
  pose proof (sr_wf _ _ _ _ Hw') as Hwf'.
  assert (Hkeep : forall q, is_Some (heap s !! q) -> q <> pw_ptr w -> heap s' !! q = heap s !! q).
  { intros q [o Hq] Hne. apply Hs; congruence. }
  pose proof (sr_cell _ _ _ _ (pr_sched0 w Hw)) as Hwc.
  assert (Hother : forall j v, Ws !! j = Some v -> j <> i -> pw_ptr v <> pw_ptr w /\ pw_fd v <> pw_fd w).
  { intros j v Hj Hne. split; intros Heq; apply Hne.
    - eapply (NoDup_lookup (pw_ptr <$> Ws)); [done|rewrite list_lookup_fmap, Hj; simpl; by rewrite Heq|].
      by rewrite list_lookup_fmap, Hi.
    - eapply (NoDup_lookup (pw_fd <$> Ws)); [done|rewrite list_lookup_fmap, Hj; simpl; by rewrite Heq|].
      by rewrite list_lookup_fmap, Hi. }
  assert (Hmem : forall v, v ∈ <[i := pw_push w p l]> Ws -> v = pw_push w p l \/
            exists j, Ws !! j = Some v /\ j <> i).
  { intros v (j & Hj)%list_elem_of_lookup. apply list_lookup_insert_Some in Hj as [(<- & <- & _)|[? ?]]; eauto. }
  split; rewrite ?length_insert; try done.
  - rewrite Hkeep; [done|eauto|congruence].
  - rewrite list_fmap_insert, list_insert_id; [|simpl; by rewrite list_lookup_fmap, Hi].
    rewrite Hkeep; [done|eauto|congruence].
  - intros v [->|(j & Hj & Hne)]%Hmem; [done|]. destruct (Hother _ _ Hj Hne).
    pose proof (list_elem_of_lookup_2 _ _ _ Hj) as Hv. pose proof (pr_sched0 v Hv) as Hrv.
    eapply sched_rep_other; [exact Hrv|done| |rewrite Hf; by apply lookup_insert_ne].
    intros q Hq Hin. apply Hkeep; [done|]. intros ->. destruct Hrv.
    rewrite !elem_of_cons in Hin. destruct Hin as [Heq|[Heq|Hin]]; [congruence| |].
    * destruct sr_name as [? ?]; [|congruence]. rewrite <- Heq. apply (pr_sched0 w Hw).
    * apply list_elem_of_fmap in Hin as (jb & Heq & Hjb). destruct (sr_jobs jb Hjb). congruence.
  - intros v [->|(j & Hj & Hne)]%Hmem; [simpl; by apply pr_running0|]. apply pr_running0. by eapply list_elem_of_lookup_2.
  - intros v [->|(j & Hj & Hne)]%Hmem; rewrite Hf.
    * exists (n + 1)%Z. simpl. rewrite lookup_insert_eq. split; [done|lia].
    * destruct (pr_room0 v) as (m & Hm & ?); [by eapply list_elem_of_lookup_2|]. exists m.
      rewrite lookup_insert_ne by (intros Heq; by apply (Hother _ _ Hj Hne)). split; [done|lia].
  - rewrite list_fmap_insert, list_insert_id; [done|]. simpl. by rewrite list_lookup_fmap, Hi.
  - rewrite list_fmap_insert, list_insert_id; [done|]. simpl. by rewrite list_lookup_fmap, Hi.
Qed.

(** Submitting to worker [i] of the pool. *)
Lemma Submit_worker_spec k pool arr next Ws i w l s :
  pool_rep (S k) pool arr next Ws s -> Ws !! i = Some w ->
  WP (UfsrvSchedulerSubmit (pw_ptr w) (Some l.1) l.2)
    (fun ok s' => (exists Ws', placed i l ok Ws Ws' /\ pool_rep k pool arr next Ws' s') /\
       (oracle s = [] -> ok = true /\ oracle s' = [])) s.
Proof.
  intros Hr Hi. pose proof Hr as []. pose proof (list_elem_of_lookup_2 _ _ _ Hi) as Hw.
  destruct (pr_room0 w Hw) as (n & Hn & Hmax).
  eapply wp_mono; [eapply Submit_spec; [by apply pr_sched0|exact Hn|lia]|]. simpl.
  intros [] s' (_ & [_ Hor] & H).
  - destruct H as (_ & p & Hp & Hw' & Hf & Hs). split; [|by auto].
    exists (<[i := pw_push w p l]> Ws). split; [by exists w, p|].
    by eapply pool_rep_push.
  - destruct H as (Hh & Hf & Hw' & Hno). split.
    + exists Ws. split; [done|]. split; try done; rewrite ?Hh; try done.
      * intros v Hv. eapply sched_rep_other; [by apply pr_sched0|apply Hw'| |by rewrite Hf]. intros. by rewrite Hh.
      * intros v Hv. destruct (pr_room0 v Hv) as (m & Hm & ?). exists m. rewrite Hf. split; [done|lia].
    + intros Ho. specialize (Hno Ho). by rewrite pr_running0 in Hno.
Qed.

(** The counter moves on, and the worker it pointed at gets the job. *)
Lemma PoolSubmit_spec k pool arr next Ws l s :
  pool_rep (S k) pool arr next Ws s ->
  WP (UfsrvSchedulerPoolSubmit pool (Some l.1) l.2)
    (fun ok s' => (exists Ws', placed (Z.to_nat (next mod Z.of_nat (length Ws))) l ok Ws Ws' /\
         pool_rep k pool arr (wrap_u32 (next + 1)) Ws' s') /\
       (oracle s = [] -> ok = true /\ oracle s' = [])) s.
Proof.
  intros Hr. pose proof (pool_rep_bump _ _ _ _ (wrap_u32 (next + 1)) _ _ Hr (wrap_u32_range _)) as Hr'.
  pose proof Hr as []. unfold UfsrvSchedulerPoolSubmit, round_robin. rewrite (is_null_false pool) by done.
  rewrite bool_decide_eq_false_2 by done. simpl. wp_steps. 
  assert (Hwrap : wrap_u32 (Z.of_nat (length Ws)) = Z.of_nat (length Ws)) by (apply Z.mod_small; lia). rewrite Hwrap.
  assert (Hidx : (0 <= next mod Z.of_nat (length Ws) < Z.of_nat (length Ws))%Z) by (apply Z.mod_pos_bound; lia).
  destruct (lookup_lt_is_Some_2 Ws (Z.to_nat (next mod Z.of_nat (length Ws)))) as [w Hw]; [lia|].
  assert (arr <> pool) by congruence.
  eapply wps_array_get; [simpl; lk|by rewrite list_lookup_fmap, Hw|]. rewrite ?bind_ret_r.
  eapply wp_mono; [by eapply Submit_worker_spec|]. simpl. done.
Qed.

(** ** A sequence of submissions *)
Fixpoint pool_submits (pool : ptr) (L : list label) : cprog (list bool) :=
  match L with
  | [] => Ret []
  | l :: L =>
      let! ok := UfsrvSchedulerPoolSubmit pool (Some l.1) l.2 in
      let! oks := pool_submits pool L in Ret (ok :: oks)
  end.

(** What worker [i] of [sz] gets of it: every [sz]-th accepted job, the counter
    starting at [next]. *)
Fixpoint share (next sz : Z) (i : nat) (L : list label) (oks : list bool) : list label :=
  match L, oks with
  | l :: L, ok :: oks =>
      (if ok && bool_decide (next mod sz = Z.of_nat i)%Z then [l] else []) ++
      share (wrap_u32 (next + 1)) sz i L oks
  | _, _ => []
  end.

Lemma placed_labels (i : nat) l ok Ws Ws' j v :
  placed i l ok Ws Ws' -> Ws !! j = Some v ->
  length Ws' = length Ws /\ exists v', Ws' !! j = Some v' /\ pw_ptr v' = pw_ptr v /\
    pw_labels v' = pw_labels v ++ (if ok && bool_decide (i = j) then [l] else []).
Proof.
  intros Hp Hj. destruct ok; simpl in *; [|subst; split; [done|]; exists v; by rewrite app_nil_r].
  destruct Hp as (w & p & Hi & ->). rewrite length_insert. split; [done|]. case_bool_decide as Hij.
  - subst j. assert (w = v) as -> by congruence. exists (pw_push v p l). rewrite list_lookup_insert_eq by by eapply lookup_lt_Some.
    split_and!; [done..|]. unfold pw_labels, labels. simpl. rewrite fmap_app. by destruct l.
  - exists v. rewrite list_lookup_insert_ne by done. by rewrite app_nil_r.
Qed.

Lemma pool_submits_spec pool arr L k next Ws s :
  pool_rep (length L + k) pool arr next Ws s ->
  WP (pool_submits pool L)
    (fun oks s' => length oks = length L /\ (oracle s = [] -> oks = replicate (length L) true) /\
       exists Ws', pool_rep k pool arr (wrap_u32 (next + Z.of_nat (length L))) Ws' s' /\ length Ws' = length Ws /\
         forall i w, Ws !! i = Some w -> exists w', Ws' !! i = Some w' /\ pw_ptr w' = pw_ptr w /\
           pw_labels w' = pw_labels w ++ share next (Z.of_nat (length Ws)) i L oks) s.
Proof.
  revert next Ws s; induction L as [|l L IH]; intros next Ws s Hr; simpl in *.
  - apply wps_ret. split_and!; try done. exists Ws. replace (wrap_u32 (next + Z.of_nat 0)) with next
      by (unfold wrap_u32; rewrite Z.mod_small; pose proof (pr_next _ _ _ _ _ _ Hr); lia).
    split_and!; try done. intros i w Hi. exists w. by rewrite app_nil_r.
  - pose proof (pr_next _ _ _ _ _ _ Hr) as Hnext. pose proof (pr_size _ _ _ _ _ _ Hr) as Hsz.
    eapply wps_seq; [by apply PoolSubmit_spec|]. simpl. intros ok s1 [(Ws1 & Hp & Hr1) Hok].
    eapply wps_seq; [by apply IH|]. simpl. intros oks s2 (Hlen & Hoks & Ws2 & Hr2 & Hlen2 & Hsh).
    assert (Hlen1 : length Ws1 = length Ws).
    { destruct ok; simpl in Hp; [|by subst]. destruct Hp as (? & ? & _ & ->). apply length_insert. }
    apply wps_ret. split_and!; [simpl; lia| |].
    + intros Ho. destruct (Hok Ho) as [-> Ho1]. simpl. f_equal. auto.
    + exists Ws2. split_and!; [|lia|].
      * replace (wrap_u32 (next + Z.of_nat (S (length L)))) with
          (wrap_u32 (wrap_u32 (next + 1) + Z.of_nat (length L))); [done|].
        unfold wrap_u32. rewrite Zplus_mod_idemp_l. f_equal. lia.
      * intros i w Hi. destruct (placed_labels _ _ _ _ _ _ _ Hp Hi) as (_ & w1 & Hw1 & Hptr & Hl1).
        destruct (Hsh i w1 Hw1) as (w2 & Hw2 & Hptr2 & Hl2). exists w2. split_and!; [done|congruence|].
        rewrite Hl2, Hl1, Hlen1, <- app_assoc. do 2 f_equal.
        assert (Hmod : (0 <= next mod Z.of_nat (length Ws) < Z.of_nat (length Ws))%Z) by (apply Z.mod_pos_bound; lia).
        rewrite (bool_decide_ext (Z.to_nat (next mod Z.of_nat (length Ws)) = i)
          (next mod Z.of_nat (length Ws) = Z.of_nat i)%Z) by lia. done.
Qed.

Lemma PoolSubmitTo_spec k pool arr next Ws idx l s :
  pool_rep (S k) pool arr next Ws s ->
  WP (UfsrvSchedulerPoolSubmitTo pool idx (Some l.1) l.2)
    (fun ok s' => (oracle s = [] -> ok = true) /\ exists Ws',
       if bool_decide (0 <= idx < Z.of_nat (length Ws))%Z
       then placed (Z.to_nat idx) l ok Ws Ws' /\ pool_rep k pool arr next Ws' s'
       else placed (Z.to_nat (next mod Z.of_nat (length Ws))) l ok Ws Ws' /\
            pool_rep k pool arr (wrap_u32 (next + 1)) Ws' s') s.
Proof.
  intros Hr. pose proof Hr as []. unfold UfsrvSchedulerPoolSubmitTo. rewrite (is_null_false pool) by done.
  rewrite bool_decide_eq_false_2 by done. simpl. wp_steps.
  rewrite (bool_decide_ext (0 <= idx < Z.of_nat (length Ws))%Z
    (~ (idx < 0 \/ Z.of_nat (length Ws) <= idx))%Z) by lia.
  case_bool_decide as Hidx.
  - rewrite bool_decide_eq_false_2 by lia. rewrite ?bind_ret_r. eapply wp_mono; [by apply PoolSubmit_spec|].
    simpl. intros ok s' [(Ws' & ?) Hok]. split; [naive_solver|by exists Ws'].
  - rewrite bool_decide_eq_true_2 by lia. wp_steps.
    destruct (lookup_lt_is_Some_2 Ws (Z.to_nat idx)) as [w Hw]; [lia|].
    eapply wps_array_get; [done|by rewrite list_lookup_fmap, Hw|]. rewrite ?bind_ret_r.
    eapply wp_mono; [by eapply Submit_worker_spec|]. simpl. intros ok s' [(Ws' & ?) Hok].
    split; [naive_solver|by exists Ws'].
Qed.
End Pool.

(** ** How even the shares are *)

Lemma div_step (a i sz : Z) :
  (0 < sz)%Z -> (0 <= i < sz)%Z ->
  ((a - i) / sz - (a - 1 - i) / sz = if bool_decide (a mod sz = i) then 1 else 0)%Z.
Proof.
  intros Hsz Hi. pose proof (Z.div_mod (a - i) sz ltac:(lia)) as H1. pose proof (Z.mod_pos_bound (a - i) sz Hsz).
  pose proof (Z.div_mod a sz ltac:(lia)) as H2. case_bool_decide as Hm.
  - rewrite Hm in H2. rewrite <- (Z.div_unique_pos (a - i) sz (a / sz) 0) by lia.
    rewrite <- (Z.div_unique_pos (a - 1 - i) sz (a / sz - 1) (sz - 1)) by lia. lia.
  - assert (Hr : ((a - i) mod sz <> 0)%Z).
    { intros Hr. apply Hm. symmetry. apply (Z.mod_unique_pos a sz ((a - i) / sz)); lia. }
    rewrite <- (Z.div_unique_pos (a - 1 - i) sz ((a - i) / sz) ((a - i) mod sz - 1)) by lia. lia.
Qed.
Lemma div_shift (x n sz : Z) :
  (0 < sz)%Z -> (0 <= n)%Z -> (n / sz <= (x + n) / sz - x / sz <= n / sz + 1)%Z.
Proof.
  intros Hsz Hn. pose proof (Z.div_mod (x + n) sz ltac:(lia)). pose proof (Z.mod_pos_bound (x + n) sz Hsz).
  pose proof (Z.div_mod x sz ltac:(lia)). pose proof (Z.mod_pos_bound x sz Hsz).
  pose proof (Z.div_mod n sz ltac:(lia)). pose proof (Z.mod_pos_bound n sz Hsz). nia.
Qed.

(** Counting a share: the counter does not wrap, or wraps without a jump. *)
Lemma share_length (sz : Z) i L next :
  (0 < sz)%Z -> (Z.of_nat i < sz)%Z -> (0 <= next < 2 ^ 32)%Z ->
  (next + Z.of_nat (length L) <= 2 ^ 32)%Z \/ (sz | 2 ^ 32)%Z ->
  (Z.of_nat (length (share next sz i L (replicate (length L) true))) =
   (next - 1 - Z.of_nat i + Z.of_nat (length L)) / sz - (next - 1 - Z.of_nat i) / sz)%Z.
Proof.
  intros Hsz Hi. revert next; induction L as [|l L IH]; intros next Hn Hw.
  { simpl. replace (next - 1 - Z.of_nat i + Z.of_nat 0)%Z with (next - 1 - Z.of_nat i)%Z by lia. lia. }
  cbn [length replicate share]. rewrite length_app. simpl andb. cbn [length] in Hw.
  pose proof (div_step next (Z.of_nat i) sz Hsz ltac:(lia)) as Hstep.
  assert (Hrest : (Z.of_nat (length (share (wrap_u32 (next + 1)) sz i L (replicate (length L) true))) =
     (next - Z.of_nat i + Z.of_nat (length L)) / sz - (next - Z.of_nat i) / sz)%Z).
  { destruct (decide (next + 1 < 2 ^ 32)%Z) as [Hlt|Hge].
    - replace (wrap_u32 (next + 1)) with (next + 1)%Z by (unfold wrap_u32; rewrite Z.mod_small; lia).
      rewrite IH; [|lia|destruct Hw; [left; lia|by right]]. do 2 f_equal; lia.
    - assert (next = 2 ^ 32 - 1)%Z as -> by lia. replace (wrap_u32 (2 ^ 32 - 1 + 1)) with 0%Z by done.
      destruct Hw as [Hw|[q Hq]].
      { destruct L as [|]; [|simpl in Hw; lia]. simpl.
        replace (2 ^ 32 - 1 - Z.of_nat i + Z.of_nat 0)%Z with (2 ^ 32 - 1 - Z.of_nat i)%Z by lia. lia. }
      rewrite IH; [|lia|right; by exists q].
      replace (2 ^ 32 - 1 - Z.of_nat i + Z.of_nat (length L))%Z with (0 - 1 - Z.of_nat i + Z.of_nat (length L) + q * sz)%Z by lia.
      replace (2 ^ 32 - 1 - Z.of_nat i)%Z with (0 - 1 - Z.of_nat i + q * sz)%Z by lia.
      rewrite !Z.div_add by lia. lia. }
  replace (next - 1 - Z.of_nat i + Z.of_nat (S (length L)))%Z with (next - Z.of_nat i + Z.of_nat (length L))%Z by lia.
  rewrite Nat2Z.inj_add, Hrest. case_bool_decide; simpl length; lia.
Qed.

(** C26.  A pool deals jobs out in turn.  A sequence of submissions to a running
    pool puts the [j]-th job, if it is accepted, at the back of the queue of worker
    [((next + j) mod 2^32) mod size], and no other queue changes; the counter ends
    at [next + n] modulo [2^32]; only lack of memory makes it refuse a job. *)
Theorem pool_deals_in_turn {E : Ext} {MS : MpscSpec E} client pool arr L next Ws s :
  pool_rep (length L) pool arr next Ws s ->
  wp (body client) log (pool_submits pool L)
    (fun oks s' => length oks = length L /\ (oracle s = [] -> oks = replicate (length L) true) /\
       exists Ws', pool_rep 0 pool arr (wrap_u32 (next + Z.of_nat (length L))) Ws' s' /\ length Ws' = length Ws /\
         forall i w, Ws !! i = Some w -> exists w', Ws' !! i = Some w' /\ pw_ptr w' = pw_ptr w /\
           pw_labels w' = pw_labels w ++ share next (Z.of_nat (length Ws)) i L oks) s.
Proof. intros Hr. apply pool_submits_spec. by rewrite Nat.add_0_r. Qed.

(** C27.  The load is even.  While memory lasts, [n] submissions to a pool of [m]
    workers give each of them [n / m] or [n / m + 1] jobs, provided the 32-bit
    counter does not wrap on the way or [m] divides [2^32]. *)
Theorem pool_load_is_even {E : Ext} {MS : MpscSpec E} client pool arr L next Ws s :
  pool_rep (length L) pool arr next Ws s -> oracle s = [] ->
  (next + Z.of_nat (length L) <= 2 ^ 32)%Z \/ (Z.of_nat (length Ws) | 2 ^ 32)%Z ->
  wp (body client) log (pool_submits pool L)
    (fun _ s' => exists Ws', pool_rep 0 pool arr (wrap_u32 (next + Z.of_nat (length L))) Ws' s' /\
       forall i w, Ws !! i = Some w -> exists w' C, Ws' !! i = Some w' /\ pw_labels w' = pw_labels w ++ C /\
         length L / length Ws <= length C <= length L / length Ws + 1) s.
Proof.
  intros Hr Ho Hw. pose proof (pr_size _ _ _ _ _ _ Hr) as Hsz. pose proof (pr_next _ _ _ _ _ _ Hr) as Hn.
  eapply wp_mono; [apply pool_submits_spec; by rewrite Nat.add_0_r|].
  simpl. intros oks s' (_ & Hoks & Ws' & Hr' & _ & Hsh). exists Ws'. split; [done|]. intros i w Hi.
  destruct (Hsh i w Hi) as (w' & Hw' & _ & Hl). exists w', (share next (Z.of_nat (length Ws)) i L oks).
  split_and!; [done..| |]; rewrite (Hoks Ho); apply lookup_lt_Some in Hi.
  all: apply Nat2Z.inj_le; rewrite share_length by (try done; lia).
  all: rewrite ?Nat2Z.inj_add, Nat2Z.inj_div; apply div_shift; lia.
Qed.

(** A job can be aimed at a worker.  [PoolSubmitTo] with the index of a worker
    queues the job there and leaves the round-robin counter alone; with any other
    index it behaves like [PoolSubmit]. *)
Lemma pool_submit_to_targets {E : Ext} {MS : MpscSpec E} client k pool arr next Ws idx l s :
  pool_rep (S k) pool arr next Ws s ->
  wp (body client) log (UfsrvSchedulerPoolSubmitTo pool idx (Some l.1) l.2)
    (fun ok s' => (oracle s = [] -> ok = true) /\ exists Ws',
       if bool_decide (0 <= idx < Z.of_nat (length Ws))%Z
       then placed (Z.to_nat idx) l ok Ws Ws' /\ pool_rep k pool arr next Ws' s'
       else placed (Z.to_nat (next mod Z.of_nat (length Ws))) l ok Ws Ws' /\
            pool_rep k pool arr (wrap_u32 (next + 1)) Ws' s') s.
Proof. apply PoolSubmitTo_spec. Qed.

(** What a pool refuses.  Submitting to a null pool, submitting no callback, or
    submitting to a pool that is not running returns [false] and changes nothing:
    not the round-robin counter either. *)
Lemma pool_refuses {E : Ext} client pool idx cb ctx s :
  pool = NULL \/ (exists x, heap s !! pool = Some (OPool x) /\ (cb = None \/ pool_is_running x = false)) ->
  wp (body client) log (UfsrvSchedulerPoolSubmit pool cb ctx) (fun ok s' => ok = false /\ s' = s) s /\
  wp (body client) log (UfsrvSchedulerPoolSubmitTo pool idx cb ctx) (fun ok s' => ok = false /\ s' = s) s.
Proof.
  unfold UfsrvSchedulerPoolSubmit, UfsrvSchedulerPoolSubmitTo.
  intros [->|(x & Hx & Hc)]; [split; by apply wps_ret|].
  destruct (is_null pool || bool_decide (cb = None)) eqn:Hn; [split; by apply wps_ret|].
  apply orb_false_iff in Hn as [_ Hn%bool_decide_eq_false]. destruct Hc as [->|Hrun]; [done|].
  split; wp_steps; rewrite Hrun; by apply wps_ret.
Qed.

(** ** Witnesses: a started pool of two workers *)
#[local] Existing Instances RefExt.ext RefExt.treiber RefExt.mpsc.

Definition start_pool : cprog unit :=
  (let! pool := UfsrvSchedulerPoolCreate 2 (Some "io"%string) in
   let! _ := UfsrvSchedulerPoolStart pool in Ret tt)%prog.
Definition two_st : st := after start_pool boot.
Definition two_worker (p name : ptr) (fd : Z) (thread : N) : pworker :=
  PW p (MkScheduler ([] : @mqueue RefExt.ext) fd thread name true true false false 0%N) [].
Definition two : list pworker := [two_worker 3%N 4%N 3 1%N; two_worker 5%N 6%N 4 2%N].
Definition three_jobs : list label := [(JB_user 1, NULL); (JB_user 2, NULL); (JB_user 3, NULL)].

Lemma two_wf : wf_alloc two_st.
Proof.
  apply after_wf; [|apply boot_wf]. unfold start_pool.
  apply guar_bind; [apply (api_guar _ _ (api_pool_create _ _))|intros pool].
  apply guar_bind; [apply (api_guar _ _ (api_pool_start _))|intros; apply guar_ret].
Qed.

Lemma two_sched p name fd thread str s :
  wf_alloc s -> p <> NULL -> (0 <= fd)%Z -> heap s !! p = Some (OScheduler (pw_cell (two_worker p name fd thread))) ->
  heap s !! name = Some (OString str) -> fds s !! fd = Some 0%Z ->
  sched_rep p (pw_cell (two_worker p name fd thread)) [] s.
Proof.
  intros Hwf Hp Hfd Hc Hs Hf. split.
  - exact Hwf.
  - exact Hp.
  - exact Hc.
  - reflexivity.
  - by intros j ?%elem_of_nil.
  - apply NoDup_nil_2.
  - exists 0%Z. by split.
  - exact Hfd.
  - intros _. by exists str.
Qed.
Lemma two_rep : pool_rep 3 1%N 2%N 0 two two_st.
Proof.
  assert (Hw : forall w, w ∈ two -> w = two_worker 3%N 4%N 3 1%N \/ w = two_worker 5%N 6%N 4 2%N).
  { intros w. unfold two. rewrite !elem_of_cons. intros [->|[->|?%elem_of_nil]]; auto. done. }
  split.
  - discriminate.
  - vm_compute. reflexivity.
  - vm_compute. reflexivity.
  - by split.
  - simpl. lia.
  - reflexivity.
  - intros w [-> | ->]%Hw; [apply (two_sched 3%N 4%N 3 1%N "io-0")|apply (two_sched 5%N 6%N 4 2%N "io-1")];
      first [exact two_wf | discriminate | vm_compute; reflexivity].
  - by intros w [-> | ->]%Hw.
  - intros w [-> | ->]%Hw; (exists 0%Z; split; [vm_compute; reflexivity|vm_compute; discriminate]).
  - change (NoDup [3%N; 5%N]). apply (bool_decide_unpack _). exact I.
  - change (NoDup [3%Z; 4%Z]). apply (bool_decide_unpack _). exact I.
Qed.

Lemma pool_deals_in_turn_witness :
  wp (body quiet_client) log (pool_submits 1%N three_jobs)
    (fun oks s' => length oks = 3 /\ (oracle two_st = [] -> oks = replicate 3 true) /\
       exists Ws', pool_rep 0 1%N 2%N (wrap_u32 (0 + Z.of_nat 3)) Ws' s' /\ length Ws' = length two /\
         forall i w, two !! i = Some w -> exists w', Ws' !! i = Some w' /\ pw_ptr w' = pw_ptr w /\
           pw_labels w' = pw_labels w ++ share 0 (Z.of_nat (length two)) i three_jobs oks) two_st.
Proof. apply (pool_deals_in_turn quiet_client 1%N 2%N three_jobs 0 two). apply two_rep. Defined.

Lemma pool_load_is_even_witness :
  wp (body quiet_client) log (pool_submits 1%N three_jobs)
    (fun _ s' => exists Ws', pool_rep 0 1%N 2%N (wrap_u32 (0 + Z.of_nat 3)) Ws' s' /\
       forall i w, two !! i = Some w -> exists w' C, Ws' !! i = Some w' /\ pw_labels w' = pw_labels w ++ C /\
         3 / 2 <= length C <= 3 / 2 + 1) two_st.
Proof.
  apply (pool_load_is_even quiet_client 1%N 2%N three_jobs 0 two).
  - apply two_rep.
  - vm_compute; reflexivity.
  - left. vm_compute. discriminate.
Defined.
