(* ===== verification/DescribeFacts.v ===== *)
(** * DescribeFacts: the reports on a pool

    The JSON string escaping and its inverse, the document [DescribeScheduler]
    renders, and the memory layout of [ListSchedulerWorkers]. *)
From Stdlib Require Import Ascii String.
From S2P Require Import Prelude Machine Uflib Model Scheduler Dispatch Logic Describe.
From S2P Require Import Guarantee Demo SchedulerFacts.
Local Open Scope string_scope.

Lemma append_cons c (a b : string) : String c a ++ b = String c (a ++ b).
Proof. done. Qed.
Lemma append_nil (a : string) : "" ++ a = a.
Proof. done. Qed.
Lemma append_assoc (a b c : string) : (a ++ b) ++ c = a ++ (b ++ c).
Proof. induction a as [|x a IH]; [done|]. by rewrite !append_cons, IH. Qed.
Lemma append_nil_r (a : string) : a ++ "" = a.
Proof. induction a as [|x a IH]; [done|]. by rewrite append_cons, IH. Qed.

(** ** JSON strings *)

(** The escaping of a string, by character code: quotation mark, reverse solidus, line
    feed and tab have two-character escapes, every other byte stands for itself. *)
Definition escaped_char (c : ascii) : string :=
  match N_of_ascii c with
  | 34%N => String BACKSLASH (char1 QUOTE)
  | 92%N => String BACKSLASH (char1 BACKSLASH)
  | 10%N => String BACKSLASH "n"
  | 9%N => String BACKSLASH "t"
  | _ => char1 c
  end.
Fixpoint escape (s : string) : string :=
  match s with EmptyString => "" | String c r => escaped_char c ++ escape r end.
Definition json_string (s : option string) : string :=
  match s with None => "null" | Some s => quote ++ escape (c_str s) ++ quote end.

(** A reader of JSON strings, from after the opening quote: the value and the rest. *)
Fixpoint json_unescape (s : string) : option (string * string) :=
  match s with
  | EmptyString => None
  | String c r =>
      if Ascii.eqb c QUOTE then Some ("", r)
      else if Ascii.eqb c BACKSLASH then
        match r with
        | EmptyString => None
        | String e r' =>
            let val := if Ascii.eqb e "n"%char then LF else if Ascii.eqb e "t"%char then TAB else e in
            '(v, rest) ← json_unescape r'; Some (String val v, rest)
        end
      else '(v, rest) ← json_unescape r; Some (String c v, rest)
  end.

(** RFC 8259: control characters may not appear inside a string. *)
Definition is_control (c : ascii) : bool := bool_decide (nat_of_ascii c < 32).
Fixpoint json_body_ok (s : string) : bool :=
  match s with
  | EmptyString => true
  | String c r =>
      if Ascii.eqb c BACKSLASH then
        match r with
        | String e r' => existsb (Ascii.eqb e) [QUOTE; BACKSLASH; "/"; "b"; "f"; "n"; "r"; "t"]%char && json_body_ok r'
        | EmptyString => false
        end
      else negb (Ascii.eqb c QUOTE) && negb (is_control c) && json_body_ok r
  end.
(** RFC 3629: the byte ranges that may follow a leading byte; well-formed UTF-8. *)
Definition utf8_tail : N * N := (128%N, 191%N).
Definition utf8_lead (c : ascii) : option (list (N * N)) :=
  let n := N_of_ascii c in
  if bool_decide (n <= 127)%N then Some []
  else if bool_decide (194 <= n <= 223)%N then Some [utf8_tail]
  else if bool_decide (n = 224)%N then Some [(160%N, 191%N); utf8_tail]
  else if bool_decide (225 <= n <= 236 \/ 238 <= n <= 239)%N then Some [utf8_tail; utf8_tail]
  else if bool_decide (n = 237)%N then Some [(128%N, 159%N); utf8_tail]
  else if bool_decide (n = 240)%N then Some [(144%N, 191%N); utf8_tail; utf8_tail]
  else if bool_decide (241 <= n <= 243)%N then Some [utf8_tail; utf8_tail; utf8_tail]
  else if bool_decide (n = 244)%N then Some [(128%N, 143%N); utf8_tail; utf8_tail]
  else None.
Fixpoint utf8_from (pending : list (N * N)) (s : string) : bool :=
  match s, pending with
  | EmptyString, [] => true
  | EmptyString, _ :: _ => false
  | String c r, (lo, hi) :: pending => bool_decide (lo <= N_of_ascii c <= hi)%N && utf8_from pending r
  | String c r, [] => match utf8_lead c with Some pending => utf8_from pending r | None => false end
  end.
Definition utf8 (s : string) : bool := utf8_from [] s.
(** The inside of a JSON string literal that may be exchanged (RFC 8259, 7 and 8.1). *)
Definition json_literal_ok (body : string) : bool := json_body_ok body && utf8 body.

Fixpoint all_chars (p : ascii -> bool) (s : string) : bool :=
  match s with EmptyString => true | String c r => p c && all_chars p r end.

Lemma escaped_char_cases c :
  (c = QUOTE /\ escaped_char c = String BACKSLASH (char1 QUOTE)) \/
  (c = BACKSLASH /\ escaped_char c = String BACKSLASH (char1 BACKSLASH)) \/
  (c = LF /\ escaped_char c = String BACKSLASH "n") \/
  (c = TAB /\ escaped_char c = String BACKSLASH "t") \/
  (c <> QUOTE /\ c <> BACKSLASH /\ c <> LF /\ c <> TAB /\ escaped_char c = char1 c).
Proof.
  destruct c as [[] [] [] [] [] [] [] []]; vm_compute;
    first [by left|by right; left|by right; right; left|by right; right; right; left|by right; right; right; right; auto 10].
Qed.
(** The model's [switch] is that table. *)
Lemma json_char_escaped c : json_char c = escaped_char c.
Proof. by destruct c as [[] [] [] [] [] [] [] []]. Qed.

Lemma unescape_escape s rest : json_unescape (escape s ++ quote ++ rest) = Some (s, rest).
Proof.
  induction s as [|c s IH]; [done|]. simpl escape. rewrite append_assoc.
  destruct (escaped_char_cases c) as [[-> ->]|[[-> ->]|[[-> ->]|[[-> ->]|(Hq & Hb & _ & _ & ->)]]]];
    unfold char1; rewrite ?append_cons, ?append_nil;
    try (simpl; change (String QUOTE rest) with (quote ++ rest); by rewrite IH).
  simpl. destruct (Ascii.eqb_spec c QUOTE); [done|]. destruct (Ascii.eqb_spec c BACKSLASH); [done|].
  by rewrite IH.
Qed.

Lemma body_ok_escape s :
  json_body_ok (escape s) = all_chars (fun c => negb (is_control c) || Ascii.eqb c LF || Ascii.eqb c TAB) s.
Proof.
  induction s as [|c s IH]; [done|]. simpl escape. simpl all_chars. rewrite <- IH.
  destruct (escaped_char_cases c) as [[-> ->]|[[-> ->]|[[-> ->]|[[-> ->]|(Hq & Hb & Hl & Ht & ->)]]]];
    unfold char1; rewrite ?append_cons, ?append_nil; try done.
  simpl. destruct (Ascii.eqb_spec c BACKSLASH); [done|]. destruct (Ascii.eqb_spec c QUOTE); [done|].
  destruct (Ascii.eqb_spec c LF); [done|]. destruct (Ascii.eqb_spec c TAB); [done|].
  simpl. by rewrite !orb_false_r.
Qed.

(** Escaping does not change whether a string is UTF-8: escapes are ASCII, and no
    continuation byte is escaped. *)
Lemma utf8_escape_from pending s :
  Forall (fun r : N * N => (128 <= r.1)%N) pending -> utf8_from pending (escape s) = utf8_from pending s.
Proof.
  revert pending; induction s as [|c s IH]; intros pending Hp; [done|]. simpl escape.
  assert (Hlead : forall p, utf8_lead c = Some p -> Forall (fun r : N * N => (128 <= r.1)%N) p).
  { intros p. unfold utf8_lead. intros Hl. repeat case_bool_decide; simplify_eq; repeat constructor; done. }
  destruct (escaped_char_cases c) as [[-> ->]|[[-> ->]|[[-> ->]|[[-> ->]|(_ & _ & _ & _ & ->)]]]];
    unfold char1; rewrite ?append_cons, ?append_nil.
  5: { destruct pending as [|[lo hi] pending]; simpl.
       - destruct (utf8_lead c) as [p|] eqn:Hc; [|done]. apply IH. by apply Hlead.
       - apply Forall_cons in Hp as [_ Hp]. by rewrite IH. }
  all: destruct pending as [|[lo hi] pending]; [by apply (IH [])|].
  all: apply Forall_cons in Hp as [Hlo _]; simpl in Hlo; simpl.
  all: by rewrite !bool_decide_eq_false_2 by (vm_compute N_of_ascii; lia).
Qed.

(** ** The document *)
Section Buffer.
Context {E : Ext} {buffer : Type}.
Context (BufferDescriptorInit : Z -> buffer) (BufferDescriptorAppendFormatted : buffer -> string -> buffer).

(** uflib's buffer accumulates text. *)
Class BufferSpec := {
  bd_text : buffer -> string;
  bd_init_text n : bd_text (BufferDescriptorInit n) = "";
  bd_append_text b s : bd_text (BufferDescriptorAppendFormatted b s) = bd_text b ++ s;
}.
Context {BS : BufferSpec} (client : Client).
#[local] Abbreviation WPS := (wps (body client) log).
#[local] Abbreviation WP := (wp (body client) log).
#[local] Abbreviation append := BufferDescriptorAppendFormatted.

Lemma json_loop_text bd s :
  bd_text (sDescribeJsonString_loop append bd s) = bd_text bd ++ escape (c_str s).
Proof.
  revert bd; induction s as [|c s IH]; intros bd; simpl; [by rewrite append_nil_r|].
  destruct (Ascii.eqb c NUL); [by rewrite append_nil_r|]. by rewrite IH, bd_append_text, append_assoc, json_char_escaped.
Qed.
Lemma json_string_text bd s :
  bd_text (sDescribeJsonString append bd s) = bd_text bd ++ json_string s.
Proof.
  destruct s as [s|]; simpl; [|apply bd_append_text].
  by rewrite !bd_append_text, json_loop_text, bd_append_text, !append_assoc.
Qed.

(** A worker as memory holds it: the struct and its name. *)
Definition worker_at (s : st) (w : ptr) (x : UfsrvScheduler) (name : option string) : Prop :=
  w <> NULL /\ heap s !! w = Some (OScheduler x) /\
  match name with
  | None => sch_name x = NULL
  | Some n => sch_name x <> NULL /\ heap s !! sch_name x = Some (OString n)
  end.

(** The reference document is written without the model's helpers. *)
Definition json_truth (b : bool) : string := match b with true => "true" | false => "false" end.
Lemma json_bool_truth b : json_bool b = json_truth b.
Proof. done. Qed.
Definition worker_json (x : UfsrvScheduler) (name : option string) : string :=
  lf ++ lit "    {'name':" ++ json_string name ++
  lit ",'is_running':" ++ json_truth (sch_is_running x) ++
  lit ",'is_started':" ++ json_truth (sch_is_started x) ++
  lit ",'is_joined':" ++ json_truth (sch_is_joined x) ++
  lit ",'is_worker_id_ready':" ++ json_truth (sch_is_worker_id_ready x) ++
  lit ",'worker_id':" ++ (if sch_is_worker_id_ready x then pretty (sch_worker_id x) else "null") ++
  lit ",'event_fd':" ++ pretty (sch_event_fd x) ++ "}".

Lemma read_name_spec {A} w x name (k : option string -> cprog A) Q W Y s :
  worker_at s w x name -> WPS (k name) Q W Y s -> WPS (bind (read_name w) k) Q W Y s.
Proof.
  intros (Hw & Hx & Hn) Hk. unfold read_name. wp_steps. destruct name as [n|].
  - destruct Hn as [Hn0 Hn]. rewrite (is_null_false (sch_name x)) by done. wp_steps; rewrite ?bind_ret_r; exact Hk.
  - rewrite Hn. change (is_null NULL) with true. wp_steps; rewrite ?bind_ret_r; exact Hk.
Qed.

Lemma sDescribeWorker_spec {A} bd w x name (k : buffer -> cprog A) Q W Y s :
  worker_at s w x name ->
  (forall bd', bd_text bd' = bd_text bd ++ worker_json x name -> WPS (k bd') Q W Y s) ->
  WPS (bind (sDescribeWorker append bd w) k) Q W Y s.
Proof.
  intros Hw Hk. pose proof Hw as (_ & Hx & _). unfold sDescribeWorker. wp_steps.
  eapply read_name_spec; [done|]. wp_steps. unfold worker_json in Hk.
  destruct (sch_is_worker_id_ready x) eqn:Hid; wp_steps; rewrite ?bind_ret_r; apply Hk;
    rewrite !bd_append_text, json_string_text, bd_append_text, ?Hid; by rewrite !append_assoc.
Qed.

(** *** The pool *)
Definition pool_at (s : st) (pool : ptr) (y : UfsrvSchedulerPool) (ws : list ptr) : Prop :=
  pool <> NULL /\ heap s !! pool = Some (OPool y) /\ heap s !! pool_workers y = Some (OArray ws) /\
  length ws = Z.to_nat (pool_worker_pool_sz y).
Definition described : Type := UfsrvScheduler * option string.
Definition workers_at (s : st) (ws : list ptr) (D : list described) : Prop :=
  Forall2 (fun w d => worker_at s w d.1 d.2) ws D.
(** A worker is reported when there is no filter, or when it has a name and that is,
    as a C string, the name asked for. *)
Definition asked_for (worker_name name : option string) : Prop :=
  match worker_name with
  | None => True
  | Some wanted => match name with Some n => c_str n = c_str wanted | None => False end
  end.
#[export] Instance asked_for_dec worker_name name : Decision (asked_for worker_name name).
Proof. unfold asked_for. destruct worker_name, name; apply _. Defined.
Definition shown (worker_name : option string) (D : list described) : list described :=
  filter (fun d : described => asked_for worker_name d.2) D.
Lemma skips_asked worker_name name : skips worker_name name = bool_decide (~ asked_for worker_name name).
Proof.
  unfold skips, asked_for, strcmp_eq. destruct worker_name as [w|], name as [n|]; try done.
  by repeat case_bool_decide.
Qed.

(** The reference rendering. *)
Definition pool_json (y : UfsrvSchedulerPool) (D : list described) : string :=
  lit "{'worker_pool_sz':" ++ pretty (pool_worker_pool_sz y) ++
  lit ",'round_robin_next':" ++ pretty (pool_next y) ++
  lit ",'pool_is_running':" ++ json_truth (pool_is_running y) ++
  lit ",'workers':[" ++ String.concat "," ((fun d => worker_json d.1 d.2) <$> D) ++ lf ++ "]}" ++ lf.
Definition no_pool_json : string := lit "{'worker_pool_sz':0,'workers':[]}" ++ lf.

Lemma wps_platform_ok {A} (k : bool -> cprog A) Q W Y s :
  (forall o, oracle s <> [] -> WPS (k false) Q W Y (with_oracle o s)) ->
  (forall o, WPS (k true) Q W Y (with_oracle o s)) -> WPS (bind platform_ok k) Q W Y s.
Proof.
  intros H0 H1. assert (Hs : s = with_oracle (oracle s) s) by by destruct s.
  destruct (oracle s) as [|b o] eqn:Ho.
  - eapply wps_act; [unfold take_oracle; rewrite Ho; reflexivity|]. rewrite Hs. apply H1.
  - eapply wps_act; [unfold take_oracle; rewrite Ho; reflexivity|]. destruct b; [by apply H0|apply H1].
Qed.
Fixpoint joined_text (emitted : bool) (D : list described) : string :=
  match D with
  | [] => ""
  | d :: D => (if emitted then "," else "") ++ worker_json d.1 d.2 ++ joined_text true D
  end.
Lemma joined_concat D : joined_text false D = String.concat "," ((fun d => worker_json d.1 d.2) <$> D).
Proof.
  assert (H : forall d D, worker_json d.1 d.2 ++ joined_text true D =
    String.concat "," ((fun d => worker_json d.1 d.2) <$> d :: D)).
  { intros d D'; revert d; induction D' as [|e D' IH]; intros d; [apply append_nil_r|].
    cbn [joined_text]. rewrite IH. done. }
  destruct D as [|d D]; [done|]. cbn [joined_text]. rewrite append_nil. apply H.
Qed.

Lemma DescribeScheduler_loop_spec {A} worker_name ws a D emitted i bd (k : buffer -> cprog A) Q W Y s :
  heap s !! a = Some (OArray ws) -> workers_at s (drop i ws) D ->
  (forall bd', bd_text bd' = bd_text bd ++ joined_text emitted (shown worker_name D) -> WPS (k bd') Q W Y s) ->
  WPS (bind (DescribeScheduler_loop append worker_name a emitted i (length D) bd) k) Q W Y s.
Proof.
  intros Ha. revert emitted i bd. induction D as [|d D IH]; intros emitted i bd HD Hk; simpl.
  - wp_steps. rewrite ?bind_ret_r. apply Hk. by rewrite append_nil_r.
  - inversion HD as [|w ? l ? Hw HD' Hdrop]; subst. 
    assert (Hi : ws !! i = Some w).
    { rewrite <- (Nat.add_0_r i), <- lookup_drop, <- Hdrop. done. }
    assert (Hl : l = drop (S i) ws).
    { rewrite <- (Nat.add_1_r i), <- drop_drop, <- Hdrop. done. }
    subst l. apply wps_assoc. eapply wps_array_get; [done..|].
    unfold shown in *. rewrite filter_cons in Hk. 
    assert (Hnext : forall skip, skip = skips worker_name d.2 ->
      WPS (bind (if skip : bool then DescribeScheduler_loop append worker_name a emitted (S i) (length D) bd
        else let bd := if emitted then append bd "," else bd in
          let! bd := sDescribeWorker append bd w in
          DescribeScheduler_loop append worker_name a true (S i) (length D) bd)%prog k) Q W Y s).
    { intros skip ->. rewrite skips_asked. case_bool_decide as Hs.
      - apply IH; [done|]. rewrite decide_False in Hk by done. exact Hk.
      - rewrite decide_True in Hk by exact Hs. apply wps_assoc. eapply sDescribeWorker_spec; [exact Hw|].
        intros bd1 H1. apply IH; [done|]. intros bd2 H2. apply Hk. rewrite H2, H1. cbn [joined_text].
        destruct emitted; rewrite ?bd_append_text, ?append_nil, !append_assoc; done. }
    apply wps_assoc. destruct worker_name as [wn|].
    + apply wps_assoc. eapply read_name_spec; [exact Hw|]. wp_step. by apply Hnext.
    + wp_step. by apply (Hnext false).
Qed.
End Buffer.

(** C21.  The report on a pool.  [DescribeScheduler] only reads: memory, descriptors and
    history are untouched.  The text it appends is the JSON document of the pool,
    the workers that pass the name filter in index order and separated by commas; it
    returns NULL only when it has to allocate the buffer and memory is exhausted. *)
Theorem describe_renders_pool {E : Ext} {buffer : Type} init append {BS : BufferSpec init append} client
    pool y ws D worker_name (provided : option buffer) s :
  pool_at s pool y ws -> workers_at s ws D ->
  wp (body client) log (DescribeScheduler init append pool worker_name provided)
    (fun r s' => heap s' = heap s /\ fds s' = fds s /\ trace s' = trace s /\
       match r with
       | None => provided = None /\ oracle s <> []
       | Some bd => bd_text init append bd =
           default "" (bd_text init append <$> provided) ++ pool_json y (shown worker_name D)
       end) s.
Proof.
  intros (Hp0 & Hp & Ha & Hlen) HD. pose proof (Forall2_length _ _ _ HD) as HlD.
  assert (Hmain : forall bd u, heap u = heap s -> fds u = fds s -> trace u = trace s ->
    wps (body client) log (DescribeScheduler init append pool worker_name (Some bd))
      (fun r s' => heap s' = heap s /\ fds s' = fds s /\ trace s' = trace s /\
        match r with None => False | Some bd' => bd_text init append bd' =
           bd_text init append bd ++ pool_json y (shown worker_name D) end)
      (fun _ _ => False) (fun _ _ => False) u).
  { intros bd u Hh Hf Ht. unfold DescribeScheduler. wp_steps. rewrite (is_null_false pool) by done.
    rewrite <- Hh in Hp, Ha. wp_steps. rewrite <- Hlen, HlD. eapply (DescribeScheduler_loop_spec _ _ client).
    - exact Ha.
    - rewrite drop_0. unfold workers_at, worker_at in *. by rewrite Hh.
    - intros bd' Hbd'. wp_steps. split_and!; try done. rewrite bd_append_text, Hbd', bd_append_text, joined_concat.
      unfold pool_json. by rewrite !append_assoc. }
  destruct provided as [bd|]; [eapply wp_mono; [by apply Hmain|]; intros [] s'; naive_solver|].
  unfold DescribeScheduler. wp_steps. apply wps_platform_ok; [intros o Ho|intros o]; wp_steps; [by split_and!|].
  eapply wps_mono; [apply (Hmain (init 256%Z) (with_oracle o s)); done|..]; simpl; try done.
  intros [bd|] s'; [|naive_solver]. by rewrite bd_init_text.
Qed.

Section Slab.
Context {E : Ext} (sizeof_CollectionDescriptor : Z) (client : Client).
#[local] Abbreviation WPS := (wps (body client) log).
#[local] Abbreviation WP := (wp (body client) log).
#[local] Abbreviation base := sizeof_CollectionDescriptor.

(** A slot of the worker array: empty, or a worker with or without a name. *)
Definition slot_at (s : st) (w : ptr) (name : option string) : Prop :=
  (w = NULL /\ name = None) \/ exists x, worker_at s w x name.
Definition named (N : list (option string)) : list string := omap (fun x => x) N.
(** The bytes a list of names occupies, terminators included. *)
Fixpoint bytes (L : list string) : Z :=
  match L with [] => 0 | n :: L => strlen n + 1 + bytes L end.

Lemma strlen_pos n : (0 <= strlen n)%Z.
Proof. unfold strlen. lia. Qed.
Lemma bytes_pos L : (0 <= bytes L)%Z.
Proof. induction L as [|n L IH]; cbn [bytes]; [done|]. pose proof (strlen_pos n). lia. Qed.
Lemma bytes_app L L' : bytes (L ++ L') = (bytes L + bytes L')%Z.
Proof. induction L as [|n L IH]; cbn [bytes app]; [done|lia]. Qed.
Lemma named_cons x N : named (x :: N) = match x with Some n => n :: named N | None => named N end.
Proof. by destruct x. Qed.

(** The C string at offset [o] of the block. *)
Fixpoint read_chars (m : gmap Z ascii) (o : Z) (fuel : nat) : option string :=
  match fuel with
  | O => None
  | S fuel => c ← m !! o; if Ascii.eqb c NUL then Some "" else String c <$> read_chars m (o + 1) fuel
  end.

Lemma put_chars_outside m o s q :
  (q < o \/ o + Z.of_nat (String.length s) <= q)%Z -> put_chars o s m !! q = m !! q.
Proof.
  revert m o; induction s as [|c s IH]; intros m o Hq; cbn [put_chars]; [done|].
  cbn [String.length] in Hq. rewrite IH by lia. apply lookup_insert_ne. lia.
Qed.
Lemma c_str_no_nul s : all_chars (fun c => negb (Ascii.eqb c NUL)) (c_str s) = true.
Proof.
  induction s as [|c s IH]; cbn [c_str]; [done|]. destruct (Ascii.eqb c NUL) eqn:Hc; [done|].
  cbn [all_chars]. by rewrite Hc, IH.
Qed.
Lemma read_put m o s fuel :
  all_chars (fun c => negb (Ascii.eqb c NUL)) s = true -> String.length s < fuel ->
  read_chars (put_chars o (s ++ char1 NUL) m) o fuel = Some s.
Proof.
  revert m o fuel; induction s as [|c s IH]; intros m o [|fuel] Hs Hf; cbn [String.length] in Hf; try lia.
  - rewrite append_nil. cbn. by rewrite lookup_insert_eq.
  - rewrite append_cons. cbn [put_chars read_chars]. cbn [all_chars] in Hs.
    apply andb_true_iff in Hs as [Hc Hs]. rewrite put_chars_outside by lia. rewrite lookup_insert_eq. cbn.
    apply negb_true_iff in Hc. rewrite Hc, IH by (done || lia). done.
Qed.
Lemma read_chars_frame m m' o fuel s :
  read_chars m o fuel = Some s ->
  (forall q, (o <= q <= o + Z.of_nat (String.length s))%Z -> m' !! q = m !! q) ->
  read_chars m' o fuel = Some s.
Proof.
  revert o s; induction fuel as [|fuel IH]; intros o s Hs Hq; cbn [read_chars] in *; [done|].
  rewrite Hq by lia. destruct (m !! o) as [c|] eqn:Hc; cbn in *; [|done].
  destruct (Ascii.eqb c NUL); [done|]. destruct (read_chars m (o + 1) fuel) as [s'|] eqn:Hr; cbn in *; [|done].
  simplify_eq. rewrite (IH _ s'); [done|done|]. intros q Hle. apply Hq. cbn [String.length]. lia.
Qed.

(** The layout when the names [L] out of [n] have been copied. *)
Definition position (n : Z) (L : list string) (i : nat) : Z := base + 8 * n + bytes (take i L).
Record holds (b : CollectionSlab) (n : Z) (L : list string) : Prop := {
  ho_pointer i nm : L !! i = Some nm ->
    slab_pointers b !! (base + 8 * Z.of_nat i)%Z = Some (position n L i);
  ho_chars i nm fuel : L !! i = Some nm -> (strlen nm < Z.of_nat fuel)%Z ->
    read_chars (slab_chars b) (position n L i) fuel = Some (c_str nm);
}.

Lemma position_next n L nm : position n (L ++ [nm]) (length L) = (base + 8 * n + bytes L)%Z.
Proof. unfold position. by rewrite take_app_length. Qed.
Lemma position_old n L nm i : i < length L -> position n (L ++ [nm]) i = position n L i.
Proof. intros Hi. unfold position. by rewrite take_app_le by lia. Qed.
Lemma position_bound n L i nm :
  L !! i = Some nm -> (position n L i + strlen nm + 1 <= base + 8 * n + bytes L)%Z.
Proof.
  intros Hi. unfold position. rewrite <- (take_drop_middle L i nm) at 2 by done.
  rewrite bytes_app. cbn [bytes]. pose proof (bytes_pos (drop (S i) L)). lia.
Qed.

Lemma holds_snoc b n L nm sz a p k :
  holds b n L ->
  holds (MkSlab sz a p k (<[(base + 8 * Z.of_nat (length L))%Z := (base + 8 * n + bytes L)%Z]> (slab_pointers b))
           (put_chars (base + 8 * n + bytes L) (c_str nm ++ char1 NUL) (slab_chars b))) n (L ++ [nm]).
Proof.
  intros [Hp Hc]. split; cbn.
  - intros i m [Hi|[Hi Hm]]%lookup_app_Some.
    + pose proof (lookup_lt_Some _ _ _ Hi). rewrite lookup_insert_ne by lia. by rewrite position_old, (Hp i m).
    + apply list_lookup_singleton_Some in Hm as [Hj ->]. assert (i = length L) as -> by lia.
      by rewrite lookup_insert_eq, position_next.
  - intros i m fuel [Hi|[Hi Hm]]%lookup_app_Some Hf.
    + pose proof (lookup_lt_Some _ _ _ Hi). rewrite position_old by done.
      eapply read_chars_frame; [by apply (Hc i m)|]. intros q Hq. apply put_chars_outside.
      pose proof (position_bound n _ _ _ Hi). fold (strlen m) in Hq. unfold strlen in *. lia.
    + apply list_lookup_singleton_Some in Hm as [Hj ->]. assert (i = length L) as -> by lia.
      rewrite position_next. apply read_put; [apply c_str_no_nul|unfold strlen in Hf; lia].
Qed.

Lemma wps_slot {A} w nm (k : ptr -> cprog A) (p : cprog A) (f : option string -> cprog A) Q W Y s :
  slot_at s w nm ->
  (nm = None -> WPS p Q W Y s) -> (w <> NULL -> WPS (f nm) Q W Y s) ->
  WPS (if is_null w then p else bind (read_name w) f) Q W Y s.
Proof.
  intros [[-> ->]|(x & Hw)] Hp Hf.
  - change (is_null NULL) with true. by apply Hp.
  - pose proof Hw as [Hw0 _]. rewrite (is_null_false w) by done. eapply read_name_spec; [done|]. by apply Hf.
Qed.

Lemma drop_slot s (ws : list ptr) i nm N :
  Forall2 (slot_at s) (drop i ws) (nm :: N) ->
  exists w, ws !! i = Some w /\ slot_at s w nm /\ Forall2 (slot_at s) (drop (S i) ws) N.
Proof.
  intros HD. inversion HD as [|w ? l ? Hw HD' Hdrop]; subst. exists w. split_and!; [|done|].
  - by rewrite <- (Nat.add_0_r i), <- lookup_drop, <- Hdrop.
  - by rewrite <- (Nat.add_1_r i), <- drop_drop, <- Hdrop.
Qed.

Lemma count_spec {A} ws a N i n sb (k : Z * Z -> cprog A) Q W Y s :
  heap s !! a = Some (OArray ws) -> Forall2 (slot_at s) (drop i ws) N ->
  (0 <= n)%Z -> (0 <= sb)%Z ->
  (n + Z.of_nat (length (named N)) < 2 ^ 64)%Z -> (sb + bytes (named N) < 2 ^ 64)%Z ->
  WPS (k ((n + Z.of_nat (length (named N)))%Z, (sb + bytes (named N))%Z)) Q W Y s ->
  WPS (bind (ListWorkers_count a i (length N) n sb) k) Q W Y s.
Proof.
  intros Ha. revert i n sb. induction N as [|nm N IH]; intros i n sb HN Hn Hsb Hmn Hms Hk; cbn [length ListWorkers_count].
  - wp_step. cbn in Hk. by rewrite !Z.add_0_r in Hk.
  - destruct (drop_slot _ _ _ _ _ HN) as (w & Hi & Hw & HN'). rewrite named_cons in Hmn, Hms, Hk.
    apply wps_assoc. eapply wps_array_get; [done..|].
    assert (Hskip : nm = None -> WPS (bind (ListWorkers_count a (S i) (length N) n sb) k) Q W Y s).
    { intros ->. by apply IH. }
    destruct Hw as [[-> ->]|(x & Hw)]; [change (is_null NULL) with true; by apply Hskip|].
    pose proof Hw as [Hw0 _]. rewrite (is_null_false w) by done. apply wps_assoc. eapply read_name_spec; [done|].
    destruct nm as [nm|]; [|by apply Hskip]. cbn [length bytes] in *.
    pose proof (bytes_pos (named N)). pose proof (strlen_pos nm).
    rewrite !wrap_u64_id by (unfold size_range; lia). apply IH; try done; try lia.
    replace (n + 1 + Z.of_nat (length (named N)))%Z with (n + Z.of_nat (S (length (named N))))%Z by lia.
    replace (sb + (strlen nm + 1) + bytes (named N))%Z with (sb + (strlen nm + 1 + bytes (named N)))%Z by lia. done.
Qed.

Lemma copy_spec {A} ws a N t L n b (k : CollectionSlab -> cprog A) Q W Y s :
  heap s !! a = Some (OArray ws) -> Forall2 (slot_at s) (drop t ws) N ->
  (0 <= base)%Z -> n = Z.of_nat (length (L ++ named N)) -> (0 < n)%Z \/ named N = [] ->
  slab_size b = (base + 8 * n + bytes (L ++ named N))%Z -> (slab_size b < 2 ^ 64)%Z ->
  slab_collection b = (if bool_decide (0 < n)%Z then Some base else None) ->
  holds b n L ->
  (forall b', holds b' n (L ++ named N) -> slab_size b' = slab_size b ->
     slab_collection b' = slab_collection b -> slab_collection_sz b' = slab_collection_sz b ->
     slab_collection_base_offset b' = slab_collection_base_offset b -> WPS (k b') Q W Y s) ->
  WPS (bind (ListWorkers_copy a t (length N) (Z.of_nat (length L)) n (base + 8 * n + bytes L) b) k) Q W Y s.
Proof.
  intros Ha. revert t L b. induction N as [|nm N IH];
    intros t L b HN Hb0 Hn Hn0 Hsz Hmax Hcol Hb Hk; cbn [length ListWorkers_copy].
  - wp_step. rewrite app_nil_r in Hk. by apply Hk.
  - destruct (drop_slot _ _ _ _ _ HN) as (w & Hi & Hw & HN'). pose proof (bytes_pos L).
    destruct (decide (n <= Z.of_nat (length L))%Z) as [Hin|Hin].
    { rewrite bool_decide_eq_true_2 by done. assert (named (nm :: N) = []) as Hnil by (rewrite length_app in Hn; apply nil_length_inv; lia).
      wp_step. rewrite Hnil, app_nil_r in Hk. by apply Hk. }
    rewrite bool_decide_eq_false_2 by done. rewrite named_cons in *.
    apply wps_assoc. eapply wps_array_get; [done..|].
    assert (Hskip : nm = None ->
      WPS (bind (ListWorkers_copy a (S t) (length N) (Z.of_nat (length L)) n (base + 8 * n + bytes L) b) k) Q W Y s).
    { intros ->. by apply IH. }
    destruct Hw as [[-> ->]|(x & Hw)]; [change (is_null NULL) with true; by apply Hskip|].
    pose proof Hw as [Hw0 _]. rewrite (is_null_false w) by done. apply wps_assoc. eapply read_name_spec; [done|].
    destruct nm as [nm|]; [|by apply Hskip].
    pose proof (bytes_pos (named N)). pose proof (strlen_pos nm).
    assert (Hlen : (n = Z.of_nat (length L) + 1 + Z.of_nat (length (named N)))%Z) by (rewrite Hn, length_app; cbn [length]; lia).
    rewrite bytes_app in Hsz. cbn [bytes] in Hsz.
    rewrite bool_decide_eq_true_2 in Hcol by lia.
    apply wps_assoc. eapply wps_act.
    { rewrite bool_decide_eq_true_2 by lia. reflexivity. }
    cbn [bind]. apply wps_assoc. eapply wps_act.
    { cbn. rewrite Hcol, bool_decide_eq_true_2 by lia. reflexivity. }
    cbn. rewrite !wrap_u64_id by (unfold size_range; lia).
    replace (Z.of_nat (length L) + 1)%Z with (Z.of_nat (length (L ++ [nm]))) by (rewrite length_app; cbn; lia).
    replace (base + 8 * n + bytes L + (strlen nm + 1))%Z with (base + 8 * n + bytes (L ++ [nm]))%Z
      by (rewrite bytes_app; cbn [bytes]; lia).
    rewrite (cons_middle nm L (named N)), (app_assoc L [nm] (named N)) in Hk.
    apply IH; cbn; try done.
    + by rewrite <- app_assoc.
    + left. lia.
    + rewrite Hsz, !bytes_app. cbn [bytes]. lia.
    + by rewrite bool_decide_eq_true_2 by lia.
    + by apply holds_snoc.
    + intros b' ?? Hc ??. apply Hk; try done. congruence.
Qed.

(** Reading the collection back: the [i]-th string. *)
Definition slab_name (b : CollectionSlab) (i : nat) : option string :=
  a ← slab_collection b; p ← slab_pointers b !! (a + 8 * Z.of_nat i)%Z;
  read_chars (slab_chars b) p (Z.to_nat (slab_size b)).
End Slab.

(** C22.  The listing of the workers' names.  [ListSchedulerWorkers] only reads the pool,
    stays inside the one block it allocates, whose size is exactly the struct, a
    pointer per named worker and the names with their terminators, and the strings
    read back through the pointers are the workers' names in index order. *)
Theorem listing_in_bounds {E : Ext} sizeof client pool y ws N s :
  pool_at s pool y ws -> Forall2 (slot_at s) ws N -> (0 <= sizeof)%Z ->
  (sizeof + 8 * Z.of_nat (length (named N)) + bytes (named N) < 2 ^ 64)%Z ->
  wp (body client) log (ListSchedulerWorkers sizeof pool)
    (fun r s' => heap s' = heap s /\ fds s' = fds s /\ trace s' = trace s /\
       match r with
       | None => oracle s <> []
       | Some b =>
           slab_size b = (sizeof + 8 * Z.of_nat (length (named N)) + bytes (named N))%Z /\
           slab_collection_sz b = Z.of_nat (length (named N)) /\ slab_collection_base_offset b = 0%Z /\
           (slab_collection b = None <-> named N = []) /\
           forall i, i < length (named N) -> slab_name b i = c_str <$> named N !! i
       end) s.
Proof.
  intros (Hp0 & Hp & Ha & Hlen) HN Hs0 Hmax. pose proof (Forall2_length _ _ _ HN) as HlN.
  pose proof (bytes_pos (named N)). unfold ListSchedulerWorkers. rewrite (is_null_false pool) by done.
  wp_steps. rewrite <- Hlen, HlN.
  apply (count_spec client ws (pool_workers y) N 0); rewrite ?drop_0; try done; try lia.
  rewrite !Z.add_0_l. rewrite (wrap_u64_id (_ * 8)) by (unfold size_range; lia).
  rewrite wrap_u64_id by (unfold size_range; lia).
  apply wps_platform_ok; [intros o Ho|intros o]; simpl; wp_steps; [by split_and!|].
  set (n := Z.of_nat (length (named N))) in *.
  replace (sizeof + n * 8)%Z with (sizeof + 8 * n + bytes [])%Z by (cbn; lia).
  change 0%Z with (Z.of_nat (length ([] : list string))) at 3.
  eapply (copy_spec sizeof client ws _ N 0 []); rewrite ?drop_0; try done; simpl.
  - destruct (named N) eqn:HnN; [by right|left]. unfold n; cbn [length]; lia.
  - lia.
  - cbn [bytes]. unfold n. lia.
  - intros b' [Hpt Hch] Hsz Hcol Hcsz Hbo. apply wps_ret. split_and!; try done; [lia| |].
    + rewrite Hcol. unfold n. destruct (named N); [done|]. rewrite bool_decide_eq_true_2 by (cbn; lia). done.
    + intros i Hi. unfold slab_name. rewrite Hcol, bool_decide_eq_true_2 by lia. cbn.
      destruct (lookup_lt_is_Some_2 _ _ Hi) as [nm Hnm]. rewrite Hnm, (Hpt i nm Hnm). cbn.
      apply (Hch i nm _ Hnm). pose proof (position_bound sizeof n _ _ _ Hnm) as Hb.
      assert (0 <= position sizeof n (named N) i)%Z by (unfold position; pose proof (bytes_pos (take i (named N))); lia).
      rewrite Hsz. lia.
Qed.

(** C23.  What is escaped can be read back: reading the emitted JSON string literal, up to
    its closing quote, gives the C string that was emitted and leaves what follows. *)
Theorem json_string_roundtrip {E : Ext} {buffer : Type} init append {BS : BufferSpec init append}
    (bd : buffer) (str rest : string) :
  exists body, bd_text init append (sDescribeJsonString append bd (Some str)) =
      bd_text init append bd ++ quote ++ body /\
    json_unescape (body ++ rest) = Some (c_str str, rest).
Proof.
  exists (escape (c_str str) ++ quote). rewrite (json_string_text init append bd (Some str)). split; [done|].
  rewrite append_assoc. apply unescape_escape.
Qed.

(** C24.  When the escaping is enough.  The literal [sDescribeJsonString] emits is a JSON
    string in the sense of RFC 8259 (no raw control character or quote, only the escapes
    of its grammar, well-formed UTF-8) exactly when the C string is well-formed UTF-8
    and has no control character other than newline and tab: any other control
    character and any stray byte is emitted raw, and the document is not JSON. *)
Theorem json_string_conforms {E : Ext} {buffer : Type} init append {BS : BufferSpec init append}
    (bd : buffer) (str : string) :
  exists body, bd_text init append (sDescribeJsonString append bd (Some str)) =
      bd_text init append bd ++ quote ++ body ++ quote /\
    json_literal_ok body =
      all_chars (fun c => negb (is_control c) || Ascii.eqb c LF || Ascii.eqb c TAB) (c_str str) &&
      utf8 (c_str str).
Proof.
  exists (escape (c_str str)). rewrite (json_string_text init append bd (Some str)). split; [done|].
  unfold json_literal_ok, utf8. by rewrite body_ok_escape, utf8_escape_from.
Qed.

(** A two-byte character is fine, a lone continuation byte, an overlong form and a
    surrogate are not. *)
Example utf8_examples :
  utf8 (String "195" (String "169" "")) = true /\ utf8 (String "169" "") = false /\
  utf8 (String "192" (String "175" "")) = false /\ utf8 (String "237" (String "160" (String "128" ""))) = false.
Proof. by vm_compute. Qed.

(** ** Witnesses: a pool of two workers *)
#[local] Existing Instances RefExt.ext RefExt.treiber RefExt.mpsc.

Definition text_init (_ : Z) : string := "".
#[local] Instance text_buffer : BufferSpec text_init String.append.
Proof. by refine {| bd_text := fun b => b |}. Defined.

Definition pool_st : st := after (UfsrvSchedulerPoolCreate 2 (Some "p")) boot.
Definition pool_cell : UfsrvSchedulerPool := MkPool 2%N 2 0 false.
Definition pool_workers_list : list ptr := [3%N; 5%N].
Definition pool_described : list described :=
  [(MkScheduler ([] : @mqueue RefExt.ext) 3 0%N 4%N false false false false 0%N, Some "p-0");
   (MkScheduler ([] : @mqueue RefExt.ext) 4 0%N 6%N false false false false 0%N, Some "p-1")].

Lemma pool_st_at : pool_at pool_st 1%N pool_cell pool_workers_list.
Proof. split_and!; [done|vm_compute; reflexivity..]. Qed.
Lemma pool_st_workers : workers_at pool_st pool_workers_list pool_described.
Proof. repeat constructor; try done; vm_compute; reflexivity. Qed.
Lemma pool_st_slots : Forall2 (slot_at pool_st) pool_workers_list [Some "p-0"; Some "p-1"].
Proof.
  pose proof pool_st_workers as Hw. inversion Hw as [|? ? ? ? H1 Hw2]; subst. inversion Hw2 as [|? ? ? ? H2 _]; subst.
  constructor; [right; eexists; apply H1|]. constructor; [right; eexists; apply H2|constructor].
Qed.

Lemma describe_renders_pool_witness :
  wp (body quiet_client) log (DescribeScheduler text_init String.append 1%N (Some "p-1") (Some "log "))
    (fun r s' => heap s' = heap pool_st /\ fds s' = fds pool_st /\ trace s' = trace pool_st /\
       match r with
       | None => Some "log " = None /\ oracle pool_st <> []
       | Some bd => bd_text text_init String.append bd =
           default "" (bd_text text_init String.append <$> Some "log ") ++
           pool_json pool_cell (shown (Some "p-1") pool_described)
       end) pool_st.
Proof.
  apply (describe_renders_pool text_init String.append quiet_client 1%N pool_cell pool_workers_list pool_described).
  - apply pool_st_at.
  - apply pool_st_workers.
Defined.

Lemma listing_in_bounds_witness :
  wp (body quiet_client) log (ListSchedulerWorkers 24 1%N)
    (fun r s' => heap s' = heap pool_st /\ fds s' = fds pool_st /\ trace s' = trace pool_st /\
       match r with
       | None => oracle pool_st <> []
       | Some b =>
           slab_size b = (24 + 8 * Z.of_nat (length (named [Some "p-0"; Some "p-1"])) + bytes (named [Some "p-0"; Some "p-1"]))%Z /\
           slab_collection_sz b = Z.of_nat (length (named [Some "p-0"; Some "p-1"])) /\
           slab_collection_base_offset b = 0%Z /\
           (slab_collection b = None <-> named [Some "p-0"; Some "p-1"] = []) /\
           forall i, i < length (named [Some "p-0"; Some "p-1"]) ->
             slab_name b i = c_str <$> named [Some "p-0"; Some "p-1"] !! i
       end) pool_st.
Proof.
  apply (listing_in_bounds 24 quiet_client 1%N pool_cell pool_workers_list).
  - apply pool_st_at.
  - apply pool_st_slots.
  - done.
  - reflexivity.
Defined.

(** The report on a pool of one worker, in full. *)
Definition one_pool_st : st := after (UfsrvSchedulerPoolCreate 1 None) boot.
Example describe_one :
  value None (DescribeScheduler text_init String.append 1%N None None) one_pool_st =
  Some (lit "{'worker_pool_sz':1,'round_robin_next':0,'pool_is_running':false,'workers':[" ++ lf ++
        lit "    {'name':'worker-0','is_running':false,'is_started':false,'is_joined':false," ++
        lit "'is_worker_id_ready':false,'worker_id':null,'event_fd':3}" ++ lf ++ "]}" ++ lf).
Proof. vm_compute. reflexivity. Qed.
